(* ===== verification/_CoqProject ===== *)
-Q . S2P
Prelude.v
Time.v
Utf8.v
Stream.v
Driver.v
LineParser.v
LineSpec.v
ParseLines.v
Collect.v
Visitors.v
Consumer.v
Retention.v
Broadcast.v
BroadcastSystem.v
BroadcastLiveness.v
FastBroadcast.v
SingleSubscriber.v
SingleSystem.v
SingleLiveness.v
LossySystem.v
EndToEnd.v
Errors.v
LineWaiter.v
ErrorSources.v
Shutdown.v
Process.v
Termination.v
Cleanup.v
TerminateOnDrop.v
OutputCollection.v
WaitBuilder.v
CollectedOutput.v
Backends.v
Naming.v
Spawn.v
Windows.v
