(* ===== verification/Prelude.v ===== *)
(** * tokio-process-tools: a verification library

    The crate spawns a child process with tokio, reads its stdout and stderr in
    background tasks, hands the bytes to consumers (line parsers, collectors,
    writers, waiters), and owns the child's life cycle: waiting, graceful
    escalation, forceful kill, and cleanup on drop.  This library models that
    program and proves what makes it correct.

    ** Parts and files

    - [Prelude] (this file): results, panics ([outcome]), machine words (a
      [usize] or [u64] is an [N] with the wrap-around written out), slices, the
      shared list lemmas and tactics.
    - [Time]: durations, and instants with the panic of [Instant + Duration] on
      a deadline that does not exist.
    - [Utf8]: [String::from_utf8_lossy] of the Rust library.
    - [Stream]: [src/output_stream/num_bytes.rs], [event.rs], [policy.rs],
      [config.rs], [visitor.rs] and the traits of [mod.rs] as type classes.
    - [Driver]: the loops of [consumer/driver.rs].
    - [LineParser], [LineSpec], [ParseLines]: [line/parser.rs],
      [line/options.rs], [line/adapter.rs]; [LineSpec] is the reference
      definition of the lines of a byte stream.
    - [Collect], [Visitors]: [visitors/collect.rs], [inspect.rs], [wait.rs],
      [write.rs].
    - [Consumer]: [consumer/mod.rs], the handle of a spawned task.
    - [Retention]: what a replay policy promises to keep.
    - [Broadcast], [BroadcastSystem], [BroadcastLiveness]: the fan-out path of
      [backend/broadcast/]; the second file is the step relation of reader,
      registry and subscriptions, with its invariant, the third shows that
      delivery ends.
    - [FastBroadcast]: [backend/broadcast/fast.rs] and its subscription, as
      operations and as a system, over tokio's broadcast channel.
    - [SingleSubscriber], [SingleSystem], [SingleLiveness], [LossySystem]:
      [backend/single_subscriber/], likewise; the second file is the system with
      reliable delivery, the third shows that its delivery ends, the fourth is
      the system with lossy delivery.
    - [EndToEnd]: the composition of reader, backend system, driver and line
      adapter, from the bytes of the child to the lines of a consumer.
    - [Errors], [ErrorSources]: [error.rs] and [termination/diagnostics.rs]; the
      second file has the messages and the sources of the errors.
    - [LineWaiter]: [wait_for_line] of both backends, and the discard backend.
    - [Shutdown], [Process], [Termination]: [process_handle/]: shutdown
      configuration, the handle and every operation on it, and the theorems.
      The code that both platforms share is written once, against the classes
      [Platform] and [Graceful]; their Unix instances are in [Process].
    - [Cleanup]: what termination promises the operations built on it, as the
      class [CleanupLaws], and its Unix instance; termination on drop and waiting
      with termination are proved against it.
    - [TerminateOnDrop]: [terminate_on_drop.rs] and [async_drop.rs].
    - [OutputCollection], [WaitBuilder]: [output_collection/] and
      [wait_builder.rs].
    - [CollectedOutput]: the wait builder on the single-subscriber backend's
      system, from the bytes of the child to the collected lines.
    - [Backends]: the stream types of the three backends behind the traits
      [OutputStream], [Subscribable] and [Consumable], their construction from a
      configuration, and [process_handle/replay.rs].
    - [Naming], [Spawn]: [process/name.rs], [stream_config.rs], [builder.rs],
      [process_handle/spawn.rs].
    - [Windows]: the Windows half of [group/mod.rs], [group/job_object.rs],
      [termination/mod.rs], [signal.rs] and [spawn.rs], and the Windows instances
      of [Platform], [Graceful] and [CleanupLaws].

    ** How the parts interact

    A reader task appends the events of a stream to a backend; a subscription
    takes them out; a driver task steps a visitor over a subscription; a
    consumer handle owns the driver task.  A process handle owns the two streams
    and the child; waiting with output spawns two consumers and drains them; a
    drop of an armed handle, or of its terminate-on-drop wrapper, tries to end
    the child.

    ** Modelling conventions

    A panic is [Panic], an error a [result].  A trait is a class and its
    implementations are instances.  Code outside the repository is a class of
    operations with its documented laws and a concrete instance: [Memchr] and
    [BytesMut] (line buffers), [Mpsc] and [TokioBroadcast] (tokio's channels),
    [Child], [Os] and their laws (the child and its process group), [Win32],
    [Spawner] (spawning), [AsyncWrite].  A future
    is a function of the schedule of what happens while it is awaited, and
    returns a pending value if the schedule ends first; the concurrent systems
    are step relations whose reachable states carry an invariant.  Loops without
    a structural measure take fuel; their fuel is the length of the data they
    consume (the chunk, the queue, the buffer), and the totality lemmas
    ([next_line_bounded], [parse_loop_ok], [evict_ok], the trimming lemmas) show
    that it is enough.

    ** What the theorems show

    - Lines: however a stream is cut into chunks, a visitor receives exactly the
      lines of its bytes; a gap drops exactly the line it tore; the buffer and
      every line are bounded; where no line is cut at the limit, the lines are
      those of the decoded text.
    - End to end: a line consumer of a reliable stream of either backend with full
      replay returns from exactly the lines of the bytes the child wrote, once delivery,
      which ends, has run its course; a consumer of a lossy stream that is due the
      whole stream from a subsequence of them, and it is told when lines may be
      missing.
    - Sinks: what a bounded collector holds after any history; writers are
      round trips and stop at the first failure when told to.
    - Backends: under reliable delivery a subscriber receives exactly the events
      of the stream from where it subscribed, under lossy delivery every loss is
      marked by a gap, in the fan-out path, the fast path and the
      single-subscriber backend; delivery cannot deadlock; replay holds what the
      policy retains, and sealing it is final; the terminal event is last; a
      single-subscriber stream has one consumer at a time; the staged builder
      yields only configurations a backend can be opened with.
    - Life cycle: termination follows the configured protocol for every
      behaviour of the system, signals only the child's group, in order, within
      its time budget; the drop guard is disarmed exactly when the child is
      known to be gone; no drop of an armed handle and no terminating wait gives
      up on a child before its exit was seen or the forceful kill was tried, and
      a kill the system refused is told apart from one it carried out; no consumer task outlives its
      handle or the operation that spawned it; waiting with output returns
      exactly the lines the child wrote, also of a process that had to be
      terminated.  On Windows termination follows its two-phase protocol, a live
      child is in a job its group owns, no kernel handle is leaked when the job
      cannot be set up, and a drop's kill is the termination of that job.

    Nine lemmas record behaviour that contradicts the documentation or the
    intent of the code: [single_lossy_replay_hole], [fast_read_error_twice],
    [job_assign_error_lost], [oversized_buffer_orphans_child],
    [oversized_buffer_panics], [graceful_phases_exceed_total_timeout],
    [cancel_duration_max_panics], [oversized_eof_timeout_panics] and
    [lowered_limit_exceeded].

    ** Not modelled

    Logging, [Debug] output, accessors that only return a field, conversions
    between byte types, the re-exports of [lib.rs], tests, examples and
    benchmarks.  Targets that are neither Unix nor
    Windows have no graceful termination and are left out.  The largest
    capacities of tokio's two channels are modelled, running out of memory is
    not.  Time is counted by the bounds given to the waits, and an instant
    exists up to the last one of the platform; the scheduler is an arbitrary
    schedule. *)

From stdpp Require Export base tactics list numbers option sets strings gmap.
From Stdlib Require Export Strings.Byte.
Export ListNotations.

(** ** Fallible results

    [result] is Rust's [Result]; [outcome] is a computation that may panic
    ([assert!], [expect], [panic!]).  Both are monads for stdpp's notation
    [x ← m; k]. *)

Inductive result (A E : Type) : Type :=
| Ok (a : A)
| Err (e : E).

Arguments Ok {A E} a.
Arguments Err {A E} e.

Inductive outcome (A : Type) : Type :=
| Done (a : A)
| Panic.

Arguments Done {A} a.
Arguments Panic {A}.

#[export] Instance outcome_ret : MRet outcome := @Done.
#[export] Instance outcome_bind : MBind outcome := λ A B f m,
  match m with Done a => f a | Panic => Panic end.
#[export] Instance outcome_fmap : FMap outcome := λ A B f m,
  match m with Done a => Done (f a) | Panic => Panic end.

(** [assert!(b)]. *)
Definition assert_that (b : bool) : outcome unit :=
  if b then Done () else Panic.

(** [Option::expect]. *)
Definition expect {A} (o : option A) : outcome A :=
  match o with Some a => Done a | None => Panic end.

Definition is_ok {A E} (r : result A E) : bool :=
  match r with Ok _ => true | Err _ => false end.

Definition map_err {A E F} (f : E → F) (r : result A E) : result A F :=
  match r with Ok a => Ok a | Err e => Err (f e) end.

#[export] Instance result_eq_dec `{EqDecision A, EqDecision E} :
  EqDecision (result A E).
Proof. solve_decision. Defined.
#[export] Instance outcome_eq_dec `{EqDecision A} : EqDecision (outcome A).
Proof. solve_decision. Defined.
#[export] Instance byte_eq_decision : EqDecision byte := Byte.byte_eq_dec.

(** ** Machine integers

    The crate's counters are [usize] and [u64]; both are 64 bits wide on the
    targets considered here.  The unchecked operators wrap, as they do in a
    build without overflow checks; the theorems about the components show
    that no wrap happens, so a build with overflow checks behaves the same. *)

Declare Scope machine_scope.
Delimit Scope machine_scope with mach.

Definition word_modulus : N := 2 ^ 64.
Definition usize_max : N := word_modulus - 1.

Definition wrapping_add (a b : N) : N := (a + b) `mod` word_modulus.
Definition wrapping_sub (a b : N) : N :=
  (a + (word_modulus - b `mod` word_modulus)) `mod` word_modulus.
Definition wrapping_mul (a b : N) : N := (a * b) `mod` word_modulus.
Definition saturating_sub (a b : N) : N := a - b.
Definition saturating_add (a b : N) : N := (a + b) `min` usize_max.

Notation "a +! b" := (wrapping_add a b) (at level 50, left associativity) : machine_scope.
Notation "a -! b" := (wrapping_sub a b) (at level 50, left associativity) : machine_scope.
Notation "a *! b" := (wrapping_mul a b) (at level 40, left associativity) : machine_scope.
Open Scope machine_scope.
Open Scope N_scope.

(** Lengths as machine integers, and the slices [&l[..n]] and [&l[n..]]. *)
Definition len {A} (l : list A) : N := N.of_nat (length l).
Definition slice_to {A} (n : N) (l : list A) : list A := take (N.to_nat n) l.
Definition slice_from {A} (n : N) (l : list A) : list A := drop (N.to_nat n) l.

(** ** Strings and bytes *)

(** A Rust [String] or [str] is the list of its UTF-8 bytes. *)
Definition str : Type := list byte.
Definition newline : byte := x0a.
Definition bytes_of (s : String.string) : list byte := String.list_byte_of_string s.
Arguments bytes_of s%_string_scope.

(** ** Automation *)

Create HintDb machine.
Create Rewrite HintDb machine.

(** Splits every conditional and match the goal is stuck on. *)
Ltac split_cases :=
  repeat (case_match || case_bool_decide || case_decide); simplify_eq/=.

(** ** Arithmetic lemmas *)

Lemma word_modulus_pos : 0 < word_modulus.
Proof. reflexivity. Qed.

Lemma wrapping_add_small a b : a + b < word_modulus → a +! b = a + b.
Proof. intros. unfold wrapping_add. by apply N.mod_small. Qed.

Lemma wrapping_mul_small a b : a * b < word_modulus → a *! b = a * b.
Proof. intros. unfold wrapping_mul. by apply N.mod_small. Qed.

Lemma wrapping_sub_small a b : b ≤ a → a < word_modulus → a -! b = a - b.
Proof.
  intros Hle Hlt. unfold wrapping_sub. rewrite (N.mod_small b) by lia.
  replace (a + (word_modulus - b)) with (a - b + 1 * word_modulus) by lia.
  rewrite N.Div0.mod_add. apply N.mod_small. lia.
Qed.

Lemma saturating_add_bound a b : saturating_add a b ≤ usize_max.
Proof. unfold saturating_add. lia. Qed.

(** ** List lemmas *)

Section lists.
Context {A : Type}.
Implicit Types l k : list A.

Lemma len_nil : len (@nil A) = 0.
Proof. reflexivity. Qed.
Lemma len_cons x l : len (x :: l) = 1 + len l.
Proof. unfold len. simpl. lia. Qed.
Lemma len_app l k : len (l ++ k) = len l + len k.
Proof. unfold len. rewrite length_app. lia. Qed.
Lemma len_zero l : len l = 0 ↔ l = [].
Proof. unfold len. destruct l; simpl; split; try done; lia. Qed.
Lemma len_slice_to n l : len (slice_to n l) = n `min` len l.
Proof. unfold len, slice_to. rewrite length_take. lia. Qed.
Lemma len_slice_from n l : len (slice_from n l) = len l - n.
Proof. unfold len, slice_from. rewrite length_drop. lia. Qed.
Lemma slice_to_from n l : slice_to n l ++ slice_from n l = l.
Proof. apply take_drop. Qed.
Lemma slice_to_all n l : len l ≤ n → slice_to n l = l.
Proof. intros. apply take_ge. unfold len in *. lia. Qed.
Lemma slice_from_all n l : len l ≤ n → slice_from n l = [].
Proof. intros. apply drop_ge. unfold len in *. lia. Qed.
Lemma slice_from_app l k : slice_from (len l) (l ++ k) = k.
Proof. unfold slice_from, len. rewrite Nat2N.id. apply drop_app_length. Qed.
Lemma slice_to_app l k : slice_to (len l) (l ++ k) = l.
Proof. unfold slice_to, len. rewrite Nat2N.id. apply take_app_length. Qed.
Lemma slice_to_app_le n l k : n ≤ len l → slice_to n (l ++ k) = slice_to n l.
Proof. unfold slice_to, len. intros. apply take_app_le. lia. Qed.
Lemma slice_from_app_le n l k : n ≤ len l → slice_from n (l ++ k) = slice_from n l ++ k.
Proof. unfold slice_from, len. intros. apply drop_app_le. lia. Qed.
Lemma slice_to_length_lt n l : len (slice_to n l) ≤ n.
Proof. rewrite len_slice_to. lia. Qed.

End lists.

#[export] Hint Rewrite @len_nil @len_cons @len_app @len_slice_to @len_slice_from : machine.

Lemma map_Forall_insert_others `{Countable K} {A} (P : K → A → Prop) (m : gmap K A) i x :
  P i x → (∀ j y, j ≠ i → m !! j = Some y → P j y) → map_Forall P (<[i := x]> m).
Proof.
  intros Hx Hm j y [[-> ->]|[Hne Hy]]%lookup_insert_Some; [done|]. by apply Hm.
Qed.

Lemma map_Forall_delete_others `{Countable K} {A} (P : K → A → Prop) (m : gmap K A) i :
  (∀ j y, j ≠ i → m !! j = Some y → P j y) → map_Forall P (delete i m).
Proof. intros Hm j y [Hne Hy]%lookup_delete_Some. by apply Hm. Qed.

(** Goals about lengths, decided after pushing [len] to the leaves. *)
Ltac len_lia :=
  unfold slice_to, slice_from, len in *;
  rewrite ?length_app, ?length_take, ?length_drop in *; cbn [length] in *; lia.

(** ** Sums over a map *)

Definition map_sum {K A} `{Countable K} (f : A → nat) (m : gmap K A) : nat :=
  map_fold (λ _ a n, f a + n)%nat 0%nat m.

Lemma map_sum_insert {K A} `{Countable K} (f : A → nat) (m : gmap K A) k a a' :
  m !! k = Some a → (map_sum f (<[k := a']> m) + f a = map_sum f m + f a')%nat.
Proof.
  intros Hk. unfold map_sum. rewrite <- insert_delete_eq.
  rewrite map_fold_insert_L; [|lia|apply lookup_delete_eq].
  rewrite (map_fold_delete_L (λ _ a n, f a + n)%nat 0%nat k a m); [lia|lia|done].
Qed.
