(* ===== verification/Time.v ===== *)
(** * Durations and instants

    What the sources use of [std::time]: a [Duration] is its number of
    nanoseconds, an [Instant] the number of nanoseconds since the origin of the
    monotonic clock.  Sums that cannot be represented panic. *)

From S2P Require Import Prelude.

Abbreviation Duration := N (only parsing).

Definition NANOS_PER_SEC : N := 1000000000.
Definition DURATION_MAX : Duration := word_modulus * NANOS_PER_SEC - 1.
Definition from_secs (n : N) : Duration := n * NANOS_PER_SEC.
Definition from_millis (n : N) : Duration := n * 1000000.

(** [Iterator::sum] over durations; it panics on overflow. *)
Definition total_duration (ds : list Duration) : Duration := foldr N.add 0 ds.
Definition sum_durations (ds : list Duration) : outcome Duration :=
  if total_duration ds <=? DURATION_MAX then Done (total_duration ds) else Panic.

(** ** Deadlines *)

Abbreviation Instant := N (only parsing).

(** What [Instant::now()] answers, and the last instant the platform has. *)
Record Clock : Type := mkClock { now : Instant; last_instant : Instant }.

(** On Unix an instant is a [timespec] with signed 64-bit seconds; on Windows it
    is a [Duration]. *)
Definition UNIX_LAST_INSTANT : Instant := (2 ^ 63 - 1) * NANOS_PER_SEC + (NANOS_PER_SEC - 1).
Definition WINDOWS_LAST_INSTANT : Instant := DURATION_MAX.

(** [Instant::now() + timeout]. *)
Definition instant_add (c : Clock) (d : Duration) : outcome Instant :=
  if now c + d <=? last_instant c then Done (now c + d) else Panic.

(** The deadline the sum stands for exists. *)
Definition representable (c : Clock) (d : Duration) : Prop := now c + d ≤ last_instant c.

#[export] Instance representable_dec c d : Decision (representable c d).
Proof. unfold representable. apply _. Defined.

Lemma instant_add_spec c d :
  instant_add c d = if decide (representable c d) then Done (now c + d) else Panic.
Proof.
  unfold instant_add. destruct (N.leb_spec (now c + d) (last_instant c)) as [Hle|Hlt].
  - by rewrite decide_True.
  - rewrite decide_False; [done|]. unfold representable. lia.
Qed.

Lemma instant_add_done c d : representable c d → instant_add c d = Done (now c + d).
Proof. intros Hr. by rewrite instant_add_spec, decide_True. Qed.

Lemma instant_add_panic c d : ¬ representable c d → instant_add c d = Panic.
Proof. intros Hr. by rewrite instant_add_spec, decide_False. Qed.

(** Every timeout of up to 146 billion years fits as long as the clock is in the
    first half of its range; the longest [Duration] never does. *)
Lemma representable_unix t d :
  t ≤ UNIX_LAST_INSTANT / 2 → d ≤ UNIX_LAST_INSTANT / 2 → representable (mkClock t UNIX_LAST_INSTANT) d.
Proof.
  unfold representable. cbn [now last_instant]. generalize UNIX_LAST_INSTANT. intros n Ht Hd.
  pose proof (N.Div0.mul_div_le n 2). lia.
Qed.

Lemma duration_max_unrepresentable t : ¬ representable (mkClock t UNIX_LAST_INSTANT) DURATION_MAX.
Proof. unfold representable. cbn. unfold UNIX_LAST_INSTANT, DURATION_MAX, word_modulus, NANOS_PER_SEC. lia. Qed.
