(* ===== verification/Utf8.v ===== *)
(** * UTF-8 decoding of emitted lines

    [src/output_stream/line/parser.rs] turns the bytes of every emitted line
    into text with [String::from_utf8_lossy].  This file models that routine of
    the standard library on byte lists: a [String] is the list of its UTF-8
    bytes, an ill-formed sequence is replaced by U+FFFD, and the length of the
    replaced sequence follows the table of well-formed byte sequences of the
    Unicode standard. *)

From S2P Require Import Prelude.

(** ** Definitions *)

Definition in_range (lo hi : N) (b : byte) : bool :=
  (lo <=? Byte.to_N b) && (Byte.to_N b <=? hi).

Definition is_ascii (b : byte) : bool := in_range 0 0x7f b.
Definition is_continuation (b : byte) : bool := in_range 0x80 0xbf b.

(** The number of bytes announced by the first byte of a sequence; [0] for a
    byte that cannot start one. *)
Definition utf8_char_width (b : byte) : N :=
  if is_ascii b then 1
  else if in_range 0xc2 0xdf b then 2
  else if in_range 0xe0 0xef b then 3
  else if in_range 0xf0 0xf4 b then 4
  else 0.

(** Which second bytes may follow a first byte of a three- or four-byte
    sequence (no overlong forms, no surrogates, nothing above U+10FFFF). *)
Definition second_byte_ok (b0 b1 : byte) : bool :=
  if in_range 0xe0 0xe0 b0 then in_range 0xa0 0xbf b1
  else if in_range 0xed 0xed b0 then in_range 0x80 0x9f b1
  else if in_range 0xf0 0xf0 b0 then in_range 0x90 0xbf b1
  else if in_range 0xf4 0xf4 b0 then in_range 0x80 0x8f b1
  else is_continuation b1.

(** U+FFFD, the replacement character. *)
Definition replacement : str := [xef; xbf; xbd].

(** Reading past the end yields a zero byte, which continues no sequence. *)
Definition safe_get (l : list byte) (i : nat) : byte := default x00 (l !! i).

(** One step of the decoder at first byte [b0] with [t] behind it: whether a
    well-formed character starts here, and the number of bytes it takes; for
    an ill-formed sequence, the number of bytes replaced by one U+FFFD. *)
Definition next_char (b0 : byte) (t : list byte) : bool * nat :=
  match utf8_char_width b0 with
  | 1 => (true, 1%nat)
  | 2 => if is_continuation (safe_get t 0) then (true, 2%nat) else (false, 1%nat)
  | 3 =>
      if second_byte_ok b0 (safe_get t 0) then
        if is_continuation (safe_get t 1) then (true, 3%nat) else (false, 2%nat)
      else (false, 1%nat)
  | 4 =>
      if second_byte_ok b0 (safe_get t 0) then
        if is_continuation (safe_get t 1) then
          if is_continuation (safe_get t 2) then (true, 4%nat) else (false, 3%nat)
        else (false, 2%nat)
      else (false, 1%nat)
  | _ => (false, 1%nat)
  end.

Fixpoint utf8_chunks (fuel : nat) (l : list byte) : str :=
  match fuel, l with
  | S fuel, b0 :: t =>
      let '(ok, k) := next_char b0 t in
      (if ok then take k l else replacement) ++ utf8_chunks fuel (drop k l)
  | _, _ => []
  end.

Definition from_utf8_lossy (l : list byte) : str := utf8_chunks (length l) l.

(** One well-formed UTF-8 encoded character. *)
Inductive utf8_char : list byte → Prop :=
| utf8_char_1 b0 :
    utf8_char_width b0 = 1 → utf8_char [b0]
| utf8_char_2 b0 b1 :
    utf8_char_width b0 = 2 → is_continuation b1 = true → utf8_char [b0; b1]
| utf8_char_3 b0 b1 b2 :
    utf8_char_width b0 = 3 → second_byte_ok b0 b1 = true →
    is_continuation b2 = true → utf8_char [b0; b1; b2]
| utf8_char_4 b0 b1 b2 b3 :
    utf8_char_width b0 = 4 → second_byte_ok b0 b1 = true →
    is_continuation b2 = true → is_continuation b3 = true →
    utf8_char [b0; b1; b2; b3].

(** Well-formed UTF-8 text: a sequence of encoded characters. *)
Inductive valid_utf8 : list byte → Prop :=
| valid_utf8_nil : valid_utf8 []
| valid_utf8_cons c l : utf8_char c → valid_utf8 l → valid_utf8 (c ++ l).

Create HintDb utf8.
#[export] Hint Constructors utf8_char valid_utf8 : utf8.

(** ** Lemmas *)

Lemma replacement_char : utf8_char replacement.
Proof. by apply utf8_char_3. Qed.

#[export] Hint Resolve replacement_char : utf8.

Lemma utf8_char_nonempty c : utf8_char c → c ≠ [].
Proof. by destruct 1. Qed.

(** What a step of the decoder promises: it consumes between one byte and the
    whole input, and a sequence it accepts is one well-formed character. *)
Lemma next_char_spec b0 t ok k :
  next_char b0 t = (ok, k) →
  (1 ≤ k ≤ S (length t))%nat ∧ (ok = true → utf8_char (take k (b0 :: t))).
Proof.
  unfold next_char, safe_get. intros H.
  destruct t as [|b1 [|b2 [|b3 t]]]; simpl in H;
    repeat case_match; simplify_eq/=; split; try lia; intros; simplify_eq;
    eauto with utf8; unfold second_byte_ok in *; repeat case_match; discriminate.
Qed.

Lemma next_char_char c l b0 t :
  utf8_char c → c ++ l = b0 :: t → next_char b0 t = (true, length c).
Proof.
  intros Hc Heq. destruct Hc; simplify_eq/=; unfold next_char, safe_get; simpl;
    repeat match goal with E : _ = _ |- _ => rewrite E; clear E end; done.
Qed.

Lemma utf8_chunks_fuel n m l :
  (length l ≤ n)%nat → (length l ≤ m)%nat → utf8_chunks n l = utf8_chunks m l.
Proof.
  revert m l. induction n as [|n IH]; intros m [|b0 t] Hn Hm; simpl in *; try lia;
    destruct m as [|m]; simpl; try done; try lia.
  destruct (next_char b0 t) as [ok k] eqn:E. apply next_char_spec in E as [Hk _].
  f_equal. apply IH; rewrite length_drop; simpl; lia.
Qed.

(** The defining equation of the decoder, without fuel. *)
Lemma from_utf8_lossy_cons b0 t ok k :
  next_char b0 t = (ok, k) →
  from_utf8_lossy (b0 :: t) =
    (if ok then take k (b0 :: t) else replacement) ++ from_utf8_lossy (drop k (b0 :: t)).
Proof.
  intros E. unfold from_utf8_lossy. simpl. rewrite E. f_equal.
  apply next_char_spec in E as [Hk _].
  apply utf8_chunks_fuel; rewrite length_drop; simpl; lia.
Qed.

(** Induction along the decoder's steps. *)
Lemma decoder_ind (P : list byte → Prop) :
  P [] →
  (∀ b0 t ok k, next_char b0 t = (ok, k) → P (drop k (b0 :: t)) → P (b0 :: t)) →
  ∀ l, P l.
Proof.
  intros Hnil Hcons l. induction l as [l IH] using (induction_ltof1 _ length).
  destruct l as [|b0 t]; [done|].
  destruct (next_char b0 t) as [ok k] eqn:E.
  apply (Hcons _ _ _ _ E), IH. apply next_char_spec in E as [Hk _].
  unfold ltof. rewrite length_drop. simpl. lia.
Qed.

Lemma valid_utf8_app l k : valid_utf8 l → valid_utf8 k → valid_utf8 (l ++ k).
Proof. induction 1; intros; rewrite <- ?(assoc_L (++)); simpl; auto with utf8. Qed.

Lemma from_utf8_lossy_char c l :
  utf8_char c → from_utf8_lossy (c ++ l) = c ++ from_utf8_lossy l.
Proof.
  intros Hc. pose proof (utf8_char_nonempty _ Hc).
  destruct (c ++ l) as [|b0 t] eqn:E; [by destruct c|].
  erewrite from_utf8_lossy_cons by (eapply next_char_char; eauto).
  rewrite <- E, take_app_length, drop_app_length. done.
Qed.

(** A byte below 0x80 neither continues a sequence nor is allowed second. *)
Lemma ascii_not_continuation b : is_ascii b = true → is_continuation b = false.
Proof.
  unfold is_ascii, is_continuation, in_range. rewrite !andb_true_iff, !N.leb_le.
  intros [_ H]. apply andb_false_iff. left. apply N.leb_gt. lia.
Qed.

Lemma ascii_not_second b0 b : is_ascii b = true → second_byte_ok b0 b = false.
Proof.
  intros H. unfold second_byte_ok. rewrite (ascii_not_continuation _ H).
  unfold is_ascii, in_range in *. rewrite !andb_true_iff, !N.leb_le in H.
  repeat case_match; try done; apply andb_false_iff; left; apply N.leb_gt; lia.
Qed.

(** The decoder's step cannot look past a byte below 0x80. *)
Lemma next_char_ascii_stop b0 t b l :
  is_ascii b = true → next_char b0 (t ++ b :: l) = next_char b0 t.
Proof.
  intros Hb. pose proof (ascii_not_continuation _ Hb) as Hc.
  pose proof (λ b0, ascii_not_second b0 _ Hb) as Hs.
  pose proof (ascii_not_continuation x00 eq_refl) as H0.
  pose proof (λ b0, ascii_not_second b0 x00 eq_refl) as H0s.
  unfold next_char, safe_get. destruct t as [|b1 [|b2 [|b3 t]]]; simpl;
    rewrite ?Hc, ?Hs, ?H0, ?H0s; done.
Qed.

Lemma from_utf8_lossy_ascii b l :
  is_ascii b = true → from_utf8_lossy (b :: l) = b :: from_utf8_lossy l.
Proof.
  intros Hb. apply (from_utf8_lossy_char [b]). apply utf8_char_1.
  unfold utf8_char_width. by rewrite Hb.
Qed.

(** Decoding splits at every byte below 0x80. *)
Lemma from_utf8_lossy_split l b k :
  is_ascii b = true →
  from_utf8_lossy (l ++ b :: k) = from_utf8_lossy l ++ b :: from_utf8_lossy k.
Proof.
  intros Hb. induction l as [|b0 t ok n E IH] using decoder_ind.
  - by apply from_utf8_lossy_ascii.
  - pose proof (next_char_spec _ _ _ _ E) as [Hn _].
    rewrite (from_utf8_lossy_cons _ _ _ _ E). simpl (_ ++ b :: k).
    erewrite from_utf8_lossy_cons by (rewrite next_char_ascii_stop; done).
    change (b0 :: t ++ b :: k) with ((b0 :: t) ++ b :: k).
    rewrite take_app_le, drop_app_le, IH by (simpl; lia).
    by rewrite (assoc_L (++)).
Qed.

(** ** Properties *)

Lemma from_utf8_lossy_valid l : valid_utf8 (from_utf8_lossy l).
Proof.
  induction l as [|b0 t ok k E IH] using decoder_ind; [constructor|].
  rewrite (from_utf8_lossy_cons _ _ _ _ E).
  apply next_char_spec in E as [_ Hchar].
  constructor; [|done]. destruct ok; auto with utf8.
Qed.

Lemma from_utf8_lossy_id l : valid_utf8 l → from_utf8_lossy l = l.
Proof. induction 1; [done|]. rewrite from_utf8_lossy_char; congruence. Qed.

Lemma from_utf8_lossy_length l :
  (length (from_utf8_lossy l) ≤ 3 * length l)%nat.
Proof.
  induction l as [|b0 t ok k E IH] using decoder_ind; [done|].
  rewrite (from_utf8_lossy_cons _ _ _ _ E), length_app.
  apply next_char_spec in E as [Hk _]. rewrite length_drop in IH. simpl in *.
  destruct ok; rewrite ?length_take; simpl in *; lia.
Qed.

(** The repository's own test input for ill-formed text. *)
Example from_utf8_lossy_test :
  from_utf8_lossy (bytes_of "utf8" ++ [xf0; x28; x8c; xbc] ++ bytes_of " x")
  = bytes_of "utf8" ++ replacement ++ [x28] ++ replacement ++ replacement ++ bytes_of " x".
Proof. reflexivity. Qed.
