(* ===== verification/Stream.v ===== *)
(** * Core abstractions of the output-stream subsystem

    Byte counts ([num_bytes.rs]), stream events ([event.rs]), delivery and
    replay policies ([policy.rs]), the stream configuration with its staged
    builder ([config.rs]) and the traits that connect a stream to its
    consumers ([visitor.rs], [output_stream/mod.rs]).  A Rust trait is a type
    class; a constructor that asserts its argument returns an [outcome]. *)

From S2P Require Import Prelude.

(** ** Byte counts *)

Record NumBytes : Type := mkNumBytes { bytes : N }.

#[export] Instance NumBytes_eq_dec : EqDecision NumBytes.
Proof. solve_decision. Defined.

Module NumBytes.

Definition MAX : NumBytes := mkNumBytes usize_max.
Definition zero : NumBytes := mkNumBytes 0.

Definition assert_non_zero (n : NumBytes) : outcome unit :=
  assert_that (0 <? bytes n).

(** The extension methods on [usize]; their multiplications are unchecked. *)
Definition of_bytes (n : N) : NumBytes := mkNumBytes n.
Definition kilobytes (n : N) : NumBytes := mkNumBytes (n *! 1024).
Definition megabytes (n : N) : NumBytes := mkNumBytes (n *! 1024 *! 1024).

End NumBytes.

(** ** Errors and events *)

Inductive ErrorKind : Type :=
| NotFound | PermissionDenied | BrokenPipe | Interrupted | InvalidData
| UnexpectedEof | TimedOut | Other.

Record io_error : Type := mkIoError { kind : ErrorKind; message : String.string }.

Record StreamReadError : Type := mkStreamReadError {
  sre_stream_name : String.string;
  sre_source : io_error;
}.

#[export] Instance ErrorKind_eq_dec : EqDecision ErrorKind.
Proof. solve_decision. Defined.
#[export] Instance io_error_eq_dec : EqDecision io_error.
Proof. solve_decision. Defined.
#[export] Instance StreamReadError_eq_dec : EqDecision StreamReadError.
Proof. solve_decision. Defined.

(** [PartialEq] of [StreamReadError] compares the stream and the error's
    kind only. *)
Definition StreamReadError_eqb (a b : StreamReadError) : bool :=
  bool_decide (sre_stream_name a = sre_stream_name b)
  && bool_decide (kind (sre_source a) = kind (sre_source b)).

(** The bytes of one chunk. *)
Definition chunk : Type := list byte.

Inductive StreamEvent : Type :=
| Chunk (c : chunk)
| Gap
| Eof
| ReadError (err : StreamReadError).

#[export] Instance StreamEvent_eq_dec : EqDecision StreamEvent.
Proof. solve_decision. Defined.

(** [matches!(event, StreamEvent::Eof | StreamEvent::ReadError(_))]. *)
Definition is_terminal (e : StreamEvent) : bool :=
  match e with Eof | ReadError _ => true | Chunk _ | Gap => false end.

(** The payload of an event: what it adds to the stream's bytes. *)
Definition event_bytes (e : StreamEvent) : list byte :=
  match e with Chunk c => c | Gap | Eof | ReadError _ => [] end.

Inductive Next : Type := Continue | Break.

#[export] Instance Next_eq_dec : EqDecision Next.
Proof. solve_decision. Defined.

(** ** Policies *)

Inductive DeliveryGuarantee : Type :=
| GLossyWithoutBackpressure
| GReliableWithBackpressure.

Inductive ReplayRetention : Type :=
| LastChunks (n : N)
| LastBytes (n : NumBytes)
| All.

#[export] Instance DeliveryGuarantee_eq_dec : EqDecision DeliveryGuarantee.
Proof. solve_decision. Defined.
#[export] Instance ReplayRetention_eq_dec : EqDecision ReplayRetention.
Proof. solve_decision. Defined.

Definition retention_assert_non_zero (r : ReplayRetention) : outcome unit :=
  match r with
  | LastChunks 0 => Panic
  | LastBytes n => if bytes n =? 0 then Panic else Done ()
  | LastChunks _ | All => Done ()
  end.

(** The delivery markers. *)
Class Delivery (D : Type) := guarantee : D → DeliveryGuarantee.

Inductive LossyWithoutBackpressure : Type := Lossy.
Inductive ReliableWithBackpressure : Type := Reliable.

#[export] Instance lossy_delivery : Delivery LossyWithoutBackpressure :=
  λ _, GLossyWithoutBackpressure.
#[export] Instance reliable_delivery : Delivery ReliableWithBackpressure :=
  λ _, GReliableWithBackpressure.

(** The replay markers. *)
Class Replay (R : Type) := {
  replay_retention : R → option ReplayRetention;
  replay_enabled : R → bool;
}.

Inductive NoReplay : Type := NoReplayMarker.
Record ReplayEnabled : Type := mkReplayEnabled { enabled_retention : ReplayRetention }.

Definition ReplayEnabled_new (r : ReplayRetention) : outcome ReplayEnabled :=
  _ ← retention_assert_non_zero r; mret (mkReplayEnabled r).

#[export] Instance no_replay_replay : Replay NoReplay := {|
  replay_retention _ := None;
  replay_enabled _ := false;
|}.
#[export] Instance replay_enabled_replay : Replay ReplayEnabled := {|
  replay_retention r := Some (enabled_retention r);
  replay_enabled _ := true;
|}.

(** The trait's two methods agree: replay is enabled when a retention is
    configured. *)
Class ReplayLaws (R : Type) `{Replay R} : Prop :=
  replay_enabled_spec (r : R) : replay_enabled r = true ↔ is_Some (replay_retention r).

#[export] Instance no_replay_laws : ReplayLaws NoReplay.
Proof. intros []. simpl. split; [done|]. by intros [? [=]]. Qed.
#[export] Instance replay_enabled_laws : ReplayLaws ReplayEnabled.
Proof. intros r. simpl. split; [by eexists|done]. Qed.

(** ** Stream configuration *)

Definition DEFAULT_READ_CHUNK_SIZE : NumBytes := mkNumBytes (16 * 1024).
Definition DEFAULT_MAX_BUFFERED_CHUNKS : N := 128.

Definition assert_max_buffered_chunks_non_zero (chunks : N) : outcome unit :=
  assert_that (0 <? chunks).

Record StreamConfig (D R : Type) : Type := mkStreamConfig {
  read_chunk_size : NumBytes;
  max_buffered_chunks : N;
  delivery : D;
  replay : R;
}.
Arguments mkStreamConfig {D R}.
Arguments read_chunk_size {D R}.
Arguments max_buffered_chunks {D R}.
Arguments delivery {D R}.
Arguments replay {D R}.

Section config.
Context {D R : Type} `{Delivery D, Replay R}.
Implicit Types c : StreamConfig D R.

Definition delivery_guarantee c : DeliveryGuarantee := guarantee (delivery c).
Definition config_replay_retention c : option ReplayRetention := replay_retention (replay c).
Definition config_replay_enabled c : bool := replay_enabled (replay c).

Definition assert_valid c : outcome unit :=
  _ ← NumBytes.assert_non_zero (read_chunk_size c);
  _ ← assert_max_buffered_chunks_non_zero (max_buffered_chunks c);
  match config_replay_retention c with
  | Some r => retention_assert_non_zero r
  | None => Done ()
  end.

End config.

Definition with_replay_retention {D} (c : StreamConfig D ReplayEnabled)
    (r : ReplayRetention) : outcome (StreamConfig D ReplayEnabled) :=
  _ ← retention_assert_non_zero r;
  mret (mkStreamConfig (read_chunk_size c) (max_buffered_chunks c) (delivery c)
    (mkReplayEnabled r)).

(** The builder's stages, in the order the types force. *)
Module Builder.

Inductive StreamConfigBuilder : Type := builder.

Record StreamConfigReplayBuilder (D : Type) := mkReplayStage { stage1_delivery : D }.
Arguments mkReplayStage {D}.
Arguments stage1_delivery {D}.

Record StreamConfigReadChunkSizeBuilder (D R : Type) := mkReadChunkSizeStage {
  stage2_delivery : D; stage2_replay : R }.
Arguments mkReadChunkSizeStage {D R}.
Arguments stage2_delivery {D R}.
Arguments stage2_replay {D R}.

Record StreamConfigMaxBufferedChunksBuilder (D R : Type) := mkMaxBufferedStage {
  stage3_delivery : D; stage3_replay : R; stage3_read_chunk_size : NumBytes }.
Arguments mkMaxBufferedStage {D R}.
Arguments stage3_delivery {D R}.
Arguments stage3_replay {D R}.
Arguments stage3_read_chunk_size {D R}.

Record StreamConfigReadyBuilder (D R : Type) := mkReadyStage { ready_config : StreamConfig D R }.
Arguments mkReadyStage {D R}.
Arguments ready_config {D R}.

Definition lossy_without_backpressure (_ : StreamConfigBuilder) :
    StreamConfigReplayBuilder LossyWithoutBackpressure := mkReplayStage Lossy.
Definition reliable_with_backpressure (_ : StreamConfigBuilder) :
    StreamConfigReplayBuilder ReliableWithBackpressure := mkReplayStage Reliable.

Section stages.
Context {D : Type}.

Definition no_replay (s : StreamConfigReplayBuilder D) :
    StreamConfigReadChunkSizeBuilder D NoReplay :=
  mkReadChunkSizeStage (stage1_delivery s) NoReplayMarker.

Definition replay_last_chunks (s : StreamConfigReplayBuilder D) (chunks : N) :
    outcome (StreamConfigReadChunkSizeBuilder D ReplayEnabled) :=
  let r := LastChunks chunks in
  _ ← retention_assert_non_zero r;
  e ← ReplayEnabled_new r;
  mret (mkReadChunkSizeStage (stage1_delivery s) e).

Definition replay_last_bytes (s : StreamConfigReplayBuilder D) (n : NumBytes) :
    outcome (StreamConfigReadChunkSizeBuilder D ReplayEnabled) :=
  let r := LastBytes n in
  _ ← retention_assert_non_zero r;
  e ← ReplayEnabled_new r;
  mret (mkReadChunkSizeStage (stage1_delivery s) e).

Definition replay_all (s : StreamConfigReplayBuilder D) :
    outcome (StreamConfigReadChunkSizeBuilder D ReplayEnabled) :=
  e ← ReplayEnabled_new All;
  mret (mkReadChunkSizeStage (stage1_delivery s) e).

Definition set_read_chunk_size {R} (s : StreamConfigReadChunkSizeBuilder D R)
    (n : NumBytes) : outcome (StreamConfigMaxBufferedChunksBuilder D R) :=
  _ ← NumBytes.assert_non_zero n;
  mret (mkMaxBufferedStage (stage2_delivery s) (stage2_replay s) n).

Definition set_max_buffered_chunks {R} (s : StreamConfigMaxBufferedChunksBuilder D R)
    (n : N) : outcome (StreamConfigReadyBuilder D R) :=
  _ ← assert_max_buffered_chunks_non_zero n;
  mret (mkReadyStage (mkStreamConfig (stage3_read_chunk_size s) n (stage3_delivery s) (stage3_replay s))).

Definition build {R} (s : StreamConfigReadyBuilder D R) : StreamConfig D R := ready_config s.

(** The chain of calls after the delivery was chosen, for each replay choice. *)
Definition build_replay (s : StreamConfigReplayBuilder D) (r : ReplayRetention)
    (chunk_size : NumBytes) (buffered : N) : outcome (StreamConfig D ReplayEnabled) :=
  s2 ← match r with
       | LastChunks n => replay_last_chunks s n
       | LastBytes n => replay_last_bytes s n
       | All => replay_all s
       end;
  s3 ← set_read_chunk_size s2 chunk_size;
  s4 ← set_max_buffered_chunks s3 buffered;
  mret (build s4).

Definition build_no_replay (s : StreamConfigReplayBuilder D)
    (chunk_size : NumBytes) (buffered : N) : outcome (StreamConfig D NoReplay) :=
  s3 ← set_read_chunk_size (no_replay s) chunk_size;
  s4 ← set_max_buffered_chunks s3 buffered;
  mret (build s4).

End stages.

End Builder.

(** ** Traits between streams and consumers *)

(** The value of a future after one poll. *)
Inductive poll (A : Type) : Type := Ready (a : A) | Pending.
Arguments Ready {A} a.
Arguments Pending {A}.

(** A closure [FnMut(A) -> R] that may panic: its captured state is [F]. *)
Class FnMut (F A R : Type) := call : F → A → outcome (F * R).

(** [StreamVisitor]: the state threaded through the callbacks is the visitor
    itself.  A callback that panics yields [Panic]. *)
Class StreamVisitor (V Out : Type) := {
  on_chunk : V → chunk → outcome (V * Next);
  on_gap : V → V;
  on_eof : V → outcome V;
  into_output : V → Out;
}.

(** [AsyncStreamVisitor]: [async_on_chunk] and [async_on_eof] stand for the
    completed futures. *)
Class AsyncStreamVisitor (V Out : Type) := {
  async_on_chunk : V → chunk → outcome (V * Next);
  async_on_gap : V → V;
  async_on_eof : V → outcome V;
  async_into_output : V → Out;
}.

(** [Subscription]: one poll of [next_event]. *)
Class Subscription (S : Type) := next_event : S → poll (option StreamEvent) * S.

(** ** Lemmas *)

Lemma assert_that_done b : assert_that b = Done () ↔ b = true.
Proof. destruct b; simpl; split; done. Qed.

Lemma retention_assert_done r :
  retention_assert_non_zero r = Done () ↔
  match r with LastChunks n => n ≠ 0 | LastBytes n => bytes n ≠ 0 | All => True end.
Proof.
  destruct r as [[|n]|n|]; simpl; try (split; done).
  destruct (N.eqb_spec (bytes n) 0); split; done.
Qed.

Lemma retention_assert_cases r :
  retention_assert_non_zero r = Done () ∨ retention_assert_non_zero r = Panic.
Proof. destruct r as [[|n]|n|]; simpl; auto. destruct (_ =? _); auto. Qed.

Lemma assert_that_cases b : assert_that b = Done () ∨ assert_that b = Panic.
Proof. destruct b; auto. Qed.

(** The staged builder with a replay policy accepts exactly the
    configurations [assert_valid] accepts, and builds the one asked for. *)
Lemma build_replay_valid {D} `{Delivery D} (s : Builder.StreamConfigReplayBuilder D) r n m :
  let c := mkStreamConfig n m (Builder.stage1_delivery s) (mkReplayEnabled r) in
  Builder.build_replay s r n m = (_ ← assert_valid c; mret c).
Proof.
  unfold Builder.build_replay, assert_valid, Builder.set_read_chunk_size,
    Builder.set_max_buffered_chunks, assert_max_buffered_chunks_non_zero,
    NumBytes.assert_non_zero; cbn.
  destruct r as [[|k]|k|]; cbn; try (destruct (bytes k =? 0) eqn:E; rewrite ?E; cbn);
    destruct (0 <? bytes n), (0 <? m); cbn; rewrite ?E; done.
Qed.

Lemma build_no_replay_valid {D} `{Delivery D} (s : Builder.StreamConfigReplayBuilder D) n m :
  let c := mkStreamConfig n m (Builder.stage1_delivery s) NoReplayMarker in
  Builder.build_no_replay s n m = (_ ← assert_valid c; mret c).
Proof.
  unfold Builder.build_no_replay, assert_valid, Builder.set_read_chunk_size,
    Builder.set_max_buffered_chunks, assert_max_buffered_chunks_non_zero,
    NumBytes.assert_non_zero; cbn.
  destruct (0 <? bytes n), (0 <? m); done.
Qed.
