(* ===== verification/Driver.v ===== *)
(** * The consumer driver loops

    Models [src/output_stream/consumer/driver.rs]: the loops that step a
    visitor over a subscription until end of stream, [Break], cancellation or
    a read error.  Each turn of the loop is one [tokio::select!] between the
    next event and the cancellation token; the turns are the explicit schedule
    the loop runs on, so a statement for every schedule covers every
    interleaving of the stream with its cancellation. *)

From S2P Require Import Prelude Stream.

(** The branch a turn of [tokio::select!] takes: an answer of [next_event], or
    the cancellation token (a send on it, or the drop of its sender). *)
Inductive turn : Type :=
| Event (e : option StreamEvent)
| Cancelled.

#[export] Instance turn_eq_dec : EqDecision turn.
Proof. solve_decision. Defined.

(** A driver task after a number of turns. *)
Inductive driver (V Out : Type) : Type :=
| Running (v : V)
| Finished (r : result Out StreamReadError)
| Panicked.
Arguments Running {V Out}.
Arguments Finished {V Out}.
Arguments Panicked {V Out}.

Section driver.
Context {V Out : Type}.

Fixpoint consume_sync `{StreamVisitor V Out} (v : V) (turns : list turn) : driver V Out :=
  match turns with
  | [] => Running v
  | Event (Some (Chunk c)) :: turns =>
      match on_chunk v c with
      | Panic => Panicked
      | Done (v, Break) => Finished (Ok (into_output v))
      | Done (v, Continue) => consume_sync v turns
      end
  | Event (Some Gap) :: turns => consume_sync (on_gap v) turns
  | Event (Some Eof) :: _ | Event None :: _ =>
      match on_eof v with
      | Panic => Panicked
      | Done v => Finished (Ok (into_output v))
      end
  | Event (Some (ReadError err)) :: _ => Finished (Err err)
  | Cancelled :: _ => Finished (Ok (into_output v))
  end.

Fixpoint consume_async `{AsyncStreamVisitor V Out} (v : V) (turns : list turn) : driver V Out :=
  match turns with
  | [] => Running v
  | Event (Some (Chunk c)) :: turns =>
      match async_on_chunk v c with
      | Panic => Panicked
      | Done (v, Break) => Finished (Ok (async_into_output v))
      | Done (v, Continue) => consume_async v turns
      end
  | Event (Some Gap) :: turns => consume_async (async_on_gap v) turns
  | Event (Some Eof) :: _ | Event None :: _ =>
      match async_on_eof v with
      | Panic => Panicked
      | Done v => Finished (Ok (async_into_output v))
      end
  | Event (Some (ReadError err)) :: _ => Finished (Err err)
  | Cancelled :: _ => Finished (Ok (async_into_output v))
  end.

End driver.

(** An async visitor driven as if it were a sync one. *)
Definition as_sync {V Out} `{AsyncStreamVisitor V Out} : StreamVisitor V Out := {|
  on_chunk := async_on_chunk;
  on_gap := async_on_gap;
  on_eof := async_on_eof;
  into_output := async_into_output;
|}.

(** The two loops have the same control flow. *)
Lemma consume_async_sync {V Out} `{AsyncStreamVisitor V Out} (v : V) turns :
  consume_async v turns = consume_sync (H := as_sync) v turns.
Proof.
  revert v. induction turns as [|[[[c| | |err]|]|] turns IH]; intros v; simpl; try done.
  destruct (async_on_chunk v c) as [[v' []]|]; done.
Qed.

(** Two visitors of which the second mirrors the first through [g] run alike on
    every schedule. *)
Definition driver_map {V W Out} (g : V → W) (d : driver V Out) : driver W Out :=
  match d with Running v => Running (g v) | Finished r => Finished r | Panicked => Panicked end.

Lemma consume_mirror {V W Out} `{StreamVisitor V Out, AsyncStreamVisitor W Out} (g : V → W) :
  (∀ v c, async_on_chunk (g v) c = prod_map g id <$> on_chunk v c) →
  (∀ v, async_on_gap (g v) = g (on_gap v)) →
  (∀ v, async_on_eof (g v) = g <$> on_eof v) →
  (∀ v, async_into_output (g v) = into_output v) →
  ∀ turns v, consume_async (g v) turns = driver_map g (consume_sync v turns).
Proof.
  intros Hchunk Hgap Heof Hout turns.
  induction turns as [|[[[c| | |err]|]|] turns IH]; intros v; simpl; rewrite ?Hout; try done.
  - rewrite Hchunk. destruct (on_chunk v c) as [[v' []]|]; simpl; rewrite ?Hout; done.
  - by rewrite Hgap.
  - rewrite Heof. destruct (on_eof v); simpl; rewrite ?Hout; done.
  - rewrite Heof. destruct (on_eof v); simpl; rewrite ?Hout; done.
Qed.

(** Whether a turn ends the loop on its own, whatever the visitor does. *)
Definition ends (t : turn) : bool :=
  match t with
  | Cancelled | Event None => true
  | Event (Some e) => is_terminal e
  end.

Section facts.
Context {V Out : Type} `{StreamVisitor V Out}.

(** Once the driver has left its loop later turns are not consumed. *)
Lemma consume_sync_app v ts us :
  consume_sync v (ts ++ us) =
    match consume_sync v ts with
    | Running v => consume_sync v us
    | d => d
    end.
Proof.
  revert v. induction ts as [|[[[c| | |err]|]|] ts IH]; intros v; simpl; auto.
  - by destruct (on_chunk v c) as [[v' []]|].
  - by destruct (on_eof v).
  - by destruct (on_eof v).
Qed.

Lemma consume_sync_ends v t ts :
  ends t = true → ∀ v', consume_sync v (t :: ts) ≠ Running v'.
Proof. destruct t as [[[]|]|]; try done; intros _ v'; simpl; by repeat case_match. Qed.

End facts.
