(* ===== verification/LineParser.v ===== *)
(** * The line parser

    Models [src/output_stream/line/parser.rs] and [line/options.rs]: the state
    machine that splits arbitrary byte chunks into lines, with a maximum line
    length, two overflow behaviours, gap recovery and buffer compaction.

    The code relies on two crates it does not contain: [memchr] and the
    growable buffer [bytes::BytesMut].  They are the type classes [Memchr] and
    [BytesMut] below, which state their documented behaviour; every definition
    and theorem is parametric in them, and concrete instances are given for
    evaluation.

    The specification of the parser is [Machine], which consumes one byte at a
    time and keeps a single buffer; [drain_refines] shows that the parser, with
    its two swapped buffers, its scan windows and its compaction, implements
    it.  [LineSpec] gives the machine its declarative meaning. *)

From S2P Require Import Prelude Utf8 Stream.

(** ** Interfaces of the libraries used *)

(** [memchr::memchr]: the position of the first occurrence of a byte. *)
Class Memchr := {
  memchr : byte → list byte → option N;
  memchr_some b l i : memchr b l = Some i →
    l = slice_to i l ++ (b :: slice_from (i + 1) l) ∧ (b ∉ slice_to i l) ∧ (i < len l);
  memchr_none b l : memchr b l = None → b ∉ l;
}.

(** [bytes::BytesMut]: a byte buffer with a capacity.  Growth is the library's
    affair; [clear] keeps the allocation. *)
Class BytesMut (B : Type) := {
  bm_new : B;
  bm_bytes : B → list byte;
  bm_capacity : B → N;
  bm_clear : B → B;
  bm_extend : B → list byte → B;
  bm_new_bytes : bm_bytes bm_new = [];
  bm_clear_bytes b : bm_bytes (bm_clear b) = [];
  bm_clear_capacity b : bm_capacity (bm_clear b) = bm_capacity b;
  bm_extend_bytes b l : bm_bytes (bm_extend b l) = bm_bytes b ++ l;
  bm_len_capacity b : len (bm_bytes b) ≤ bm_capacity b;
}.

(** ** Options *)

Inductive LineOverflowBehavior : Type :=
| DropAdditionalData
| EmitAdditionalAsNewLines.

#[export] Instance LineOverflowBehavior_eq_dec : EqDecision LineOverflowBehavior.
Proof. solve_decision. Defined.

Record LineParsingOptions : Type := mkLineParsingOptions {
  max_line_length : NumBytes;
  overflow_behavior : LineOverflowBehavior;
  buffer_compaction_threshold : option NumBytes;
}.

Definition DEFAULT_MAX_LINE_LENGTH : NumBytes := mkNumBytes (16 * 1024).

Definition default_options : LineParsingOptions :=
  mkLineParsingOptions DEFAULT_MAX_LINE_LENGTH DropAdditionalData None.

Definition assert_max_line_length_non_zero (o : LineParsingOptions) : outcome unit :=
  assert_that (0 <? bytes (max_line_length o)).

(** ** Parser *)

Inductive LineParserMode : Type :=
| ReadingLine
| DiscardUntilNewline
| PendingLimitDelimiter.

#[export] Instance LineParserMode_eq_dec : EqDecision LineParserMode.
Proof. solve_decision. Defined.

Record LineParser (B : Type) : Type := mkLineParser {
  line_buffer : B;
  emitted : B;
  mode : LineParserMode;
}.
Arguments mkLineParser {B}.
Arguments line_buffer {B}.
Arguments emitted {B}.
Arguments mode {B}.

(** [decode_line_lossy]. *)
Definition decode_line_lossy (l : list byte) : str := from_utf8_lossy l.

Section parser.
Context {B : Type} `{BytesMut B, Memchr}.
Implicit Types (p : LineParser B) (o : LineParsingOptions).

Definition parser_new : LineParser B := mkLineParser bm_new bm_new ReadingLine.

Definition parser_on_gap p : LineParser B :=
  mkLineParser (bm_clear (line_buffer p)) (emitted p) DiscardUntilNewline.

Definition compact_if_needed p (threshold : option NumBytes) : LineParser B :=
  match threshold with
  | None => p
  | Some threshold =>
      let threshold := bytes threshold in
      let lb :=
        if bool_decide (bm_bytes (line_buffer p) = [])
           && (threshold <? bm_capacity (line_buffer p))
        then bm_new else line_buffer p in
      let em := if threshold <? bm_capacity (emitted p) then bm_new else emitted p in
      mkLineParser lb em (mode p)
  end.

(** Swap, clear, decode. *)
Definition emit_buffered_line p : str * LineParser B :=
  let em := line_buffer p in
  let lb := bm_clear (emitted p) in
  (decode_line_lossy (bm_bytes em), mkLineParser lb em (mode p)).

Definition set_mode p m : LineParser B := mkLineParser (line_buffer p) (emitted p) m.
Definition set_line_buffer p b : LineParser B := mkLineParser b (emitted p) (mode p).

(** [options.max_line_length.0 != 0 && self.line_buffer.len() == options.max_line_length.0]. *)
Definition buffer_at_limit p o : bool :=
  negb (bytes (max_line_length o) =? 0)
  && (len (bm_bytes (line_buffer p)) =? bytes (max_line_length o)).

Definition mode_after_overflow o : LineParserMode :=
  match overflow_behavior o with
  | DropAdditionalData => DiscardUntilNewline
  | EmitAdditionalAsNewLines => PendingLimitDelimiter
  end.

(** What one pass through the body of the [while] loop of [next_line] does:
    go round again, or return. *)
Inductive loop_step : Type :=
| Again (p : LineParser B) (chunk : list byte)
| Return (line : option str) (p : LineParser B) (chunk : list byte).

(** The loop body below the match on the mode: the parser reads a line. *)
Definition read_line_step p (chunk : list byte) o : loop_step :=
  if buffer_at_limit p o then
    let '(line, p) := emit_buffered_line (set_mode p (mode_after_overflow o)) in
    Return (Some line) p chunk
  else
    let remaining_line_length :=
      if bytes (max_line_length o) =? 0 then len chunk
      else bytes (max_line_length o) -! len (bm_bytes (line_buffer p)) in
    let scan_len := remaining_line_length `min` len chunk in
    let scan := slice_to scan_len chunk in
    match memchr newline scan with
    | Some pos =>
        if bool_decide (bm_bytes (line_buffer p) = []) then
          Return (Some (decode_line_lossy (slice_to pos scan))) p (slice_from (pos + 1) chunk)
        else
          let p := set_line_buffer p (bm_extend (line_buffer p) (slice_to pos scan)) in
          let '(line, p) := emit_buffered_line p in
          Return (Some line) p (slice_from (pos + 1) chunk)
    | None =>
        let p := set_line_buffer p (bm_extend (line_buffer p) scan) in
        let chunk := slice_from scan_len chunk in
        if buffer_at_limit p o
           && bool_decide (overflow_behavior o = EmitAdditionalAsNewLines)
        then
          let '(line, p) := emit_buffered_line (set_mode p PendingLimitDelimiter) in
          Return (Some line) p chunk
        else Again p chunk
    end.

(** The whole loop body, for a non-empty chunk. *)
Definition next_line_step p (chunk : list byte) o : loop_step :=
  match mode p with
  | DiscardUntilNewline =>
      match memchr newline chunk with
      | Some pos => Again (set_mode p ReadingLine) (slice_from (pos + 1) chunk)
      | None => Return None p []
      end
  | PendingLimitDelimiter =>
      let p := set_mode p ReadingLine in
      match chunk with
      | b :: rest =>
          if bool_decide (b = newline) then Again p rest else read_line_step p chunk o
      | [] => read_line_step p chunk o
      end
  | ReadingLine => read_line_step p chunk o
  end.

(** The loop.  [None] is running out of fuel, which [next_line_loop_ok] below
    excludes for the fuel [next_line] gives it. *)
Fixpoint next_line_loop (fuel : nat) p (chunk : list byte) o
    : option (option str * LineParser B * list byte) :=
  match chunk with
  | [] => Some (None, p, chunk)
  | _ =>
      match fuel with
      | O => None
      | S fuel =>
          match next_line_step p chunk o with
          | Again p chunk => next_line_loop fuel p chunk o
          | Return line p chunk => Some (line, p, chunk)
          end
      end
  end.

Definition next_line p (chunk : list byte) o : option (option str * LineParser B * list byte) :=
  next_line_loop (length chunk) (compact_if_needed p (buffer_compaction_threshold o)) chunk o.

Definition finish p : option str * LineParser B :=
  if bool_decide (mode p = DiscardUntilNewline)
     || bool_decide (bm_bytes (line_buffer p) = [])
  then (None, p)
  else let '(line, p) := emit_buffered_line p in (Some line, p).

(** The calling convention of the parser's documentation: call [next_line]
    with the same cursor until it returns [None]. *)
Fixpoint drain_loop (fuel : nat) p (chunk : list byte) o : option (list str * LineParser B) :=
  match fuel with
  | O => None
  | S fuel =>
      '(line, p, rest) ← next_line p chunk o;
      match line with
      | None => Some ([], p)
      | Some line => '(lines, p) ← drain_loop fuel p rest o; Some (line :: lines, p)
      end
  end.

Definition drain p (chunk : list byte) o : option (list str * LineParser B) :=
  drain_loop (2 + 2 * length chunk) p chunk o.

End parser.

(** ** The byte machine *)

Module Machine.

Definition state : Type := LineParserMode * list byte.

Section machine.
Context (o : LineParsingOptions).

Definition at_limit (buf : list byte) : bool :=
  negb (bytes (max_line_length o) =? 0) && (len buf =? bytes (max_line_length o)).

(** A byte of a line that is not yet full. *)
Definition read_byte (buf : list byte) (b : byte) : state * list (list byte) :=
  if bool_decide (b = newline) then ((ReadingLine, []), [buf])
  else if at_limit (buf ++ [b])
          && bool_decide (overflow_behavior o = EmitAdditionalAsNewLines)
  then ((PendingLimitDelimiter, []), [buf ++ [b]])
  else ((ReadingLine, buf ++ [b]), []).

(** One byte of input: the next state and the lines it completes. *)
Definition step_byte (st : state) (b : byte) : state * list (list byte) :=
  match st with
  | (DiscardUntilNewline, buf) =>
      if bool_decide (b = newline) then ((ReadingLine, buf), [])
      else ((DiscardUntilNewline, buf), [])
  | (PendingLimitDelimiter, buf) =>
      if bool_decide (b = newline) then ((ReadingLine, buf), []) else read_byte buf b
  | (ReadingLine, buf) =>
      if at_limit buf then
        if bool_decide (b = newline) then ((ReadingLine, []), [buf])
        else ((DiscardUntilNewline, []), [buf])
      else read_byte buf b
  end.

Fixpoint run (st : state) (l : list byte) : state * list (list byte) :=
  match l with
  | [] => (st, [])
  | b :: l =>
      let '(st, lines) := step_byte st b in
      let '(st, lines') := run st l in
      (st, lines ++ lines')
  end.

Definition on_gap (st : state) : state := (DiscardUntilNewline, []).

Definition flush (st : state) : list (list byte) :=
  match st with
  | (DiscardUntilNewline, _) | (_, []) => []
  | (_, buf) => [buf]
  end.

(** The reachable states: outside a line nothing is buffered, and the buffer
    never exceeds the limit (with the emitting behaviour it stays below). *)
Definition wf (st : state) : Prop :=
  (st.1 ≠ ReadingLine → st.2 = []) ∧
  (bytes (max_line_length o) ≠ 0 →
     len st.2 ≤ bytes (max_line_length o) ∧
     (overflow_behavior o = EmitAdditionalAsNewLines →
        len st.2 < bytes (max_line_length o))).

(** Bytes still to read, counting a full buffer that the next byte emits. *)
Definition work (st : state) (l : list byte) : nat :=
  (2 * length l + if at_limit st.2 then 1 else 0)%nat.

Lemma at_limit_spec buf :
  at_limit buf = true ↔
  bytes (max_line_length o) ≠ 0 ∧ len buf = bytes (max_line_length o).
Proof. unfold at_limit. by rewrite andb_true_iff, negb_true_iff, N.eqb_neq, N.eqb_eq. Qed.

Lemma at_limit_false buf :
  (bytes (max_line_length o) ≠ 0 → len buf ≠ bytes (max_line_length o)) →
  at_limit buf = false.
Proof. intros Hne. apply not_true_iff_false. intros [Hm Hl]%at_limit_spec. by apply Hne. Qed.

Lemma at_limit_nil : at_limit [] = false.
Proof. apply at_limit_false. len_lia. Qed.

Lemma run_app st l k :
  run st (l ++ k) = ((run (run st l).1 k).1, (run st l).2 ++ (run (run st l).1 k).2).
Proof.
  revert st. induction l as [|b l IH]; intros st; simpl; [by destruct run|].
  destruct (step_byte st b) as [st1 ls1]. rewrite IH.
  destruct (run st1 l) as [st2 ls2]. simpl. by rewrite (assoc_L (++)).
Qed.

Lemma wf_init : wf (ReadingLine, []).
Proof. split; [done|]. simpl. len_lia. Qed.

Lemma wf_idle m : wf (m, []).
Proof. split; [done|]. simpl. len_lia. Qed.

Lemma wf_read buf :
  (bytes (max_line_length o) ≠ 0 →
     len buf ≤ bytes (max_line_length o) ∧
     (overflow_behavior o = EmitAdditionalAsNewLines →
        len buf < bytes (max_line_length o))) → wf (ReadingLine, buf).
Proof. by split. Qed.

(** Skipping bytes while discarding. *)
Lemma run_discard buf l :
  newline ∉ l → run (DiscardUntilNewline, buf) l = ((DiscardUntilNewline, buf), []).
Proof.
  induction l as [|b l IH]; intros Hnl; simpl; [done|].
  apply not_elem_of_cons in Hnl as [Hb Hl].
  rewrite bool_decide_eq_false_2 by congruence. by rewrite IH.
Qed.

Lemma run_discard_line buf l k :
  newline ∉ l →
  run (DiscardUntilNewline, buf) (l ++ newline :: k) = run (ReadingLine, buf) k.
Proof.
  intros Hnl. rewrite run_app, run_discard by done. simpl. by destruct run.
Qed.

(** Reading bytes that stay within the line and below the limit. *)
Lemma run_read_below buf l :
  newline ∉ l →
  (bytes (max_line_length o) ≠ 0 → len buf + len l < bytes (max_line_length o)) →
  run (ReadingLine, buf) l = ((ReadingLine, buf ++ l), []).
Proof.
  revert buf. induction l as [|b l IH]; intros buf Hnl Hlen; simpl.
  { by rewrite app_nil_r. }
  apply not_elem_of_cons in Hnl as [Hb Hl].
  assert (at_limit buf = false) as ->.
  { apply at_limit_false. len_lia. }
  unfold read_byte. rewrite bool_decide_eq_false_2 by congruence.
  assert (at_limit (buf ++ [b]) = false) as ->.
  { apply at_limit_false. len_lia. }
  simpl. rewrite IH; [by rewrite <- (assoc_L (++))|done|].
  len_lia.
Qed.

(** The byte that fills the line. *)
Lemma run_read_full buf l :
  newline ∉ l → l ≠ [] → bytes (max_line_length o) ≠ 0 →
  len buf + len l = bytes (max_line_length o) →
  run (ReadingLine, buf) l =
    match overflow_behavior o with
    | DropAdditionalData => ((ReadingLine, buf ++ l), [])
    | EmitAdditionalAsNewLines => ((PendingLimitDelimiter, []), [buf ++ l])
    end.
Proof.
  intros Hnl Hl Hmax Hlen. destruct l as [|b l _] using rev_ind; [done|].
  apply not_elem_of_app in Hnl as [Hnl Hb%not_elem_of_cons]. destruct Hb as [Hb _].
    rewrite run_app, run_read_below by (done || len_lia). simpl.
  assert (at_limit (buf ++ l) = false) as ->.
  { apply at_limit_false. len_lia. }
  unfold read_byte. rewrite bool_decide_eq_false_2 by congruence.
  rewrite <- (assoc_L (++)).
  assert (at_limit (buf ++ l ++ [b]) = true) as ->.
  { apply at_limit_spec. len_lia. }
  destruct (overflow_behavior o); simpl; done.
Qed.

(** A newline inside the limit completes the line. *)
Lemma run_read_line buf l k :
  newline ∉ l →
  (bytes (max_line_length o) ≠ 0 → len buf + len l < bytes (max_line_length o)) →
  run (ReadingLine, buf) (l ++ newline :: k) =
    ((run (ReadingLine, []) k).1, (buf ++ l) :: (run (ReadingLine, []) k).2).
Proof.
  intros Hnl Hlen. rewrite run_app, run_read_below by done. simpl.
  assert (at_limit (buf ++ l) = false) as ->.
  { apply at_limit_false. len_lia. }
  unfold read_byte. rewrite bool_decide_eq_true_2 by done. by destruct run.
Qed.

(** A full buffer is emitted before the byte behind it is looked at. *)
Lemma run_at_limit buf l :
  l ≠ [] → at_limit buf = true →
  run (ReadingLine, buf) l =
    ((run (DiscardUntilNewline, []) l).1, buf :: (run (DiscardUntilNewline, []) l).2).
Proof.
  intros Hl Hlim. destruct l as [|b l]; [done|]. simpl. rewrite Hlim.
  case_bool_decide; by destruct run.
Qed.

(** After a line that filled up, one newline belongs to that line. *)
Lemma run_pending b l :
  b ≠ newline → run (PendingLimitDelimiter, []) (b :: l) = run (ReadingLine, []) (b :: l).
Proof. intros Hb. simpl. rewrite at_limit_nil, bool_decide_eq_false_2; done. Qed.

Lemma flush_cases st : flush st = [] ∨ ∃ raw, flush st = [raw].
Proof. destruct st as [[] [|b buf]]; simpl; eauto. Qed.

Lemma run_pending_newline buf l :
  run (PendingLimitDelimiter, buf) (newline :: l) = run (ReadingLine, buf) l.
Proof. simpl. by destruct run. Qed.

(** Every line the machine completes is within the limit. *)
Lemma step_byte_ok st b :
  wf st → wf (step_byte st b).1 ∧
  Forall (λ line, bytes (max_line_length o) ≠ 0 → len line ≤ bytes (max_line_length o))
    (step_byte st b).2.
Proof.
  intros Hwf. assert (∀ buf, st.2 = buf → at_limit buf = false →
    wf (read_byte buf b).1 ∧
    Forall (λ line, bytes (max_line_length o) ≠ 0 → len line ≤ bytes (max_line_length o))
      (read_byte buf b).2) as Hread.
  { intros buf <- Hlim. destruct Hwf as [_ Hlen]. unfold read_byte.
    case_bool_decide; [split; [apply wf_idle|repeat constructor; intros Hm; by apply Hlen]|].
    assert (bytes (max_line_length o) ≠ 0 → len (st.2 ++ [b]) ≤ bytes (max_line_length o)) as Hb.
    { intros Hm. specialize (Hlen Hm). rewrite <- not_true_iff_false, at_limit_spec in Hlim.
      rewrite len_app. change (len [b]) with 1. lia. }
    destruct (at_limit (st.2 ++ [b])) eqn:Hl; simpl; [case_bool_decide as Ho; simpl|].
    - split; [apply wf_idle|by repeat constructor].
    - split; [|constructor]. apply wf_read. intros Hm. split; [by apply Hb|congruence].
    - split; [|constructor]. apply wf_read. intros Hm. split; [auto|]. intros _.
      specialize (Hb Hm). rewrite <- not_true_iff_false, at_limit_spec in Hl. lia. }
  destruct st as [[] buf]; simpl in *.
  - destruct (at_limit buf) eqn:Hlim; [|by apply Hread].
    apply at_limit_spec in Hlim as [Hm Hl].
    case_bool_decide; (split; [apply wf_idle|]); (constructor; [lia|constructor]).
  - assert (buf = []) as -> by (by apply Hwf).
    case_bool_decide; (split; [apply wf_idle|constructor]).
  - assert (buf = []) as -> by (by apply Hwf).
    case_bool_decide; [split; [apply wf_idle|constructor]|]. apply Hread; [done|apply at_limit_nil].
Qed.

Lemma run_bound st l :
  wf st →
  Forall (λ line, bytes (max_line_length o) ≠ 0 → len line ≤ bytes (max_line_length o))
    (run st l).2.
Proof.
  revert st. induction l as [|b l IH]; intros st Hwf; simpl; [constructor|].
  pose proof (step_byte_ok st b Hwf) as [Hwf' Hb]. destruct (step_byte st b) as [st' lines].
  specialize (IH st' Hwf'). destruct (run st' l) as [st'' lines']. simpl in *.
  by apply Forall_app.
Qed.

End machine.

End Machine.


(** ** The parser refines the machine *)

Section refinement.
Context {B : Type} `{BytesMut B, Memchr} (o : LineParsingOptions).
(** The limit is a [usize]. *)
Context (Husize : bytes (max_line_length o) ≤ usize_max).
Implicit Types (p : LineParser B).

Import Machine.

Definition abs p : state := (mode p, bm_bytes (line_buffer p)).

(** What a pass through the loop body means to the machine. *)
Definition step_ok p (chunk : list byte) (s : loop_step) : Prop :=
  match s with
  | Again p' rest =>
      wf o (abs p') ∧ run o (abs p) chunk = run o (abs p') rest
      ∧ (length rest < length chunk)%nat
      ∧ (work o (abs p') rest ≤ work o (abs p) chunk)%nat
  | Return None p' rest =>
      rest = [] ∧ wf o (abs p') ∧ run o (abs p) chunk = (abs p', [])
  | Return (Some s) p' rest =>
      ∃ raw, s = decode_line_lossy raw ∧ wf o (abs p') ∧
        run o (abs p) chunk =
          ((run o (abs p') rest).1, raw :: (run o (abs p') rest).2) ∧
        (length rest ≤ length chunk)%nat ∧
        (work o (abs p') rest < work o (abs p) chunk)%nat
  end.

Lemma abs_emit p s p' :
  emit_buffered_line p = (s, p') →
  s = decode_line_lossy (bm_bytes (line_buffer p)) ∧ abs p' = (mode p, []).
Proof.
  unfold emit_buffered_line, abs. intros [= <- <-]. simpl. by rewrite bm_clear_bytes.
Qed.

Lemma abs_compact p t : abs (compact_if_needed p t) = abs p.
Proof.
  unfold abs, compact_if_needed. destruct t as [t|]; simpl; [|done].
  case_bool_decide as Hb; simpl; [|done].
  case_match; simpl; [|done]. by rewrite bm_new_bytes, Hb.
Qed.

(** The scan window of a line that is not full: the room left in the line. *)
Lemma remaining_spec p (c : list byte) :
  wf o (abs p) → at_limit o (bm_bytes (line_buffer p)) = false → c ≠ [] →
  let remaining := if bytes (max_line_length o) =? 0 then len c
                   else bytes (max_line_length o) -! len (bm_bytes (line_buffer p)) in
  let n := remaining `min` len c in
  0 < n ∧ n ≤ len c ∧
  (bytes (max_line_length o) = 0 → n = len c) ∧
  (bytes (max_line_length o) ≠ 0 →
     len (bm_bytes (line_buffer p)) + n ≤ bytes (max_line_length o) ∧
     (len (bm_bytes (line_buffer p)) + n < bytes (max_line_length o) → n = len c)).
Proof.
  intros [_ Hwf] Hlim Hc. simpl in Hwf.
  assert (0 < len c) by (destruct c; [done|len_lia]).
  assert (word_modulus = usize_max + 1) by reflexivity.
  destruct (N.eqb_spec (bytes (max_line_length o)) 0) as [->|Hmax]; [lia|].
  destruct (Hwf Hmax) as [Hle _]. rewrite wrapping_sub_small by lia.
  assert (len (bm_bytes (line_buffer p)) ≠ bytes (max_line_length o)); [|lia].
  intros Heq. rewrite <- not_true_iff_false, at_limit_spec in Hlim. tauto.
Qed.

(** [step_ok] depends on the parser only through the machine. *)
Lemma step_ok_ext p q c s :
  run o (abs p) c = run o (abs q) c → (abs p).2 = (abs q).2 →
  step_ok p c s → step_ok q c s.
Proof. unfold step_ok, work. by intros -> ->. Qed.

Lemma reading_abs p : mode p = ReadingLine → abs p = (ReadingLine, bm_bytes (line_buffer p)).
Proof. unfold abs. by intros ->. Qed.

(** A full buffer is handed out and the rest of the line is discarded. *)
Lemma full_buffer_ok p c line p' :
  c ≠ [] → mode p = ReadingLine → wf o (abs p) →
  at_limit o (bm_bytes (line_buffer p)) = true →
  emit_buffered_line (set_mode p (mode_after_overflow o)) = (line, p') →
  step_ok p c (Return (Some line) p' c).
Proof.
  intros Hc Hmode Hwf Hlim [-> Habs']%abs_emit. simpl in *.
  exists (bm_bytes (line_buffer p)). rewrite Habs', (reading_abs p) by done.
  pose proof Hlim as [Hmax Hlen]%at_limit_spec.
  destruct Hwf as [_ Hwf]. simpl in Hwf. destruct (Hwf Hmax) as [_ Hemit].
  unfold mode_after_overflow. destruct (overflow_behavior o); [|specialize (Hemit eq_refl); lia].
  rewrite run_at_limit by done. unfold work. simpl. rewrite Hlim, at_limit_nil.
  split_and!; try done; [apply wf_idle|lia].
Qed.

(** A newline inside the scan window completes the line. *)
Lemma newline_ok p p' c l k :
  mode p = ReadingLine → wf o (abs p) → abs p' = (ReadingLine, []) →
  c = l ++ newline :: k → newline ∉ l →
  (bytes (max_line_length o) ≠ 0 →
     len (bm_bytes (line_buffer p)) + len l < bytes (max_line_length o)) →
  step_ok p c
    (Return (Some (decode_line_lossy (bm_bytes (line_buffer p) ++ l))) p' k).
Proof.
  intros Hmode Hwf Habs' -> Hl Hlen. simpl.
  exists (bm_bytes (line_buffer p) ++ l). rewrite Habs', (reading_abs p) by done.
  rewrite run_read_line by done. unfold work. simpl. rewrite at_limit_nil, length_app. simpl.
  split_and!; try done; [apply wf_idle|lia..].
Qed.

(** No newline in the scan window: the window joins the buffered line, which
    is emitted if that fills it and the behaviour asks for it. *)
Lemma no_newline_ok p c n :
  mode p = ReadingLine → wf o (abs p) → 0 < n → n ≤ len c →
  newline ∉ slice_to n c →
  (bytes (max_line_length o) ≠ 0 →
     len (bm_bytes (line_buffer p)) + n ≤ bytes (max_line_length o)) →
  let p' := set_line_buffer p (bm_extend (line_buffer p) (slice_to n c)) in
  step_ok p c
    (if buffer_at_limit p' o && bool_decide (overflow_behavior o = EmitAdditionalAsNewLines)
     then let '(line, p') := emit_buffered_line (set_mode p' PendingLimitDelimiter) in
          Return (Some line) p' (slice_from n c)
     else Again p' (slice_from n c)).
Proof.
  intros Hmode Hwf Hn Hnc Hnl Hmax p'.
  assert (abs p' = (ReadingLine, bm_bytes (line_buffer p) ++ slice_to n c)) as Habs'.
  { unfold abs, p'. simpl. by rewrite bm_extend_bytes, Hmode. }
  assert (len (slice_to n c) = n) as Hlen by (rewrite len_slice_to; lia).
  assert (length (slice_from n c) < length c)%nat by len_lia.
  change (buffer_at_limit p' o) with (at_limit o (abs p').2). rewrite Habs'. cbn [snd].
  pose proof (slice_to_from n c) as Hsplit.
  set (l := slice_to n c) in *. set (k := slice_from n c) in *. clearbody l k.
  destruct (at_limit o (bm_bytes (line_buffer p) ++ l)) eqn:Hlim; cbn [andb].
  - pose proof Hlim as [Hm Hfull]%at_limit_spec. rewrite len_app in Hfull.
    assert (l ≠ []) by (intros ->; rewrite len_nil in Hlen; lia).
    pose proof (run_read_full o (bm_bytes (line_buffer p)) l) as Hrun.
    case_bool_decide as Ho.
    + destruct (emit_buffered_line _) as [line p''] eqn:He.
      apply abs_emit in He as [-> Habs'']. simpl in *.
      exists (bm_bytes (line_buffer p) ++ l). rewrite bm_extend_bytes, Habs''.
      rewrite (reading_abs p), <- Hsplit, run_app, Hrun, Ho by done. simpl.
      unfold work. simpl. rewrite at_limit_nil, length_app.
      split_and!; try done; try len_lia. apply wf_idle.
    + simpl. rewrite Habs'. destruct (overflow_behavior o) eqn:Ho'; [|done].
      rewrite (reading_abs p), <- Hsplit, run_app, Hrun by done. simpl.
      split_and!; [|by rewrite <- surjective_pairing|len_lia|].
      * apply wf_read. rewrite Ho', len_app. intros _. split; [lia|done].
      * unfold work. simpl. rewrite Hlim, length_app. case_match; len_lia.
  - simpl. rewrite Habs'.
    assert (bytes (max_line_length o) ≠ 0 →
            len (bm_bytes (line_buffer p)) + len l < bytes (max_line_length o)) as Hlt.
    { intros Hm. rewrite <- not_true_iff_false, at_limit_spec, len_app in Hlim. lia. }
    rewrite (reading_abs p), <- Hsplit, run_app, run_read_below by done. simpl.
    split_and!; [|by rewrite <- surjective_pairing|len_lia|].
    + apply wf_read. rewrite len_app. lia.
    + unfold work. simpl. rewrite Hlim, length_app. case_match; len_lia.
Qed.

Lemma read_line_step_ok p c :
  c ≠ [] → mode p = ReadingLine → wf o (abs p) → step_ok p c (read_line_step p c o).
Proof.
  intros Hc Hmode Hwf. unfold read_line_step.
  change (buffer_at_limit p o) with (at_limit o (bm_bytes (line_buffer p))).
  destruct (at_limit o (bm_bytes (line_buffer p))) eqn:Hlim.
  { destruct (emit_buffered_line _) as [line p'] eqn:He. by eapply full_buffer_ok. }
  pose proof (remaining_spec p c Hwf Hlim Hc) as Hn. cbv zeta in *.
  set (n := _ `min` len c) in *. clearbody n. destruct Hn as (Hn & Hnc & _ & Hmax).
  destruct (memchr newline (slice_to n c)) as [pos|] eqn:Hmem.
  - apply memchr_some in Hmem as (Hsplit & Hnl & Hpos). rewrite len_slice_to in Hpos.
    assert (c = slice_to pos (slice_to n c) ++ newline :: slice_from (pos + 1) c) as Hc'.
    { rewrite <- (slice_to_from n c) at 1. rewrite Hsplit at 1.
      rewrite <- (assoc_L (++)). simpl. do 2 f_equal.
      rewrite <- slice_from_app_le by (rewrite len_slice_to; lia). by rewrite slice_to_from. }
    assert (bytes (max_line_length o) ≠ 0 → len (bm_bytes (line_buffer p)) +
              len (slice_to pos (slice_to n c)) < bytes (max_line_length o)) as Hroom.
    { intros Hm%Hmax. rewrite !len_slice_to. lia. }
    case_bool_decide as Hb.
    + change (slice_to pos (slice_to n c)) with ([] ++ slice_to pos (slice_to n c)).
      rewrite <- Hb at 1. apply newline_ok; try done. unfold abs. by rewrite Hmode, Hb.
    + destruct (emit_buffered_line _) as [line p'] eqn:He.
      apply abs_emit in He as [-> Habs']. simpl in Habs'. rewrite Hmode in Habs'.
      cbn [line_buffer set_line_buffer]. rewrite bm_extend_bytes. by apply newline_ok.
  - apply memchr_none in Hmem. apply no_newline_ok; try done. intros Hm%Hmax. tauto.
Qed.

Lemma next_line_step_ok p c :
  c ≠ [] → wf o (abs p) → step_ok p c (next_line_step p c o).
Proof.
  intros Hc Hwf. unfold next_line_step. destruct (mode p) eqn:Hmode.
  - by apply read_line_step_ok.
  - assert (abs p = (DiscardUntilNewline, [])) as Habs.
    { unfold abs. rewrite Hmode. f_equal. apply Hwf. simpl. by rewrite Hmode. }
    destruct (memchr newline c) as [pos|] eqn:Hmem; simpl.
    + apply memchr_some in Hmem as (Hsplit & Hnl & Hpos).
      assert (abs (set_mode p ReadingLine) = (ReadingLine, [])) as Habs'.
      { injection Habs as _ Hb. unfold abs. simpl. by rewrite Hb. }
      rewrite Habs, Habs'. rewrite Hsplit at 1. rewrite run_discard_line by done.
      unfold work. simpl. rewrite at_limit_nil.
      split_and!; [apply wf_idle|done|len_lia..].
    + apply memchr_none in Hmem. rewrite Habs, run_discard by done.
      split_and!; try done. rewrite <- Habs. done.
  - assert (bm_bytes (line_buffer p) = []) as Hb.
    { apply Hwf. simpl. by rewrite Hmode. }
    assert (abs p = (PendingLimitDelimiter, [])) as Habs by (unfold abs; by rewrite Hmode, Hb).
    assert (abs (set_mode p ReadingLine) = (ReadingLine, [])) as Habs' by (unfold abs; simpl; by rewrite Hb).
    destruct c as [|b c]; [done|]. case_bool_decide as Hnl.
    + subst b. cbn [step_ok]. rewrite Habs, Habs', run_pending_newline.
      unfold work. simpl. rewrite at_limit_nil. split_and!; [apply wf_idle|done|lia..].
    + assert (wf o (abs (set_mode p ReadingLine))) as Hwf' by (rewrite Habs'; apply wf_idle).
      apply (step_ok_ext (set_mode p ReadingLine)); [by rewrite Habs, Habs', run_pending|done|].
      by apply read_line_step_ok.
Qed.

Lemma next_line_loop_ok fuel p c :
  (length c ≤ fuel)%nat → wf o (abs p) →
  ∃ line p' rest, next_line_loop fuel p c o = Some (line, p', rest) ∧
    wf o (abs p') ∧ (length rest ≤ length c)%nat ∧
    match line with
    | None => rest = [] ∧ run o (abs p) c = (abs p', [])
    | Some s => ∃ raw, s = decode_line_lossy raw ∧
        run o (abs p) c = ((run o (abs p') rest).1, raw :: (run o (abs p') rest).2) ∧
        (work o (abs p') rest < work o (abs p) c)%nat
    end.
Proof.
  revert p c. induction fuel as [|fuel IH]; intros p c Hf Hwf.
  { destruct c; simpl in *; [|lia]. by exists None, p, []. }
  destruct c as [|b c]; [by exists None, p, []|]. cbn [next_line_loop].
  pose proof (next_line_step_ok p (b :: c) ltac:(done) Hwf) as Hok.
  destruct (next_line_step p (b :: c) o) as [p' rest|[s|] p' rest].
  - destruct Hok as (Hwf' & Hrun & Hlt & Hwork).
    destruct (IH p' rest ltac:(simpl in *; lia) Hwf') as (line & p'' & rest' & -> & Hwf'' & Hle & Hres).
    exists line, p'', rest'. split_and!; try done; [lia|].
    rewrite Hrun. destruct line; [|done]. destruct Hres as (raw & ? & ? & ?). exists raw.
    split_and!; try done; lia.
  - destruct Hok as (raw & ? & ? & ? & ? & ?). exists (Some s), p', rest. eauto 10.
  - destruct Hok as (-> & ? & ?). exists None, p', []. split_and!; simpl; try done; lia.
Qed.

(** [next_line] returns, with the fuel it is given, and does what the machine
    does up to the line it returns. *)
Lemma next_line_ok p c :
  wf o (abs p) →
  ∃ line p' rest, next_line p c o = Some (line, p', rest) ∧
    wf o (abs p') ∧ (length rest ≤ length c)%nat ∧
    match line with
    | None => rest = [] ∧ run o (abs p) c = (abs p', [])
    | Some s => ∃ raw, s = decode_line_lossy raw ∧
        run o (abs p) c = ((run o (abs p') rest).1, raw :: (run o (abs p') rest).2) ∧
        (work o (abs p') rest < work o (abs p) c)%nat
    end.
Proof.
  intros Hwf. unfold next_line.
  rewrite <- (abs_compact p (buffer_compaction_threshold o)).
  apply next_line_loop_ok; [lia|]. by rewrite abs_compact.
Qed.

Lemma drain_loop_ok fuel p c :
  (work o (abs p) c < fuel)%nat → wf o (abs p) →
  ∃ p', drain_loop fuel p c o = Some (decode_line_lossy <$> (run o (abs p) c).2, p') ∧
    abs p' = (run o (abs p) c).1 ∧ wf o (abs p').
Proof.
  revert p c. induction fuel as [|fuel IH]; intros p c Hf Hwf; [lia|].
  cbn [drain_loop].
  destruct (next_line_ok p c Hwf) as (line & p' & rest & -> & Hwf' & Hle & Hres). simpl.
  destruct line as [s|].
  - destruct Hres as (raw & -> & -> & Hlt).
    destruct (IH p' rest ltac:(lia) Hwf') as (p'' & -> & Habs & Hwf''). simpl. eauto.
  - destruct Hres as [-> ->]. eauto.
Qed.

(** Draining a chunk is running the machine over its bytes. *)
Lemma drain_refines p c :
  wf o (abs p) →
  ∃ p', drain p c o = Some (decode_line_lossy <$> (run o (abs p) c).2, p') ∧
    abs p' = (run o (abs p) c).1 ∧ wf o (abs p').
Proof.
  intros Hwf. apply drain_loop_ok; [|done]. unfold work. case_match; lia.
Qed.

Lemma finish_refines p :
  wf o (abs p) →
  (finish p).1 = head (decode_line_lossy <$> flush (abs p)).
Proof.
  intros Hwf. unfold finish, flush, abs.
  destruct (mode p) eqn:Hm; destruct (bm_bytes (line_buffer p)) eqn:Hb;
    rewrite ?(bool_decide_eq_true_2 _ eq_refl); simpl; rewrite ?Hb; done.
Qed.

End refinement.

(** ** Reachable parsers *)

Section reachable.
Context {B : Type} `{BytesMut B, Memchr}.
Implicit Types (p : LineParser B) (o : LineParsingOptions).

(** The options of a call suit the parser: the limit is a [usize], and either
    there is none (zero) or the line being read has not outgrown it.  Options
    that stay the same always do, [next_line_bounded] below. *)
Definition fits o p : Prop :=
  bytes (max_line_length o) ≤ usize_max ∧
  (bytes (max_line_length o) = 0 ∨ len (bm_bytes (line_buffer p)) ≤ bytes (max_line_length o)).

(** The parsers obtained from a new one by its operations, with options that may
    change from call to call as long as they suit the parser. *)
Inductive reachable : LineParser B → Prop :=
| reach_new : reachable parser_new
| reach_next_line o p c line p' rest :
    reachable p → fits o p → next_line p c o = Some (line, p', rest) → reachable p'
| reach_on_gap p : reachable p → reachable (parser_on_gap p)
| reach_finish p : reachable p → reachable (finish p).2.

(** Outside a line nothing is buffered. *)
Definition idle_empty p : Prop := mode p ≠ ReadingLine → bm_bytes (line_buffer p) = [].

(** A buffer that is full on entry is handed out before the chunk is looked
    at. *)
Lemma next_line_full o p c :
  mode p = ReadingLine → c ≠ [] → buffer_at_limit p o = true →
  ∃ p', next_line p c o = Some (Some (decode_line_lossy (bm_bytes (line_buffer p))), p', c) ∧
    bm_bytes (line_buffer p') = [].
Proof.
  intros Hm Hc Hl. unfold next_line. destruct c as [|b c]; [done|].
  pose proof (abs_compact p (buffer_compaction_threshold o)) as Ha. unfold abs in Ha.
  set (q := compact_if_needed p _) in *. injection Ha as Hmq Hbq.
  assert (buffer_at_limit q o = true) as Hlq by (unfold buffer_at_limit in *; by rewrite Hbq).
  cbn [next_line_loop length]. unfold next_line_step, read_line_step. rewrite Hmq, Hm, Hlq. cbn.
  rewrite Hbq. eexists. split; [reflexivity|]. apply bm_clear_bytes.
Qed.

(** What one call comes to. *)
Lemma next_line_result o p c :
  idle_empty p → fits o p →
  ∃ line p' rest, next_line p c o = Some (line, p', rest) ∧ idle_empty p' ∧ fits o p' ∧
    match line with
    | Some s => bytes (max_line_length o) ≠ 0 → len s ≤ 3 * bytes (max_line_length o)
    | None => rest = []
    end.
Proof.
  intros Hidle [Hu Hfit]. set (max := bytes (max_line_length o)) in *.
  assert (∀ raw, max ≠ 0 → len raw ≤ max → len (decode_line_lossy raw) ≤ 3 * max) as Hdec.
  { intros raw _ Hraw. pose proof (from_utf8_lossy_length raw). unfold decode_line_lossy, len in *. lia. }
  destruct (decide (max ≠ 0 ∧ len (bm_bytes (line_buffer p)) = max ∧ c ≠ [])) as [(Hmax & Hlen & Hc)|Hnot].
  - assert (mode p = ReadingLine) as Hm.
    { destruct (decide (mode p = ReadingLine)) as [|Hm]; [done|]. apply Hidle in Hm.
      rewrite Hm, len_nil in Hlen. lia. }
    destruct (next_line_full o p c Hm Hc) as (p' & Hrun & Hb).
    { unfold buffer_at_limit. fold max. apply andb_true_iff. split; [|by apply N.eqb_eq].
      by apply negb_true_iff, N.eqb_neq. }
    eexists _, p', c. split; [exact Hrun|]. split_and!.
    + intros _. done.
    + split; [done|]. right. rewrite Hb. apply N.le_0_l.
    + intros _. apply Hdec; lia.
  - destruct (decide (c = [])) as [->|Hc].
    { unfold next_line. cbn [length next_line_loop].
      pose proof (abs_compact p (buffer_compaction_threshold o)) as Ha. unfold abs in Ha. injection Ha as Hmq Hbq.
      eexists _, _, _. split; [reflexivity|]. unfold idle_empty, fits. rewrite Hmq, Hbq. done. }
    assert (Machine.wf o (abs p)) as Hwf.
    { split; [exact Hidle|]. fold max. intros Hmax. unfold abs. cbn [snd].
      destruct Hfit as [?|Hle]; [done|]. split; [done|]. intros _.
      destruct (decide (len (bm_bytes (line_buffer p)) = max)); [|lia]. by destruct Hnot. }
    destruct (next_line_ok o Hu p c Hwf) as (line & p' & rest & Hnext & Hwf' & _ & Hres).
    exists line, p', rest. split; [done|]. destruct Hwf' as [Hidle' Hle']. split_and!.
    + exact Hidle'.
    + split; [done|]. destruct (decide (max = 0)) as [|Hmax]; [by left|right]. by apply Hle'.
    + destruct line as [s|]; [|by destruct Hres]. destruct Hres as (raw & -> & Hrun & _). intros Hmax.
      pose proof (Machine.run_bound o (abs p) c Hwf) as Hb. rewrite Hrun in Hb. simpl in Hb.
      apply Forall_cons in Hb as [Hraw _]. apply Hdec; [done|]. by apply Hraw.
Qed.

Lemma reachable_idle p : reachable p → idle_empty p.
Proof.
  induction 1 as [|o p c line p' rest _ IH Hfit Hnext|p _ IH|p _ IH]; [intros Hm; by destruct Hm|..].
  - destruct (next_line_result o p c IH Hfit) as (? & ? & ? & Hnext' & Hidle & _).
    rewrite Hnext in Hnext'. by simplify_eq.
  - intros _. apply bm_clear_bytes.
  - unfold finish. case_bool_decide; [done|]. case_bool_decide; [done|]. intros _. apply bm_clear_bytes.
Qed.

(** C31: [next_line] on every parser the public operations can produce, with the
    options given call by call, provided a call does not set a limit below what
    is already buffered of the line being read.  It returns (its loop
    terminates); it returns [None] only when it has consumed the whole chunk;
    the options suit the parser again afterwards, so that they can be kept.
    With a limit (not zero) it buffers at most the limit and hands out a line of
    at most three bytes per byte of it (an invalid byte decodes to a three-byte
    replacement). *)
Theorem next_line_bounded o p c :
  reachable p → fits o p →
  ∃ line p' rest, next_line p c o = Some (line, p', rest) ∧ reachable p' ∧ fits o p' ∧
    (bytes (max_line_length o) ≠ 0 → len (bm_bytes (line_buffer p')) ≤ bytes (max_line_length o)) ∧
    match line with
    | Some s => bytes (max_line_length o) ≠ 0 → len s ≤ 3 * bytes (max_line_length o)
    | None => rest = []
    end.
Proof.
  intros Hreach Hfit.
  destruct (next_line_result o p c (reachable_idle p Hreach) Hfit) as (line & p' & rest & Hrun & _ & Hfit' & Hres).
  exists line, p', rest. split_and!; [done|by eapply reach_next_line|done| |done].
  intros Hmax. by destruct Hfit' as [_ [?|?]].
Qed.

End reachable.

(** ** Concrete library instances

    Reference implementations of the two interfaces, used to evaluate the
    parser: a linear search, and a buffer that doubles its capacity. *)

Module Reference.

Fixpoint memchr_list (b : byte) (l : list byte) : option N :=
  match l with
  | [] => None
  | c :: l => if bool_decide (c = b) then Some 0 else N.succ <$> memchr_list b l
  end.

Lemma memchr_list_some b l i :
  memchr_list b l = Some i →
  l = slice_to i l ++ (b :: slice_from (i + 1) l) ∧ (b ∉ slice_to i l) ∧ (i < len l).
Proof.
  revert i. induction l as [|c l IH]; simpl; [done|]. intros i.
  case_bool_decide as Hc; simpl; [intros [= <-]|].
  { subst. split_and!; [done|apply not_elem_of_nil|len_lia]. }
  intros (j & Hj & ->)%fmap_Some. apply IH in Hj as (Hl & Hb & Hj).
  unfold slice_to, slice_from in *. rewrite N2Nat.inj_succ, N.add_succ_l, N2Nat.inj_succ. simpl.
  split_and!; [by f_equal|apply not_elem_of_cons; split; [congruence|done]|len_lia].
Qed.

Lemma memchr_list_none b l : memchr_list b l = None → b ∉ l.
Proof.
  induction l as [|c l IH]; simpl; [intros _; apply not_elem_of_nil|].
  case_bool_decide as Hc; [done|]. rewrite fmap_None. intros Hn%IH.
  apply not_elem_of_cons. naive_solver.
Qed.

Record buffer : Type := mkBuffer { buffer_bytes : list byte; spare : N }.

Definition buffer_extend (b : buffer) (l : list byte) : buffer :=
  mkBuffer (buffer_bytes b ++ l)
    (if len l <=? spare b then spare b - len l else len (buffer_bytes b) + len l).

End Reference.

#[export] Instance memchr_reference : Memchr := {|
  memchr := Reference.memchr_list;
  memchr_some := Reference.memchr_list_some;
  memchr_none := Reference.memchr_list_none;
|}.

#[export, refine] Instance bytes_mut_reference : BytesMut Reference.buffer := {|
  bm_new := Reference.mkBuffer [] 0;
  bm_bytes := Reference.buffer_bytes;
  bm_capacity b := len (Reference.buffer_bytes b) + Reference.spare b;
  bm_clear b := Reference.mkBuffer [] (len (Reference.buffer_bytes b) + Reference.spare b);
  bm_extend := Reference.buffer_extend;
|}.
Proof. all: done || (intros; simpl; len_lia). Defined.

(** A line of three bytes under a limit of two. *)
Lemma next_line_bounded_witness :
  let o := mkLineParsingOptions (mkNumBytes 2) DropAdditionalData None in
  ∃ line p' rest, next_line (parser_new (B := Reference.buffer)) [x61; x62; x63; newline; x64] o = Some (line, p', rest) ∧
    len (bm_bytes (line_buffer p')) ≤ 2.
Proof.
  intros o. destruct (next_line_bounded (B := Reference.buffer) o parser_new [x61; x62; x63; newline; x64]
    ltac:(apply reach_new) ltac:(split; [vm_compute; discriminate|right; vm_compute; discriminate]))
    as (line & p' & rest & Hrun & _ & _ & Hle & _).
  exists line, p', rest. split; [exact Hrun|]. apply Hle. discriminate.
Defined.

(** A limit lowered in the middle of a line does not suit the parser: the room
    left is computed by a subtraction that underflows, so that (where overflow
    is not checked) the buffer goes on growing beyond the limit. *)
Lemma lowered_limit_exceeded :
  let wide := mkLineParsingOptions (mkNumBytes 8) DropAdditionalData None in
  let narrow := mkLineParsingOptions (mkNumBytes 2) DropAdditionalData None in
  ∃ p p' : LineParser Reference.buffer,
    next_line parser_new [x61; x61; x61] wide = Some (None, p, []) ∧
    next_line p [x61; x61; x61] narrow = Some (None, p', []) ∧
    2 < len (bm_bytes (line_buffer p')).
Proof. eexists _, _. split; [vm_compute; reflexivity|]. split; [vm_compute; reflexivity|]. done. Qed.
