(* ===== verification/LineSpec.v ===== *)
(** * What a line is

    The declarative meaning of the line parser of [line/parser.rs] on a whole
    byte string: [Lines.spec_lines] splits at newlines and cuts every segment
    to the line limit.  The byte machine of [LineParser] computes it, whatever
    the machine's starting mode ([run_spec_lines], [run_spec_after_gap]). *)

From S2P Require Import Prelude Utf8 Stream LineParser.

(** ** Declarative meaning

    The lines of a byte string: its newline-terminated segments and a
    non-empty unterminated tail, each cut to the line limit. *)

Module Lines.

Import Machine.

Fixpoint chunks_of_loop (fuel : nat) (n : N) (l : list byte) : list (list byte) :=
  match fuel, l with
  | S fuel, _ :: _ => slice_to n l :: chunks_of_loop fuel n (slice_from n l)
  | _, _ => []
  end.

(** Pieces of [n] bytes, the last one possibly shorter. *)
Definition chunks_of (n : N) (l : list byte) : list (list byte) :=
  chunks_of_loop (length l) n l.

(** The lines made of one segment. *)
Definition cut (o : LineParsingOptions) (seg : list byte) : list (list byte) :=
  if bytes (max_line_length o) =? 0 then [seg]
  else match overflow_behavior o, seg with
       | DropAdditionalData, _ => [slice_to (bytes (max_line_length o)) seg]
       | EmitAdditionalAsNewLines, [] => [[]]
       | EmitAdditionalAsNewLines, _ => chunks_of (bytes (max_line_length o)) seg
       end.

(** The newline-terminated segments and the tail. *)
Fixpoint segments (l : list byte) : list (list byte) * list byte :=
  match l with
  | [] => ([], [])
  | b :: l =>
      let '(segs, tail) := segments l in
      if bool_decide (b = newline) then ([] :: segs, tail)
      else match segs with
           | [] => ([], b :: tail)
           | seg :: segs => ((b :: seg) :: segs, tail)
           end
  end.

Definition cut_tail (o : LineParsingOptions) (tail : list byte) : list (list byte) :=
  match tail with [] => [] | _ => cut o tail end.

Definition spec_lines (o : LineParsingOptions) (l : list byte) : list (list byte) :=
  let '(segs, tail) := segments l in flat_map (cut o) segs ++ cut_tail o tail.

(** The lines of an unterminated tail that are handed out before its newline is
    there: the full line in front of an overflow, or every full piece. *)
Definition early (o : LineParsingOptions) (tail : list byte) : list (list byte) :=
  let max := bytes (max_line_length o) in
  if max =? 0 then []
  else match overflow_behavior o with
       | DropAdditionalData => if max <? len tail then [slice_to max tail] else []
       | EmitAdditionalAsNewLines => filter (λ piece, len piece = max) (chunks_of max tail)
       end.

(** The lines handed out once these bytes have been read, while the stream goes
    on: those of the terminated segments, and the early ones of the tail. *)
Definition completed (o : LineParsingOptions) (l : list byte) : list (list byte) :=
  let '(segs, tail) := segments l in flat_map (cut o) segs ++ early o tail.

(** What is left of a byte string after its first newline. *)
Fixpoint after_newline (l : list byte) : list byte :=
  match l with
  | [] => []
  | b :: l => if bool_decide (b = newline) then l else after_newline l
  end.

Lemma segments_tail l : newline ∉ l → segments l = ([], l).
Proof.
  induction l as [|b l IH]; intros Hl; simpl; [done|].
  apply not_elem_of_cons in Hl as [Hb Hl].
  rewrite IH, bool_decide_eq_false_2 by congruence. done.
Qed.

Lemma segments_line seg l :
  newline ∉ seg →
  segments (seg ++ newline :: l) = (seg :: (segments l).1, (segments l).2).
Proof.
  induction seg as [|b seg IH]; intros Hl; simpl.
  - by destruct (segments l).
  - apply not_elem_of_cons in Hl as [Hb Hl].
    rewrite IH, bool_decide_eq_false_2 by congruence. done.
Qed.

Lemma newline_cases (l : list byte) :
  newline ∉ l ∨ ∃ seg k, l = seg ++ newline :: k ∧ newline ∉ seg.
Proof.
  destruct (decide (newline ∈ l)) as [Hin|]; [right|by left].
  apply list_elem_of_split_l in Hin as (seg & k & -> & Hseg). by exists seg, k.
Qed.

Lemma chunks_of_loop_fuel n f1 f2 l :
  0 < n → (length l ≤ f1)%nat → (length l ≤ f2)%nat →
  chunks_of_loop f1 n l = chunks_of_loop f2 n l.
Proof.
  intros Hn. revert f2 l. induction f1 as [|f1 IH]; intros f2 [|b l] H1 H2;
    destruct f2; simpl in *; try done; try lia.
  f_equal. apply IH; len_lia.
Qed.

Lemma chunks_of_step n l :
  0 < n → l ≠ [] → chunks_of n l = slice_to n l :: chunks_of n (slice_from n l).
Proof.
  intros Hn Hl. destruct l as [|b l]; [done|]. unfold chunks_of. simpl length.
  cbn [chunks_of_loop]. f_equal. apply chunks_of_loop_fuel; len_lia.
Qed.

Section spec.
Context (o : LineParsingOptions).

#[local] Abbreviation max := (bytes (max_line_length o)).

(** *** Unlimited lines, and lines within the limit *)

Lemma run_short seg :
  newline ∉ seg → (max ≠ 0 → len seg < max) → run o (ReadingLine, []) seg = ((ReadingLine, seg), []).
Proof. intros. rewrite run_read_below; len_lia || done. Qed.

Lemma run_short_line seg k :
  newline ∉ seg → (max ≠ 0 → len seg < max) →
  run o (ReadingLine, []) (seg ++ newline :: k) =
    ((run o (ReadingLine, []) k).1, seg :: (run o (ReadingLine, []) k).2).
Proof. intros. rewrite run_read_line; len_lia || done. Qed.

(** A segment that reaches the limit starts with a full line. *)
Lemma run_long seg k :
  newline ∉ seg → max ≠ 0 → max ≤ len seg →
  run o (ReadingLine, []) (seg ++ k) =
    match overflow_behavior o with
    | DropAdditionalData =>
        run o (ReadingLine, slice_to max seg) (slice_from max seg ++ k)
    | EmitAdditionalAsNewLines =>
        ((run o (PendingLimitDelimiter, []) (slice_from max seg ++ k)).1,
         slice_to max seg :: (run o (PendingLimitDelimiter, []) (slice_from max seg ++ k)).2)
    end.
Proof.
  intros Hseg Hmax Hlen. rewrite <- (slice_to_from max seg) at 1. rewrite <- (assoc_L (++)).
  rewrite run_app, run_read_full;
    [| |intros Hnil%len_zero; rewrite len_slice_to in Hnil; lia|done|rewrite len_slice_to; len_lia].
  - destruct (overflow_behavior o); simpl; [|done]. by rewrite <- surjective_pairing.
  - intros Hin. apply Hseg. rewrite <- (slice_to_from max seg). apply elem_of_app. by left.
Qed.

Lemma slice_from_newline n seg : newline ∉ seg → newline ∉ slice_from n seg.
Proof.
  intros Hseg Hin. apply Hseg. rewrite <- (slice_to_from n seg). apply elem_of_app. by right.
Qed.

(** *** The emitting behaviour *)

(** Where [chunks_of] starts: not behind an empty segment, which would be a
    line of its own. *)
Definition may_cut (m : LineParserMode) (seg : list byte) : Prop :=
  m = PendingLimitDelimiter ∨ (m = ReadingLine ∧ seg ≠ []).

Lemma may_cut_reading m seg k :
  newline ∉ seg → seg ≠ [] → may_cut m seg → run o (m, []) (seg ++ k) = run o (ReadingLine, []) (seg ++ k).
Proof.
  intros Hseg Hne [->|[-> _]]; [|done]. destruct seg as [|b seg]; [done|].
  apply not_elem_of_cons in Hseg as [Hb _]. simpl app. by rewrite run_pending by congruence.
Qed.

Lemma emit_segment m seg k :
  overflow_behavior o = EmitAdditionalAsNewLines → max ≠ 0 → newline ∉ seg → may_cut m seg →
  run o (m, []) (seg ++ newline :: k) =
    ((run o (ReadingLine, []) k).1, chunks_of max seg ++ (run o (ReadingLine, []) k).2).
Proof.
  intros Ho Hmax. revert m. induction seg as [seg IH] using (induction_ltof1 _ length).
  intros m Hseg Hm. destruct (decide (seg = [])) as [->|Hne].
  { destruct Hm as [->|[_ ?]]; [|done]. simpl app. rewrite run_pending_newline.
    apply surjective_pairing. }
  rewrite may_cut_reading, (chunks_of_step max seg) by (done || lia).
  destruct (decide (len seg < max)) as [Hlt|Hge].
  { rewrite run_short_line, slice_to_all, slice_from_all by (done || lia). done. }
  rewrite run_long, Ho by (done || lia).
  rewrite IH; [done| |by apply slice_from_newline|by left].
  unfold ltof. destruct seg; [done|]. len_lia.
Qed.

Lemma emit_tail m seg :
  overflow_behavior o = EmitAdditionalAsNewLines → max ≠ 0 → newline ∉ seg → may_cut m seg →
  (run o (m, []) seg).2 ++ flush (run o (m, []) seg).1 = chunks_of max seg.
Proof.
  intros Ho Hmax. revert m. induction seg as [seg IH] using (induction_ltof1 _ length).
  intros m Hseg Hm. destruct (decide (seg = [])) as [->|Hne].
  { by destruct Hm as [->|[_ ?]]. }
  rewrite (chunks_of_step max seg) by (done || lia).
  rewrite <- (app_nil_r seg) at 1 2. rewrite may_cut_reading by done.
  destruct (decide (len seg < max)) as [Hlt|Hge].
  { rewrite app_nil_r, run_short, slice_to_all, slice_from_all by (done || lia).
    by destruct seg. }
  rewrite run_long, Ho, !app_nil_r by (done || lia). simpl. f_equal.
  apply IH; [|by apply slice_from_newline|by left].
  unfold ltof. destruct seg; [done|]. len_lia.
Qed.

(** *** The dropping behaviour *)

Lemma drop_segment seg k :
  overflow_behavior o = DropAdditionalData → max ≠ 0 → newline ∉ seg →
  run o (ReadingLine, []) (seg ++ newline :: k) =
    ((run o (ReadingLine, []) k).1, slice_to max seg :: (run o (ReadingLine, []) k).2).
Proof.
  intros Ho Hmax Hseg. destruct (decide (len seg < max)) as [Hlt|Hge].
  { rewrite run_short_line, slice_to_all by (done || lia). done. }
  rewrite run_long, Ho by (done || lia).
  rewrite run_at_limit, run_discard_line; [done|by apply slice_from_newline|by destruct (slice_from _ _)|].
  apply at_limit_spec. rewrite len_slice_to. lia.
Qed.

Lemma drop_tail seg :
  overflow_behavior o = DropAdditionalData → max ≠ 0 → newline ∉ seg → seg ≠ [] →
  (run o (ReadingLine, []) seg).2 ++ flush (run o (ReadingLine, []) seg).1 = [slice_to max seg].
Proof.
  intros Ho Hmax Hseg Hne. destruct (decide (len seg < max)) as [Hlt|Hge].
  { rewrite run_short, slice_to_all by (done || lia). by destruct seg. }
  rewrite <- (app_nil_r seg) at 1 2. rewrite run_long, Ho, app_nil_r by (done || lia).
  assert (len (slice_to max seg) = max) as Hlen by (rewrite len_slice_to; lia).
  destruct (decide (slice_from max seg = [])) as [->|Hrest].
  { simpl. destruct (slice_to max seg); [|done]. rewrite len_nil in Hlen. lia. }
  rewrite run_at_limit, run_discard; [done|by apply slice_from_newline|done|].
  by apply at_limit_spec.
Qed.

(** *** One segment, and whole strings *)

(** The lines of a terminated segment. *)
Lemma run_segment seg k :
  newline ∉ seg →
  run o (ReadingLine, []) (seg ++ newline :: k) =
    ((run o (ReadingLine, []) k).1, cut o seg ++ (run o (ReadingLine, []) k).2).
Proof.
  intros Hseg. unfold cut. destruct (N.eqb_spec max 0) as [Hmax|Hmax].
  { by rewrite run_short_line by (done || lia). }
  destruct (overflow_behavior o) eqn:Ho; [by apply drop_segment|].
  destruct seg as [|b seg]; [by rewrite run_short_line by (done || len_lia)|].
  apply emit_segment; try done. by right.
Qed.

(** The lines of an unterminated segment, with the flush at the end. *)
Lemma run_tail seg :
  newline ∉ seg →
  (run o (ReadingLine, []) seg).2 ++ flush (run o (ReadingLine, []) seg).1 = cut_tail o seg.
Proof.
  intros Hseg. unfold cut_tail. destruct seg as [|b seg]; [done|]. unfold cut.
  destruct (N.eqb_spec max 0) as [Hmax|Hmax].
  { by rewrite run_short by (done || lia). }
  destruct (overflow_behavior o) eqn:Ho; [by apply drop_tail|].
  apply emit_tail; try done. by right.
Qed.

Lemma run_spec_lines l :
  (run o (ReadingLine, []) l).2 ++ flush (run o (ReadingLine, []) l).1 = spec_lines o l.
Proof.
  induction l as [l IH] using (induction_ltof1 _ length). unfold spec_lines.
  destruct (newline_cases l) as [Hl|(seg & k & -> & Hseg)].
  - rewrite segments_tail by done. simpl. by apply run_tail.
  - rewrite segments_line, run_segment by done. simpl.
    rewrite <- !(assoc_L (++)), IH by (unfold ltof; rewrite length_app; simpl; lia).
    unfold spec_lines. by destruct (segments k).
Qed.

(** *** Before the end of the stream *)

Lemma emit_early m seg :
  overflow_behavior o = EmitAdditionalAsNewLines → max ≠ 0 → newline ∉ seg → may_cut m seg →
  (run o (m, []) seg).2 = filter (λ piece, len piece = max) (chunks_of max seg).
Proof.
  intros Ho Hmax. revert m. induction seg as [seg IH] using (induction_ltof1 _ length).
  intros m Hseg Hm. destruct (decide (seg = [])) as [->|Hne].
  { by destruct Hm as [->|[_ ?]]. }
  rewrite (chunks_of_step max seg) by (done || lia).
  rewrite <- (app_nil_r seg) at 1. rewrite may_cut_reading by done.
  destruct (decide (len seg < max)) as [Hlt|Hge].
  { rewrite app_nil_r, run_short, slice_to_all, slice_from_all by (done || lia).
    by rewrite filter_cons_False by lia. }
  rewrite run_long, Ho, !app_nil_r by (done || lia). simpl.
  rewrite filter_cons_True by (rewrite len_slice_to; lia). f_equal.
  apply IH; [|by apply slice_from_newline|by left].
  unfold ltof. destruct seg; [done|]. len_lia.
Qed.

Lemma drop_early seg :
  overflow_behavior o = DropAdditionalData → max ≠ 0 → newline ∉ seg →
  (run o (ReadingLine, []) seg).2 = if max <? len seg then [slice_to max seg] else [].
Proof.
  intros Ho Hmax Hseg. destruct (N.ltb_spec max (len seg)) as [Hlt|Hge].
  - rewrite <- (app_nil_r seg) at 1. rewrite run_long, Ho, app_nil_r by (done || lia).
    rewrite run_at_limit, run_discard; [done|by apply slice_from_newline| |].
    + intros Hnil%(f_equal len). rewrite len_slice_from, len_nil in Hnil. lia.
    + apply at_limit_spec. rewrite len_slice_to. lia.
  - destruct (decide (len seg < max)) as [?|?]; [by rewrite run_short by (done || lia)|].
    rewrite run_read_full, Ho; [done|done| |done|len_lia]. intros ->. rewrite len_nil in *. lia.
Qed.

Lemma run_early seg : newline ∉ seg → (run o (ReadingLine, []) seg).2 = early o seg.
Proof.
  intros Hseg. unfold early. destruct (N.eqb_spec max 0) as [Hmax|Hmax].
  { by rewrite run_short by (done || lia). }
  destruct (overflow_behavior o) eqn:Ho; [by apply drop_early|].
  destruct seg as [|b seg]; [done|]. apply emit_early; try done. by right.
Qed.

Lemma run_completed l : (run o (ReadingLine, []) l).2 = completed o l.
Proof.
  induction l as [l IH] using (induction_ltof1 _ length). unfold completed.
  destruct (newline_cases l) as [Hl|(seg & k & -> & Hseg)].
  - rewrite segments_tail by done. simpl. by apply run_early.
  - rewrite segments_line, run_segment by done. simpl.
    rewrite <- !(assoc_L (++)), IH by (unfold ltof; rewrite length_app; simpl; lia).
    unfold completed. by destruct (segments k).
Qed.

Lemma after_newline_none l : newline ∉ l → after_newline l = [].
Proof.
  induction l as [|b l IH]; intros Hl; simpl; [done|].
  apply not_elem_of_cons in Hl as [Hb Hl].
  rewrite bool_decide_eq_false_2 by congruence. by apply IH.
Qed.

Lemma after_newline_app seg k : newline ∉ seg → after_newline (seg ++ newline :: k) = k.
Proof.
  induction seg as [|b seg IH]; intros Hl; simpl; [done|].
  apply not_elem_of_cons in Hl as [Hb Hl].
  rewrite bool_decide_eq_false_2 by congruence. by apply IH.
Qed.

Lemma run_spec_after_gap l :
  (run o (DiscardUntilNewline, []) l).2 ++ flush (run o (DiscardUntilNewline, []) l).1
  = spec_lines o (after_newline l).
Proof.
  destruct (newline_cases l) as [Hl|(seg & k & -> & Hseg)].
  - by rewrite run_discard, after_newline_none by done.
  - by rewrite run_discard_line, after_newline_app, run_spec_lines by done.
Qed.

(** *** Bounds and losslessness *)

Lemma cut_bound seg line : max ≠ 0 → line ∈ cut o seg → len line ≤ max.
Proof.
  intros Hmax. unfold cut. destruct (N.eqb_spec max 0) as [|_]; [done|].
  destruct (overflow_behavior o); [intros ->%list_elem_of_singleton; apply slice_to_length_lt|].
  destruct seg as [|b seg]; [intros ->%list_elem_of_singleton; len_lia|].
  enough (∀ fuel l, line ∈ chunks_of_loop fuel max l → len line ≤ max) as Hk by apply Hk.
  intros fuel. induction fuel as [|fuel IH]; intros l; [by intros ?%not_elem_of_nil|].
  destruct l as [|c l]; [by intros ?%not_elem_of_nil|]. cbn [chunks_of_loop].
  intros [->|Hin]%elem_of_cons; [apply slice_to_length_lt|by eapply IH].
Qed.

Lemma concat_chunks_of n l : 0 < n → concat (chunks_of n l) = l.
Proof.
  intros Hn. induction l as [l IH] using (induction_ltof1 _ length).
  destruct (decide (l = [])) as [->|Hne]; [done|].
  rewrite chunks_of_step by done. simpl. rewrite IH; [apply slice_to_from|].
  unfold ltof. destruct l; [done|]. len_lia.
Qed.

(** Unless data is to be dropped, cutting a segment loses none of it. *)
Lemma concat_cut seg :
  max = 0 ∨ overflow_behavior o = EmitAdditionalAsNewLines → concat (cut o seg) = seg.
Proof.
  intros Ho. unfold cut. destruct (N.eqb_spec max 0) as [|Hmax]; [apply app_nil_r|].
  destruct Ho as [|Ho]; [done|]. rewrite Ho. destruct seg; [done|].
  apply concat_chunks_of. lia.
Qed.

Lemma spec_lines_bound l line : max ≠ 0 → line ∈ spec_lines o l → len line ≤ max.
Proof.
  intros Hmax. unfold spec_lines. destruct (segments l) as [segs tail].
  intros [Hin|Hin]%elem_of_app.
  - apply list_elem_of_In, in_flat_map in Hin as (seg & _ & Hin%list_elem_of_In).
    by eapply cut_bound.
  - destruct tail; [by apply not_elem_of_nil in Hin|]. by eapply cut_bound.
Qed.

Lemma segments_concat l :
  concat (segments l).1 ++ (segments l).2 = filter (λ b, b ≠ newline) l.
Proof.
  induction l as [|b l IH]; simpl; [done|].
  destruct (segments l) as [segs tail]. simpl in *. rewrite filter_cons.
  case_bool_decide as Hb; [rewrite decide_False by naive_solver; done|].
  rewrite decide_True by done. rewrite <- IH. by destruct segs.
Qed.

Lemma concat_spec_lines l :
  max = 0 ∨ overflow_behavior o = EmitAdditionalAsNewLines →
  concat (spec_lines o l) = filter (λ b, b ≠ newline) l.
Proof.
  intros Ho. rewrite <- segments_concat. unfold spec_lines.
  destruct (segments l) as [segs tail]. simpl. rewrite concat_app. f_equal.
  - induction segs as [|seg segs IH]; simpl; [done|]. by rewrite concat_app, concat_cut, IH.
  - destruct tail; [done|]. by apply concat_cut.
Qed.

End spec.

(** *** Decoding *)

Lemma decode_newline l : newline ∉ l → newline ∉ from_utf8_lossy l.
Proof.
  induction l as [|b0 t ok k E IH] using decoder_ind; [done|]. intros Hl.
  rewrite (from_utf8_lossy_cons _ _ _ _ E).
  pose proof (take_drop k (b0 :: t)) as Hsplit. rewrite <- Hsplit in Hl.
  apply not_elem_of_app in Hl as [Ht Hd]. apply not_elem_of_app. split; [|by apply IH].
  destruct ok; [done|]. by apply (bool_decide_unpack (newline ∉ replacement)).
Qed.

(** Decoding segment by segment is decoding the whole: a newline never breaks a
    character. *)
Lemma decode_segments l :
  segments (from_utf8_lossy l) =
    (decode_line_lossy <$> (segments l).1, decode_line_lossy (segments l).2).
Proof.
  induction l as [l IH] using (induction_ltof1 _ length).
  destruct (newline_cases l) as [Hl|(seg & k & -> & Hseg)].
  - rewrite !segments_tail by (done || by apply decode_newline). done.
  - rewrite from_utf8_lossy_split, !segments_line by (done || by apply decode_newline).
    rewrite IH by (unfold ltof; rewrite length_app; simpl; lia). done.
Qed.

(** *** Lines within the limit *)

(** No line of the string reaches beyond the limit. *)
Definition within_limit (o : LineParsingOptions) (l : list byte) : Prop :=
  Forall (λ seg, len seg ≤ bytes (max_line_length o)) ((segments l).1 ++ [(segments l).2]).

(** The lines of a text: its newline-terminated segments and what is left behind
    the last newline, if anything. *)
Definition text_lines (s : str) : list str :=
  let '(segs, tail) := segments s in segs ++ match tail with [] => [] | _ => [tail] end.

Lemma cut_short o seg : len seg ≤ bytes (max_line_length o) → cut o seg = [seg].
Proof.
  intros Hlen. unfold cut. destruct (N.eqb_spec (bytes (max_line_length o)) 0); [done|].
  destruct (overflow_behavior o); [by rewrite slice_to_all|]. destruct seg as [|b seg]; [done|].
  rewrite chunks_of_step, slice_to_all, slice_from_all by (done || lia). done.
Qed.

Lemma spec_lines_short o l : within_limit o l → spec_lines o l = text_lines l.
Proof.
  unfold within_limit, spec_lines, text_lines, cut_tail. destruct (segments l) as [segs tail].
  intros [Hsegs [Htail _]%Forall_cons]%Forall_app. simpl in *. f_equal.
  - induction Hsegs as [|seg segs Hseg _ IH]; simpl; [done|]. by rewrite cut_short, IH.
  - destruct tail; [done|]. by apply cut_short.
Qed.

Lemma spec_lines_terminated o l :
  Forall (λ seg, len seg ≤ bytes (max_line_length o)) (segments l).1 →
  (segments l).2 = [] → spec_lines o l = (segments l).1.
Proof.
  intros Hsegs Htail. rewrite spec_lines_short.
  - unfold text_lines. destruct (segments l) as [segs tail]. simpl in *. subst tail. apply app_nil_r.
  - unfold within_limit. apply Forall_app. split; [done|]. constructor; [|done]. rewrite Htail, len_nil. lia.
Qed.

Lemma decode_nonempty b l : from_utf8_lossy (b :: l) ≠ [].
Proof.
  destruct (next_char b l) as [ok k] eqn:E. rewrite (from_utf8_lossy_cons _ _ _ _ E).
  destruct (next_char_spec _ _ _ _ E) as (Hk & _). destruct ok; [|done]. destruct k; [lia|done].
Qed.

(** Decoding line by line gives the lines of the decoded text. *)
Lemma decode_spec_lines o l :
  within_limit o l → decode_line_lossy <$> spec_lines o l = text_lines (from_utf8_lossy l).
Proof.
  intros Hl. rewrite spec_lines_short by done. unfold text_lines. rewrite decode_segments.
  destruct (segments l) as [segs tail]. simpl. rewrite fmap_app. f_equal.
  destruct tail as [|b tail]; [done|]. unfold decode_line_lossy. simpl.
  destruct (from_utf8_lossy (b :: tail)) eqn:E; [|done]. by destruct (decode_nonempty b tail).
Qed.

End Lines.

