(* ===== verification/ParseLines.v ===== *)
(** * The line adapter

    Models [src/output_stream/line/adapter.rs]: [ParseLines] turns a
    chunk-level visitor into a line-level one.  It owns a parser and an inner
    [LineVisitor] (or [AsyncLineVisitor]); the parser plumbing (chunks, gaps,
    the flush at end of stream) is here once for every line-aware visitor.

    The theorems show that the inner visitor sees exactly the lines of
    [LineSpec], for both trait implementations. *)

From S2P Require Import Prelude Utf8 Stream Driver LineParser LineSpec.

(** ** Traits *)

Class LineVisitor (S Out : Type) := {
  on_line : S → str → outcome (S * Next);
  line_on_gap : S → S;
  line_on_eof : S → outcome S;
  line_into_output : S → Out;
}.

(** The futures are completed ones. *)
Class AsyncLineVisitor (S Out : Type) := {
  async_on_line : S → str → outcome (S * Next);
  async_line_on_gap : S → S;
  async_line_on_eof : S → outcome S;
  async_line_into_output : S → Out;
}.

(** ** The adapter *)

Record ParseLines (B S : Type) : Type := mkParseLines {
  pl_parser : LineParser B;
  pl_options : LineParsingOptions;
  pl_inner : S;
}.
Arguments mkParseLines {B S}.
Arguments pl_parser {B S}.
Arguments pl_options {B S}.
Arguments pl_inner {B S}.

Section adapter.
Context {B : Type} `{BytesMut B, Memchr} {S Out : Type}.
Implicit Types v : ParseLines B S.

Definition ParseLines_new (options : LineParsingOptions) (inner : S) : outcome (ParseLines B S) :=
  _ ← assert_max_line_length_non_zero options;
  mret (mkParseLines parser_new options inner).

(** The loop of both [on_chunk]s: hand lines to [visit] until it breaks or the
    chunk is used up.  [Panic] is a panic of [visit]; running out of fuel is
    reported the same way and excluded by [parse_loop_ok]. *)
Fixpoint parse_loop (visit : S → str → outcome (S * Next)) (fuel : nat) v (c : list byte)
    : outcome (ParseLines B S * Next) :=
  match fuel with
  | O => Panic
  | Datatypes.S fuel =>
      match next_line (pl_parser v) c (pl_options v) with
      | None => Panic
      | Some (None, p, _) => Done (mkParseLines p (pl_options v) (pl_inner v), Continue)
      | Some (Some line, p, rest) =>
          '(inner, next) ← visit (pl_inner v) line;
          let v := mkParseLines p (pl_options v) inner in
          match next with
          | Break => Done (v, Break)
          | Continue => parse_loop visit fuel v rest
          end
      end
  end.

Definition parse_chunk (visit : S → str → outcome (S * Next)) v (c : chunk)
    : outcome (ParseLines B S * Next) :=
  parse_loop visit (2 + 2 * length c) v c.

Definition parse_gap (gap : S → S) v : ParseLines B S :=
  mkParseLines (parser_on_gap (pl_parser v)) (pl_options v) (gap (pl_inner v)).

(** The trailing line is handed over and the visitor's answer is ignored. *)
Definition parse_eof (visit : S → str → outcome (S * Next)) (eof : S → outcome S) v
    : outcome (ParseLines B S) :=
  let '(line, p) := finish (pl_parser v) in
  inner ← match line with
          | Some line => '(inner, _) ← visit (pl_inner v) line; mret inner
          | None => mret (pl_inner v)
          end;
  inner ← eof inner;
  mret (mkParseLines p (pl_options v) inner).

#[export] Instance parse_lines_visitor `{LineVisitor S Out} :
    StreamVisitor (ParseLines B S) Out := {|
  on_chunk := parse_chunk on_line;
  on_gap := parse_gap line_on_gap;
  on_eof := parse_eof on_line line_on_eof;
  into_output v := line_into_output (pl_inner v);
|}.

#[export] Instance parse_lines_async_visitor `{AsyncLineVisitor S Out} :
    AsyncStreamVisitor (ParseLines B S) Out := {|
  async_on_chunk := parse_chunk async_on_line;
  async_on_gap := parse_gap async_line_on_gap;
  async_on_eof := parse_eof async_on_line async_line_on_eof;
  async_into_output v := async_line_into_output (pl_inner v);
|}.

End adapter.

(** ** Feeding lines to a line visitor *)

Fixpoint feed_lines {S} (visit : S → str → outcome (S * Next)) (s : S) (lines : list str)
    : outcome (S * Next) :=
  match lines with
  | [] => Done (s, Continue)
  | line :: lines =>
      '(s, next) ← visit s line;
      match next with
      | Break => Done (s, Break)
      | Continue => feed_lines visit s lines
      end
  end.

Lemma feed_lines_app {S} (visit : S → str → outcome (S * Next)) s l k :
  feed_lines visit s (l ++ k) =
    ('(s, next) ← feed_lines visit s l;
     match next with Break => Done (s, Break) | Continue => feed_lines visit s k end).
Proof.
  revert s. induction l as [|line l IH]; intros s; simpl; [done|].
  destruct (visit s line) as [[s' []]|]; simpl; auto.
Qed.

(** ** The adapter hands over the lines of the machine *)

Section correct.
Context {B : Type} `{BytesMut B, Memchr} {S : Type} (visit : S → str → outcome (S * Next)).
Implicit Types v : ParseLines B S.

Import Machine.

(** A usable adapter: its limit is a [usize] and its parser state reachable. *)
Definition adapter_wf v : Prop :=
  bytes (max_line_length (pl_options v)) ≤ usize_max ∧
  wf (pl_options v) (abs (pl_parser v)).

Definition adapter_run v (c : list byte) : state * list (list byte) :=
  run (pl_options v) (abs (pl_parser v)) c.

(** What a chunk does to an adapter: the lines of the machine are fed to the
    inner visitor; if it does not break, the parser follows the machine. *)
Definition chunk_result v (c : list byte) (r : outcome (ParseLines B S * Next)) : Prop :=
  match feed_lines visit (pl_inner v) (decode_line_lossy <$> (adapter_run v c).2) with
  | Panic => r = Panic
  | Done (s, Break) => ∃ v', r = Done (v', Break) ∧ pl_inner v' = s
  | Done (s, Continue) => ∃ v', r = Done (v', Continue) ∧ pl_inner v' = s ∧
      pl_options v' = pl_options v ∧ abs (pl_parser v') = (adapter_run v c).1 ∧ adapter_wf v'
  end.

Lemma parse_loop_ok fuel v c :
  adapter_wf v → (work (pl_options v) (abs (pl_parser v)) c < fuel)%nat →
  chunk_result v c (parse_loop visit fuel v c).
Proof.
  revert v c. induction fuel as [|fuel IH]; intros v c [Hu Hwf] Hfuel; [lia|].
  unfold chunk_result, adapter_run. cbn [parse_loop].
  destruct (next_line_ok (pl_options v) Hu (pl_parser v) c Hwf)
    as (line & p' & rest & -> & Hwf' & _ & Hres).
  destruct line as [line|].
  - destruct Hres as (raw & -> & -> & Hwork). simpl.
    destruct (visit (pl_inner v) (decode_line_lossy raw)) as [[s []]|]; simpl; [|by eauto|done].
    specialize (IH (mkParseLines p' (pl_options v) s) rest). unfold chunk_result, adapter_run in IH.
    simpl in IH. apply IH; [done|lia].
  - destruct Hres as [_ ->]. simpl. eexists. split_and!; try done.
Qed.

Lemma parse_chunk_ok v c : adapter_wf v → chunk_result v c (parse_chunk visit v c).
Proof.
  intros Hwf. apply parse_loop_ok; [done|]. unfold work. case_match; lia.
Qed.

Lemma parse_gap_ok gap v :
  adapter_wf v →
  adapter_wf (parse_gap gap v) ∧ abs (pl_parser (parse_gap gap v)) = (DiscardUntilNewline, []).
Proof.
  intros [Hu Hwf]. unfold adapter_wf, parse_gap, abs, parser_on_gap. simpl.
  rewrite bm_clear_bytes. split_and!; [done|apply wf_idle|done].
Qed.

Lemma parse_eof_ok eof v :
  adapter_wf v →
  (parse_eof visit eof v) ≫= (λ v', mret (pl_inner v')) =
    ('(s, _) ← feed_lines visit (pl_inner v) (decode_line_lossy <$> flush (abs (pl_parser v)));
     eof s).
Proof.
  intros [Hu Hwf]. unfold parse_eof. pose proof (finish_refines _ _ Hwf) as Hfin.
  destruct (finish (pl_parser v)) as [line p']. cbn [fst] in Hfin. subst line.
  destruct (flush_cases (abs (pl_parser v))) as [->|[raw ->]]; simpl.
  - unfold mret, outcome_ret. simpl. destruct (eof (pl_inner v)); done.
  - unfold mret, outcome_ret. simpl. destruct (visit (pl_inner v) (decode_line_lossy raw)) as [[s []]|]; simpl; try done;
      by destruct (eof s).
Qed.

End correct.

(** ** A whole stream through the adapter *)

(** What the inner visitor is told, in order. *)
Inductive item : Type := Line (l : str) | GapSeen.

Section session.
Context {B : Type} `{BytesMut B, Memchr} {S Out : Type} `{LineVisitor S Out}.
Implicit Types v : ParseLines B S.

Import Machine.

Fixpoint feed_items (s : S) (items : list item) : outcome (S * Next) :=
  match items with
  | [] => Done (s, Continue)
  | Line line :: items =>
      '(s, next) ← on_line s line;
      match next with
      | Break => Done (s, Break)
      | Continue => feed_items s items
      end
  | GapSeen :: items => feed_items (line_on_gap s) items
  end.

(** The machine over the events before the end of the stream. *)
Fixpoint run_events (o : LineParsingOptions) (st : state) (evs : list StreamEvent)
    : state * list item :=
  match evs with
  | Chunk c :: evs =>
      let '(st, lines) := run o st c in
      let '(st, items) := run_events o st evs in
      (st, (Line ∘ decode_line_lossy <$> lines) ++ items)
  | Gap :: evs =>
      let '(st, items) := run_events o (on_gap st) evs in (st, GapSeen :: items)
  | _ => (st, [])
  end.

(** The end of the stream: the flushed line, then [on_eof]. *)
Definition finish_session (s : S) (st : state) : driver (ParseLines B S) Out :=
  match ('(s, _) ← feed_lines on_line s (decode_line_lossy <$> flush st); line_on_eof s) with
  | Panic => Panicked
  | Done s => Finished (Ok (line_into_output s))
  end.

(** What a driven adapter returns at end of stream. *)
Definition session v (evs : list StreamEvent) : driver (ParseLines B S) Out :=
  let '(st, items) := run_events (pl_options v) (abs (pl_parser v)) evs in
  match feed_items (pl_inner v) items with
  | Panic => Panicked
  | Done (s, Break) => Finished (Ok (line_into_output s))
  | Done (s, Continue) => finish_session s st
  end.

Definition turns_of (evs : list StreamEvent) : list turn := Event ∘ Some <$> evs.

Lemma feed_items_lines s lines items :
  feed_items s ((Line ∘ decode_line_lossy <$> lines) ++ items) =
    ('(s, next) ← feed_lines on_line s (decode_line_lossy <$> lines);
     match next with Break => Done (s, Break) | Continue => feed_items s items end).
Proof.
  revert s. induction lines as [|line lines IH]; intros s; simpl; [done|].
  destruct (on_line s (decode_line_lossy line)) as [[s' []]|]; simpl; auto.
Qed.

Lemma session_eof v :
  adapter_wf v →
  consume_sync v [Event (Some Eof)] = finish_session (pl_inner v) (abs (pl_parser v)).
Proof.
  intros Hwf. unfold finish_session. rewrite <- (parse_eof_ok on_line line_on_eof v Hwf).
  simpl. by destruct (parse_eof on_line line_on_eof v).
Qed.

Lemma session_ok v evs :
  adapter_wf v → Forall (λ e, is_terminal e = false) evs →
  consume_sync v (turns_of evs ++ [Event (Some Eof)]) = session v evs.
Proof.
  intros Hwf Hevs. revert v Hwf. induction Hevs as [|e evs He Hevs IH]; intros v Hwf.
  { by apply session_eof. }
  unfold session. destruct e as [c| | |]; try done; cbn [turns_of fmap list_fmap app run_events].
  - pose proof (parse_chunk_ok on_line v c Hwf) as Hc. unfold chunk_result, adapter_run in Hc.
    destruct (run (pl_options v) (abs (pl_parser v)) c) as [st lines] eqn:Hrun.
    destruct (run_events (pl_options v) st evs) as [st' items] eqn:Hevents.
    rewrite feed_items_lines. cbn [fst snd] in Hc. cbn [consume_sync on_chunk parse_lines_visitor compose].
    destruct (feed_lines on_line (pl_inner v) _) as [[s []]|]; simpl.
    + destruct Hc as (v' & -> & <- & Ho & Habs & Hwf').
      change (Event ∘ Some <$> evs) with (turns_of evs).
      rewrite IH by done. unfold session. rewrite Ho, Habs, Hevents. done.
    + by destruct Hc as (v' & -> & <-).
    + by rewrite Hc.
  - destruct (parse_gap_ok line_on_gap v Hwf) as [Hwf' Habs].
    cbn [consume_sync Stream.on_gap parse_lines_visitor compose]. change (Event ∘ Some <$> evs) with (turns_of evs).
    rewrite IH by done. unfold session. rewrite Habs. unfold Machine.on_gap.
    change (pl_options (parse_gap line_on_gap v)) with (pl_options v).
    destruct (run_events _ _ evs). done.
Qed.

(** *** Streams without gaps, and with one *)

Lemma run_events_chunks o st cs evs :
  run_events o st ((Chunk <$> cs) ++ evs) =
    let '(st', lines) := run o st (concat cs) in
    let '(st', items) := run_events o st' evs in
    (st', (Line ∘ decode_line_lossy <$> lines) ++ items).
Proof.
  revert st. induction cs as [|c cs IH]; intros st; simpl; [by destruct run_events|].
  rewrite run_app. destruct (run o st c) as [st1 l1]. simpl.
  rewrite IH. destruct (run o st1 (concat cs)) as [st2 l2]. simpl.
  destruct (run_events o st2 evs) as [st3 items]. by rewrite fmap_app, <- (assoc_L (++)).
Qed.

Lemma new_adapter_wf o (inner : S) v :
  bytes (max_line_length o) ≤ usize_max → ParseLines_new o inner = Done v →
  adapter_wf v ∧ pl_options v = o ∧ pl_inner v = inner ∧
  abs (pl_parser v) = (ReadingLine, []) ∧ bytes (max_line_length o) ≠ 0.
Proof.
  unfold ParseLines_new, assert_max_line_length_non_zero. intros Hu.
  destruct (0 <? bytes (max_line_length o)) eqn:Hmax; simpl; [|done]. intros [= <-].
  apply N.ltb_lt in Hmax. unfold adapter_wf, abs, parser_new. simpl. rewrite bm_new_bytes.
  split_and!; try done; [apply wf_init|lia].
Qed.

(** A visitor that handles every line and never breaks, as a fold. *)
Class FoldVisitor (step : S → str → S) (eof : S → S) : Prop := {
  fold_on_line s line : on_line s line = Done (step s line, Continue);
  fold_on_eof s : line_on_eof s = Done (eof s);
}.

Lemma feed_lines_fold step eof `{!FoldVisitor step eof} s lines :
  feed_lines on_line s lines = Done (foldl step s lines, Continue).
Proof.
  revert s. induction lines as [|line lines IH]; intros s; simpl; [done|].
  rewrite fold_on_line. simpl. apply IH.
Qed.

Lemma feed_items_fold_gap step eof `{!FoldVisitor step eof} s lines items :
  feed_items s ((Line ∘ decode_line_lossy <$> lines) ++ items) =
  feed_items (foldl step s (decode_line_lossy <$> lines)) items.
Proof. rewrite feed_items_lines. by erewrite feed_lines_fold. Qed.

Lemma finish_session_fold step eof `{!FoldVisitor step eof} s st :
  finish_session s st =
    Finished (Ok (line_into_output (eof (foldl step s (decode_line_lossy <$> flush st))))).
Proof. unfold finish_session. erewrite feed_lines_fold by done. simpl. by rewrite fold_on_eof. Qed.

(** The outcome of a gap-free stream for any visitor. *)
Lemma session_chunks v cs :
  session v (Chunk <$> cs) =
    let '(st, lines) := run (pl_options v) (abs (pl_parser v)) (concat cs) in
    match feed_lines on_line (pl_inner v) (decode_line_lossy <$> lines) with
    | Panic => Panicked
    | Done (s, Break) => Finished (Ok (line_into_output s))
    | Done (s, Continue) => finish_session s st
    end.
Proof.
  unfold session. rewrite <- (app_nil_r (Chunk <$> cs)), run_events_chunks.
  destruct (run _ _ (concat cs)) as [st lines]. simpl. rewrite feed_items_lines.
  by destruct (feed_lines _ _ _) as [[s []]|].
Qed.

Lemma parse_lines_fold step eof `{!FoldVisitor step eof} o inner v cs :
  bytes (max_line_length o) ≤ usize_max →
  ParseLines_new o inner = Done v →
  consume_sync v (turns_of (Chunk <$> cs) ++ [Event (Some Eof)]) =
    Finished (Ok (line_into_output (eof
      (foldl step inner (decode_line_lossy <$> Lines.spec_lines o (concat cs)))))).
Proof.
  intros Hu Hnew. destruct (new_adapter_wf o inner v Hu Hnew) as (Hwf & <- & <- & Habs & _).
  rewrite session_ok, session_chunks, Habs by (done || by apply Forall_fmap, Forall_true).
  rewrite <- Lines.run_spec_lines, fmap_app, foldl_app.
  destruct (run _ _ (concat cs)) as [st lines]. erewrite feed_lines_fold by done.
  by erewrite finish_session_fold by done.
Qed.

(** C7: whatever way the stream is cut into chunks, the adapter hands the inner
    visitor exactly the lines of the concatenated bytes, each decoded once and
    in order, then the end of stream, and returns the visitor's output. *)
Theorem parse_lines_exact step eof `{!FoldVisitor step eof} o inner v cs :
  bytes (max_line_length o) ≤ usize_max →
  ParseLines_new o inner = Done v →
  consume_sync v (turns_of (Chunk <$> cs) ++ [Event (Some Eof)]) =
    Finished (Ok (line_into_output (eof
      (foldl step inner (decode_line_lossy <$> Lines.spec_lines o (concat cs)))))).
Proof. by apply parse_lines_fold. Qed.

(** C32: text survives both the chunking of the stream and its splitting into
    lines.  For a stream none of whose lines exceeds the limit, the lines handed
    to the visitor are the lines of the decoded stream: decoding line by line,
    from chunks that may break a character anywhere, gives what decoding the
    whole stream at once and splitting it at its newlines gives. *)
Theorem parse_lines_text step eof `{!FoldVisitor step eof} o inner v cs :
  bytes (max_line_length o) ≤ usize_max →
  ParseLines_new o inner = Done v → Lines.within_limit o (concat cs) →
  consume_sync v (turns_of (Chunk <$> cs) ++ [Event (Some Eof)]) =
    Finished (Ok (line_into_output (eof
      (foldl step inner (Lines.text_lines (from_utf8_lossy (concat cs))))))).
Proof. intros Hu Hnew Hl. rewrite <- (Lines.decode_spec_lines o) by done. by apply parse_lines_fold. Qed.

(** C23: a gap never splices a line.  Before it, the visitor was handed exactly
    the lines completed by then (of the terminated segments, and of a tail that
    exceeds the limit what is cut off early); the unfinished rest of the line
    that was being read is dropped, never handed out, and after the gap lines are
    read again only from behind the next newline. *)
Theorem parse_lines_gap step eof `{!FoldVisitor step eof} o inner v before after :
  bytes (max_line_length o) ≤ usize_max →
  ParseLines_new o inner = Done v →
  consume_sync v
    (turns_of ((Chunk <$> before) ++ Gap :: (Chunk <$> after)) ++ [Event (Some Eof)]) =
  Finished (Ok (line_into_output (eof
    (foldl step (line_on_gap (foldl step inner (decode_line_lossy <$> Lines.completed o (concat before))))
      (decode_line_lossy <$>
         Lines.spec_lines o (Lines.after_newline (concat after))))))).
Proof.
  intros Hu Hnew. destruct (new_adapter_wf o inner v Hu Hnew) as (Hwf & <- & <- & Habs & _).
  rewrite <- Lines.run_completed, <- Lines.run_spec_after_gap.
  rewrite session_ok; [|done|].
  2: { apply Forall_app. split; [by apply Forall_fmap, Forall_true|].
       constructor; [done|]. by apply Forall_fmap, Forall_true. }
  unfold session. rewrite run_events_chunks, Habs.
  destruct (run _ _ (concat before)) as [st1 lines1]. cbn [run_events].
  rewrite <- (app_nil_r (Chunk <$> after)), run_events_chunks. unfold Machine.on_gap.
  destruct (run _ _ (concat after)) as [st2 lines2]. simpl.
  erewrite feed_items_fold_gap by done. simpl. erewrite feed_items_fold_gap by done. simpl.
  erewrite finish_session_fold by done. by rewrite fmap_app, foldl_app.
Qed.

End session.

(** *** The async implementation *)

(** An async line visitor driven as a sync one. *)
Definition as_line_visitor {S Out} `{AsyncLineVisitor S Out} : LineVisitor S Out := {|
  on_line := async_on_line;
  line_on_gap := async_line_on_gap;
  line_on_eof := async_line_on_eof;
  line_into_output := async_line_into_output;
|}.

(** The asynchronous implementation of the adapter, on its own driver loop
    and for any sequence of events, cancellations and errors, returns what the
    synchronous one returns for the same callbacks. *)
Lemma parse_lines_async_same {B} `{BytesMut B, Memchr} {S Out} `{AsyncLineVisitor S Out}
    (v : ParseLines B S) turns :
  consume_async v turns = consume_sync (H := parse_lines_visitor (H1 := as_line_visitor)) v turns.
Proof. by rewrite consume_async_sync. Qed.

(** ** A visitor that records its lines *)

Module LineLog.

Record log : Type := mkLog { entries : list (option str) }.

#[global] Instance log_visitor : LineVisitor log (list (option str)) := {|
  on_line v l := mret (mkLog (entries v ++ [Some l]), Continue);
  line_on_gap v := mkLog (entries v ++ [None]);
  line_on_eof v := mret v;
  line_into_output := entries;
|}.

Definition step (v : log) (l : str) : log := mkLog (entries v ++ [Some l]).

#[global] Instance log_fold : FoldVisitor step (λ v, v).
Proof. by split. Defined.

Definition start : ParseLines Reference.buffer log :=
  mkParseLines parser_new default_options (mkLog []).

End LineLog.

Lemma parse_lines_exact_witness :
  consume_sync LineLog.start (turns_of [Chunk [x61]; Chunk [x62; newline; x63]] ++ [Event (Some Eof)]) =
    Finished (Ok [Some [x61; x62]; Some [x63]]).
Proof.
  exact (parse_lines_exact LineLog.step (λ v, v) default_options (LineLog.mkLog []) LineLog.start
    [[x61]; [x62; newline; x63]] ltac:(vm_compute; discriminate) eq_refl).
Defined.

(** A two-byte character broken by the chunks. *)
Lemma parse_lines_text_witness :
  consume_sync LineLog.start
    (turns_of [Chunk [x61; newline; xc3]; Chunk [xa9; newline; xff]] ++ [Event (Some Eof)]) =
    Finished (Ok [Some [x61]; Some [xc3; xa9]; Some replacement]).
Proof.
  exact (parse_lines_text LineLog.step (λ v, v) default_options (LineLog.mkLog []) LineLog.start
    [[x61; newline; xc3]; [xa9; newline; xff]] ltac:(vm_compute; discriminate) eq_refl
    ltac:(repeat constructor; vm_compute; discriminate)).
Defined.

Lemma parse_lines_gap_witness :
  consume_sync LineLog.start
    (turns_of [Chunk [x61; newline; x62]; Gap; Chunk [x63; newline; x64]] ++ [Event (Some Eof)]) =
    Finished (Ok [Some [x61]; None; Some [x64]]).
Proof.
  exact (parse_lines_gap LineLog.step (λ v, v) default_options (LineLog.mkLog []) LineLog.start
    [[x61; newline; x62]] [[x63; newline; x64]] ltac:(vm_compute; discriminate) eq_refl).
Defined.
