(* ===== verification/Collect.v ===== *)
(** * In-memory collection

    Models the sinks of [src/output_stream/visitors/collect.rs]:
    [CollectedBytes] and [CollectedLines] with their two overflow behaviours.
    Panics (an out-of-range drain, the [expect] of the eviction loop) are
    [Panic]; counters wrap.

    The theorems give the contents of a sink after any history of pushes: the
    first [max] bytes, the last [max] bytes, the newest lines that fit. *)

From S2P Require Import Prelude Stream.

Inductive CollectionOverflowBehavior : Type :=
| CDropAdditionalData
| CDropOldestData.

Inductive RawCollectionOptions : Type :=
| RawBounded (max_bytes : NumBytes) (overflow_behavior : CollectionOverflowBehavior)
| RawTrustedUnbounded.

Inductive LineCollectionOptions : Type :=
| LineBounded (max_bytes : NumBytes) (max_lines : N)
    (overflow_behavior : CollectionOverflowBehavior)
| LineTrustedUnbounded.

(** The largest length of a Rust collection ([isize::MAX] bytes). *)
Definition isize_max : N := 2 ^ 63 - 1.

(** [Vec::drain(0..n)] and [&l[n..]] panic when [n] is out of range. *)
Definition drain_front {A} (n : N) (l : list A) : outcome (list A) :=
  if n <=? len l then Done (slice_from n l) else Panic.

(** ** Bytes *)

Record CollectedBytes : Type := mkCollectedBytes {
  cb_bytes : list byte;
  cb_truncated : bool;
}.

Module CollectedBytes.

Definition new : CollectedBytes := mkCollectedBytes [] false.

Definition push_chunk (self : CollectedBytes) (c : chunk) (options : RawCollectionOptions)
    : outcome CollectedBytes :=
  match options with
  | RawTrustedUnbounded => mret (mkCollectedBytes (cb_bytes self ++ c) (cb_truncated self))
  | RawBounded max_bytes CDropAdditionalData =>
      let max_bytes := bytes max_bytes in
      let remaining := saturating_sub max_bytes (len (cb_bytes self)) in
      let truncated := if remaining <? len c then true else cb_truncated self in
      mret (mkCollectedBytes (cb_bytes self ++ slice_to (remaining `min` len c) c) truncated)
  | RawBounded max_bytes CDropOldestData =>
      let max_bytes := bytes max_bytes in
      if max_bytes <? len c then
        tail ← drain_front (saturating_sub (len c) max_bytes) c;
        mret (mkCollectedBytes tail true)
      else
        let required := len (cb_bytes self) +! len c in
        self ← (if max_bytes <? required then
                  kept ← drain_front (required -! max_bytes) (cb_bytes self);
                  mret (mkCollectedBytes kept true)
                else mret self);
        mret (mkCollectedBytes (cb_bytes self ++ c) (cb_truncated self))
  end.

(** The closure of [collector]: it captures only the options. *)
Definition collector (options : RawCollectionOptions) (c : chunk) (sink : CollectedBytes) :=
  push_chunk sink c options.

(** A history of pushes. *)
Fixpoint push_chunks (self : CollectedBytes) (cs : list chunk) (options : RawCollectionOptions)
    : outcome CollectedBytes :=
  match cs with
  | [] => mret self
  | c :: cs => self ← push_chunk self c options; push_chunks self cs options
  end.

End CollectedBytes.

(** ** Lines *)

Record CollectedLines : Type := mkCollectedLines {
  cl_lines : list str;
  cl_truncated : bool;
  retained_bytes : N;
}.

Module CollectedLines.

Definition new : CollectedLines := mkCollectedLines [] false 0.

Definition lines (self : CollectedLines) : list str := cl_lines self.
Definition truncated (self : CollectedLines) : bool := cl_truncated self.
Definition into_lines (self : CollectedLines) : list str := cl_lines self.
Definition into_parts (self : CollectedLines) : list str * bool :=
  (cl_lines self, cl_truncated self).

Definition push_back (self : CollectedLines) (line : str) : CollectedLines :=
  mkCollectedLines (cl_lines self ++ [line]) (cl_truncated self)
    (retained_bytes self +! len line).

Definition pop_front (self : CollectedLines) : option (str * CollectedLines) :=
  match cl_lines self with
  | [] => None
  | line :: rest =>
      Some (line, mkCollectedLines rest (cl_truncated self) (retained_bytes self -! len line))
  end.

Definition set_truncated (self : CollectedLines) : CollectedLines :=
  mkCollectedLines (cl_lines self) true (retained_bytes self).

(** The eviction loop.  Every turn pops a line, so its number of turns is at
    most the number of lines; with no line left [pop_front] panics. *)
Fixpoint evict (fuel : nat) (self : CollectedLines) (line_len max_bytes max_lines : N)
    : outcome CollectedLines :=
  if (max_lines <=? len (cl_lines self))
     || (saturating_sub max_bytes (retained_bytes self) <? line_len)
  then match fuel with
       | O => Panic
       | S fuel =>
           '(_, self) ← expect (pop_front self);
           evict fuel (set_truncated self) line_len max_bytes max_lines
       end
  else mret self.

Definition push_line (self : CollectedLines) (line : str) (options : LineCollectionOptions)
    : outcome CollectedLines :=
  match options with
  | LineTrustedUnbounded => mret (push_back self line)
  | LineBounded max_bytes max_lines CDropAdditionalData =>
      let line_len := len line in
      let max_bytes := bytes max_bytes in
      if (max_lines <=? len (cl_lines self)) || (max_bytes <? line_len)
         || (saturating_sub max_bytes (retained_bytes self) <? line_len)
      then mret (set_truncated self)
      else mret (push_back self line)
  | LineBounded max_bytes max_lines CDropOldestData =>
      let line_len := len line in
      let max_bytes := bytes max_bytes in
      if max_lines =? 0 then mret (set_truncated self)
      else if max_bytes <? line_len then mret (set_truncated self)
      else
        self ← evict (length (cl_lines self)) self line_len max_bytes max_lines;
        mret (push_back self line)
  end.

(** The closure of [line_collector]. *)
Definition line_collector (options : LineCollectionOptions) (line : str) (sink : CollectedLines)
    : outcome (CollectedLines * Next) :=
  sink ← push_line sink line options; mret (sink, Continue).

Fixpoint push_lines (self : CollectedLines) (ls : list str) (options : LineCollectionOptions)
    : outcome CollectedLines :=
  match ls with
  | [] => mret self
  | l :: ls => self ← push_line self l options; push_lines self ls options
  end.

End CollectedLines.

(** ** Bytes: the first or the last [max] bytes *)

Section raw.
Import CollectedBytes.

(** The last [n] elements. *)
Definition last_n {A} (n : N) (l : list A) : list A := slice_from (len l - n) l.

Lemma last_n_app {A} n (l k : list A) :
  n ≤ len k → last_n n (l ++ k) = last_n n k.
Proof.
  intros Hn. unfold last_n, slice_from, len in *. rewrite length_app, drop_app_ge by lia.
  f_equal. lia.
Qed.

Lemma last_n_app_short {A} n (l k : list A) :
  len k ≤ n → last_n n (l ++ k) = last_n (n - len k) l ++ k.
Proof.
  intros Hn. unfold last_n, slice_from, len in *. rewrite length_app, drop_app_le by lia.
  do 2 f_equal. lia.
Qed.

Lemma last_n_all {A} n (l : list A) : len l ≤ n → last_n n l = l.
Proof. intros. unfold last_n, slice_from. replace (len l - n) with 0 by lia. done. Qed.

Lemma len_last_n {A} n (l : list A) : len (last_n n l) = n `min` len l.
Proof. unfold last_n. rewrite len_slice_from. lia. Qed.

Lemma last_n_last_n {A} n m (l : list A) : n ≤ m → last_n n (last_n m l) = last_n n l.
Proof.
  intros Hnm. unfold last_n, slice_from, len. rewrite drop_drop, length_drop. f_equal. lia.
Qed.

(** The state of a byte sink with the dropping behaviour after the bytes [l]. *)
Definition kept_first (max : N) (l : list byte) : CollectedBytes :=
  mkCollectedBytes (slice_to max l) (max <? len l).

Definition kept_last (max : N) (l : list byte) : CollectedBytes :=
  mkCollectedBytes (last_n max l) (max <? len l).

Lemma push_chunk_first max l c :
  push_chunk (kept_first (bytes max) l) c (RawBounded max CDropAdditionalData)
  = Done (kept_first (bytes max) (l ++ c)).
Proof.
  unfold push_chunk, kept_first, saturating_sub. simpl. unfold mret, outcome_ret. do 2 f_equal.
  - rewrite len_slice_to. unfold slice_to, len. rewrite take_app.
    f_equal. replace (N.to_nat _) with
      ((N.to_nat (bytes max) - length l) `min` length c)%nat by lia.
    destruct (decide (N.to_nat (bytes max) - length l ≤ length c)%nat).
    + f_equal. lia.
    + rewrite !take_ge; done || lia.
  - rewrite len_slice_to, len_app. destruct (N.ltb_spec (bytes max - bytes max `min` len l) (len c));
      destruct (N.ltb_spec (bytes max) (len l + len c)); destruct (N.ltb_spec (bytes max) (len l));
      done || lia.
Qed.

Lemma push_chunk_last max l c :
  bytes max ≤ isize_max → len c ≤ isize_max →
  push_chunk (kept_last (bytes max) l) c (RawBounded max CDropOldestData)
  = Done (kept_last (bytes max) (l ++ c)).
Proof.
  intros Hmax Hc. unfold push_chunk, kept_last, saturating_sub, drain_front. simpl.
  assert (word_modulus = 2 * isize_max + 2) as Hw by reflexivity.
  rewrite wrapping_add_small by (rewrite len_last_n; lia). rewrite len_last_n.
  destruct (N.ltb_spec (bytes max) (len c)).
  - rewrite (proj2 (N.leb_le _ _)) by lia. simpl. unfold mret, outcome_ret. do 2 f_equal.
    + by rewrite last_n_app by lia.
    + symmetry. apply N.ltb_lt. rewrite len_app. lia.
  - destruct (N.ltb_spec (bytes max) (bytes max `min` len l + len c)) as [Hlt|Hge].
    + rewrite wrapping_sub_small by lia. rewrite (proj2 (N.leb_le _ _)) by lia. simpl.
      unfold mret, outcome_ret. do 2 f_equal; [|symmetry; apply N.ltb_lt; rewrite len_app; lia].
      rewrite last_n_app_short by lia. f_equal.
      transitivity (last_n (bytes max - len c) (last_n (bytes max) l)); [|apply last_n_last_n; lia].
      unfold last_n at 2. f_equal. rewrite len_last_n. lia.
    + simpl. unfold mret, outcome_ret. do 2 f_equal.
      * rewrite last_n_app_short by lia. f_equal. unfold last_n. f_equal. lia.
      * rewrite len_app. destruct (N.ltb_spec (bytes max) (len l));
          destruct (N.ltb_spec (bytes max) (len l + len c)); done || lia.
Qed.

Lemma push_chunks_inv (P : list byte → CollectedBytes → Prop) options cs :
  (∀ l s c, c ∈ cs → P l s → ∃ s', push_chunk s c options = Done s' ∧ P (l ++ c) s') →
  ∀ l s, P l s → ∃ s', push_chunks s cs options = Done s' ∧ P (l ++ concat cs) s'.
Proof.
  induction cs as [|c cs IH]; intros Hstep l s Hp; simpl.
  { rewrite app_nil_r. eauto. }
  destruct (Hstep l s c) as (s' & -> & Hp'); [by left|done|]. simpl.
  rewrite (assoc_L (++)). apply IH; [|done]. intros. apply Hstep; [by right|done].
Qed.

Lemma push_chunks_first max cs :
  CollectedBytes.push_chunks CollectedBytes.new cs (RawBounded max CDropAdditionalData) =
    Done (mkCollectedBytes (slice_to (bytes max) (concat cs)) (bytes max <? len (concat cs))).
Proof.
  destruct (push_chunks_inv (λ l s, s = kept_first (bytes max) l)
    (RawBounded max CDropAdditionalData) cs) with (l := @nil byte) (s := new) as (s & -> & ->).
  - intros l s c _ ->. eexists. split; [apply push_chunk_first|done].
  - unfold kept_first, new. f_equal.
    + by unfold slice_to; rewrite take_nil.
    + symmetry. apply N.ltb_ge. len_lia.
  - done.
Qed.

(** Under [DropOldestData] a byte sink never panics and holds the last [max]
    bytes of everything pushed, and its flag says exactly whether anything was
    discarded. *)
Lemma collected_bytes_last max cs :
  bytes max ≤ isize_max → Forall (λ c, len c ≤ isize_max) cs →
  push_chunks new cs (RawBounded max CDropOldestData) =
    Done (mkCollectedBytes (last_n (bytes max) (concat cs)) (bytes max <? len (concat cs))).
Proof.
  intros Hmax Hcs. destruct (push_chunks_inv (λ l s, s = kept_last (bytes max) l)
    (RawBounded max CDropOldestData) cs) with (l := @nil byte) (s := new) as (s & -> & ->).
  - intros l s c Hc ->. eexists. split; [|done]. apply push_chunk_last; [done|].
    rewrite Forall_forall in Hcs. by apply Hcs.
  - unfold kept_last, new. f_equal. symmetry. apply N.ltb_ge. len_lia.
  - done.
Qed.

End raw.

(** ** Lines *)

Section lines.
Import CollectedLines.

Lemma push_lines_unbounded s ls :
  ∃ s', push_lines s ls LineTrustedUnbounded = Done s' ∧
    cl_lines s' = cl_lines s ++ ls ∧ cl_truncated s' = cl_truncated s.
Proof.
  revert s. induction ls as [|l ls IH]; intros s; simpl.
  { exists s. by rewrite app_nil_r. }
  destruct (IH (push_back s l)) as (s' & Hs & Hl & Ht). exists s'. split; [exact Hs|].
  rewrite Hl, Ht. simpl. by rewrite <- (assoc_L (++)).
Qed.

Definition total_len (ls : list str) : N := foldr (λ l n, len l + n) 0 ls.

Lemma total_len_app ls ks : total_len (ls ++ ks) = total_len ls + total_len ks.
Proof. induction ls as [|l ls IH]; simpl; [done|]. rewrite IH. lia. Qed.

(** The counter counts. *)
Definition counted (s : CollectedLines) : Prop := retained_bytes s = total_len (cl_lines s).

Context (max : NumBytes) (max_lines : N).
Context (Hmax : bytes max ≤ usize_max).

Definition fits (ls : list str) : bool :=
  (len ls <=? max_lines) && (total_len ls <=? bytes max).

Lemma fits_true ls : fits ls = true ↔ len ls ≤ max_lines ∧ total_len ls ≤ bytes max.
Proof. unfold fits. by rewrite andb_true_iff, !N.leb_le. Qed.

(** The longest suffix within the two limits. *)
Fixpoint newest (ls : list str) : list str :=
  match ls with
  | [] => []
  | _ :: ls' => if fits ls then ls else newest ls'
  end.

Lemma newest_fits ls : fits (newest ls) = true.
Proof.
  induction ls as [|l ls IH]; cbn [newest].
  - apply fits_true. simpl. len_lia.
  - by destruct (fits (l :: ls)) eqn:?.
Qed.

Lemma newest_id ls : fits ls = true → newest ls = ls.
Proof. destruct ls as [|l ls]; [done|]. cbn [newest]. by intros ->. Qed.

Lemma fits_app_l ls ks : fits (ls ++ ks) = true → fits ls = true.
Proof. rewrite !fits_true, len_app, total_len_app. lia. Qed.

(** What was evicted once never has to be reconsidered. *)
Lemma newest_newest ls ks : newest (newest ls ++ ks) = newest (ls ++ ks).
Proof.
  induction ls as [|l ls IH]; [done|]. cbn [newest].
  destruct (fits (l :: ls)) eqn:Hf; [done|]. rewrite IH.
  change ((l :: ls) ++ ks) with (l :: (ls ++ ks)). cbn [newest].
  destruct (fits (l :: ls ++ ks)) eqn:Hf'; [|done].
  apply (fits_app_l (l :: ls) ks) in Hf'. congruence.
Qed.

Lemma newest_is_suffix ls : newest ls `suffix_of` ls.
Proof.
  induction ls as [|l ls IH]; [done|]. cbn [newest]. destruct (fits (l :: ls)); [done|].
  by apply suffix_cons_r.
Qed.

(** Eviction makes room for the new line, and only as much as needed. *)
Lemma evict_ok fuel s line :
  counted s → fits (cl_lines s) = true → 1 ≤ max_lines → len line ≤ bytes max →
  (length (cl_lines s) ≤ fuel)%nat →
  ∃ s', evict fuel s (len line) (bytes max) max_lines = Done s' ∧ counted s' ∧
    cl_lines s' ++ [line] = newest (cl_lines s ++ [line]) ∧
    cl_truncated s' = (cl_truncated s || bool_decide (cl_lines s' ≠ cl_lines s)) ∧
    (length (cl_lines s') ≤ length (cl_lines s))%nat.
Proof.
  revert s. induction fuel as [|fuel IH]; intros s Hcount Hfit Hlines Hlen Hfuel.
  - destruct (cl_lines s) as [|? ?] eqn:Hs; [|simpl in Hfuel; lia]. exists s.
    unfold evict, counted in *. rewrite Hs in *. simpl in Hcount. rewrite Hcount.
    rewrite orb_false_intro by (apply N.leb_gt || apply N.ltb_ge; unfold saturating_sub; len_lia).
    split_and!; try done; [|by rewrite orb_false_r].
    rewrite newest_id; [done|]. apply fits_true. simpl. len_lia.
  - assert (word_modulus = usize_max + 1) as Hw by reflexivity.
    pose proof Hfit as [Hn Ht]%fits_true. cbn [evict]. unfold saturating_sub.
    destruct ((max_lines <=? len (cl_lines s)) || (bytes max - retained_bytes s <? len line)) eqn:Hc;
      rewrite Hcount in Hc.
    + destruct (cl_lines s) as [|l ls] eqn:Hs.
      { apply orb_true_iff in Hc as [Hc%N.leb_le|Hc%N.ltb_lt]; simpl in *; len_lia. }
      unfold pop_front. rewrite Hs. simpl. unfold set_truncated. simpl.
      destruct (IH (mkCollectedLines ls true (retained_bytes s -! len l)))
        as (s' & -> & Hcount' & Hnew & Htr & Hle); simpl in *; try done; try lia.
      { unfold counted in *. simpl. rewrite Hcount, Hs. simpl. rewrite wrapping_sub_small; lia. }
      { apply fits_true. rewrite len_cons in Hn. lia. }
      exists s'. split_and!; try done; [| |lia].
      * rewrite Hnew. destruct (fits (l :: ls ++ [line])) eqn:Hf; [|done].
        apply fits_true in Hf as [Hf1 Hf2]. simpl in Hf2.
        rewrite len_cons, len_app in *. change (len [line]) with 1 in *.
        rewrite total_len_app in Hf2. simpl in Hf2.
        apply orb_true_iff in Hc as [Hc%N.leb_le|Hc%N.ltb_lt]; lia.
      * rewrite Htr. rewrite bool_decide_eq_true_2; [by rewrite orb_true_r|].
        intros Heq. rewrite Heq in Hle. simpl in Hle. lia.
    + apply orb_false_iff in Hc as [Hc1%N.leb_gt Hc2%N.ltb_ge]. exists s.
      split_and!; try done; [|by rewrite bool_decide_eq_false_2, orb_false_r by naive_solver].
      rewrite newest_id; [done|]. apply fits_true. rewrite len_app, total_len_app. simpl.
      change (len [line]) with 1. lia.
Qed.

(** The state of a sink that evicts, after a history of lines. *)
Definition evicted (hist : list str) (s : CollectedLines) : Prop :=
  counted s ∧ cl_lines s = newest hist ∧ cl_truncated s = bool_decide (newest hist ≠ hist).

Lemma push_line_evicting hist s line :
  1 ≤ max_lines → len line ≤ bytes max → evicted hist s →
  ∃ s', push_line s line (LineBounded max max_lines CDropOldestData) = Done s' ∧
    evicted (hist ++ [line]) s'.
Proof.
  intros Hn Hlen (Hcount & Hlines & Htr).
  assert (fits (cl_lines s) = true) as Hfit by (rewrite Hlines; apply newest_fits).
  assert (word_modulus = usize_max + 1) as Hw by reflexivity.
  destruct (evict_ok (length (cl_lines s)) s line) as (s1 & Hev & Hcount1 & Hnew & Htr1 & Hle1);
    [done..|].
  exists (push_back s1 line). unfold push_line.
  rewrite (proj2 (N.eqb_neq _ _)) by lia. rewrite (proj2 (N.ltb_ge _ _)) by lia.
  rewrite Hev. split; [done|].
  assert (cl_lines s1 ++ [line] = newest (hist ++ [line])) as Hnew'.
  { by rewrite Hnew, Hlines, newest_newest. }
  pose proof (newest_fits (hist ++ [line])) as Hf. rewrite <- Hnew', fits_true, total_len_app in Hf.
  split_and!; simpl.
  - unfold counted in *. simpl. rewrite total_len_app. simpl in *.
    rewrite Hcount1, wrapping_add_small; simpl in *; lia.
  - done.
  - rewrite Htr1, Htr, <- Hnew', Hlines. rewrite Hlines in Hle1.
    destruct (decide (cl_lines s1 = hist)) as [Heq|Hne].
    + assert (newest hist = hist) as Hh.
      { apply suffix_length_eq; [apply newest_is_suffix|]. by rewrite Heq in Hle1. }
      by rewrite Heq, Hh, !bool_decide_eq_false_2 by (intros Hn'; by apply Hn').
    + rewrite (bool_decide_eq_true_2 (_ ++ _ ≠ _)) by (intros [? _]%app_inj_2; done).
      destruct (decide (newest hist = hist)) as [->|Hh].
      * by rewrite (bool_decide_eq_true_2 (cl_lines s1 ≠ hist)), orb_true_r.
      * by rewrite (bool_decide_eq_true_2 (newest hist ≠ hist)).
Qed.

Lemma push_lines_inv (P : list str → CollectedLines → Prop) options ls :
  (∀ hist s l, l ∈ ls → P hist s → ∃ s', push_line s l options = Done s' ∧ P (hist ++ [l]) s') →
  ∀ hist s, P hist s → ∃ s', push_lines s ls options = Done s' ∧ P (hist ++ ls) s'.
Proof.
  induction ls as [|l ls IH]; intros Hstep hist s Hp; simpl.
  { rewrite app_nil_r. eauto. }
  destruct (Hstep hist s l) as (s' & -> & Hp'); [by left|done|]. simpl.
  replace (hist ++ l :: ls) with ((hist ++ [l]) ++ ls) by (by rewrite <- (assoc_L (++))).
  apply IH; [|done]. intros. apply Hstep; [by right|done].
Qed.

Lemma push_lines_newest ls :
  1 ≤ max_lines → Forall (λ l, len l ≤ bytes max) ls →
  ∃ s, push_lines new ls (LineBounded max max_lines CDropOldestData) = Done s ∧
    into_parts s = (newest ls, bool_decide (newest ls ≠ ls)) ∧
    retained_bytes s = total_len (newest ls).
Proof.
  intros Hn Hls. destruct (push_lines_inv evicted (LineBounded max max_lines CDropOldestData) ls)
    with (hist := @nil str) (s := new) as (s & -> & Hcount & Hlines & Htr).
  - intros hist s l Hl. rewrite Forall_forall in Hls. apply push_line_evicting; auto.
  - done.
  - exists s. unfold into_parts, counted in *. rewrite Hlines, Htr in *. done.
Qed.

(** The state of a sink that keeps the first lines. *)
Definition first_kept (hist : list str) (s : CollectedLines) : Prop :=
  counted s ∧ fits (cl_lines s) = true ∧ cl_lines s `sublist_of` hist ∧
  cl_truncated s = bool_decide (cl_lines s ≠ hist).

Lemma push_line_keeping hist s line :
  first_kept hist s →
  ∃ s', push_line s line (LineBounded max max_lines CDropAdditionalData) = Done s' ∧
    first_kept (hist ++ [line]) s' ∧ cl_lines s `prefix_of` cl_lines s' ∧
    (cl_lines s' = cl_lines s ++ [line] ↔ fits (cl_lines s ++ [line]) = true).
Proof.
  intros (Hcount & Hfit & Hsub & Htr). unfold push_line, saturating_sub. rewrite Hcount.
  assert (word_modulus = usize_max + 1) as Hw by reflexivity.
  assert (fits (cl_lines s ++ [line]) = negb
    ((max_lines <=? len (cl_lines s)) || (bytes max <? len line)
     || (bytes max - total_len (cl_lines s) <? len line))) as Hfits.
  { apply eq_true_iff_eq. rewrite fits_true, negb_true_iff, !orb_false_iff, N.leb_gt, !N.ltb_ge.
    apply fits_true in Hfit. rewrite len_app, total_len_app. change (len [line]) with 1.
    simpl. lia. }
  rewrite Hfits. unfold first_kept. destruct (_ || _ || _); simpl in *; eexists; (split; [done|]).
  - split_and!; simpl; try done.
    + by apply sublist_inserts_r.
    + rewrite bool_decide_eq_true_2; [done|]. intros Heq. rewrite Heq in Hsub.
      apply sublist_length in Hsub. rewrite length_app in Hsub. simpl in Hsub. lia.
    + split; [|done]. intros Heq%(f_equal length). rewrite length_app in Heq. simpl in Heq. lia.
  - split_and!; simpl.
    + unfold counted in *. simpl. rewrite total_len_app, Hcount. simpl.
      apply fits_true in Hfits as [_ Hfits]. rewrite total_len_app in Hfits. simpl in Hfits.
      rewrite wrapping_add_small; lia.
    + done.
    + by apply sublist_app.
    + rewrite Htr. apply bool_decide_ext. split; intros Hne ?; apply Hne; [by simplify_list_eq|congruence].
    + by apply prefix_app_r.
    + done.
Qed.

(** Under [DropAdditionalData] a line sink never panics, stays within both
    limits, holds lines of the stream in their order, and its flag says exactly whether any line is missing. *)
Lemma collected_lines_first ls :
  ∃ s, push_lines new ls (LineBounded max max_lines CDropAdditionalData) = Done s ∧
    retained_bytes s = total_len (cl_lines s) ∧
    total_len (cl_lines s) ≤ bytes max ∧ len (cl_lines s) ≤ max_lines ∧
    cl_lines s `sublist_of` ls ∧
    cl_truncated s = bool_decide (cl_lines s ≠ ls).
Proof.
  destruct (push_lines_inv first_kept (LineBounded max max_lines CDropAdditionalData) ls)
    with (hist := @nil str) (s := new) as (s & -> & Hcount & Hfit & Hsub & Htr).
  - intros hist s l _ Hp. destruct (push_line_keeping hist s l Hp) as (s' & ? & ? & _). eauto.
  - split_and!; try done. apply fits_true. simpl. len_lia.
  - exists s. apply fits_true in Hfit as [Hn Ht]. done.
Qed.

End lines.

