(* ===== verification/Visitors.v ===== *)
(** * The bundled visitors

    Models [src/output_stream/visitors/]: [inspect.rs], [collect.rs] (the
    visitors over a sink), [wait.rs] and [write.rs].  A user closure is an
    [FnMut] with its captured state; an async writer is a value of the class
    [AsyncWrite], the library trait [tokio::io::AsyncWriteExt].

    The theorems compose the visitors with the adapter and the driver loops:
    they say what a consumer of a whole stream returns. *)

From S2P Require Import Prelude Utf8 Stream Driver LineParser LineSpec ParseLines Collect.

(** ** Inspection *)

Record InspectChunks (F : Type) : Type := mkInspectChunks { inspect_chunks_f : F }.
Arguments mkInspectChunks {F}.
Arguments inspect_chunks_f {F}.

#[export] Instance InspectChunks_visitor {F} `{FnMut F chunk Next} :
    StreamVisitor (InspectChunks F) unit := {|
  on_chunk v c := '(f, next) ← call (inspect_chunks_f v) c; mret (mkInspectChunks f, next);
  on_gap v := v;
  on_eof v := mret v;
  into_output _ := ();
|}.

(** The async twin: the closure's future is awaited. *)
Record InspectChunksAsync (F : Type) : Type := mkInspectChunksAsync { inspect_chunks_async_f : F }.
Arguments mkInspectChunksAsync {F}.
Arguments inspect_chunks_async_f {F}.

#[export] Instance InspectChunksAsync_visitor {F} `{FnMut F chunk Next} :
    AsyncStreamVisitor (InspectChunksAsync F) unit := {|
  async_on_chunk v c := '(f, next) ← call (inspect_chunks_async_f v) c; mret (mkInspectChunksAsync f, next);
  async_on_gap v := v;
  async_on_eof v := mret v;
  async_into_output _ := ();
|}.

Record InspectLines (F : Type) : Type := mkInspectLines { inspect_lines_f : F }.
Arguments mkInspectLines {F}.
Arguments inspect_lines_f {F}.

Definition InspectLines_new {F} (f : F) : InspectLines F := mkInspectLines f.

#[export] Instance InspectLines_visitor {F} `{FnMut F str Next} :
    LineVisitor (InspectLines F) unit := {|
  on_line v l := '(f, next) ← call (inspect_lines_f v) l; mret (mkInspectLines f, next);
  line_on_gap v := v;
  line_on_eof v := mret v;
  line_into_output _ := ();
|}.

Record InspectLinesAsync (F : Type) : Type := mkInspectLinesAsync { inspect_lines_async_f : F }.
Arguments mkInspectLinesAsync {F}.
Arguments inspect_lines_async_f {F}.

Definition InspectLinesAsync_new {F} (f : F) : InspectLinesAsync F := mkInspectLinesAsync f.

#[export] Instance InspectLinesAsync_visitor {F} `{FnMut F str Next} :
    AsyncLineVisitor (InspectLinesAsync F) unit := {|
  async_on_line v l := '(f, next) ← call (inspect_lines_async_f v) l; mret (mkInspectLinesAsync f, next);
  async_line_on_gap v := v;
  async_line_on_eof v := mret v;
  async_line_into_output _ := ();
|}.

(** ** Collection *)

(** The closure is called with the chunk and the sink, which it updates. *)
Record CollectChunks (T F : Type) : Type := mkCollectChunks {
  collect_chunks_sink : T; collect_chunks_f : F }.
Arguments mkCollectChunks {T F}.
Arguments collect_chunks_sink {T F}.
Arguments collect_chunks_f {T F}.

Definition CollectChunks_fold {T F} (sink : T) (f : F) : CollectChunks T F := mkCollectChunks sink f.

#[export] Instance CollectChunks_visitor {T F} `{FnMut F (chunk * T) T} :
    StreamVisitor (CollectChunks T F) T := {|
  on_chunk v c :=
    '(f, sink) ← call (collect_chunks_f v) (c, collect_chunks_sink v);
    mret (mkCollectChunks sink f, Continue);
  on_gap v := v;
  on_eof v := mret v;
  into_output := collect_chunks_sink;
|}.

(** The async twin's closure also answers whether to go on. *)
Record CollectChunksAsync (T F : Type) : Type := mkCollectChunksAsync {
  collect_chunks_async_sink : T; collect_chunks_async_f : F }.
Arguments mkCollectChunksAsync {T F}.
Arguments collect_chunks_async_sink {T F}.
Arguments collect_chunks_async_f {T F}.

Definition CollectChunksAsync_fold {T F} (sink : T) (f : F) : CollectChunksAsync T F :=
  mkCollectChunksAsync sink f.

#[export] Instance CollectChunksAsync_visitor {T F} `{FnMut F (chunk * T) (T * Next)} :
    AsyncStreamVisitor (CollectChunksAsync T F) T := {|
  async_on_chunk v c :=
    '(f, (sink, next)) ← call (collect_chunks_async_f v) (c, collect_chunks_async_sink v);
    mret (mkCollectChunksAsync sink f, next);
  async_on_gap v := v;
  async_on_eof v := mret v;
  async_into_output := collect_chunks_async_sink;
|}.

Record CollectLines (T F : Type) : Type := mkCollectLines {
  collect_lines_sink : T; collect_lines_f : F }.
Arguments mkCollectLines {T F}.
Arguments collect_lines_sink {T F}.
Arguments collect_lines_f {T F}.

Definition CollectLines_new {T F} (sink : T) (f : F) : CollectLines T F := mkCollectLines sink f.

#[export] Instance CollectLines_visitor {T F} `{FnMut F (str * T) (T * Next)} :
    LineVisitor (CollectLines T F) T := {|
  on_line v l :=
    '(f, (sink, next)) ← call (collect_lines_f v) (l, collect_lines_sink v);
    mret (mkCollectLines sink f, next);
  line_on_gap v := v;
  line_on_eof v := mret v;
  line_into_output := collect_lines_sink;
|}.

Record CollectLinesAsync (T F : Type) : Type := mkCollectLinesAsync {
  collect_lines_async_sink : T; collect_lines_async_f : F }.
Arguments mkCollectLinesAsync {T F}.
Arguments collect_lines_async_sink {T F}.
Arguments collect_lines_async_f {T F}.

Definition CollectLinesAsync_new {T F} (sink : T) (f : F) : CollectLinesAsync T F :=
  mkCollectLinesAsync sink f.

#[export] Instance CollectLinesAsync_visitor {T F} `{FnMut F (str * T) (T * Next)} :
    AsyncLineVisitor (CollectLinesAsync T F) T := {|
  async_on_line v l :=
    '(f, (sink, next)) ← call (collect_lines_async_f v) (l, collect_lines_async_sink v);
    mret (mkCollectLinesAsync sink f, next);
  async_line_on_gap v := v;
  async_line_on_eof v := mret v;
  async_line_into_output := collect_lines_async_sink;
|}.

(** The closures of [CollectedBytes::collector] and
    [CollectedLines::line_collector] capture their options. *)
#[export] Instance collector_fn : FnMut RawCollectionOptions (chunk * CollectedBytes) CollectedBytes :=
  λ options '(c, sink), sink ← CollectedBytes.collector options c sink; mret (options, sink).

#[export] Instance line_collector_fn :
    FnMut LineCollectionOptions (str * CollectedLines) (CollectedLines * Next) :=
  λ options '(l, sink), r ← CollectedLines.line_collector options l sink; mret (options, r).

(** ** Waiting for a line *)

Record WaitForLine : Type := mkWaitForLine { predicate : str → bool; matched : bool }.

Definition WaitForLine_new (p : str → bool) : WaitForLine := mkWaitForLine p false.

#[export] Instance WaitForLine_visitor : LineVisitor WaitForLine bool := {|
  on_line v l :=
    if predicate v l then mret (mkWaitForLine (predicate v) true, Break)
    else mret (v, Continue);
  line_on_gap v := v;
  line_on_eof v := mret v;
  line_into_output := matched;
|}.

(** ** Writing *)

(** [AsyncWriteExt::write_all], after its future completed. *)
Class AsyncWrite (W : Type) := write_all : W → list byte → W * result unit io_error.

Inductive LineWriteMode : Type := AsIs | AppendLf.
Inductive SinkWriteErrorAction : Type := ActionStop | ActionContinue.
Inductive SinkWriteOperation : Type := OpChunk | OpLine | OpLineDelimiter.

#[export] Instance LineWriteMode_eq_dec : EqDecision LineWriteMode.
Proof. solve_decision. Defined.

Record SinkWriteError : Type := mkSinkWriteError {
  swe_stream_name : String.string;
  operation : SinkWriteOperation;
  attempted_len : N;
  swe_source : io_error;
}.

(** [SinkWriteErrorHandler]: a stateful decision. *)
Class SinkWriteErrorHandler (H : Type) := handle : H → SinkWriteError → H * SinkWriteErrorAction.

Inductive FailFast : Type := fail_fast.
Inductive LogAndContinue : Type := log_and_continue.

#[export] Instance fail_fast_handler : SinkWriteErrorHandler FailFast := λ h _, (h, ActionStop).
#[export] Instance log_and_continue_handler : SinkWriteErrorHandler LogAndContinue :=
  λ h _, (h, ActionContinue).

(** A closure that decides, with the state it captures. *)
Record handler_fn (S : Type) : Type := mkHandlerFn {
  handler_state : S; handler_call : S → SinkWriteError → S * SinkWriteErrorAction }.
Arguments mkHandlerFn {S}.
Arguments handler_state {S}.
Arguments handler_call {S}.

#[export] Instance closure_handler {S} : SinkWriteErrorHandler (handler_fn S) := λ h error,
  let '(s, action) := handler_call h (handler_state h) error in (mkHandlerFn s (handler_call h), action).

(** [SinkWriteError::new], its accessors and its [Display]. *)
Definition SinkWriteError_new (stream_name : String.string) (op : SinkWriteOperation) (attempted : N)
    (source : io_error) : SinkWriteError := mkSinkWriteError stream_name op attempted source.

Definition sink_error_stream_name (e : SinkWriteError) : String.string := swe_stream_name e.
Definition sink_error_operation (e : SinkWriteError) : SinkWriteOperation := operation e.
Definition sink_error_attempted_len (e : SinkWriteError) : N := attempted_len e.
Definition sink_error_source (e : SinkWriteError) : io_error := swe_source e.

Definition display_sink_write_error (display_io : io_error → String.string) (e : SinkWriteError)
    : String.string :=
  ("Failed to write consumed output from stream '" +:+ swe_stream_name e +:+ "' to sink: "
   +:+ display_io (swe_source e))%string.

(** The options only carry the handler to the visitor. *)
Record WriteCollectionOptions (H : Type) : Type := mkWriteOptions { error_handler : H }.
Arguments mkWriteOptions {H}.
Arguments error_handler {H}.

Module WriteCollectionOptions.

Definition fail_fast : WriteCollectionOptions FailFast := mkWriteOptions Visitors.fail_fast.
Definition log_and_continue : WriteCollectionOptions LogAndContinue :=
  mkWriteOptions Visitors.log_and_continue.
Definition with_error_handler {H} (handler : H) : WriteCollectionOptions H := mkWriteOptions handler.
Definition into_error_handler {H} (o : WriteCollectionOptions H) : H := error_handler o.

End WriteCollectionOptions.

Section write.
Context {W H : Type} `{AsyncWrite W, SinkWriteErrorHandler H}.

(** [Ok true]: written; [Ok false]: failed and accepted; [Err]: stop. *)
Definition handle_write_result (stream_name : String.string) (h : H) (op : SinkWriteOperation)
    (attempted : N) (r : result unit io_error) : H * result bool SinkWriteError :=
  match r with
  | Ok _ => (h, Ok true)
  | Err source =>
      let error := SinkWriteError_new stream_name op attempted source in
      let '(h, action) := handle h error in
      match action with
      | ActionStop => (h, Err error)
      | ActionContinue => (h, Ok false)
      end
  end.

Definition write_line (stream_name : String.string) (w : W) (h : H) (line : list byte)
    (m : LineWriteMode) : W * H * result unit SinkWriteError :=
  let '(w, line_write) := write_all w line in
  let '(h, line_written) := handle_write_result stream_name h OpLine (len line) line_write in
  match line_written with
  | Err e => (w, h, Err e)
  | Ok line_written =>
      if negb line_written || negb (bool_decide (m = AppendLf)) then (w, h, Ok ())
      else
        let '(w, r) := write_all w [newline] in
        let '(h, r) := handle_write_result stream_name h OpLineDelimiter 1 r in
        match r with
        | Err e => (w, h, Err e)
        | Ok _ => (w, h, Ok ())
        end
  end.

Record WriteChunks : Type := mkWriteChunks {
  wc_stream_name : String.string;
  wc_writer : W;
  wc_error_handler : H;
  wc_mapper : chunk → list byte;
  wc_error : option SinkWriteError;
}.

Definition identity_chunk (c : chunk) : chunk := c.

Definition WriteChunks_passthrough (name : String.string) (w : W) (options : WriteCollectionOptions H)
    : WriteChunks :=
  mkWriteChunks name w (WriteCollectionOptions.into_error_handler options) identity_chunk None.

Definition WriteChunks_mapped (name : String.string) (w : W) (options : WriteCollectionOptions H)
    (mapper : chunk → list byte) : WriteChunks :=
  mkWriteChunks name w (WriteCollectionOptions.into_error_handler options) mapper None.

Definition write_output (w : W) (e : option SinkWriteError) : result W SinkWriteError :=
  match e with Some err => Err err | None => Ok w end.

#[export] Instance WriteChunks_visitor :
    AsyncStreamVisitor WriteChunks (result W SinkWriteError) := {|
  async_on_chunk v c :=
    let bs := wc_mapper v c in
    let '(w, r) := write_all (wc_writer v) bs in
    let '(h, r) :=
      handle_write_result (wc_stream_name v) (wc_error_handler v) OpChunk (len bs) r in
    match r with
    | Ok _ => mret (mkWriteChunks (wc_stream_name v) w h (wc_mapper v) (wc_error v), Continue)
    | Err e => mret (mkWriteChunks (wc_stream_name v) w h (wc_mapper v) (Some e), Break)
    end;
  async_on_gap v := v;
  async_on_eof v := mret v;
  async_into_output v := write_output (wc_writer v) (wc_error v);
|}.

Record WriteLines : Type := mkWriteLines {
  wl_stream_name : String.string;
  wl_writer : W;
  wl_error_handler : H;
  wl_mapper : str → list byte;
  wl_mode : LineWriteMode;
  wl_error : option SinkWriteError;
}.

Definition WriteLines_new (name : String.string) (w : W) (h : H) (mapper : str → list byte)
    (m : LineWriteMode) : WriteLines := mkWriteLines name w h mapper m None.

Definition identity_line (line : str) : list byte := line.

Definition WriteLines_passthrough (name : String.string) (w : W) (options : WriteCollectionOptions H)
    (m : LineWriteMode) : WriteLines :=
  WriteLines_new name w (WriteCollectionOptions.into_error_handler options) identity_line m.

#[export] Instance WriteLines_visitor :
    AsyncLineVisitor WriteLines (result W SinkWriteError) := {|
  async_on_line v l :=
    let '(w, h, r) :=
      write_line (wl_stream_name v) (wl_writer v) (wl_error_handler v) (wl_mapper v l) (wl_mode v) in
    match r with
    | Ok _ =>
        mret (mkWriteLines (wl_stream_name v) w h (wl_mapper v) (wl_mode v) (wl_error v), Continue)
    | Err e =>
        mret (mkWriteLines (wl_stream_name v) w h (wl_mapper v) (wl_mode v) (Some e), Break)
    end;
  async_line_on_gap v := v;
  async_line_on_eof v := mret v;
  async_line_into_output v := write_output (wl_writer v) (wl_error v);
|}.

End write.
Arguments WriteChunks : clear implicits.
Arguments WriteLines : clear implicits.

(** ** The sync visitors and their async twins *)

(** A collecting closure as the async collectors take it: it never stops. *)
Record continuing (F : Type) : Type := mkContinuing { continuing_f : F }.
Arguments mkContinuing {F}.
Arguments continuing_f {F}.

#[export] Instance continuing_fn {A T F} `{FnMut F (A * T) T} : FnMut (continuing F) (A * T) (T * Next) :=
  λ f a, '(f, t) ← call (continuing_f f) a; mret (mkContinuing f, (t, Continue)).

(** On every schedule, interleaved with gaps, cancellation and read errors, the
    async inspector does what the sync one does. *)
Lemma inspect_chunks_async_same {F} `{FnMut F chunk Next} (f : F) turns :
  consume_async (mkInspectChunksAsync f) turns =
  driver_map (mkInspectChunksAsync ∘ inspect_chunks_f) (consume_sync (mkInspectChunks f) turns).
Proof.
  refine (consume_mirror (mkInspectChunksAsync ∘ inspect_chunks_f) _ _ _ _ turns (mkInspectChunks f)); try done.
  intros [g] c. simpl. by destruct (call g c) as [[]|].
Qed.

(** So does the async collector, given the sync collector's closure. *)
Lemma collect_chunks_async_same {T F} `{FnMut F (chunk * T) T} (sink : T) (f : F) turns :
  consume_async (CollectChunksAsync_fold sink (mkContinuing f)) turns =
  driver_map (λ v, mkCollectChunksAsync (collect_chunks_sink v) (mkContinuing (collect_chunks_f v)))
    (consume_sync (CollectChunks_fold sink f) turns).
Proof.
  refine (consume_mirror
    (λ v, mkCollectChunksAsync (collect_chunks_sink v) (mkContinuing (collect_chunks_f v)))
    _ _ _ _ turns (CollectChunks_fold sink f)); try done.
  intros [t g] c. simpl. unfold call at 1, continuing_fn. simpl. by destruct (call g (c, t)) as [[]|].
Qed.

(** ** Waiting for a line: the consumer's answer *)

Lemma feed_wait p lines :
  feed_lines on_line (WaitForLine_new p) lines =
    Done (if existsb p lines then (mkWaitForLine p true, Break)
          else (WaitForLine_new p, Continue)).
Proof.
  induction lines as [|l lines IH]; simpl; [done|].
  destruct (p l); simpl; [done|]. apply IH.
Qed.

(** ** Collecting lines: the consumer's answer *)

Lemma feed_collect s opts lines :
  feed_lines on_line (mkCollectLines s opts) lines =
    (s ← CollectedLines.push_lines s lines opts; mret (mkCollectLines s opts, Continue)).
Proof.
  revert s. induction lines as [|l lines IH]; intros s; simpl; [done|].
  unfold call, line_collector_fn, CollectedLines.line_collector.
  destruct (CollectedLines.push_line s l opts); simpl; [apply IH|done].
Qed.

Lemma push_lines_app s ls ks opts :
  CollectedLines.push_lines s (ls ++ ks) opts =
    (s ← CollectedLines.push_lines s ls opts; CollectedLines.push_lines s ks opts).
Proof.
  revert s. induction ls as [|l ls IH]; intros s; simpl; [done|].
  destruct (CollectedLines.push_line s l opts); simpl; [apply IH|done].
Qed.

(** A consumer that collects lines runs the sink over the lines of the stream. *)
Lemma collect_lines_session {B} `{BytesMut B, Memchr} o opts
    (v : ParseLines B (CollectLines CollectedLines LineCollectionOptions)) cs s :
  bytes (max_line_length o) ≤ usize_max →
  ParseLines_new o (mkCollectLines CollectedLines.new opts) = Done v →
  CollectedLines.push_lines CollectedLines.new
    (decode_line_lossy <$> Lines.spec_lines o (concat cs)) opts = Done s →
  consume_sync v (turns_of (Chunk <$> cs) ++ [Event (Some Eof)]) = Finished (Ok s).
Proof.
  intros Hu Hnew. destruct (new_adapter_wf o _ v Hu Hnew) as (Hwf & <- & Hinner & Habs & _).
  rewrite session_ok, session_chunks, Habs, Hinner by (done || by apply Forall_fmap, Forall_true).
  rewrite <- Lines.run_spec_lines, fmap_app, push_lines_app.
  destruct (Machine.run _ _ (concat cs)) as [st lines]. rewrite feed_collect. simpl.
  destruct (CollectedLines.push_lines _ (decode_line_lossy <$> lines) _) as [s1|]; simpl; [|done].
  unfold finish_session. rewrite feed_collect.
  destruct (CollectedLines.push_lines _ _ _) as [s2|]; simpl; [|done]. congruence.
Qed.

(** ** Collecting bytes: the consumer's answer *)

(** The chunks among a stream's events. *)
Definition event_chunks (es : list StreamEvent) : list chunk :=
  omap (λ e, match e with Chunk c => Some c | _ => None end) es.

Lemma event_chunks_bytes es : concat (event_chunks es) = concat (event_bytes <$> es).
Proof. induction es as [|[c| | |] es IH]; simpl; [done|by rewrite IH|done..]. Qed.

Lemma collect_chunks_session opts sink sink' es :
  Forall (λ e, is_terminal e = false) es →
  CollectedBytes.push_chunks sink (event_chunks es) opts = Done sink' →
  consume_sync (mkCollectChunks sink opts) (turns_of es ++ [Event (Some Eof)]) = Finished (Ok sink').
Proof.
  intros Hes. revert sink. induction Hes as [|[c| | |] es He _ IH]; intros sink; simpl; [by intros [= ->]| |auto|done|done].
  unfold call, collector_fn, CollectedBytes.collector.
  destruct (CollectedBytes.push_chunk sink c opts); simpl; [apply IH|done].
Qed.

(** C22: collecting a stream's lines with [DropOldestData] from parser to sink:
    when the byte limit of the sink holds any decoded line, the consumer
    returns the newest lines of the stream that fit, and tells whether older
    ones were evicted. *)
Theorem collect_lines_newest {B} `{BytesMut B, Memchr} o max max_lines
    (v : ParseLines B (CollectLines CollectedLines LineCollectionOptions)) cs :
  3 * bytes (max_line_length o) ≤ bytes max → bytes max ≤ usize_max → 1 ≤ max_lines →
  ParseLines_new o (mkCollectLines CollectedLines.new
    (LineBounded max max_lines CDropOldestData)) = Done v →
  let lines := decode_line_lossy <$> Lines.spec_lines o (concat cs) in
  ∃ s, consume_sync v (turns_of (Chunk <$> cs) ++ [Event (Some Eof)]) = Finished (Ok s) ∧
    CollectedLines.into_parts s =
      (newest max max_lines lines, bool_decide (newest max max_lines lines ≠ lines)).
Proof.
  intros Hline Hu Hn Hnew lines.
  destruct (new_adapter_wf o _ v ltac:(lia) Hnew) as (_ & _ & _ & _ & Hmax).
  assert (Forall (λ l, len l ≤ bytes max) lines) as Hfit.
  { apply Forall_fmap, Forall_forall. intros raw Hraw%Lines.spec_lines_bound; [|done].
    pose proof (from_utf8_lossy_length raw). unfold compose, decode_line_lossy, len in *. lia. }
  destruct (push_lines_newest max max_lines Hu lines Hn Hfit) as (s & Hs & Hparts & _).
  exists s. split; [|done]. apply (collect_lines_session o (LineBounded max max_lines CDropOldestData)); [lia|done|done].
Qed.

(** ** Writers *)

(** [Vec<u8>] as a writer: it accepts everything. *)
#[export] Instance vec_writer : AsyncWrite (list byte) := λ w bs, (w ++ bs, Ok ()).

Section write_facts.
Context {B : Type} `{BytesMut B, Memchr}.

(** Writing lines into a vector, as a fold. *)
Definition append_line (mode : LineWriteMode) (w : list byte) (line : list byte) : list byte :=
  w ++ line ++ (if bool_decide (mode = AppendLf) then [newline] else []).

Definition write_lines_step {Hd} (v : WriteLines (list byte) Hd) (line : str) : WriteLines (list byte) Hd :=
  mkWriteLines (wl_stream_name v) (append_line (wl_mode v) (wl_writer v) (wl_mapper v line))
    (wl_error_handler v) (wl_mapper v) (wl_mode v) (wl_error v).

Lemma write_lines_fold {Hd} `{SinkWriteErrorHandler Hd} :
  @FoldVisitor (WriteLines (list byte) Hd) _ as_line_visitor write_lines_step (λ v, v).
Proof.
  split; [|done]. intros [name w h mapper [] err] line; simpl;
    unfold write_line, write_all, vec_writer, write_lines_step, append_line; simpl; unfold mret, outcome_ret.
  - by rewrite app_nil_r.
  - by rewrite (assoc_L (++)).
Qed.

Lemma write_lines_foldl {Hd} (v : WriteLines (list byte) Hd) lines :
  foldl write_lines_step v lines =
    mkWriteLines (wl_stream_name v)
      (foldl (append_line (wl_mode v)) (wl_writer v) (wl_mapper v <$> lines))
      (wl_error_handler v) (wl_mapper v) (wl_mode v) (wl_error v).
Proof. revert v. induction lines as [|l lines IH]; intros []; simpl; [done|]. by rewrite IH. Qed.

Lemma append_lf_foldl w lines :
  foldl (append_line AppendLf) w lines = w ++ concat ((λ l, l ++ [newline]) <$> lines).
Proof.
  revert w. induction lines as [|l lines IH]; intros w; simpl; [by rewrite app_nil_r|].
  rewrite IH. unfold append_line. simpl. by rewrite <- !(assoc_L (++)).
Qed.

(** The lines of a text within the limit, put back together. *)
Lemma unsplit l : concat ((λ s, s ++ [newline]) <$> (Lines.segments l).1) ++ (Lines.segments l).2 = l.
Proof.
  induction l as [|b l IH]; simpl; [done|]. destruct (Lines.segments l) as [segs tail]. simpl in IH.
  case_bool_decide; subst; simpl; [done|]. destruct segs; simpl in *; congruence.
Qed.

(** C33: parsing lines and writing them back with [AppendLf] is the identity on
    newline-terminated UTF-8 text whose lines are within the limit: the writer
    ends up with exactly the bytes of the stream. *)
Theorem write_lines_round_trip {Hd} `{SinkWriteErrorHandler Hd} o name (options : WriteCollectionOptions Hd)
    (v : ParseLines B (WriteLines (list byte) Hd)) cs :
  bytes (max_line_length o) ≤ usize_max →
  ParseLines_new o (WriteLines_passthrough name [] options AppendLf) = Done v →
  valid_utf8 (concat cs) →
  (Lines.segments (concat cs)).2 = [] →
  Forall (λ seg, len seg ≤ bytes (max_line_length o)) (Lines.segments (concat cs)).1 →
  consume_async v (turns_of (Chunk <$> cs) ++ [Event (Some Eof)]) =
    Finished (Ok (Ok (concat cs))).
Proof.
  intros Hu Hnew Hutf Htail Hsegs. rewrite parse_lines_async_same.
  pose proof (@write_lines_fold Hd _) as Hfold.
  rewrite (parse_lines_fold _ _ o _ v cs Hu Hnew). simpl. do 3 f_equal.
  rewrite write_lines_foldl. simpl. rewrite Lines.spec_lines_terminated by done.
  pose proof (Lines.decode_segments (concat cs)) as Hdec.
  rewrite (from_utf8_lossy_id _ Hutf) in Hdec. apply (f_equal fst) in Hdec. simpl in Hdec.
  unfold WriteLines_passthrough, write_output. simpl.
  unfold identity_line. rewrite list_fmap_id, append_lf_foldl, <- Hdec.
  pose proof (unsplit (concat cs)) as Hun. rewrite Htail, app_nil_r in Hun. simpl. by rewrite Hun.
Qed.

End write_facts.

(** *** Routing of write errors *)

Section write_errors.
Context {W : Type} `{AsyncWrite W}.

(** Writing until the first failure. *)
Fixpoint write_until (w : W) (cs : list chunk) : W * option (chunk * io_error) :=
  match cs with
  | [] => (w, None)
  | c :: cs =>
      match write_all w c with
      | (w, Ok _) => write_until w cs
      | (w, Err e) => (w, Some (c, e))
      end
  end.

(** With [fail_fast] a consumer writing chunks stops at the first write that
    fails, writes nothing after it, and returns that failure with its operation
    and length; without a failure it returns the writer. *)
Lemma write_chunks_fail_fast name (w : W) cs :
  consume_async (WriteChunks_passthrough name w WriteCollectionOptions.fail_fast)
    (turns_of (Chunk <$> cs) ++ [Event (Some Eof)]) =
  Finished (Ok match write_until w cs with
               | (w, None) => Ok w
               | (_, Some (c, e)) => Err (mkSinkWriteError name OpChunk (len c) e)
               end).
Proof.
  revert w. induction cs as [|c cs IH]; intros w; simpl; [done|]. unfold identity_chunk at 1 2.
  destruct (write_all w c) as [w' [[]|e]]; simpl; [|done]. apply IH.
Qed.

(** With [log_and_continue] a consumer writing chunks attempts every chunk in
    order, whatever fails, and returns the writer. *)
Lemma write_chunks_log_and_continue name (w : W) cs :
  consume_async (WriteChunks_passthrough name w WriteCollectionOptions.log_and_continue)
    (turns_of (Chunk <$> cs) ++ [Event (Some Eof)]) =
  Finished (Ok (Ok (foldl (λ w c, (write_all w c).1) w cs))).
Proof.
  revert w. induction cs as [|c cs IH]; intros w; simpl; [done|]. unfold identity_chunk at 1 2.
  destruct (write_all w c) as [w' [[]|e]]; simpl; apply IH.
Qed.

(** A delimiter is written only behind a line that was written: after a
    line whose write failed no newline reaches the writer, whatever the
    handler decides. *)
Lemma write_line_no_stray_delimiter {H'} `{SinkWriteErrorHandler H'} name (w w' : W) (h : H')
    line mode e :
  write_all w line = (w', Err e) → (write_line name w h line mode).1.1 = w'.
Proof.
  intros Hw. unfold write_line. rewrite Hw. simpl.
  by destruct (handle h _) as [h' []].
Qed.

End write_errors.

(** ** The adapter's shortcut constructors *)

Section shortcuts.
Context {B : Type} `{BytesMut B, Memchr} {T F : Type}.

Definition ParseLines_inspect (options : LineParsingOptions) (f : F)
    : outcome (ParseLines B (InspectLines F)) := ParseLines_new options (InspectLines_new f).

Definition ParseLines_inspect_async (options : LineParsingOptions) (f : F)
    : outcome (ParseLines B (InspectLinesAsync F)) := ParseLines_new options (InspectLinesAsync_new f).

Definition ParseLines_collect (options : LineParsingOptions) (sink : T) (f : F)
    : outcome (ParseLines B (CollectLines T F)) := ParseLines_new options (CollectLines_new sink f).

Definition ParseLines_collect_async (options : LineParsingOptions) (sink : T) (f : F)
    : outcome (ParseLines B (CollectLinesAsync T F)) := ParseLines_new options (CollectLinesAsync_new sink f).

End shortcuts.

Lemma ParseLines_collect_total {B} `{BytesMut B, Memchr} {T F} `{FnMut F (str * T) (T * Next)} o (sink : T) (f : F) :
  0 < bytes (max_line_length o) → ∃ v : ParseLines B (CollectLines T F), ParseLines_collect o sink f = Done v.
Proof.
  intros Hpos. unfold ParseLines_collect, ParseLines_new, assert_max_line_length_non_zero.
  rewrite (proj2 (N.ltb_lt _ _) Hpos). cbn. eauto.
Qed.

Lemma collect_lines_newest_witness :
  let opts := LineBounded (mkNumBytes 6) 1 CDropOldestData in
  let o := mkLineParsingOptions (mkNumBytes 2) DropAdditionalData None in
  ∃ s, consume_sync (mkParseLines (B := Reference.buffer) parser_new o (mkCollectLines CollectedLines.new opts))
      (turns_of [Chunk [x61; newline]; Chunk [x62]] ++ [Event (Some Eof)]) = Finished (Ok s) ∧
    CollectedLines.into_parts s = ([[x62]], true).
Proof.
  intros opts o.
  exact (collect_lines_newest o (mkNumBytes 6) 1
    (mkParseLines (B := Reference.buffer) parser_new o (mkCollectLines CollectedLines.new opts))
    [[x61; newline]; [x62]] ltac:(vm_compute; discriminate) ltac:(vm_compute; discriminate)
    ltac:(vm_compute; discriminate) eq_refl).
Defined.

Lemma write_lines_round_trip_witness :
  let v := mkParseLines (B := Reference.buffer) parser_new default_options
    (WriteLines_passthrough "stdout" [] WriteCollectionOptions.fail_fast AppendLf) in
  consume_async v (turns_of [Chunk [x61; newline; x62]; Chunk [newline]] ++ [Event (Some Eof)]) =
    Finished (Ok (Ok [x61; newline; x62; newline])).
Proof.
  intros v.
  apply (write_lines_round_trip default_options "stdout" WriteCollectionOptions.fail_fast v [[x61; newline; x62]; [newline]]).
  - vm_compute. discriminate.
  - reflexivity.
  - apply (valid_utf8_cons [x61]); [constructor; vm_compute; done|].
    apply (valid_utf8_cons [newline]); [constructor; vm_compute; done|].
    apply (valid_utf8_cons [x62]); [constructor; vm_compute; done|].
    apply (valid_utf8_cons [newline]); [constructor; vm_compute; done|]. constructor.
  - reflexivity.
  - repeat constructor; vm_compute; discriminate.
Defined.
