(* ===== verification/Consumer.v ===== *)
(** * Consumer handles

    Models [src/output_stream/consumer/mod.rs]: the handle of a spawned driver
    task, with [wait], [cancel], [abort] and its drop behaviour, and
    [spawn_consumer_sync] of [driver.rs].

    The task and its cancellation token live in a [World] the handle acts on;
    the runtime advances the task one [select!] turn at a time.  A future is
    given the schedule of turns that happen while it is awaited, so a statement
    for all schedules covers every interleaving; a schedule that ends before
    the future is done leaves it [Pending], at which point it may be dropped. *)

From S2P Require Import Prelude Time Stream Driver.

Inductive JoinError : Type := JoinCancelled | JoinPanic.

Inductive ConsumerError : Type :=
| TaskJoin (stream_name : String.string) (source : JoinError)
| StreamRead (source : StreamReadError).

Inductive ConsumerCancelOutcome (S : Type) : Type :=
| OutcomeCancelled (s : S)
| OutcomeAborted.
Arguments OutcomeCancelled {S}.
Arguments OutcomeAborted {S}.

Definition into_cancelled {S} (o : ConsumerCancelOutcome S) : option S :=
  match o with OutcomeCancelled s => Some s | OutcomeAborted => None end.

Definition expect_cancelled {S} (o : ConsumerCancelOutcome S) : outcome S :=
  expect (into_cancelled o).

(** ** The runtime's side *)

(** A tokio task running a driver. *)
Inductive task (V Out : Type) : Type :=
| Live (v : V) (abort_requested : bool)
| Completed (r : result Out StreamReadError)
| TaskPanicked
| TaskAborted.
Arguments Live {V Out}.
Arguments Completed {V Out}.
Arguments TaskPanicked {V Out}.
Arguments TaskAborted {V Out}.

Record World (V Out : Type) : Type := mkWorld {
  w_task : task V Out;
  (** The cancellation token was sent to, or its sender dropped. *)
  w_token : bool;
}.
Arguments mkWorld {V Out}.
Arguments w_task {V Out}.
Arguments w_token {V Out}.

Section consumer.
Context {V Out : Type} `{StreamVisitor V Out}.
Implicit Types (w : World V Out) (sched : list turn).

Definition task_of (d : driver V Out) : task V Out :=
  match d with
  | Running v => Live v false
  | Finished r => Completed r
  | Panicked => TaskPanicked
  end.

(** One poll of the task.  A requested abort wins; the cancellation branch can
    be taken only once the token has fired. *)
Definition poll_task w (t : turn) : World V Out :=
  match w_task w with
  | Live _ true => mkWorld TaskAborted (w_token w)
  | Live v false =>
      if bool_decide (t = Cancelled) && negb (w_token w) then w
      else mkWorld (task_of (consume_sync v [t])) (w_token w)
  | _ => w
  end.

Definition send_token w : World V Out := mkWorld (w_task w) true.

Definition abort_task w : World V Out :=
  match w_task w with
  | Live v _ => mkWorld (Live v true) (w_token w)
  | _ => w
  end.

(** The join handle's answer, once the task is over. *)
Definition join w : option (result (result Out StreamReadError) JoinError) :=
  match w_task w with
  | Live _ _ => None
  | Completed r => Some (Ok r)
  | TaskPanicked => Some (Err JoinPanic)
  | TaskAborted => Some (Err JoinCancelled)
  end.

Fixpoint await_task w sched : World V Out * option (result (result Out StreamReadError) JoinError) :=
  match join w with
  | Some r => (w, Some r)
  | None =>
      match sched with
      | [] => (w, None)
      | t :: sched => await_task (poll_task w t) sched
      end
  end.

(** ** The handle *)

(** The join handle and the token's sender, while they have not been taken. *)
Record Consumer : Type := mkConsumer {
  c_stream_name : String.string;
  c_task : option unit;
  c_sender : option unit;
}.

(** [ConsumerWait] with its guard. *)
Record ConsumerWait : Type := mkConsumerWait {
  cw_stream_name : String.string;
  guard_task : option unit;
  guard_sender : option unit;
}.

Definition spawn_consumer_sync (stream_name : String.string) (v : V) : Consumer * World V Out :=
  (mkConsumer stream_name (Some ()) (Some ()), mkWorld (Live v false) false).

Definition is_finished (c : Consumer) w : bool :=
  match c_task c with
  | None => true
  | Some _ => bool_decide (is_Some (join w))
  end.

Definition into_wait (c : Consumer) : ConsumerWait * Consumer :=
  (mkConsumerWait (c_stream_name c) (c_task c) (c_sender c),
   mkConsumer (c_stream_name c) None None).

(** [ConsumerWaitGuard::cancel]. *)
Definition guard_cancel (g : ConsumerWait) w : outcome (ConsumerWait * World V Out) :=
  _ ← expect (guard_sender g);
  mret (mkConsumerWait (cw_stream_name g) (guard_task g) None, send_token w).

(** A future's value, or the state it was left in. *)
Inductive awaited (A : Type) : Type :=
| AReady (a : A) (g : ConsumerWait) (w : World V Out)
| APending (g : ConsumerWait) (w : World V Out).
Arguments AReady {A}.
Arguments APending {A}.

(** [ConsumerWaitGuard::wait]: a join error leaves the guard as it is. *)
Definition guard_wait (g : ConsumerWait) w sched
    : outcome (awaited (result Out ConsumerError)) :=
  _ ← expect (guard_task g);
  match await_task w sched with
  | (w, None) => mret (APending g w)
  | (w, Some (Err e)) => mret (AReady (Err (TaskJoin (cw_stream_name g) e)) g w)
  | (w, Some (Ok r)) =>
      mret (AReady (map_err StreamRead r) (mkConsumerWait (cw_stream_name g) None None) w)
  end.

Definition send_if_present (sender : option unit) w : World V Out :=
  match sender with Some _ => send_token w | None => w end.
Definition abort_if_present (t : option unit) w : World V Out :=
  match t with Some _ => abort_task w | None => w end.

(** [ConsumerWaitGuard::abort]: the aborted task is joined, which takes one
    poll of it. *)
Definition guard_abort (g : ConsumerWait) w : ConsumerWait * World V Out :=
  let w := send_if_present (guard_sender g) w in
  let w := abort_if_present (guard_task g) w in
  let w := match guard_task g with Some _ => poll_task w Cancelled | None => w end in
  (mkConsumerWait (cw_stream_name g) None None, w).

(** [Drop] of the guard and of the handle. *)
Definition guard_drop (g : ConsumerWait) w : World V Out :=
  abort_if_present (guard_task g) (send_if_present (guard_sender g) w).
Definition consumer_drop (c : Consumer) w : World V Out :=
  abort_if_present (c_task c) (send_if_present (c_sender c) w).

(** The timer of a [select!]: not elapsed while the schedule runs; elapsed at
    its end with the task still pending; or elapsed in the turn in which the
    task completed and picked first. *)
Inductive timer : Type := NotElapsed | Elapsed | ElapsedFirst.

(** [ConsumerWait::wait_until]. *)
Definition wait_until (g : ConsumerWait) w sched (deadline : timer)
    : outcome (awaited (result (option Out) ConsumerError)) :=
  r ← guard_wait g w sched;
  match r, deadline with
  | AReady _ _ w, ElapsedFirst | APending _ w, (Elapsed | ElapsedFirst) =>
      let '(g, w) := guard_abort g w in mret (AReady (Ok None) g w)
  | AReady r g w, _ =>
      mret (AReady (match r with Ok s => Ok (Some s) | Err e => Err e end) g w)
  | APending g w, NotElapsed => mret (APending g w)
  end.

(** The three consuming methods.  When a method's future is done or dropped its
    guard is dropped. *)
Definition Consumer_wait (c : Consumer) w sched : outcome (awaited (result Out ConsumerError)) :=
  let '(g, _) := into_wait c in guard_wait g w sched.

Definition Consumer_abort (c : Consumer) w : World V Out :=
  let '(g, _) := into_wait c in let '(g, w) := guard_abort g w in guard_drop g w.

(** The deadline is computed after the token was sent; [clock] is the clock at
    that point. *)
Definition Consumer_cancel (c : Consumer) (clock : Clock) (timeout : Duration) w sched (deadline : timer)
    : outcome (awaited (result (ConsumerCancelOutcome Out) ConsumerError)) :=
  let '(g, _) := into_wait c in
  '(g, w) ← guard_cancel g w;
  _ ← instant_add clock timeout;
  r ← wait_until g w sched deadline;
  match r with
  | AReady (Ok (Some sink)) g w => mret (AReady (Ok (OutcomeCancelled sink)) g w)
  | AReady (Ok None) g w => mret (AReady (Ok OutcomeAborted) g w)
  | AReady (Err e) g w => mret (AReady (Err e) g w)
  | APending g w => mret (APending g w)
  end.

(** The world once a method's future is done or dropped. *)
Definition settle {A} (r : awaited A) : World V Out :=
  match r with AReady _ g w | APending g w => guard_drop g w end.

(** ** Properties *)

(** A task that can make no further call to its visitor. *)
Definition stopped w : Prop :=
  match w_task w with Live _ false => False | _ => True end.

(** What the runtime does to a live task is what the driver loop does. *)
Lemma await_task_driver v tok sched :
  Forall (λ t, t = Cancelled → tok = true) sched →
  (await_task (mkWorld (Live v false) tok) sched).1 =
    mkWorld (task_of (consume_sync v sched)) tok.
Proof.
  intros Hs. revert v. induction Hs as [|t sched Ht _ IH]; intros v; [done|].
  cbn [await_task join w_task]. unfold poll_task. cbn [w_task w_token].
  rewrite (proj2 (andb_false_iff _ _)).
  2: { destruct (decide (t = Cancelled)) as [->|?]; [right; by rewrite Ht|left; by apply bool_decide_eq_false_2]. }
  change (t :: sched) with ([t] ++ sched). rewrite consume_sync_app.
  destruct (consume_sync v [t]) as [v'|r|]; simpl; [apply IH|by destruct sched..].
Qed.

Lemma await_task_join w sched w' r :
  await_task w sched = (w', r) → join w' = r.
Proof.
  revert w. induction sched as [|t sched IH]; intros w; simpl; destruct (join w) eqn:Hj;
    intros Heq; simplify_eq; [done..|]. by eapply IH.
Qed.

Lemma abort_stopped w : stopped (abort_task w).
Proof. unfold stopped, abort_task. by destruct (w_task w) eqn:E; simpl; rewrite ?E. Qed.

Lemma joined_stopped w r : join w = Some r → stopped w.
Proof. unfold join, stopped. by destruct (w_task w). Qed.

Lemma guard_drop_stopped g w :
  guard_task g = Some () ∨ stopped w → stopped (guard_drop g w).
Proof.
  unfold guard_drop. intros [->|Hs]; [apply abort_stopped|].
  unfold send_if_present, abort_if_present. destruct (guard_task g); [apply abort_stopped|].
  by destruct (guard_sender g).
Qed.

Lemma guard_wait_stopped g w sched r :
  guard_wait g w sched = Done r → stopped (settle r).
Proof.
  unfold guard_wait. destruct (guard_task g) as [[]|] eqn:Hg; simpl; [|done].
  destruct (await_task w sched) as [w' [[r'|e]|]] eqn:Ha; intros [= <-]; simpl;
    apply guard_drop_stopped; auto.
  right. eapply joined_stopped, await_task_join. exact Ha.
Qed.

(** An aborted task is over after one poll. *)
Lemma abort_joined w :
  stopped (poll_task (abort_task w) Cancelled) ∧
  is_Some (join (poll_task (abort_task w) Cancelled)).
Proof. destruct w as [[v []| | |] tok]; simpl; unfold stopped, join; simpl; eauto. Qed.

Lemma guard_abort_stopped g w g' w' :
  guard_task g = Some () → guard_abort g w = (g', w') →
  stopped w' ∧ is_Some (join w') ∧ guard_task g' = None ∧ guard_sender g' = None.
Proof.
  intros Hg [= <- <-]. rewrite Hg. simpl.
  destruct (abort_joined (send_if_present (guard_sender g) w)). done.
Qed.

Lemma wait_until_stopped g w sched d r :
  wait_until g w sched d = Done r → stopped (settle r).
Proof.
  unfold wait_until. destruct (guard_wait g w sched) as [r'|] eqn:Hw; [|done].
  pose proof (guard_wait_stopped _ _ _ _ Hw) as Hs.
  assert (guard_task g = Some ()) as Hg.
  { unfold guard_wait in Hw. by destruct (guard_task g) as [[]|]. }
  assert (∀ (u : World V Out), stopped (guard_drop (guard_abort g u).1 (guard_abort g u).2)) as Hab.
  { intros u. destruct (guard_abort g u) as [g' w'] eqn:Ha.
    apply guard_drop_stopped. right. by eapply guard_abort_stopped. }
  destruct r' as [r' g1 w1|g1 w1], d; simpl; intros [= <-]; done || apply Hab.
Qed.

(** C14: a consumer never leaks its task.  Whatever happens while they run,
    [wait] and [cancel] on a spawned consumer do not panic, provided the
    deadline of [cancel] exists, and once their future is done, or dropped
    half-way, the task is over or aborted; so it is after [abort], after the
    handle is dropped unused, and after [cancel] panics because its deadline
    does not exist. *)
Theorem consumer_never_leaks stream_name v c w :
  spawn_consumer_sync stream_name v = (c, w) →
  ∀ u sched deadline clock timeout,
    (∃ r, Consumer_wait c u sched = Done r ∧ stopped (settle r)) ∧
    (if decide (representable clock timeout)
     then ∃ r, Consumer_cancel c clock timeout u sched deadline = Done r ∧ stopped (settle r)
     else Consumer_cancel c clock timeout u sched deadline = Panic ∧
          ∃ g u', guard_cancel (into_wait c).1 u = Done (g, u') ∧ stopped (guard_drop g u')) ∧
    stopped (Consumer_abort c u) ∧ stopped (consumer_drop c u).
Proof.
  intros [= <- <-] u sched deadline clock timeout. split_and!.
  - unfold Consumer_wait. simpl.
    destruct (guard_wait _ u sched) as [r|] eqn:Hw; [eauto using guard_wait_stopped|].
    unfold guard_wait in Hw. simpl in Hw. by repeat case_match.
  - unfold Consumer_cancel. simpl. set (g := mkConsumerWait _ _ _). rewrite instant_add_spec.
    destruct (decide (representable clock timeout)) as [Hr|Hr]; simpl.
    2: { split; [done|]. eexists _, _. split; [reflexivity|]. apply abort_stopped. }
    destruct (wait_until g (send_token u) sched deadline) as [r|] eqn:Hw.
    + apply wait_until_stopped in Hw. destruct r as [[[s|]|e] g' w'|g' w']; simpl; eauto.
    + unfold wait_until, guard_wait in Hw. simpl in Hw.
      destruct (await_task _ sched) as [w' [[]|]], deadline; discriminate Hw.
  - unfold Consumer_abort, into_wait. cbn [c_stream_name c_task c_sender].
    destruct (guard_abort _ u) as [g' w'] eqn:Ha.
    apply guard_drop_stopped. right. by eapply (guard_abort_stopped (mkConsumerWait stream_name (Some ()) (Some ()))) in Ha as (? & _).
  - apply abort_stopped.
Qed.

(** [wait] on a spawned consumer resolves exactly when the driver loop is
    over, with the visitor's output, the stream's read error, or a join error
    if a callback panicked. *)
Lemma consumer_wait_driver stream_name v c w sched :
  spawn_consumer_sync stream_name v = (c, w) → Cancelled ∉ sched →
  ∃ g w', Consumer_wait c w sched = Done
    match consume_sync v sched with
    | Running _ => APending g w'
    | Finished (Ok s) => AReady (Ok s) g w'
    | Finished (Err e) => AReady (Err (StreamRead e)) g w'
    | Panicked => AReady (Err (TaskJoin stream_name JoinPanic)) g w'
    end.
Proof.
  intros [= <- <-] Hsched. unfold Consumer_wait, guard_wait. simpl.
  pose proof (await_task_driver v false sched) as Hd.
  destruct (await_task _ sched) as [w' r] eqn:Ha. apply await_task_join in Ha as <-.
  simpl in Hd. rewrite Hd.
  2: { apply Forall_forall. intros t Ht ->. done. }
  destruct (consume_sync v sched) as [v'|[s|e]|]; simpl; eauto.
Qed.

(** Cancelling is cooperative: given a deadline, if the driver is between two events when it
    sees the cancellation before the deadline, [cancel] returns the output of
    the visitor as it is then; if the deadline passes first the task is
    aborted and joined, and no output is returned. *)
Lemma consumer_cancel_cooperative stream_name v c w ts v' clock timeout :
  representable clock timeout → spawn_consumer_sync stream_name v = (c, w) → consume_sync v ts = Running v' →
  (∃ g w', Consumer_cancel c clock timeout w (ts ++ [Cancelled]) Elapsed =
     Done (AReady (Ok (OutcomeCancelled (into_output v'))) g w')) ∧
  (∃ g w', Consumer_cancel c clock timeout w ts Elapsed = Done (AReady (Ok OutcomeAborted) g w') ∧
     is_Some (join w') ∧ guard_task g = None).
Proof.
  intros Hrep [= <- <-] Hts.
  assert (∀ sched, ∃ w', await_task (mkWorld (Live v false) true) sched = (w', join w') ∧
    w_task w' = task_of (consume_sync v sched)) as Haw.
  { intros sched. pose proof (await_task_driver v true sched) as Hd.
    destruct (await_task _ sched) as [w' r] eqn:Ha. pose proof (await_task_join _ _ _ _ Ha) as <-.
    simpl in Hd. exists w'. rewrite Hd; [done|]. apply Forall_forall. done. }
  unfold Consumer_cancel, wait_until, guard_wait. simpl. rewrite (instant_add_done _ _ Hrep). simpl. unfold send_token. simpl. split.
  - destruct (Haw (ts ++ [Cancelled])) as (w' & -> & Ht).
    unfold join. rewrite Ht, consume_sync_app, Hts. simpl. eauto.
  - destruct (Haw ts) as (w' & -> & Ht). unfold join at 1. rewrite Ht, Hts. simpl.
    destruct (abort_joined w'). eauto.
Qed.

End consumer.
Arguments AReady {V Out A}.
Arguments APending {V Out A}.

(** ** A visitor that counts its chunks *)

Module CountDemo.

Record counter : Type := mkCounter { count : N }.

#[global] Instance counter_visitor : StreamVisitor counter N := {|
  on_chunk v _ := mret (mkCounter (count v + 1), Continue);
  on_gap v := v;
  on_eof v := mret v;
  into_output := count;
|}.

Definition spawned : Consumer * World counter N := spawn_consumer_sync "stdout" (mkCounter 0).
Definition two_chunks : list turn := [Event (Some (Chunk [x61])); Event (Some (Chunk [x62]))].

End CountDemo.

Lemma consumer_never_leaks_witness :
  stopped (consumer_drop CountDemo.spawned.1 CountDemo.spawned.2) ∧
  ∃ r, Consumer_cancel CountDemo.spawned.1 (mkClock 0 UNIX_LAST_INSTANT) (from_secs 1) CountDemo.spawned.2
      CountDemo.two_chunks Elapsed = Done r ∧
    stopped (settle r).
Proof.
  destruct (consumer_never_leaks "stdout" (CountDemo.mkCounter 0) _ _ eq_refl CountDemo.spawned.2
    CountDemo.two_chunks Elapsed (mkClock 0 UNIX_LAST_INSTANT) (from_secs 1)) as (_ & Hc & _ & Hd).
  split; [exact Hd|exact Hc].
Defined.

(** The longest timeout makes [cancel] panic on Unix, whatever the clock says. *)
Lemma cancel_duration_max_panics {V Out} `{StreamVisitor V Out} (c : Consumer) t (w : World V Out) sched deadline :
  Consumer_cancel c (mkClock t UNIX_LAST_INSTANT) DURATION_MAX w sched deadline = Panic.
Proof.
  unfold Consumer_cancel. destruct (into_wait c) as [g ?]. destruct (guard_cancel g w) as [[g' w']|]; [|done].
  cbn. by rewrite (instant_add_panic _ _ (duration_max_unrepresentable t)).
Qed.

