(* ===== verification/Retention.v ===== *)
(** * Replay retention

    What the replay policies of [src/output_stream/policy.rs] promise: which
    chunks of a stream's history are retained for later subscribers.  This is
    the specification both stream backends implement with their deques and
    counters. *)

From S2P Require Import Prelude Stream.

Section retention.
(** The elements of a history (chunks, possibly with more information). *)
Context {A : Type} (size : A → N).

(** The number of bytes of a history. *)
Definition total_bytes (cs : list A) : N := foldr (λ c n, size c + n) 0 cs.

(** The last [n] chunks. *)
Fixpoint retain_chunks (n : N) (hist : list A) : list A :=
  match hist with
  | [] => []
  | _ :: hist' => if n <? len hist then retain_chunks n hist' else hist
  end.

(** The fewest newest whole chunks that hold [n] bytes. *)
Fixpoint retain_bytes (n : N) (hist : list A) : list A :=
  match hist with
  | [] => []
  | _ :: hist' => if n <=? total_bytes hist' then retain_bytes n hist' else hist
  end.

Definition retain (r : ReplayRetention) (hist : list A) : list A :=
  match r with
  | LastChunks n => retain_chunks n hist
  | LastBytes n => retain_bytes (bytes n) hist
  | All => hist
  end.

Lemma total_bytes_app cs ds : total_bytes (cs ++ ds) = total_bytes cs + total_bytes ds.
Proof. induction cs as [|c cs IH]; simpl; [done|]. rewrite IH. lia. Qed.

Lemma retain_chunks_suffix n hist : retain_chunks n hist `suffix_of` hist.
Proof.
  induction hist as [|c hist IH]; [done|]. cbn [retain_chunks].
  case_match; [by apply suffix_cons_r|done].
Qed.

Lemma retain_bytes_suffix n hist : retain_bytes n hist `suffix_of` hist.
Proof.
  induction hist as [|c hist IH]; [done|]. cbn [retain_bytes].
  case_match; [by apply suffix_cons_r|done].
Qed.

Lemma retain_suffix r hist : retain r hist `suffix_of` hist.
Proof. destruct r; simpl; auto using retain_chunks_suffix, retain_bytes_suffix. Qed.

Lemma retain_chunks_push n hist c :
  retain_chunks n (retain_chunks n hist ++ [c]) = retain_chunks n (hist ++ [c]).
Proof.
  induction hist as [|d hist IH]; [done|]. cbn [retain_chunks app].
  destruct (N.ltb_spec n (len (d :: hist))); [|done]. rewrite IH.
  destruct (N.ltb_spec n (len (d :: hist ++ [c]))) as [|Hlt]; [done|].
  rewrite len_cons, len_app in Hlt. rewrite len_cons in *. lia.
Qed.

Lemma retain_bytes_push n hist c :
  retain_bytes n (retain_bytes n hist ++ [c]) = retain_bytes n (hist ++ [c]).
Proof.
  induction hist as [|d hist IH]; [done|]. cbn [retain_bytes app].
  destruct (N.leb_spec n (total_bytes hist)); [|done]. rewrite IH.
  destruct (N.leb_spec n (total_bytes (hist ++ [c]))) as [|Hlt]; [done|].
  rewrite total_bytes_app in Hlt. lia.
Qed.

(** A chunk that was dropped need never be looked at again: retaining is
    incremental. *)
Lemma retain_push r hist c : retain r (retain r hist ++ [c]) = retain r (hist ++ [c]).
Proof. destruct r; simpl; auto using retain_chunks_push, retain_bytes_push. Qed.

Lemma retain_chunks_len n hist : len (retain_chunks n hist) = n `min` len hist.
Proof.
  induction hist as [|c hist IH]; [cbn; len_lia|]. cbn [retain_chunks].
  destruct (N.ltb_spec n (len (c :: hist))); [rewrite IH|]; rewrite len_cons in *; lia.
Qed.

(** The byte window holds the bytes asked for, if the history has them, and
    one chunk less would not. *)
Lemma retain_bytes_enough n hist :
  n `min` total_bytes hist ≤ total_bytes (retain_bytes n hist).
Proof.
  induction hist as [|c hist IH]; simpl; [lia|]. case_match eqn:Hc; simpl; [|lia].
  apply N.leb_le in Hc. lia.
Qed.

Lemma retain_bytes_minimal n hist c kept :
  retain_bytes n hist = c :: kept → total_bytes kept < n.
Proof.
  induction hist as [|d hist IH]; simpl; [done|]. case_match eqn:Hc; [done|].
  intros [= <- <-]. by apply N.leb_gt.
Qed.

Lemma retain_chunks_all n hist : len hist ≤ n → retain_chunks n hist = hist.
Proof.
  destruct hist as [|c hist]; [done|]. intros Hle. cbn [retain_chunks].
  by rewrite (proj2 (N.ltb_ge _ _)).
Qed.

Lemma total_bytes_suffix l k : l `suffix_of` k → total_bytes l ≤ total_bytes k.
Proof. intros [pre ->]. rewrite total_bytes_app. lia. Qed.

End retention.

(** Retaining looks only at the sizes. *)
Lemma total_bytes_fmap {A B} (f : A → B) (size : B → N) l :
  total_bytes size (f <$> l) = total_bytes (size ∘ f) l.
Proof.
  induction l as [|a l IH]; [done|]. rewrite fmap_cons. unfold total_bytes in *. simpl.
  by rewrite IH.
Qed.

Lemma retain_fmap {A B} (f : A → B) (size : B → N) r l :
  retain size r (f <$> l) = f <$> retain (size ∘ f) r l.
Proof.
  destruct r as [n|n|]; [| |done]; unfold retain; induction l as [|a l IH]; try done;
    rewrite fmap_cons; cbn [retain_chunks retain_bytes]; rewrite IH.
  - rewrite !len_cons. unfold len. rewrite length_fmap. by case_match.
  - rewrite total_bytes_fmap. by case_match.
Qed.

(** The retention of plain chunks. *)
Definition retain_history (r : ReplayRetention) (hist : list chunk) : list chunk :=
  retain len r hist.

(** ** Logs: the events a reader has appended *)

Definition is_chunk (e : StreamEvent) : bool :=
  match e with Chunk _ => true | Gap | Eof | ReadError _ => false end.

(** The chunks of a log. *)
Definition log_chunks (log : list StreamEvent) : list chunk :=
  event_bytes <$> filter (λ e, is_chunk e = true) log.

(** Fewer than 2^64 events and bytes: the counters do not wrap. *)
Definition small_log (log : list StreamEvent) : Prop :=
  len log < word_modulus ∧ total_bytes (λ e, len (event_bytes e)) log < word_modulus.

Lemma log_chunks_app l k : log_chunks (l ++ k) = log_chunks l ++ log_chunks k.
Proof. unfold log_chunks. by rewrite filter_app, fmap_app. Qed.

Lemma total_log_chunks log :
  total_bytes len (log_chunks log) ≤ total_bytes (λ e, len (event_bytes e)) log.
Proof.
  induction log as [|e log IH]; [done|]. change (e :: log) with ([e] ++ log).
  rewrite log_chunks_app, !total_bytes_app. destruct e; simpl in *; lia.
Qed.

Lemma length_log_chunks log : len (log_chunks log) ≤ len log.
Proof. unfold log_chunks, len. rewrite length_fmap. pose proof (length_filter (λ e, is_chunk e = true) log). lia. Qed.

Lemma filter_terminal_chunks (cs : list chunk) : filter (λ e, is_terminal e = true) (Chunk <$> cs) = [].
Proof. induction cs as [|c cs IH]; [done|]. by rewrite fmap_cons, filter_cons_False. Qed.

Lemma filter_chunk_chunks (cs : list chunk) : filter (λ e, is_chunk e = true) (Chunk <$> cs) = Chunk <$> cs.
Proof. induction cs as [|c cs IH]; [done|]. by rewrite fmap_cons, filter_cons_True, IH. Qed.

Lemma log_chunks_chunks (cs : list chunk) : log_chunks (Chunk <$> cs) = cs.
Proof.
  induction cs as [|c cs IH]; [done|]. unfold log_chunks in *.
  by rewrite fmap_cons, filter_cons_True, fmap_cons, IH.
Qed.

Definition small_logb (log : list StreamEvent) : bool :=
  (len log <? word_modulus) && (total_bytes (λ e, len (event_bytes e)) log <? word_modulus).

Lemma small_logb_spec log : small_logb log = true → small_log log.
Proof. by intros [Hl%N.ltb_lt Hb%N.ltb_lt]%andb_true_iff. Qed.
