(* ===== verification/Broadcast.v ===== *)
(** * The broadcast backend: state and operations

    Models [src/output_stream/backend/broadcast/]: the best-effort queue and
    the shared replay state of [state.rs], the dispatch of [append_event], the
    subscription of [subscription.rs] and [try_subscribe] of [mod.rs] for the
    fan-out path, and the events both readers make of what they read.

    A channel is shared by the registry and its subscription; it lives in a
    store keyed by the subscriber's id.  The bounded [tokio::sync::mpsc]
    channel is the class [Mpsc].  [BroadcastSystem] puts the operations
    together into a concurrent system. *)

From S2P Require Import Prelude Stream Retention.

(** ** Library interfaces *)

Inductive send_result : Type := Sent | Full | Closed.

(** [tokio::sync::mpsc]: a bounded queue with two ends that can be dropped.
    [channel] panics on a capacity of zero and on one beyond the permits a
    semaphore can hold. *)
Class Mpsc (M E : Type) := {
  mpsc_channel : N → outcome M;
  mpsc_contents : M → list E;
  mpsc_capacity : M → N;
  mpsc_tx_open : M → bool;
  mpsc_rx_open : M → bool;
  mpsc_try_send : M → E → M * send_result;
  mpsc_recv : M → poll (option E) * M;
  mpsc_drop_tx : M → M;
  mpsc_drop_rx : M → M;
}.

Definition mpsc_view {M E} `{Mpsc M E} (m : M) : list E * N * bool * bool :=
  (mpsc_contents m, mpsc_capacity m, mpsc_tx_open m, mpsc_rx_open m).

(** [Semaphore::MAX_PERMITS]. *)
Definition MAX_PERMITS : N := Eval cbv in (usize_max / 8).

Class MpscLaws (M E : Type) `{Mpsc M E} : Prop := {
  mpsc_channel_spec n :
    if (0 <? n) && (n <=? MAX_PERMITS)
    then ∃ m : M, mpsc_channel n = Done m ∧ mpsc_view m = ([], n, true, true)
    else mpsc_channel (M := M) n = Panic;
  mpsc_try_send_spec m e :
    if mpsc_rx_open m then
      if mpsc_capacity m <=? len (mpsc_contents m)
      then mpsc_try_send m e = (m, Full)
      else (mpsc_try_send m e).2 = Sent ∧
           mpsc_view (mpsc_try_send m e).1 =
             (mpsc_contents m ++ [e], mpsc_capacity m, mpsc_tx_open m, true)
    else mpsc_try_send m e = (m, Closed);
  mpsc_recv_spec m :
    match mpsc_contents m with
    | e :: es => (mpsc_recv m).1 = Ready (Some e) ∧
        mpsc_view (mpsc_recv m).2 = (es, mpsc_capacity m, mpsc_tx_open m, mpsc_rx_open m)
    | [] => mpsc_recv m = (if mpsc_tx_open m then Pending else Ready None, m)
    end;
  mpsc_drop_tx_view m : mpsc_view (mpsc_drop_tx m) =
    (mpsc_contents m, mpsc_capacity m, false, mpsc_rx_open m);
  mpsc_drop_rx_view m : mpsc_view (mpsc_drop_rx m) =
    (mpsc_contents m, mpsc_capacity m, mpsc_tx_open m, false);
}.

Lemma mpsc_channel_done {M E} `{MpscLaws M E} n (m : M) :
  mpsc_channel n = Done m → 0 < n ≤ MAX_PERMITS ∧ mpsc_view m = ([], n, true, true).
Proof.
  intros Hn. pose proof (mpsc_channel_spec (M := M) n) as Hs.
  destruct ((0 <? n) && (n <=? MAX_PERMITS)) eqn:Hc; [|congruence].
  apply andb_true_iff in Hc as [?%N.ltb_lt ?%N.leb_le].
  destruct Hs as (m' & Hm & Hv). replace m with m' by congruence. done.
Qed.

Lemma mpsc_channel_total {M E} `{MpscLaws M E} n :
  0 < n ≤ MAX_PERMITS → ∃ m : M, mpsc_channel n = Done m.
Proof.
  intros [?%N.ltb_lt ?%N.leb_le]. pose proof (mpsc_channel_spec (M := M) n) as Hs.
  rewrite (proj2 (andb_true_iff _ _)) in Hs by done. destruct Hs as (m & Hm & _). eauto.
Qed.

(** A reference channel, for evaluation. *)
Record ref_mpsc (E : Type) : Type := mkRefMpsc {
  rm_contents : list E; rm_capacity : N; rm_tx : bool; rm_rx : bool }.
Arguments mkRefMpsc {E}.
Arguments rm_contents {E}.
Arguments rm_capacity {E}.
Arguments rm_tx {E}.
Arguments rm_rx {E}.

#[export] Instance ref_mpsc_ops {E} : Mpsc (ref_mpsc E) E := {|
  mpsc_channel n :=
    if (0 <? n) && (n <=? MAX_PERMITS) then Done (mkRefMpsc [] n true true) else Panic;
  mpsc_contents := rm_contents;
  mpsc_capacity := rm_capacity;
  mpsc_tx_open := rm_tx;
  mpsc_rx_open := rm_rx;
  mpsc_try_send m e :=
    if rm_rx m then
      if rm_capacity m <=? len (rm_contents m) then (m, Full)
      else (mkRefMpsc (rm_contents m ++ [e]) (rm_capacity m) (rm_tx m) true, Sent)
    else (m, Closed);
  mpsc_recv m :=
    match rm_contents m with
    | e :: es => (Ready (Some e), mkRefMpsc es (rm_capacity m) (rm_tx m) (rm_rx m))
    | [] => (if rm_tx m then Pending else Ready None, m)
    end;
  mpsc_drop_tx m := mkRefMpsc (rm_contents m) (rm_capacity m) false (rm_rx m);
  mpsc_drop_rx m := mkRefMpsc (rm_contents m) (rm_capacity m) (rm_tx m) false;
|}.

#[export] Instance ref_mpsc_laws {E} : MpscLaws (ref_mpsc E) E.
Proof.
  split; intros; simpl; try done.
  - destruct ((0 <? n) && (n <=? MAX_PERMITS)); eauto.
  - by destruct (rm_rx m); [destruct (rm_capacity m <=? _)|].
  - destruct m as [[] ? ? ?]; done.
Qed.

(** ** Events with their position in the stream *)

Abbreviation SubscriberId := N (only parsing).

Record IndexedEvent : Type := mkIndexed { seq : N; event : StreamEvent }.

#[export] Instance IndexedEvent_eq_dec : EqDecision IndexedEvent.
Proof. solve_decision. Defined.

(** ** The best-effort queue *)

Record BestEffortLiveQueue : Type := mkQueue {
  q_capacity : N;
  q_events : list IndexedEvent;
  q_closed : bool;
}.

Module BestEffortLiveQueue.

Definition new (capacity : N) : BestEffortLiveQueue := mkQueue capacity [] false.

(** Returns the queue and whether it accepted the event. *)
Definition push (q : BestEffortLiveQueue) (e : IndexedEvent) : BestEffortLiveQueue * bool :=
  if q_closed q then (q, false)
  else
    match event e with
    | Chunk _ | Gap =>
        if q_capacity q <=? len (q_events q) then
          let events := [mkIndexed (seq e) Gap] in
          let events := if 1 <? q_capacity q then events ++ [e] else events in
          (mkQueue (q_capacity q) events false, true)
        else (mkQueue (q_capacity q) (q_events q ++ [e]) false, true)
    | Eof | ReadError _ => (mkQueue (q_capacity q) (q_events q ++ [e]) true, true)
    end.

(** One turn of the loop of [recv]: [Pending] waits for the next push. *)
Definition recv (q : BestEffortLiveQueue) : poll (option IndexedEvent) * BestEffortLiveQueue :=
  match q_events q with
  | e :: es => (Ready (Some e), mkQueue (q_capacity q) es (q_closed q))
  | [] => if q_closed q then (Ready None, q) else (Pending, q)
  end.

Definition close (q : BestEffortLiveQueue) : BestEffortLiveQueue :=
  mkQueue (q_capacity q) (q_events q) true.

End BestEffortLiveQueue.

(** ** The shared state *)

(** Which kind of channel a subscriber has; the channel is in the store under
    the subscriber's id. *)
Inductive SubscriberSender : Type := SReliable | SBestEffort.

Record BroadcastState : Type := mkBroadcastState {
  bs_replay : list IndexedEvent;
  next_seq : N;
  replay_start_seq : N;
  replay_chunk_count : N;
  replay_byte_count : N;
  next_subscriber_id : SubscriberId;
  subscribers : gmap SubscriberId SubscriberSender;
  replay_sealed : bool;
  terminal : option IndexedEvent;
  closed : bool;
}.

Module BroadcastState.

Definition new : BroadcastState := mkBroadcastState [] 0 0 0 0 0 ∅ false None false.

(** Replaces the replay window and its counters. *)
Definition with_replay (s : BroadcastState) (replay : list IndexedEvent)
    (start chunks bytes : N) : BroadcastState :=
  mkBroadcastState replay (next_seq s) start chunks bytes (next_subscriber_id s)
    (subscribers s) (replay_sealed s) (terminal s) (closed s).

Definition with_subscribers (s : BroadcastState) (id : SubscriberId)
    (subs : gmap SubscriberId SubscriberSender) : BroadcastState :=
  mkBroadcastState (bs_replay s) (next_seq s) (replay_start_seq s) (replay_chunk_count s)
    (replay_byte_count s) id subs (replay_sealed s) (terminal s) (closed s).

Definition clear_replay (s : BroadcastState) : BroadcastState :=
  with_replay s [] (replay_start_seq s) 0 0.

(** [self.replay.front().map_or(self.next_seq, |event| event.seq)]. *)
Definition front_seq (s : BroadcastState) (replay : list IndexedEvent) : N :=
  match replay with [] => next_seq s | e :: _ => seq e end.

Definition pop_replay_front (s : BroadcastState) : option (IndexedEvent * BroadcastState) :=
  match bs_replay s with
  | [] => None
  | e :: rest =>
      let '(chunks, bytes) :=
        match event e with
        | Chunk c => (replay_chunk_count s -! 1, replay_byte_count s -! len c)
        | _ => (replay_chunk_count s, replay_byte_count s)
        end in
      Some (e, with_replay s rest (front_seq s rest) chunks bytes)
  end.

(** [while self.replay_chunk_count > chunks { pop }]; with an empty deque the
    loop of the source would not end, here it stops. *)
Fixpoint trim_chunks (fuel : nat) (s : BroadcastState) (chunks : N) : BroadcastState :=
  match fuel with
  | O => s
  | S fuel =>
      if chunks <? replay_chunk_count s then
        match pop_replay_front s with
        | Some (_, s) => trim_chunks fuel s chunks
        | None => s
        end
      else s
  end.

Fixpoint trim_bytes (fuel : nat) (s : BroadcastState) (n : N) : BroadcastState :=
  match fuel with
  | O => s
  | S fuel =>
      match bs_replay s with
      | [] => s
      | e :: _ =>
          match event e with
          | Chunk c =>
              if n <=? saturating_sub (replay_byte_count s) (len c) then
                match pop_replay_front s with
                | Some (_, s) => trim_bytes fuel s n
                | None => s
                end
              else s
          | Gap | Eof | ReadError _ => s
          end
      end
  end.

Definition trim_replay_window (s : BroadcastState) (retention : option ReplayRetention)
    : BroadcastState :=
  let s :=
    match retention with
    | None | Some (LastChunks 0) => clear_replay s
    | Some r =>
        if replay_sealed s then clear_replay s
        else match r with
             | LastBytes n =>
                 if bytes n =? 0 then clear_replay s
                 else trim_bytes (length (bs_replay s)) s (bytes n)
             | LastChunks n => trim_chunks (length (bs_replay s)) s n
             | All => s
             end
    end in
  with_replay s (bs_replay s) (front_seq s (bs_replay s)) (replay_chunk_count s)
    (replay_byte_count s).

(** [push_event]; only the retention of the configuration matters to it. *)
Definition push_event (s : BroadcastState) (e : StreamEvent) (retention : option ReplayRetention)
    : IndexedEvent * BroadcastState :=
  let indexed := mkIndexed (next_seq s) e in
  let s := mkBroadcastState (bs_replay s) (next_seq s +! 1) (replay_start_seq s)
    (replay_chunk_count s) (replay_byte_count s) (next_subscriber_id s) (subscribers s)
    (replay_sealed s) (terminal s) (closed s) in
  let s :=
    match e with
    | Chunk c =>
        if bool_decide (is_Some retention) && negb (replay_sealed s) then
          trim_replay_window
            (with_replay s (bs_replay s ++ [indexed]) (replay_start_seq s)
               (replay_chunk_count s +! 1) (replay_byte_count s +! len c))
            retention
        else s
    | Eof | ReadError _ =>
        mkBroadcastState (bs_replay s) (next_seq s) (replay_start_seq s)
          (replay_chunk_count s) (replay_byte_count s) (next_subscriber_id s) (subscribers s)
          (replay_sealed s) (Some indexed) (closed s)
    | Gap => s
    end in
  (indexed, s).

Definition replay_snapshot (s : BroadcastState) (retention : option ReplayRetention)
    : list IndexedEvent * N :=
  let snapshot :=
    if bool_decide (is_Some retention) && negb (replay_sealed s) then bs_replay s else [] in
  (snapshot ++ (match terminal s with Some t => [t] | None => [] end), next_seq s).

Definition add_subscriber (s : BroadcastState) (sender : SubscriberSender)
    : SubscriberId * BroadcastState :=
  let id := next_subscriber_id s in
  (id, with_subscribers s (id +! 1) (<[id := sender]> (subscribers s))).

Definition remove_subscriber (s : BroadcastState) (id : SubscriberId) : BroadcastState :=
  with_subscribers s (next_subscriber_id s) (delete id (subscribers s)).

Definition clear_subscribers (s : BroadcastState) : BroadcastState :=
  with_subscribers s (next_subscriber_id s) ∅.

Definition seal_replay (s : BroadcastState) : BroadcastState :=
  mkBroadcastState [] (next_seq s) (next_seq s) 0 0 (next_subscriber_id s) (subscribers s)
    true (terminal s) (closed s).

(** The queues of the best-effort subscribers are closed by the caller, which
    owns the store. *)
Definition close_for_drop (s : BroadcastState) : BroadcastState :=
  mkBroadcastState (bs_replay s) (next_seq s) (replay_start_seq s) (replay_chunk_count s)
    (replay_byte_count s) (next_subscriber_id s) ∅ (replay_sealed s) (terminal s) true.

End BroadcastState.

(** ** The replay window implements the retention *)

Section window.
Import BroadcastState.

Definition chunk_of (e : IndexedEvent) : chunk := event_bytes (event e).
Definition event_size (e : IndexedEvent) : N := len (chunk_of e).

(** A state whose window is [kept], with exact counters. *)
Definition counted_replay (s : BroadcastState) (kept : list IndexedEvent) (start : N) : BroadcastState :=
  with_replay s kept start (len kept) (total_bytes event_size kept).

Definition chunks_only (l : list IndexedEvent) : Prop := Forall (λ e, is_chunk (event e) = true) l.

Definition small_window (l : list IndexedEvent) : Prop :=
  len l < word_modulus ∧ total_bytes event_size l < word_modulus.

Lemma small_window_suffix l k : l `suffix_of` k → small_window k → small_window l.
Proof.
  intros Hs [Hl Hb]. pose proof (total_bytes_suffix event_size l k Hs).
  apply suffix_length in Hs. split; unfold len in *; lia.
Qed.

Lemma pop_counted s e l start :
  is_chunk (event e) = true → small_window (e :: l) →
  pop_replay_front (counted_replay s (e :: l) start) =
    Some (e, counted_replay s l (front_seq s l)).
Proof.
  intros He [Hl Hb]. unfold pop_replay_front, counted_replay, with_replay. simpl in *.
  destruct (event e) as [c| | |] eqn:Hev; try done. simpl in *.
  unfold event_size, chunk_of in *. rewrite Hev in *. simpl in *. rewrite len_cons in *.
  rewrite !wrapping_sub_small by lia. do 3 f_equal; lia.
Qed.

Lemma trim_chunks_spec fuel s kept start n :
  chunks_only kept → small_window kept → (length kept ≤ fuel)%nat →
  ∃ start', trim_chunks fuel (counted_replay s kept start) n =
    counted_replay s (retain_chunks n kept) start'.
Proof.
  revert kept start. induction fuel as [|fuel IH]; intros kept start Hc Hs Hf.
  { destruct kept; simpl in *; [eauto|lia]. }
  cbn [trim_chunks]. change (replay_chunk_count (counted_replay s kept start)) with (len kept).
  destruct kept as [|e kept].
  { simpl. case_match; [|eauto]. unfold counted_replay, pop_replay_front. simpl. eauto. }
  apply Forall_cons in Hc as [He Hc]. cbn [retain_chunks].
  destruct (n <? len (e :: kept)); [|eauto].
  rewrite pop_counted by done. apply IH; [done| |simpl in *; lia].
  eapply small_window_suffix; [|done]. by apply suffix_cons_r.
Qed.

Lemma trim_bytes_spec fuel s kept start n :
  chunks_only kept → small_window kept → (length kept ≤ fuel)%nat →
  ∃ start', trim_bytes fuel (counted_replay s kept start) n =
    counted_replay s (retain_bytes event_size n kept) start'.
Proof.
  revert kept start. induction fuel as [|fuel IH]; intros kept start Hc Hs Hf.
  { destruct kept; simpl in *; [eauto|lia]. }
  destruct kept as [|e kept]; [simpl; eauto|].
  apply Forall_cons in Hc as [He Hc]. pose proof (pop_counted s e kept start He Hs) as Hpop.
  cbn [trim_bytes]. change (bs_replay (counted_replay s (e :: kept) start)) with (e :: kept).
  cbv iota beta. destruct (event e) as [c| | |] eqn:Hev; try done.
  change (replay_byte_count (counted_replay s (e :: kept) start))
    with (event_size e + total_bytes event_size kept).
  replace (event_size e) with (len c) by (unfold event_size, chunk_of; by rewrite Hev).
  unfold saturating_sub. replace (len c + total_bytes event_size kept - len c)
    with (total_bytes event_size kept) by lia.
  cbn [retain_bytes]. destruct (n <=? total_bytes event_size kept); [|eauto].
  rewrite Hpop. apply IH; [done| |simpl in *; lia].
  eapply small_window_suffix; [|done]. by apply suffix_cons_r.
Qed.

Lemma trim_replay_window_spec s kept start r :
  replay_sealed s = false → chunks_only kept → small_window kept →
  trim_replay_window (counted_replay s kept start) (Some r) =
    counted_replay s (retain event_size r kept) (front_seq s (retain event_size r kept)).
Proof.
  intros Hsealed Hc Hs. unfold trim_replay_window.
  change (replay_sealed (counted_replay s kept start)) with (replay_sealed s). rewrite Hsealed.
  change (bs_replay (counted_replay s kept start)) with kept.
  destruct r as [n|n|]; [| |done].
  - destruct (decide (n = 0)) as [->|Hn].
    { assert (retain_chunks 0 kept = []) as Hnil.
      { apply len_zero. rewrite retain_chunks_len. lia. }
      simpl. by rewrite Hnil. }
    destruct (trim_chunks_spec (length kept) s kept start n Hc Hs) as [start' Ht]; [lia|].
    destruct n; [done|]. rewrite Ht. done.
  - destruct (N.eqb_spec (bytes n) 0) as [Hn|Hn].
    { assert (retain_bytes event_size 0 kept = []) as Hnil.
      { clear. induction kept as [|e kept IH]; simpl; [done|]. by rewrite (proj2 (N.leb_le _ _)) by lia. }
      simpl. by rewrite Hn, Hnil. }
    destruct (trim_bytes_spec (length kept) s kept start (bytes n) Hc Hs) as [start' Ht]; [lia|].
    rewrite Ht. done.
Qed.

(** Trimming changes nothing but the window and its counters. *)
Definition same_but_replay (s s' : BroadcastState) : Prop :=
  ∃ kept start n b, s' = with_replay s kept start n b.

Lemma same_but_replay_refl s : same_but_replay s s.
Proof. exists (bs_replay s), (replay_start_seq s), (replay_chunk_count s), (replay_byte_count s). by destruct s. Qed.

Lemma same_but_replay_trans s1 s2 s3 :
  same_but_replay s1 s2 → same_but_replay s2 s3 → same_but_replay s1 s3.
Proof. intros (? & ? & ? & ? & ->) (k & st & n & b & ->). by exists k, st, n, b. Qed.

Lemma same_but_replay_with s k st n b : same_but_replay s (with_replay s k st n b).
Proof. by exists k, st, n, b. Qed.

Lemma pop_same s e s' : pop_replay_front s = Some (e, s') → same_but_replay s s'.
Proof.
  unfold pop_replay_front. destruct (bs_replay s) as [|x l]; [done|].
  destruct (match event x with Chunk _ => _ | _ => _ end). intros [= <- <-].
  apply same_but_replay_with.
Qed.

Lemma trim_same s r : same_but_replay s (trim_replay_window s r).
Proof.
  unfold trim_replay_window. eapply same_but_replay_trans; [|apply same_but_replay_with].
  assert (∀ fuel s n, same_but_replay s (trim_chunks fuel s n)) as Hc.
  { intros fuel. induction fuel as [|fuel IH]; intros s' n; simpl; [apply same_but_replay_refl|].
    case_match; [|apply same_but_replay_refl].
    destruct (pop_replay_front s') as [[e s'']|] eqn:Hp; [|apply same_but_replay_refl].
    eapply same_but_replay_trans; [by eapply pop_same|apply IH]. }
  assert (∀ fuel s n, same_but_replay s (trim_bytes fuel s n)) as Hb.
  { intros fuel. induction fuel as [|fuel IH]; intros s' n; simpl; [apply same_but_replay_refl|].
    destruct (bs_replay s') as [|x l]; [apply same_but_replay_refl|].
    destruct (event x); try apply same_but_replay_refl.
    case_match; [|apply same_but_replay_refl].
    destruct (pop_replay_front s') as [[e s'']|] eqn:Hp; [|apply same_but_replay_refl].
    eapply same_but_replay_trans; [by eapply pop_same|apply IH]. }
  unfold clear_replay. repeat case_match; auto using same_but_replay_with, same_but_replay_refl.
Qed.

(** Exact counters. *)
Definition replay_counted (s : BroadcastState) : Prop :=
  replay_chunk_count s = len (bs_replay s) ∧
  replay_byte_count s = total_bytes event_size (bs_replay s).

(** Pushing a chunk appends it and trims the window to the retention. *)
Lemma push_chunk_window r s c :
  let indexed := mkIndexed (next_seq s) (Chunk c) in
  replay_sealed s = false → replay_counted s → chunks_only (bs_replay s) →
  small_window (bs_replay s ++ [indexed]) →
  let s' := (push_event s (Chunk c) (Some r)).2 in
  bs_replay s' = retain event_size r (bs_replay s ++ [indexed]) ∧ replay_counted s' ∧
  replay_start_seq s' = front_seq s' (bs_replay s').
Proof.
  intros indexed Hsealed [Hn Hb] Hc [Hl Ht]. unfold push_event. cbn [snd].
  rewrite bool_decide_eq_true_2 by eauto. cbn [replay_sealed]. rewrite Hsealed. cbn [negb andb].
  set (s0 := mkBroadcastState _ _ _ _ _ _ _ _ _ _). fold indexed.
  assert (with_replay s0 (bs_replay s0 ++ [indexed]) (replay_start_seq s0)
      (replay_chunk_count s0 +! 1) (replay_byte_count s0 +! len c)
    = counted_replay s0 (bs_replay s ++ [indexed]) (replay_start_seq s)) as ->.
  { unfold counted_replay. subst s0. simpl. rewrite Hn, Hb.
    rewrite !len_app, !total_bytes_app in *. change (len [indexed]) with 1 in *.
    assert (total_bytes event_size [indexed] = len c) as Hone.
    { change (len c + 0 = len c). lia. }
    rewrite Hone in *. by rewrite (wrapping_add_small (len _)), (wrapping_add_small (total_bytes _ _)) by lia. }
  rewrite trim_replay_window_spec; [by split_and!|done| |done].
  apply Forall_app. split; [done|by repeat constructor].
Qed.

End window.

(** ** Channels, subscriptions and dispatch of the fan-out path *)

Inductive live_chan (M : Type) : Type :=
| ChReliable (m : M)
| ChBestEffort (q : BestEffortLiveQueue).
Arguments ChReliable {M}.
Arguments ChBestEffort {M}.

(** The receiving end: the key of its channel in the store. *)
Inductive LiveReceiver : Type :=
| LReliable (key : SubscriberId)
| LBestEffort (key : SubscriberId)
| LClosed.

Record SharedSubscription : Type := mkShared {
  ss_id : option SubscriberId;
  ss_replay : list IndexedEvent;
  live_start_seq : N;
  live_receiver : LiveReceiver;
  ss_done : bool;
}.

(** The channels, by the id of their subscriber. *)
Abbreviation store M := (gmap SubscriberId (live_chan M)).

Section fanout.
Context {M : Type} `{Mpsc M IndexedEvent}.

Implicit Types (st : store M) (bs : BroadcastState) (sub : SharedSubscription).

Definition chan_recv (c : live_chan M) : poll (option IndexedEvent) * live_chan M :=
  match c with
  | ChReliable m => let '(r, m) := mpsc_recv m in (r, ChReliable m)
  | ChBestEffort q => let '(r, q) := BestEffortLiveQueue.recv q in (r, ChBestEffort q)
  end.

Definition live_key (l : LiveReceiver) : option SubscriberId :=
  match l with LReliable k | LBestEffort k => Some k | LClosed => None end.

(** [LiveReceiver::recv], one poll. *)
Definition live_recv (l : LiveReceiver) st : poll (option IndexedEvent) * store M :=
  match live_key l with
  | None => (Ready None, st)
  | Some key =>
      match st !! key with
      | None => (Ready None, st)
      | Some c => let '(r, c) := chan_recv c in (r, <[key := c]> st)
      end
  end.

Definition detach sub bs : SharedSubscription * BroadcastState :=
  (mkShared None (ss_replay sub) (live_start_seq sub) (live_receiver sub) true,
   match ss_id sub with Some id => BroadcastState.remove_subscriber bs id | None => bs end).

(** An event on its way out: a terminal one detaches the subscription. *)
Definition hand_out (e : IndexedEvent) sub bs
    : poll (option StreamEvent) * SharedSubscription * BroadcastState :=
  let '(sub, bs) := if is_terminal (event e) then detach sub bs else (sub, bs) in
  (Ready (Some (event e)), sub, bs).

(** The loop over the live receiver, which skips events before the
    subscription's start. *)
Fixpoint recv_live_loop (fuel : nat) sub bs st
    : poll (option StreamEvent) * SharedSubscription * BroadcastState * store M :=
  match fuel with
  | O => (Pending, sub, bs, st)
  | S fuel =>
      let '(r, st) := live_recv (live_receiver sub) st in
      match r with
      | Pending => (Pending, sub, bs, st)
      | Ready None => (Ready None, sub, bs, st)
      | Ready (Some e) =>
          if seq e <? live_start_seq sub then recv_live_loop fuel sub bs st
          else (hand_out e sub bs, st)
      end
  end.

Definition chan_contents (c : live_chan M) : list IndexedEvent :=
  match c with ChReliable m => mpsc_contents m | ChBestEffort q => q_events q end.

Definition contents_at st (key : option SubscriberId) : list IndexedEvent :=
  match key ≫= λ k, st !! k with Some c => chan_contents c | None => [] end.

(** [SharedSubscription::recv], one poll.  Each turn of the loop takes an
    event out of the channel. *)
Definition shared_recv sub bs st
    : poll (option StreamEvent) * SharedSubscription * BroadcastState * store M :=
  match ss_replay sub with
  | e :: rest =>
      let sub := mkShared (ss_id sub) rest (live_start_seq sub) (live_receiver sub) (ss_done sub) in
      (hand_out e sub bs, st)
  | [] =>
      recv_live_loop (S (length (contents_at st (live_key (live_receiver sub))))) sub bs st
  end.

(** Dropping the subscription unregisters it and drops the receiving end. *)
Definition shared_drop sub bs st : BroadcastState * store M :=
  let bs :=
    if ss_done sub then bs
    else match ss_id sub with
         | Some id => BroadcastState.remove_subscriber bs id
         | None => bs
         end in
  (bs,
   match live_key (live_receiver sub) with
   | Some key =>
       match st !! key with
       | Some (ChReliable m) => <[key := ChReliable (mpsc_drop_rx m)]> st
       | _ => st
       end
   | None => st
   end).

(** The channel of a new subscriber. *)
Definition new_channel (g : DeliveryGuarantee) (buffered : N) : outcome (SubscriberSender * live_chan M) :=
  match g with
  | GReliableWithBackpressure => m ← mpsc_channel buffered; mret (SReliable, ChReliable m)
  | GLossyWithoutBackpressure => mret (SBestEffort, ChBestEffort (BestEffortLiveQueue.new buffered))
  end.

(** [try_subscribe] of the fan-out backend. *)
Definition fanout_subscribe (g : DeliveryGuarantee) (retention : option ReplayRetention)
    (buffered : N) bs st : outcome (SharedSubscription * BroadcastState * store M) :=
  '(sender, chan) ← new_channel g buffered;
  let '(replay, start) := BroadcastState.replay_snapshot bs retention in
  if closed bs || bool_decide (is_Some (terminal bs)) then
    mret (mkShared None replay start LClosed false, bs, st)
  else
    let '(id, bs) := BroadcastState.add_subscriber bs sender in
    let live := match sender with SReliable => LReliable id | SBestEffort => LBestEffort id end in
    mret (mkShared (Some id) replay start live false, bs, <[id := chan]> st).

(** [append_event], in the three parts its awaits separate: the critical
    section, the sends one subscriber at a time, and the removal of stale
    subscribers. *)
Definition append_begin bs (e : StreamEvent) (retention : option ReplayRetention)
    : option (IndexedEvent * list (SubscriberId * SubscriberSender) * BroadcastState) :=
  if closed bs then None
  else
    let '(indexed, bs) := BroadcastState.push_event bs e retention in
    let targets := map_to_list (subscribers bs) in
    let bs := if is_terminal (event indexed) then BroadcastState.clear_subscribers bs else bs in
    Some (indexed, targets, bs).

(** One send.  [None]: the channel is full and the send waits.  The boolean
    says whether the subscriber is stale. *)
Definition append_send (g : DeliveryGuarantee) (indexed : IndexedEvent)
    (target : SubscriberId * SubscriberSender) st : option (store M * bool) :=
  match g, target.2, st !! target.1 with
  | GReliableWithBackpressure, SReliable, Some (ChReliable m) =>
      match mpsc_try_send m indexed with
      | (m, Sent) => Some (<[target.1 := ChReliable m]> st, false)
      | (_, Full) => None
      | (_, Closed) => Some (st, true)
      end
  | GLossyWithoutBackpressure, SBestEffort, Some (ChBestEffort q) =>
      let '(q, ok) := BestEffortLiveQueue.push q indexed in
      Some (<[target.1 := ChBestEffort q]> st, negb ok)
  | _, _, _ => Some (st, false)
  end.

Definition append_end (indexed : IndexedEvent) (stale : list SubscriberId) bs : BroadcastState :=
  if is_terminal (event indexed) then bs
  else foldl BroadcastState.remove_subscriber bs stale.

(** Dropping the stream: [close_for_drop] closes the queues of the registered
    best-effort subscribers and empties the registry. *)
Definition close_chan (c : live_chan M) : live_chan M :=
  match c with
  | ChReliable m => ChReliable m
  | ChBestEffort q => ChBestEffort (BestEffortLiveQueue.close q)
  end.

Definition stream_drop bs st : BroadcastState * store M :=
  (BroadcastState.close_for_drop bs,
   map_imap (λ id c, Some (if decide (is_Some (subscribers bs !! id)) then close_chan c else c)) st).

End fanout.

(** ** Reading the underlying stream *)

(** What [read_buf] returned: the bytes it appended, none at end of file. *)
Definition read_result : Type := result (list byte) io_error.

(** [while !buf.is_empty() { buf.split_to(min(read_chunk_size, buf.len())) }]. *)
Fixpoint split_buffer (fuel : nat) (chunk_size : N) (buf : list byte) : list chunk :=
  match fuel, buf with
  | S fuel, _ :: _ =>
      let n := chunk_size `min` len buf in
      slice_to n buf :: split_buffer fuel chunk_size (slice_from n buf)
  | _, _ => []
  end.

(** The events one read produces, in order, and whether the reader goes on. *)
Definition read_events (stream_name : String.string) (chunk_size : NumBytes) (r : read_result)
    : list StreamEvent * bool :=
  match r with
  | Err e => ([ReadError (mkStreamReadError stream_name e)], false)
  | Ok [] => ([Eof], false)
  | Ok buf => (Chunk <$> split_buffer (length buf) (bytes chunk_size) buf, true)
  end.

(** [Shared::record_bytes_ingested] and the counter of the fast reader. *)
Definition record_bytes_ingested (n bytes_read : N) : N :=
  if bytes_read =? 0 then n else saturating_add n bytes_read.

(** The reader loop: the events of a sequence of reads. *)
Fixpoint reader_events (stream_name : String.string) (chunk_size : NumBytes) (rs : list read_result)
    : list StreamEvent :=
  match rs with
  | [] => []
  | r :: rs =>
      let '(evs, continue) := read_events stream_name chunk_size r in
      evs ++ (if continue then reader_events stream_name chunk_size rs else [])
  end.

(** ** The reader's events are the child's bytes *)

Lemma split_buffer_spec fuel size buf :
  0 < size → (length buf ≤ fuel)%nat →
  concat (split_buffer fuel size buf) = buf ∧
  Forall (λ c, 0 < len c ≤ size) (split_buffer fuel size buf).
Proof.
  revert buf. induction fuel as [|fuel IH]; intros [|b buf] Hsize Hf; try done; [simpl in Hf; lia|].
  cbn [split_buffer]. set (n := size `min` len (b :: buf)). set (l := b :: buf) in *.
  assert (0 < n ≤ len l) as Hn by (subst n l; rewrite len_cons; lia).
  destruct (IH (slice_from n l)) as [Hc Hall]; [done|len_lia|].
  split; [simpl; rewrite Hc; apply slice_to_from|].
  constructor; [rewrite len_slice_to; lia|done].
Qed.

(** The terminal event of the read that ends the loop. *)
Definition terminal_of_read (stream_name : String.string) (r : read_result) : StreamEvent :=
  match r with
  | Ok _ => Eof
  | Err e => ReadError (mkStreamReadError stream_name e)
  end.

(** Whatever sizes the reads have, the reader turns the child's output into
    non-empty chunks of at most the configured size whose concatenation is
    exactly the bytes read, followed by one terminal event, end of file or
    the read error; it reads nothing after that. *)
Lemma reader_events_faithful name size bufs last rest :
  0 < bytes size → Forall (λ buf, buf ≠ []) bufs → (∀ b buf, last ≠ Ok (b :: buf)) →
  ∃ cs, reader_events name size ((Ok <$> bufs) ++ last :: rest)
          = (Chunk <$> cs) ++ [terminal_of_read name last] ∧
        concat cs = concat bufs ∧ Forall (λ c, 0 < len c ≤ bytes size) cs.
Proof.
  intros Hsize Hne Hlast. induction Hne as [|buf bufs Hbuf Hne (cs & Hcs & Hcat & Hall)].
  { exists []. split_and!; try done. simpl. destruct last as [[|b buf]|e]; try done. by destruct (Hlast b buf). }
  destruct (split_buffer_spec (length buf) (bytes size) buf Hsize) as [Hc Hs]; [done|].
  exists (split_buffer (length buf) (bytes size) buf ++ cs).
  split_and!; [|by rewrite concat_app, Hc, Hcat|by apply Forall_app].
  rewrite fmap_app, <- app_assoc, <- Hcs. destruct buf; done.
Qed.

(** The counter of ingested bytes over a sequence of reads. *)
Fixpoint reader_bytes_ingested (n : N) (rs : list read_result) : N :=
  match rs with
  | [] => n
  | Ok buf :: rs =>
      let n := record_bytes_ingested n (len buf) in
      if len buf =? 0 then n else reader_bytes_ingested n rs
  | Err _ :: _ => n
  end.

(** It is the length of the output, saturating at the largest word. *)
Lemma reader_bytes_ingested_total n bufs last rest :
  n ≤ usize_max → Forall (λ buf, buf ≠ []) bufs → (∀ b buf, last ≠ Ok (b :: buf)) →
  reader_bytes_ingested n ((Ok <$> bufs) ++ last :: rest) = (n + len (concat bufs)) `min` usize_max.
Proof.
  intros Hn Hne Hlast. revert n Hn.
  induction Hne as [|[|b buf] bufs Hbuf _ IH]; intros n Hn; cbn [fmap list_fmap app concat reader_bytes_ingested]; [|done|].
  - change (len (@nil byte)) with 0.
    destruct last as [[|b buf]|e]; [|by destruct (Hlast b buf)|]; cbn [reader_bytes_ingested];
      [change (n = (n + 0) `min` usize_max)|]; lia.
  - unfold record_bytes_ingested, saturating_add. rewrite !len_cons, len_app.
    destruct (N.eqb_spec (1 + len buf) 0); [lia|]. rewrite IH; lia.
Qed.
