(* ===== verification/BroadcastSystem.v ===== *)
(** * The broadcast backend as a concurrent system

    The reader task of [broadcast/fanout.rs] appends events while subscribers
    attach, receive, detach and are dropped, replay is sealed and the stream
    itself may be dropped.  A step of the system is one critical section or
    one channel operation of [Broadcast], in any order the guards allow; ghost
    fields record what a subscription was given and has received.

    The invariant relates, for every subscription, what it has received and
    what is on its way to it with the events of the stream from its start:
    they are equal with reliable delivery, and with lossy delivery they differ
    only by runs of events replaced by a gap marker. *)

From S2P Require Import Prelude Stream Retention Broadcast.

(** ** Observed and actual events *)

(** [explains obs act]: the observed events are the actual ones, except that a
    gap may stand for a run of lost events.  A terminal event is never lost. *)
Inductive explains : list StreamEvent → list StreamEvent → Prop :=
| ex_nil : explains [] []
| ex_keep e obs act : explains obs act → explains (e :: obs) (e :: act)
| ex_gap lost obs act :
    lost ≠ [] → Forall (λ e, is_terminal e = false) lost → explains obs act →
    explains (Gap :: obs) (lost ++ act).

Lemma explains_refl l : explains l l.
Proof. induction l; [constructor|by apply ex_keep]. Qed.

Lemma explains_app o1 a1 o2 a2 :
  explains o1 a1 → explains o2 a2 → explains (o1 ++ o2) (a1 ++ a2).
Proof.
  induction 1; intros; simpl; [done|apply ex_keep; auto|].
  rewrite <- (assoc_L (++)). apply ex_gap; auto.
Qed.

Lemma explains_app_inv o1 o2 act :
  explains (o1 ++ o2) act →
  ∃ a1 a2, act = a1 ++ a2 ∧ explains o1 a1 ∧ explains o2 a2.
Proof.
  revert act. induction o1 as [|e o1 IH]; intros act Hex; simpl in *.
  { exists [], act. split_and!; [done|constructor|done]. }
  inversion Hex as [|e' obs act' Hex'|lost obs act' Hl Hlt Hex']; subst.
  - destruct (IH _ Hex') as (a1 & a2 & -> & H1 & H2). exists (e :: a1), a2.
    split_and!; [done|by apply ex_keep|done].
  - destruct (IH _ Hex') as (a1 & a2 & -> & H1 & H2). exists (lost ++ a1), a2.
    split_and!; [by rewrite (assoc_L (++))|by apply ex_gap|done].
Qed.

Lemma explains_lost obs act :
  explains obs act → Forall (λ e, is_terminal e = false) obs →
  Forall (λ e, is_terminal e = false) act ∧ (obs ≠ [] → act ≠ []).
Proof.
  induction 1 as [|e obs act _ IH|lost obs act Hl Hlt _ IH]; intros Ho; [done|..];
    apply Forall_cons in Ho as [He Ho]; destruct (IH Ho) as [Ha _].
  - split; [by constructor|done].
  - split; [by apply Forall_app|]. by destruct lost.
Qed.

(** A cleared queue is a gap. *)
Lemma explains_collapse pre q act :
  explains (pre ++ q) act → q ≠ [] → Forall (λ e, is_terminal e = false) q →
  explains (pre ++ [Gap]) act.
Proof.
  intros (a1 & a2 & -> & H1 & H2)%explains_app_inv Hne Hq.
  destruct (explains_lost _ _ H2 Hq) as [Ha2 Hne2].
  apply explains_app; [done|]. rewrite <- (app_nil_r a2). apply ex_gap; auto using ex_nil.
Qed.

(** What a delivery guarantee promises. *)
Definition delivered (g : DeliveryGuarantee) : list StreamEvent → list StreamEvent → Prop :=
  match g with
  | GReliableWithBackpressure => eq
  | GLossyWithoutBackpressure => explains
  end.

Lemma delivered_refl g l : delivered g l l.
Proof. destruct g; simpl; [apply explains_refl|done]. Qed.

Lemma delivered_snoc g obs act e :
  delivered g obs act → delivered g (obs ++ [e]) (act ++ [e]).
Proof.
  destruct g; simpl; [|by intros ->]. intros. apply explains_app; [done|apply explains_refl].
Qed.

(** ** The system *)

(** A subscription with its history: what [try_subscribe] gave it and what it
    has returned. *)
Record SubState : Type := mkSub {
  sub : SharedSubscription;
  received : list StreamEvent;
  snapshot : list StreamEvent;
  (** Whether replay was sealed when it subscribed. *)
  sealed_before : bool;
  (** How many events had been appended when it subscribed. *)
  attached_at : nat;
}.

Inductive reader : Type :=
| RIdle
| RSending (e : IndexedEvent) (targets : list (SubscriberId * SubscriberSender))
    (stale : list SubscriberId)
| RStopped.

Section system.
Context {M : Type} `{MpscLaws M IndexedEvent}.
Context (g : DeliveryGuarantee) (retention : option ReplayRetention) (buffered : N).

Record System : Type := mkSystem {
  s_bs : BroadcastState;
  s_store : store M;
  s_subs : gmap N SubState;
  s_reader : reader;
  (** The events the reader has appended so far. *)
  s_log : list StreamEvent;
}.

Definition initial : System := mkSystem BroadcastState.new ∅ ∅ RIdle [].


Inductive step : System → System → Prop :=
| step_append bs st subs log e indexed targets bs' :
    e ≠ Gap → small_log (log ++ [e]) →
    append_begin bs e retention = Some (indexed, targets, bs') →
    step (mkSystem bs st subs RIdle log)
         (mkSystem bs' st subs (RSending indexed targets []) (log ++ [e]))
| step_send bs st subs log indexed ts1 t ts2 stale st' is_stale :
    append_send g indexed t st = Some (st', is_stale) →
    step (mkSystem bs st subs (RSending indexed (ts1 ++ t :: ts2) stale) log)
         (mkSystem bs st' subs
            (RSending indexed (ts1 ++ ts2) (if is_stale : bool then t.1 :: stale else stale)) log)
| step_append_done bs st subs log indexed stale :
    step (mkSystem bs st subs (RSending indexed [] stale) log)
         (mkSystem (append_end indexed stale bs) st subs
            (if is_terminal (event indexed) then RStopped else RIdle) log)
| step_subscribe bs st subs rd log h s bs' st' :
    subs !! h = None → next_subscriber_id bs + 1 < word_modulus →
    fanout_subscribe g retention buffered bs st = Done (s, bs', st') →
    step (mkSystem bs st subs rd log)
         (mkSystem bs' st'
            (<[h := mkSub s [] (event <$> ss_replay s) (replay_sealed bs) (length log)]> subs) rd log)
| step_recv bs st subs rd log h s r s' bs' st' :
    subs !! h = Some s → shared_recv (sub s) bs st = (r, s', bs', st') →
    step (mkSystem bs st subs rd log)
         (mkSystem bs' st'
            (<[h := mkSub s' (received s ++ match r with Ready (Some e) => [e] | _ => [] end)
                       (snapshot s) (sealed_before s) (attached_at s)]> subs) rd log)
| step_drop_subscription bs st subs rd log h s bs' st' :
    subs !! h = Some s → shared_drop (sub s) bs st = (bs', st') →
    step (mkSystem bs st subs rd log) (mkSystem bs' st' (delete h subs) rd log)
| step_seal bs st subs rd log :
    step (mkSystem bs st subs rd log)
         (mkSystem (BroadcastState.seal_replay bs) st subs rd log)
| step_drop_stream bs st subs rd log bs' st' :
    stream_drop bs st = (bs', st') →
    step (mkSystem bs st subs rd log) (mkSystem bs' st' subs RStopped log)
| step_release bs st subs rd log id m :
    (** The last sender of a channel goes away. *)
    st !! id = Some (ChReliable m) → subscribers bs !! id = None →
    (∀ e ts stale, rd = RSending e ts stale → id ∉ ts.*1) →
    step (mkSystem bs st subs rd log)
         (mkSystem bs (<[id := ChReliable (mpsc_drop_tx m)]> st) subs rd log).

Inductive reachable : System → Prop :=
| reachable_initial : reachable initial
| reachable_step s s' : reachable s → step s s' → reachable s'.

(** ** The invariant *)

Definition kind_of : SubscriberSender :=
  match g with GReliableWithBackpressure => SReliable | GLossyWithoutBackpressure => SBestEffort end.

Definition sub_key (s : SubState) : option SubscriberId := live_key (live_receiver (sub s)).

(** The event on its way to a key. *)
Definition pending (rd : reader) (key : option SubscriberId) : list StreamEvent :=
  match rd, key with
  | RSending e ts _, Some k => if decide (k ∈ ts.*1) then [event e] else []
  | _, _ => []
  end.

(** What the subscription has seen and will see of the events appended. *)
Definition observed (st : store M) (rd : reader) (s : SubState) : list StreamEvent :=
  received s ++ (event <$> ss_replay (sub s)) ++ (event <$> contents_at st (sub_key s))
  ++ pending rd (sub_key s).

(** What it was promised. *)
Definition promised (log : list StreamEvent) (s : SubState) : list StreamEvent :=
  snapshot s ++ drop (attached_at s) log.

Definition delivery_inv (bs : BroadcastState) (st : store M) (rd : reader)
    (log : list StreamEvent) (s : SubState) : Prop :=
  ∃ act, act `prefix_of` promised log s ∧ delivered g (observed st rd s) act ∧
    (closed bs = false → act = promised log s).

(** The channel of a live subscription. *)
Definition chan_ok (bs : BroadcastState) (c : live_chan M) : Prop :=
  match g, c with
  | GReliableWithBackpressure, ChReliable m => mpsc_rx_open m = true
  | GLossyWithoutBackpressure, ChBestEffort q =>
      1 ≤ q_capacity q ∧
      (q_closed q = false → Forall (λ e, is_terminal (event e) = false) (q_events q)) ∧
      (q_closed q = true → closed bs = true ∨ is_Some (terminal bs))
  | _, _ => False
  end.

Definition chan_open (c : live_chan M) : Prop :=
  match c with ChReliable _ => True | ChBestEffort q => q_closed q = false end.

Definition live_inv (bs : BroadcastState) (st : store M) (rd : reader) (s : SubState)
    (k : SubscriberId) : Prop :=
  k < next_subscriber_id bs ∧
  (∃ c, st !! k = Some c ∧ chan_ok bs c ∧
     Forall (λ e, live_start_seq (sub s) ≤ seq e) (chan_contents c) ∧
     (∀ e ts stale, rd = RSending e ts stale → k ∈ ts.*1 → chan_open c)) ∧
  (closed bs = false → terminal bs = None → subscribers bs !! k = Some kind_of) ∧
  (∀ e ts stale, rd = RSending e ts stale → k ∈ ts.*1 → live_start_seq (sub s) ≤ seq e) ∧
  (∀ e ts stale, rd = RSending e ts stale → k ∉ stale).

Definition key_inv (bs : BroadcastState) (st : store M) (rd : reader) (s : SubState) : Prop :=
  match sub_key s with
  | None => ss_id (sub s) = None ∧ (closed bs = true ∨ is_Some (terminal bs))
  | Some k => (ss_id (sub s) = Some k ∨ ss_id (sub s) = None) ∧ live_inv bs st rd s k
  end.

(** Terminal events are only under way once the stream has ended. *)
Definition ended_inv (bs : BroadcastState) (st : store M) (s : SubState) : Prop :=
  Forall (λ e, is_terminal (event e) = true → is_Some (terminal bs))
    (ss_replay (sub s) ++ contents_at st (sub_key s)).


(** The chunks kept for a subscription that attaches behind [log]. *)
Definition retained (sealed : bool) (log : list StreamEvent) : list chunk :=
  match retention with
  | Some r => if sealed then [] else retain_history r (log_chunks log)
  | None => []
  end.

Definition snapshot_inv (log : list StreamEvent) (s : SubState) : Prop :=
  let seen := take (attached_at s) log in
  snapshot s = (Chunk <$> retained (sealed_before s) seen) ++ filter (λ e, is_terminal e = true) seen.

(** A subscription starts exactly behind the events appended before it. *)
Definition start_inv (log : list StreamEvent) (s : SubState) : Prop :=
  live_start_seq (sub s) = N.of_nat (attached_at s) ∧ (attached_at s ≤ length log)%nat.

(** A subscription that starts behind the end of the stream was given it. *)
Definition tail_inv (bs : BroadcastState) (log : list StreamEvent) (s : SubState) : Prop :=
  ∀ t, terminal bs = Some t → attached_at s = length log → last (snapshot s) = Some (event t).

Definition sub_inv (bs : BroadcastState) (st : store M) (rd : reader)
    (log : list StreamEvent) (s : SubState) : Prop :=
  start_inv log s ∧ delivery_inv bs st rd log s ∧ key_inv bs st rd s ∧
  ended_inv bs st s ∧ snapshot_inv log s ∧ tail_inv bs log s.

(** The registry and the reader. *)
Definition registry_inv (bs : BroadcastState) : Prop :=
  map_Forall (λ id k, id < next_subscriber_id bs ∧ k = kind_of) (subscribers bs).

Definition reader_inv (bs : BroadcastState) (rd : reader) (log : list StreamEvent) : Prop :=
  match rd with
  | RIdle => closed bs = false → terminal bs = None
  | RSending e ts stale =>
      closed bs = false ∧ NoDup ts.*1 ∧
      Forall (λ t, t.1 < next_subscriber_id bs ∧ t.2 = kind_of) ts ∧
      Forall (λ id, id < next_subscriber_id bs) stale ∧
      (∃ log', log = log' ++ [event e] ∧ seq e = len log') ∧
      terminal bs = (if is_terminal (event e) then Some e else None)
  | RStopped => closed bs = true ∨ is_Some (terminal bs)
  end.

(** The log is chunks, then at most one terminal event. *)
Definition log_inv (bs : BroadcastState) (log : list StreamEvent) : Prop :=
  next_seq bs = len log ∧ small_log log ∧
  (∀ t, terminal bs = Some t → is_terminal (event t) = true) ∧
  ∃ cs, log = (Chunk <$> cs) ++ match terminal bs with Some t => [event t] | None => [] end.

Definition window_inv (bs : BroadcastState) (log : list StreamEvent) : Prop :=
  chunks_only (bs_replay bs) ∧
  (replay_sealed bs = false → ∀ r, retention = Some r →
     chunk_of <$> bs_replay bs = retain_history r (log_chunks log) ∧
     replay_chunk_count bs = len (bs_replay bs) ∧
     replay_byte_count bs = total_bytes event_size (bs_replay bs)).

(** Live subscriptions keep to channels of their own. *)
Definition keys_distinct (subs : gmap N SubState) : Prop :=
  ∀ h1 h2 x1 x2 k, subs !! h1 = Some x1 → subs !! h2 = Some x2 →
    sub_key x1 = Some k → sub_key x2 = Some k → h1 = h2.

Definition inv (s : System) : Prop :=
  map_Forall (λ _ x, sub_inv (s_bs s) (s_store s) (s_reader s) (s_log s) x) (s_subs s) ∧
  keys_distinct (s_subs s) ∧
  registry_inv (s_bs s) ∧ reader_inv (s_bs s) (s_reader s) (s_log s) ∧
  log_inv (s_bs s) (s_log s) ∧ window_inv (s_bs s) (s_log s).

(** ** Preservation *)

Definition not_sending (rd : reader) : Prop :=
  match rd with RSending _ _ _ => False | _ => True end.

Lemma contents_at_eq st st' (key : option SubscriberId) :
  (∀ k, key = Some k → st' !! k = st !! k) → contents_at (M := M) st' key = contents_at st key.
Proof. unfold contents_at. destruct key as [k|]; simpl; [|done]. by intros ->. Qed.

(** What other components do leaves a subscription's invariant alone. *)
Lemma sub_inv_frame bs bs' st st' rd rd' log s :
  sub_inv bs st rd log s →
  closed bs' = closed bs → terminal bs' = terminal bs →
  next_subscriber_id bs ≤ next_subscriber_id bs' →
  (∀ k, sub_key s = Some k → st' !! k = st !! k ∧
     (closed bs = false → terminal bs = None → subscribers bs' !! k = subscribers bs !! k)) →
  rd' = rd ∨ (not_sending rd' ∧ pending rd (sub_key s) = []) →
  sub_inv bs' st' rd' log s.
Proof.
  intros (Hstart & Hdel & Hkey & Hend & Hsnap & Htail) Hcl Hterm Hid Hk Hrd.
  assert (contents_at st' (sub_key s) = contents_at st (sub_key s)) as Hcont.
  { apply contents_at_eq. intros k Hs. by apply Hk. }
  assert (pending rd' (sub_key s) = pending rd (sub_key s)) as Hpend.
  { destruct Hrd as [->|[Hns ->]]; [done|]. by destruct rd'. }
  split_and!; try done.
  - destruct Hdel as (act & Hpre & Hd & Heq). exists act. unfold observed.
    rewrite Hcont, Hpend, Hcl. done.
  - unfold key_inv in *. destruct (sub_key s) as [k|] eqn:Hs; rewrite ?Hcl, ?Hterm; [|done].
    destruct Hkey as [Hsid (Hlt & (c & Hc & Hok & Hseq & Hop) & Hreg & Htgt & Hst)].
    destruct (Hk k eq_refl) as [Hst' Hreg'].
    assert (∀ e ts stale, rd' = RSending e ts stale → rd = RSending e ts stale) as Hback.
    { intros e ts stale Hr. destruct Hrd as [->|[Hns _]]; [done|]. by rewrite Hr in Hns. }
    split; [done|]. split_and!.
    + lia.
    + exists c. rewrite Hst'. split_and!; try done.
      * unfold chan_ok in *. destruct g, c; rewrite ?Hcl, ?Hterm; done.
      * intros e ts stale Hr Hin. eapply Hop; [by apply Hback|done].
    + rewrite Hcl, Hterm. intros Hc1 Ht1. rewrite Hreg' by done. by apply Hreg.
    + intros e ts stale Hr Hin. eapply Htgt; [by apply Hback|done].
    + intros e ts stale Hr. eapply Hst. by apply Hback.
  - unfold ended_inv in *. by rewrite Hcont, Hterm.
  - unfold tail_inv in *. by rewrite Hterm.
Qed.

Lemma inv_initial : inv initial.
Proof.
  split_and!; simpl; try done; [by apply map_Forall_empty..| |].
  - split_and!; [done|done|done|]. by exists [].
  - split; [by constructor|]. intros _ r _. split_and!; try done.
    unfold log_chunks, retain_history. simpl. by destruct r.
Qed.

(** Fields of the state after the operations of the reader. *)
Lemma push_event_fields bs e indexed bs' :
  BroadcastState.push_event bs e retention = (indexed, bs') →
  indexed = mkIndexed (next_seq bs) e ∧ next_seq bs' = next_seq bs +! 1 ∧
  subscribers bs' = subscribers bs ∧ next_subscriber_id bs' = next_subscriber_id bs ∧
  closed bs' = closed bs ∧ replay_sealed bs' = replay_sealed bs ∧
  terminal bs' = if is_terminal e then Some indexed else terminal bs.
Proof.
  unfold BroadcastState.push_event. intros [= <- <-]. destruct e as [c| | |err]; simpl; try done.
  case_match; [|done]. destruct (trim_same (BroadcastState.with_replay
    (mkBroadcastState (bs_replay bs) (next_seq bs +! 1) (replay_start_seq bs)
      (replay_chunk_count bs) (replay_byte_count bs) (next_subscriber_id bs) (subscribers bs)
      (replay_sealed bs) (terminal bs) (closed bs))
    (bs_replay bs ++ [mkIndexed (next_seq bs) (Chunk c)]) (replay_start_seq bs)
    (replay_chunk_count bs +! 1) (replay_byte_count bs +! len c)) retention)
    as (k & st & n & b & ->). done.
Qed.




(** A window with a small history is small. *)
Lemma window_small r log l c n :
  chunk_of <$> l = retain_history r (log_chunks log) → small_log (log ++ [Chunk c]) →
  small_window (l ++ [mkIndexed n (Chunk c)]).
Proof.
  intros Hl [Hlen Htot]. unfold small_window, retain_history in *.
  pose proof (retain_suffix len r (log_chunks log)) as Hsuf. rewrite <- Hl in Hsuf.
  pose proof (total_bytes_suffix len _ _ Hsuf) as Hb. apply suffix_length in Hsuf.
  rewrite length_fmap in Hsuf. rewrite total_bytes_fmap in Hb.
  assert (len l ≤ len (log_chunks log)) as Hsuf'. { unfold len, chunk in *. lia. }
  pose proof (total_log_chunks log) as H1. pose proof (length_log_chunks log) as H2.
  change (total_bytes (len ∘ chunk_of) l) with (total_bytes event_size l) in Hb.
  rewrite len_app, total_bytes_app. rewrite len_app in Hlen. rewrite total_bytes_app in Htot.
  change (len [Chunk c]) with 1 in Hlen. change (len [mkIndexed n (Chunk c)]) with 1.
  change (total_bytes event_size [mkIndexed n (Chunk c)]) with (len c + 0).
  change (total_bytes (λ e, len (event_bytes e)) [Chunk c]) with (len c + 0) in Htot.
  unfold chunk in *. split; lia.
Qed.

Lemma window_push bs log e indexed bs' :
  e ≠ Gap → small_log (log ++ [e]) → window_inv bs log →
  BroadcastState.push_event bs e retention = (indexed, bs') → window_inv bs' (log ++ [e]).
Proof.
  intros Hgap Hsmall [Honly Hwin] Hpush.
  pose proof (push_event_fields _ _ _ _ Hpush) as (-> & _ & _ & _ & _ & Hsealed & _).
  destruct e as [c| | |err]; [|done|..].
  2,3: unfold BroadcastState.push_event in Hpush; injection Hpush as <-; split; [done|];
    intros Hs r Hr; destruct (Hwin Hs r Hr) as (? & ? & ?);
    rewrite log_chunks_app, app_nil_r; done.
  destruct retention as [r|] eqn:Hret; [|].
  2: { unfold BroadcastState.push_event in Hpush. simpl in Hpush. injection Hpush as <-. split; [done|].
       intros _ r Hr. congruence. }
  destruct (replay_sealed bs) eqn:Hs.
  { unfold BroadcastState.push_event in Hpush. simpl in Hpush. rewrite Hs in Hpush.
    cbn in Hpush. injection Hpush as <-. split; [done|]. simpl. congruence. }
  destruct (Hwin eq_refl r eq_refl) as (Hrep & Hn & Hb).
  destruct (push_chunk_window r bs c) as (Hrep' & Hcount & _);
    [done|done|done|by eapply window_small|].
  rewrite Hpush in Hrep', Hcount. cbn [snd] in *. split.
  - unfold chunks_only. rewrite Hrep'. destruct (retain_suffix event_size r (bs_replay bs ++ [mkIndexed (next_seq bs) (Chunk c)])) as [pre Hpre].
    assert (chunks_only (bs_replay bs ++ [mkIndexed (next_seq bs) (Chunk c)])) as Hall.
    { apply Forall_app. split; [done|by repeat constructor]. }
    unfold chunks_only in Hall. rewrite Hpre in Hall. by apply Forall_app in Hall as [_ Hall].
  - intros _ r' Hr'. assert (r' = r) as -> by congruence. destruct Hcount. split_and!; try done. rewrite Hrep'.
    change event_size with (len ∘ chunk_of). rewrite <- retain_fmap, fmap_app, Hrep.
    unfold retain_history. rewrite log_chunks_app. apply retain_push.
Qed.

(** *** Appending *)

Lemma promised_snoc log s e :
  (attached_at s ≤ length log)%nat → promised (log ++ [e]) s = promised log s ++ [e].
Proof.
  intros Hle. unfold promised. rewrite drop_app_le by done.
  by rewrite (assoc_L (++)).
Qed.

Lemma snapshot_inv_mono log log' s :
  (attached_at s ≤ length log)%nat → snapshot_inv log s → snapshot_inv (log ++ log') s.
Proof. intros Hle Hs. unfold snapshot_inv. by rewrite take_app_le. Qed.

Lemma append_begin_inv bs e indexed targets bs' :
  append_begin bs e retention = Some (indexed, targets, bs') →
  closed bs = false ∧ indexed = mkIndexed (next_seq bs) e ∧ targets = map_to_list (subscribers bs) ∧
  next_seq bs' = next_seq bs +! 1 ∧ next_subscriber_id bs' = next_subscriber_id bs ∧
  closed bs' = false ∧ subscribers bs' = (if is_terminal e then ∅ else subscribers bs) ∧
  terminal bs' = (if is_terminal e then Some indexed else terminal bs) ∧
  ∃ bs1, BroadcastState.push_event bs e retention = (indexed, bs1) ∧
    bs_replay bs' = bs_replay bs1 ∧ replay_sealed bs' = replay_sealed bs1 ∧
    replay_chunk_count bs' = replay_chunk_count bs1 ∧
    replay_byte_count bs' = replay_byte_count bs1.
Proof.
  unfold append_begin. destruct (closed bs) eqn:Hcl; [done|].
  destruct (BroadcastState.push_event bs e retention) as [ie bs1] eqn:Hp.
  pose proof (push_event_fields _ _ _ _ Hp) as (-> & Hseq & Hsub & Hid & Hc & _ & Ht).
  intros [= <- <- <-]. simpl. rewrite Hsub.
  destruct (is_terminal e) eqn:He; simpl; split_and!; try congruence; eauto 10.
Qed.

Lemma sub_append bs st log s e indexed targets bs' :
  append_begin bs e retention = Some (indexed, targets, bs') →
  next_seq bs = len log → terminal bs = None →
  sub_inv bs st RIdle log s → sub_inv bs' st (RSending indexed targets []) (log ++ [e]) s.
Proof.
  intros Hbeg Hlen Hterm ([Hstart Hle] & Hdel & Hkey & Hend & Hsnap & Htail).
  apply append_begin_inv in Hbeg as (Hcl & -> & -> & _ & Hid & Hcl' & Hsubs' & Hterm' & _).
  unfold key_inv in Hkey. destruct (sub_key s) as [k|] eqn:Hk.
  2: { destruct Hkey as [_ [?|[? ?]]]; congruence. }
  destruct Hkey as [Hsid (Hlt & (c & Hc & Hok & Hseq & _) & Hreg & _ & _)].
  specialize (Hreg Hcl Hterm).
  assert (k ∈ (map_to_list (subscribers bs)).*1) as Hin.
  { apply list_elem_of_fmap. exists (k, kind_of). split; [done|]. by apply elem_of_map_to_list. }
  split_and!.
  - split; [done|]. rewrite length_app. lia.
  - destruct Hdel as (act & _ & Hd & Heq). rewrite (Heq Hcl) in Hd.
    exists (promised (log ++ [e]) s). split_and!; [done| |done].
    rewrite promised_snoc by done. unfold observed in *. rewrite Hk in *. simpl in *.
    rewrite decide_True by done. rewrite app_nil_r in Hd. apply delivered_snoc with (e := e) in Hd.
    by rewrite <- !(assoc_L (++)) in Hd.
  - unfold key_inv. rewrite Hk. split; [done|]. split_and!.
    + by rewrite Hid.
    + exists c. split_and!; [done| |done|].
      * unfold chan_ok in *. destruct g, c as [m|q]; try done.
        destruct Hok as (Hcap & Hnt & Hqc). split_and!; [done..|].
        intros [?|[? ?]]%Hqc; congruence.
      * intros e' ts stale [= <- <- <-] _. unfold chan_ok in Hok. destruct g, c as [m|q]; try done.
        simpl. destruct (q_closed q) eqn:Hq; [|done]. destruct Hok as (_ & _ & Hqc).
        destruct (Hqc eq_refl) as [?|[? ?]]; congruence.
    + rewrite Hterm', Hsubs'. intros _ Ht. destruct (is_terminal e); [done|]. done.
    + intros e' ts stale [= <- <- <-] _. simpl. rewrite Hlen, Hstart. unfold len. lia.
    + intros e' ts stale [= <- <- <-]. apply not_elem_of_nil.
  - unfold ended_inv in *. eapply Forall_impl; [exact Hend|]. simpl. intros x Hx Ht.
    destruct (Hx Ht) as [? ?]. congruence.
  - by apply snapshot_inv_mono.
  - intros t _ Heq. rewrite length_app in Heq. simpl in Heq. lia.
Qed.

Lemma inv_append bs st subs log e indexed targets bs' :
  e ≠ Gap → small_log (log ++ [e]) →
  append_begin bs e retention = Some (indexed, targets, bs') →
  inv (mkSystem bs st subs RIdle log) →
  inv (mkSystem bs' st subs (RSending indexed targets []) (log ++ [e])).
Proof.
  intros Hgap Hsmall Hbeg (Hsubs & Hinj & Hreg & Hrd & Hlog & Hwin). simpl in *.
  destruct Hlog as (Hlen & _ & _ & cs & Hcs).
  pose proof (append_begin_inv _ _ _ _ _ Hbeg)
    as (Hcl & Hie & Hts & Hseq' & Hid' & Hcl' & Hsubs' & Hterm' & bs1 & Hpush & Hr1 & Hr2 & Hr3 & Hr4).
  specialize (Hrd Hcl). rewrite Hrd in *. split_and!; simpl.
  - intros h x Hx. eapply sub_append; [done..|]. by apply (Hsubs h).
  - done.
  - unfold registry_inv. rewrite Hsubs', Hid'. destruct (is_terminal e); [apply map_Forall_empty|done].
  - split_and!; [done| | |done| |].
    + rewrite Hts. apply NoDup_fst_map_to_list.
    + rewrite Hts, Hid'. apply Forall_forall. intros [id sd] Hin%elem_of_map_to_list.
      by apply (Hreg id).
    + exists log. rewrite Hie. done.
    + rewrite Hterm', Hie. done.
  - destruct Hsmall as [Hs1 Hs2]. rewrite len_app in Hs1. change (len [e]) with 1 in Hs1.
    split_and!; [|split; [rewrite len_app; done|done]| |].
    + rewrite Hseq', Hlen, len_app, wrapping_add_small by lia. done.
    + rewrite Hterm', Hie. destruct (is_terminal e) eqn:He; [|done]. by intros t [= <-].
    + rewrite Hterm', Hcs, Hie. destruct e as [c| | |err]; [|done|..]; simpl.
      * exists (cs ++ [c]). by rewrite fmap_app, !app_nil_r.
      * exists cs. by rewrite app_nil_r.
      * exists cs. by rewrite app_nil_r.
  - destruct (window_push bs log e indexed bs1) as [Ho Hw]; try done.
    split; [by rewrite Hr1|]. rewrite Hr1, Hr2, Hr3, Hr4. done.
Qed.

(** *** Sending *)

(** What a channel operation does to the events under way. *)
Definition carries (c : live_chan M) (e : IndexedEvent) (c' : live_chan M) : Prop :=
  ∀ pre act, delivered g (pre ++ (event <$> chan_contents c) ++ [event e]) act →
    delivered g (pre ++ (event <$> chan_contents c')) act.

Definition send_post (bs : BroadcastState) (c : live_chan M) (e : IndexedEvent) (c' : live_chan M) : Prop :=
  chan_ok bs c' ∧ carries c e c' ∧
  Forall (λ x, x ∈ chan_contents c ∨ seq x = seq e) (chan_contents c') ∧
  Forall (λ x, x ∈ chan_contents c ∨ x = e ∨ event x = Gap) (chan_contents c').

Lemma mpsc_send_post bs m e m' :
  g = GReliableWithBackpressure → chan_ok bs (ChReliable m) → mpsc_try_send m e = (m', Sent) →
  send_post bs (ChReliable m) e (ChReliable m').
Proof.
  intros Hg Hok Hsend. unfold send_post, chan_ok, carries in *. rewrite Hg in *. simpl in *.
  pose proof (mpsc_try_send_spec m e) as Hspec. rewrite Hok, Hsend in Hspec.
  destruct (mpsc_capacity m <=? _); [done|]. destruct Hspec as [_ Hview].
  unfold mpsc_view in Hview. simpl in Hview. injection Hview as Hc _ _ Hrx. rewrite Hc, Hrx.
  split_and!; [done| | |].
  - intros pre act <-. by rewrite fmap_app.
  - apply Forall_app. split; [by apply Forall_forall; auto|by repeat constructor; right].
  - apply Forall_app. split; [by apply Forall_forall; auto|by repeat constructor; auto].
Qed.

Lemma mpsc_send_open bs m e :
  g = GReliableWithBackpressure → chan_ok bs (ChReliable m) → (mpsc_try_send m e).2 ≠ Closed.
Proof.
  intros Hg Hok. unfold chan_ok in Hok. rewrite Hg in Hok.
  pose proof (mpsc_try_send_spec m e) as Hspec. rewrite Hok in Hspec.
  destruct (mpsc_capacity m <=? _); [by rewrite Hspec|]. destruct Hspec as [-> _]. done.
Qed.

Lemma nonterminal_events q :
  Forall (λ e, is_terminal (event e) = false) q → Forall (λ e, is_terminal e = false) (event <$> q).
Proof. intros Hq. by apply Forall_fmap. Qed.

Lemma queue_push_post bs q e q' ok :
  g = GLossyWithoutBackpressure → chan_ok bs (ChBestEffort q) → q_closed q = false →
  (is_terminal (event e) = true → is_Some (terminal bs)) →
  BestEffortLiveQueue.push q e = (q', ok) →
  ok = true ∧ send_post bs (ChBestEffort q) e (ChBestEffort q').
Proof.
  intros Hg Hok Hopen Hterm Hpush. unfold send_post, chan_ok, carries in *. rewrite Hg in *. simpl in *.
  destruct Hok as (Hcap & Hnt & _). specialize (Hnt Hopen).
  unfold BestEffortLiveQueue.push in Hpush. rewrite Hopen in Hpush.
  assert (q' = mkQueue (q_capacity q) (q_events q ++ [e]) (is_terminal (event e)) ∨
          (is_terminal (event e) = false ∧ q_events q ≠ [] ∧
           ∃ tl, (tl = [] ∨ tl = [e]) ∧ q' = mkQueue (q_capacity q) (mkIndexed (seq e) Gap :: tl) false))
    as [Hq'|(He & Hne & tl & Htl & Hq')].
  { destruct (event e) as [c| | |err] eqn:Hev;
      try (left; by injection Hpush as <- <-);
      (destruct (N.leb_spec (q_capacity q) (len (q_events q))) as [Hfull|_];
       [|left; by injection Hpush as <- <-]);
      right; (split_and!; [done|intros Hnil; rewrite Hnil in Hfull; change (len []) with 0 in Hfull; lia|]);
      destruct (1 <? q_capacity q); injection Hpush as <- <-; eauto. }
  all: split; [by destruct (event e); simplify_eq/=; repeat case_match; simplify_eq/=|]; subst q'; simpl.
  - split_and!; [done| | | | |].
    + intros Ht. apply Forall_app. split; [done|by repeat constructor].
    + by auto.
    + intros pre act. by rewrite fmap_app.
    + apply Forall_app. split; [by apply Forall_forall; auto|by repeat constructor; right].
    + apply Forall_app. split; [by apply Forall_forall; auto|by repeat constructor; auto].
  - split_and!; [done| |done| | |].
    + intros _. constructor; [done|]. destruct Htl as [->| ->]; by repeat constructor.
    + intros pre act Hd.
      assert (event <$> q_events q ≠ []) as Hne' by (by destruct (q_events q)).
      destruct Htl as [->| ->]; simpl.
      * eapply explains_collapse; [exact Hd|by destruct (event <$> q_events q)|].
        apply Forall_app. split; [by apply nonterminal_events|by repeat constructor].
      * rewrite (assoc_L (++)) in Hd. apply explains_app_inv in Hd as (a1 & a2 & -> & H1 & H2).
        change [Gap; event e] with ([Gap] ++ [event e]). rewrite (assoc_L (++)).
        apply explains_app; [|done]. eapply explains_collapse; [exact H1|done|by apply nonterminal_events].
    + constructor; [by right|]. destruct Htl as [->| ->]; by repeat constructor; right.
    + constructor; [by auto|]. destruct Htl as [->| ->]; by repeat constructor; auto.
Qed.

(** A send to a live subscription succeeds or waits. *)
Lemma append_send_live bs st e t st' is_stale c :
  append_send g e t st = Some (st', is_stale) → st !! t.1 = Some c → t.2 = kind_of →
  chan_ok bs c → chan_open c → (is_terminal (event e) = true → is_Some (terminal bs)) →
  is_stale = false ∧ ∃ c', st' = <[t.1 := c']> st ∧ send_post bs c e c'.
Proof.
  unfold append_send, kind_of. intros Hs Hst Hk Hok Hopen Hterm. rewrite Hst, Hk in Hs.
  destruct g eqn:Hg; destruct c as [m|q]; try (unfold chan_ok in Hok; by rewrite Hg in Hok).
  - destruct (BestEffortLiveQueue.push q e) as [q' ok] eqn:Hp. injection Hs as <- <-.
    destruct (queue_push_post bs q e q' ok) as [-> Hpost]; try done. eauto.
  - pose proof (mpsc_send_open bs m e Hg Hok) as Hnc.
    destruct (mpsc_try_send m e) as [m' []] eqn:Hp; simplify_eq/=.
    split; [done|]. eexists. split; [done|]. by apply mpsc_send_post.
Qed.

(** A send to another subscription changes only its own channel. *)
Lemma append_send_store e t st st' is_stale k :
  append_send (M := M) g e t st = Some (st', is_stale) → k ≠ t.1 → st' !! k = st !! k.
Proof.
  unfold append_send. intros Hs Hk.
  repeat case_match; simplify_eq; rewrite ?lookup_insert_ne by congruence; done.
Qed.

(** A send to a subscription's own channel. *)
Lemma sub_send_own bs st log s e ts1 t ts2 stale st' is_stale :
  append_send g e t st = Some (st', is_stale) →
  NoDup (ts1 ++ t :: ts2).*1 → t.2 = kind_of →
  (is_terminal (event e) = true → is_Some (terminal bs)) → sub_key s = Some t.1 →
  sub_inv bs st (RSending e (ts1 ++ t :: ts2) stale) log s →
  sub_inv bs st' (RSending e (ts1 ++ ts2) (if is_stale then t.1 :: stale else stale)) log s.
Proof.
  intros Hsend Hnd Hkind Hterm Hk (Hstart & Hdel & Hkey & Hend & Hsnap & Htail).
  rewrite fmap_app in Hnd. simpl in Hnd. unfold key_inv in Hkey. rewrite Hk in Hkey.
  destruct Hkey as [Hsid (Hlt & (c & Hc & Hok & Hseq & Hop) & Hreg & Htgt & Hstl)].
  assert (t.1 ∈ (ts1 ++ t :: ts2).*1) as Hmem.
  { rewrite fmap_app. simpl. rewrite elem_of_app, elem_of_cons. tauto. }
  assert (t.1 ∉ (ts1 ++ ts2).*1) as Hnot.
  { rewrite fmap_app. apply NoDup_app in Hnd as (_ & Hd & Hnd2). apply NoDup_cons in Hnd2 as [Hnt _].
    intros [Hin|Hin]%elem_of_app; [|done]. apply (Hd _ Hin). by left. }
  destruct (append_send_live bs st e t st' is_stale c) as (-> & c' & -> & Hok' & Hcar & Hs1 & Hs2);
    try done; [by eapply Hop; [done|exact Hmem]|].
  assert (live_start_seq (sub s) ≤ seq e) as Hse by (eapply Htgt; [done|exact Hmem]).
  split_and!; try done.
  + destruct Hdel as (act & Hpre & Hd & Heq). exists act. split_and!; try done.
    unfold observed, contents_at in *. rewrite Hk in *. simpl in *. rewrite Hc in Hd.
    rewrite lookup_insert_eq. rewrite decide_True in Hd by exact Hmem.
    rewrite decide_False by done. rewrite app_nil_r. rewrite (assoc_L (++)) in Hd |- *.
    by apply Hcar.
  + unfold key_inv. rewrite Hk. split; [done|]. split_and!; [done| |done| |].
    * exists c'. rewrite lookup_insert_eq. split_and!; try done.
      -- eapply Forall_impl; [exact Hs1|]. simpl. rewrite Forall_forall in Hseq.
         intros x [Hx| ->]; [by apply Hseq|done].
      -- intros e' ts stale' [= <- <- <-] Hin. done.
    * intros e' ts stale' [= <- <- <-] Hin. done.
    * intros e' ts stale' [= <- <- <-]. by eapply Hstl.
  + unfold ended_inv, contents_at in *. rewrite Hk in *. simpl in *. rewrite Hc in Hend.
    rewrite lookup_insert_eq. apply Forall_app in Hend as [He1 He2]. apply Forall_app. split; [done|].
    eapply Forall_impl; [exact Hs2|]. simpl. rewrite Forall_forall in He2.
    intros x [Hx|[->|Hx]]; [by apply He2|done|]. by rewrite Hx.
Qed.

(** A send to another channel. *)
Lemma sub_send_other bs st log s e ts1 t ts2 stale st' is_stale k :
  append_send g e t st = Some (st', is_stale) → t.2 = kind_of → sub_key s = Some k → k ≠ t.1 →
  sub_inv bs st (RSending e (ts1 ++ t :: ts2) stale) log s →
  sub_inv bs st' (RSending e (ts1 ++ ts2) (if is_stale then t.1 :: stale else stale)) log s.
Proof.
  intros Hsend Hkind Hk Hne (Hstart & Hdel & Hkey & Hend & Hsnap & Htail).
  unfold key_inv in Hkey. rewrite Hk in Hkey.
  destruct Hkey as [Hsid (Hlt & (c & Hc & Hok & Hseq & Hop) & Hreg & Htgt & Hstl)].
  assert (k ∈ (ts1 ++ t :: ts2).*1 ↔ k = t.1 ∨ k ∈ (ts1 ++ ts2).*1) as Hmem.
  { rewrite !fmap_app. simpl. rewrite !elem_of_app, elem_of_cons. tauto. }
  assert (st' !! k = st !! k) as Hst' by (by eapply append_send_store).
  assert (contents_at st' (Some k) = contents_at st (Some k)) as Hcont.
  { apply contents_at_eq. by intros ? [= <-]. }
  assert (pending (RSending e (ts1 ++ ts2) (if is_stale then t.1 :: stale else stale)) (Some k)
          = pending (RSending e (ts1 ++ t :: ts2) stale) (Some k)) as Hpend.
  { simpl. by rewrite (decide_ext _ _ _ _ Hmem), (decide_ext (k ∈ (ts1 ++ ts2).*1) (k = t.1 ∨ k ∈ (ts1 ++ ts2).*1)) by tauto. }
  split_and!; try done.
  + unfold delivery_inv, observed in *. rewrite Hk in *. by rewrite Hcont, Hpend.
  + unfold key_inv. rewrite Hk. split; [done|]. split_and!; [done| |done| |].
    * exists c. rewrite Hst'. split_and!; try done.
      intros e' ts stale' [= <- <- <-] Hin. eapply Hop; [done|]. apply Hmem. by right.
    * intros e' ts stale' [= <- <- <-] Hin. eapply Htgt; [done|]. apply Hmem. by right.
    * intros e' ts stale' [= <- <- <-]. pose proof (Hstl _ _ _ eq_refl).
      destruct is_stale; [|done]. by apply not_elem_of_cons.
  + unfold ended_inv in *. rewrite Hk in *. by rewrite Hcont.
Qed.

Lemma sub_send bs st log s e ts1 t ts2 stale st' is_stale :
  append_send g e t st = Some (st', is_stale) →
  NoDup (ts1 ++ t :: ts2).*1 → t.2 = kind_of →
  (is_terminal (event e) = true → is_Some (terminal bs)) →
  sub_inv bs st (RSending e (ts1 ++ t :: ts2) stale) log s →
  sub_inv bs st' (RSending e (ts1 ++ ts2) (if is_stale then t.1 :: stale else stale)) log s.
Proof.
  intros Hsend Hnd Hkind Hterm Hs. destruct (sub_key s) as [k|] eqn:Hk.
  - destruct (decide (k = t.1)) as [->|Hne]; [by eapply sub_send_own|by eapply sub_send_other].
  - destruct Hs as (Hstart & Hdel & Hkey & Hend & Hsnap & Htail). split_and!; try done.
    + unfold delivery_inv, observed in *. by rewrite Hk in *.
    + unfold key_inv in *. by rewrite Hk in *.
    + unfold ended_inv in *. by rewrite Hk in *.
Qed.

Lemma inv_send bs st subs log e ts1 t ts2 stale st' is_stale :
  append_send g e t st = Some (st', is_stale) →
  inv (mkSystem bs st subs (RSending e (ts1 ++ t :: ts2) stale) log) →
  inv (mkSystem bs st' subs (RSending e (ts1 ++ ts2) (if is_stale then t.1 :: stale else stale)) log).
Proof.
  intros Hsend (Hsubs & Hinj & Hreg & Hrd & Hlog & Hwin). simpl in *.
  destruct Hrd as (Hcl & Hnd & Hts & Hstale & Hlast & Hterm).
  apply Forall_app in Hts as [Ht1 Ht2]. apply Forall_cons in Ht2 as [[Htlt Htk] Ht2].
  split_and!; simpl; try done.
  - intros h x Hx. eapply sub_send; [done|done|done| |by apply (Hsubs h)].
    intros He. rewrite Hterm, He. eauto.
  - split_and!; try done; [|by apply Forall_app|by destruct is_stale; [constructor|]].
    rewrite fmap_app in *. simpl in Hnd. apply NoDup_app in Hnd as (? & Hd & Hnd).
    apply NoDup_cons in Hnd as [_ Hnd]. apply NoDup_app. split_and!; [done| |done].
    intros x Hx Hx2. apply (Hd x Hx). by right.
Qed.

(** *** The other steps *)

(** States that differ only in the registry, which did not grow. *)
Definition fewer_subscribers (bs bs' : BroadcastState) : Prop :=
  subscribers bs' ⊆ subscribers bs ∧
  bs' = BroadcastState.with_subscribers bs (next_subscriber_id bs) (subscribers bs').

Lemma fewer_refl bs : fewer_subscribers bs bs.
Proof. split; [done|]. by destruct bs. Qed.

Lemma fewer_remove bs id : fewer_subscribers bs (BroadcastState.remove_subscriber bs id).
Proof. split; [apply delete_subseteq|done]. Qed.

Lemma fewer_trans bs1 bs2 bs3 :
  fewer_subscribers bs1 bs2 → fewer_subscribers bs2 bs3 → fewer_subscribers bs1 bs3.
Proof.
  intros [Hs1 H1] [Hs2 H2]. split; [by etrans|]. rewrite H2. rewrite H1. done.
Qed.

Lemma remove_all_fewer bs ids :
  fewer_subscribers bs (foldl BroadcastState.remove_subscriber bs ids) ∧
  ∀ k, k ∉ ids →
    subscribers (foldl BroadcastState.remove_subscriber bs ids) !! k = subscribers bs !! k.
Proof.
  revert bs. induction ids as [|id ids IH]; intros bs; simpl; [split; [apply fewer_refl|done]|].
  destruct (IH (BroadcastState.remove_subscriber bs id)) as [Hf Hk]. split.
  - eapply fewer_trans; [apply fewer_remove|done].
  - intros k [Hne Hin]%not_elem_of_cons. rewrite Hk by done. simpl.
    by rewrite lookup_delete_ne by congruence.
Qed.

(** The global part of the invariant under a smaller registry. *)
Lemma global_fewer bs bs' rd log :
  fewer_subscribers bs bs' →
  registry_inv bs ∧ reader_inv bs rd log ∧ log_inv bs log ∧ window_inv bs log →
  registry_inv bs' ∧ reader_inv bs' rd log ∧ log_inv bs' log ∧ window_inv bs' log.
Proof.
  intros [Hs Heq] (Hreg & Hrd & Hlog & Hwin). rewrite Heq. split_and!; try done.
  unfold registry_inv. simpl. intros id k Hk. apply (Hreg id). by eapply lookup_weaken.
Qed.

Lemma inv_append_done bs st subs log e stale :
  inv (mkSystem bs st subs (RSending e [] stale) log) →
  inv (mkSystem (append_end e stale bs) st subs
         (if is_terminal (event e) then RStopped else RIdle) log).
Proof.
  intros (Hsubs & Hinj & Hreg & Hrd & Hlog & Hwin). simpl in *.
  assert (fewer_subscribers bs (append_end e stale bs) ∧
          ∀ k, k ∉ stale → subscribers (append_end e stale bs) !! k = subscribers bs !! k) as [Hf Hk].
  { unfold append_end. destruct (is_terminal (event e)); [split; [apply fewer_refl|done]|].
    apply remove_all_fewer. }
  pose proof (global_fewer _ _ (RSending e [] stale) log Hf (conj Hreg (conj Hrd (conj Hlog Hwin)))) as (? & Hrd' & ? & ?).
  destruct Hf as [_ Hf]. split_and!; simpl; try done.
  - intros h x Hx. pose proof (Hsubs h x Hx) as Hx'.
    eapply sub_inv_frame; [exact Hx'|by rewrite Hf|by rewrite Hf|by rewrite Hf| |].
    + intros k Hkey. split; [done|]. intros _ _. apply Hk.
      destruct Hx' as (_ & _ & Hki & _). unfold key_inv in Hki. rewrite Hkey in Hki.
      destruct Hki as [_ (_ & _ & _ & _ & Hst)]. by eapply Hst.
    + right. split; [by destruct (is_terminal (event e))|]. simpl.
      by destruct (sub_key x).
  - destruct Hrd' as (_ & _ & _ & _ & _ & Ht). unfold reader_inv. rewrite Ht.
    destruct (is_terminal (event e)); [right; eauto|done].
Qed.

Lemma inv_seal bs st subs rd log :
  inv (mkSystem bs st subs rd log) →
  inv (mkSystem (BroadcastState.seal_replay bs) st subs rd log).
Proof.
  intros (Hsubs & Hinj & Hreg & Hrd & Hlog & Hwin). simpl in *.
  refine (conj _ (conj Hinj (conj Hreg (conj Hrd (conj Hlog _))))); simpl.
  - intros h x Hx. eapply sub_inv_frame; [by apply (Hsubs h)|done..| |by left]. by split.
  - split; [by constructor|]. done.
Qed.

Lemma inv_drop_subscription bs st subs rd log h s bs' st' :
  subs !! h = Some s → shared_drop (sub s) bs st = (bs', st') →
  inv (mkSystem bs st subs rd log) → inv (mkSystem bs' st' (delete h subs) rd log).
Proof.
  intros Hh Hdrop (Hsubs & Hinj & Hreg & Hrd & Hlog & Hwin). simpl in *.
  pose proof (Hsubs h s Hh) as (_ & _ & Hkey & _). unfold key_inv in Hkey.
  assert (fewer_subscribers bs bs' ∧
    ∀ k, sub_key s ≠ Some k → subscribers bs' !! k = subscribers bs !! k ∧ st' !! k = st !! k)
    as [Hf Hk].
  { unfold shared_drop in Hdrop. injection Hdrop as <- <-. split.
    - destruct (ss_done (sub s)); [apply fewer_refl|].
      destruct (ss_id (sub s)); [apply fewer_remove|apply fewer_refl].
    - intros k Hne. unfold sub_key in *. split.
      + destruct (ss_done (sub s)); [done|]. destruct (ss_id (sub s)) as [id|] eqn:Hid; [|done].
        destruct (live_key (live_receiver (sub s))) as [k'|]; [|by destruct Hkey].
        destruct Hkey as [[[= ->]|?] _]; [|done]. simpl. rewrite lookup_delete_ne by congruence. done.
      + destruct (live_key (live_receiver (sub s))) as [k'|]; [|done].
        repeat case_match; try done. by rewrite lookup_insert_ne by congruence. }
  pose proof (global_fewer _ _ _ _ Hf (conj Hreg (conj Hrd (conj Hlog Hwin)))) as (? & ? & ? & ?).
  destruct Hf as [_ Hf]. split_and!; simpl; try done.
  - intros h' x Hx. apply lookup_delete_Some in Hx as [Hne Hx].
    eapply sub_inv_frame; [by apply (Hsubs h')|by rewrite Hf|by rewrite Hf|by rewrite Hf| |by left].
    intros k Hxk. destruct (Hk k) as [Hk1 Hk2]; [|by split].
    intros Hsk. apply Hne. by eapply Hinj.
  - intros h1 h2 x1 x2 k [_ Hx1]%lookup_delete_Some [_ Hx2]%lookup_delete_Some. by eapply Hinj.
Qed.

Lemma inv_release bs st subs rd log id m :
  st !! id = Some (ChReliable m) →
  inv (mkSystem bs st subs rd log) →
  inv (mkSystem bs (<[id := ChReliable (mpsc_drop_tx m)]> st) subs rd log).
Proof.
  intros Hid (Hsubs & Hinj & Hreg & Hrd & Hlog & Hwin). simpl in *. split_and!; simpl; try done.
  intros h x Hx. pose proof (Hsubs h x Hx) as Hx'.
  destruct (decide (sub_key x = Some id)) as [Hk|Hne].
  2: { eapply sub_inv_frame; [exact Hx'|done..| |by left].
       intros k Hk. by rewrite lookup_insert_ne by congruence. }
  pose proof (mpsc_drop_tx_view m) as Hv. unfold mpsc_view in Hv. injection Hv as Hv1 _ _ Hv4.
  destruct Hx' as (Hstart & Hdel & Hkey & Hend & Hsnap & Htail).
  assert (contents_at (<[id := ChReliable (mpsc_drop_tx m)]> st) (sub_key x)
          = contents_at st (sub_key x)) as Hcont.
  { unfold contents_at. rewrite Hk. simpl. by rewrite lookup_insert_eq, Hid. }
  split_and!; try done.
  - unfold delivery_inv, observed in *. by rewrite Hcont.
  - unfold key_inv in *. rewrite Hk in *. destruct Hkey as [? (? & (c & Hc & Hok & Hseq & Hop) & ? & ? & ?)].
    rewrite Hid in Hc. injection Hc as <-. split; [done|]. split_and!; try done.
    eexists. rewrite lookup_insert_eq. split_and!; [done| | |done].
    + unfold chan_ok in *. destruct g; [done|]. congruence.
    + simpl in *. by rewrite Hv1.
  - unfold ended_inv in *. by rewrite Hcont.
Qed.

(** *** Dropping the stream *)

Lemma delivered_prefix o1 o2 act :
  delivered g (o1 ++ o2) act → ∃ a1, a1 `prefix_of` act ∧ delivered g o1 a1.
Proof.
  destruct g; simpl.
  - intros (a1 & a2 & -> & Ho1 & _)%explains_app_inv. exists a1. split; [by eexists|done].
  - intros <-. exists o1. split; [by eexists|done].
Qed.

Lemma stream_drop_chan bs st bs' st' k c :
  stream_drop bs st = (bs', st') → st !! k = Some c →
  ∃ c', st' !! k = Some c' ∧ chan_contents c' = chan_contents c ∧
    (chan_ok bs c → chan_ok bs' c').
Proof.
  intros [= <- <-] Hc. rewrite map_lookup_imap, Hc. simpl. eexists. split; [done|].
  destruct (decide _); simpl.
  - destruct c as [m|q]; simpl; (split; [done|]); unfold chan_ok; destruct g; simpl; try done.
    intros (? & ? & ?). split_and!; auto. done.
  - split; [done|]. unfold chan_ok. destruct g, c; simpl; try done. intros (? & ? & ?).
    split_and!; auto.
Qed.

Lemma inv_drop_stream bs st subs rd log bs' st' :
  stream_drop bs st = (bs', st') →
  inv (mkSystem bs st subs rd log) → inv (mkSystem bs' st' subs RStopped log).
Proof.
  intros Hdrop (Hsubs & Hinj & Hreg & Hrd & Hlog & Hwin). simpl in *.
  pose proof Hdrop as Hd. injection Hd as Hbs' _.
  assert (closed bs' = true ∧ terminal bs' = terminal bs ∧
    next_subscriber_id bs' = next_subscriber_id bs) as (Hcl & Hterm & Hid) by (by subst bs').
  split_and!; simpl; try done; try (by subst bs'); [|by left].
  intros h x Hx. destruct (Hsubs h x Hx) as (Hstart & Hdel & Hkey & Hend & Hsnap & Htail).
  assert (contents_at st' (sub_key x) = contents_at st (sub_key x)) as Hcont.
  { unfold contents_at, key_inv in *. destruct (sub_key x) as [k|]; [|done]. simpl.
    destruct Hkey as [_ (_ & (c & Hc & _) & _)]. rewrite Hc.
    destruct (stream_drop_chan _ _ _ _ _ _ Hdrop Hc) as (c' & -> & ? & _). done. }
  split_and!; try done.
  - destruct Hdel as (act & Hpre & Hdl & _). unfold observed in Hdl. rewrite !(assoc_L (++)) in Hdl.
    apply delivered_prefix in Hdl as (a1 & Ha1 & Hdl). exists a1. split_and!; [by etrans| |congruence].
    unfold observed. rewrite Hcont. simpl. by rewrite app_nil_r, (assoc_L (++)).
  - unfold key_inv in *. destruct (sub_key x) as [k|].
    + destruct Hkey as [Hsid (Hlt & (c & Hc & Hok & Hseq & _) & _)]. split; [done|].
      destruct (stream_drop_chan _ _ _ _ _ _ Hdrop Hc) as (c' & Hc' & Hcc & Hok').
      split_and!; [by rewrite Hid| |congruence|done|done].
      exists c'. rewrite Hcc. split_and!; [done|by apply Hok'|done|done].
    + destruct Hkey as [? _]. split; [done|]. by left.
  - unfold ended_inv in *. by rewrite Hcont, Hterm.
  - unfold tail_inv in *. by rewrite Hterm.
Qed.

(** *** Subscribing *)



Lemma chunk_events l : chunks_only l → event <$> l = Chunk <$> (chunk_of <$> l).
Proof.
  induction 1 as [|e l He _ IH]; [done|]. rewrite !fmap_cons, IH. f_equal.
  unfold chunk_of. by destruct (event e).
Qed.

(** What [try_subscribe] hands out is what the retention promises. *)
Lemma snapshot_of_state bs log replay start :
  BroadcastState.replay_snapshot bs retention = (replay, start) →
  log_inv bs log → window_inv bs log →
  start = len log ∧
  Forall (λ e, is_terminal (event e) = true → is_Some (terminal bs)) replay ∧
  (∀ t, terminal bs = Some t → last (event <$> replay) = Some (event t)) ∧
  event <$> replay = (Chunk <$> retained (replay_sealed bs) log) ++ filter (λ e, is_terminal e = true) log.
Proof.
  unfold BroadcastState.replay_snapshot. intros [= <- <-] (Hseq & _ & Hterm & cs & Hcs) [Honly Hwin].
  split_and!; [done| | |].
  - apply Forall_app. split.
    + destruct (bool_decide _ && _); [|constructor]. eapply Forall_impl; [exact Honly|]. simpl.
      intros x Hx Ht. by destruct (event x).
    + destruct (terminal bs); repeat constructor; eauto.
  - intros t ->. rewrite fmap_app. apply last_snoc.
  - rewrite fmap_app. f_equal.
    + unfold retained. destruct retention as [r|]; [|done]. rewrite bool_decide_eq_true_2 by eauto.
      destruct (replay_sealed bs); [done|]. simpl. destruct (Hwin eq_refl r eq_refl) as (Hrep & _).
      by rewrite chunk_events, Hrep.
    + rewrite Hcs, filter_app, filter_terminal_chunks. simpl.
      destruct (terminal bs) as [t|]; [|done]. simpl. by rewrite filter_cons_True by auto.
Qed.

Lemma pending_fresh rd bs log k :
  reader_inv bs rd log → next_subscriber_id bs ≤ k → pending rd (Some k) = [].
Proof.
  intros Hrd Hk. destruct rd as [|e ts stale|]; try done. simpl.
  destruct Hrd as (_ & _ & Hts & _). rewrite decide_False; [done|].
  intros (t & -> & Hin)%list_elem_of_fmap. rewrite Forall_forall in Hts.
  destruct (Hts t Hin) as [? _]. lia.
Qed.

(** A subscription that starts now has been promised nothing else yet. *)
Lemma fresh_delivery bs st rd log s :
  received s = [] → snapshot s = event <$> ss_replay (sub s) →
  attached_at s = length log → contents_at st (sub_key s) = [] →
  pending rd (sub_key s) = [] → delivery_inv bs st rd log s.
Proof.
  intros Hr Hs Hstart Hc Hp. exists (promised log s). split_and!; [done| |done].
  unfold observed, promised. rewrite Hr, Hs, Hstart, Hc, Hp. simpl.
  rewrite drop_ge by done. apply delivered_refl.
Qed.

Lemma fresh_snapshot bs log s :
  sealed_before s = replay_sealed bs → snapshot s = event <$> ss_replay (sub s) →
  attached_at s = length log →
  event <$> ss_replay (sub s) = (Chunk <$> retained (replay_sealed bs) log)
                                ++ filter (λ e, is_terminal e = true) log →
  snapshot_inv log s.
Proof.
  intros Hse Hs Hstart Hev. unfold snapshot_inv. by rewrite Hstart, Hs, Hse, take_ge by done.
Qed.

Lemma keys_insert subs h x :
  keys_distinct subs → (∀ h' y k, subs !! h' = Some y → sub_key y = Some k → sub_key x ≠ Some k) →
  keys_distinct (<[h := x]> subs).
Proof.
  intros Hinj Hfresh h1 h2 x1 x2 k Hx1 Hx2 Hk1 Hk2.
  apply lookup_insert_Some in Hx1 as [[<- <-]|[? Hx1]];
    apply lookup_insert_Some in Hx2 as [[<- <-]|[? Hx2]]; [done|..].
  - by destruct (Hfresh _ _ _ Hx2 Hk2).
  - by destruct (Hfresh _ _ _ Hx1 Hk1).
  - by eapply Hinj.
Qed.

(** The channel of a new subscription. *)
Definition fresh_chan bs (c : live_chan M) : Prop :=
  chan_contents c = [] ∧ chan_ok bs c ∧ chan_open c.

Lemma new_channel_fresh k (c : live_chan M) :
  1 ≤ buffered → new_channel g buffered = Done (k, c) → k = kind_of ∧ ∀ bs, fresh_chan bs c.
Proof.
  intros Hbuf. unfold new_channel, fresh_chan, chan_ok, kind_of. destruct g; simpl.
  - intros [= <- <-]. by split_and!.
  - destruct (mpsc_channel buffered) as [m|] eqn:Hm; [|done]. intros [= <- <-].
    apply mpsc_channel_done in Hm as [_ Hv]. unfold mpsc_view in Hv. by injection Hv.
Qed.

Definition new_live (id : SubscriberId) : LiveReceiver :=
  match kind_of with SReliable => LReliable id | SBestEffort => LBestEffort id end.

(** A subscription to a running stream. *)
Lemma fresh_sub bs st rd log replay start new_chan :
  let id := next_subscriber_id bs in
  let bs' := (BroadcastState.add_subscriber bs kind_of).2 in
  let x := mkSub (mkShared (Some id) replay start (new_live id) false) [] (event <$> replay) (replay_sealed bs) (length log) in
  fresh_chan bs' new_chan → id + 1 < word_modulus → BroadcastState.replay_snapshot bs retention = (replay, start) →
  log_inv bs log → window_inv bs log → reader_inv bs rd log →
  sub_inv bs' (<[id := new_chan]> st) rd log x ∧ sub_key x = Some id.
Proof.
  intros id bs' x (Hcc & Hco & Hop) Hid Hsnap Hlog Hwin Hrd.
  destruct (snapshot_of_state bs log replay start Hsnap Hlog Hwin) as (-> & Hended & Hlast & Hpromise).
  assert (sub_key x = Some id) as Hkey by (unfold sub_key, x, new_live; simpl; by destruct kind_of).
  assert (contents_at (<[id := new_chan]> st) (Some id) = []) as Hcont.
  { unfold contents_at. simpl. by rewrite lookup_insert_eq. }
  assert (next_subscriber_id bs' = id + 1) as Hnext by (simpl; by rewrite wrapping_add_small).
  split; [|done]. split_and!; simpl; try done.
  - apply fresh_delivery; simpl; try done; rewrite Hkey; [done|]. by eapply pending_fresh.
  - unfold key_inv. rewrite Hkey. split; [by left|]. split_and!.
    + lia.
    + exists new_chan. rewrite lookup_insert_eq, Hcc. split_and!; done.
    + simpl. by rewrite lookup_insert_eq.
    + intros e ts stale -> Hin. pose proof (pending_fresh _ _ _ id Hrd ltac:(done)) as Hp.
      simpl in Hp. by rewrite decide_True in Hp.
    + intros e ts stale -> Hin. destruct Hrd as (_ & _ & _ & Hst & _).
      rewrite Forall_forall in Hst. apply Hst in Hin. lia.
  - unfold ended_inv. rewrite Hkey, Hcont, app_nil_r. done.
  - by eapply fresh_snapshot.
  - intros t Ht _. by apply Hlast.
Qed.

(** The others and the reader do not notice a new subscription. *)
Lemma add_subscriber_frame bs st (subs : gmap N SubState) rd log new_chan :
  let id := next_subscriber_id bs in
  let bs' := (BroadcastState.add_subscriber bs kind_of).2 in
  id + 1 < word_modulus → map_Forall (λ _, sub_inv bs st rd log) subs → registry_inv bs → reader_inv bs rd log →
  map_Forall (λ _, sub_inv bs' (<[id := new_chan]> st) rd log) subs ∧ registry_inv bs' ∧ reader_inv bs' rd log.
Proof.
  intros id bs' Hid Hsubs Hreg Hrd.
  assert (next_subscriber_id bs' = id + 1) as Hnext by (simpl; by rewrite wrapping_add_small). split_and!.
  - intros h' x Hx. eapply sub_inv_frame; [by apply (Hsubs h')|done|done|lia| |by left].
    intros k Hk. destruct (Hsubs h' x Hx) as (_ & _ & Hki & _). unfold key_inv in Hki.
    rewrite Hk in Hki. destruct Hki as [_ [Hlt _]]. simpl. rewrite !lookup_insert_ne by lia. done.
  - intros k kd Hk0. simpl in Hk0. apply lookup_insert_Some in Hk0 as [[<- <-]|[? Hk]]; rewrite Hnext; [split; [lia|done]|].
    destruct (Hreg k kd Hk). split; [lia|done].
  - destruct rd as [|e ts stale|]; try done. destruct Hrd as (? & ? & Hts & Hst & ? & ?).
    split_and!; try done; rewrite Hnext.
    + eapply Forall_impl; [exact Hts|]. simpl. intros t [? ?]. split; [lia|done].
    + eapply Forall_impl; [exact Hst|]. simpl. intros. lia.
Qed.

Lemma inv_subscribe bs st subs rd log h s bs' st' :
  1 ≤ buffered → subs !! h = None → next_subscriber_id bs + 1 < word_modulus →
  fanout_subscribe g retention buffered bs st = Done (s, bs', st') →
  inv (mkSystem bs st subs rd log) →
  inv (mkSystem bs' st' (<[h := mkSub s [] (event <$> ss_replay s) (replay_sealed bs) (length log)]> subs) rd log).
Proof.
  intros Hbuf Hh Hid Hsub (Hsubs & Hinj & Hreg & Hrd & Hlog & Hwin). simpl in *.
  unfold fanout_subscribe in Hsub.
  destruct (new_channel g buffered) as [[k chan]|] eqn:Hchan; [|done]. cbn [mbind outcome_bind] in Hsub.
  destruct (new_channel_fresh k chan Hbuf Hchan) as [-> Hfresh].
  destruct (BroadcastState.replay_snapshot bs retention) as [replay start] eqn:Hsnap.
  destruct (closed bs || bool_decide (is_Some (terminal bs))) eqn:Hover.
  - destruct (snapshot_of_state bs log replay start Hsnap Hlog Hwin) as (-> & Hended & Hlast & Hpromise).
    injection Hsub as <- <- <-. refine (conj _ (conj _ (conj Hreg (conj Hrd (conj Hlog Hwin))))); simpl.
    + apply map_Forall_insert_2; [|done]. split_and!; simpl; try done.
      * apply fresh_delivery; try done. by destruct rd.
      * split; [done|]. apply orb_true_iff in Hover as [?|Ht%bool_decide_eq_true]; auto.
      * unfold ended_inv. simpl. unfold contents_at. simpl. by rewrite app_nil_r.
      * by eapply fresh_snapshot.
      * intros t Ht _. by apply Hlast.
    + by apply keys_insert.
  - destruct (fresh_sub bs st rd log replay start chan (Hfresh _) Hid Hsnap Hlog Hwin Hrd) as [Hnew Hkey].
    destruct (add_subscriber_frame bs st subs rd log chan Hid Hsubs Hreg Hrd) as (Hold & Hreg' & Hrd').
    injection Hsub as <- <- <-. refine (conj _ (conj _ (conj Hreg' (conj Hrd' (conj Hlog Hwin))))); simpl.
    + by apply map_Forall_insert_2.
    + apply keys_insert; [done|]. intros h' y k Hy Hk Hx. pose proof (eq_trans (eq_sym Hkey) Hx) as [= <-].
      destruct (Hsubs h' y Hy) as (_ & _ & Hki & _). unfold key_inv in Hki.
      rewrite Hk in Hki. destruct Hki as [_ [Hlt _]]. lia.
Qed.

(** *** Receiving *)

Lemma chan_recv_some (c : live_chan M) e es :
  chan_contents c = e :: es →
  ∃ c', chan_recv c = (Ready (Some e), c') ∧ chan_contents c' = es ∧
    (∀ bs, chan_ok bs c → chan_ok bs c') ∧ (chan_open c → chan_open c').
Proof.
  destruct c as [m|q]; simpl; intros Hc.
  - pose proof (mpsc_recv_spec m) as Hspec. rewrite Hc in Hspec. destruct Hspec as [Hr Hv].
    destruct (mpsc_recv m) as [r m']. simpl in *. subst r. unfold mpsc_view in Hv.
    injection Hv as Hc' _ _ Hrx. exists (ChReliable m'). split_and!; try done.
    intros bs. unfold chan_ok. destruct g; [done|]. congruence.
  - unfold BestEffortLiveQueue.recv. rewrite Hc. eexists. split_and!; try done.
    intros bs. unfold chan_ok. destruct g; [|done]. simpl. rewrite Hc.
    intros (? & Hnt & ?). split_and!; try done. intros Hq. specialize (Hnt Hq).
    by apply Forall_cons in Hnt as [_ ?].
Qed.

Lemma chan_recv_none (c : live_chan M) :
  chan_contents c = [] →
  (chan_recv c).2 = c ∧ ((chan_recv c).1 = Pending ∨ (chan_recv c).1 = Ready None).
Proof.
  destruct c as [m|q]; simpl; intros Hc.
  - pose proof (mpsc_recv_spec m) as Hspec. rewrite Hc in Hspec. rewrite Hspec.
    destruct (mpsc_tx_open m); auto.
  - unfold BestEffortLiveQueue.recv. rewrite Hc. destruct (q_closed q); auto.
Qed.

(** One poll takes the next event out of the replay or else out of the
    channel; the loop never has to skip one. *)
Definition recv_result (bs : BroadcastState) (st : store M) (x : SharedSubscription)
    (r : poll (option StreamEvent)) (x' : SharedSubscription) (bs' : BroadcastState) (st' : store M) : Prop :=
  (∃ e rest, ss_replay x = e :: rest ∧ r = Ready (Some (event e)) ∧ st' = st ∧
     (x', bs') = (let y := mkShared (ss_id x) rest (live_start_seq x) (live_receiver x) (ss_done x) in
                  if is_terminal (event e) then detach y bs else (y, bs))) ∨
  (ss_replay x = [] ∧ x' = x ∧ bs' = bs ∧ st' = st ∧ (r = Pending ∨ r = Ready None)) ∨
  (ss_replay x = [] ∧ ∃ k c e es c', live_key (live_receiver x) = Some k ∧ st !! k = Some c ∧
     chan_contents c = e :: es ∧ chan_contents c' = es ∧
     (∀ bs, chan_ok bs c → chan_ok bs c') ∧ (chan_open c → chan_open c') ∧
     r = Ready (Some (event e)) ∧ st' = <[k := c']> st ∧
     (x', bs') = (if is_terminal (event e) then detach x bs else (x, bs))).

Lemma shared_recv_cases bs st rd s r x' bs' st' :
  key_inv bs st rd s → shared_recv (sub s) bs st = (r, x', bs', st') →
  recv_result bs st (sub s) r x' bs' st'.
Proof.
  intros Hkey Hrecv. unfold shared_recv in Hrecv. unfold recv_result.
  destruct (ss_replay (sub s)) as [|e rest] eqn:Hrep.
  2: { left. exists e, rest. unfold hand_out in Hrecv.
       destruct (is_terminal (event e)); simplify_eq/=; done. }
  right. unfold key_inv, sub_key in Hkey. cbn [recv_live_loop] in Hrecv. unfold live_recv in Hrecv.
  destruct (live_key (live_receiver (sub s))) as [k|] eqn:Hk.
  2: { left. simplify_eq. split_and!; auto. }
  destruct Hkey as [_ (_ & (c & Hc & _ & Hseq & _) & _)]. rewrite Hc in Hrecv.
  destruct (chan_contents c) as [|e es] eqn:Hcc.
  - left. destruct (chan_recv_none c Hcc) as [Hc2 Hc1].
    destruct (chan_recv c) as [r0 c0]. simpl in *. subst c0. rewrite (insert_id _ _ _ Hc) in Hrecv.
    destruct Hc1 as [->| ->]; simplify_eq; split_and!; auto.
  - right. split; [done|]. destruct (chan_recv_some c e es Hcc) as (c' & Hr & Hcc' & Hok & Hop).
    rewrite Hr in Hrecv. apply Forall_cons in Hseq as [He _].
    rewrite (proj2 (N.ltb_ge _ _)) in Hrecv by done.
    exists k, c, e, es, c'. unfold hand_out in Hrecv.
    destruct (is_terminal (event e)); simplify_eq/=; split_and!; done.
Qed.

(** Detaching at the end of the stream changes the registry only. *)
Lemma detach_fields x bs x' bs' e :
  (x', bs') = (if is_terminal (event e) then detach x bs else (x, bs)) →
  fewer_subscribers bs bs' ∧ ss_replay x' = ss_replay x ∧ live_start_seq x' = live_start_seq x ∧
  live_receiver x' = live_receiver x ∧ (ss_id x' = ss_id x ∨ ss_id x' = None) ∧
  (is_terminal (event e) = false → bs' = bs).
Proof.
  destruct (is_terminal (event e)); unfold detach; intros [= -> ->]; simpl; split_and!; auto; try done.
  - destruct (ss_id x); [apply fewer_remove|apply fewer_refl].
  - apply fewer_refl.
Qed.

Lemma sub_recv bs bs' st st' rd log s s' :
  sub_inv bs st rd log s →
  sub_key s' = sub_key s → live_start_seq (sub s') = live_start_seq (sub s) →
  snapshot s' = snapshot s → sealed_before s' = sealed_before s → attached_at s' = attached_at s →
  ss_id (sub s') = ss_id (sub s) ∨ ss_id (sub s') = None →
  fewer_subscribers bs bs' → is_Some (terminal bs) ∨ bs' = bs →
  observed st' rd s' = observed st rd s →
  ss_replay (sub s') ⊆ ss_replay (sub s) →
  (∀ k c, sub_key s = Some k → st !! k = Some c → ∃ c', st' !! k = Some c' ∧
     (∀ bs, chan_ok bs c → chan_ok bs c') ∧ (chan_open c → chan_open c') ∧
     chan_contents c' ⊆ chan_contents c) →
  sub_inv bs' st' rd log s'.
Proof.
  intros (Hstart & Hdel & Hkey & Hend & Hsnap & Htail) Hk Hs Hsn Hse Hat Hid [_ Hf] Hreg Hobs Hrep Hchan.
  assert (closed bs' = closed bs ∧ terminal bs' = terminal bs ∧
    next_subscriber_id bs' = next_subscriber_id bs) as (Hcl & Hterm & Hnid) by (by rewrite Hf).
  split_and!.
  - unfold start_inv in *. by rewrite Hs, Hat.
  - unfold delivery_inv, promised in *. by rewrite Hat, Hsn, Hobs, Hcl.
  - unfold key_inv in *. rewrite Hk. destruct (sub_key s) as [k|] eqn:Hsk.
    + destruct Hkey as [Hsid (Hlt & (c & Hc & Hok & Hseq & Hop) & Hr & Htgt & Hst)].
      split; [destruct Hid as [->| ->]; auto|].
      destruct (Hchan k c eq_refl Hc) as (c' & Hc' & Hok' & Hop' & Hsub).
      split_and!; try done; [by rewrite Hnid| | |by rewrite Hs].
      * exists c'. rewrite Hs. split_and!; [done| | |].
        -- apply Hok'. unfold chan_ok in *. destruct g, c; rewrite ?Hcl, ?Hterm; done.
        -- rewrite Forall_forall in *. intros e He. apply Hseq. by apply Hsub.
        -- intros e ts stale He Hin. apply Hop'. by eapply Hop.
      * rewrite Hcl, Hterm. destruct Hreg as [[t Ht]| ->]; [congruence|done].
    + rewrite Hcl, Hterm. destruct Hkey as [Hn Hc]. split; [|done]. destruct Hid; congruence.
  - unfold ended_inv in *. rewrite Hterm, Hk. apply Forall_app in Hend as [He1 He2].
    rewrite Forall_forall in He1, He2. apply Forall_app. rewrite !Forall_forall. split.
    + intros e He. apply He1. by apply Hrep.
    + intros e He. apply He2. unfold contents_at in *. destruct (sub_key s) as [k|] eqn:Hsk; [|done].
      simpl in *. unfold key_inv in Hkey. rewrite Hsk in Hkey.
      destruct Hkey as [_ (_ & (c & Hc & _) & _)]. rewrite Hc.
      destruct (Hchan k c eq_refl Hc) as (c' & Hc' & _ & _ & Hsub). rewrite Hc' in He. by apply Hsub.
  - unfold snapshot_inv in *. by rewrite Hat, Hsn, Hse.
  - unfold tail_inv in *. by rewrite Hat, Hsn, Hterm.
Qed.

(** What one [recv] does to the registry, the channels and its subscription. *)
Lemma recv_effect bs st rd log s r x' bs' st' :
  sub_inv bs st rd log s → shared_recv (sub s) bs st = (r, x', bs', st') →
  let s' := mkSub x' (received s ++ match r with Ready (Some e) => [e] | _ => [] end)
              (snapshot s) (sealed_before s) (attached_at s) in
  fewer_subscribers bs bs' ∧ (is_Some (terminal bs) ∨ bs' = bs) ∧
  (∀ k, sub_key s ≠ Some k → st' !! k = st !! k) ∧ sub_key s' = sub_key s ∧
  sub_inv bs' st' rd log s'.
Proof.
  intros Hs Hrecv s'. pose proof Hs as (_ & _ & Hkey & Hend & _).
  apply (shared_recv_cases bs st rd s) in Hrecv; [|done].
  destruct Hrecv as [(e & rest & Hrep & -> & -> & Hx)|[(Hrep & -> & -> & -> & Hr)|(Hrep & Hx)]].
  - apply detach_fields in Hx as (Hf & Hrep' & Hstart' & Hlive' & Hid' & Hb). simpl in *.
    assert (is_Some (terminal bs) ∨ bs' = bs) as Hb'.
    { destruct (is_terminal (event e)) eqn:He; [left|by right; apply Hb].
      unfold ended_inv in Hend. rewrite Hrep in Hend. by apply Forall_cons in Hend as [Hend _]; apply Hend. }
    assert (sub_key s' = sub_key s) as Hk by (unfold sub_key, s'; simpl; by rewrite Hlive').
    split_and!; try done. eapply sub_recv; try done.
    + unfold observed. rewrite Hk. simpl. rewrite Hrep', Hrep. simpl. by rewrite <- !(assoc_L (++)).
    + simpl. rewrite Hrep', Hrep. apply list_subseteq_cons. done.
    + intros k c _ Hc. exists c. done.
  - assert (sub_key s' = sub_key s) as Hk by done.
    split_and!; try done; [apply fewer_refl|by right|].
    apply (sub_recv bs bs st st rd log s s'); try done; [by left|apply fewer_refl|by right| |].
    + unfold observed. rewrite Hk. simpl. destruct Hr as [->| ->]; by rewrite app_nil_r.
    + intros k c _ Hc. exists c. done.
  - destruct Hx as (k & c & e & es & c' & Hlk & Hc & Hcc & Hcc' & Hok & Hop & -> & -> & Hx).
    apply detach_fields in Hx as (Hf & Hrep' & Hstart' & Hlive' & Hid' & Hb). simpl in *.
    assert (sub_key s = Some k) as Hsk by done.
    assert (is_Some (terminal bs) ∨ bs' = bs) as Hb'.
    { destruct (is_terminal (event e)) eqn:He; [left|by right; apply Hb].
      unfold ended_inv in Hend. rewrite Hrep, Hsk in Hend. unfold contents_at in Hend. simpl in Hend.
      rewrite Hc, Hcc in Hend. by apply Forall_cons in Hend as [Hend _]; apply Hend. }
    assert (sub_key s' = sub_key s) as Hk by (unfold sub_key, s'; simpl; by rewrite Hlive').
    split_and!; try done.
    { intros k' Hne. rewrite lookup_insert_ne; congruence. }
    eapply sub_recv; try done.
    + unfold observed, contents_at. rewrite Hk, Hsk. simpl. rewrite lookup_insert_eq, Hc, Hrep', Hrep.
      simpl. rewrite Hcc, Hcc'. simpl. by rewrite <- !(assoc_L (++)).
    + simpl. by rewrite Hrep'.
    + intros k' d Hk' Hd. assert (k' = k) as -> by congruence. exists c'. rewrite lookup_insert_eq.
      assert (d = c) as -> by congruence. split_and!; try done. rewrite Hcc, Hcc'. by apply list_subseteq_cons.
Qed.

Lemma inv_recv bs st subs rd log h s r x' bs' st' :
  subs !! h = Some s → shared_recv (sub s) bs st = (r, x', bs', st') →
  inv (mkSystem bs st subs rd log) →
  inv (mkSystem bs' st' (<[h := mkSub x' (received s ++ match r with Ready (Some e) => [e] | _ => [] end)
                             (snapshot s) (sealed_before s) (attached_at s)]> subs) rd log).
Proof.
  intros Hh Hrecv (Hsubs & Hinj & Hreg & Hrd & Hlog & Hwin). simpl in *.
  destruct (recv_effect _ _ _ _ _ _ _ _ _ (Hsubs h s Hh) Hrecv) as (Hf & Hb & Hst & Hk & Hs').
  set (s' := mkSub _ _ _ _ _) in *.
  pose proof (global_fewer _ _ _ _ Hf (conj Hreg (conj Hrd (conj Hlog Hwin)))) as (? & ? & ? & ?).
  split_and!; simpl; try done.
  - intros h' x [[<- <-]|[Hne Hx]]%lookup_insert_Some; [done|].
    destruct Hf as [_ Hf].
    eapply sub_inv_frame; [by apply (Hsubs h')|by rewrite Hf|by rewrite Hf|by rewrite Hf| |by left].
    intros k Hxk. split; [apply Hst; intros Hsk; apply Hne; by eapply Hinj|].
    intros _ Hn. destruct Hb as [[t Ht]| ->]; [congruence|done].
  - intros h1 h2 x1 x2 k Hx1 Hx2 Hk1 Hk2.
    assert (∀ h' x, <[h:=s']> subs !! h' = Some x → sub_key x = Some k →
      ∃ y, subs !! h' = Some y ∧ sub_key y = Some k) as Hback.
    { intros h' x [[<- <-]|[? Hx]]%lookup_insert_Some Hxk; [exists s; by rewrite <- Hk|by exists x]. }
    destruct (Hback _ _ Hx1 Hk1) as (y1 & ? & ?). destruct (Hback _ _ Hx2 Hk2) as (y2 & ? & ?).
    by eapply Hinj.
Qed.

Lemma inv_step s s' : 1 ≤ buffered → step s s' → inv s → inv s'.
Proof.
  intros Hbuf Hstep. destruct Hstep; intros Hinv.
  - by eapply inv_append.
  - by eapply inv_send.
  - by apply inv_append_done.
  - by eapply inv_subscribe.
  - by eapply inv_recv.
  - by eapply inv_drop_subscription.
  - by apply inv_seal.
  - by eapply inv_drop_stream.
  - by apply inv_release.
Qed.

Lemma reachable_inv s : 1 ≤ buffered → reachable s → inv s.
Proof. intros Hbuf. induction 1; [apply inv_initial|by eapply inv_step]. Qed.

(** *** Runs *)

(** Sealed, with nothing retained. *)
Definition emptied (bs : BroadcastState) : Prop := replay_sealed bs = true ∧ bs_replay bs = [].

(** What a run leaves alone: the log grows, a seal stays, and a subscription
    keeps what it started with; new ones find the seal that was there. *)
Record later (s s' : System) : Prop := {
  later_log : (length (s_log s) ≤ length (s_log s'))%nat;
  later_emptied : emptied (s_bs s) → emptied (s_bs s');
  later_subs h x' :
    s_subs s' !! h = Some x' →
    (∃ x, s_subs s !! h = Some x ∧ snapshot x' = snapshot x ∧ attached_at x' = attached_at x ∧
       sealed_before x' = sealed_before x) ∨
    ((length (s_log s) ≤ attached_at x')%nat ∧ (emptied (s_bs s) → sealed_before x' = true));
}.

#[local] Instance later_preorder : PreOrder later.
Proof.
  split.
  - intros s. split; [done|done|]. intros h x Hx. left. by exists x.
  - intros s1 s2 s3 [Hl1 Hs1 Hh1] [Hl2 Hs2 Hh2]. split; [lia|auto|]. intros h x' Hx'.
    destruct (Hh2 h x' Hx') as [(x & Hx & -> & -> & ->)|[Hat Hse]]; [by apply Hh1|]. right. split; [lia|auto].
Qed.

(** A step that keeps the subscriptions. *)
Lemma later_same bs bs' st st' subs rd rd' log log' :
  (length log ≤ length log')%nat → (emptied bs → emptied bs') →
  later (mkSystem bs st subs rd log) (mkSystem bs' st' subs rd' log').
Proof. intros Hl He. split; cbn; [done|done|]. intros h x Hx. left. by exists x. Qed.

Lemma emptied_fewer bs bs' : fewer_subscribers bs bs' → emptied bs → emptied bs'.
Proof. intros [_ ->]. done. Qed.

Lemma step_later s s' : step s s' → inv s → later s s'.
Proof.
  destruct 1 as [bs st subs log e ie ts bs' _ _ Hbeg| |bs st subs log ie stale
    |bs st subs rd log h x bs' st' _ _ Hsub|bs st subs rd log h x r x' bs' st' Hx Hrecv
    |bs st subs rd log h x bs' st' Hx Hdrop| |bs st subs rd log bs' st' Hdrop|]; intros Hinv.
  - apply later_same; [rewrite length_app; lia|]. intros [Hse He].
    apply append_begin_inv in Hbeg as (_ & _ & _ & _ & _ & _ & _ & _ & bs1 & Hp & Hr & Hs & _).
    unfold emptied. rewrite Hr, Hs. unfold BroadcastState.push_event in Hp. cbn in Hp. rewrite Hse, andb_false_r in Hp.
    injection Hp as _ <-. by destruct e.
  - by apply later_same.
  - apply later_same; [done|]. unfold append_end. destruct (is_terminal (event ie)); [done|].
    apply emptied_fewer, remove_all_fewer.
  - unfold fanout_subscribe in Hsub. destruct (new_channel g buffered) as [[k c]|]; [|done].
    cbn in Hsub. split; cbn; [done| |].
    + destruct (closed bs || _); by injection Hsub as _ <- _.
    + intros h' y. rewrite lookup_insert_Some. intros [[<- <-]|[_ Hy]]; [right; cbn; split; [done|by intros []]|].
      left. by exists y.
  - destruct Hinv as (Hsubs & _). destruct (recv_effect _ _ _ _ _ _ _ _ _ (Hsubs h x Hx) Hrecv) as (Hf & _).
    split; cbn; [done|by apply emptied_fewer|]. intros h' y. rewrite lookup_insert_Some.
    intros [[<- <-]|[_ Hy]]; left; [by exists x|by exists y].
  - split; cbn; [done| |].
    + unfold shared_drop in Hdrop. injection Hdrop as <- _. destruct (ss_done (sub x)); [done|].
      by destruct (ss_id (sub x)).
    + intros h' y. rewrite lookup_delete_Some. intros [_ Hy]. left. by exists y.
  - by apply later_same.
  - unfold stream_drop in Hdrop. injection Hdrop as <- _. by apply later_same.
  - by apply later_same.
Qed.

Lemma run_later s s' : 1 ≤ buffered → rtc step s s' → inv s → later s s' ∧ inv s'.
Proof.
  intros Hb. induction 1 as [s|s s1 s' Hst _ IH]; intros Hinv; [by split|].
  destruct (IH (inv_step _ _ Hb Hst Hinv)) as [Hl Hi]. split; [|done]. etrans; [by apply step_later|done].
Qed.

End system.


(** ** Running the system *)

Inductive action : Type :=
| AAppend (e : StreamEvent)
| ASend
| AAppendDone
| ASubscribe (h : N)
| ARecv (h : N)
| ADropSubscription (h : N)
| ASeal
| ADropStream.

Section run.
Context {M : Type} `{MpscLaws M IndexedEvent}.
Context (g : DeliveryGuarantee) (retention : option ReplayRetention) (buffered : N).

(** One action, if its guard holds. *)
Definition perform (a : action) (s : System (M := M)) : option System :=
  let '(mkSystem bs st subs rd log) := s in
  match a, rd with
  | AAppend e, RIdle =>
      if negb (bool_decide (e = Gap)) && small_logb (log ++ [e]) then
        '(indexed, targets, bs) ← append_begin bs e retention;
        Some (mkSystem bs st subs (RSending indexed targets []) (log ++ [e]))
      else None
  | ASend, RSending indexed (t :: ts) stale =>
      '(st, is_stale) ← append_send g indexed t st;
      Some (mkSystem bs st subs
        (RSending indexed ts (if is_stale : bool then t.1 :: stale else stale)) log)
  | AAppendDone, RSending indexed [] stale =>
      Some (mkSystem (append_end indexed stale bs) st subs
        (if is_terminal (event indexed) then RStopped else RIdle) log)
  | ASubscribe h, _ =>
      if bool_decide (subs !! h = None) && (next_subscriber_id bs + 1 <? word_modulus) then
        match fanout_subscribe g retention buffered bs st with
        | Done (x, bs', st) =>
            Some (mkSystem bs' st (<[h := mkSub x [] (event <$> ss_replay x) (replay_sealed bs) (length log)]> subs) rd log)
        | Panic => None
        end
      else None
  | ARecv h, _ =>
      x ← subs !! h;
      let '(r, y, bs, st) := shared_recv (sub x) bs st in
      Some (mkSystem bs st
        (<[h := mkSub y (received x ++ match r with Ready (Some e) => [e] | _ => [] end)
                  (snapshot x) (sealed_before x) (attached_at x)]> subs) rd log)
  | ADropSubscription h, _ =>
      x ← subs !! h;
      let '(bs, st) := shared_drop (sub x) bs st in
      Some (mkSystem bs st (delete h subs) rd log)
  | ASeal, _ => Some (mkSystem (BroadcastState.seal_replay bs) st subs rd log)
  | ADropStream, _ =>
      let '(bs, st) := stream_drop bs st in Some (mkSystem bs st subs RStopped log)
  | _, _ => None
  end.

Fixpoint perform_all (acts : list action) (s : System) : option System :=
  match acts with
  | [] => Some s
  | a :: acts => s ← perform a s; perform_all acts s
  end.

Lemma perform_step a s s' : perform a s = Some s' → step g retention buffered s s'.
Proof.
  destruct s as [bs st subs rd log]. unfold perform. intros Hp.
  destruct a; destruct rd as [|ie [|t ts] stale|]; try done.
  { destruct (bool_decide (e = Gap)) eqn:He; [done|]. apply bool_decide_eq_false in He.
    destruct (small_logb (log ++ [e])) eqn:Hs; [|done]. cbn [negb andb] in Hp.
    apply small_logb_spec in Hs.
    destruct (append_begin bs e retention) as [[[ie ts] bs']|] eqn:Hb; [|done].
    injection Hp as <-. by apply step_append. }
  { destruct (append_send g ie t st) as [[st' b]|] eqn:Hs; [|done]. injection Hp as <-.
    by apply (step_send g retention buffered bs st subs log ie [] t ts). }
  { injection Hp as <-. apply step_append_done. }
  all: try (injection Hp as <-; apply step_seal).
  all: try (destruct (stream_drop bs st) as [bs' st'] eqn:Hd; injection Hp as <-;
    by eapply step_drop_stream).
  all: try (destruct (bool_decide (subs !! h = None)) eqn:Hn; [|done];
    apply bool_decide_eq_true in Hn; destruct (N.ltb_spec (next_subscriber_id bs + 1) word_modulus); [|done];
    cbn [andb] in Hp; destruct (fanout_subscribe g retention buffered bs st) as [[[x bs'] st']|] eqn:Hf; [|done];
    injection Hp as <-; by eapply step_subscribe).
  all: destruct (subs !! h) as [x|] eqn:Hx; [|done]; simpl in Hp.
  all: try (destruct (shared_recv (sub x) bs st) as [[[r y] bs'] st'] eqn:Hr;
    injection Hp as <-; by eapply step_recv).
  all: destruct (shared_drop (sub x) bs st) as [bs' st'] eqn:Hr;
    injection Hp as <-; by eapply step_drop_subscription.
Qed.

Lemma perform_all_reachable acts s s' :
  reachable g retention buffered s → perform_all acts s = Some s' → reachable g retention buffered s'.
Proof.
  revert s. induction acts as [|a acts IH]; intros s Hr; simpl; [by intros [= <-]|].
  destruct (perform a s) as [s1|] eqn:Hp; [|done]. apply IH.
  eapply reachable_step; [done|by eapply perform_step].
Qed.

Lemma perform_all_run acts s s' : perform_all acts s = Some s' → rtc (step g retention buffered) s s'.
Proof.
  revert s. induction acts as [|a acts IH]; intros s; simpl; [by intros [= <-]|].
  destruct (perform a s) as [s1|] eqn:Hp; [|done]. intros Hall.
  eapply rtc_l; [by eapply perform_step|by apply IH].
Qed.

End run.

(** ** What a subscription sees *)

(** Nothing is on its way to the subscription any more. *)
Definition drained {M} `{Mpsc M IndexedEvent} (s : System (M := M)) (x : SubState) : Prop :=
  ss_replay (sub x) = [] ∧ contents_at (s_store s) (sub_key x) = [] ∧ not_sending (s_reader s).

Lemma drained_observed {M} `{Mpsc M IndexedEvent} (s : System (M := M)) x :
  drained s x → observed (s_store s) (s_reader s) x = received x.
Proof.
  intros (Hr & Hc & Hn). unfold observed. rewrite Hr, Hc.
  assert (pending (s_reader s) (sub_key x) = []) as -> by (by destruct (s_reader s)).
  apply app_nil_r.
Qed.

Lemma explains_nil obs : explains obs [] → obs = [].
Proof.
  intros Hex. remember [] as act eqn:Ha. destruct Hex as [| |lost obs act Hne]; [done..|].
  by destruct lost.
Qed.

(** A terminal event at the end is not lost. *)
Lemma explains_last obs act t :
  explains obs act → last act = Some t → is_terminal t = true → last obs = Some t.
Proof.
  intros Hex Hl Ht. destruct act as [|a act _] using rev_ind; [done|].
  rewrite last_snoc in Hl. injection Hl as ->.
  assert (∀ o a, explains o a → a = act ++ [t] → last o = Some t) as Hk; [|by eapply Hk].
  clear Hex obs. intros o a Hex. revert act. induction Hex as [|e obs a' Hex IH|lost obs a' Hne Hlt Hex IH];
    intros act Heq.
  - by destruct act.
  - destruct act as [|b act]; simplify_eq/=.
    + by apply explains_nil in Hex as ->.
    + pose proof (IH act eq_refl) as Hl. by rewrite last_cons, Hl.
  - destruct (decide (a' = [])) as [->|Ha'].
    + rewrite app_nil_r in Heq. subst lost. apply Forall_app in Hlt as [_ Hlt].
      apply Forall_cons in Hlt as [Hlt _]. congruence.
    + destruct a' as [|a'' l _] using rev_ind; [done|]. rewrite (assoc_L (++)) in Heq.
      apply app_inj_2 in Heq as [_ [= ->]]; [|done].
      pose proof (IH l eq_refl) as Hl. by rewrite last_cons, Hl.
Qed.

Lemma delivered_last g obs act t :
  delivered g obs act → last act = Some t → is_terminal t = true → last obs = Some t.
Proof. destruct g; simpl; [apply explains_last|by intros ->]. Qed.

Section claims.
Context {M : Type} `{MpscLaws M IndexedEvent}.
Implicit Types (s : System (M := M)) (x : SubState).

Lemma reachable_sub g retention buffered s h x :
  1 ≤ buffered → reachable g retention buffered s → s_subs s !! h = Some x →
  sub_inv g retention (s_bs s) (s_store s) (s_reader s) (s_log s) x ∧
  log_inv (s_bs s) (s_log s) ∧ reader_inv g (s_bs s) (s_reader s) (s_log s).
Proof.
  intros Hb Hr Hx. destruct (reachable_inv g retention buffered s Hb Hr) as (Hs & _ & _ & ? & ? & _).
  split_and!; [by apply (Hs h)|done|done].
Qed.

(** C4: reliable delivery of the fan-out backend.  Whatever the interleaving of the
    reader, other subscribers, drops and seals, a subscription has received a
    prefix of what it was promised: the replay it was given when it attached,
    followed by every event appended since, in order, without loss or
    duplicates.  As long as the stream was not dropped it has received all of it
    once nothing is on its way. *)
Theorem broadcast_reliable_exact retention buffered s h x :
  1 ≤ buffered → reachable GReliableWithBackpressure retention buffered s → s_subs s !! h = Some x →
  received x `prefix_of` snapshot x ++ drop (attached_at x) (s_log s) ∧
  (closed (s_bs s) = false → drained s x →
   received x = snapshot x ++ drop (attached_at x) (s_log s)).
Proof.
  intros Hb Hr Hx. destruct (reachable_sub _ _ _ _ _ _ Hb Hr Hx) as [Hs _].
  destruct Hs as (_ & (act & Hpre & Hd & Heq) & _). simpl in Hd. unfold promised in *. split.
  - etrans; [|exact Hpre]. rewrite <- Hd. by eexists.
  - intros Hcl Hdr. rewrite <- (Heq Hcl), <- Hd. by rewrite drained_observed.
Qed.

(** C8: lossy delivery of the fan-out backend marks its losses, while the stream
    is not dropped.  What a subscription has received, with
    what is on its way, is the replay it was given followed by the events
    appended since, except that runs of events are replaced by gap markers; an
    event is never lost without a marker, reordered or duplicated, and the
    terminal event is never lost. *)
Theorem broadcast_lossy_marked retention buffered s h x :
  1 ≤ buffered → reachable GLossyWithoutBackpressure retention buffered s →
  s_subs s !! h = Some x → closed (s_bs s) = false →
  ∃ rest, explains (received x ++ rest) (snapshot x ++ drop (attached_at x) (s_log s)) ∧
    (drained s x → rest = []).
Proof.
  intros Hb Hr Hx Hcl. destruct (reachable_sub _ _ _ _ _ _ Hb Hr Hx) as [Hs _].
  destruct Hs as (_ & (act & _ & Hd & Heq) & _). rewrite (Heq Hcl) in Hd. simpl in Hd.
  eexists. split; [exact Hd|]. intros Hdr%drained_observed. unfold observed in Hdr.
  apply (app_inv_head (received x)). by rewrite app_nil_r.
Qed.

(** C9: the replay a subscription of the fan-out backend is given is what the
    retention promises of the chunks appended before it attached (nothing if
    there is no replay or it was sealed before), followed by the terminal event
    if the stream had ended. *)
Theorem broadcast_replay_retention g retention buffered s h x :
  1 ≤ buffered → reachable g retention buffered s → s_subs s !! h = Some x →
  let seen := take (attached_at x) (s_log s) in
  let kept := match retention with
              | Some r => if sealed_before x then [] else retain_history r (log_chunks seen)
              | None => []
              end in
  snapshot x = (Chunk <$> kept) ++ filter (λ e, is_terminal e = true) seen.
Proof.
  intros Hb Hr Hx. destruct (reachable_sub _ _ _ _ _ _ Hb Hr Hx) as [Hs _].
  by destruct Hs as (_ & _ & _ & _ & Hsnap & _).
Qed.

(** C21: sealing a fan-out stream is final.  From any reachable state, after any
    further run of the reader, the subscribers and the stream's drop, the replay
    is still sealed and nothing is retained.  A subscription of that later state
    is one that was there when replay was sealed and has kept the replay it
    started with, or it came afterwards and was given none of the stream's
    chunks, only the terminal event if that had been appended. *)
Theorem broadcast_seal_final g retention buffered bs st subs rd log s' :
  1 ≤ buffered → reachable g retention buffered (mkSystem (M := M) bs st subs rd log) →
  rtc (step g retention buffered) (mkSystem (BroadcastState.seal_replay bs) st subs rd log) s' →
  replay_sealed (s_bs s') = true ∧ bs_replay (s_bs s') = [] ∧
  ∀ h x', s_subs s' !! h = Some x' →
    (∃ x, subs !! h = Some x ∧ attached_at x' = attached_at x ∧ snapshot x' = snapshot x) ∨
    ((length log ≤ attached_at x')%nat ∧
     snapshot x' = filter (λ e, is_terminal e = true) (take (attached_at x') (s_log s'))).
Proof.
  intros Hb Hr Hrun. pose proof (reachable_inv g retention buffered _ Hb Hr) as Hinv.
  destruct (run_later g retention buffered _ _ Hb Hrun) as [[_ Hse Hsubs] Hinv'].
  { eapply inv_step; [done|apply step_seal|done]. }
  destruct Hse as [Hsealed Hempty]; [done|]. split_and!; [done..|]. intros h x' Hx'.
  destruct (Hsubs h x' Hx') as [(x & Hx & Hsn & Hat & _)|[Hat Hs]]; [left; by exists x|right]. split; [done|].
  destruct Hinv' as (Hi & _). destruct (Hi h x' Hx') as (_ & _ & _ & _ & Hsnap & _).
  unfold snapshot_inv, retained in Hsnap. rewrite Hs in Hsnap by done. by destruct retention.
Qed.

(** With [replay_all] a subscription is promised the whole stream. *)
Lemma promised_all g buffered s h x :
  1 ≤ buffered → reachable g (Some All) buffered s → s_subs s !! h = Some x →
  sealed_before x = false → promised (s_log s) x = s_log s.
Proof.
  intros Hb Hr Hx Hse. destruct (reachable_sub _ _ _ _ _ _ Hb Hr Hx) as (Hs & Hlog & _).
  destruct Hs as (_ & _ & _ & _ & Hsnap & _).
  unfold promised. rewrite Hsnap, Hse. unfold retained, retain_history. simpl.
  trans (take (attached_at x) (s_log s) ++ drop (attached_at x) (s_log s)); [|apply take_drop]. f_equal.
  destruct Hlog as (_ & _ & Hterm & cs & Hcs). rewrite Hcs in *. clear -Hterm.
  set (n := attached_at x). unfold log_chunks.
  rewrite take_app, !filter_app, !fmap_app. rewrite <- !fmap_take.
  rewrite filter_chunk_chunks, filter_terminal_chunks.
  assert (∀ l : list chunk, event_bytes <$> (Chunk <$> l) = l) as Hid.
  { intros l. induction l as [|c l IH]; [done|]. by rewrite !fmap_cons, IH. }
  rewrite Hid, <- (assoc_L (++)). f_equal.
  destruct (terminal (s_bs s)) as [t|]; [|by rewrite take_nil].
  specialize (Hterm t eq_refl). destruct (n - _)%nat; simpl; [done|].
  rewrite take_nil, filter_cons_False, filter_cons_True by (done || by destruct (event t)). done.
Qed.

(** So is a subscription that attached before the first event. *)
Lemma promised_first g retention buffered s h x :
  1 ≤ buffered → reachable g retention buffered s → s_subs s !! h = Some x →
  attached_at x = 0%nat → promised (s_log s) x = s_log s.
Proof.
  intros Hb Hr Hx Hat. destruct (reachable_sub _ _ _ _ _ _ Hb Hr Hx) as (Hs & _ & _).
  destruct Hs as (_ & _ & _ & _ & Hsnap & _). unfold promised. rewrite Hsnap, Hat, drop_0, take_0.
  unfold retained, retain_history. destruct retention as [[| |]|], (sealed_before x); done.
Qed.

(** The end of the stream reaches everyone.  Once the reader has stopped at
    the end of the stream and nothing is on its way, the last event every
    subscription received is the terminal one, with either delivery guarantee
    and also if it attached after the end. *)
Lemma broadcast_terminal_last g retention buffered s h x :
  1 ≤ buffered → reachable g retention buffered s →
  s_subs s !! h = Some x → closed (s_bs s) = false → s_reader s = RStopped → drained s x →
  ∃ t, terminal (s_bs s) = Some t ∧ is_terminal (event t) = true ∧
    last (received x) = Some (event t).
Proof.
  intros Hb Hr Hx Hcl Hrd Hdr. destruct (reachable_sub _ _ _ _ _ _ Hb Hr Hx) as (Hs & Hlog & Hread).
  rewrite Hrd in Hread. destruct Hread as [?|[t Ht]]; [congruence|].
  destruct Hlog as (_ & _ & Hterm & cs & Hcs). specialize (Hterm t Ht). rewrite Ht in Hcs.
  destruct Hs as ([_ Hstart] & (act & _ & Hd & Heq) & _ & _ & _ & Htail).
  rewrite (Heq Hcl), drained_observed in Hd by done. exists t. split_and!; [done..|].
  eapply delivered_last; [exact Hd| |done]. unfold promised.
  destruct (decide (attached_at x = length (s_log s))) as [He|Hne].
  - rewrite drop_ge by lia. rewrite app_nil_r. by apply Htail.
  - rewrite Hcs, drop_app_le, (assoc_L (++)); [apply last_snoc|].
    rewrite Hcs, length_app in *. simpl in *. lia.
Qed.

End claims.

(** ** A run

    Two subscribers, the second attaching after the first chunk, and the end
    of the stream. *)

Module Demo.

Definition acts : list action :=
  [ASubscribe 0; AAppend (Chunk [x61; x62]); ASend; AAppendDone; ASubscribe 1; AAppend Eof;
   ASend; ASend; AAppendDone; ARecv 0; ARecv 0; ARecv 1; ARecv 1].

Definition final (g : DeliveryGuarantee) : System (M := ref_mpsc IndexedEvent) :=
  default initial (perform_all g (Some All) 2 acts initial).

Lemma final_reachable g : reachable g (Some All) 2 (final g).
Proof.
  destruct g; (apply (perform_all_reachable _ _ _ acts initial);
    [apply reachable_initial|vm_compute; reflexivity]).
Qed.

Definition second (g : DeliveryGuarantee) : SubState :=
  default (mkSub (mkShared None [] 0 LClosed false) [] [] false 0) (s_subs (final g) !! 1).

Lemma final_second g : s_subs (final g) !! 1 = Some (second g).
Proof. destruct g; vm_compute; reflexivity. Qed.

Lemma final_drained g : drained (final g) (second g).
Proof. destruct g; unfold drained; split_and!; vm_compute; reflexivity || exact I. Qed.

Lemma final_open g : closed (s_bs (final g)) = false ∧ s_reader (final g) = RStopped
  ∧ sealed_before (second g) = false.
Proof. destruct g; split_and!; vm_compute; reflexivity. Qed.

End Demo.

Lemma broadcast_reliable_exact_witness :
  received (Demo.second GReliableWithBackpressure) = [Chunk [x61; x62]; Eof].
Proof.
  destruct (Demo.final_open GReliableWithBackpressure) as (Hc & _ & _).
  destruct (broadcast_reliable_exact (Some All) 2 _ 1 _ ltac:(lia)
    (Demo.final_reachable GReliableWithBackpressure) (Demo.final_second _)) as [_ Heq].
  rewrite (Heq Hc (Demo.final_drained _)). vm_compute. reflexivity.
Defined.

Lemma broadcast_lossy_marked_witness :
  ∃ rest, explains (received (Demo.second GLossyWithoutBackpressure) ++ rest)
            (snapshot (Demo.second GLossyWithoutBackpressure) ++ [Eof]) ∧ rest = [].
Proof.
  destruct (Demo.final_open GLossyWithoutBackpressure) as (Hc & _ & _).
  destruct (broadcast_lossy_marked (Some All) 2 _ 1 _ ltac:(lia)
    (Demo.final_reachable GLossyWithoutBackpressure) (Demo.final_second _) Hc) as (rest & Hex & Hd).
  exists rest. split; [exact Hex|]. apply Hd, Demo.final_drained.
Defined.

Lemma broadcast_replay_retention_witness :
  snapshot (Demo.second GReliableWithBackpressure) = [Chunk [x61; x62]].
Proof.
  rewrite (broadcast_replay_retention _ (Some All) 2 _ 1 _ ltac:(lia)
    (Demo.final_reachable GReliableWithBackpressure) (Demo.final_second _)). vm_compute. reflexivity.
Defined.

(** One subscription before the seal, one after it. *)
Module SealedDemo.

Definition acts : list action := [ASubscribe 0; AAppend (Chunk [x61; x62]); ASend; AAppendDone].

Definition before : System (M := ref_mpsc IndexedEvent) :=
  default initial (perform_all GReliableWithBackpressure (Some All) 2 acts initial).

Lemma before_reachable :
  reachable GReliableWithBackpressure (Some All) 2
    (mkSystem (s_bs before) (s_store before) (s_subs before) (s_reader before) (s_log before)).
Proof.
  apply (perform_all_reachable _ _ _ acts initial); [apply reachable_initial|vm_compute; reflexivity].
Qed.

Definition sealed : System (M := ref_mpsc IndexedEvent) :=
  mkSystem (BroadcastState.seal_replay (s_bs before)) (s_store before) (s_subs before) (s_reader before) (s_log before).

Definition rest : list action := [ASubscribe 1; AAppend (Chunk [x63]); ASend; ASend; AAppendDone; ARecv 1].

Definition after : System (M := ref_mpsc IndexedEvent) :=
  default initial (perform_all GReliableWithBackpressure (Some All) 2 rest sealed).

Lemma after_run : rtc (step GReliableWithBackpressure (Some All) 2) sealed after.
Proof. apply (perform_all_run _ _ _ rest). vm_compute. reflexivity. Qed.

Definition newcomer : SubState :=
  default (mkSub (mkShared None [] 0 LClosed false) [] [] false 0) (s_subs after !! 1).

Lemma newcomer_there :
  s_subs after !! 1 = Some newcomer ∧ s_subs before !! 1 = None ∧ received newcomer = [Chunk [x63]].
Proof. vm_compute. auto. Qed.

End SealedDemo.

Lemma broadcast_seal_final_witness :
  received SealedDemo.newcomer = [Chunk [x63]] ∧
  snapshot SealedDemo.newcomer =
    filter (λ e, is_terminal e = true) (take (attached_at SealedDemo.newcomer) (s_log SealedDemo.after)).
Proof.
  destruct SealedDemo.newcomer_there as (Hs & Hno & Hrec). split; [exact Hrec|].
  destruct (broadcast_seal_final GReliableWithBackpressure (Some All) 2 _ _ _ _ _ SealedDemo.after
    ltac:(lia) SealedDemo.before_reachable SealedDemo.after_run) as (_ & _ & Hsubs).
  destruct (Hsubs 1 _ Hs) as [(x & Hx & _)|[_ Hsnap]]; [|exact Hsnap].
  rewrite Hno in Hx. discriminate Hx.
Defined.
