(* ===== verification/BroadcastLiveness.v ===== *)
(** * Progress of the broadcast system

    The system of [BroadcastSystem] cannot get stuck and its delivery comes to
    an end: the steps that move an event along ([productive]) strictly decrease
    a measure, and while an event is still on its way to a subscription one of
    them is enabled.  With reliable delivery this is where back-pressure could
    deadlock: the reader waits for a full channel, whose subscriber can always
    take an event out. *)

From S2P Require Import Prelude Stream Retention Broadcast BroadcastSystem.

Section liveness.
Context {M : Type} `{MpscLaws M IndexedEvent}.
Context (g : DeliveryGuarantee) (retention : option ReplayRetention) (buffered : N).
Implicit Types (s : System (M := M)) (st : store M) (x : SubState).

(** A subscriber takes an event, the reader hands one to a channel, or the
    reader is done with an event. *)
Inductive productive : System (M := M) → System → Prop :=
| productive_recv bs st subs rd log h x e y bs' st' :
    subs !! h = Some x → shared_recv (sub x) bs st = (Ready (Some e), y, bs', st') →
    productive (mkSystem bs st subs rd log)
      (mkSystem bs' st' (<[h := mkSub y (received x ++ [e]) (snapshot x) (sealed_before x) (attached_at x)]> subs) rd log)
| productive_send bs st subs log indexed ts1 t ts2 stale st' is_stale :
    append_send g indexed t st = Some (st', is_stale) →
    productive (mkSystem bs st subs (RSending indexed (ts1 ++ t :: ts2) stale) log)
      (mkSystem bs st' subs
         (RSending indexed (ts1 ++ ts2) (if is_stale : bool then t.1 :: stale else stale)) log)
| productive_done bs st subs log indexed stale :
    productive (mkSystem bs st subs (RSending indexed [] stale) log)
      (mkSystem (append_end indexed stale bs) st subs
         (if is_terminal (event indexed) then RStopped else RIdle) log).

Lemma productive_step s s' : productive s s' → step g retention buffered s s'.
Proof.
  destruct 1.
  - by eapply (step_recv g retention buffered _ _ _ _ _ _ _ (Ready (Some _))).
  - by apply step_send.
  - apply step_append_done.
Qed.

(** ** The measure *)

Definition reader_work (rd : reader) : nat :=
  match rd with RSending _ ts _ => S (2 * length ts) | RIdle | RStopped => 0 end.

(** The events under way: in a channel, in a replay, or in the reader's hands. *)
Definition under_way s : nat :=
  (map_sum (λ c, length (chan_contents c)) (s_store s)
   + map_sum (λ x, length (ss_replay (sub x))) (s_subs s) + reader_work (s_reader s))%nat.

Lemma send_contents indexed t st st' is_stale :
  append_send g indexed t st = Some (st', is_stale) →
  (map_sum (λ c, length (chan_contents c)) st' ≤ S (map_sum (λ c, length (chan_contents c)) st))%nat.
Proof.
  unfold append_send. destruct g, t.2; try (intros Heq; injection Heq as <- <-; lia);
    destruct (st !! t.1) as [[m|q]|] eqn:Hc; try (intros Heq; injection Heq as <- <-; lia).
  - destruct (BestEffortLiveQueue.push q indexed) as [q' ok] eqn:Hp. intros Heq. injection Heq as <- <-.
    pose proof (map_sum_insert (λ c, length (chan_contents c)) st t.1 _ (ChBestEffort q') Hc) as Hs.
    assert (length (q_events q') ≤ S (length (q_events q)))%nat; [|simpl in *; lia].
    unfold BestEffortLiveQueue.push in Hp. destruct (q_closed q); [by injection Hp as <- <-; lia|].
    destruct (event indexed); try (injection Hp as <- <-; simpl; rewrite length_app; simpl; lia).
    all: destruct (N.leb_spec (q_capacity q) (len (q_events q)));
      [destruct (N.ltb_spec 1 (q_capacity q))|]; injection Hp as <- <-;
      simpl; rewrite ?length_app; unfold len in *; simpl; lia.
  - pose proof (mpsc_try_send_spec m indexed) as Hspec.
    destruct (mpsc_try_send m indexed) as [m' []] eqn:Hm; intros Heq; try done; injection Heq as <- <-; [|lia].
    pose proof (map_sum_insert (λ c, length (chan_contents c)) st t.1 _ (ChReliable m') Hc) as Hs.
    destruct (mpsc_rx_open m); [|done]. destruct (mpsc_capacity m <=? _); [done|].
    destruct Hspec as [_ Hv]. unfold mpsc_view in Hv. simpl in Hv. injection Hv as Hcont _ _ _.
    simpl in Hs. rewrite Hcont, length_app in Hs. simpl in Hs. lia.
Qed.

Lemma productive_decreases s s' :
  inv g retention s → productive s s' → (under_way s' < under_way s)%nat.
Proof.
  intros Hinv Hp. unfold under_way.
  destruct Hp as [bs st subs rd log h x e y bs' st' Hx Hr|bs st subs log ie ts1 t ts2 stale st' b Hs|]; simpl.
  - destruct Hinv as (Hsubs & _). destruct (Hsubs h x Hx) as (_ & _ & Hkey & _). simpl in *.
    apply (shared_recv_cases g bs st rd x) in Hr; [|done].
    pose proof (map_sum_insert (λ x, length (ss_replay (sub x))) subs h x
      (mkSub y (received x ++ [e]) (snapshot x) (sealed_before x) (attached_at x)) Hx) as Hsum. simpl in Hsum.
    destruct Hr as [(e' & rest & Hrep & _ & -> & Hy)|[(_ & _ & _ & _ & [?|?])|(Hrep & Hl)]]; try done.
    + apply detach_fields in Hy as (_ & Hy & _). simpl in Hy. rewrite Hy, Hrep in Hsum. simpl in Hsum. lia.
    + destruct Hl as (k & c & e' & es & c' & _ & Hk & Hc & Hc' & _ & _ & _ & -> & Hy).
      apply detach_fields in Hy as (_ & Hy & _). rewrite Hy in Hsum.
      pose proof (map_sum_insert (λ c, length (chan_contents c)) st k c c' Hk) as Hst. simpl in Hst.
      rewrite Hc, Hc' in Hst. simpl in Hst. lia.
  - apply send_contents in Hs. rewrite !length_app. simpl. lia.
  - destruct (is_terminal _); simpl; lia.
Qed.

(** ** Every open channel has a subscriber *)

(** Channels that are open were open before, with the same capacity. *)
Definition chan_le st st' : Prop :=
  ∀ k m', st' !! k = Some (ChReliable m') → mpsc_rx_open m' = true →
    ∃ m, st !! k = Some (ChReliable m) ∧ mpsc_rx_open m = true ∧ mpsc_capacity m' = mpsc_capacity m.

#[local] Instance chan_le_preorder : PreOrder chan_le.
Proof.
  split; [by intros st k m' Hk Ho; eauto|]. intros st1 st2 st3 H1 H2 k m' Hk Ho.
  destruct (H2 k m' Hk Ho) as (m & Hm & Ho' & Hc). destruct (H1 k m Hm Ho') as (m0 & ? & ? & ?).
  exists m0. split_and!; [done..|congruence].
Qed.

(** Replacing a channel by one that looks the same from outside. *)
Lemma chan_le_insert st k c c' :
  st !! k = Some c →
  (∀ m', c' = ChReliable m' → mpsc_rx_open m' = true →
     ∃ m, c = ChReliable m ∧ mpsc_rx_open m = true ∧ mpsc_capacity m' = mpsc_capacity m) →
  chan_le st (<[k := c']> st).
Proof.
  intros Hk Hc k' m' [[<- Heq]|[_ Hk']]%lookup_insert_Some Ho; [|eauto].
  destruct (Hc m' Heq Ho) as (m & -> & ? & ?). eauto.
Qed.

Lemma send_chan_le indexed t st st' is_stale :
  append_send g indexed t st = Some (st', is_stale) → chan_le st st'.
Proof.
  unfold append_send. destruct g, t.2; try (intros Heq; by injection Heq as <- <-);
    destruct (st !! t.1) as [[m|q]|] eqn:Hc; try (intros Heq; by injection Heq as <- <-).
  - destruct (BestEffortLiveQueue.push q indexed) as [q' ok]. intros Heq. injection Heq as <- <-.
    by eapply chan_le_insert.
  - pose proof (mpsc_try_send_spec m indexed) as Hspec.
    destruct (mpsc_try_send m indexed) as [m' []] eqn:Hm; intros Heq; try done; injection Heq as <- <-; [|done].
    eapply chan_le_insert; [done|]. intros m0 [= <-] Ho. exists m.
    destruct (mpsc_rx_open m); [|done]. destruct (mpsc_capacity m <=? _); [done|].
    destruct Hspec as [_ Hv]. unfold mpsc_view in Hv. simpl in Hv. by injection Hv as _ Hcap _ _.
Qed.

Lemma live_recv_chan_le l st r st' : live_recv l st = (r, st') → chan_le st st'.
Proof.
  unfold live_recv. destruct (live_key l) as [k|]; [|by intros [= <- <-]].
  destruct (st !! k) as [[m|q]|] eqn:Hk; [| |by intros [= <- <-]]; simpl.
  - pose proof (mpsc_recv_spec m) as Hspec. destruct (mpsc_recv m) as [q m'] eqn:Hm. intros [= <- <-].
    eapply chan_le_insert; [done|]. intros m0 [= <-] Ho. exists m. split; [done|].
    destruct (mpsc_contents m); [by injection Hspec as _ ->|].
    destruct Hspec as [_ Hv]. unfold mpsc_view in Hv. simpl in Hv. injection Hv as _ Hcap _ Hrx.
    split; congruence.
  - destruct (BestEffortLiveQueue.recv q) as [r' q']. intros [= <- <-]. by eapply chan_le_insert.
Qed.

Lemma shared_recv_chan_le (y : SharedSubscription) bs st r y' bs' st' :
  shared_recv y bs st = (r, y', bs', st') → chan_le st st' ∧ live_receiver y' = live_receiver y.
Proof.
  unfold shared_recv. destruct (ss_replay y) as [|e rest].
  2: { unfold hand_out. destruct (is_terminal (event e)); by intros [= <- <- <- <-]. }
  generalize (S (length (contents_at st (live_key (live_receiver y))))) as fuel. intros fuel.
  revert st. induction fuel as [|fuel IH]; intros st; simpl; [by intros [= <- <- <- <-]|].
  destruct (live_recv (live_receiver y) st) as [[[e|]|] st1] eqn:Hl; apply live_recv_chan_le in Hl.
  - destruct (seq e <? live_start_seq y).
    + intros Hr. destruct (IH _ Hr) as [Hle Hlr]. split; [by etrans|done].
    + unfold hand_out. destruct (is_terminal (event e)); by intros [= <- <- <- <-].
  - by intros [= <- <- <- <-].
  - by intros [= <- <- <- <-].
Qed.

(** A reliable channel that is open can hold an event and belongs to a
    subscription. *)
Definition owned_inv s : Prop :=
  ∀ k m, s_store s !! k = Some (ChReliable m) → mpsc_rx_open m = true →
    1 ≤ mpsc_capacity m ∧ ∃ h x, s_subs s !! h = Some x ∧ sub_key x = Some k.

Lemma owned_le s s' :
  owned_inv s → chan_le (s_store s) (s_store s') →
  (∀ h x, s_subs s !! h = Some x → ∃ x', s_subs s' !! h = Some x' ∧ sub_key x' = sub_key x) →
  owned_inv s'.
Proof.
  intros Hown Hle Hsubs k m' Hk Ho. destruct (Hle k m' Hk Ho) as (m & Hm & Hom & Hc).
  destruct (Hown k m Hm Hom) as (Hcap & h & x & Hx & Hkey). split; [congruence|].
  destruct (Hsubs h x Hx) as (x' & Hx' & Hk'). exists h, x'. split; [done|congruence].
Qed.
(** Subscribing adds a channel and its owner. *)
Lemma owned_subscribe bs st subs rd log h y bs' st' sn n :
  1 ≤ buffered → subs !! h = None → fanout_subscribe g retention buffered bs st = Done (y, bs', st') →
  owned_inv (mkSystem bs st subs rd log) →
  owned_inv (mkSystem bs' st' (<[h := mkSub y [] (event <$> ss_replay y) sn n]> subs) rd log).
Proof.
  intros Hb Hh Hs Hown k m Hk Ho. unfold owned_inv in Hown. cbn in *.
  assert (∀ k m, st !! k = Some (ChReliable m) → mpsc_rx_open m = true →
    1 ≤ mpsc_capacity m ∧ ∃ h' x, <[h := mkSub y [] (event <$> ss_replay y) sn n]> subs !! h' = Some x
      ∧ sub_key x = Some k) as Hold.
  { intros k' m' Hk' Ho'. destruct (Hown k' m' Hk' Ho') as (? & h' & x & Hx & ?). split; [done|].
    exists h', x. split; [|done]. rewrite lookup_insert_ne; [done|congruence]. }
  unfold fanout_subscribe, new_channel in Hs.
  destruct g; [|destruct (mpsc_channel buffered) as [m0|] eqn:Hm0; [|done]]; cbn [mbind outcome_bind] in Hs;
  destruct (BroadcastState.replay_snapshot bs retention), (closed bs || _);
    injection Hs as <- <- <-; try (by eapply Hold).
  all: apply lookup_insert_Some in Hk as [[<- Heq]|[_ Hk]]; [|by eapply Hold].
  { done. }
  injection Heq as <-. apply mpsc_channel_done in Hm0 as [_ [= _ -> _ _]].
  split; [done|]. exists h. eexists. rewrite lookup_insert_eq. by split.
Qed.

Lemma owned_drop bs st subs rd log h x bs' st' :
  subs !! h = Some x → shared_drop (sub x) bs st = (bs', st') →
  owned_inv (mkSystem bs st subs rd log) → owned_inv (mkSystem bs' st' (delete h subs) rd log).
Proof.
  intros Hx Hd Hown k m Hk Ho. unfold owned_inv in Hown. cbn in *. unfold shared_drop in Hd. injection Hd as <- <-.
  fold (sub_key x) in Hk.
  assert (sub_key x ≠ Some k ∧ st !! k = Some (ChReliable m)) as [Hne Hk'].
  { destruct (sub_key x) as [k'|]; [|done]. destruct (st !! k') as [[m'|q]|] eqn:Hk'; try done.
    2,3: split; [|done]; intros [= ->]; congruence.
    apply lookup_insert_Some in Hk as [[<- [= <-]]|[Hn Hk]]; [|split; [congruence|done]].
    pose proof (mpsc_drop_rx_view m') as [= _ _ _ Hrx]. congruence. }
  destruct (Hown k m Hk' Ho) as (? & h' & y & Hy & Hky). split; [done|].
  exists h', y. split; [|done]. rewrite lookup_delete_ne; [done|]. intros <-. congruence.
Qed.

Lemma owned_step s s' :
  1 ≤ buffered → step g retention buffered s s' → owned_inv s → owned_inv s'.
Proof.
  intros Hb Hstep Hown.
  destruct Hstep as [| | |bs st subs rd log h y bs' st' Hh _ Hs|bs st subs rd log h x r y bs' st' Hx Hr
    |bs st subs rd log h x bs' st' Hx Hd| |bs st subs rd log bs' st' Hd|bs st subs rd log id m Hm _ _].
  - eapply owned_le; [exact Hown|done|eauto].
  - eapply owned_le; [exact Hown|by eapply send_chan_le|eauto].
  - eapply owned_le; [exact Hown|done|eauto].
  - by eapply owned_subscribe.
  - apply shared_recv_chan_le in Hr as [Hle Hlr]. eapply owned_le; [exact Hown|done|]. cbn.
    intros h' z Hz. destruct (decide (h = h')) as [<-|Hne].
    + eexists. rewrite lookup_insert_eq. split; [done|]. unfold sub_key. cbn. rewrite Hlr. congruence.
    + exists z. by rewrite lookup_insert_ne.
  - by eapply owned_drop.
  - eapply owned_le; [exact Hown|done|eauto].
  - eapply owned_le; [exact Hown| |eauto]. cbn. intros k m' Hk Ho. exists m'. split_and!; try done.
    unfold stream_drop in Hd. injection Hd as <- <-. rewrite map_lookup_imap in Hk.
    destruct (st !! k) as [[m|q]|]; [..|done]; cbn in Hk; by case_decide.
  - eapply owned_le; [exact Hown| |eauto]. cbn. eapply chan_le_insert; [done|].
    intros m' [= <-] Ho. exists m. pose proof (mpsc_drop_tx_view m) as [= _ Hcap _ Hrx].
    split_and!; [done|congruence|done].
Qed.

Lemma reachable_owned s : 1 ≤ buffered → reachable g retention buffered s → owned_inv s.
Proof. intros Hb. induction 1; [done|by eapply owned_step]. Qed.

(** ** Progress *)

(** A subscription with something in its replay or channel can take it. *)
Lemma recv_ready bs st rd x :
  key_inv g bs st rd x → ss_replay (sub x) ≠ [] ∨ contents_at st (sub_key x) ≠ [] →
  ∃ e y bs' st', shared_recv (sub x) bs st = (Ready (Some e), y, bs', st').
Proof.
  intros Hkey Hne. unfold shared_recv. destruct (ss_replay (sub x)) as [|e rest] eqn:Hrep.
  2: { unfold hand_out. destruct (is_terminal (event e)); eauto. }
  destruct Hne as [?|Hne]; [done|]. unfold key_inv, sub_key in *. cbn [recv_live_loop]. unfold live_recv.
  destruct (live_key (live_receiver (sub x))) as [k|]; [|done].
  destruct Hkey as [_ (_ & (c & Hc & _ & Hseq & _) & _)]. rewrite Hc.
  unfold contents_at in Hne. simpl in Hne. rewrite Hc in Hne.
  destruct (chan_contents c) as [|e es] eqn:Hcc; [done|].
  destruct (chan_recv_some g c e es Hcc) as (c' & -> & _). apply Forall_cons in Hseq as [He _].
  rewrite (proj2 (N.ltb_ge _ _)) by done. unfold hand_out. destruct (is_terminal (event e)); eauto.
Qed.

(** When nothing more can move, nothing is under way. *)
Lemma stuck_drained s :
  inv g retention s → owned_inv s → nf productive s → map_Forall (λ _ x, drained s x) (s_subs s).
Proof.
  destruct s as [bs st subs rd log]. intros (Hsubs & _) Hown Hnf. unfold owned_inv in Hown. cbn in *.
  assert (∀ h x, subs !! h = Some x → ss_replay (sub x) = [] ∧ contents_at st (sub_key x) = []) as Hempty.
  { intros h x Hx. destruct (Hsubs h x Hx) as (_ & _ & Hkey & _).
    destruct (decide (ss_replay (sub x) ≠ [] ∨ contents_at st (sub_key x) ≠ [])) as [Hne|Hno].
    - destruct (recv_ready bs st rd x Hkey Hne) as (e & y & bs' & st' & Hr).
      destruct Hnf. eexists. by eapply productive_recv.
    - destruct (ss_replay (sub x)), (contents_at st (sub_key x)); auto; destruct Hno; auto. }
  assert (not_sending rd) as Hrd.
  { destruct rd as [|e [|t ts] stale|]; try done.
    { destruct Hnf. eexists. apply productive_done. }
    destruct (append_send g e t st) as [[st' b]|] eqn:Hs.
    { destruct Hnf. eexists. by apply (productive_send bs st subs log e [] t ts). }
    unfold append_send in Hs. destruct g, t.2; try done;
      destruct (st !! t.1) as [[m|q]|] eqn:Hc; try done.
    { by destruct (BestEffortLiveQueue.push q e). }
    pose proof (mpsc_try_send_spec m e) as Hspec. destruct (mpsc_rx_open m) eqn:Ho; [|by rewrite Hspec in Hs].
    destruct (N.leb_spec (mpsc_capacity m) (len (mpsc_contents m))) as [Hfull|_];
      [|by destruct Hspec as [Hsent _]; destruct (mpsc_try_send m e) as [m' []]].
    destruct (Hown t.1 m Hc Ho) as (Hcap & h & x & Hx & Hk).
    destruct (Hempty h x Hx) as [_ Hcont]. unfold contents_at in Hcont. rewrite Hk in Hcont.
    simpl in Hcont. rewrite Hc in Hcont. simpl in Hcont. rewrite Hcont in Hfull. unfold len in Hfull. simpl in Hfull. lia. }
  intros h x Hx. destruct (Hempty h x Hx). by split_and!.
Qed.

Lemma productive_fields s s' :
  productive s s' → s_log s' = s_log s ∧ dom (s_subs s') = dom (s_subs s) ∧
    (closed (s_bs s) = false → closed (s_bs s') = false).
Proof.
  destruct 1 as [bs st subs rd log h x e y bs' st' Hx Hr| |bs st subs log ie stale]; cbn; [|done|].
  - split_and!; [done|by apply dom_insert_lookup_L|]. intros Hcl. revert Hr. unfold shared_recv.
    assert (∀ e z r y bs', hand_out e z bs = (r, y, bs') → closed bs' = false) as Hout.
    { clear -Hcl. intros e z r y bs'. unfold hand_out, detach.
      destruct (is_terminal (event e)); [destruct (ss_id z)|]; by intros [= <- <- <-]. }
    destruct (ss_replay (sub x)) as [|e' rest].
    2: { destruct (hand_out e' _ bs) as [[r z] bs1] eqn:Ho. intros [= -> -> -> _]. by eapply Hout. }
    generalize (S (length (contents_at st (live_key (live_receiver (sub x)))))) as fuel.
    intros fuel. clear Hx. revert st. induction fuel as [|fuel IH]; intros st; simpl; [done|].
    destruct (live_recv _ st) as [[[e'|]|] st1]; try done.
    destruct (seq e' <? _); [apply IH|].
    destruct (hand_out e' _ bs) as [[r z] bs1] eqn:Ho. intros [= -> -> -> _]. by eapply Hout.
  - split_and!; [done..|]. unfold append_end. destruct (is_terminal _); [done|]. intros Hcl.
    induction stale as [|id stale IH] in bs, Hcl |- *; simpl; [done|]. by apply IH.
Qed.

Lemma productive_run s s' :
  reachable g retention buffered s → rtc productive s s' →
  reachable g retention buffered s' ∧ s_log s' = s_log s ∧ dom (s_subs s') = dom (s_subs s) ∧
  (closed (s_bs s) = false → closed (s_bs s') = false).
Proof.
  intros Hr Hrun. induction Hrun as [s|s s1 s' Hp Hrun IH]; [done|].
  destruct (productive_fields _ _ Hp) as (Hlog & Hdom & Hcl).
  destruct IH as (Hr' & Hlog' & Hdom' & Hcl'); [by eapply reachable_step, productive_step|].
  split_and!; [done|congruence|congruence|auto].
Qed.

Lemma productive_sn s : 1 ≤ buffered → reachable g retention buffered s → sn productive s.
Proof.
  intros Hb Hr. remember (under_way s) as n eqn:Hn. revert s Hn Hr.
  induction (lt_wf n) as [n _ IH]. intros s -> Hr. constructor. intros s' Hp.
  eapply IH; [|reflexivity|by eapply reachable_step, productive_step].
  eapply productive_decreases; [by apply (reachable_inv g retention buffered)|done].
Qed.

(** Where no productive step is left, everything promised has arrived. *)
Lemma stuck_delivered s h x :
  1 ≤ buffered → reachable g retention buffered s → closed (s_bs s) = false → nf productive s →
  s_subs s !! h = Some x → delivered g (received x) (promised (s_log s) x).
Proof.
  intros Hb Hr Hcl Hnf Hx. pose proof (reachable_inv g retention buffered s Hb Hr) as Hinv.
  pose proof (stuck_drained s Hinv (reachable_owned s Hb Hr) Hnf h x Hx) as Hdr.
  destruct Hinv as (Hsubs & _). destruct (Hsubs h x Hx) as (_ & (act & _ & Hd & Heq) & _).
  by rewrite (Heq Hcl), (drained_observed s x Hdr) in Hd.
Qed.

(** C15: delivery terminates and cannot deadlock.  From any reachable state of an
    open stream, every run of steps that move events along (a subscriber takes
    one, the reader hands one over or finishes one) is finite, and when no such
    step is left, nothing is on its way: every subscription present has
    received what its delivery guarantee promises of all events appended, with
    reliable delivery exactly its replay and every event since.  So a full
    channel blocks the reader only until its subscriber takes an event. *)
Theorem broadcast_delivery_terminates s :
  1 ≤ buffered → reachable g retention buffered s → closed (s_bs s) = false →
  sn productive s ∧
  ∀ s', rtc productive s s' → nf productive s' →
    s_log s' = s_log s ∧ dom (s_subs s') = dom (s_subs s) ∧
    ∀ h x, s_subs s' !! h = Some x →
      delivered g (received x) (snapshot x ++ drop (attached_at x) (s_log s)).
Proof.
  intros Hb Hr Hcl. split; [by apply productive_sn|]. intros s' Hrun Hnf.
  destruct (productive_run _ _ Hr Hrun) as (Hr' & Hlog & Hdom & Hcl'). split_and!; [done..|].
  intros h x Hx. rewrite <- Hlog. apply (stuck_delivered s' h x); auto.
Qed.

End liveness.

(** ** A run

    Two subscribers that have not received anything yet, and the end of the
    stream under way to both. *)

Module LivenessDemo.

Definition acts : list action :=
  [ASubscribe 0; AAppend (Chunk [x61; x62]); ASend; AAppendDone; ASubscribe 1; AAppend Eof].

Definition mid : System (M := ref_mpsc IndexedEvent) :=
  default initial (perform_all GReliableWithBackpressure (Some All) 1 acts initial).

Lemma mid_reachable : reachable GReliableWithBackpressure (Some All) 1 mid.
Proof.
  apply (perform_all_reachable _ _ _ acts initial); [apply reachable_initial|vm_compute; reflexivity].
Qed.

End LivenessDemo.

Lemma broadcast_delivery_terminates_witness :
  under_way LivenessDemo.mid = 7%nat ∧ sn (productive GReliableWithBackpressure) LivenessDemo.mid.
Proof.
  split; [vm_compute; reflexivity|].
  exact (proj1 (broadcast_delivery_terminates GReliableWithBackpressure (Some All) 1 LivenessDemo.mid
    ltac:(lia) LivenessDemo.mid_reachable ltac:(vm_compute; reflexivity))).
Defined.
