(* ===== verification/FastBroadcast.v ===== *)
(** * The lossy fast path of the broadcast backend

    Models [src/output_stream/backend/broadcast/fast.rs], the fast branch of
    [try_subscribe] and of [drop] in [broadcast/mod.rs], and
    [FastSubscription] of [subscription.rs]: a reader task that sends into a
    [tokio::sync::broadcast] channel and subscribers that hold a position in
    it.  The library channel is the class [TokioBroadcast] with its documented
    behaviour as laws and a reference instance.

    The system runs the reader, subscribers that attach, receive and go away,
    and the drop of the stream, in any order; an action is one critical
    section or one channel operation of the code. *)

From S2P Require Import Prelude Stream Retention Broadcast BroadcastSystem.

(** ** The library channel *)

Inductive RecvError : Type := RecvClosed | RecvLagged (n : N).

(** [tokio::sync::broadcast].  A value is retained until the capacity forces it
    out; a receiver is a position in the sequence of values sent. *)
Class TokioBroadcast (B E : Type) := {
  bc_channel : N → outcome (N * B);
  bc_subscribe : B → N * B;
  bc_send : B → E → result N E * B;
  bc_recv : B → N → poll (result E RecvError) * B;
  bc_drop_receiver : B → N → B;
  bc_clone_sender : B → B;
  bc_drop_sender : B → B;
  bc_sent : B → list E;
  bc_positions : B → gmap N N;
  bc_capacity : B → N;
  bc_senders : B → N;
}.

Definition bc_view {B E} `{TokioBroadcast B E} (b : B) : list E * gmap N N * N * N :=
  (bc_sent b, bc_positions b, bc_capacity b, bc_senders b).

(** The position of the oldest value still retained. *)
Definition bc_oldest {B E} `{TokioBroadcast B E} (b : B) : N :=
  saturating_sub (len (bc_sent b)) (bc_capacity b).

Definition BROADCAST_MAX_CAPACITY : N := usize_max / 2.

Class TokioBroadcastLaws (B E : Type) `{TokioBroadcast B E} : Prop := {
  bc_channel_spec n :
    if (0 <? n) && (n <=? BROADCAST_MAX_CAPACITY) then
      ∃ rx (b : B), bc_channel n = Done (rx, b) ∧ n ≤ bc_capacity b ∧
        bc_view b = ([], {[ rx := 0 ]}, bc_capacity b, 1)
    else bc_channel (B := B) n = Panic;
  bc_subscribe_spec b :
    bc_positions b !! (bc_subscribe b).1 = None ∧
    bc_view (bc_subscribe b).2 =
      (bc_sent b, <[ (bc_subscribe b).1 := len (bc_sent b) ]> (bc_positions b),
       bc_capacity b, bc_senders b);
  bc_send_spec b e :
    if decide (bc_positions b = ∅) then bc_send b e = (Err e, b)
    else (bc_send b e).1 = Ok (N.of_nat (size (bc_positions b))) ∧
         bc_view (bc_send b e).2 =
           (bc_sent b ++ [e], bc_positions b, bc_capacity b, bc_senders b);
  bc_recv_spec b rx pos :
    bc_positions b !! rx = Some pos →
    if pos <? bc_oldest b then
      (bc_recv b rx).1 = Ready (Err (RecvLagged (bc_oldest b - pos))) ∧
      bc_view (bc_recv b rx).2 =
        (bc_sent b, <[ rx := bc_oldest b ]> (bc_positions b), bc_capacity b, bc_senders b)
    else match bc_sent b !! N.to_nat pos with
      | Some e =>
          (bc_recv b rx).1 = Ready (Ok e) ∧
          bc_view (bc_recv b rx).2 =
            (bc_sent b, <[ rx := pos + 1 ]> (bc_positions b), bc_capacity b, bc_senders b)
      | None =>
          bc_recv b rx = (if bc_senders b =? 0 then Ready (Err RecvClosed) else Pending, b)
      end;
  bc_drop_receiver_view b rx : bc_view (bc_drop_receiver b rx) =
    (bc_sent b, delete rx (bc_positions b), bc_capacity b, bc_senders b);
  bc_clone_sender_view b : bc_view (bc_clone_sender b) =
    (bc_sent b, bc_positions b, bc_capacity b, bc_senders b + 1);
  bc_drop_sender_view b : bc_view (bc_drop_sender b) =
    (bc_sent b, bc_positions b, bc_capacity b, bc_senders b - 1);
}.

(** A reference channel, for evaluation. *)
Record ref_broadcast (E : Type) : Type := mkRefBroadcast {
  rb_sent : list E; rb_positions : gmap N N; rb_capacity : N; rb_senders : N }.
Arguments mkRefBroadcast {E}.
Arguments rb_sent {E}.
Arguments rb_positions {E}.
Arguments rb_capacity {E}.
Arguments rb_senders {E}.

#[export] Instance ref_broadcast_ops {E} : TokioBroadcast (ref_broadcast E) E := {|
  bc_channel n :=
    if (0 <? n) && (n <=? BROADCAST_MAX_CAPACITY)
    then Done (0, mkRefBroadcast [] {[ 0 := 0 ]} n 1) else Panic;
  bc_subscribe b :=
    let rx := fresh (dom (rb_positions b)) in
    (rx, mkRefBroadcast (rb_sent b) (<[ rx := len (rb_sent b) ]> (rb_positions b))
           (rb_capacity b) (rb_senders b));
  bc_send b e :=
    if decide (rb_positions b = ∅) then (Err e, b)
    else (Ok (N.of_nat (size (rb_positions b))),
          mkRefBroadcast (rb_sent b ++ [e]) (rb_positions b) (rb_capacity b) (rb_senders b));
  bc_recv b rx :=
    let move pos :=
      mkRefBroadcast (rb_sent b) (<[ rx := pos ]> (rb_positions b)) (rb_capacity b) (rb_senders b) in
    let oldest := saturating_sub (len (rb_sent b)) (rb_capacity b) in
    match rb_positions b !! rx with
    | None => (Pending, b)
    | Some pos =>
        if pos <? oldest then (Ready (Err (RecvLagged (oldest - pos))), move oldest)
        else match rb_sent b !! N.to_nat pos with
             | Some e => (Ready (Ok e), move (pos + 1))
             | None => (if rb_senders b =? 0 then Ready (Err RecvClosed) else Pending, b)
             end
    end;
  bc_drop_receiver b rx :=
    mkRefBroadcast (rb_sent b) (delete rx (rb_positions b)) (rb_capacity b) (rb_senders b);
  bc_clone_sender b :=
    mkRefBroadcast (rb_sent b) (rb_positions b) (rb_capacity b) (rb_senders b + 1);
  bc_drop_sender b :=
    mkRefBroadcast (rb_sent b) (rb_positions b) (rb_capacity b) (rb_senders b - 1);
  bc_sent := rb_sent;
  bc_positions := rb_positions;
  bc_capacity := rb_capacity;
  bc_senders := rb_senders;
|}.

#[export] Instance ref_broadcast_laws {E} : TokioBroadcastLaws (ref_broadcast E) E.
Proof.
  split; intros; cbn; try done.
  - destruct (_ && _); [|done]. eexists _, _. split_and!; [done| |done]. done.
  - split; [|done]. apply not_elem_of_dom, is_fresh.
  - by case_decide.
  - cbn in *. unfold bc_oldest. cbn. rewrite H. case_match; [done|]. by case_match.
Qed.

(** ** The backend and its reader *)

Record FastClosureState : Type := mkFastClosure {
  fcs_closed : bool; fcs_read_error : option StreamReadError }.

(** The receiving end of a subscription: its key in the channel. *)
Record FastSubscription : Type := mkFast {
  receiver : N; emit_terminal_event : option StreamEvent }.

(** Where the reader task is: before or in [read_buf], in the loop that splits
    the buffer, past the recorded read error but before its event, or gone. *)
Inductive fast_reader : Type :=
| FReading
| FSplitting (buf : list byte)
| FFailed (err : StreamReadError)
| FStopped.

#[export] Instance fast_reader_eq_dec : EqDecision fast_reader.
Proof. solve_decision. Defined.

Section fast.
Context {B : Type} `{TokioBroadcast B StreamEvent}.

Record FastBackend : Type := mkFastBackend {
  fb_channel : B;
  closure_state : FastClosureState;
  fb_bytes_ingested : N;
  fb_options : StreamConfig LossyWithoutBackpressure NoReplay;
  fb_name : String.string;
}.

Implicit Types b : FastBackend.

Definition with_channel b (c : B) : FastBackend :=
  mkFastBackend c (closure_state b) (fb_bytes_ingested b) (fb_options b) (fb_name b).

Definition with_closure b (s : FastClosureState) : FastBackend :=
  mkFastBackend (fb_channel b) s (fb_bytes_ingested b) (fb_options b) (fb_name b).

(** The backend keeps one sender, the reader task another. *)
Definition new_fast_backend (stream_name : String.string) (chunk_size : NumBytes)
    (max_buffered : N) : outcome FastBackend :=
  '(rx, c) ← bc_channel max_buffered;
  let c := bc_drop_receiver c rx in
  mret (mkFastBackend (bc_clone_sender c) (mkFastClosure false None) 0
    (mkStreamConfig chunk_size max_buffered Lossy NoReplayMarker) stream_name).

(** The reader's closure: without receivers the event is dropped. *)
Definition send_event b (e : StreamEvent) : FastBackend :=
  with_channel b (bc_send (fb_channel b) e).2.

(** The reader is done: its sender goes. *)
Definition drop_sender b : FastBackend := with_channel b (bc_drop_sender (fb_channel b)).

(** [read_chunked_fast], what follows one [read_buf].  At the end of the file
    the event is sent while the closure state is locked; a read error is
    recorded and the lock released first. *)
Definition fast_on_read b (r : read_result) : FastBackend * fast_reader :=
  match r with
  | Ok [] =>
      let b := with_closure b (mkFastClosure true (fcs_read_error (closure_state b))) in
      (drop_sender (send_event b Eof), FStopped)
  | Ok buf =>
      (mkFastBackend (fb_channel b) (closure_state b)
         (record_bytes_ingested (fb_bytes_ingested b) (len buf)) (fb_options b) (fb_name b),
       FSplitting buf)
  | Err e =>
      let err := mkStreamReadError (fb_name b) e in
      (with_closure b (mkFastClosure (fcs_closed (closure_state b)) (Some err)), FFailed err)
  end.

(** One turn of the splitting loop: the chunk sent, and what is left. *)
Definition fast_split b (buf : list byte) : StreamEvent * FastBackend * fast_reader :=
  let n := bytes (read_chunk_size (fb_options b)) `min` len buf in
  let e := Chunk (slice_to n buf) in
  (e, send_event b e, match slice_from n buf with [] => FReading | rest => FSplitting rest end).

(** The event of a recorded read error. *)
Definition fast_fail b (err : StreamReadError) : FastBackend :=
  drop_sender (send_event b (ReadError err)).

(** [try_subscribe], under the lock of the closure state. *)
Definition fast_subscribe b : FastSubscription * FastBackend :=
  let '(rx, c) := bc_subscribe (fb_channel b) in
  let terminal :=
    match fcs_read_error (closure_state b) with
    | Some err => Some (ReadError err)
    | None => if fcs_closed (closure_state b) then Some Eof else None
    end in
  (mkFast rx terminal, with_channel b c).

(** [FastSubscription::recv], one poll. *)
Definition fast_recv (s : FastSubscription) b : poll (option StreamEvent) * FastSubscription * FastBackend :=
  match emit_terminal_event s with
  | Some e => (Ready (Some e), mkFast (receiver s) None, b)
  | None =>
      let '(r, c) := bc_recv (fb_channel b) (receiver s) in
      (match r with
       | Pending => Pending
       | Ready (Ok e) => Ready (Some e)
       | Ready (Err RecvClosed) => Ready None
       | Ready (Err (RecvLagged _)) => Ready (Some Gap)
       end, s, with_channel b c)
  end.

Definition fast_drop_subscription (s : FastSubscription) b : FastBackend :=
  with_channel b (bc_drop_receiver (fb_channel b) (receiver s)).

(** Dropping the stream aborts the reader, which stops at its next await, and
    drops the backend's sender. *)
Definition fast_drop_stream b : FastBackend := drop_sender b.

End fast.
Arguments FastBackend B : clear implicits.

(** ** The system *)

(** A subscription with its history: what it was given on attaching, the number
    of events sent before, and what it has returned. *)
Record FastSub : Type := mkFastSub {
  fs_sub : FastSubscription;
  fs_initial : option StreamEvent;
  fs_start : nat;
  fs_received : list StreamEvent;
}.

Inductive fast_action : Type :=
| FRead (r : read_result)
| FSplit
| FFail
| FSubscribe (h : N)
| FRecv (h : N)
| FDropSubscription (h : N)
| FDropStream
| FAbort.

Section system.
Context {B : Type} `{TokioBroadcastLaws B StreamEvent}.

Record FastSystem : Type := mkFastSystem {
  f_backend : FastBackend B;
  f_reader : fast_reader;
  (** The stream was dropped. *)
  f_dropped : bool;
  f_subs : gmap N FastSub;
  (** The events the reader has sent, and the reads they come from. *)
  f_log : list StreamEvent;
  f_reads : list read_result;
}.

Implicit Types (s : FastSystem) (x : FastSub) (b : FastBackend B).

Definition fast_initial b : FastSystem := mkFastSystem b FReading false ∅ [] [].

Definition fast_perform (a : fast_action) s : option FastSystem :=
  let 'mkFastSystem b rd dropped subs log reads := s in
  match a, rd with
  | FRead r, FReading =>
      let '(b, rd) := fast_on_read b r in
      Some (mkFastSystem b rd dropped subs
        (log ++ match r with Ok [] => [Eof] | _ => [] end) (reads ++ [r]))
  | FSplit, FSplitting buf =>
      let '(e, b, rd) := fast_split b buf in
      Some (mkFastSystem b rd dropped subs (log ++ [e]) reads)
  | FFail, FFailed err =>
      Some (mkFastSystem (fast_fail b err) FStopped dropped subs (log ++ [ReadError err]) reads)
  | FSubscribe h, _ =>
      if bool_decide (subs !! h = None) && negb dropped then
        let '(x, b) := fast_subscribe b in
        Some (mkFastSystem b rd dropped
          (<[h := mkFastSub x (emit_terminal_event x) (length log) []]> subs) log reads)
      else None
  | FRecv h, _ =>
      x ← subs !! h;
      let '(r, y, b) := fast_recv (fs_sub x) b in
      Some (mkFastSystem b rd dropped
        (<[h := mkFastSub y (fs_initial x) (fs_start x)
                  (fs_received x ++ match r with Ready (Some e) => [e] | _ => [] end)]> subs) log reads)
  | FDropSubscription h, _ =>
      x ← subs !! h;
      Some (mkFastSystem (fast_drop_subscription (fs_sub x) b) rd dropped (delete h subs) log reads)
  | FDropStream, _ =>
      if dropped then None else Some (mkFastSystem (fast_drop_stream b) rd true subs log reads)
  | FAbort, FReading =>
      if dropped then Some (mkFastSystem (drop_sender b) FStopped dropped subs log reads) else None
  | _, _ => None
  end.

Fixpoint fast_perform_all (acts : list fast_action) s : option FastSystem :=
  match acts with
  | [] => Some s
  | a :: acts => s ← fast_perform a s; fast_perform_all acts s
  end.

(** The states of a stream opened with a name, chunk size and buffer. *)
Inductive fast_reachable (name : String.string) (chunk_size : NumBytes) (buffered : N) : FastSystem → Prop :=
| fast_reachable_new b :
    new_fast_backend name chunk_size buffered = Done b →
    fast_reachable name chunk_size buffered (fast_initial b)
| fast_reachable_step a s s' :
    fast_reachable name chunk_size buffered s → fast_perform a s = Some s' →
    fast_reachable name chunk_size buffered s'.

Lemma fast_perform_all_reachable name chunk_size buffered acts s s' :
  fast_reachable name chunk_size buffered s → fast_perform_all acts s = Some s' →
  fast_reachable name chunk_size buffered s'.
Proof.
  revert s. induction acts as [|a acts IH]; intros s Hr; simpl; [by intros [= <-]|].
  destruct (fast_perform a s) as [s1|] eqn:Hp; [|done]. apply IH.
  by eapply fast_reachable_step.
Qed.

(** ** The invariant *)

(** The events under way between a read and its sends. *)
Definition reader_todo (chunk_size : NumBytes) (rd : fast_reader) : list StreamEvent :=
  match rd with
  | FReading | FStopped => []
  | FSplitting buf => Chunk <$> split_buffer (length buf) (bytes chunk_size) buf
  | FFailed err => [ReadError err]
  end.

(** Before a terminal read all reads returned bytes; the splitting loop runs on
    a non-empty buffer. *)
Definition reads_open (reads : list read_result) : Prop :=
  Forall (λ r, ∃ c buf, r = Ok (c :: buf)) reads.

Definition reader_ok (rd : fast_reader) (reads : list read_result) : Prop :=
  match rd with
  | FReading => reads_open reads
  | FSplitting buf => buf ≠ [] ∧ reads_open reads
  | FFailed _ | FStopped => True
  end.

(** Terminal events only at the end of what was sent. *)
Definition terminal_only_last (log : list StreamEvent) : Prop :=
  ∀ pre e rest, log = pre ++ e :: rest → is_terminal e = true → rest = [].

Definition nonterminal (l : list StreamEvent) : Prop := Forall (λ e, is_terminal e = false) l.

(** One subscription: its live events explain a prefix of what was sent since
    it attached, the rest is still in the channel; without overflow they are
    equal. *)
Definition fast_sub_inv (buffered : N) (c : B) (log : list StreamEvent) x : Prop :=
  ∃ pos act live,
    bc_positions c !! receiver (fs_sub x) = Some pos ∧ pos ≤ len (bc_sent c) ∧
    (fs_start x ≤ length log)%nat ∧
    act ++ drop (N.to_nat pos) (bc_sent c) = drop (fs_start x) log ∧
    explains live act ∧
    (len (drop (fs_start x) log) ≤ buffered → live = act) ∧
    fs_received x ++ option_list (emit_terminal_event (fs_sub x)) = option_list (fs_initial x) ++ live ∧
    (emit_terminal_event (fs_sub x) = None ∨ live = []).

(** What a subscription was given on attaching, against what followed. *)
Definition initial_inv (rd : fast_reader) (log : list StreamEvent) x : Prop :=
  match fs_initial x with
  | Some Eof => rd = FStopped ∧ last log = Some Eof ∧ drop (fs_start x) log = []
  | Some (ReadError err) =>
      (rd = FFailed err ∧ drop (fs_start x) log = []) ∨
      (rd = FStopped ∧ last log = Some (ReadError err) ∧
       (drop (fs_start x) log = [] ∨ drop (fs_start x) log = [ReadError err]))
  | Some _ => False
  | None => nonterminal (take (fs_start x) log)
  end.

Definition closure_inv (st : FastClosureState) (rd : fast_reader) (dropped : bool)
    (log : list StreamEvent) : Prop :=
  match rd with
  | FReading | FSplitting _ => fcs_read_error st = None ∧ fcs_closed st = false ∧ nonterminal log
  | FFailed err => fcs_read_error st = Some err ∧ fcs_closed st = false ∧ nonterminal log
  | FStopped =>
      match fcs_read_error st, fcs_closed st with
      | Some err, _ => last log = Some (ReadError err)
      | None, true => last log = Some Eof
      | None, false => dropped = true ∧ nonterminal log
      end
  end.

Definition fast_inv (name : String.string) (chunk_size : NumBytes) (buffered : N) s : Prop :=
  let b := f_backend s in
  (1 ≤ buffered ≤ bc_capacity (fb_channel b)) ∧ fb_name b = name ∧
  fb_options b = mkStreamConfig chunk_size buffered Lossy NoReplayMarker ∧
  map_Forall (λ _ x, fast_sub_inv buffered (fb_channel b) (f_log s) x ∧
                     initial_inv (f_reader s) (f_log s) x) (f_subs s) ∧
  (∀ h1 h2 x1 x2, f_subs s !! h1 = Some x1 → f_subs s !! h2 = Some x2 →
     receiver (fs_sub x1) = receiver (fs_sub x2) → h1 = h2) ∧
  closure_inv (closure_state b) (f_reader s) (f_dropped s) (f_log s) ∧
  terminal_only_last (f_log s) ∧
  f_log s ++ reader_todo chunk_size (f_reader s) = reader_events name chunk_size (f_reads s) ∧
  reader_ok (f_reader s) (f_reads s).
(** ** Preservation *)

(** The laws, as equations on each field. *)
Lemma bc_send_fields (c : B) e rx pos :
  bc_positions c !! rx = Some pos →
  bc_sent (bc_send c e).2 = bc_sent c ++ [e] ∧ bc_positions (bc_send c e).2 = bc_positions c.
Proof.
  intros Hp. pose proof (bc_send_spec c e) as Hs.
  rewrite decide_False in Hs; [by destruct Hs as [_ [= -> -> _ _]]|].
  intros He. by rewrite He in Hp.
Qed.

Lemma bc_send_capacity (c : B) e : bc_capacity (bc_send c e).2 = bc_capacity c.
Proof.
  pose proof (bc_send_spec c e) as Hs. case_decide; [by rewrite Hs|by destruct Hs as [_ [= _ _ -> _]]].
Qed.

(** A channel that looks the same to a subscription. *)
Lemma fast_sub_frame buffered c c' log x :
  bc_sent c' = bc_sent c →
  bc_positions c' !! receiver (fs_sub x) = bc_positions c !! receiver (fs_sub x) →
  fast_sub_inv buffered c log x → fast_sub_inv buffered c' log x.
Proof. intros Hs Hp. unfold fast_sub_inv. by rewrite Hs, Hp. Qed.

Lemma fast_sub_send buffered c e log x :
  fast_sub_inv buffered c log x → fast_sub_inv buffered (bc_send c e).2 (log ++ [e]) x.
Proof.
  intros (pos & act & live & Hp & Hle & Hst & Heq & Hex & Hexact & Hrec & Hem).
  destruct (bc_send_fields c e _ _ Hp) as [Hs Hpos].
  exists pos, act, live. rewrite Hs, Hpos. split_and!; try done.
  - rewrite len_app. lia.
  - rewrite length_app. lia.
  - rewrite !drop_app_le by (unfold len in *; lia). by rewrite (assoc_L (++)), Heq.
  - intros Hb. apply Hexact. rewrite drop_app_le in Hb by done. rewrite len_app in Hb. lia.
Qed.

(** The reader's sends, seen from the subscriptions. *)
Lemma fast_subs_send buffered b e log (subs : gmap N FastSub) :
  map_Forall (λ _ x, fast_sub_inv buffered (fb_channel b) log x) subs →
  map_Forall (λ _ x, fast_sub_inv buffered (fb_channel (send_event b e)) (log ++ [e]) x) subs.
Proof. intros Hs h x Hx. apply fast_sub_send, (Hs h x Hx). Qed.

Lemma fast_subs_drop_sender buffered b log (subs : gmap N FastSub) :
  map_Forall (λ _ x, fast_sub_inv buffered (fb_channel b) log x) subs →
  map_Forall (λ _ x, fast_sub_inv buffered (fb_channel (drop_sender b)) log x) subs.
Proof.
  intros Hs h x Hx. pose proof (bc_drop_sender_view (fb_channel b)) as [= Hse Hpo _ _].
  eapply fast_sub_frame; [..|by apply (Hs h)]; cbn; by rewrite ?Hse, ?Hpo.
Qed.

(** What was lost to a lagging receiver is not the end of the stream. *)
Lemma lost_nonterminal log pre lost rest :
  terminal_only_last log → log = pre ++ lost ++ rest → rest ≠ [] → nonterminal lost.
Proof.
  intros Hlast -> Hne. apply Forall_forall. intros e (l1 & l2 & ->)%list_elem_of_split.
  destruct (is_terminal e) eqn:He; [|done]. exfalso.
  assert (l2 ++ rest = []) as Hnil; [|by apply app_nil in Hnil as [_ ?]].
  apply (Hlast (pre ++ l1) e); [|done]. by rewrite <- !(assoc_L (++)).
Qed.

(** A receiver that was overtaken: what it lost, and what is left for it. *)
Lemma overtaken (sent : list StreamEvent) capacity pos old :
  pos < old → old + capacity = len sent → 1 ≤ capacity →
  ∃ lost, drop (N.to_nat pos) sent = lost ++ drop (N.to_nat old) sent ∧ lost ≠ [] ∧
    drop (N.to_nat old) sent ≠ [] ∧ capacity < len (drop (N.to_nat pos) sent).
Proof.
  intros Hlag Hold Hcap. exists (take (N.to_nat (old - pos)) (drop (N.to_nat pos) sent)). unfold len in *. split_and!.
  - rewrite <- (take_drop (N.to_nat (old - pos)) (drop _ _)) at 1. f_equal. rewrite drop_drop. f_equal. lia.
  - intros Hl%(f_equal length). rewrite length_take, length_drop in Hl. simpl in Hl. lia.
  - intros Hnil%(f_equal length). rewrite length_drop in Hnil. simpl in Hnil. lia.
  - rewrite length_drop. lia.
Qed.

Lemma fast_sub_recv buffered b log x r y b' :
  1 ≤ buffered ≤ bc_capacity (fb_channel b) → terminal_only_last log →
  fast_sub_inv buffered (fb_channel b) log x → fast_recv (fs_sub x) b = (r, y, b') →
  receiver y = receiver (fs_sub x) ∧
  (∀ rx, rx ≠ receiver (fs_sub x) →
     bc_positions (fb_channel b') !! rx = bc_positions (fb_channel b) !! rx) ∧
  bc_sent (fb_channel b') = bc_sent (fb_channel b) ∧
  bc_capacity (fb_channel b') = bc_capacity (fb_channel b) ∧
  closure_state b' = closure_state b ∧ fb_options b' = fb_options b ∧ fb_name b' = fb_name b ∧
  fast_sub_inv buffered (fb_channel b') log
    (mkFastSub y (fs_initial x) (fs_start x)
       (fs_received x ++ match r with Ready (Some e) => [e] | _ => [] end)).
Proof.
  intros Hcap Hlast (pos & act & live & Hp & Hle & Hst & Heq & Hex & Hexact & Hrec & Hem).
  unfold fast_recv. destruct (emit_terminal_event (fs_sub x)) as [t|] eqn:Ht.
  { intros [= <- <- <-]. split_and!; try done. destruct Hem as [? | -> ]; [done|]. cbn in Hrec.
    exists pos, act, []. cbn. split_and!; try done; [|by left]. by rewrite !app_nil_r in *. }
  cbn in Hrec. rewrite app_nil_r in Hrec.
  pose proof (bc_recv_spec (fb_channel b) _ _ Hp) as Hr.
  destruct (bc_recv (fb_channel b) (receiver (fs_sub x))) as [q c'] eqn:Hq. cbn in Hr.
  intros [= <- <- <-]. cbn [fb_channel with_channel closure_state fb_options fb_name].
  destruct (pos <? bc_oldest (fb_channel b)) eqn:Hlag.
  - apply N.ltb_lt in Hlag. destruct Hr as [-> [= Hs Hpo Hc _]]. rewrite Hs, Hpo, Hc.
    split_and!; try done. { intros rx Hrx. by rewrite lookup_insert_ne. }
    assert (bc_oldest (fb_channel b) + bc_capacity (fb_channel b) = len (bc_sent (fb_channel b))) as Hold.
    { unfold bc_oldest, saturating_sub in *. lia. }
    set (old := bc_oldest (fb_channel b)) in *. set (sent := bc_sent (fb_channel b)) in *.
    destruct (overtaken sent _ pos old Hlag Hold ltac:(lia)) as (lost & Hsplit & Hne & Hrest & Hmore).
    exists old, (act ++ lost), (live ++ [Gap]). rewrite Hs, Hpo. cbn [fs_sub fs_start fs_initial fs_received].
    split_and!; try done.
    + apply lookup_insert_eq.
    + lia.
    + by rewrite <- (assoc_L (++)), <- Hsplit.
    + apply explains_app; [done|]. rewrite <- (app_nil_r lost). apply ex_gap; [done| |constructor].
      eapply (lost_nonterminal log (take (fs_start x) log ++ act)); [done|..].
      * rewrite <- (assoc_L (++)), <- Hsplit, Heq. by rewrite take_drop.
      * done.
    + intros Hb. exfalso. rewrite <- Heq, len_app in Hb. lia.
    + rewrite Ht, app_nil_r, Hrec. by rewrite (assoc_L (++)).
    + by left.
  - destruct (bc_sent (fb_channel b) !! N.to_nat pos) as [e|] eqn:Hsome.
    + destruct Hr as [-> [= Hs Hpo Hc _]]. rewrite Hs, Hpo, Hc.
      split_and!; try done. { intros rx Hrx. by rewrite lookup_insert_ne. }
      exists (pos + 1), (act ++ [e]), (live ++ [e]). rewrite Hs, Hpo. cbn [fs_sub fs_start fs_initial fs_received].
      apply lookup_lt_Some in Hsome as Hlt.
      split_and!; try done.
      * apply lookup_insert_eq.
      * unfold len. lia.
      * rewrite <- Heq, <- (assoc_L (++)). f_equal. symmetry.
        replace (N.to_nat (pos + 1)) with (S (N.to_nat pos)) by lia. by apply drop_S.
      * apply explains_app; [done|apply explains_refl].
      * intros Hb. by rewrite Hexact.
      * rewrite Ht, app_nil_r, Hrec. by rewrite (assoc_L (++)).
      * by left.
    + injection Hr as -> ->.
      split_and!; try done. exists pos, act, live. cbn [fs_sub fs_start fs_initial fs_received].
      split_and!; try done; [|by left]. rewrite Ht, <- Hrec. destruct (_ =? 0); by rewrite !app_nil_r.
Qed.

Lemma split_buffer_fuel size buf f1 f2 :
  0 < size → (length buf ≤ f1)%nat → (length buf ≤ f2)%nat →
  split_buffer f1 size buf = split_buffer f2 size buf.
Proof.
  intros Hsize. revert f2 buf. induction f1 as [|f1 IH]; intros [|f2] [|c buf] H1 H2; try done; simpl in H1, H2; try lia.
  cbn [split_buffer]. set (n := size `min` len (c :: buf)).
  assert (length (slice_from n (c :: buf)) ≤ length buf)%nat as Hr.
  { assert (0 < n) by (subst n; rewrite len_cons; lia). len_lia. }
  f_equal. apply IH; lia.
Qed.

Lemma split_buffer_turn size c buf :
  0 < size → let n := size `min` len (c :: buf) in
  split_buffer (length (c :: buf)) size (c :: buf) =
    slice_to n (c :: buf) ::
    split_buffer (length (slice_from n (c :: buf))) size (slice_from n (c :: buf)).
Proof.
  intros Hsize n. cbn [length split_buffer]. fold n. f_equal. apply split_buffer_fuel; [done| |done].
  assert (0 < n) by (subst n; rewrite len_cons; lia). len_lia.
Qed.

Lemma reader_events_snoc name size reads r :
  reads_open reads →
  reader_events name size (reads ++ [r]) = reader_events name size reads ++ (read_events name size r).1.
Proof.
  induction 1 as [|r' reads (c & buf & ->) Hopen IH]; cbn [reader_events app].
  - destruct (read_events name size r) as [evs []]; cbn; by rewrite app_nil_r.
  - rewrite IH. cbn [read_events]. by rewrite (assoc_L (++)).
Qed.

Lemma terminal_only_last_snoc log e :
  nonterminal log → terminal_only_last (log ++ [e]).
Proof.
  intros Hn pre t rest Heq Ht. destruct rest as [|r rest _] using rev_ind; [done|]. exfalso.
  rewrite app_comm_cons, (assoc_L (++)) in Heq. apply app_inj_2 in Heq as [-> _]; [|done].
  apply Forall_app in Hn as [_ Hn]. apply Forall_cons in Hn as [Hn _]. congruence.
Qed.

Lemma nonterminal_snoc log c : nonterminal log → nonterminal (log ++ [Chunk c]).
Proof. intros. apply Forall_app. split; [done|by repeat constructor]. Qed.

Lemma nonterminal_only_last log : nonterminal log → terminal_only_last log.
Proof.
  intros Hn pre t rest -> Ht. apply Forall_app in Hn as [_ Hn]. apply Forall_cons in Hn as [Hn _]. congruence.
Qed.

Definition running (rd : fast_reader) : Prop :=
  match rd with FReading | FSplitting _ => True | FFailed _ | FStopped => False end.

(** A subscription of a running stream was given nothing. *)
Lemma initial_running rd log x rd' l :
  running rd → (fs_start x ≤ length log)%nat → initial_inv rd log x → initial_inv rd' (log ++ l) x.
Proof.
  unfold initial_inv. intros Hr Hst. destruct (fs_initial x) as [[| | |err]|]; try done.
  - by intros [-> _].
  - by intros [[-> _]|[-> _]].
  - intros Hn. by rewrite take_app_le.
Qed.

Lemma sub_inv_start buffered c log x : fast_sub_inv buffered c log x → (fs_start x ≤ length log)%nat.
Proof. by intros (? & ? & ? & _ & _ & ? & _). Qed.

Lemma drop_sender_capacity (c : B) : bc_capacity (bc_drop_sender c) = bc_capacity c.
Proof. by pose proof (bc_drop_sender_view c) as [= _ _ Hc _]. Qed.

(** ** Each action *)

Section actions.
Context (name : String.string) (chunk_size : NumBytes) (buffered : N).
Hypothesis Hsize : 0 < bytes chunk_size.

(** The reader's part of the invariant and the subscriptions' part. *)
Lemma fast_inv_reader s b rd dropped log reads :
  fast_inv name chunk_size buffered s →
  bc_capacity (fb_channel b) = bc_capacity (fb_channel (f_backend s)) →
  fb_name b = fb_name (f_backend s) → fb_options b = fb_options (f_backend s) →
  map_Forall (λ _ x, fast_sub_inv buffered (fb_channel b) log x) (f_subs s) →
  map_Forall (λ _ x, initial_inv rd log x) (f_subs s) →
  closure_inv (closure_state b) rd dropped log → terminal_only_last log →
  log ++ reader_todo chunk_size rd = reader_events name chunk_size reads → reader_ok rd reads →
  fast_inv name chunk_size buffered (mkFastSystem b rd dropped (f_subs s) log reads).
Proof.
  intros (Hcap & Hn & Ho & _ & Hinj & _) Hc Hn' Ho' Hs Hi Hcl Hl Hr Hok.
  unfold fast_inv. cbn. rewrite Hc, Hn', Ho'. split_and!; try done; [lia|lia|].
  intros h x Hx. split; [by apply (Hs h)|by apply (Hi h)].
Qed.

Lemma fast_inv_subs s h x :
  fast_inv name chunk_size buffered s → f_subs s !! h = Some x →
  fast_sub_inv buffered (fb_channel (f_backend s)) (f_log s) x ∧ initial_inv (f_reader s) (f_log s) x.
Proof. intros (_ & _ & _ & Hs & _) Hx. by apply (Hs h). Qed.

Lemma subs_running s rd' l :
  fast_inv name chunk_size buffered s → running (f_reader s) →
  map_Forall (λ _ x, initial_inv rd' (f_log s ++ l) x) (f_subs s).
Proof.
  intros Hinv Hr h x Hx. destruct (fast_inv_subs s h x Hinv Hx) as [Hsub Hi].
  eapply initial_running; [done| |done]. by eapply sub_inv_start.
Qed.

Lemma fast_read_inv b dropped subs log reads r s' :
  let s := mkFastSystem b FReading dropped subs log reads in
  fast_inv name chunk_size buffered s → fast_perform (FRead r) s = Some s' →
  fast_inv name chunk_size buffered s'.
Proof.
  intros s Hinv. cbn [fast_perform s].
  pose proof (λ h x Hx, proj1 (fast_inv_subs s h x Hinv Hx)) as Hs.
  pose proof (λ rd' l, subs_running s rd' l Hinv I) as Hini.
  pose proof Hinv as (_ & Hn & Ho & _ & _ & (Hre & Hcl & Hnt) & Hl & Hev & Hop). cbn in *.
  rewrite app_nil_r in Hev. pose proof (reader_events_snoc name chunk_size reads r Hop) as Hsnoc.
  destruct r as [[|c buf]|e]; cbn in *; intros [= <-]; apply (fast_inv_reader s); try done; cbn.
  all: rewrite ?app_nil_r in *; try done.
  - etrans; [apply drop_sender_capacity|apply bc_send_capacity].
  - exact (fast_subs_drop_sender _ (send_event b Eof) _ _ (fast_subs_send _ b _ _ _ Hs)).
  - rewrite Hre. by rewrite last_snoc.
  - by apply terminal_only_last_snoc.
  - by rewrite Hsnoc, Hev.
  - by rewrite Hsnoc, Hev.
  - split; [done|]. apply Forall_app. split; [done|]. repeat constructor; eauto.
  - by rewrite Hsnoc, Hev, Hn.
Qed.
Lemma fast_split_inv b buf dropped subs log reads s' :
  let s := mkFastSystem b (FSplitting buf) dropped subs log reads in
  fast_inv name chunk_size buffered s → fast_perform FSplit s = Some s' →
  fast_inv name chunk_size buffered s'.
Proof.
  intros s Hinv. pose proof (λ h x Hx, proj1 (fast_inv_subs s h x Hinv Hx)) as Hs.
  pose proof (λ rd' l, subs_running s rd' l Hinv I) as Hini.
  pose proof Hinv as (_ & Hn & Ho & _ & _ & (Hre & Hcl & Hnt) & Hl & Hev & Hne & Hop). cbn in *.
  rewrite Ho. cbn [read_chunk_size]. destruct buf as [|c buf]; [done|].
  rewrite split_buffer_turn in Hev by done. cbv zeta in Hev. rewrite fmap_cons in Hev.
  set (n := bytes chunk_size `min` len (c :: buf)) in *. intros [= <-].
  apply (fast_inv_reader s); try done; cbn.
  - apply bc_send_capacity.
  - exact (fast_subs_send _ b _ _ _ Hs).
  - by destruct (slice_from n (c :: buf)); (split_and!; [..|apply nonterminal_snoc]).
  - by apply nonterminal_only_last, nonterminal_snoc.
  - rewrite <- Hev, <- (assoc_L (++)). by destruct (slice_from n (c :: buf)).
  - by destruct (slice_from n (c :: buf)).
Qed.

Lemma fast_fail_inv b err dropped subs log reads s' :
  let s := mkFastSystem b (FFailed err) dropped subs log reads in
  fast_inv name chunk_size buffered s → fast_perform FFail s = Some s' →
  fast_inv name chunk_size buffered s'.
Proof.
  intros s Hinv. pose proof (λ h x Hx, proj1 (fast_inv_subs s h x Hinv Hx)) as Hs.
  pose proof Hinv as (_ & _ & _ & _ & _ & (Hre & Hcl & Hnt) & Hl & Hev & Hop). cbn in *.
  intros [= <-]. apply (fast_inv_reader s); try done; cbn.
  - etrans; [apply drop_sender_capacity|apply bc_send_capacity].
  - exact (fast_subs_drop_sender _ (send_event b _) _ _ (fast_subs_send _ b _ _ _ Hs)).
  - intros h x Hx. destruct (fast_inv_subs s h x Hinv Hx) as [Hsub Hi]. revert Hi.
    apply sub_inv_start in Hsub. unfold initial_inv. cbn in *.
    destruct (fs_initial x) as [[| | |err']|]; try done.
    + by intros [? _].
    + rewrite drop_app_le by done. intros [[[= ->] ->]|[? _]]; [|done].
      right. split_and!; [done|apply last_snoc|by right].
    + by rewrite take_app_le.
  - rewrite Hre. by rewrite last_snoc.
  - by apply terminal_only_last_snoc.
  - by rewrite app_nil_r.
Qed.

(** The drop of the stream, and the reader noticing it. *)
Lemma fast_drop_stream_inv b rd subs log reads :
  let s := mkFastSystem b rd false subs log reads in
  fast_inv name chunk_size buffered s →
  fast_inv name chunk_size buffered (mkFastSystem (fast_drop_stream b) rd true subs log reads).
Proof.
  intros s Hinv. pose proof (λ h x Hx, proj1 (fast_inv_subs s h x Hinv Hx)) as Hs.
  pose proof (λ h x Hx, proj2 (fast_inv_subs s h x Hinv Hx)) as Hi.
  pose proof Hinv as (_ & _ & _ & _ & _ & Hcl & Hl & Hev & Hop). cbn in *.
  apply (fast_inv_reader s); try done; cbn.
  - apply drop_sender_capacity.
  - exact (fast_subs_drop_sender _ b _ _ Hs).
  - unfold closure_inv in *. destruct rd; try done. repeat case_match; try done. by destruct Hcl.
Qed.

Lemma fast_abort_inv b subs log reads :
  let s := mkFastSystem b FReading true subs log reads in
  fast_inv name chunk_size buffered s →
  fast_inv name chunk_size buffered (mkFastSystem (drop_sender b) FStopped true subs log reads).
Proof.
  intros s Hinv. pose proof (λ h x Hx, proj1 (fast_inv_subs s h x Hinv Hx)) as Hs.
  pose proof (subs_running s FStopped [] Hinv I) as Hini.
  pose proof Hinv as (_ & _ & _ & _ & _ & (Hre & Hcl & Hnt) & Hl & Hev & Hop). cbn in *.
  rewrite app_nil_r in Hini. apply (fast_inv_reader s); try done; cbn.
  - apply drop_sender_capacity.
  - exact (fast_subs_drop_sender _ b _ _ Hs).
  - by rewrite Hre, Hcl.
Qed.

(** Operations of a subscriber: the other subscriptions keep their positions. *)
Lemma fast_inv_subscriber s b subs :
  fast_inv name chunk_size buffered s →
  bc_capacity (fb_channel b) = bc_capacity (fb_channel (f_backend s)) →
  closure_state b = closure_state (f_backend s) →
  fb_name b = fb_name (f_backend s) → fb_options b = fb_options (f_backend s) →
  map_Forall (λ _ x, fast_sub_inv buffered (fb_channel b) (f_log s) x ∧
                     initial_inv (f_reader s) (f_log s) x) subs →
  (∀ h1 h2 x1 x2, subs !! h1 = Some x1 → subs !! h2 = Some x2 →
     receiver (fs_sub x1) = receiver (fs_sub x2) → h1 = h2) →
  fast_inv name chunk_size buffered
    (mkFastSystem b (f_reader s) (f_dropped s) subs (f_log s) (f_reads s)).
Proof.
  intros (Hcap & Hn & Ho & _ & _ & Hcl & Hl & Hev & Hop) Hc Hst Hn' Ho' Hs Hinj.
  unfold fast_inv. cbn. rewrite Hc, Hst, Hn', Ho'. by split_and!; [lia|lia|..].
Qed.

Lemma fast_subscribe_inv b rd dropped subs log reads h s' :
  let s := mkFastSystem b rd dropped subs log reads in
  fast_inv name chunk_size buffered s → fast_perform (FSubscribe h) s = Some s' →
  fast_inv name chunk_size buffered s'.
Proof.
  intros s Hinv. cbn [fast_perform s]. case_bool_decide as Hh; [|done]. destruct dropped; [done|].
  cbn [negb andb]. unfold fast_subscribe. destruct (bc_subscribe_spec (fb_channel b)) as [Hfresh [= Hs Hp Hc _]].
  destruct (bc_subscribe (fb_channel b)) as [rx c]. cbn in *. intros [= <-].
  pose proof Hinv as (_ & _ & _ & _ & Hinj & Hcl & _).
  assert (∀ h' x, subs !! h' = Some x → receiver (fs_sub x) ≠ rx) as Hother.
  { intros h' x Hx ->%eq_sym. destruct (fast_inv_subs s h' x Hinv Hx) as [(? & _ & _ & Hpos & _) _].
    cbn in *. congruence. }
  apply (fast_inv_subscriber s); try done; cbn.
  - apply map_Forall_insert_2.
    + split.
      * exists (len (bc_sent (fb_channel b))), [], []. cbn. rewrite Hs, Hp, lookup_insert_eq.
        split_and!; try done; [|constructor|by rewrite app_nil_r|by right].
        rewrite !drop_ge; [done|..]; unfold len; lia.
      * unfold initial_inv, closure_inv in *. cbn in *. rewrite drop_all, firstn_all.
        destruct rd as [|buf|err|]; cbn in Hcl.
        1,2: destruct Hcl as (-> & -> & ?); done.
        { destruct Hcl as (-> & _). by left. }
        destruct (fcs_read_error (closure_state b)) as [err|]; [by right; split_and!; [..|left]|].
        destruct (fcs_closed (closure_state b)); [done|]. by destruct Hcl.
    + intros h' x Hx. destruct (fast_inv_subs s h' x Hinv Hx) as [Hsub Hi]. split; [|done].
      eapply fast_sub_frame; [..|done]; cbn; [done|].
      by rewrite Hp, lookup_insert_ne by (symmetry; eauto).
  - intros h1 h2 x1 x2 [[<- <-]|[Hh1 Hx1]]%lookup_insert_Some [[<- <-]|[Hh2 Hx2]]%lookup_insert_Some Hr; [done|..].
    + by destruct (Hother h2 x2 Hx2).
    + by destruct (Hother h1 x1 Hx1).
    + by eapply Hinj.
Qed.

Lemma fast_recv_inv b rd dropped subs log reads h s' :
  let s := mkFastSystem b rd dropped subs log reads in
  fast_inv name chunk_size buffered s → fast_perform (FRecv h) s = Some s' →
  fast_inv name chunk_size buffered s'.
Proof.
  intros s Hinv. cbn [fast_perform s]. destruct (subs !! h) as [x|] eqn:Hx; [|done]. cbn [mbind option_bind].
  destruct (fast_recv (fs_sub x) b) as [[r y] b'] eqn:Hr. intros [= <-].
  pose proof Hinv as (Hcap & _ & _ & _ & Hinj & _ & Hl & _).
  destruct (fast_inv_subs s h x Hinv Hx) as [Hsub Hi].
  destruct (fast_sub_recv buffered b log x r y b' Hcap Hl Hsub Hr)
    as (Hy & Hother & Hsent & Hc & Hcl & Ho & Hn & Hsub').
  assert (∀ h' x', subs !! h' = Some x' → h ≠ h' → receiver (fs_sub x') ≠ receiver (fs_sub x)) as Hne.
  { intros h' x' Hx' Hh Hrx. apply Hh. by eapply Hinj. }
  apply (fast_inv_subscriber s); try done; cbn.
  - intros h' x' [[<- <-]|[Hh Hx']]%lookup_insert_Some; [by split|].
    destruct (fast_inv_subs s h' x' Hinv Hx') as [Hs' Hi']. split; [|done].
    eapply fast_sub_frame; [done| |done]. by eapply Hother, Hne.
  - intros h1 h2 x1 x2 [[<- <-]|[Hh1 Hx1]]%lookup_insert_Some [[<- <-]|[Hh2 Hx2]]%lookup_insert_Some Hrx;
      cbn in Hrx; rewrite ?Hy in Hrx; [done|..].
    + by destruct (Hne h2 x2 Hx2 Hh2).
    + by destruct (Hne h1 x1 Hx1 Hh1).
    + by eapply Hinj.
Qed.

Lemma fast_drop_subscription_inv b rd dropped subs log reads h s' :
  let s := mkFastSystem b rd dropped subs log reads in
  fast_inv name chunk_size buffered s → fast_perform (FDropSubscription h) s = Some s' →
  fast_inv name chunk_size buffered s'.
Proof.
  intros s Hinv. cbn [fast_perform s]. destruct (subs !! h) as [x|] eqn:Hx; [|done].
  intros [= <-]. pose proof Hinv as (_ & _ & _ & _ & Hinj & _).
  pose proof (bc_drop_receiver_view (fb_channel b) (receiver (fs_sub x))) as [= Hs Hp Hc _].
  apply (fast_inv_subscriber s); try done; cbn.
  - intros h' x' [Hh Hx']%lookup_delete_Some. destruct (fast_inv_subs s h' x' Hinv Hx') as [Hsub Hi].
    split; [|done]. eapply fast_sub_frame; [done| |done]. rewrite Hp.
    apply lookup_delete_ne. intros Hrx. apply Hh. by eapply Hinj.
  - intros h1 h2 x1 x2 [_ Hx1]%lookup_delete_Some [_ Hx2]%lookup_delete_Some. by eapply Hinj.
Qed.

Lemma fast_initial_inv b :
  new_fast_backend name chunk_size buffered = Done b →
  fast_inv name chunk_size buffered (fast_initial b).
Proof.
  unfold new_fast_backend. pose proof (bc_channel_spec (B := B) (E := StreamEvent) buffered) as Hspec.
  destruct ((0 <? buffered) && _) eqn:Hb; [|by rewrite Hspec].
  apply andb_true_iff in Hb as [Hb%N.ltb_lt _].
  destruct Hspec as (rx & c & -> & Hcap & _). cbn. intros [= <-].
  pose proof (bc_drop_receiver_view c rx) as [= _ _ Hc1 _].
  pose proof (bc_clone_sender_view (bc_drop_receiver c rx)) as [= _ _ Hc2 _].
  unfold fast_inv. cbn. split_and!; try done; [lia|lia|..].
  - by constructor.
  - intros [] ? ? ?; done.
  - constructor.
Qed.

Lemma fast_reachable_inv s :
  fast_reachable name chunk_size buffered s → fast_inv name chunk_size buffered s.
Proof.
  induction 1 as [b Hb|a s s' _ IH Hp]; [by apply fast_initial_inv|].
  destruct s as [b rd dropped subs log reads].
  destruct a; cbn in Hp.
  - destruct rd; try done. by eapply fast_read_inv.
  - destruct rd; try done. by eapply fast_split_inv.
  - destruct rd; try done. by eapply fast_fail_inv.
  - by eapply fast_subscribe_inv.
  - by eapply fast_recv_inv.
  - by eapply fast_drop_subscription_inv.
  - destruct dropped; [done|]. injection Hp as <-. by eapply fast_drop_stream_inv.
  - destruct rd; try done. destruct dropped; [|done]. injection Hp as <-. by eapply fast_abort_inv.
Qed.


End actions.


End system.
Arguments FastSystem B : clear implicits.

(** ** What a subscription of the fast path sees *)

(** Nothing is left in the channel for the subscription. *)
Definition fast_drained {B} `{TokioBroadcast B StreamEvent} (s : FastSystem B) (x : FastSub) : Prop :=
  emit_terminal_event (fs_sub x) = None ∧
  bc_positions (fb_channel (f_backend s)) !! receiver (fs_sub x)
    = Some (len (bc_sent (fb_channel (f_backend s)))).

Lemma filter_nonterminal l : nonterminal l → filter (λ e, is_terminal e = true) l = [].
Proof. induction 1 as [|e l He _ IH]; [done|]. by rewrite filter_cons_False by congruence. Qed.

(** Losses do not touch the terminal events. *)
Lemma explains_terminals obs act :
  explains obs act →
  filter (λ e, is_terminal e = true) obs = filter (λ e, is_terminal e = true) act.
Proof.
  induction 1 as [|e obs act _ IH|lost obs act _ Hl _ IH]; [done|..].
  - rewrite !filter_cons. by case_decide; rewrite IH.
  - rewrite filter_cons_False, filter_app, (filter_nonterminal lost) by done. exact IH.
Qed.

(** The last event of a stopped reader, unless it was aborted. *)
Lemma stopped_last st log :
  closure_inv st FStopped false log → ∃ log' t, log = log' ++ [t] ∧ is_terminal t = true.
Proof.
  cbn. intros Hc. destruct log as [|t log' _] using rev_ind; [repeat case_match; try done; by destruct Hc|].
  exists log', t. split; [done|]. rewrite last_snoc in Hc.
  repeat case_match; try (by injection Hc as ->). by destruct Hc.
Qed.

Lemma since_last start log t :
  terminal_only_last (log ++ [t]) → nonterminal (take start (log ++ [t])) → is_terminal t = true →
  ∃ mid, drop start (log ++ [t]) = mid ++ [t] ∧ nonterminal mid.
Proof.
  intros Hl Hn Ht. destruct (decide (start ≤ length log)%nat) as [Hle|Hgt].
  - exists (drop start log). split; [by rewrite drop_app_le|].
    eapply (lost_nonterminal _ (take start log) _ [t]); [exact Hl| |done].
    by rewrite (assoc_L (++)), take_drop.
  - rewrite take_ge in Hn by (rewrite length_app; simpl; lia).
    apply Forall_app in Hn as [_ Hn]. apply Forall_cons in Hn as [Hn _]. congruence.
Qed.

Section claims.
Context {B : Type} `{TokioBroadcastLaws B StreamEvent}.
Implicit Types (s : FastSystem B) (x : FastSub).

(** What a subscription has received, and will, against the events sent. *)
Lemma fast_observed name chunk_size buffered s h x :
  0 < bytes chunk_size → fast_reachable name chunk_size buffered s → f_subs s !! h = Some x →
  let since := drop (fs_start x) (f_log s) in
  ∃ rest, explains (fs_received x ++ rest) (option_list (fs_initial x) ++ since) ∧
    (fast_drained s x → rest = []) ∧
    (len since ≤ buffered → fs_received x ++ rest = option_list (fs_initial x) ++ since) ∧
    initial_inv (f_reader s) (f_log s) x.
Proof.
  intros Hsize Hr Hx since. apply fast_reachable_inv in Hr; [|done].
  destruct (fast_inv_subs _ _ _ s h x Hr Hx)
    as [(pos & act & live & Hp & _ & _ & Heq & Hex & Hexact & Hrec & Hem) Hi].
  set (left := drop (N.to_nat pos) (bc_sent (fb_channel (f_backend s)))) in *.
  exists (option_list (emit_terminal_event (fs_sub x)) ++ left).
  rewrite (assoc_L (++)), Hrec, <- (assoc_L (++)). subst since. split_and!; [..|done].
  - rewrite <- Heq. apply explains_app; [apply explains_refl|].
    apply explains_app; [done|apply explains_refl].
  - intros [-> Hend]. rewrite Hend in Hp. injection Hp as <-. subst left.
    by rewrite drop_ge by (unfold len; lia).
  - intros Hb. by rewrite <- Heq, Hexact.
Qed.

(** C18: the fast path loses nothing silently.  A subscription sees the terminal
    event it was given on attaching, if any, and then the events sent since it
    attached, in order, where a run of lost chunks shows as a gap and the
    terminal event is never lost; while no more events were sent since than
    the configured buffer holds, it sees exactly these events.  Events sent
    before it attached are never seen, whatever the buffer still holds. *)
Theorem fast_lossy_marked name chunk_size buffered s h x :
  0 < bytes chunk_size → fast_reachable name chunk_size buffered s → f_subs s !! h = Some x →
  let since := drop (fs_start x) (f_log s) in
  ∃ rest, explains (fs_received x ++ rest) (option_list (fs_initial x) ++ since) ∧
    (fast_drained s x → rest = []) ∧
    (len since ≤ buffered → fs_received x ++ rest = option_list (fs_initial x) ++ since).
Proof.
  intros Hsize Hr Hx since. destruct (fast_observed _ _ _ _ _ _ Hsize Hr Hx) as (rest & ? & ? & ? & _).
  by exists rest.
Qed.

(** The fast reader sends what it reads: the events it has sent, with those
    of the buffer it is splitting, are the events of the reads so far. *)
Lemma fast_reader_faithful name chunk_size buffered s :
  0 < bytes chunk_size → fast_reachable name chunk_size buffered s →
  f_log s ++ reader_todo chunk_size (f_reader s) = reader_events name chunk_size (f_reads s).
Proof.
  intros Hsize Hr. apply fast_reachable_inv in Hr as (_ & _ & _ & _ & _ & _ & _ & Hev & _); [|done]. exact Hev.
Qed.

(** The end of the stream reaches every subscriber of the fast path.  When
    the reader has stopped because the stream ended, a drained subscription
    has received a terminal event last, the one the reader sent last, whether
    it attached before or after the end; end of file arrives exactly once. *)
Lemma fast_terminal_last name chunk_size buffered s h x :
  0 < bytes chunk_size → fast_reachable name chunk_size buffered s → f_subs s !! h = Some x →
  f_reader s = FStopped → f_dropped s = false → fast_drained s x →
  ∃ t, last (f_log s) = Some t ∧ is_terminal t = true ∧ last (fs_received x) = Some t ∧
    (t = Eof → filter (λ e, is_terminal e = true) (fs_received x) = [Eof]).
Proof.
  intros Hsize Hr Hx Hrd Hdr [Hem Hend]. apply fast_reachable_inv in Hr; [|done].
  pose proof Hr as (_ & _ & _ & _ & _ & Hcl & Hl & _). rewrite Hrd, Hdr in Hcl.
  destruct (stopped_last _ _ Hcl) as (log & t & Hlog & Ht).
  destruct (fast_inv_subs _ _ _ s h x Hr Hx) as [(pos & act & live & Hp & _ & _ & Heq & Hex & _ & Hrec & _) Hi].
  rewrite Hend in Hp. injection Hp as <-. rewrite drop_ge, app_nil_r in Heq by (unfold len; lia).
  rewrite Hem, app_nil_r in Hrec. subst act. exists t. rewrite Hlog, last_snoc. do 2 (split; [done|]).
  unfold initial_inv in Hi. rewrite Hrd, Hlog in *. rewrite Hrec. clear Hrec.
  destruct (fs_initial x) as [[| | |err]|]; try done; rewrite ?last_snoc in Hi.
  - destruct Hi as (_ & [= ->] & Hnil). rewrite Hnil in Hex. by apply explains_nil in Hex as ->.
  - destruct Hi as [[? _]|(_ & [= ->] & [Hnil|Hnil])]; [done|..]; rewrite Hnil in Hex.
    + by apply explains_nil in Hex as ->.
    + pose proof (explains_last _ _ _ Hex eq_refl eq_refl) as Hll. cbn [option_list option_rect app].
      by rewrite last_cons, Hll.
  - cbn [option_list option_rect app]. destruct (since_last (fs_start x) log t Hl Hi Ht) as (mid & Hmid & Hnt).
    rewrite Hmid in Hex. split; [by eapply explains_last; [done|apply last_snoc|]|].
    intros ->. rewrite (explains_terminals _ _ Hex), filter_app, (filter_nonterminal mid Hnt). done.
Qed.

End claims.

(** ** Runs *)

Module FastDemo.

Definition err : io_error := mkIoError BrokenPipe "gone".

Definition backend : FastBackend (ref_broadcast StreamEvent) :=
  mkFastBackend (mkRefBroadcast [] ∅ 2 2) (mkFastClosure false None) 0
    (mkStreamConfig (mkNumBytes 2) 2 Lossy NoReplayMarker) "stdout".

Lemma backend_new : new_fast_backend "stdout" (mkNumBytes 2) 2 = Done backend.
Proof. vm_compute. reflexivity. Qed.

(** Three chunks overflow the buffer of two before the subscriber, attached
    after the first, receives. *)
Definition acts : list fast_action :=
  [FRead (Ok [x61]); FSplit; FSubscribe 0; FRead (Ok [x62; x63; x64; x65]); FSplit; FSplit;
   FRead (Ok []); FRecv 0; FRecv 0; FRecv 0].

Definition final : FastSystem (ref_broadcast StreamEvent) :=
  default (fast_initial backend) (fast_perform_all acts (fast_initial backend)).

Lemma fast_final_reachable : fast_reachable "stdout" (mkNumBytes 2) 2 final.
Proof.
  apply (fast_perform_all_reachable _ _ _ acts (fast_initial backend)).
  - apply fast_reachable_new, backend_new.
  - vm_compute. reflexivity.
Qed.

Definition sub0 : FastSub := mkFastSub (mkFast 0 None) None 1 [Gap; Chunk [x64; x65]; Eof].

Lemma final_sub0 : f_subs final !! 0 = Some sub0.
Proof. vm_compute. reflexivity. Qed.

Lemma fast_final_drained : fast_drained final sub0.
Proof. split; vm_compute; reflexivity. Qed.

(** A subscriber that attaches between the record of a read error and its event. *)
Definition race : list fast_action :=
  [FRead (Err err); FSubscribe 0; FFail; FRecv 0; FRecv 0].

Definition raced : FastSystem (ref_broadcast StreamEvent) :=
  default (fast_initial backend) (fast_perform_all race (fast_initial backend)).

Lemma raced_reachable : fast_reachable "stdout" (mkNumBytes 2) 2 raced.
Proof.
  apply (fast_perform_all_reachable _ _ _ race (fast_initial backend)).
  - apply fast_reachable_new, backend_new.
  - vm_compute. reflexivity.
Qed.

End FastDemo.

Lemma fast_lossy_marked_witness :
  explains [Gap; Chunk [x64; x65]; Eof] [Chunk [x62; x63]; Chunk [x64; x65]; Eof].
Proof.
  destruct (fast_lossy_marked "stdout" (mkNumBytes 2) 2 FastDemo.final 0 FastDemo.sub0 ltac:(reflexivity)
    FastDemo.fast_final_reachable FastDemo.final_sub0) as (rest & Hex & Hd & _).
  rewrite (Hd FastDemo.fast_final_drained) in Hex. exact Hex.
Defined.

(** A read error can arrive twice on the fast path.  The reader releases the
    closure state before it sends the event, so a subscriber that attaches in
    between is given the error on attaching and receives it again from the
    channel; at the end of file, recorded and sent under one lock, this cannot
    happen. *)
Lemma fast_read_error_twice :
  ∃ (s : FastSystem (ref_broadcast StreamEvent)) x e,
    fast_reachable "stdout" (mkNumBytes 2) 2 s ∧ f_subs s !! 0 = Some x ∧
    fs_received x = [ReadError e; ReadError e].
Proof.
  eexists FastDemo.raced, _, _. split; [exact FastDemo.raced_reachable|].
  split; [vm_compute; reflexivity|reflexivity].
Qed.
