(* ===== verification/SingleSubscriber.v ===== *)
(** * The single-subscriber backend

    Models [src/output_stream/backend/single_subscriber/]: the replay state and
    the shared active-subscriber slot of [state.rs], the subscription of
    [subscription.rs], [try_subscribe] and [seal_replay] of [mod.rs], and the
    two reader loops of [reader.rs] with the events they record and deliver.

    The value of the [watch] channel [active_tx] is [sh_active]; a subscriber's
    channel lives in a store under its id.  A function of the reader that can
    wait for capacity returns [None] while it waits; one pass through the
    chunk loop is one definition, so that other tasks act between passes. *)

From S2P Require Import Prelude Stream Retention Broadcast.

(** ** Replay state *)

Record ReplayState : Type := mkReplayState {
  rs_events : list StreamEvent;
  chunk_count : N;
  byte_count : N;
  rs_sealed : bool;
  rs_terminal_event : option StreamEvent;
  active_id : option SubscriberId;
  rs_next_id : SubscriberId;
}.

Module ReplayState.

Definition new : ReplayState := mkReplayState [] 0 0 false None None 0.

Definition with_events (s : ReplayState) (evs : list StreamEvent) (chunks bs : N) : ReplayState :=
  mkReplayState evs chunks bs (rs_sealed s) (rs_terminal_event s) (active_id s) (rs_next_id s).

Definition push_retained_event (s : ReplayState) (e : StreamEvent) : ReplayState :=
  let '(chunks, bs) :=
    match e with
    | Chunk c => (chunk_count s +! 1, byte_count s +! len c)
    | _ => (chunk_count s, byte_count s)
    end in
  with_events s (rs_events s ++ [e]) chunks bs.

Definition pop_replay_front (s : ReplayState) : option (StreamEvent * ReplayState) :=
  match rs_events s with
  | [] => None
  | e :: rest =>
      let '(chunks, bs) :=
        match e with
        | Chunk c => (chunk_count s -! 1, byte_count s -! len c)
        | _ => (chunk_count s, byte_count s)
        end in
      Some (e, with_events s rest chunks bs)
  end.

Definition snapshot_events (s : ReplayState) : list StreamEvent := rs_events s.

Definition attach_subscriber (s : ReplayState) : SubscriberId * ReplayState :=
  let id := rs_next_id s in
  (id, mkReplayState (rs_events s) (chunk_count s) (byte_count s) (rs_sealed s)
         (rs_terminal_event s) (Some id) (id +! 1)).

(** [while self.pop_replay_front().is_some() {}]. *)
Fixpoint pop_all (fuel : nat) (s : ReplayState) : ReplayState :=
  match fuel with
  | O => s
  | S fuel =>
      match pop_replay_front s with
      | Some (_, s) => pop_all fuel s
      | None => s
      end
  end.

Fixpoint trim_chunks (fuel : nat) (s : ReplayState) (n : N) : ReplayState :=
  match fuel with
  | O => s
  | S fuel =>
      if n <? chunk_count s then
        match pop_replay_front s with
        | Some (_, s) => trim_chunks fuel s n
        | None => s
        end
      else s
  end.

(** [Panic] is the [unreachable!] of the source. *)
Fixpoint trim_bytes (fuel : nat) (s : ReplayState) (n : N) : outcome ReplayState :=
  match fuel with
  | O => Done s
  | S fuel =>
      match rs_events s with
      | [] => Done s
      | Chunk c :: _ =>
          if n <=? saturating_sub (byte_count s) (len c) then
            match pop_replay_front s with
            | Some (_, s) => trim_bytes fuel s n
            | None => Done s
            end
          else Done s
      | Gap :: _ =>
          match pop_replay_front s with
          | Some (_, s) => trim_bytes fuel s n
          | None => Done s
          end
      | Eof :: _ | ReadError _ :: _ => Panic
      end
  end.

Definition trim_replay_window (s : ReplayState) (retention : option ReplayRetention)
    : outcome ReplayState :=
  let fuel := length (rs_events s) in
  match retention with
  | None | Some (LastChunks 0) => Done (pop_all fuel s)
  | Some r =>
      if rs_sealed s then Done (pop_all fuel s)
      else match r with
           | LastBytes n =>
               if bytes n =? 0 then Done (pop_all fuel s) else trim_bytes fuel s (bytes n)
           | LastChunks n => Done (trim_chunks fuel s n)
           | All => Done s
           end
  end.

(** Returns whether subscribers attaching later receive the event. *)
Definition push_replay_event (s : ReplayState) (e : StreamEvent)
    (retention : option ReplayRetention) : outcome (bool * ReplayState) :=
  match e with
  | Eof | ReadError _ =>
      mret (true, mkReplayState (rs_events s) (chunk_count s) (byte_count s) (rs_sealed s)
                    (Some e) (active_id s) (rs_next_id s))
  | Chunk _ =>
      if bool_decide (is_Some retention) && negb (rs_sealed s) then
        s ← trim_replay_window (push_retained_event s e) retention;
        mret (negb (bool_decide (rs_events s = [])), s)
      else mret (false, s)
  | Gap => mret (false, s)
  end.

(** [SingleSubscriberOutputStream::seal_replay]. *)
Definition seal_replay (s : ReplayState) (retention : option ReplayRetention)
    : outcome ReplayState :=
  trim_replay_window
    (mkReplayState (rs_events s) (chunk_count s) (byte_count s) true
       (rs_terminal_event s) (active_id s) (rs_next_id s)) retention.

End ReplayState.

(** ** The shared slot and its subscription *)

Inductive StreamConsumerError : Type := ActiveConsumer (stream_name : String.string).

Record SingleSubscriberSubscription : Type := mkSingle {
  sss_id : SubscriberId;
  sss_replay : list StreamEvent;
  sss_terminal_event : option StreamEvent;
  (** Whether the live receiver is still there. *)
  sss_live : bool;
}.

Section single.
Context {M : Type} `{Mpsc M StreamEvent}.

Record ConfiguredShared : Type := mkConfigured {
  sh_state : ReplayState;
  sh_active : option SubscriberId;
  sh_terminal : option StreamEvent;
  sh_chans : gmap SubscriberId M;
  bytes_ingested : N;
}.
Implicit Types w : ConfiguredShared.

Definition shared_new : ConfiguredShared := mkConfigured ReplayState.new None None ∅ 0.

Definition with_state w (s : ReplayState) : ConfiguredShared :=
  mkConfigured s (sh_active w) (sh_terminal w) (sh_chans w) (bytes_ingested w).
Definition with_chan w (id : SubscriberId) (m : M) : ConfiguredShared :=
  mkConfigured (sh_state w) (sh_active w) (sh_terminal w) (<[id := m]> (sh_chans w)) (bytes_ingested w).

Definition set_active_id (s : ReplayState) (a : option SubscriberId) : ReplayState :=
  mkReplayState (rs_events s) (chunk_count s) (byte_count s) (rs_sealed s)
    (rs_terminal_event s) a (rs_next_id s).

Definition clear_active_if_current w (id : SubscriberId) : ConfiguredShared :=
  if bool_decide (active_id (sh_state w) = Some id) then
    mkConfigured (set_active_id (sh_state w) None) None (sh_terminal w) (sh_chans w) (bytes_ingested w)
  else w.

Definition clear_active w : ConfiguredShared :=
  mkConfigured (set_active_id (sh_state w) None) None (sh_terminal w) (sh_chans w) (bytes_ingested w).

Definition shared_record_bytes_ingested w (n : N) : ConfiguredShared :=
  mkConfigured (sh_state w) (sh_active w) (sh_terminal w) (sh_chans w)
    (record_bytes_ingested (bytes_ingested w) n).

(** [try_subscribe]; the channel is made before the claim is checked. *)
Definition single_subscribe (stream_name : String.string) (retention : option ReplayRetention)
    (buffered : N) w
    : outcome (result (SingleSubscriberSubscription * ConfiguredShared) StreamConsumerError) :=
  chan ← mpsc_channel buffered;
  let s := sh_state w in
  if bool_decide (is_Some (active_id s)) then mret (Err (ActiveConsumer stream_name))
  else
    let replay :=
      if rs_sealed s || bool_decide (retention = None) then []
      else ReplayState.snapshot_events s in
    let '(id, s') := ReplayState.attach_subscriber s in
    mret (Ok (mkSingle id replay (rs_terminal_event s) true,
              mkConfigured s' (Some id) (sh_terminal w) (<[id := chan]> (sh_chans w)) (bytes_ingested w))).

(** [self.live_receiver = None]. *)
Definition drop_receiver (x : SingleSubscriberSubscription) w : ConfiguredShared :=
  match sh_chans w !! sss_id x with
  | Some m => if sss_live x then with_chan w (sss_id x) (mpsc_drop_rx m) else w
  | None => w
  end.

(** [next_event], one poll. *)
Definition single_next_event (x : SingleSubscriberSubscription) w
    : poll (option StreamEvent) * SingleSubscriberSubscription * ConfiguredShared :=
  match sss_replay x with
  | e :: rest => (Ready (Some e), mkSingle (sss_id x) rest (sss_terminal_event x) (sss_live x), w)
  | [] =>
      match sss_terminal_event x with
      | Some e => (Ready (Some e), mkSingle (sss_id x) [] None false, drop_receiver x w)
      | None =>
          match sss_live x, sh_chans w !! sss_id x with
          | true, Some m =>
              let '(r, m) := mpsc_recv m in (r, x, with_chan w (sss_id x) m)
          | _, _ => (Ready None, x, w)
          end
      end
  end.

(** [Drop]: the receiver goes away, then the claim is released. *)
Definition single_drop (x : SingleSubscriberSubscription) w : ConfiguredShared :=
  clear_active_if_current (drop_receiver x w) (sss_id x).

(** ** The reader *)

(** [record_event], with [refresh_cached_active]: the new cached subscriber is
    the current one. *)
Definition record_event (e : StreamEvent) w (retention : option ReplayRetention)
    : outcome (bool * option SubscriberId * ConfiguredShared) :=
  '(recorded, s) ← ReplayState.push_replay_event (sh_state w) e retention;
  let w := with_state w s in
  let cached := sh_active w in
  let w := if is_terminal e
           then mkConfigured (sh_state w) (sh_active w) (Some e) (sh_chans w) (bytes_ingested w)
           else w in
  mret (recorded, cached, w).

Definition chan_try_send w (id : SubscriberId) (e : StreamEvent) : ConfiguredShared * send_result :=
  match sh_chans w !! id with
  | Some m => let '(m, r) := mpsc_try_send m e in (with_chan w id m, r)
  | None => (w, Closed)
  end.

(** One turn of the loop of [deliver_reliable_event]: it waits for capacity,
    returns, or goes around once more. *)
Inductive delivery_turn : Type :=
| TurnWaits
| TurnReturns (cached : option SubscriberId) (w : ConfiguredShared)
| TurnRetries (cached : option SubscriberId) (w : ConfiguredShared).

Definition deliver_turn (e : StreamEvent) (recorded retried : bool)
    (cached : option SubscriberId) w : delivery_turn :=
  match cached with
  | None => TurnReturns None w
  | Some id =>
      match chan_try_send w id e with
      | (w, Sent) => TurnReturns cached w
      | (_, Full) => TurnWaits
      | (w, Closed) =>
          let w := clear_active_if_current w id in
          let cached := sh_active w in
          if recorded || retried then TurnReturns cached w else TurnRetries cached w
      end
  end.

(** [deliver_reliable_event], with no other task in between; [retried] allows
    one more turn. *)
Definition deliver_reliable_event (e : StreamEvent) (recorded : bool)
    (cached : option SubscriberId) w : option (option SubscriberId * ConfiguredShared) :=
  match deliver_turn e recorded false cached w with
  | TurnWaits => None
  | TurnReturns cached w => Some (cached, w)
  | TurnRetries cached w =>
      match deliver_turn e recorded true cached w with
      | TurnReturns cached w => Some (cached, w)
      | TurnWaits | TurnRetries _ _ => None
      end
  end.

(** [send_reliable_event]. *)
Definition send_reliable_event (e : StreamEvent) w (retention : option ReplayRetention)
    : outcome (option (option SubscriberId * ConfiguredShared)) :=
  '(recorded, cached, w) ← record_event e w retention;
  mret (deliver_reliable_event e recorded cached w).

(** The locals of the reliable reader. *)
Record ReliableReader : Type := mkReliableReader {
  rr_buf : list byte;
  rr_cached : option SubscriberId;
}.

(** What a read does to the reader: the cached subscriber is refreshed if there
    was none, the bytes are counted and put into the buffer. *)
Definition reliable_read (buf : list byte) (r : ReliableReader) w : ReliableReader * ConfiguredShared :=
  let cached := match rr_cached r with None => sh_active w | Some _ => rr_cached r end in
  (mkReliableReader (rr_buf r ++ buf) cached, shared_record_bytes_ingested w (len buf)).

(** One pass through [while !buf.is_empty()] of [read_chunked_reliable]; [None]
    while it waits for capacity. *)
Definition reliable_pass (chunk_size : NumBytes) (retention : option ReplayRetention)
    (r : ReliableReader) w : outcome (option (ReliableReader * ConfiguredShared)) :=
  let split_to := bytes chunk_size `min` len (rr_buf r) in
  let e := Chunk (slice_to split_to (rr_buf r)) in
  sent ← send_reliable_event e w retention;
  mret (match sent with
        | Some (cached, w) =>
            Some (mkReliableReader (slice_from split_to (rr_buf r)) cached, w)
        | None => None
        end).

Inductive BestEffortSend : Type := BDelivered | BFull | BInactive.

(** The send loop of [try_send_best_effort_event], after the event was
    recorded or not. *)
Definition try_send_loop (e : StreamEvent) (recorded retry_on_closed : bool)
    (cached : option SubscriberId) w : BestEffortSend * option SubscriberId * ConfiguredShared :=
  match cached with
  | None => (BInactive, cached, w)
  | Some id =>
      match chan_try_send w id e with
      | (w, Sent) => (BDelivered, cached, w)
      | (w, Full) => (BFull, cached, w)
      | (w, Closed) =>
          let w := clear_active_if_current w id in
          let cached := sh_active w in
          if recorded || negb retry_on_closed then (BInactive, cached, w)
          else
            match cached with
            | None => (BInactive, cached, w)
            | Some id =>
                match chan_try_send w id e with
                | (w, Sent) => (BDelivered, cached, w)
                | (w, Full) => (BFull, cached, w)
                | (w, Closed) =>
                    let w := clear_active_if_current w id in (BInactive, sh_active w, w)
                end
            end
      end
  end.

(** [try_send_best_effort_event]; the [unreachable!] for terminal events is
    [Panic]. *)
Definition try_send_best_effort_event (e : StreamEvent) (cached : option SubscriberId) w
    (retention : option ReplayRetention) (retry_on_closed : bool)
    : outcome (BestEffortSend * option SubscriberId * ConfiguredShared) :=
  match e with
  | Chunk _ =>
      '(recorded, cached, w) ← record_event e w retention;
      mret (try_send_loop e recorded retry_on_closed cached w)
  | Gap => mret (try_send_loop e false retry_on_closed cached w)
  | Eof | ReadError _ => Panic
  end.

Record BestEffortLag : Type := mkLag {
  subscriber_id : option SubscriberId;
  lagged : N;
  gap_pending : bool;
}.

Definition default_lag : BestEffortLag := mkLag None 0 false.

Definition observe_active (l : BestEffortLag) (active : option SubscriberId) : BestEffortLag :=
  if bool_decide (subscriber_id l = active) then l else mkLag active 0 false.

Definition log_if_lagged (l : BestEffortLag) : BestEffortLag :=
  mkLag (subscriber_id l) 0 (gap_pending l).

Definition buffered_chunk_count (buffer_len : N) (chunk_size : NumBytes) : N :=
  (buffer_len + bytes chunk_size - 1) `div` bytes chunk_size.

(** The locals of the best-effort reader. *)
Record BestEffortReader : Type := mkBestEffort {
  be_buf : list byte;
  be_cached : option SubscriberId;
  be_lag : BestEffortLag;
}.

(** One pass through [while !buf.is_empty()] of [read_chunked_best_effort]. *)
Definition best_effort_pass (chunk_size : NumBytes) (retention : option ReplayRetention)
    (r : BestEffortReader) w : outcome (BestEffortReader * ConfiguredShared) :=
  let lag := observe_active (be_lag r) (be_cached r) in
  '(cleared, cached, lag, w) ←
    (if gap_pending lag then
       '(sent, cached, w) ← try_send_best_effort_event Gap (be_cached r) w retention false;
       mret match sent with
            | BDelivered =>
                (false, cached, mkLag (subscriber_id lag) 0 false, w)
            | BFull =>
                (true, cached,
                 mkLag (subscriber_id lag)
                   (lagged lag +! buffered_chunk_count (len (be_buf r)) chunk_size) true, w)
            | BInactive => (false, cached, observe_active lag cached, w)
            end
     else mret (false, be_cached r, lag, w));
  if cleared : bool then mret (mkBestEffort [] cached lag, w)
  else
    let split_to := bytes chunk_size `min` len (be_buf r) in
    let e := Chunk (slice_to split_to (be_buf r)) in
    '(sent, cached, w) ← try_send_best_effort_event e cached w retention true;
    let lag :=
      match sent with
      | BDelivered => log_if_lagged lag
      | BFull => mkLag (subscriber_id lag) (lagged lag +! 1) true
      | BInactive => observe_active lag cached
      end in
    mret (mkBestEffort (slice_from split_to (be_buf r)) cached lag, w).

(** [send_pending_gap_before_terminal]: waits for capacity. *)
Definition send_pending_gap_before_terminal (cached : option SubscriberId) (lag : BestEffortLag) w
    : option (option SubscriberId * BestEffortLag * ConfiguredShared) :=
  if gap_pending lag then
    match cached with
    | None => Some (cached, observe_active lag None, w)
    | Some id =>
        match chan_try_send w id Gap with
        | (w, Sent) => Some (cached, mkLag (subscriber_id lag) 0 false, w)
        | (_, Full) => None
        | (w, Closed) =>
            let w := clear_active_if_current w id in
            Some (sh_active w, observe_active lag (sh_active w), w)
        end
    end
  else Some (cached, lag, w).

(** [send_terminal_event_best_effort], up to its two waits: record and gap,
    then the event itself. *)
Definition terminal_record (e : StreamEvent) (lag : BestEffortLag) w
    (retention : option ReplayRetention)
    : outcome (bool * option SubscriberId * BestEffortLag * ConfiguredShared) :=
  '(recorded, cached, w) ← record_event e w retention;
  mret (recorded, cached, observe_active lag cached, w).

Definition send_terminal_event_best_effort (e : StreamEvent) (lag : BestEffortLag) w
    (retention : option ReplayRetention)
    : outcome (option (option SubscriberId * ConfiguredShared)) :=
  '(recorded, cached, lag, w) ← terminal_record e lag w retention;
  mret ('(cached, lag, w) ← send_pending_gap_before_terminal cached lag w;
        deliver_reliable_event e recorded cached w).

(** What a read does to the reader: the cached subscriber is refreshed if there
    was none, the bytes are counted and put into the buffer. *)
Definition best_effort_read (buf : list byte) (r : BestEffortReader) w
    : BestEffortReader * ConfiguredShared :=
  let '(cached, lag) :=
    match be_cached r with
    | None => (sh_active w, observe_active (be_lag r) (sh_active w))
    | Some _ => (be_cached r, be_lag r)
    end in
  (mkBestEffort (be_buf r ++ buf) cached lag, shared_record_bytes_ingested w (len buf)).

(** The chunk loop, when no other task acts in between. *)
Fixpoint best_effort_loop (fuel : nat) (chunk_size : NumBytes) (retention : option ReplayRetention)
    (r : BestEffortReader) w : outcome (BestEffortReader * ConfiguredShared) :=
  match fuel, be_buf r with
  | _, [] => mret (r, w)
  | O, _ => Panic
  | S fuel, _ =>
      '(r, w) ← best_effort_pass chunk_size retention r w;
      best_effort_loop fuel chunk_size retention r w
  end.

End single.

(** ** The replay window implements the retention *)

Section window.
Import ReplayState.

(** A state whose window is [kept], with exact counters. *)
Definition counted_events (s : ReplayState) (kept : list chunk) : ReplayState :=
  with_events s (Chunk <$> kept) (len kept) (total_bytes len kept).

Definition small_chunks (l : list chunk) : Prop :=
  len l < word_modulus ∧ total_bytes len l < word_modulus.

Lemma small_chunks_cons c l : small_chunks (c :: l) → small_chunks l.
Proof. unfold small_chunks. rewrite len_cons. simpl. lia. Qed.

Lemma pop_counted_events s c kept :
  small_chunks (c :: kept) →
  pop_replay_front (counted_events s (c :: kept)) = Some (Chunk c, counted_events s kept).
Proof.
  unfold small_chunks. rewrite len_cons. intros [Hl Hb]. simpl in Hb.
  unfold pop_replay_front, counted_events, with_events. simpl. rewrite len_cons.
  rewrite !wrapping_sub_small by (unfold chunk in *; lia). do 3 f_equal; unfold chunk in *; lia.
Qed.

Lemma pop_all_counted fuel s kept :
  small_chunks kept → (length kept ≤ fuel)%nat → pop_all fuel (counted_events s kept) = counted_events s [].
Proof.
  revert kept. induction fuel as [|fuel IH]; intros [|c kept] Hs Hf; simpl in Hf; try lia; [done..|].
  cbn [pop_all]. rewrite pop_counted_events by done.
  apply IH; [by eapply small_chunks_cons|lia].
Qed.

Lemma trim_chunks_counted fuel s kept n :
  small_chunks kept → (length kept ≤ fuel)%nat →
  trim_chunks fuel (counted_events s kept) n = counted_events s (retain_chunks n kept).
Proof.
  revert kept. induction fuel as [|fuel IH]; intros [|c kept] Hs Hf; simpl in Hf; try lia; [done| |].
  { simpl. by case_match. }
  cbn [trim_chunks retain_chunks].
  change (chunk_count (counted_events s (c :: kept))) with (len (c :: kept)).
  destruct (n <? len (c :: kept)); [|done]. rewrite pop_counted_events by done.
  apply IH; [by eapply small_chunks_cons|lia].
Qed.

Lemma trim_bytes_counted fuel s kept n :
  small_chunks kept → (length kept ≤ fuel)%nat →
  trim_bytes fuel (counted_events s kept) n = Done (counted_events s (retain_bytes len n kept)).
Proof.
  revert kept. induction fuel as [|fuel IH]; intros [|c kept] Hs Hf; simpl in Hf; try lia; [done..|].
  cbn [trim_bytes retain_bytes].
  change (rs_events (counted_events s (c :: kept))) with (Chunk c :: (Chunk <$> kept)).
  cbv iota beta.
  change (byte_count (counted_events s (c :: kept))) with (len c + total_bytes len kept).
  unfold saturating_sub. replace (len c + total_bytes len kept - len c)
    with (total_bytes len kept) by (unfold chunk in *; lia).
  destruct (n <=? total_bytes len kept); [|done]. rewrite pop_counted_events by done.
  apply IH; [by eapply small_chunks_cons|lia].
Qed.

(** Trimming leaves what the retention promises and never reaches the
    [unreachable!]. *)
Lemma trim_window_counted s kept r :
  rs_sealed s = false → small_chunks kept →
  trim_replay_window (counted_events s kept) (Some r) = Done (counted_events s (retain_history r kept)).
Proof.
  intros Hsealed Hs. unfold trim_replay_window.
  change (rs_sealed (counted_events s kept)) with (rs_sealed s). rewrite Hsealed.
  assert (length (rs_events (counted_events s kept)) = length kept) as -> by apply length_fmap.
  destruct r as [n|n|]; [| |done].
  - destruct n as [|p].
    + rewrite pop_all_counted by done. do 2 f_equal. symmetry. apply len_zero.
      unfold retain_history, retain. rewrite retain_chunks_len. lia.
    + by rewrite trim_chunks_counted.
  - destruct (N.eqb_spec (bytes n) 0) as [Hn|Hn]; [|by rewrite trim_bytes_counted].
    rewrite pop_all_counted by done. do 2 f_equal. unfold retain_history, retain. rewrite Hn.
    clear. induction kept as [|c kept IH]; simpl; [done|]. by rewrite (proj2 (N.leb_le _ _)) by lia.
Qed.

Lemma trim_sealed s kept r :
  rs_sealed s = true → small_chunks kept →
  trim_replay_window (counted_events s kept) r = Done (counted_events s []).
Proof.
  intros Hsealed Hs. unfold trim_replay_window.
  change (rs_sealed (counted_events s kept)) with (rs_sealed s). rewrite Hsealed.
  assert (length (rs_events (counted_events s kept)) = length kept) as -> by apply length_fmap.
  rewrite pop_all_counted by done. by destruct r as [[[]|?|]|].
Qed.

Lemma push_counted s kept c :
  small_chunks (kept ++ [c]) →
  push_retained_event (counted_events s kept) (Chunk c) = counted_events s (kept ++ [c]).
Proof.
  unfold small_chunks. rewrite len_app, total_bytes_app. change (len [c]) with 1.
  change (total_bytes len [c]) with (len c + 0). intros [Hl Hb].
  unfold push_retained_event, counted_events, with_events. simpl.
  rewrite fmap_app, len_app, total_bytes_app. change (len [c]) with 1.
  change (total_bytes len [c]) with (len c + 0).
  rewrite !wrapping_add_small by (unfold chunk in *; lia). f_equal; unfold chunk in *; lia.
Qed.

(** A retention the configuration accepts always keeps the newest chunk. *)
Lemma retain_newest r kept c :
  retention_assert_non_zero r = Done () → retain_history r (kept ++ [c]) ≠ [].
Proof.
  intros Hr. apply retention_assert_done in Hr. unfold retain_history.
  induction kept as [|d kept IH]; destruct r as [n|n|]; simpl in *; try done.
  - change (len [c]) with 1. destruct (N.ltb_spec n 1); [lia|done].
  - destruct (N.leb_spec (bytes n) 0); [lia|done].
  - by case_match.
  - by case_match.
Qed.

(** Recording an event: a chunk is retained as promised, a terminal event is
    remembered, nothing panics; the answer is whether later subscribers
    receive the event. *)
Lemma push_replay_event_spec s kept e retention :
  small_chunks (kept ++ log_chunks [e]) →
  (∀ r, retention = Some r → retention_assert_non_zero r = Done ()) →
  push_replay_event (counted_events s kept) e retention =
    match e with
    | Chunk c =>
        match retention with
        | Some r =>
            if rs_sealed s then Done (false, counted_events s kept)
            else Done (true, counted_events s (retain_history r (kept ++ [c])))
        | None => Done (false, counted_events s kept)
        end
    | Gap => Done (false, counted_events s kept)
    | Eof | ReadError _ =>
        Done (true, counted_events
          (mkReplayState [] 0 0 (rs_sealed s) (Some e) (active_id s) (rs_next_id s)) kept)
    end.
Proof.
  intros Hs Hr. destruct e as [c| | |]; [|done..]. unfold push_replay_event.
  change (rs_sealed (counted_events s kept)) with (rs_sealed s).
  destruct retention as [r|]; [|done]. rewrite bool_decide_eq_true_2 by eauto.
  destruct (rs_sealed s) eqn:Hsealed; [done|]. cbn [negb andb].
  rewrite push_counted by done. rewrite trim_window_counted by done. cbn.
  rewrite bool_decide_eq_false_2; [done|]. intros Hnil. apply fmap_nil_inv in Hnil.
  by eapply (retain_newest r kept c); [apply Hr|].
Qed.

End window.
