(* ===== verification/SingleSystem.v ===== *)
(** * The single-subscriber backend as a concurrent system

    The operations of [SingleSubscriber] put together: one reader with
    reliable delivery, any number of subscriptions that come and go one after
    another, sealing, and the drop of the stream.  Every interleaving of the
    atomic operations is a sequence of steps; the theorems hold in every
    reachable state. *)

From S2P Require Import Prelude Stream Retention Broadcast SingleSubscriber.

(** A subscription with its history: what [try_subscribe] gave it, how much had
    been recorded then, and what it has returned. *)
Record SSub : Type := mkSSub {
  ss_sub : SingleSubscriberSubscription;
  ss_snapshot : list StreamEvent;
  ss_start : nat;
  (** Whether replay was sealed when it subscribed. *)
  ss_sealed : bool;
  ss_seen : list StreamEvent;
}.

(** The reader: between two events, while it delivers one that it recorded, at
    its end, or aborted by the drop of the stream. *)
Inductive SReader : Type :=
| SIdle
| SDelivering (e : StreamEvent) (recorded retried : bool) (cached : option SubscriberId)
| SStopped
| SAborted.

Definition after_delivery (e : StreamEvent) : SReader := if is_terminal e then SStopped else SIdle.

Section system.
Context {M : Type} `{MpscLaws M StreamEvent}.
Context (name : String.string) (retention : option ReplayRetention) (buffered : N).

Record SSystem : Type := mkSSystem {
  sy_shared : ConfiguredShared (M := M);
  sy_subs : gmap SubscriberId SSub;
  sy_reader : SReader;
  sy_log : list StreamEvent;
}.
Implicit Types (w : ConfiguredShared (M := M)) (rd : SReader) (s : SSub).

Definition s_initial : SSystem := mkSSystem shared_new ∅ SIdle [].

(** The snapshot a subscription starts with. *)
Definition initial_events (x : SingleSubscriberSubscription) : list StreamEvent :=
  sss_replay x ++ option_list (sss_terminal_event x).

(** The channel's sender goes away once neither the slot nor the reader holds
    it. *)
Definition holds_sender w rd (id : SubscriberId) : Prop :=
  sh_active w = Some id ∨
  match rd with SDelivering _ _ _ cached => cached = Some id | _ => False end.

Inductive s_step : SSystem → SSystem → Prop :=
| s_subscribe w subs rd log x w' :
    rd ≠ SAborted → rs_next_id (sh_state w) + 1 < word_modulus →
    single_subscribe name retention buffered w = Done (Ok (x, w')) →
    s_step (mkSSystem w subs rd log)
      (mkSSystem w' (<[sss_id x := mkSSub x (initial_events x) (length log)
                                     (rs_sealed (sh_state w)) []]> subs) rd log)
| s_recv w subs rd log id s r x w' :
    subs !! id = Some s → single_next_event (ss_sub s) w = (r, x, w') →
    s_step (mkSSystem w subs rd log)
      (mkSSystem w' (<[id := mkSSub x (ss_snapshot s) (ss_start s) (ss_sealed s)
         (ss_seen s ++ match r with Ready (Some e) => [e] | _ => [] end)]> subs) rd log)
| s_drop w subs rd log id s :
    subs !! id = Some s →
    s_step (mkSSystem w subs rd log)
      (mkSSystem (single_drop (ss_sub s) w) (delete id subs) rd log)
| s_seal w subs rd log st :
    ReplayState.seal_replay (sh_state w) retention = Done st →
    s_step (mkSSystem w subs rd log) (mkSSystem (with_state w st) subs rd log)
| s_record w subs log e recorded cached w' :
    e ≠ Gap → small_log (log ++ [e]) →
    record_event e w retention = Done (recorded, cached, w') →
    s_step (mkSSystem w subs SIdle log)
      (mkSSystem w' subs (SDelivering e recorded false cached) (log ++ [e]))
| s_returns w subs log e recorded retried cached cached' w' :
    deliver_turn e recorded retried cached w = TurnReturns cached' w' →
    s_step (mkSSystem w subs (SDelivering e recorded retried cached) log)
      (mkSSystem w' subs (after_delivery e) log)
| s_retries w subs log e recorded retried cached cached' w' :
    deliver_turn e recorded retried cached w = TurnRetries cached' w' →
    s_step (mkSSystem w subs (SDelivering e recorded retried cached) log)
      (mkSSystem w' subs (SDelivering e recorded true cached') log)
| s_abort w subs rd log :
    s_step (mkSSystem w subs rd log) (mkSSystem (clear_active w) subs SAborted log)
| s_release w subs rd log id m :
    ¬ holds_sender w rd id → sh_chans w !! id = Some m →
    s_step (mkSSystem w subs rd log) (mkSSystem (with_chan w id (mpsc_drop_tx m)) subs rd log).

Inductive s_reachable : SSystem → Prop :=
| s_reach_initial : s_reachable s_initial
| s_reach_step y y' : s_reachable y → s_step y y' → s_reachable y'.

(** ** The invariant *)

Definition contents_of w (id : SubscriberId) : list StreamEvent :=
  match sh_chans w !! id with Some m => mpsc_contents m | None => [] end.
Definition rx_of w (id : SubscriberId) : bool :=
  match sh_chans w !! id with Some m => mpsc_rx_open m | None => false end.

Definition queue w s : list StreamEvent :=
  initial_events (ss_sub s) ++
  (if sss_live (ss_sub s) then contents_of w (sss_id (ss_sub s)) else []).

Definition s_pending rd (id : SubscriberId) : list StreamEvent :=
  match rd with
  | SDelivering e _ _ cached => if decide (cached = Some id) then [e] else []
  | _ => []
  end.

Definition s_observed w rd s : list StreamEvent :=
  ss_seen s ++ queue w s ++ s_pending rd (sss_id (ss_sub s)).

Definition delivers rd (obs promise : list StreamEvent) : Prop :=
  match rd with SAborted => obs `prefix_of` promise | _ => obs = promise end.

(** A subscription gets its snapshot and then a contiguous rest of the log: from
    where it subscribed, or from the one event before that was not recorded
    for it. *)
Definition s_delivery w rd (log : list StreamEvent) s : Prop :=
  ∃ from, (from = ss_start s ∨ (S from = ss_start s ∧ ss_snapshot s = [])) ∧
    delivers rd (s_observed w rd s) (ss_snapshot s ++ drop from log).

(** A subscription that came while another's event was under way has received
    nothing yet. *)
Definition s_fresh w rd (log : list StreamEvent) s : Prop :=
  match rd with
  | SDelivering e recorded _ cached =>
      active_id (sh_state w) = Some (sss_id (ss_sub s)) → cached ≠ Some (sss_id (ss_sub s)) →
      ss_start s = length log ∧ ss_seen s ++ queue w s = ss_snapshot s ∧
      (recorded = false → ss_snapshot s = [])
  | _ => True
  end.

(** A subscription that has a terminal event to give, or gave it, is at its
    end. *)
Definition s_ended w rd s : Prop :=
  is_Some (sss_terminal_event (ss_sub s)) ∨ sss_live (ss_sub s) = false →
  is_Some (rs_terminal_event (sh_state w)) ∧ contents_of w (sss_id (ss_sub s)) = [] ∧
  s_pending rd (sss_id (ss_sub s)) = [].

Definition retained (sealed : bool) (log : list StreamEvent) : list chunk :=
  match retention with
  | Some r => if sealed then [] else retain_history r (log_chunks log)
  | None => []
  end.

Definition s_snapshot_inv (log : list StreamEvent) s : Prop :=
  let before := take (ss_start s) log in
  ss_snapshot s = (Chunk <$> retained (ss_sealed s) before)
                  ++ filter (λ e, is_terminal e = true) before.

Record s_sub_inv w rd (log : list StreamEvent) (id : SubscriberId) s : Prop := {
  si_id : sss_id (ss_sub s) = id;
  si_old : id < rs_next_id (sh_state w);
  si_rx : rx_of w id = sss_live (ss_sub s);
  si_active : rd ≠ SAborted → sss_live (ss_sub s) = true → active_id (sh_state w) = Some id;
  si_start : (ss_start s ≤ length log)%nat;
  si_delivery : s_delivery w rd log s;
  si_fresh : s_fresh w rd log s;
  si_ended : s_ended w rd s;
  si_snapshot : s_snapshot_inv log s;
}.

Definition s_reader_inv w rd (log : list StreamEvent) : Prop :=
  match rd with
  | SIdle => rs_terminal_event (sh_state w) = None
  | SDelivering e recorded _ cached =>
      (∃ log0, log = log0 ++ [e]) ∧
      (is_terminal e = false → rs_terminal_event (sh_state w) = None) ∧
      (recorded = false → is_terminal e = false ∧
         (retention = None ∨ rs_sealed (sh_state w) = true)) ∧
      (∀ id, cached = Some id → id < rs_next_id (sh_state w))
  | SStopped | SAborted => True
  end.

Definition s_log_inv w (log : list StreamEvent) : Prop :=
  small_log log ∧
  (∃ cs, log = (Chunk <$> cs) ++ option_list (rs_terminal_event (sh_state w))) ∧
  (∀ t, rs_terminal_event (sh_state w) = Some t → is_terminal t = true).

Definition s_window_inv w (log : list StreamEvent) : Prop :=
  sh_state w = counted_events (sh_state w) (retained (rs_sealed (sh_state w)) log).

Definition s_slot_inv w : Prop :=
  active_id (sh_state w) = sh_active w ∧
  ∀ id, active_id (sh_state w) = Some id → id < rs_next_id (sh_state w).

Definition s_inv (y : SSystem) : Prop :=
  let '(mkSSystem w subs rd log) := y in
  s_slot_inv w ∧ s_log_inv w log ∧ s_window_inv w log ∧ s_reader_inv w rd log ∧
  map_Forall (s_sub_inv w rd log) subs.

Lemma s_inv_initial : s_inv s_initial.
Proof.
  split_and!; try done.
  - split_and!; [done| |done]. by exists [].
  - unfold s_window_inv, retained. simpl. by destruct retention as [[]|].
Qed.

(** ** Steps preserve it *)

(** What a step must leave alone for another subscription. *)
Lemma s_sub_frame w w' rd log id s :
  contents_of w' id = contents_of w id → rx_of w' id = rx_of w id →
  rs_next_id (sh_state w) ≤ rs_next_id (sh_state w') →
  (rd ≠ SAborted → sss_live (ss_sub s) = true → active_id (sh_state w') = Some id) →
  (active_id (sh_state w') = Some id → active_id (sh_state w) = Some id) →
  (is_Some (rs_terminal_event (sh_state w)) → is_Some (rs_terminal_event (sh_state w'))) →
  s_sub_inv w rd log id s → s_sub_inv w' rd log id s.
Proof.
  intros Hc Hrx Hnext Hact Hact' Hterm [<- Hold Hr Ha Hst Hdel Hfr Hend Hsnap].
  assert (queue w' s = queue w s) as Hq by (unfold queue; by rewrite Hc).
  split; try done; [lia|congruence|..].
  - destruct Hdel as (from & Hfrom & Hd). exists from. unfold s_observed in *. by rewrite Hq.
  - unfold s_fresh in *. destruct rd; try done. rewrite Hq. auto.
  - unfold s_ended in *. rewrite Hc. intros Hx. destruct (Hend Hx) as (? & ? & ?). auto.
Qed.

Lemma contents_with_chan w id m id' :
  contents_of (with_chan w id m) id' = if decide (id' = id) then mpsc_contents m else contents_of w id'.
Proof.
  unfold contents_of. simpl. case_decide as Hd; [subst; by rewrite lookup_insert_eq|].
  by rewrite lookup_insert_ne.
Qed.

Lemma rx_with_chan w id m id' :
  rx_of (with_chan w id m) id' = if decide (id' = id) then mpsc_rx_open m else rx_of w id'.
Proof.
  unfold rx_of. simpl. case_decide as Hd; [subst; by rewrite lookup_insert_eq|].
  by rewrite lookup_insert_ne.
Qed.

Lemma recv_contents (m m' : M) r :
  mpsc_recv m = (r, m') →
  mpsc_contents m = match r with Ready (Some e) => [e] | _ => [] end ++ mpsc_contents m' ∧
  mpsc_rx_open m' = mpsc_rx_open m.
Proof.
  intros Hr. pose proof (mpsc_recv_spec m) as Hs. rewrite Hr in Hs.
  destruct (mpsc_contents m) as [|e es] eqn:Hc.
  - destruct (mpsc_tx_open m); injection Hs as -> ->; by rewrite Hc.
  - destruct Hs as [Hs Hv]. simpl in Hs, Hv. subst r. unfold mpsc_view in Hv.
    injection Hv as -> _ _ ->. done.
Qed.

(** A poll moves the head of a subscription's queue to what it has seen. *)
Lemma next_event_queue w x r x' w' :
  single_next_event x w = (r, x', w') →
  (sss_live x = true → rx_of w (sss_id x) = true) →
  (is_Some (sss_terminal_event x) → contents_of w (sss_id x) = []) →
  let got := match r with Ready (Some e) => [e] | _ => [] end in
  initial_events x ++ (if sss_live x then contents_of w (sss_id x) else []) =
    got ++ initial_events x' ++ (if sss_live x' then contents_of w' (sss_id x) else []) ∧
  sss_id x' = sss_id x ∧ sh_state w' = sh_state w ∧ sh_active w' = sh_active w ∧
  (∀ id, id ≠ sss_id x → contents_of w' id = contents_of w id ∧ rx_of w' id = rx_of w id) ∧
  (rx_of w (sss_id x) = sss_live x → rx_of w' (sss_id x) = sss_live x') ∧
  (is_Some (sss_terminal_event x') → x' = mkSingle (sss_id x) (sss_replay x') (sss_terminal_event x) (sss_live x)) ∧
  (sss_live x' = false → is_Some (sss_terminal_event x) ∨ sss_live x = false) ∧
  (sss_live x' = true → sss_live x = true) ∧
  (contents_of w (sss_id x) = [] → contents_of w' (sss_id x) = []).
Proof.
  unfold single_next_event, initial_events. destruct x as [id rp t live]. simpl.
  destruct rp as [|e rp].
  2: { intros [= <- <- <-] _ _. simpl. split_and!; auto. }
  destruct t as [t|].
  { intros [= <- <- <-] Hl Hc. simpl. rewrite Hc by eauto.
    assert (∀ id', id' ≠ id → contents_of (drop_receiver (mkSingle id [] (Some t) live) w) id' = contents_of w id'
       ∧ rx_of (drop_receiver (mkSingle id [] (Some t) live) w) id' = rx_of w id') as Hother.
    { intros id' Hne. unfold drop_receiver. simpl. repeat case_match; try done.
      rewrite contents_with_chan, rx_with_chan. by rewrite !decide_False. }
    split_and!; try done.
    - by destruct live.
    - unfold drop_receiver. simpl. repeat case_match; done.
    - unfold drop_receiver. simpl. repeat case_match; done.
    - unfold drop_receiver, rx_of. simpl. destruct (sh_chans w !! id) as [m|] eqn:Hm; [|by rewrite Hm].
      destruct live; simpl; [|by rewrite Hm]. rewrite lookup_insert_eq. intros _.
      pose proof (mpsc_drop_rx_view m) as Hv. unfold mpsc_view in Hv. by injection Hv.
    - eauto.
    - intros _. unfold drop_receiver, contents_of in *. simpl.
      destruct (sh_chans w !! id) as [m|] eqn:Hm; [|by rewrite Hm].
      destruct live; simpl; [|rewrite Hm; auto]. rewrite lookup_insert_eq.
      pose proof (mpsc_drop_rx_view m) as Hv. unfold mpsc_view in Hv. injection Hv as -> _ _ _.
      eauto. }
  intros Heq Hl _. destruct live.
  2: { injection Heq as <- <- <-. simpl. split_and!; auto. }
  specialize (Hl eq_refl). unfold rx_of in Hl.
  destruct (sh_chans w !! id) as [m|] eqn:Hm; [|done].
  destruct (mpsc_recv m) as [r0 m'] eqn:Hr. injection Heq as <- <- <-.
  destruct (recv_contents _ _ _ Hr) as [Hc Hrx]. simpl.
  rewrite contents_with_chan, rx_with_chan, !decide_True by done.
  unfold contents_of at 1. rewrite Hm. split_and!; try done.
  - intros id' Hne. rewrite contents_with_chan, rx_with_chan. by rewrite !decide_False.
  - intros _. by rewrite Hrx.
  - unfold contents_of. rewrite Hm. intros Hnil. rewrite Hnil in Hc. symmetry in Hc.
    by apply app_eq_nil in Hc as [_ ->].
Qed.

Lemma s_inv_recv w subs rd log id s r x w' :
  s_inv (mkSSystem w subs rd log) → subs !! id = Some s →
  single_next_event (ss_sub s) w = (r, x, w') →
  s_inv (mkSSystem w' (<[id := mkSSub x (ss_snapshot s) (ss_start s) (ss_sealed s)
    (ss_seen s ++ match r with Ready (Some e) => [e] | _ => [] end)]> subs) rd log).
Proof.
  intros (Hslot & Hlog & Hwin & Hrd & Hsubs) Hs Hev.
  pose proof (Hsubs _ _ Hs) as [Hid Hold Hrx Ha Hst Hdel Hfr Hend Hsnap].
  destruct (next_event_queue _ _ _ _ _ Hev) as (Hq & Hid' & Hstate & Hsh & Hother & Hrx' & Ht & Hlf & Hlt & Hcn).
  { intros Hl. rewrite Hid, Hrx. done. }
  { intros Hsome. apply Hend. by left. }
  rewrite Hid in *. split; [|split; [|split; [|split]]].
  { unfold s_slot_inv. by rewrite Hstate, Hsh. }
  { unfold s_log_inv. by rewrite Hstate. }
  { unfold s_window_inv. by rewrite Hstate. }
  { unfold s_reader_inv. by rewrite Hstate. }
  apply map_Forall_insert_others.
  - assert (∀ k, (ss_seen s ++ match r with Ready (Some e) => [e] | _ => [] end)
       ++ queue w' (mkSSub x (ss_snapshot s) (ss_start s) (ss_sealed s) k) = ss_seen s ++ queue w s) as Hq'.
    { intros k. unfold queue. simpl. rewrite Hid', Hid, Hq, <- !app_assoc. done. }
    split; simpl; try rewrite Hstate; try done; [by apply Hrx'|auto|..].
    + destruct Hdel as (from & Hfrom & Hd). exists from. split; [done|].
      unfold s_observed in *. simpl. rewrite app_assoc, Hq', <- app_assoc, Hid'. by rewrite Hid in Hd.
    + unfold s_fresh in *. destruct rd; try done. simpl. rewrite Hid', Hstate, Hq'. by rewrite Hid in Hfr.
    + unfold s_ended in *. simpl. rewrite Hid', Hstate. rewrite Hid in Hend. intros Hor.
      assert (is_Some (sss_terminal_event (ss_sub s)) ∨ sss_live (ss_sub s) = false) as Hor'.
      { destruct Hor as [Hor|Hor]; [|auto]. specialize (Ht Hor). rewrite Ht in Hor. by left. }
      destruct (Hend Hor') as (? & ? & ?). auto.
  - intros id' s' Hne Hs'. destruct (Hother id' Hne) as [Hc' Hr'].
    eapply s_sub_frame, Hsubs, Hs'; try done; rewrite ?Hstate; try done.
    intros. by apply (si_active _ _ _ _ _ (Hsubs _ _ Hs')).
Qed.

(** Clearing the slot leaves every channel as it is. *)
Lemma clear_current_chans w id : sh_chans (clear_active_if_current w id) = sh_chans w.
Proof. unfold clear_active_if_current. by case_bool_decide. Qed.

(** Clearing the slot only concerns the subscriber that holds it. *)
Lemma clear_current_fields w id :
  let w' := clear_active_if_current w id in
  (∀ id', contents_of w' id' = contents_of w id' ∧ rx_of w' id' = rx_of w id') ∧
  sh_state w' = set_active_id (sh_state w)
    (if decide (active_id (sh_state w) = Some id) then None else active_id (sh_state w)) ∧
  (active_id (sh_state w) = sh_active w → sh_active w' = active_id (sh_state w')).
Proof.
  unfold clear_active_if_current. simpl. case_bool_decide as Hd.
  - rewrite decide_True by done. split_and!; done.
  - rewrite decide_False by done. split_and!; [done| |done]. by destruct w as [[] ? ? ? ?].
Qed.

Lemma set_active_global w w' rd log a :
  sh_state w' = set_active_id (sh_state w) a → (∀ id, a = Some id → active_id (sh_state w) = Some id) →
  sh_active w' = active_id (sh_state w') →
  s_slot_inv w → s_log_inv w log → s_window_inv w log → s_reader_inv w rd log →
  s_slot_inv w' ∧ s_log_inv w' log ∧ s_window_inv w' log ∧ s_reader_inv w' rd log.
Proof.
  intros Hst Ha Hsh [_ Hslot] Hlog Hwin Hrd.
  unfold s_slot_inv, s_log_inv, s_window_inv, s_reader_inv. rewrite Hsh, Hst. simpl.
  split_and!; try done; try apply Hlog.
  - intros id Hid. auto.
  - unfold s_window_inv in Hwin. rewrite Hwin at 1. done.
Qed.

Lemma drop_receiver_fields x w :
  let w' := drop_receiver x w in
  sh_state w' = sh_state w ∧ sh_active w' = sh_active w ∧
  ∀ id', id' ≠ sss_id x → contents_of w' id' = contents_of w id' ∧ rx_of w' id' = rx_of w id'.
Proof.
  unfold drop_receiver. repeat case_match; split_and!; try done. intros id' Hne.
  rewrite contents_with_chan, rx_with_chan. by rewrite !decide_False.
Qed.

Lemma s_inv_drop w subs rd log id s :
  s_inv (mkSSystem w subs rd log) → subs !! id = Some s →
  s_inv (mkSSystem (single_drop (ss_sub s) w) (delete id subs) rd log).
Proof.
  intros (Hslot & Hlog & Hwin & Hrd & Hsubs) Hs.
  pose proof (si_id _ _ _ _ _ (Hsubs _ _ Hs)) as Hid. unfold single_drop.
  destruct (drop_receiver_fields (ss_sub s) w) as (Hst & Hsh & Hother).
  set (w1 := drop_receiver (ss_sub s) w) in *. rewrite Hid in *.
  destruct (clear_current_fields w1 id) as (Hc & Hst' & Hsh'). rewrite Hst in *.
  rewrite Hsh in Hsh'. specialize (Hsh' (proj1 Hslot)).
  edestruct (set_active_global w (clear_active_if_current w1 id) rd log)
    as (? & ? & ? & ?); [exact Hst'| |done..|].
  { intros id'. by case_decide. }
  split_and!; try done. apply map_Forall_delete_others. intros id' s' Hne Hs'.
  destruct (Hother id' Hne) as [Hc1 Hr1]. destruct (Hc id') as [Hc2 Hr2].
  eapply s_sub_frame, Hsubs, Hs'; try (congruence || by rewrite Hst').
  - intros Hab Hl. rewrite Hst'. simpl.
    rewrite (si_active _ _ _ _ _ (Hsubs _ _ Hs') Hab Hl). rewrite decide_False; [done|congruence].
  - rewrite Hst'. simpl. by case_decide.
Qed.

Lemma retained_small sealed log : small_log log → small_chunks (retained sealed log).
Proof.
  intros [Hl Hb]. unfold retained.
  assert (small_chunks (log_chunks log)) as [Hl' Hb'].
  { pose proof (total_log_chunks log). pose proof (length_log_chunks log).
    unfold small_chunks, chunk in *. lia. }
  destruct retention as [r|]; [|done]. destruct sealed; [done|].
  pose proof (retain_suffix len r (log_chunks log)) as Hsuf.
  pose proof (total_bytes_suffix len _ _ Hsuf) as Hb2. apply suffix_length in Hsuf.
  unfold small_chunks, retain_history, len, chunk in *. lia.
Qed.

(** Sealing does not panic, and empties the window. *)
Lemma seal_replay_done w subs rd log :
  s_inv (mkSSystem w subs rd log) →
  ∃ st, ReplayState.seal_replay (sh_state w) retention = Done st ∧
    rs_next_id st = rs_next_id (sh_state w) ∧ rs_sealed st = true ∧ rs_events st = [].
Proof.
  intros (_ & Hlog & Hwin & _ & _). unfold s_window_inv in Hwin. unfold ReplayState.seal_replay.
  rewrite Hwin. simpl.
  set (s0 := mkReplayState [] 0 0 true (rs_terminal_event (sh_state w)) (active_id (sh_state w))
    (rs_next_id (sh_state w))).
  change (mkReplayState _ _ _ true _ _ _) with (counted_events s0 (retained (rs_sealed (sh_state w)) log)).
  rewrite trim_sealed; [by eexists|done|]. apply retained_small, Hlog.
Qed.

Lemma s_inv_seal w subs rd log st :
  s_inv (mkSSystem w subs rd log) → ReplayState.seal_replay (sh_state w) retention = Done st →
  s_inv (mkSSystem (with_state w st) subs rd log).
Proof.
  intros (Hslot & Hlog & Hwin & Hrd & Hsubs) Hseal. unfold s_window_inv in Hwin.
  assert (small_chunks (retained (rs_sealed (sh_state w)) log)) as Hsmall.
  { apply retained_small, Hlog. }
  unfold ReplayState.seal_replay in Hseal. rewrite Hwin in Hseal. simpl in Hseal.
  set (s0 := mkReplayState [] 0 0 true (rs_terminal_event (sh_state w)) (active_id (sh_state w))
    (rs_next_id (sh_state w))).
  change (mkReplayState _ _ _ true _ _ _) with (counted_events s0 (retained (rs_sealed (sh_state w)) log)) in Hseal.
  rewrite trim_sealed in Hseal by done. injection Hseal as <-.
  split_and!; try done; try apply Hslot; try apply Hlog.
  - unfold s_window_inv, retained. simpl. by destruct retention.
  - destruct rd; try done. destruct Hrd as (? & ? & Hrec & ?). split_and!; try done.
    intros Hr. split; [by apply Hrec|by right].
  - intros id s Hs. eapply s_sub_frame, Hsubs, Hs; try done.
    intros. by apply (si_active _ _ _ _ _ (Hsubs _ _ Hs)).
Qed.

Lemma s_inv_release w subs rd log id m :
  s_inv (mkSSystem w subs rd log) → sh_chans w !! id = Some m →
  s_inv (mkSSystem (with_chan w id (mpsc_drop_tx m)) subs rd log).
Proof.
  intros (Hslot & Hlog & Hwin & Hrd & Hsubs) Hm. split_and!; try done; try apply Hslot; try apply Hlog.
  pose proof (mpsc_drop_tx_view m) as Hv. unfold mpsc_view in Hv. injection Hv as Hc _ _ Hr.
  intros id' s Hs. eapply s_sub_frame, Hsubs, Hs; try done.
  - rewrite contents_with_chan. case_decide as Hd; [subst id'|done]. unfold contents_of. by rewrite Hm, Hc.
  - rewrite rx_with_chan. case_decide as Hd; [subst id'|done]. unfold rx_of. by rewrite Hm, Hr.
  - intros. by apply (si_active _ _ _ _ _ (Hsubs _ _ Hs)).
Qed.

Lemma s_inv_abort w subs rd log :
  s_inv (mkSSystem w subs rd log) → s_inv (mkSSystem (clear_active w) subs SAborted log).
Proof.
  intros (Hslot & Hlog & Hwin & Hrd & Hsubs).
  edestruct (set_active_global w (clear_active w) SAborted log None) as (? & ? & ? & ?); try done.
  split_and!; try done. intros id s Hs.
  destruct (Hsubs _ _ Hs) as [Hid Hold Hrx Ha Hst Hdel Hfr Hend Hsnap].
  split; try done.
  - destruct Hdel as (from & Hfrom & Hd). exists from. split; [done|].
    assert (s_observed w rd s `prefix_of` ss_snapshot s ++ drop from log) as Hp.
    { destruct rd; simpl in Hd; try done; by rewrite Hd. }
    simpl. etrans; [|exact Hp]. unfold s_observed. simpl. rewrite app_nil_r, app_assoc.
    by apply prefix_app_r.
  - unfold s_ended in *. intros Hx. by destruct (Hend Hx) as (? & ? & ?).
Qed.

(** *** Subscribing *)

Lemma filter_terminal_log w log :
  s_log_inv w log →
  filter (λ e, is_terminal e = true) log = option_list (rs_terminal_event (sh_state w)).
Proof.
  intros (_ & (cs & Hcs) & Ht). rewrite Hcs, filter_app, filter_terminal_chunks. simpl.
  destruct (rs_terminal_event (sh_state w)) as [t|]; [|done]. simpl.
  by rewrite filter_cons_True by auto.
Qed.

Lemma window_snapshot w log :
  s_window_inv w log →
  (if rs_sealed (sh_state w) || bool_decide (retention = None) then []
   else ReplayState.snapshot_events (sh_state w)) = Chunk <$> retained (rs_sealed (sh_state w)) log.
Proof.
  unfold s_window_inv, ReplayState.snapshot_events. intros Hwin. rewrite Hwin at 2. simpl.
  unfold retained. destruct (rs_sealed (sh_state w)); simpl; [by destruct retention|].
  by destruct retention.
Qed.

Lemma s_inv_subscribe w subs rd log x w' :
  s_inv (mkSSystem w subs rd log) → rd ≠ SAborted → rs_next_id (sh_state w) + 1 < word_modulus →
  single_subscribe name retention buffered w = Done (Ok (x, w')) →
  s_inv (mkSSystem w' (<[sss_id x := mkSSub x (initial_events x) (length log)
                                      (rs_sealed (sh_state w)) []]> subs) rd log).
Proof.
  intros (Hslot & Hlog & Hwin & Hrd & Hsubs) Hab Hnext. unfold single_subscribe.
  destruct (mpsc_channel buffered) as [chan|] eqn:Hchan; [|done]. cbn [mbind outcome_bind].
  case_bool_decide as Hact; [done|]. rewrite (window_snapshot _ _ Hwin).
  assert (active_id (sh_state w) = None) as Hnone.
  { destruct (active_id (sh_state w)); [|done]. by destruct Hact. }
  set (n := rs_next_id (sh_state w)) in *. unfold ReplayState.attach_subscriber. fold n. simpl.
  rewrite wrapping_add_small by done. intros [= <- <-]. simpl.
  assert (s_pending rd n = []) as Hpend.
  { destruct rd; try done. simpl. destruct Hrd as (_ & _ & _ & Hlt). rewrite decide_False; [done|].
    intros ->. specialize (Hlt _ eq_refl). subst n. lia. }
  set (w' := mkConfigured _ _ _ _ _).
  assert (contents_of w' n = [] ∧ rx_of w' n = true) as [Hcn Hrn].
  { unfold contents_of, rx_of. simpl. rewrite lookup_insert_eq.
    apply mpsc_channel_done in Hchan as [_ Hv]. unfold mpsc_view in Hv. by injection Hv. }
  split; [|split; [|split; [|split]]].
  - split; [done|]. simpl. intros id [= <-]. lia.
  - done.
  - unfold s_window_inv in *. simpl. rewrite Hwin. done.
  - destruct rd; try done. destruct Hrd as (? & ? & ? & Hlt). split_and!; try done.
    intros id Hid. simpl. specialize (Hlt _ Hid). fold n in Hlt. lia.
  - apply map_Forall_insert_others.
    + split; simpl; try done; [lia|..].
      * exists (length log). split; [by left|]. unfold s_observed, queue. simpl. rewrite Hcn, Hpend, !app_nil_r.
        rewrite drop_all, app_nil_r. destruct rd; done.
      * unfold s_fresh, queue. destruct rd as [|e recorded retried cached| |]; try done. simpl.
        intros _ _. rewrite Hcn, app_nil_r. split_and!; [done|done|].
        destruct Hrd as (_ & Hterm & Hrec & _). intros Hr. destruct (Hrec Hr) as [Hte Hor].
        unfold initial_events. simpl. rewrite (Hterm Hte). simpl. rewrite app_nil_r.
        unfold retained. by destruct Hor as [-> | ->]; [|destruct retention].
      * unfold s_ended. simpl. rewrite Hcn, Hpend. intros [?|?]; done.
      * unfold s_snapshot_inv, initial_events. simpl. rewrite take_ge by done.
        by rewrite (filter_terminal_log w).
    + intros id s Hne Hs. pose proof (Hsubs _ _ Hs) as Hinv.
      eapply s_sub_frame, Hinv; simpl; try done.
      * unfold contents_of. simpl. by rewrite lookup_insert_ne.
      * unfold rx_of. simpl. by rewrite lookup_insert_ne.
      * lia.
      * intros _ Hl. pose proof (si_active _ _ _ _ _ Hinv Hab Hl). congruence.
      * congruence.
Qed.

(** *** Recording *)

Hypothesis retention_valid : ∀ r, retention = Some r → retention_assert_non_zero r = Done ().

Lemma retained_push sealed log c :
  retained sealed (log ++ [Chunk c]) =
  match retention with
  | Some r => if sealed then [] else retain_history r (retained sealed log ++ [c])
  | None => []
  end.
Proof.
  unfold retained. destruct retention as [r|]; [|done]. destruct sealed; [done|].
  rewrite log_chunks_app. unfold retain_history. symmetry. apply retain_push.
Qed.

Lemma retained_terminal sealed log e :
  is_terminal e = true → retained sealed (log ++ [e]) = retained sealed log.
Proof. intros He. unfold retained. rewrite log_chunks_app. destruct e; try done; by rewrite app_nil_r. Qed.

Lemma retained_suffix sealed log : retained sealed log `suffix_of` log_chunks log.
Proof.
  unfold retained. destruct retention as [r|]; [|apply suffix_nil].
  destruct sealed; [apply suffix_nil|apply retain_suffix].
Qed.

Lemma retained_small_push sealed log e :
  small_log (log ++ [e]) → small_chunks (retained sealed log ++ log_chunks [e]).
Proof.
  intros [Hl Hb]. pose proof (retained_suffix sealed log) as Hsuf.
  pose proof (total_bytes_suffix len _ _ Hsuf) as Hb'. apply suffix_length in Hsuf.
  pose proof (total_log_chunks (log ++ [e])) as H1. pose proof (length_log_chunks (log ++ [e])) as H2.
  rewrite log_chunks_app in H1, H2. rewrite total_bytes_app in H1. rewrite len_app in H2.
  split; [rewrite len_app|rewrite total_bytes_app]; unfold len, chunk in *; lia.
Qed.

(** The reader records without panicking; the subscriber it will send to is the
    one attached at that moment. *)
Lemma record_event_spec w log e :
  e ≠ Gap → small_log (log ++ [e]) → s_window_inv w log →
  ∃ recorded w', record_event e w retention = Done (recorded, sh_active w, w') ∧
    sh_chans w' = sh_chans w ∧ sh_active w' = sh_active w ∧
    active_id (sh_state w') = active_id (sh_state w) ∧
    rs_next_id (sh_state w') = rs_next_id (sh_state w) ∧
    rs_sealed (sh_state w') = rs_sealed (sh_state w) ∧
    rs_terminal_event (sh_state w') =
      (if is_terminal e then Some e else rs_terminal_event (sh_state w)) ∧
    s_window_inv w' (log ++ [e]) ∧
    (recorded = false → is_terminal e = false ∧ (retention = None ∨ rs_sealed (sh_state w) = true)).
Proof.
  intros Hgap Hsmall Hwin. unfold s_window_inv in Hwin.
  pose proof (push_replay_event_spec (sh_state w) _ e retention
    (retained_small_push (rs_sealed (sh_state w)) log e Hsmall) retention_valid) as Hpush.
  rewrite <- Hwin in Hpush. unfold record_event. rewrite Hpush. unfold s_window_inv.
  pose proof (retained_push (rs_sealed (sh_state w)) log) as Hpush'.
  destruct e as [c| | |err]; try done; simpl.
  - specialize (Hpush' c). unfold retained in *. destruct retention as [r|]; [destruct (rs_sealed (sh_state w)) eqn:Hs|];
      eexists _, _; (split; [reflexivity|]); simpl; rewrite ?Hs, ?Hpush';
      split_and!; try done; auto; by rewrite <- Hwin.
  - eexists _, _. split_and!; try done. simpl. by rewrite retained_terminal.
  - eexists _, _. split_and!; try done. simpl. by rewrite retained_terminal.
Qed.

Lemma log_inv_snoc w w' log e :
  e ≠ Gap → small_log (log ++ [e]) → rs_terminal_event (sh_state w) = None →
  rs_terminal_event (sh_state w') =
    (if is_terminal e then Some e else rs_terminal_event (sh_state w)) →
  s_log_inv w log → s_log_inv w' (log ++ [e]).
Proof.
  intros Hgap Hsmall Hnone Hterm (_ & (cs & Hcs) & _). rewrite Hnone in *.
  simpl in Hcs. rewrite app_nil_r in Hcs. subst log. unfold s_log_inv. rewrite Hterm.
  split_and!; [done| |].
  - destruct e as [c| | |err]; simpl; [|done|by exists cs..].
    exists (cs ++ [c]). by rewrite fmap_app, app_nil_r.
  - intros t. destruct (is_terminal e) eqn:He; [|done]. by intros [= <-].
Qed.

Lemma s_inv_record w subs log e recorded cached w' :
  s_inv (mkSSystem w subs SIdle log) → e ≠ Gap → small_log (log ++ [e]) →
  record_event e w retention = Done (recorded, cached, w') →
  s_inv (mkSSystem w' subs (SDelivering e recorded false cached) (log ++ [e])).
Proof.
  intros (Hslot & Hlog & Hwin & Hrd & Hsubs) Hgap Hsmall Hrec. simpl in Hrd.
  destruct (record_event_spec w log e Hgap Hsmall Hwin)
    as (r & w0 & Hrec' & Hch & Hsh & Hact & Hnext & Hsealed & Hterm & Hwin' & Hr).
  rewrite Hrec in Hrec'. injection Hrec' as -> -> <-.
  split; [|split; [|split; [|split]]]; [| |done|..].
  - unfold s_slot_inv. by rewrite Hact, Hsh, Hnext.
  - by eapply log_inv_snoc.
  - split_and!; [by exists log| |rewrite Hsealed; done|].
    + intros He. by rewrite Hterm, He.
    + intros id Hid. rewrite Hnext. apply Hslot. by rewrite (proj1 Hslot).
  - intros id s Hs. destruct (Hsubs _ _ Hs) as [<- Hold Hrx Ha Hst Hdel Hfr Hend Hsnap].
    assert (sss_live (ss_sub s) = true) as Hl.
    { destruct (sss_live (ss_sub s)) eqn:Hl; [done|]. destruct (Hend (or_intror Hl)) as ([? ?] & _). congruence. }
    assert (sh_active w = Some (sss_id (ss_sub s))) as Hactive.
    { rewrite <- (proj1 Hslot). by apply Ha. }
    assert (queue w' s = queue w s) as Hq by (unfold queue, contents_of; by rewrite Hch).
    split; try done.
    + by rewrite Hnext.
    + unfold rx_of in *. by rewrite Hch.
    + rewrite Hact. auto.
    + rewrite length_app. lia.
    + destruct Hdel as (from & Hfrom & Hd). exists from. split; [done|]. simpl in Hd |- *.
      unfold s_observed in *. rewrite Hq. simpl in *. rewrite decide_True by done.
      rewrite app_nil_r in Hd. rewrite app_assoc, Hd, drop_app_le, app_assoc; [done|].
      destruct Hfrom as [?|[? _]]; lia.
    + intros Hor. assert (is_Some (rs_terminal_event (sh_state w))) as [? ?]; [|congruence].
      apply Hend. by destruct Hor; [left|right].
    + unfold s_snapshot_inv in *. by rewrite take_app_le.
Qed.

(** *** Delivering *)

Lemma s_sub_no_pending w e recorded retried cached log id s :
  s_sub_inv w (SDelivering e recorded retried cached) log id s → cached ≠ Some id →
  ∀ rd', rd' = SIdle ∨ rd' = SStopped → s_sub_inv w rd' log id s.
Proof.
  intros [<- Hold Hrx Ha Hst Hdel Hfr Hend Hsnap] Hne rd' Hrd.
  split; try done.
  - intros _. by apply Ha.
  - destruct Hdel as (from & Hfrom & Hd). exists from. split; [done|]. simpl in Hd.
    unfold s_observed in *. simpl in *. rewrite decide_False in Hd by done.
    by destruct Hrd as [-> | ->].
  - by destruct Hrd as [-> | ->].
  - intros Hor. destruct (Hend Hor) as (? & ? & _). split_and!; try done. by destruct Hrd as [-> | ->].
Qed.

Lemma after_delivery_cases e : after_delivery e = SIdle ∨ after_delivery e = SStopped.
Proof. unfold after_delivery. destruct (is_terminal e); auto. Qed.

Lemma after_delivery_reader w e recorded retried cached log w' :
  s_reader_inv w (SDelivering e recorded retried cached) log →
  rs_terminal_event (sh_state w') = rs_terminal_event (sh_state w) →
  s_reader_inv w' (after_delivery e) log.
Proof.
  intros (_ & Hterm & _) Heq. unfold after_delivery. destruct (is_terminal e) eqn:He; [done|].
  simpl. rewrite Heq. auto.
Qed.

Lemma chan_try_send_cases w id e w' r :
  chan_try_send w id e = (w', r) →
  match r with
  | Sent => sh_state w' = sh_state w ∧ sh_active w' = sh_active w ∧ rx_of w id = true ∧
      rx_of w' id = true ∧ contents_of w' id = contents_of w id ++ [e] ∧
      ∀ id', id' ≠ id → contents_of w' id' = contents_of w id' ∧ rx_of w' id' = rx_of w id'
  | Closed => rx_of w id = false ∧ sh_chans w' = sh_chans w ∧ sh_state w' = sh_state w ∧ sh_active w' = sh_active w
  | Full => True
  end.
Proof.
  unfold chan_try_send. destruct (sh_chans w !! id) as [m|] eqn:Hm.
  2: { intros [= <- <-]. unfold rx_of. rewrite Hm. done. }
  pose proof (mpsc_try_send_spec m e) as Hs. destruct (mpsc_try_send m e) as [m' r0] eqn:Ht.
  intros [= <- <-].
  destruct (mpsc_rx_open m) eqn:Hrx.
  - destruct (mpsc_capacity m <=? _); [by injection Hs as _ ->|]. simpl in Hs. destruct Hs as [-> Hv].
    unfold mpsc_view in Hv. injection Hv as Hc _ _ Hr.
    split_and!; try done.
    + unfold rx_of. by rewrite Hm.
    + by rewrite rx_with_chan, decide_True.
    + rewrite contents_with_chan, decide_True by done. unfold contents_of. by rewrite Hm.
    + intros id' Hne. rewrite contents_with_chan, rx_with_chan. by rewrite !decide_False.
  - injection Hs as -> ->. unfold rx_of. rewrite Hm. split_and!; try done. simpl. by apply insert_id.
Qed.

(** The event arrives in the channel of the subscriber it was pending for. *)
Lemma s_sub_sent w w' e recorded retried log id s :
  chan_try_send w id e = (w', Sent) →
  s_sub_inv w (SDelivering e recorded retried (Some id)) log id s →
  s_sub_inv w' (after_delivery e) log id s.
Proof.
  intros Hsend [<- Hold Hrx Ha Hst Hdel Hfr Hend Hsnap].
  destruct (chan_try_send_cases _ _ _ _ _ Hsend) as (Hstate & _ & Hopen & Hopen' & Hc & _).
  assert (sss_live (ss_sub s) = true) as Hl by congruence.
  split; try done.
  - by rewrite Hstate.
  - by rewrite Hopen'.
  - rewrite Hstate. intros _. by apply Ha.
  - destruct Hdel as (from & Hfrom & Hd). exists from. split; [done|]. simpl in Hd.
    unfold s_observed, queue in *. simpl in Hd. rewrite decide_True in Hd by done.
    rewrite Hl in *. rewrite Hc. rewrite <- !app_assoc in *.
    by destruct (after_delivery_cases e) as [-> | ->].
  - by destruct (after_delivery_cases e) as [-> | ->].
  - intros Hor. destruct (Hend Hor) as (_ & _ & Hp). simpl in Hp. by rewrite decide_True in Hp.
Qed.

(** A subscriber whose channel is closed has no event pending. *)
Lemma s_sub_closed w e recorded retried log id s :
  rx_of w id = false → ¬ s_sub_inv w (SDelivering e recorded retried (Some id)) log id s.
Proof.
  intros Hrx Hs. pose proof (si_rx _ _ _ _ _ Hs) as Hl. rewrite Hrx in Hl. symmetry in Hl.
  destruct (si_ended _ _ _ _ _ Hs (or_intror Hl)) as (_ & _ & Hp). simpl in Hp.
  by rewrite (si_id _ _ _ _ _ Hs), decide_True in Hp.
Qed.

Lemma s_inv_returns w subs log e recorded retried cached cached' w' :
  s_inv (mkSSystem w subs (SDelivering e recorded retried cached) log) →
  deliver_turn e recorded retried cached w = TurnReturns cached' w' →
  s_inv (mkSSystem w' subs (after_delivery e) log).
Proof.
  intros (Hslot & Hlog & Hwin & Hrd & Hsubs). unfold deliver_turn.
  destruct cached as [id|].
  2: { intros [= _ <-]. split_and!; try done; try apply Hslot; try apply Hlog.
       - by eapply after_delivery_reader.
       - intros id s Hs. eapply s_sub_no_pending; [by apply Hsubs|done|apply after_delivery_cases]. }
  destruct (chan_try_send w id e) as [w1 r] eqn:Hsend.
  pose proof (chan_try_send_cases _ _ _ _ _ Hsend) as Hcases. destruct r; [|done|].
  - intros [= <- <-]. destruct Hcases as (Hstate & Hsh & Hopen & Hopen' & Hc & Hother).
    split; [|split; [|split; [|split]]].
    + unfold s_slot_inv. by rewrite Hstate, Hsh.
    + unfold s_log_inv. by rewrite Hstate.
    + unfold s_window_inv. by rewrite Hstate.
    + eapply after_delivery_reader; [done|]. by rewrite Hstate.
    + intros id' s Hs. destruct (decide (id' = id)) as [->|Hne].
      { eapply s_sub_sent; [done|]. by apply Hsubs. }
      destruct (Hother id' Hne) as [? ?].
      assert (s_sub_inv w (after_delivery e) log id' s) as Hinv.
      { eapply s_sub_no_pending; [by apply Hsubs|congruence|apply after_delivery_cases]. }
      eapply s_sub_frame, Hinv; rewrite ?Hstate; try done. by apply (si_active _ _ _ _ _ Hinv).
  - destruct Hcases as (Hclosed & Hch & Hst1 & Hsh1).
    destruct (clear_current_fields w1 id) as (Hc & Hst' & Hsh'). rewrite Hst1, Hsh1 in *.
    specialize (Hsh' (proj1 Hslot)). destruct (recorded || retried); [|done]. intros [= _ <-].
    edestruct (set_active_global w (clear_active_if_current w1 id) (after_delivery e) log)
      as (? & ? & ? & ?); [exact Hst'| |done..| |].
    { intros id'. by case_decide. }
    { by eapply after_delivery_reader. }
    split_and!; try done. intros id' s Hs. destruct (decide (id' = id)) as [->|Hne].
    { by destruct (s_sub_closed w e recorded retried log id s Hclosed (Hsubs _ _ Hs)). }
    assert (s_sub_inv w (after_delivery e) log id' s) as Hinv.
    { eapply s_sub_no_pending; [by apply Hsubs|congruence|apply after_delivery_cases]. }
    destruct (Hc id') as [Hc1 Hr1]. unfold contents_of, rx_of in Hc1, Hr1. rewrite Hch in Hc1, Hr1.
    eapply s_sub_frame, Hinv; try done; rewrite ?Hst'; try done; simpl.
    + intros Hab Hl. rewrite (si_active _ _ _ _ _ Hinv Hab Hl). rewrite decide_False; [done|congruence].
    + by case_decide.
Qed.

(** The event was recorded for nobody, and its receiver is gone: the reader
    turns to the subscription that came in the meantime. *)
Lemma s_sub_retry w w' e retried retried' cached log id s log0 :
  log = log0 ++ [e] → is_terminal e = false → rs_terminal_event (sh_state w) = None →
  contents_of w' id = contents_of w id → rx_of w' id = rx_of w id →
  sh_state w' = sh_state w → active_id (sh_state w) = Some id → cached ≠ Some id →
  s_sub_inv w (SDelivering e false retried cached) log id s →
  s_sub_inv w' (SDelivering e false retried' (Some id)) log id s.
Proof.
  intros -> He Hnone Hc Hrx' Hstate Hact Hne [<- Hold Hrx Ha Hst Hdel Hfr Hend Hsnap].
  destruct (Hfr Hact Hne) as (Hstart & Hseen & Hsnil). specialize (Hsnil eq_refl).
  split; rewrite ?Hstate; try done; [congruence| |].
  - exists (length log0). split; [right; rewrite Hstart, length_app; simpl; split; [lia|done]|].
    simpl. unfold s_observed. simpl. rewrite decide_True by done.
    assert (queue w' s = queue w s) as -> by (unfold queue; by rewrite Hc).
    rewrite app_assoc, Hseen. f_equal. by rewrite drop_app_length.
  - intros Hor. destruct (Hend Hor) as ([? ?] & _). congruence.
Qed.

Lemma s_sub_other w e recorded retried retried' cached cached' log id s :
  s_sub_inv w (SDelivering e recorded retried cached) log id s →
  cached ≠ Some id → cached' ≠ Some id → cached' = active_id (sh_state w) →
  s_sub_inv w (SDelivering e recorded retried' cached') log id s.
Proof.
  intros [<- Hold Hrx Ha Hst Hdel Hfr Hend Hsnap] Hne Hne' Hact. split; try done.
  - intros _. by apply Ha.
  - destruct Hdel as (from & Hfrom & Hd). exists from. split; [done|]. simpl in *.
    unfold s_observed in *. simpl in *. rewrite decide_False in Hd by done. by rewrite decide_False by done.
  - unfold s_fresh. intros Ha1 _. congruence.
  - intros Hor. destruct (Hend Hor) as (? & ? & _). split_and!; try done. simpl. by rewrite decide_False.
Qed.

Lemma s_inv_retries w subs log e recorded retried cached cached' w' :
  s_inv (mkSSystem w subs (SDelivering e recorded retried cached) log) →
  deliver_turn e recorded retried cached w = TurnRetries cached' w' →
  s_inv (mkSSystem w' subs (SDelivering e recorded true cached') log).
Proof.
  intros (Hslot & Hlog & Hwin & Hrd & Hsubs). unfold deliver_turn.
  destruct cached as [id|]; [|done].
  destruct (chan_try_send w id e) as [w1 r] eqn:Hsend.
  pose proof (chan_try_send_cases _ _ _ _ _ Hsend) as Hcases. destruct r; [done..|].
  destruct Hcases as (Hclosed & Hch & Hst1 & Hsh1).
  destruct (clear_current_fields w1 id) as (Hc & Hst' & Hsh'). rewrite Hst1, Hsh1 in *.
  specialize (Hsh' (proj1 Hslot)). destruct recorded; [done|]. destruct retried; [done|]. intros [= <- <-].
  set (w' := clear_active_if_current w1 id) in *.
  destruct Hrd as ((log0 & Hlog0) & Hterm & Hrec & Hlt). destruct (Hrec eq_refl) as [He Hret].
  specialize (Hterm He).
  edestruct (set_active_global w w' SStopped log) as (Hslot' & ? & ? & ?); [exact Hst'| |done..|].
  { intros id'. by case_decide. }
  split_and!; try done.
  { split_and!; [by exists log0|by rewrite Hst'|by rewrite Hst'|].
    intros id' Hid'. apply Hslot'. by rewrite <- Hsh'. }
  intros id' s Hs. pose proof (Hsubs _ _ Hs) as Hinv. destruct (decide (id' = id)) as [->|Hne].
  { by destruct (s_sub_closed w e false false log id s Hclosed Hinv). }
  destruct (Hc id') as [Hc1 Hr1]. unfold contents_of, rx_of in Hc1, Hr1. rewrite Hch in Hc1, Hr1.
  destruct (decide (sh_active w' = Some id')) as [Hnew|Hold].
  - rewrite Hnew. rewrite Hsh', Hst' in Hnew. simpl in Hnew. case_decide as Hd; [done|].
    eapply s_sub_retry; try done; [|congruence]. rewrite Hst'. by destruct (sh_state w).
  - eapply s_sub_other; [| |exact Hold|by rewrite Hsh'].
    + eapply s_sub_frame, Hinv; try done; rewrite ?Hst'; try done; simpl.
      * intros Hab Hl. rewrite (si_active _ _ _ _ _ Hinv Hab Hl). rewrite decide_False; [done|congruence].
      * by case_decide.
    + congruence.
Qed.

Lemma s_inv_step y y' : s_step y y' → s_inv y → s_inv y'.
Proof.
  destruct 1; intros Hinv; eauto using s_inv_subscribe, s_inv_recv, s_inv_drop, s_inv_seal,
    s_inv_record, s_inv_returns, s_inv_retries, s_inv_abort, s_inv_release.
Qed.

Lemma s_reachable_inv y : s_reachable y → s_inv y.
Proof. induction 1; eauto using s_inv_initial, s_inv_step. Qed.

(** *** Runs *)

(** What a run leaves alone: ids are handed out in order, a seal stays, and a
    subscription keeps what it started with; the new ones have new ids, and
    find the seal that was there. *)
Record s_later (y y' : SSystem) : Prop := {
  later_ids : rs_next_id (sh_state (sy_shared y)) ≤ rs_next_id (sh_state (sy_shared y'));
  later_sealed : rs_sealed (sh_state (sy_shared y)) = true → rs_sealed (sh_state (sy_shared y')) = true;
  later_subs id s' :
    sy_subs y' !! id = Some s' →
    (∃ s, sy_subs y !! id = Some s ∧
       ss_snapshot s' = ss_snapshot s ∧ ss_start s' = ss_start s ∧ ss_sealed s' = ss_sealed s) ∨
    (rs_next_id (sh_state (sy_shared y)) ≤ id ∧
     (rs_sealed (sh_state (sy_shared y)) = true → ss_sealed s' = true));
}.

#[local] Instance s_later_preorder : PreOrder s_later.
Proof.
  split.
  - intros y. split; [done|done|]. intros id s Hs. left. by exists s.
  - intros y1 y2 y3 [Hi1 Hs1 Hh1] [Hi2 Hs2 Hh2]. split; [lia|auto|]. intros id s' Hs'.
    destruct (Hh2 id s' Hs') as [(s & Hs & -> & -> & ->)|[Hid Hse]]; [by apply Hh1|]. right. split; [lia|auto].
Qed.

(** A step that keeps the subscriptions and the ids. *)
Lemma s_later_same w w' subs rd rd' log log' :
  rs_next_id (sh_state w') = rs_next_id (sh_state w) → rs_sealed (sh_state w') = rs_sealed (sh_state w) →
  s_later (mkSSystem w subs rd log) (mkSSystem w' subs rd' log').
Proof. intros Hid Hse. split; cbn; [lia|congruence|]. intros id s Hs. left. by exists s. Qed.

Lemma deliver_turn_state e recorded retried cached w cached' w' :
  deliver_turn e recorded retried cached w = TurnReturns cached' w' ∨
  deliver_turn e recorded retried cached w = TurnRetries cached' w' →
  rs_next_id (sh_state w') = rs_next_id (sh_state w) ∧ rs_sealed (sh_state w') = rs_sealed (sh_state w).
Proof.
  unfold deliver_turn. destruct cached as [id|]; [|by intros [[= _ <-]|?]].
  unfold chan_try_send. destruct (sh_chans w !! id) as [m|]; [destruct (mpsc_try_send m e) as [m' []]|];
    unfold clear_active_if_current; try case_bool_decide; destruct (recorded || retried);
    by intros [[= _ <-]|[= _ <-]].
Qed.

Lemma s_step_later y y' : s_step y y' → s_inv y → s_later y y'.
Proof.
  destruct 1 as [w subs rd log x w' _ Hn Hsub|w subs rd log id s r x w' Hs Hev|w subs rd log id s Hs
    |w subs rd log st Hseal|w subs log e recorded cached w' He Hsm Hrec|w subs log e rec ret c c' w' Ht
    |w subs log e rec ret c c' w' Ht|w subs rd log|w subs rd log id m Hh Hm]; intros Hinv.
  - unfold single_subscribe in Hsub. destruct (mpsc_channel buffered); [|done]. cbn [mbind outcome_bind] in Hsub.
    case_bool_decide; [done|]. cbn in Hsub. injection Hsub as <- <-.
    rewrite wrapping_add_small by done. split; cbn; [lia|done|]. intros id s'.
    rewrite lookup_insert_Some. intros [[<- <-]|[_ Hs']]; [by right|left; by exists s'].
  - destruct Hinv as (_ & _ & _ & _ & Hsubs). pose proof (Hsubs _ _ Hs) as Hi.
    destruct (next_event_queue _ _ _ _ _ Hev) as (_ & _ & Hst & _).
    { intros Hl. by rewrite (si_id _ _ _ _ _ Hi), (si_rx _ _ _ _ _ Hi). }
    { intros Ht. apply (si_ended _ _ _ _ _ Hi). by left. }
    split; cbn; rewrite ?Hst; [lia|done|]. intros id' s'.
    rewrite lookup_insert_Some. intros [[<- <-]|[_ Hs']]; left; [by exists s|by exists s'].
  - unfold single_drop. destruct (drop_receiver_fields (ss_sub s) w) as (Hst & _ & _).
    destruct (clear_current_fields (drop_receiver (ss_sub s) w) (sss_id (ss_sub s))) as (_ & Hst' & _).
    split; cbn [sy_shared sy_subs]; rewrite ?Hst', ?Hst; cbn; [lia|done|]. intros id' s'. rewrite lookup_delete_Some.
    intros [_ Hs']. left. by exists s'.
  - destruct (seal_replay_done w subs rd log Hinv) as (st' & Hseal' & Hid & Hse & _).
    rewrite Hseal in Hseal'. injection Hseal' as <-. split; cbn; [lia|done|]. intros id' s' Hs'. left. by exists s'.
  - destruct Hinv as (_ & _ & Hwin & _ & _).
    destruct (record_event_spec w log e He Hsm Hwin) as (r & w0 & Hrec' & _ & _ & _ & Hid & Hse & _).
    rewrite Hrec in Hrec'. injection Hrec' as -> -> <-. by apply s_later_same.
  - destruct (deliver_turn_state _ _ _ _ _ _ _ (or_introl Ht)). by apply s_later_same.
  - destruct (deliver_turn_state _ _ _ _ _ _ _ (or_intror Ht)). by apply s_later_same.
  - by apply s_later_same.
  - by apply s_later_same.
Qed.

Lemma s_run_later y y' : rtc s_step y y' → s_inv y → s_later y y' ∧ s_inv y'.
Proof.
  induction 1 as [y|y y1 y' Hst _ IH]; intros Hinv; [by split|].
  destruct (IH (s_inv_step _ _ Hst Hinv)) as [Hl Hi]. split; [|done]. etrans; [by apply s_step_later|done].
Qed.

End system.

(** ** Claims *)

(** What a reachable state says about one subscription. *)
Lemma s_reachable_sub {M} `{MpscLaws M StreamEvent} name retention buffered (y : SSystem (M := M)) id s :
  (∀ r, retention = Some r → retention_assert_non_zero r = Done ()) →
  s_reachable name retention buffered y → sy_subs y !! id = Some s →
  s_slot_inv (sy_shared y) ∧ s_log_inv (sy_shared y) (sy_log y) ∧
  s_sub_inv retention (sy_shared y) (sy_reader y) (sy_log y) id s.
Proof.
  intros Hret Hr Hs. pose proof (s_reachable_inv name retention buffered Hret y Hr) as Hinv.
  destruct y as [w subs rd log]. destruct Hinv as (? & ? & _ & _ & Hsubs). split_and!; try done.
  by apply Hsubs.
Qed.

(** A subscription that has read everything there is for it, while the reader
    is between two events or at its end. *)
Definition s_drained {M} `{Mpsc M StreamEvent} (y : SSystem (M := M)) (s : SSub) : Prop :=
  queue (sy_shared y) s = [] ∧ (sy_reader y = SIdle ∨ sy_reader y = SStopped).

Lemma s_drained_seen {M} `{MpscLaws M StreamEvent} retention (y : SSystem (M := M)) id s :
  s_sub_inv retention (sy_shared y) (sy_reader y) (sy_log y) id s → s_drained y s →
  ∃ from, (from = ss_start s ∨ (S from = ss_start s ∧ ss_snapshot s = [])) ∧
    ss_seen s = ss_snapshot s ++ drop from (sy_log y).
Proof.
  intros Hinv [Hq Hrd]. destruct (si_delivery _ _ _ _ _ _ Hinv) as (from & Hfrom & Hd).
  exists from. split; [done|]. unfold s_observed in Hd. rewrite Hq in Hd.
  destruct Hrd as [Hrd|Hrd]; rewrite Hrd in Hd; simpl in Hd; by rewrite app_nil_r in Hd.
Qed.

(** C6: with reliable delivery a subscription of the single-subscriber backend
    that has read everything has received its replay snapshot followed by a
    contiguous rest of the stream, with nothing lost, repeated or reordered,
    whatever other subscriptions came and went before.  The rest begins where
    it subscribed; when it has no snapshot it may begin one event earlier,
    with the event whose receiver had just gone away. *)
Theorem single_reliable_exact {M} `{MpscLaws M StreamEvent} name retention buffered
    (y : SSystem (M := M)) id s :
  (∀ r, retention = Some r → retention_assert_non_zero r = Done ()) →
  s_reachable name retention buffered y → sy_subs y !! id = Some s → s_drained y s →
  ∃ from, (from = ss_start s ∨ (S from = ss_start s ∧ ss_snapshot s = [])) ∧
    ss_seen s = ss_snapshot s ++ drop from (sy_log y).
Proof.
  intros Hret Hr Hs Hd. destruct (s_reachable_sub _ _ _ _ _ _ Hret Hr Hs) as (_ & _ & Hinv).
  by eapply s_drained_seen.
Qed.

Lemma log_all_chunks w log :
  (∃ cs, log = (Chunk <$> cs) ++ option_list w) → (∀ t, w = Some t → is_terminal t = true) →
  ∀ n, (Chunk <$> log_chunks (take n log)) ++ filter (λ e, is_terminal e = true) (take n log) = take n log.
Proof.
  intros (cs & ->) Ht n. rewrite take_app, <- fmap_take.
  rewrite log_chunks_app, fmap_app, filter_app, filter_terminal_chunks. simpl.
  rewrite log_chunks_chunks.
  destruct w as [t|]; simpl; [|by rewrite take_nil, !app_nil_r].
  destruct (n - _)%nat; simpl; [by rewrite !app_nil_r|]. rewrite take_nil.
  specialize (Ht _ eq_refl). rewrite filter_cons_True by done. by destruct t; rewrite ?app_nil_r.
Qed.

(** With reliable delivery and [replay_all], a subscription of the
    single-subscriber backend that has read everything has received the whole
    stream from its first event, no matter when it subscribed, as long as
    replay had not been sealed. *)
Lemma single_replay_all_complete {M} `{MpscLaws M StreamEvent} name buffered
    (y : SSystem (M := M)) id s :
  s_reachable name (Some All) buffered y → sy_subs y !! id = Some s → s_drained y s →
  ss_sealed s = false → ss_seen s = sy_log y.
Proof.
  intros Hr Hs Hd Hsealed.
  destruct (s_reachable_sub name (Some All) buffered y id s) as (_ & Hlog & Hinv); [by intros r [= <-]|done..|].
  destruct (s_drained_seen _ _ _ _ Hinv Hd) as (from & Hfrom & ->).
  destruct Hlog as (_ & Hcs & Ht). pose proof (si_snapshot _ _ _ _ _ _ Hinv) as Hsnap.
  unfold s_snapshot_inv, retained in Hsnap. rewrite Hsealed in Hsnap. simpl in Hsnap.
  rewrite (log_all_chunks _ _ Hcs Ht) in Hsnap. rewrite Hsnap.
  destruct Hfrom as [->|[Hfrom Hnil]]; [apply take_drop|].
  rewrite Hsnap in Hnil. pose proof (si_start _ _ _ _ _ _ Hinv) as Hst.
  apply (f_equal length) in Hnil. rewrite length_take in Hnil. simpl in Hnil. lia.
Qed.

(** C24: at any time at most one subscription of a single-subscriber stream has
    a live receiver, and while there is one every attempt to subscribe (with a
    buffer its channel can have) is rejected with [ActiveConsumer]. *)
Theorem single_exclusive {M} `{MpscLaws M StreamEvent} name retention buffered
    (y : SSystem (M := M)) id s :
  (∀ r, retention = Some r → retention_assert_non_zero r = Done ()) →
  0 < buffered ≤ MAX_PERMITS → s_reachable name retention buffered y → sy_reader y ≠ SAborted →
  sy_subs y !! id = Some s → sss_live (ss_sub s) = true →
  single_subscribe name retention buffered (sy_shared y) = Done (Err (ActiveConsumer name)) ∧
  ∀ id' s', sy_subs y !! id' = Some s' → sss_live (ss_sub s') = true → id' = id.
Proof.
  intros Hret Hbuf Hr Hab Hs Hl.
  destruct (s_reachable_sub _ _ _ _ _ _ Hret Hr Hs) as (_ & _ & Hinv).
  pose proof (si_active _ _ _ _ _ _ Hinv Hab Hl) as Hact. split.
  - unfold single_subscribe. destruct (mpsc_channel_total (M := M) buffered Hbuf) as [chan ->]. cbn.
    rewrite bool_decide_eq_true_2; [done|]. rewrite Hact. eauto.
  - intros id' s' Hs' Hl'. destruct (s_reachable_sub _ _ _ _ _ _ Hret Hr Hs') as (_ & _ & Hinv').
    pose proof (si_active _ _ _ _ _ _ Hinv' Hab Hl'). congruence.
Qed.

(** Dropping the live subscription releases the stream, so that the next
    [try_subscribe] succeeds; dropping a subscription that no longer holds the
    claim leaves the current holder's claim alone. *)
Lemma single_drop_releases {M} `{MpscLaws M StreamEvent} name retention buffered
    (y : SSystem (M := M)) id s :
  (∀ r, retention = Some r → retention_assert_non_zero r = Done ()) →
  0 < buffered ≤ MAX_PERMITS → s_reachable name retention buffered y → sy_subs y !! id = Some s →
  let w' := single_drop (ss_sub s) (sy_shared y) in
  if decide (active_id (sh_state (sy_shared y)) = Some id)
  then ∃ z, single_subscribe name retention buffered w' = Done (Ok z)
  else active_id (sh_state w') = active_id (sh_state (sy_shared y)).
Proof.
  intros Hret Hbuf Hr Hs w'. destruct (s_reachable_sub _ _ _ _ _ _ Hret Hr Hs) as (_ & _ & Hinv).
  subst w'. unfold single_drop. rewrite (si_id _ _ _ _ _ _ Hinv).
  destruct (drop_receiver_fields (ss_sub s) (sy_shared y)) as (Hst & _ & _).
  destruct (clear_current_fields (drop_receiver (ss_sub s) (sy_shared y)) id) as (_ & Hst' & _).
  rewrite Hst in Hst'. case_decide as Hd.
  - unfold single_subscribe. destruct (mpsc_channel_total (M := M) buffered Hbuf) as [chan ->]. cbn.
    rewrite Hst'. cbn. eauto.
  - by rewrite Hst'.
Qed.

(** C40: sealing a single-subscriber stream with reliable delivery is final.  From
    any reachable state it does not panic, and after any further run of the
    reader, the subscribers and the stream's drop the replay is still sealed and
    nothing is retained; a subscription that was there keeps the replay it
    started with, and one that came later was given none of the stream's chunks,
    only the terminal event if that had been recorded. *)
Theorem single_seal_final {M} `{MpscLaws M StreamEvent} name retention buffered w subs rd log :
  (∀ r, retention = Some r → retention_assert_non_zero r = Done ()) →
  s_reachable name retention buffered (mkSSystem (M := M) w subs rd log) →
  ∃ st, ReplayState.seal_replay (sh_state w) retention = Done st ∧
    ∀ y', rtc (s_step name retention buffered) (mkSSystem (with_state w st) subs rd log) y' →
      rs_sealed (sh_state (sy_shared y')) = true ∧ rs_events (sh_state (sy_shared y')) = [] ∧
      ∀ id s', sy_subs y' !! id = Some s' →
        match subs !! id with
        | Some s => ss_snapshot s' = ss_snapshot s
        | None => ss_snapshot s' = filter (λ e, is_terminal e = true) (take (ss_start s') (sy_log y'))
        end.
Proof.
  intros Hret Hr. pose proof (s_reachable_inv name retention buffered Hret _ Hr) as Hinv.
  destruct (seal_replay_done retention w subs rd log Hinv) as (st & Hseal & Hid & Hse & _).
  exists st. split; [done|]. intros y' Hrun. pose proof (s_inv_seal retention w subs rd log st Hinv Hseal) as Hinv1.
  destruct (s_run_later name retention buffered Hret _ _ Hrun Hinv1) as [[_ Hsealed Hsubs] Hinv'].
  cbn in Hsealed, Hsubs. specialize (Hsealed Hse). destruct y' as [w' subs' rd' log']. cbn in *.
  destruct Hinv as (_ & _ & _ & _ & Hold), Hinv' as (_ & _ & Hwin & _ & Hnew). split_and!; [done|..].
  { unfold s_window_inv in Hwin. rewrite Hwin, Hsealed. unfold retained. by destruct retention. }
  intros id s' Hs'. pose proof (si_snapshot _ _ _ _ _ _ (Hnew _ _ Hs')) as Hsnap.
  destruct (Hsubs id s' Hs') as [(s & Hs & Heq & _)|[Hge Hse']]; [by rewrite Hs|].
  destruct (subs !! id) as [s|] eqn:Hs.
  { pose proof (si_old _ _ _ _ _ _ (Hold _ _ Hs)). lia. }
  unfold s_snapshot_inv, retained in Hsnap. rewrite (Hse' Hse) in Hsnap. by destruct retention.
Qed.

(** C34: with reliable delivery the reader can always record the next event: recording never panics,
    in particular the [unreachable!] of the window trimming is not reached,
    and neither does sealing. *)
Theorem single_reader_never_panics {M} `{MpscLaws M StreamEvent} name retention buffered
    (y : SSystem (M := M)) e :
  (∀ r, retention = Some r → retention_assert_non_zero r = Done ()) →
  s_reachable name retention buffered y → e ≠ Gap → small_log (sy_log y ++ [e]) →
  record_event e (sy_shared y) retention ≠ Panic ∧
  ReplayState.seal_replay (sh_state (sy_shared y)) retention ≠ Panic.
Proof.
  intros Hret Hr Hgap Hsmall. pose proof (s_reachable_inv name retention buffered Hret y Hr) as Hinv.
  destruct y as [w subs rd log]. split.
  - destruct Hinv as (_ & Hlog & Hwin & _). simpl in *. destruct (record_event_spec retention Hret w log e Hgap Hsmall Hwin) as (r & w' & -> & _). done.
  - destruct (seal_replay_done retention w subs rd log Hinv) as (st & Hst & _). cbn. by rewrite Hst.
Qed.

(** ** Running the system *)

Inductive s_action : Type :=
| DoSubscribe
| DoRecv (id : SubscriberId)
| DoDrop (id : SubscriberId)
| DoSeal
| DoRecord (e : StreamEvent)
| DoDeliver
| DoAbort.

Section run.
Context {M : Type} `{MpscLaws M StreamEvent}.
Context (name : String.string) (retention : option ReplayRetention) (buffered : N).

(** One action, if its guard holds. *)
Definition s_perform (a : s_action) (y : SSystem (M := M)) : option SSystem :=
  let '(mkSSystem w subs rd log) := y in
  match a, rd with
  | DoSubscribe, (SIdle | SStopped | SDelivering _ _ _ _) =>
      if rs_next_id (sh_state w) + 1 <? word_modulus then
        match single_subscribe name retention buffered w with
        | Done (Ok (x, w')) =>
            Some (mkSSystem w' (<[sss_id x := mkSSub x (initial_events x) (length log)
                                               (rs_sealed (sh_state w)) []]> subs) rd log)
        | Done (Err _) | Panic => None
        end
      else None
  | DoRecv id, _ =>
      s ← subs !! id;
      let '(r, x, w) := single_next_event (ss_sub s) w in
      Some (mkSSystem w (<[id := mkSSub x (ss_snapshot s) (ss_start s) (ss_sealed s)
        (ss_seen s ++ match r with Ready (Some e) => [e] | _ => [] end)]> subs) rd log)
  | DoDrop id, _ =>
      s ← subs !! id; Some (mkSSystem (single_drop (ss_sub s) w) (delete id subs) rd log)
  | DoSeal, _ =>
      match ReplayState.seal_replay (sh_state w) retention with
      | Done st => Some (mkSSystem (with_state w st) subs rd log)
      | Panic => None
      end
  | DoRecord e, SIdle =>
      if negb (bool_decide (e = Gap)) && small_logb (log ++ [e]) then
        match record_event e w retention with
        | Done (recorded, cached, w) =>
            Some (mkSSystem w subs (SDelivering e recorded false cached) (log ++ [e]))
        | Panic => None
        end
      else None
  | DoDeliver, SDelivering e recorded retried cached =>
      match deliver_turn e recorded retried cached w with
      | TurnWaits => None
      | TurnReturns _ w => Some (mkSSystem w subs (after_delivery e) log)
      | TurnRetries cached w => Some (mkSSystem w subs (SDelivering e recorded true cached) log)
      end
  | DoAbort, _ => Some (mkSSystem (clear_active w) subs SAborted log)
  | _, _ => None
  end.

Fixpoint s_perform_all (acts : list s_action) (y : SSystem) : option SSystem :=
  match acts with
  | [] => Some y
  | a :: acts => y ← s_perform a y; s_perform_all acts y
  end.

Lemma s_perform_step a y y' : s_perform a y = Some y' → s_step name retention buffered y y'.
Proof.
  destruct y as [w subs rd log]. destruct a; intros Hp; simpl in Hp.
  - assert (rd ≠ SAborted) as Hab by (by destruct rd).
    destruct (N.ltb_spec (rs_next_id (sh_state w) + 1) word_modulus); [|by destruct rd].
    destruct (single_subscribe name retention buffered w) as [[[x w']|]|] eqn:Hs; [|by destruct rd..].
    destruct rd; try done; injection Hp as <-; by apply s_subscribe.
  - destruct (subs !! id) as [s|] eqn:Hs; [|done]. simpl in Hp.
    destruct (single_next_event (ss_sub s) w) as [[r x] w'] eqn:Hev. injection Hp as <-.
    by eapply s_recv.
  - destruct (subs !! id) as [s|] eqn:Hs; [|done]. injection Hp as <-. by apply s_drop.
  - destruct (ReplayState.seal_replay (sh_state w) retention) eqn:Hs; [|done]. injection Hp as <-.
    by apply s_seal.
  - destruct rd; try done. destruct (bool_decide (e = Gap)) eqn:He; [done|].
    apply bool_decide_eq_false in He. destruct (small_logb (log ++ [e])) eqn:Hs; [|done].
    apply small_logb_spec in Hs. cbn [negb andb] in Hp.
    destruct (record_event e w retention) as [[[r c] w']|] eqn:Hr; [|done]. injection Hp as <-.
    by eapply s_record.
  - destruct rd; try done. destruct (deliver_turn _ _ _ _ _) eqn:Ht; [done|..]; injection Hp as <-.
    + by eapply s_returns.
    + by eapply s_retries.
  - injection Hp as <-. apply s_abort.
Qed.

Lemma s_perform_all_reachable acts y y' :
  s_reachable name retention buffered y → s_perform_all acts y = Some y' →
  s_reachable name retention buffered y'.
Proof.
  revert y. induction acts as [|a acts IH]; intros y Hr; simpl; [by intros [= <-]|].
  destruct (s_perform a y) as [y1|] eqn:Hp; [|done]. apply IH.
  eapply s_reach_step; [done|by eapply s_perform_step].
Qed.

Lemma s_perform_all_run acts y y' :
  s_perform_all acts y = Some y' → rtc (s_step name retention buffered) y y'.
Proof.
  revert y. induction acts as [|a acts IH]; intros y; simpl; [by intros [= <-]|].
  destruct (s_perform a y) as [y1|] eqn:Hp; [|done]. intros Hall.
  eapply rtc_l; [by eapply s_perform_step|by apply IH].
Qed.

End run.

(** A run with two subscriptions, one after the other. *)
Module SingleDemo.

Definition acts : list s_action :=
  [DoSubscribe; DoRecord (Chunk [x61; x62]); DoDeliver; DoRecv 0; DoDrop 0;
   DoRecord (Chunk [x63]); DoDeliver; DoSubscribe; DoRecv 1; DoRecv 1;
   DoRecord Eof; DoDeliver; DoRecv 1].

Definition name : String.string := "stdout".
Definition final : SSystem (M := ref_mpsc StreamEvent) :=
  default s_initial (s_perform_all name (Some All) 2 acts s_initial).

Lemma s_final_reachable : s_reachable name (Some All) 2 final.
Proof.
  apply (s_perform_all_reachable _ _ _ acts s_initial); [apply s_reach_initial|vm_compute; reflexivity].
Qed.

Definition second : SSub := default (mkSSub (mkSingle 0 [] None false) [] 0 false []) (sy_subs final !! 1).

Lemma s_final_second : sy_subs final !! 1 = Some second.
Proof. vm_compute. reflexivity. Qed.

Lemma s_final_drained : s_drained final second.
Proof. split; [vm_compute; reflexivity|right; vm_compute; reflexivity]. Qed.

Lemma s_final_live : sy_reader final = SStopped ∧ sss_live (ss_sub second) = true ∧ ss_sealed second = false.
Proof. vm_compute. auto. Qed.

Lemma valid : ∀ r, Some All = Some r → retention_assert_non_zero r = Done ().
Proof. intros r [= <-]. reflexivity. Qed.

End SingleDemo.

Lemma single_reliable_exact_witness :
  ∃ from, ss_seen SingleDemo.second = ss_snapshot SingleDemo.second ++ drop from (sy_log SingleDemo.final).
Proof.
  destruct (single_reliable_exact SingleDemo.name (Some All) 2 _ 1 _ SingleDemo.valid
    SingleDemo.s_final_reachable SingleDemo.s_final_second SingleDemo.s_final_drained) as (from & _ & Heq).
  exists from. exact Heq.
Defined.

Lemma single_exclusive_witness :
  single_subscribe SingleDemo.name (Some All) 2 (sy_shared SingleDemo.final)
    = Done (Err (ActiveConsumer SingleDemo.name)).
Proof.
  destruct SingleDemo.s_final_live as (Hr & Hl & _).
  refine (proj1 (single_exclusive SingleDemo.name (Some All) 2 _ 1 _ SingleDemo.valid ltac:(vm_compute; split; [reflexivity|discriminate])
    SingleDemo.s_final_reachable _ SingleDemo.s_final_second Hl)).
  rewrite Hr. discriminate.
Defined.

(** A subscription before the seal, one after it. *)
Module SingleSealDemo.

Definition before : SSystem (M := ref_mpsc StreamEvent) :=
  default s_initial (s_perform_all SingleDemo.name (Some All) 2
    [DoSubscribe; DoRecord (Chunk [x61; x62]); DoDeliver; DoRecv 0; DoDrop 0] s_initial).

Lemma single_before_reachable :
  s_reachable SingleDemo.name (Some All) 2
    (mkSSystem (sy_shared before) (sy_subs before) (sy_reader before) (sy_log before)).
Proof.
  eapply (s_perform_all_reachable _ _ _
    [DoSubscribe; DoRecord (Chunk [x61; x62]); DoDeliver; DoRecv 0; DoDrop 0] s_initial);
    [apply s_reach_initial|vm_compute; reflexivity].
Qed.

Definition sealed_state : ReplayState :=
  match ReplayState.seal_replay (sh_state (sy_shared before)) (Some All) with Done st => st | Panic => ReplayState.new end.

Lemma seal_done : ReplayState.seal_replay (sh_state (sy_shared before)) (Some All) = Done sealed_state.
Proof. vm_compute. reflexivity. Qed.

Definition sealed : SSystem (M := ref_mpsc StreamEvent) :=
  mkSSystem (with_state (sy_shared before) sealed_state) (sy_subs before) (sy_reader before) (sy_log before).

Definition acts : list s_action := [DoSubscribe; DoRecord (Chunk [x63]); DoDeliver; DoRecv 1].

Definition after : SSystem (M := ref_mpsc StreamEvent) :=
  default s_initial (s_perform_all SingleDemo.name (Some All) 2 acts sealed).

Lemma single_after_run : rtc (s_step SingleDemo.name (Some All) 2) sealed after.
Proof. apply (s_perform_all_run _ _ _ acts). vm_compute. reflexivity. Qed.

Definition newcomer : SSub := default (mkSSub (mkSingle 0 [] None false) [] 0 false []) (sy_subs after !! 1).

Lemma single_newcomer_there : sy_subs after !! 1 = Some newcomer ∧ sy_subs before !! 1 = None ∧ ss_seen newcomer = [Chunk [x63]].
Proof. vm_compute. auto. Qed.

End SingleSealDemo.

Lemma single_seal_final_witness :
  ss_seen SingleSealDemo.newcomer = [Chunk [x63]] ∧
  ss_snapshot SingleSealDemo.newcomer =
    filter (λ e, is_terminal e = true)
      (take (ss_start SingleSealDemo.newcomer) (sy_log SingleSealDemo.after)).
Proof.
  destruct SingleSealDemo.single_newcomer_there as (Hs & Hno & Hseen). split; [exact Hseen|].
  destruct (single_seal_final SingleDemo.name (Some All) 2 _ _ _ _ SingleDemo.valid SingleSealDemo.single_before_reachable)
    as (st & Hseal & Hrun).
  rewrite SingleSealDemo.seal_done in Hseal. injection Hseal as <-.
  destruct (Hrun SingleSealDemo.after SingleSealDemo.single_after_run) as (_ & _ & Hsubs).
  specialize (Hsubs 1 _ Hs). rewrite Hno in Hsubs. exact Hsubs.
Defined.

Lemma single_reader_never_panics_witness :
  record_event (Chunk [x64]) (sy_shared SingleDemo.final) (Some All) ≠ Panic.
Proof.
  apply (single_reader_never_panics SingleDemo.name (Some All) 2 _ (Chunk [x64]) SingleDemo.valid
    SingleDemo.s_final_reachable); [discriminate|].
  apply small_logb_spec. vm_compute. reflexivity.
Defined.

(** ** The lossy reader's replay *)

(** A lossy run with [replay_all], one slot and chunks of one byte: the first
    subscriber does not read, so the second chunk does not fit and a gap is
    pending for it; the bytes of the next read are then thrown away. *)
Definition lossy_demo : outcome (list StreamEvent * N) :=
  let size := mkNumBytes 1 in
  sub ← single_subscribe "stdout" (Some All) 1 (shared_new (M := ref_mpsc StreamEvent));
  match sub with
  | Err _ => Panic
  | Ok (x, w) =>
      let '(r, w) := best_effort_read [x61; x62] (mkBestEffort [] (sh_active w) default_lag) w in
      '(r, w) ← best_effort_loop 2 size (Some All) r w;
      let '(r, w) := best_effort_read [x63; x64] r w in
      '(r, w) ← best_effort_loop 2 size (Some All) r w;
      let w := single_drop x w in
      let '(r, w) := best_effort_read [x65] r w in
      '(r, w) ← best_effort_loop 1 size (Some All) r w;
      sub ← single_subscribe "stdout" (Some All) 1 w;
      match sub with
      | Ok (y, w) => mret (sss_replay y, bytes_ingested w)
      | Err _ => Panic
      end
  end.

(** With lossy delivery the replay history of the single-subscriber backend
    can have a hole even under [replay_all]: in this run five bytes were read
    from the child, and a subscriber that attaches afterwards is replayed the
    first, second and fifth with nothing to mark that two are missing, because
    the reader discards the rest of its buffer unrecorded while a gap is
    pending for a slow subscriber. *)
Lemma single_lossy_replay_hole :
  lossy_demo = Done ([Chunk [x61]; Chunk [x62]; Chunk [x65]], 5).
Proof. vm_compute. reflexivity. Qed.
