(* ===== verification/SingleLiveness.v ===== *)
(** * Progress of the single-subscriber system

    As in [BroadcastLiveness]: the steps of [SingleSystem] that move an event
    along (the subscriber takes one, the reader finishes a turn of its delivery
    loop) strictly decrease a measure, so delivery ends; and where none is
    enabled, the subscription has read everything and the reader is between two
    events or at its end.  The reader blocks only on a full channel, and that
    channel has a subscription that can take an event out. *)

From S2P Require Import Prelude Stream Retention Broadcast SingleSubscriber SingleSystem.

Section liveness.
Context {M : Type} `{MpscLaws M StreamEvent}.
Context (name : String.string) (retention : option ReplayRetention) (buffered : N).
Hypothesis retention_ok : ∀ r, retention = Some r → retention_assert_non_zero r = Done ().
Implicit Types (y : SSystem (M := M)) (w : ConfiguredShared (M := M)) (rd : SReader) (s : SSub).

Inductive s_productive : SSystem (M := M) → SSystem → Prop :=
| sp_recv w subs rd log id s e x w' :
    subs !! id = Some s → single_next_event (ss_sub s) w = (Ready (Some e), x, w') →
    s_productive (mkSSystem w subs rd log)
      (mkSSystem w' (<[id := mkSSub x (ss_snapshot s) (ss_start s) (ss_sealed s) (ss_seen s ++ [e])]> subs) rd log)
| sp_returns w subs log e recorded retried cached cached' w' :
    deliver_turn e recorded retried cached w = TurnReturns cached' w' →
    s_productive (mkSSystem w subs (SDelivering e recorded retried cached) log)
      (mkSSystem w' subs (after_delivery e) log)
| sp_retries w subs log e recorded retried cached cached' w' :
    deliver_turn e recorded retried cached w = TurnRetries cached' w' →
    s_productive (mkSSystem w subs (SDelivering e recorded retried cached) log)
      (mkSSystem w' subs (SDelivering e recorded true cached') log).

Lemma s_productive_step y y' : s_productive y y' → s_step name retention buffered y y'.
Proof.
  destruct 1.
  - by eapply (s_recv name retention buffered _ _ _ _ _ _ (Ready (Some _))).
  - by eapply s_returns.
  - by eapply s_retries.
Qed.

(** ** Channels *)

(** Channels that are open were open before, with the same capacity. *)
Definition s_chan_le w w' : Prop :=
  ∀ id m', sh_chans w' !! id = Some m' → mpsc_rx_open m' = true →
    ∃ m, sh_chans w !! id = Some m ∧ mpsc_rx_open m = true ∧ mpsc_capacity m' = mpsc_capacity m.

Lemma s_chan_le_eq w w' : sh_chans w' = sh_chans w → s_chan_le w w'.
Proof. intros Heq id m' Hm Ho. rewrite Heq in Hm. eauto. Qed.

Lemma s_chan_le_insert w id m m' :
  sh_chans w !! id = Some m →
  (mpsc_rx_open m' = true → mpsc_rx_open m = true ∧ mpsc_capacity m' = mpsc_capacity m) →
  s_chan_le w (with_chan w id m').
Proof.
  intros Hm Hi id' m0 Hm0 Ho. cbn in Hm0. apply lookup_insert_Some in Hm0 as [[<- <-]|[_ Hm0]]; [|eauto].
  destruct (Hi Ho). eauto.
Qed.

Definition held w : nat := map_sum (λ m, length (mpsc_contents m)) (sh_chans w).

Lemma held_insert w id m m' :
  sh_chans w !! id = Some m →
  (held (with_chan w id m') + length (mpsc_contents m) = held w + length (mpsc_contents m'))%nat.
Proof. intros Hm. unfold held. simpl. by apply (map_sum_insert (λ m, length (mpsc_contents m))). Qed.

(** What a poll that yields an event does to the channels. *)
Lemma next_event_chans w x e x' w' :
  single_next_event x w = (Ready (Some e), x', w') →
  s_chan_le w w' ∧ (held w' + length (initial_events x') < held w + length (initial_events x))%nat.
Proof.
  unfold single_next_event, initial_events. destruct x as [id rp t live]. simpl.
  destruct rp as [|e' rp]; [|intros [= <- <- <-]; split; [by apply s_chan_le_eq|simpl; lia]].
  destruct t as [t|]; simpl.
  { intros [= <- <- <-]. unfold drop_receiver. simpl. destruct (sh_chans w !! id) as [m|] eqn:Hm;
      [|split; [by apply s_chan_le_eq|simpl; lia]].
    destruct live; [|split; [by apply s_chan_le_eq|simpl; lia]].
    pose proof (mpsc_drop_rx_view m) as [= Hc _ _ Hrx]. split.
    - eapply s_chan_le_insert; [done|congruence].
    - pose proof (held_insert w id m (mpsc_drop_rx m) Hm). rewrite Hc in *. simpl. lia. }
  destruct live, (sh_chans w !! id) as [m|] eqn:Hm; try done.
  pose proof (mpsc_recv_spec m) as Hs. destruct (mpsc_recv m) as [r m'] eqn:Hr. intros [= -> <- <-].
  destruct (mpsc_contents m) as [|e' es] eqn:Hc; [by destruct (mpsc_tx_open m)|].
  destruct Hs as [_ [= Hc' Hcap _ Hrx]]. simpl in *. split.
  - eapply s_chan_le_insert; [done|]. split; congruence.
  - pose proof (held_insert w id m m' Hm). rewrite Hc, Hc' in *. simpl in *. lia.
Qed.

(** What a turn of the delivery loop does to them. *)
Lemma try_send_chans w id e w' r :
  chan_try_send w id e = (w', r) → r ≠ Full → s_chan_le w w' ∧ (held w' ≤ S (held w))%nat.
Proof.
  unfold chan_try_send. destruct (sh_chans w !! id) as [m|] eqn:Hm.
  2: { intros [= <- <-] _. split; [by apply s_chan_le_eq|lia]. }
  pose proof (mpsc_try_send_spec m e) as Hs. destruct (mpsc_try_send m e) as [m' r0] eqn:Ht.
  intros [= <- <-] Hr. pose proof (held_insert w id m m' Hm) as Hh.
  destruct (mpsc_rx_open m) eqn:Hrx.
  - destruct (mpsc_capacity m <=? _); [by injection Hs as _ ->|]. simpl in Hs. destruct Hs as [_ [= Hc Hcap _ Ho]].
    split; [by eapply s_chan_le_insert; [done|]|]. rewrite Hc, length_app in Hh. simpl in Hh. lia.
  - injection Hs as -> ->. split; [eapply s_chan_le_insert; [done|congruence]|lia].
Qed.

Lemma deliver_turn_chans e recorded retried cached w cached' w' :
  deliver_turn e recorded retried cached w = TurnReturns cached' w' ∨
  deliver_turn e recorded retried cached w = TurnRetries cached' w' →
  s_chan_le w w' ∧ (held w' ≤ S (held w))%nat.
Proof.
  unfold deliver_turn. destruct cached as [id|].
  2: { intros [[= _ <-]|[=]]. split; [by apply s_chan_le_eq|lia]. }
  destruct (chan_try_send w id e) as [w1 []] eqn:Ht; [|by intros [[=]|[=]]|].
  - intros [[= _ <-]|[=]]. by eapply try_send_chans.
  - apply try_send_chans in Ht as [Hle Hh]; [|done]. intros Hor.
    assert (w' = clear_active_if_current w1 id) as ->.
    { destruct (recorded || retried); by destruct Hor as [[= _ <-]|[= _ <-]]. }
    split; [|unfold held in *; by rewrite clear_current_chans].
    intros id' m'. rewrite clear_current_chans. apply Hle.
Qed.

(** ** The measure *)

Definition s_reader_work rd : nat :=
  match rd with SDelivering _ _ retried _ => if retried then 2 else 4 | _ => 0 end.

(** The events under way: in a channel, in a snapshot, or in the reader's hands. *)
Definition s_under_way y : nat :=
  (held (sy_shared y) + map_sum (λ s, length (initial_events (ss_sub s))) (sy_subs y)
   + s_reader_work (sy_reader y))%nat.

Lemma s_productive_decreases y y' : s_productive y y' → (s_under_way y' < s_under_way y)%nat.
Proof.
  unfold s_under_way. destruct 1 as [w subs rd log id s e x w' Hs Hr|w subs log e rec retr c c' w' Ht
    |w subs log e rec retr c c' w' Ht]; simpl.
  - apply next_event_chans in Hr as [_ Hlt].
    pose proof (map_sum_insert (λ s, length (initial_events (ss_sub s))) subs id s
      (mkSSub x (ss_snapshot s) (ss_start s) (ss_sealed s) (ss_seen s ++ [e])) Hs) as Hsum.
    simpl in Hsum. lia.
  - destruct (deliver_turn_chans _ _ _ _ _ _ _ (or_introl Ht)) as [_ Hh].
    destruct (after_delivery_cases e) as [-> | ->], retr; simpl; lia.
  - destruct (deliver_turn_chans _ _ _ _ _ _ _ (or_intror Ht)) as [_ Hh].
    assert (retr = false) as ->; [|simpl; lia]. unfold deliver_turn in Ht.
    destruct c as [k|]; [|done]. destruct (chan_try_send w k e) as [? []]; try done. by destruct rec, retr.
Qed.

Lemma s_productive_sn y : sn s_productive y.
Proof.
  remember (s_under_way y) as n eqn:Hn. revert y Hn. induction (lt_wf n) as [n _ IH]. intros y ->.
  constructor. intros y' Hp. eapply IH; [by apply s_productive_decreases|done].
Qed.

(** ** Every open channel has a subscriber *)

Definition s_owned y : Prop :=
  ∀ id m, sh_chans (sy_shared y) !! id = Some m → mpsc_rx_open m = true →
    1 ≤ mpsc_capacity m ∧ is_Some (sy_subs y !! id).

Lemma s_owned_le y y' :
  s_owned y → s_chan_le (sy_shared y) (sy_shared y') →
  (∀ id, is_Some (sy_subs y !! id) → is_Some (sy_subs y' !! id)) → s_owned y'.
Proof.
  intros Hown Hle Hsubs id m' Hm Ho. destruct (Hle id m' Hm Ho) as (m & Hm0 & Ho0 & Hc).
  destruct (Hown id m Hm0 Ho0). split; [congruence|auto].
Qed.

Lemma s_owned_subscribe w subs rd log x w' :
  1 ≤ buffered → single_subscribe name retention buffered w = Done (Ok (x, w')) →
  s_owned (mkSSystem w subs rd log) →
  s_owned (mkSSystem w' (<[sss_id x := mkSSub x (initial_events x) (length log)
                                     (rs_sealed (sh_state w)) []]> subs) rd log).
Proof.
  intros Hb Hs Hown id m Hm Ho. unfold single_subscribe in Hs.
  destruct (mpsc_channel buffered) as [chan|] eqn:Hchan; [|done]. cbn [mbind outcome_bind] in Hs.
  destruct (bool_decide _); [done|]. destruct (ReplayState.attach_subscriber _) as [k s'].
  injection Hs as <- <-. unfold s_owned in Hown. cbn in *.
  apply lookup_insert_Some in Hm as [[<- <-]|[Hne Hm]].
  - apply mpsc_channel_done in Hchan as [_ [= _ -> _ _]]. split; [done|]. by rewrite lookup_insert_eq.
  - destruct (Hown id m Hm Ho). split; [done|]. by rewrite lookup_insert_ne.
Qed.

Lemma s_owned_drop w subs rd log id s :
  s_inv retention (mkSSystem w subs rd log) → subs !! id = Some s → s_owned (mkSSystem w subs rd log) →
  s_owned (mkSSystem (single_drop (ss_sub s) w) (delete id subs) rd log).
Proof.
  intros (_ & _ & _ & _ & Hsubs) Hs Hown id' m Hm Ho. unfold s_owned in Hown. cbn in *.
  destruct (Hsubs id s Hs) as [Hid _ Hrx _ _ _ _ _ _]. unfold single_drop in Hm. rewrite clear_current_chans in Hm.
  unfold drop_receiver in Hm. rewrite Hid in Hm. unfold rx_of in Hrx.
  assert (id' ≠ id ∧ sh_chans w !! id' = Some m) as [Hne Hm'].
  { destruct (sh_chans w !! id) as [m0|] eqn:Hm0; [|split; congruence].
    destruct (sss_live (ss_sub s)); [|split; congruence]. cbn in Hm.
    apply lookup_insert_Some in Hm as [[_ <-]|[Hne Hm]]; [|done].
    pose proof (mpsc_drop_rx_view m0) as [= _ _ _ Hd]. congruence. }
  destruct (Hown id' m Hm' Ho). split; [done|]. by rewrite lookup_delete_ne.
Qed.

(** A poll of any outcome. *)
Lemma next_event_le w x r x' w' : single_next_event x w = (r, x', w') → s_chan_le w w'.
Proof.
  intros Hr. assert ((∃ e, r = Ready (Some e)) ∨ ¬ ∃ e, r = Ready (Some e)) as [[e ->]|Hno].
  { destruct r as [[e|]|]; [left; eauto|right; by intros [? [=]]..]. }
  { by apply next_event_chans in Hr as [? _]. }
  unfold single_next_event in Hr. destruct (sss_replay x) as [|e rest]; [|simplify_eq; by destruct Hno; eexists].
  destruct (sss_terminal_event x) as [e|]; [simplify_eq; by destruct Hno; eexists|].
  destruct (sss_live x), (sh_chans w !! sss_id x) as [m|] eqn:Hm; try (simplify_eq; by apply s_chan_le_eq).
  pose proof (mpsc_recv_spec m) as Hs. destruct (mpsc_recv m) as [r0 m'] eqn:Hrm. injection Hr as -> _ <-.
  destruct (mpsc_contents m) as [|e es]; [|destruct Hs as [Hs _]; simpl in Hs; by destruct Hno; eexists].
  injection Hs as _ ->. by eapply s_chan_le_insert.
Qed.

Lemma s_owned_step y y' :
  1 ≤ buffered → s_inv retention y → s_step name retention buffered y y' → s_owned y → s_owned y'.
Proof.
  intros Hb Hinv Hstep Hown. destruct Hstep as [w subs rd log x w' _ _ Hs|w subs rd log id s r x w' Hs Hr
    |w subs rd log id s Hs| |w subs log e rec c w' Hg Hsm Hr|w subs log e rec retr c c' w' Ht
    |w subs log e rec retr c c' w' Ht| |w subs rd log id m _ Hm].
  - by apply s_owned_subscribe.
  - eapply s_owned_le; [exact Hown|by eapply next_event_le|]. cbn. intros id' Hid'.
    destruct (decide (id = id')) as [<-|]; [by rewrite lookup_insert_eq|by rewrite lookup_insert_ne].
  - by apply s_owned_drop.
  - eapply s_owned_le; [exact Hown|by apply s_chan_le_eq|done].
  - eapply s_owned_le; [exact Hown| |done]. apply s_chan_le_eq. cbn. destruct Hinv as (_ & _ & Hwin & _).
    destruct (record_event_spec retention retention_ok w log e Hg Hsm Hwin) as (r & w1 & Heq & Hch & _).
    rewrite Heq in Hr. by injection Hr as _ _ <-.
  - eapply s_owned_le; [exact Hown| |done]. by eapply deliver_turn_chans; left.
  - eapply s_owned_le; [exact Hown| |done]. by eapply deliver_turn_chans; right.
  - eapply s_owned_le; [exact Hown|by apply s_chan_le_eq|done].
  - eapply s_owned_le; [exact Hown| |done]. pose proof (mpsc_drop_tx_view m) as [= _ Hcap _ Hrx].
    eapply s_chan_le_insert; [done|]. rewrite Hrx. by intros ->.
Qed.

Lemma s_reachable_owned y : 1 ≤ buffered → s_reachable name retention buffered y → s_owned y.
Proof.
  intros Hb. induction 1 as [|y y' Hr IH Hstep]; [done|].
  eapply s_owned_step; [done|by eapply s_reachable_inv|done|done].
Qed.

(** ** Progress *)

(** A subscription with something left can take it. *)
Lemma s_recv_ready w s :
  queue w s ≠ [] → ∃ e x w', single_next_event (ss_sub s) w = (Ready (Some e), x, w').
Proof.
  unfold queue, initial_events, single_next_event, contents_of. destruct (ss_sub s) as [id rp t live]. simpl.
  destruct rp as [|e rp]; [|eauto]. destruct t as [t|]; [eauto|]. simpl. destruct live; [|done].
  destruct (sh_chans w !! id) as [m|]; [|done]. intros Hne.
  pose proof (mpsc_recv_spec m) as Hs. destruct (mpsc_contents m) as [|e es]; [done|].
  destruct (mpsc_recv m) as [r m']. destruct Hs as [Hr _]. simpl in Hr. subst r. eauto.
Qed.

(** When nothing more can move, nothing is under way. *)
Lemma s_stuck_drained y id s :
  s_inv retention y → s_owned y → nf s_productive y → sy_reader y ≠ SAborted →
  sy_subs y !! id = Some s → s_drained y s.
Proof.
  destruct y as [w subs rd log]. intros (_ & _ & _ & _ & Hsubs) Hown Hnf Hab. unfold s_owned in Hown. cbn in *.
  assert (∀ id s, subs !! id = Some s → queue w s = []) as Hempty.
  { intros id' s' Hs'. destruct (decide (queue w s' = [])) as [|Hne]; [done|].
    destruct (s_recv_ready w s' Hne) as (e & x & w' & Hr). destruct Hnf. eexists. by eapply sp_recv. }
  intros Hs. split; [by eapply Hempty|]. cbn. destruct rd as [|e rec retr c| |]; [by left| |by right|done].
  destruct (deliver_turn e rec retr c w) as [|c' w'|c' w'] eqn:Ht;
    [|destruct Hnf; eexists; by eapply sp_returns|destruct Hnf; eexists; by eapply sp_retries].
  unfold deliver_turn, chan_try_send in Ht. destruct c as [k|]; [|done].
  destruct (sh_chans w !! k) as [m|] eqn:Hm; [|by destruct (rec || retr)].
  pose proof (mpsc_try_send_spec m e) as Hspec. destruct (mpsc_rx_open m) eqn:Ho.
  2: { rewrite Hspec in Ht. by destruct (rec || retr). }
  destruct (N.leb_spec (mpsc_capacity m) (len (mpsc_contents m))) as [Hfull|_].
  2: { destruct (mpsc_try_send m e) as [m' r]. destruct Hspec as [Hr _]. simpl in Hr. by subst r. }
  destruct (Hown k m Hm Ho) as [Hcap [s' Hs']]. pose proof (Hempty k s' Hs') as Hq.
  destruct (Hsubs k s' Hs') as [Hid _ Hrx _ _ _ _ _ _]. unfold rx_of in Hrx. rewrite Hm, Ho in Hrx.
  unfold queue, contents_of in Hq. rewrite <- Hrx, Hid, Hm in Hq. apply app_eq_nil in Hq as [_ Hq].
  rewrite Hq in Hfull. unfold len in Hfull. simpl in Hfull. lia.
Qed.

Lemma s_productive_run y y' :
  s_reachable name retention buffered y → rtc s_productive y y' →
  s_reachable name retention buffered y' ∧ sy_log y' = sy_log y ∧ dom (sy_subs y') = dom (sy_subs y) ∧
  (sy_reader y ≠ SAborted → sy_reader y' ≠ SAborted).
Proof.
  intros Hr Hrun. induction Hrun as [y|y y1 y' Hp Hrun IH]; [done|].
  destruct IH as (Hr' & Hlog & Hdom & Hab); [by eapply s_reach_step, s_productive_step|].
  split; [done|]. rewrite Hlog, Hdom. destruct Hp; cbn in *; split_and!; auto.
  - by apply dom_insert_lookup_L.
  - intros _. apply Hab. by destruct (after_delivery_cases e) as [-> | ->].
Qed.


End liveness.

(** ** Running delivery steps *)

Section settle.
Context {M : Type} `{MpscLaws M StreamEvent}.
Context (name : String.string) (retention : option ReplayRetention) (buffered : N).
Implicit Types (y : SSystem (M := M)).

(** A delivery step: the reader takes a turn, or a subscriber that has an event
    waiting takes it. *)
Definition s_deliver (a : s_action) y : option SSystem :=
  match a with
  | DoDeliver => s_perform name retention buffered a y
  | DoRecv id =>
      s ← sy_subs y !! id;
      match (single_next_event (ss_sub s) (sy_shared y)).1.1 with
      | Ready (Some _) => s_perform name retention buffered a y
      | _ => None
      end
  | _ => None
  end.

Lemma s_deliver_productive a y y' : s_deliver a y = Some y' → s_productive y y'.
Proof.
  destruct y as [w subs rd log]. destruct a; try done; simpl.
  - destruct (subs !! id) as [s|] eqn:Hs; [|done]. simpl.
    destruct (single_next_event (ss_sub s) w) as [[[[e|]|] x] w'] eqn:Hr; try done. simpl.
    intros [= <-]. by apply sp_recv.
  - destruct rd; try done. destruct (deliver_turn _ _ _ _ _) eqn:Ht; [done|..]; intros [= <-].
    + by eapply sp_returns.
    + by eapply sp_retries.
Qed.

Fixpoint s_deliver_all (acts : list s_action) y : option SSystem :=
  match acts with
  | [] => Some y
  | a :: acts => y ← s_deliver a y; s_deliver_all acts y
  end.

Lemma s_deliver_all_run acts y y' : s_deliver_all acts y = Some y' → rtc s_productive y y'.
Proof.
  revert y. induction acts as [|a acts IH]; intros y; simpl; [by intros [= <-]|].
  destruct (s_deliver a y) as [y1|] eqn:Ha; [|done]. simpl. intros Hy.
  eapply rtc_l; [by eapply s_deliver_productive|by apply IH].
Qed.

(** No delivery step is left. *)
Definition s_settled y : bool :=
  match sy_reader y with SDelivering _ _ _ _ => false | _ => true end &&
  forallb (λ '(_, s), match (single_next_event (ss_sub s) (sy_shared y)).1.1 with
                      | Ready (Some _) => false
                      | _ => true
                      end) (map_to_list (sy_subs y)).

Lemma s_settled_nf y : s_settled y = true → nf s_productive y.
Proof.
  unfold s_settled. intros [Hrd Hall]%andb_true_iff [y' Hp].
  inversion Hp as [w subs rd log id s e x w' Hs Hr| |]; subst; try done. simpl in *.
  rewrite forallb_forall in Hall. specialize (Hall (id, s)). cbv beta iota in Hall. rewrite Hr in Hall. simpl in Hall.
  enough (false = true) by done. apply Hall, list_elem_of_In, elem_of_map_to_list, Hs.
Qed.

End settle.

(** ** A run

    The first subscriber leaves after the first line, the second is replayed
    it; the reader blocks on its channel of one until it takes an event. *)

Module SingleLivenessDemo.

Definition acts : list s_action :=
  [DoSubscribe; DoRecord (Chunk [x61; newline]); DoDeliver; DoRecv 0; DoDrop 0;
   DoSubscribe; DoRecord (Chunk [x62]); DoDeliver; DoRecord (Chunk [x63; newline])].

Definition blocked : SSystem (M := ref_mpsc StreamEvent) :=
  default s_initial (s_perform_all "stdout" (Some All) 1 acts s_initial).

Definition rest : list s_action := [DoRecv 1; DoRecv 1; DoDeliver; DoRecv 1].

Definition moved_on : SSystem (M := ref_mpsc StreamEvent) :=
  default s_initial (s_deliver_all "stdout" (Some All) 1 rest blocked).

Lemma blocked_reachable : s_reachable "stdout" (Some All) 1 blocked.
Proof.
  apply (s_perform_all_reachable _ _ _ acts s_initial); [apply s_reach_initial|vm_compute; reflexivity].
Qed.

Lemma moved_on_settled : rtc s_productive blocked moved_on ∧ nf s_productive moved_on.
Proof.
  split; [apply (s_deliver_all_run "stdout" (Some All) 1 rest)|apply s_settled_nf]; vm_compute; reflexivity.
Qed.

End SingleLivenessDemo.

