(* ===== verification/LossySystem.v ===== *)
(** * The single-subscriber backend with lossy delivery

    The best-effort reader of [single_subscriber/reader.rs] as a concurrent
    system: [read_chunked_best_effort] split at the points where other tasks
    can act (a read, the attempt to send a pending gap, the recording of a
    chunk under the lock, each attempt to send it, and the three parts of the
    terminal event), interleaved with subscribers that come and go, sealing
    and the drop of the stream.  [pass_steps] shows that the steps make up one
    pass of the loop as [SingleSubscriber] has it.

    The invariant relates what the current subscriber has seen, and has in its
    channel, with the events the reader made since it attached, where a run of
    lost chunks is a gap or still pending as one. *)

From S2P Require Import Prelude Stream Retention Broadcast BroadcastSystem FastBroadcast SingleSubscriber SingleSystem.

(** ** The reader, step by step *)

Inductive LReader : Type :=
| LReading (r : BestEffortReader)
| LLoop (r : BestEffortReader)
| LChunk (r : BestEffortReader)
| LSending (r : BestEffortReader) (e : StreamEvent) (recorded retried : bool)
| LTermGap (r : BestEffortReader) (e : StreamEvent) (recorded : bool)
| LTermSend (e : StreamEvent) (recorded retried : bool) (cached : option SubscriberId)
| LStopped (cached : option SubscriberId)
| LAborted.

Section reader.
Context {M : Type} `{Mpsc M StreamEvent}.
Context (retention : option ReplayRetention) (chunk_size : NumBytes).
Implicit Types (w : ConfiguredShared (M := M)) (r : BestEffortReader).

(** A subscriber attached while there was none: [active_rx.changed()]. *)
Definition lossy_refresh r w : BestEffortReader :=
  mkBestEffort (be_buf r) (sh_active w) (observe_active (be_lag r) (sh_active w)).

(** The head of the loop: a pending gap is sent first; if the channel is still
    full, the whole buffer is given up. *)
Definition lossy_gap r w : LReader * list StreamEvent * ConfiguredShared :=
  let lag := observe_active (be_lag r) (be_cached r) in
  if gap_pending lag then
    match try_send_loop Gap false false (be_cached r) w with
    | (BDelivered, cached, w) =>
        (LChunk (mkBestEffort (be_buf r) cached (mkLag (subscriber_id lag) 0 false)), [], w)
    | (BFull, cached, w) =>
        (LReading (mkBestEffort [] cached
           (mkLag (subscriber_id lag)
              (lagged lag +! buffered_chunk_count (len (be_buf r)) chunk_size) true)),
         Chunk <$> split_buffer (length (be_buf r)) (bytes chunk_size) (be_buf r), w)
    | (BInactive, cached, w) =>
        (LChunk (mkBestEffort (be_buf r) cached (observe_active lag cached)), [], w)
    end
  else (LChunk (mkBestEffort (be_buf r) (be_cached r) lag), [], w).

(** The next chunk is split off and recorded. *)
Definition lossy_record r w : outcome (LReader * StreamEvent * ConfiguredShared) :=
  let split_to := bytes chunk_size `min` len (be_buf r) in
  let e := Chunk (slice_to split_to (be_buf r)) in
  '(recorded, cached, w) ← record_event e w retention;
  mret (LSending (mkBestEffort (slice_from split_to (be_buf r)) cached (be_lag r)) e recorded false, e, w).

(** Back to the head of the loop, or out of it. *)
Definition lossy_next (buf : list byte) (cached : option SubscriberId) (lag : BestEffortLag) : LReader :=
  match buf with
  | [] => LReading (mkBestEffort [] cached lag)
  | _ => LLoop (mkBestEffort buf cached lag)
  end.

(** One attempt to send the chunk. *)
Definition lossy_send r (e : StreamEvent) (recorded retried : bool) w : LReader * ConfiguredShared :=
  let lag := be_lag r in
  match be_cached r with
  | None => (lossy_next (be_buf r) None (observe_active lag None), w)
  | Some id =>
      match chan_try_send w id e with
      | (w, Sent) => (lossy_next (be_buf r) (be_cached r) (log_if_lagged lag), w)
      | (w, Full) =>
          (lossy_next (be_buf r) (be_cached r) (mkLag (subscriber_id lag) (lagged lag +! 1) true), w)
      | (w, Closed) =>
          let w := clear_active_if_current w id in
          let cached := sh_active w in
          if recorded || retried then (lossy_next (be_buf r) cached (observe_active lag cached), w)
          else (LSending (mkBestEffort (be_buf r) cached lag) e recorded true, w)
      end
  end.

(** The end of the stream or a read error, up to the first wait. *)
Definition lossy_terminal r (e : StreamEvent) w : outcome (LReader * ConfiguredShared) :=
  let '(r, w) := best_effort_read [] r w in
  '(recorded, cached, lag, w) ← terminal_record e (be_lag r) w retention;
  mret (LTermGap (mkBestEffort (be_buf r) cached lag) e recorded, w).

(** The steps in sequence make up one pass of the loop. *)
Definition resend (rd : LReader) w : LReader * ConfiguredShared :=
  match rd with
  | LSending r e recorded retried => lossy_send r e recorded retried w
  | _ => (rd, w)
  end.

Definition lossy_pass r w : outcome (LReader * ConfiguredShared) :=
  let '(rd, _, w) := lossy_gap r w in
  match rd with
  | LChunk r =>
      '(rd, _, w) ← lossy_record r w;
      let '(rd, w) := resend rd w in mret (resend rd w)
  | rd => mret (rd, w)
  end.

Lemma resend_next buf cached lag w :
  resend (lossy_next buf cached lag) w = (lossy_next buf cached lag, w).
Proof. by destruct buf. Qed.

Lemma pass_steps r w :
  lossy_pass r w =
    ('(r, w) ← best_effort_pass chunk_size retention r w;
     mret (lossy_next (be_buf r) (be_cached r) (be_lag r), w)).
Proof.
  assert (∀ r1 w1,
    ('(rd, _, w) ← lossy_record r1 w1; let '(rd, w) := resend rd w in mret (resend rd w)) =
    ('(r, w) ← (let split_to := bytes chunk_size `min` len (be_buf r1) in
       let e := Chunk (slice_to split_to (be_buf r1)) in
       '(sent, cached, w) ← try_send_best_effort_event e (be_cached r1) w1 retention true;
       let lag := match sent with
         | BDelivered => log_if_lagged (be_lag r1)
         | BFull => mkLag (subscriber_id (be_lag r1)) (lagged (be_lag r1) +! 1) true
         | BInactive => observe_active (be_lag r1) cached
         end in
       mret (mkBestEffort (slice_from split_to (be_buf r1)) cached lag, w));
     mret (lossy_next (be_buf r) (be_cached r) (be_lag r), w))) as Hchunk.
  { intros r1 w1. unfold lossy_record, try_send_best_effort_event. cbv zeta.
    destruct (record_event _ w1 retention) as [[[recorded cached] w2]|]; [|done].
    cbn [mbind outcome_bind mret outcome_ret resend]. unfold try_send_loop, lossy_send at 1.
    cbn [be_cached be_buf be_lag].
    destruct cached as [id|]; [|by rewrite resend_next].
    destruct (chan_try_send w2 id _) as [w3 []]; [by rewrite resend_next..|].
    destruct recorded; cbn [orb]; [by rewrite resend_next|]. cbn [negb resend]. unfold lossy_send.
    cbn [be_cached be_buf be_lag orb].
    destruct (sh_active (clear_active_if_current w3 id)) as [id'|]; [|done].
    by destruct (chan_try_send (clear_active_if_current w3 id) id' _) as [w4 []]. }
  unfold lossy_pass, lossy_gap, best_effort_pass. cbv zeta.
  destruct (gap_pending (observe_active (be_lag r) (be_cached r))); [|apply Hchunk].
  cbn [try_send_best_effort_event]. cbn [mbind outcome_bind mret outcome_ret].
  destruct (try_send_loop Gap false false (be_cached r) w) as [[[] cached] w'];
    cbn [mbind outcome_bind mret outcome_ret]; [apply Hchunk|done|apply Hchunk].
Qed.

End reader.

(** ** The system *)

Inductive lossy_action : Type :=
| LARefresh
| LARead (buf : list byte)
| LAGap
| LARecord
| LASend
| LATerminal (e : StreamEvent)
| LATermGap
| LATermSend
| LASubscribe
| LARecv (id : SubscriberId)
| LADrop (id : SubscriberId)
| LASeal
| LARelease (id : SubscriberId)
| LAAbort.

(** The subscriber the reader sends to, and its record of lost chunks. *)
Definition rd_cached (rd : LReader) : option SubscriberId :=
  match rd with
  | LReading r | LLoop r | LChunk r | LSending r _ _ _ | LTermGap r _ _ => be_cached r
  | LTermSend _ _ _ c | LStopped c => c
  | LAborted => None
  end.

Definition rd_lag (rd : LReader) : BestEffortLag :=
  match rd with
  | LReading r | LLoop r | LChunk r | LSending r _ _ _ | LTermGap r _ _ => be_lag r
  | LTermSend _ _ _ _ | LStopped _ | LAborted => default_lag
  end.

Section system.
Context {M : Type} `{MpscLaws M StreamEvent}.
Context (name : String.string) (retention : option ReplayRetention) (buffered : N) (chunk_size : NumBytes).

Record LSystem : Type := mkLSystem {
  l_shared : ConfiguredShared (M := M);
  l_subs : gmap SubscriberId SSub;
  l_reader : LReader;
  (** The events the reader made of what it read, sent or not. *)
  l_log : list StreamEvent;
}.
Implicit Types (w : ConfiguredShared (M := M)) (rd : LReader) (s : SSub) (y : LSystem).

Definition l_initial : LSystem :=
  mkLSystem shared_new ∅ (LReading (mkBestEffort [] None default_lag)) [].

Definition holds_sender_b w rd (id : SubscriberId) : bool :=
  bool_decide (sh_active w = Some id) || bool_decide (rd_cached rd = Some id).

Definition l_perform (a : lossy_action) y : option LSystem :=
  let 'mkLSystem w subs rd log := y in
  match a, rd with
  | LARefresh, LReading r =>
      match be_cached r with
      | None => Some (mkLSystem w subs (LReading (lossy_refresh r w)) log)
      | Some _ => None
      end
  | LARead (b :: buf), LReading r =>
      let '(r, w) := best_effort_read (b :: buf) r w in Some (mkLSystem w subs (LLoop r) log)
  | LAGap, LLoop r =>
      let '(rd, given_up, w) := lossy_gap chunk_size r w in Some (mkLSystem w subs rd (log ++ given_up))
  | LARecord, LChunk r =>
      match lossy_record retention chunk_size r w with
      | Done (rd, e, w) => Some (mkLSystem w subs rd (log ++ [e]))
      | Panic => None
      end
  | LASend, LSending r e recorded retried =>
      let '(rd, w) := lossy_send r e recorded retried w in Some (mkLSystem w subs rd log)
  | LATerminal e, LReading r =>
      if is_terminal e then
        match lossy_terminal retention r e w with
        | Done (rd, w) => Some (mkLSystem w subs rd (log ++ [e]))
        | Panic => None
        end
      else None
  | LATermGap, LTermGap r e recorded =>
      '(cached, _, w) ← send_pending_gap_before_terminal (be_cached r) (be_lag r) w;
      Some (mkLSystem w subs (LTermSend e recorded false cached) log)
  | LATermSend, LTermSend e recorded retried cached =>
      match deliver_turn e recorded retried cached w with
      | TurnWaits => None
      | TurnReturns cached w => Some (mkLSystem w subs (LStopped cached) log)
      | TurnRetries cached w => Some (mkLSystem w subs (LTermSend e recorded true cached) log)
      end
  | LASubscribe, LAborted | LAAbort, LAborted => None
  | LASubscribe, _ =>
      if rs_next_id (sh_state w) + 1 <? word_modulus then
        match single_subscribe name retention buffered w with
        | Done (Ok (x, w')) =>
            Some (mkLSystem w' (<[sss_id x := mkSSub x (initial_events x) (length log)
                                   (rs_sealed (sh_state w)) []]> subs) rd log)
        | Done (Err _) | Panic => None
        end
      else None
  | LARecv id, _ =>
      s ← subs !! id;
      let '(r, x, w) := single_next_event (ss_sub s) w in
      Some (mkLSystem w (<[id := mkSSub x (ss_snapshot s) (ss_start s) (ss_sealed s)
        (ss_seen s ++ match r with Ready (Some e) => [e] | _ => [] end)]> subs) rd log)
  | LADrop id, _ =>
      s ← subs !! id; Some (mkLSystem (single_drop (ss_sub s) w) (delete id subs) rd log)
  | LASeal, _ =>
      match ReplayState.seal_replay (sh_state w) retention with
      | Done st => Some (mkLSystem (with_state w st) subs rd log)
      | Panic => None
      end
  | LARelease id, _ =>
      m ← sh_chans w !! id;
      if holds_sender_b w rd id then None
      else Some (mkLSystem (with_chan w id (mpsc_drop_tx m)) subs rd log)
  | LAAbort, _ => Some (mkLSystem (clear_active w) subs LAborted log)
  | _, _ => None
  end.

Fixpoint l_perform_all (acts : list lossy_action) y : option LSystem :=
  match acts with
  | [] => Some y
  | a :: acts => y ← l_perform a y; l_perform_all acts y
  end.

Inductive l_reachable : LSystem → Prop :=
| l_reach_initial : l_reachable l_initial
| l_reach_step a y y' : l_reachable y → l_perform a y = Some y' → l_reachable y'.

Lemma l_perform_all_reachable acts y y' :
  l_reachable y → l_perform_all acts y = Some y' → l_reachable y'.
Proof.
  revert y. induction acts as [|a acts IH]; intros y Hr; simpl; [by intros [= <-]|].
  destruct (l_perform a y) as [y1|] eqn:Hp; [|done]. apply IH. by eapply l_reach_step.
Qed.

(** ** The invariant *)

Definition cap_of w (id : SubscriberId) : N :=
  match sh_chans w !! id with Some m => mpsc_capacity m | None => 0 end.

(** The event under way to the cached subscriber. *)
Definition rd_pending rd : list StreamEvent :=
  match rd with
  | LSending _ e _ _ | LTermGap _ e _ | LTermSend e _ _ _ => [e]
  | LReading _ | LLoop _ | LChunk _ | LStopped _ | LAborted => []
  end.

(** A gap is owed to a subscriber. *)
Definition rd_gap rd (id : SubscriberId) : Prop :=
  gap_pending (rd_lag rd) = true ∧ subscriber_id (rd_lag rd) = Some id.

(** A subscription that was given the end of the stream on attaching. *)
Definition late s : Prop := is_Some (sss_terminal_event (ss_sub s)) ∨ sss_live (ss_sub s) = false.

Definition late_inv w (log : list StreamEvent) s : Prop :=
  is_Some (rs_terminal_event (sh_state w)) ∧ ss_start s = length log ∧
  ss_seen s ++ initial_events (ss_sub s) = ss_snapshot s.

(** A subscription the reader has not noticed: nothing was sent since. *)
Definition fresh_inv w rd (log : list StreamEvent) s : Prop :=
  let id := sss_id (ss_sub s) in
  rs_terminal_event (sh_state w) = None ∧ ss_start s = length log ∧
  ss_seen s ++ sss_replay (ss_sub s) = ss_snapshot s ∧ contents_of w id = [] ∧
  subscriber_id (rd_lag rd) ≠ Some id ∧
  (∀ r e retried, rd = LSending r e false retried → ss_snapshot s = []).

(** A subscription the reader sends to. *)
Definition tracked_inv w rd (log : list StreamEvent) s : Prop :=
  let id := sss_id (ss_sub s) in
  ∃ from obs act lost,
    (from = ss_start s ∨ (S from = ss_start s ∧ ss_snapshot s = [])) ∧
    ss_seen s ++ sss_replay (ss_sub s) ++ contents_of w id = ss_snapshot s ++ obs ∧
    drop from log = act ++ lost ++ rd_pending rd ∧ explains obs act ∧ nonterminal lost ∧
    (lost ≠ [] ↔ rd_gap rd id) ∧
    (len (drop from log) ≤ buffered → lost = [] ∧ obs = act) ∧
    (length (contents_of w id) ≤ length obs)%nat ∧
    (∀ r e rec ret, rd = LSending r e rec ret → subscriber_id (be_lag r) = Some id ∨ contents_of w id = []).

Record l_sub_inv w rd (log : list StreamEvent) (id : SubscriberId) s : Prop := {
  li_id : sss_id (ss_sub s) = id;
  li_old : id < rs_next_id (sh_state w);
  li_rx : rx_of w id = sss_live (ss_sub s);
  li_cap : cap_of w id = buffered;
  li_active : sss_live (ss_sub s) = true → active_id (sh_state w) = Some id;
  li_start : (ss_start s ≤ length log)%nat;
  li_late : late s → late_inv w log s;
  li_live : ¬ late s → if decide (rd_cached rd = Some id) then tracked_inv w rd log s else fresh_inv w rd log s;
}.

(** The replay a subscriber attaching now would be given. *)
Definition no_replay w : Prop :=
  retention = None ∨ rs_sealed (sh_state w) = true ∨ rs_events (sh_state w) = [].

Definition lag_ok (l : BestEffortLag) : Prop := gap_pending l = true → subscriber_id l ≠ None.

Definition l_reader_inv w rd (log : list StreamEvent) : Prop :=
  match rd with
  | LReading r => rs_terminal_event (sh_state w) = None ∧ be_buf r = []
  | LLoop r => rs_terminal_event (sh_state w) = None ∧ be_buf r ≠ []
  | LChunk r =>
      rs_terminal_event (sh_state w) = None ∧ be_buf r ≠ [] ∧ gap_pending (be_lag r) = false ∧
      subscriber_id (be_lag r) = be_cached r
  | LSending r e recorded _ =>
      rs_terminal_event (sh_state w) = None ∧ gap_pending (be_lag r) = false ∧
      (∃ log0, log = log0 ++ [e]) ∧ is_terminal e = false ∧ (recorded = false → no_replay w)
  | LTermGap r e recorded =>
      rs_terminal_event (sh_state w) = Some e ∧ recorded = true ∧ subscriber_id (be_lag r) = be_cached r
  | LTermSend e recorded _ _ => rs_terminal_event (sh_state w) = Some e ∧ recorded = true
  | LStopped _ => is_Some (rs_terminal_event (sh_state w))
  | LAborted => True
  end.

Definition l_log_inv w (log : list StreamEvent) : Prop :=
  match rs_terminal_event (sh_state w) with
  | None => nonterminal log
  | Some t => is_terminal t = true ∧ ∃ log0, log = log0 ++ [t] ∧ nonterminal log0
  end.

Definition l_ids_inv w rd : Prop :=
  active_id (sh_state w) = sh_active w ∧
  ∀ id, active_id (sh_state w) = Some id ∨ rd_cached rd = Some id ∨ subscriber_id (rd_lag rd) = Some id →
    id < rs_next_id (sh_state w).

Definition l_owned w (subs : gmap SubscriberId SSub) : Prop :=
  ∀ id, rx_of w id = true → is_Some (subs !! id).

Definition l_inv y : Prop :=
  let 'mkLSystem w subs rd log := y in
  rd ≠ LAborted →
  l_ids_inv w rd ∧ l_owned w subs ∧ l_log_inv w log ∧ l_reader_inv w rd log ∧ lag_ok (rd_lag rd) ∧
  map_Forall (l_sub_inv w rd log) subs.
(** ** Channels and the shared state *)

(** What the invariant sees of the channels. *)
Definition same_chans w w' : Prop :=
  ∀ id, contents_of w' id = contents_of w id ∧ rx_of w' id = rx_of w id ∧ cap_of w' id = cap_of w id.

Lemma same_chans_eq w w' : sh_chans w' = sh_chans w → same_chans w w'.
Proof. intros Heq id. unfold contents_of, rx_of, cap_of. by rewrite Heq. Qed.

Lemma cap_with_chan w id m id' :
  cap_of (with_chan w id m) id' = if decide (id' = id) then mpsc_capacity m else cap_of w id'.
Proof.
  unfold cap_of. simpl. case_decide as Hd; [subst; by rewrite lookup_insert_eq|].
  by rewrite lookup_insert_ne.
Qed.

(** One attempt to send. *)
Lemma try_send_cases w id e w' r :
  chan_try_send w id e = (w', r) →
  sh_state w' = sh_state w ∧ sh_active w' = sh_active w ∧
  match r with
  | Sent =>
      rx_of w id = true ∧ contents_of w' id = contents_of w id ++ [e] ∧
      rx_of w' id = true ∧ cap_of w' id = cap_of w id ∧
      ∀ id', id' ≠ id → contents_of w' id' = contents_of w id' ∧ rx_of w' id' = rx_of w id' ∧
        cap_of w' id' = cap_of w id'
  | Full => rx_of w id = true ∧ cap_of w id ≤ len (contents_of w id) ∧ same_chans w w'
  | Closed => rx_of w id = false ∧ same_chans w w'
  end.
Proof.
  unfold chan_try_send. destruct (sh_chans w !! id) as [m|] eqn:Hm.
  2: { intros [= <- <-]. split_and!; try done. unfold rx_of. by rewrite Hm. }
  assert (same_chans w (with_chan w id m)) as Hsame.
  { apply same_chans_eq. simpl. by apply insert_id. }
  pose proof (mpsc_try_send_spec m e) as Hs. destruct (mpsc_try_send m e) as [m' r0] eqn:Ht.
  intros [= <- <-]. do 2 (split; [done|]).
  assert (rx_of w id = mpsc_rx_open m ∧ cap_of w id = mpsc_capacity m ∧ contents_of w id = mpsc_contents m)
    as (-> & -> & ->) by (unfold rx_of, cap_of, contents_of; by rewrite Hm).
  destruct (mpsc_rx_open m) eqn:Hrx; [|by injection Hs as -> ->].
  destruct (N.leb_spec (mpsc_capacity m) (len (mpsc_contents m))); [by injection Hs as -> ->|].
  simpl in Hs. destruct Hs as [-> Hv]. unfold mpsc_view in Hv. injection Hv as Hc Hcap _ Hr.
  rewrite contents_with_chan, rx_with_chan, cap_with_chan, !decide_True by done.
  split_and!; try done. intros id' Hne.
  rewrite contents_with_chan, rx_with_chan, cap_with_chan. by rewrite !decide_False.
Qed.

Lemma clear_current_same w id : same_chans w (clear_active_if_current w id).
Proof. apply same_chans_eq, clear_current_chans. Qed.

(** Trimming touches the retained events and their counters only. *)
Definition events_only (t t' : ReplayState) : Prop :=
  ∃ evs n b, t' = ReplayState.with_events t evs n b.

Lemma events_only_refl (t : ReplayState) : events_only t t.
Proof. by exists (rs_events t), (chunk_count t), (byte_count t); destruct t. Qed.

Lemma events_only_trans (s1 s2 s3 : ReplayState) : events_only s1 s2 → events_only s2 s3 → events_only s1 s3.
Proof. intros (? & ? & ? & ->) (e & n & b & ->). by exists e, n, b. Qed.

Lemma pop_events_only (t : ReplayState) e t' : ReplayState.pop_replay_front t = Some (e, t') → events_only t t'.
Proof.
  unfold ReplayState.pop_replay_front. destruct (rs_events t) as [|e' rest]; [done|].
  destruct e'; intros [= <- <-]; by eexists _, _, _.
Qed.

Lemma trim_events_only (t : ReplayState) r t' :
  ReplayState.trim_replay_window t r = Done t' → events_only t t'.
Proof.
  assert (∀ fuel t, events_only t (ReplayState.pop_all fuel t)) as Hpop.
  { clear t t'. induction fuel as [|fuel IH]; intros t; simpl; [apply events_only_refl|].
    destruct (ReplayState.pop_replay_front t) as [[e t']|] eqn:Ht; [|apply events_only_refl].
    eapply events_only_trans; [by eapply pop_events_only|apply IH]. }
  assert (∀ n fuel t, events_only t (ReplayState.trim_chunks fuel t n)) as Hchunks.
  { clear t t'. intros n. induction fuel as [|fuel IH]; intros t; simpl; [apply events_only_refl|].
    destruct (n <? chunk_count t); [|apply events_only_refl].
    destruct (ReplayState.pop_replay_front t) as [[e t']|] eqn:Ht; [|apply events_only_refl].
    eapply events_only_trans; [by eapply pop_events_only|apply IH]. }
  assert (∀ n fuel t t', ReplayState.trim_bytes fuel t n = Done t' → events_only t t') as Hbytes.
  { clear t t'. intros n. induction fuel as [|fuel IH]; intros t t'; simpl; [intros [= <-]; apply events_only_refl|].
    assert (∀ o, match o with Some (_, t1) => ReplayState.trim_bytes fuel t1 n | None => Done t end = Done t' →
      ReplayState.pop_replay_front t = o → events_only t t') as Hstep.
    { intros [[e t1]|] Hd Ho; [|injection Hd as <-; apply events_only_refl].
      eapply events_only_trans; [by eapply pop_events_only|by apply IH]. }
    destruct (rs_events t) as [|[c| | |] rest]; try done; [intros [= <-]; apply events_only_refl|..].
    - destruct (n <=? _); [|intros [= <-]; apply events_only_refl]. intros Hd. by eapply Hstep.
    - intros Hd. by eapply Hstep. }
  unfold ReplayState.trim_replay_window.
  destruct r as [[[|n]|n|]|]; try (destruct (rs_sealed t)); try (destruct (bytes n =? 0));
    intros Heq; try (injection Heq as <-); auto using events_only_refl.
  by eapply Hbytes.
Qed.

(** What recording an event changes. *)
Lemma record_event_fields e w recorded cached w' :
  record_event e w retention = Done (recorded, cached, w') →
  cached = sh_active w ∧ sh_active w' = sh_active w ∧ sh_chans w' = sh_chans w ∧
  active_id (sh_state w') = active_id (sh_state w) ∧
  rs_next_id (sh_state w') = rs_next_id (sh_state w) ∧
  rs_terminal_event (sh_state w') = (if is_terminal e then Some e else rs_terminal_event (sh_state w)) ∧
  (recorded = false → is_chunk e = true → no_replay w') ∧ (is_terminal e = true → recorded = true).
Proof.
  unfold record_event, ReplayState.push_replay_event. destruct e as [c| | |err]; cbn [is_terminal].
  2,3,4: cbn; intros [= <- <- <-]; split_and!; done.
  destruct (bool_decide (is_Some retention) && negb (rs_sealed (sh_state w))) eqn:Hrec.
  - destruct (ReplayState.trim_replay_window _ retention) as [st|] eqn:Ht; [|done].
    apply trim_events_only in Ht as (evs & n & b & ->). cbn. intros [= <- <- <-]. cbn.
    split_and!; try done. intros Hev%negb_false_iff%bool_decide_eq_true _. by right; right.
  - cbn. intros [= <- <- <-]. split_and!; try done. intros _ _.
    apply andb_false_iff in Hrec as [Hn|Hs%negb_false_iff]; [left|by right; left].
    apply bool_decide_eq_false in Hn. by destruct retention; [destruct Hn|].
Qed.

(** ** Subscribers *)

(** What a step must leave alone for a subscription. *)
Lemma l_sub_frame w w' rd log id s :
  contents_of w' id = contents_of w id → rx_of w' id = rx_of w id → cap_of w' id = cap_of w id →
  rs_next_id (sh_state w) ≤ rs_next_id (sh_state w') →
  rs_terminal_event (sh_state w') = rs_terminal_event (sh_state w) →
  (sss_live (ss_sub s) = true → active_id (sh_state w') = Some id) →
  l_sub_inv w rd log id s → l_sub_inv w' rd log id s.
Proof.
  intros Hc Hrx Hcap Hnext Hterm Hact [<- Hold Hr Hcp Ha Hst Hlate Hlive].
  split; try done; [lia|congruence|congruence|..].
  - unfold late_inv in *. by rewrite Hterm.
  - intros Hn. specialize (Hlive Hn). case_decide.
    + unfold tracked_inv in *. by rewrite Hc.
    + unfold fresh_inv in *. by rewrite Hc, Hterm.
Qed.

(** The parts of the invariant that do not mention subscriptions. *)
Definition l_global w rd (log : list StreamEvent) : Prop :=
  l_ids_inv w rd ∧ l_log_inv w log ∧ l_reader_inv w rd log ∧ lag_ok (rd_lag rd).

Lemma l_inv_intro w subs rd log :
  l_global w rd log → l_owned w subs → map_Forall (l_sub_inv w rd log) subs →
  l_inv (mkLSystem w subs rd log).
Proof. by intros (? & ? & ? & ?) ? ? _. Qed.

Lemma l_inv_elim w subs rd log :
  rd ≠ LAborted → l_inv (mkLSystem w subs rd log) →
  l_global w rd log ∧ l_owned w subs ∧ map_Forall (l_sub_inv w rd log) subs.
Proof. intros Hab Hi. destruct (Hi Hab) as (? & ? & ? & ? & ? & ?). by split_and!. Qed.

(** A change of the channels and the claim, the recorded history apart. *)
Lemma l_global_frame w w' rd log :
  rs_next_id (sh_state w) ≤ rs_next_id (sh_state w') →
  rs_terminal_event (sh_state w') = rs_terminal_event (sh_state w) →
  sh_active w' = active_id (sh_state w') →
  (∀ id, active_id (sh_state w') = Some id → id < rs_next_id (sh_state w')) →
  (no_replay w → no_replay w') →
  l_global w rd log → l_global w' rd log.
Proof.
  intros Hn Ht Hsh Ha Hrep ((_ & Hids) & Hlog & Hrd & Hlag).
  split_and!; [|by unfold l_log_inv; rewrite Ht| |done].
  - split; [done|]. intros id [Hi|Hi]; [by apply Ha|].
    eapply N.lt_le_trans; [apply Hids; by right|done].
  - unfold l_reader_inv in *. destruct rd; rewrite ?Ht; try done.
    destruct Hrd as (? & ? & ? & ? & Hr). split_and!; auto.
Qed.

Lemma chan_recv_fields (m m' : M) r :
  mpsc_recv m = (r, m') →
  mpsc_contents m = match r with Ready (Some e) => [e] | _ => [] end ++ mpsc_contents m' ∧
  mpsc_rx_open m' = mpsc_rx_open m ∧ mpsc_capacity m' = mpsc_capacity m.
Proof.
  intros Hr. destruct (recv_contents _ _ _ Hr) as [? ?]. split_and!; [done..|].
  pose proof (mpsc_recv_spec m) as Hs. rewrite Hr in Hs. destruct (mpsc_contents m).
  - by injection Hs as _ ->.
  - destruct Hs as [_ Hv]. unfold mpsc_view in Hv. by injection Hv.
Qed.

(** Dropping the receiver closes the channel of its subscription only. *)
Lemma drop_receiver_chans x w :
  let w' := drop_receiver x w in
  sh_state w' = sh_state w ∧ sh_active w' = sh_active w ∧
  (∀ id', contents_of w' id' = contents_of w id' ∧ cap_of w' id' = cap_of w id' ∧
     (id' ≠ sss_id x → rx_of w' id' = rx_of w id')) ∧
  (rx_of w (sss_id x) = sss_live x → rx_of w' (sss_id x) = false).
Proof.
  unfold drop_receiver. destruct (sh_chans w !! sss_id x) as [m|] eqn:Hm.
  2: { split_and!; try done. intros Hr. unfold rx_of in *. by rewrite Hm in *. }
  destruct (sss_live x); [|by split_and!].
  pose proof (mpsc_drop_rx_view m) as Hv. unfold mpsc_view in Hv. injection Hv as Hc Hcap _ Hr.
  split_and!; try done.
  - intros id'. rewrite contents_with_chan, cap_with_chan, rx_with_chan.
    case_decide as Hd; [|done]. subst id'. unfold contents_of, cap_of. rewrite Hm. split_and!; try done.
  - intros _. by rewrite rx_with_chan, decide_True.
Qed.

Lemma recv_late w rd log id s r x w' :
  late s → l_sub_inv w rd log id s → single_next_event (ss_sub s) w = (r, x, w') →
  sh_state w' = sh_state w ∧ sh_active w' = sh_active w ∧
  (∀ id', id' ≠ id → contents_of w' id' = contents_of w id' ∧ rx_of w' id' = rx_of w id' ∧ cap_of w' id' = cap_of w id') ∧
  l_sub_inv w' rd log id (mkSSub x (ss_snapshot s) (ss_start s) (ss_sealed s)
    (ss_seen s ++ match r with Ready (Some e) => [e] | _ => [] end)).
Proof.
  intros Hl [<- Hold Hr Hcp Ha Hst Hlate _]. destruct (Hlate Hl) as (Hterm & Hstart & Hsnap).
  unfold single_next_event. unfold late in Hl. destruct s as [[id rp t live] snap start sealed seen]. cbn in *.
  unfold initial_events in Hsnap. cbn in Hsnap.
  destruct rp as [|e rp].
  2: { intros [= <- <- <-]. split_and!; try done. split; try done.
       intros _. unfold late_inv, initial_events. cbn. split_and!; try done. by rewrite <- Hsnap, <- (assoc_L (++)). }
  destruct t as [t|].
  - intros [= <- <- <-]. destruct (drop_receiver_chans (mkSingle id [] (Some t) live) w) as (Hs & Hact & Hch & Hcl).
    cbn in *. split_and!; try done.
    { intros id' Hne. destruct (Hch id') as (? & ? & Hrx). split_and!; auto. }
    split; cbn; try done; [by rewrite Hs|by apply Hcl|by rewrite (proj1 (proj2 (Hch id)))| |].
    + intros _. unfold late_inv, initial_events. cbn. rewrite Hs. split_and!; try done.
      by rewrite app_nil_r.
    + intros []. by right.
  - destruct Hl as [[? ?]|Hl]; [done|]. subst live. intros [= <- <- <-]. split_and!; try done.
    split; try done.
    + intros _. unfold late_inv, initial_events. cbn. split_and!; try done. by rewrite (app_nil_r seen).
    + intros []. by right.
Qed.

Lemma recv_live w rd log id s r x w' :
  ¬ late s → l_sub_inv w rd log id s → single_next_event (ss_sub s) w = (r, x, w') →
  sh_state w' = sh_state w ∧ sh_active w' = sh_active w ∧
  (∀ id', id' ≠ id → contents_of w' id' = contents_of w id' ∧ rx_of w' id' = rx_of w id' ∧ cap_of w' id' = cap_of w id') ∧
  l_sub_inv w' rd log id (mkSSub x (ss_snapshot s) (ss_start s) (ss_sealed s)
    (ss_seen s ++ match r with Ready (Some e) => [e] | _ => [] end)).
Proof.
  intros Hl [<- Hold Hr Hcp Ha Hst _ Hlive]. specialize (Hlive Hl).
  destruct s as [[id rp t live] snap start sealed seen]. unfold late in Hl. cbn in *.
  assert (t = None ∧ live = true) as [-> ->].
  { split; [destruct t; [|done]; destruct Hl; left; eauto|destruct live; [done|]; destruct Hl; by right]. }
  unfold single_next_event. cbn. destruct rp as [|e rp].
  2: { intros [= <- <- <-]. split_and!; try done. split; try done.
       intros _. cbn. case_decide.
       - destruct Hlive as (from & obs & act & lost & ? & Heq & Hrest). exists from, obs, act, lost. cbn in *.
         split; [done|]. split; [|done]. by rewrite <- Heq, <- (assoc_L (++)).
       - unfold fresh_inv in *. cbn in *. destruct Hlive as (? & ? & Heq & ? & ? & ?). split_and!; try done.
         by rewrite <- Heq, <- (assoc_L (++)). }
  unfold rx_of in Hr. destruct (sh_chans w !! id) as [m|] eqn:Hm; [|done].
  destruct (mpsc_recv m) as [r0 m'] eqn:Hrecv. intros [= <- <- <-].
  destruct (chan_recv_fields _ _ _ Hrecv) as (Hc & Hrx & Hcap).
  assert (contents_of w id = mpsc_contents m) as Hcont by (unfold contents_of; by rewrite Hm).
  split_and!; try done.
  { intros id' Hne. rewrite contents_with_chan, rx_with_chan, cap_with_chan. by rewrite !decide_False. }
  split; cbn; try done.
  - rewrite rx_with_chan, decide_True by done. by rewrite Hrx.
  - rewrite cap_with_chan, decide_True by done. rewrite Hcap, <- Hcp. unfold cap_of. by rewrite Hm.
  - intros _. case_decide.
    + destruct Hlive as (from & obs & act & lost & ? & Heq & ? & ? & ? & ? & ? & Hlen & Hun).
      exists from, obs, act, lost. cbn in *.
      rewrite contents_with_chan, decide_True by done. split_and!; try done.
      * rewrite <- Heq, Hcont, Hc. by rewrite <- (assoc_L (++)).
      * rewrite Hcont, Hc, length_app in Hlen. lia.
      * intros r1 e1 a1 a2 Hrd. destruct (Hun _ _ _ _ Hrd) as [?|Hnil]; [by left|right].
        rewrite Hcont, Hc in Hnil. by apply app_eq_nil in Hnil as [_ ?].
    + unfold fresh_inv in *. cbn in *. destruct Hlive as (? & ? & Heq & Hnil & ? & ?).
      rewrite Hcont, Hc in Hnil. apply app_eq_nil in Hnil as [Hg Hnil].
      rewrite contents_with_chan, decide_True by done. rewrite Hg, app_nil_r. by split_and!.
Qed.

Lemma late_dec s : Decision (late s).
Proof. unfold late. apply _. Qed.

Lemma l_inv_recv w subs rd log id s r x w' :
  l_inv (mkLSystem w subs rd log) → subs !! id = Some s → single_next_event (ss_sub s) w = (r, x, w') →
  l_inv (mkLSystem w' (<[id := mkSSub x (ss_snapshot s) (ss_start s) (ss_sealed s)
    (ss_seen s ++ match r with Ready (Some e) => [e] | _ => [] end)]> subs) rd log).
Proof.
  intros Hinv Hs Hev Hab. destruct (l_inv_elim _ _ _ _ Hab Hinv) as (Hg & Hown & Hsubs). revert Hab.
  pose proof (Hsubs _ _ Hs) as Hsub.
  assert (sh_state w' = sh_state w ∧ sh_active w' = sh_active w ∧
    (∀ id', id' ≠ id → contents_of w' id' = contents_of w id' ∧ rx_of w' id' = rx_of w id' ∧ cap_of w' id' = cap_of w id') ∧
    l_sub_inv w' rd log id (mkSSub x (ss_snapshot s) (ss_start s) (ss_sealed s)
      (ss_seen s ++ match r with Ready (Some e) => [e] | _ => [] end))) as (Hst & Hact & Hother & Hsub').
  { destruct (late_dec s); [by eapply recv_late|by eapply recv_live]. }
  apply l_inv_intro.
  - eapply l_global_frame, Hg; rewrite ?Hst, ?Hact; try done.
    + symmetry. apply Hg.
    + intros id' Hid. apply Hg. by left.
    + unfold no_replay. by rewrite Hst.
  - intros id' Hrx. destruct (decide (id' = id)) as [->|Hne].
    + rewrite lookup_insert_eq. eauto.
    + rewrite lookup_insert_ne by done. apply Hown. destruct (Hother id' Hne) as (_ & Heq & _). congruence.
  - apply map_Forall_insert_others; [done|]. intros id' s' Hne Hs'.
    destruct (Hother id' Hne) as (? & ? & ?). eapply l_sub_frame, Hsubs, Hs'; rewrite ?Hst; try done.
    apply (li_active _ _ _ _ _ (Hsubs _ _ Hs')).
Qed.

Lemma l_inv_subscribe w subs rd log x w' :
  l_inv (mkLSystem w subs rd log) → rd ≠ LAborted → rs_next_id (sh_state w) + 1 < word_modulus →
  single_subscribe name retention buffered w = Done (Ok (x, w')) →
  l_inv (mkLSystem w' (<[sss_id x := mkSSub x (initial_events x) (length log)
                                      (rs_sealed (sh_state w)) []]> subs) rd log).
Proof.
  intros Hinv Hab Hnext. destruct (l_inv_elim _ _ _ _ Hab Hinv) as (Hg & Hown & Hsubs).
  unfold single_subscribe. destruct (mpsc_channel buffered) as [chan|] eqn:Hchan; [|done].
  cbn [mbind outcome_bind]. case_bool_decide as Hact; [done|].
  assert (active_id (sh_state w) = None) as Hnone by (destruct (active_id (sh_state w)); [by destruct Hact|done]).
  set (n := rs_next_id (sh_state w)) in *. unfold ReplayState.attach_subscriber. fold n.
  rewrite wrapping_add_small by done. cbv zeta beta iota. intros [= <- <-].
  set (replay := if _ : bool then _ else _). set (w' := mkConfigured _ _ _ _ _). cbn [sss_id].
  pose proof Hg as ((Hsh & Hids) & _ & Hrd & _).
  assert (contents_of w' n = [] ∧ rx_of w' n = true ∧ cap_of w' n = buffered) as (Hcn & Hrn & Hkn).
  { unfold contents_of, rx_of, cap_of. simpl. rewrite lookup_insert_eq.
    apply mpsc_channel_done in Hchan as [_ Hv]. unfold mpsc_view in Hv. by injection Hv. }
  assert (∀ id, id ≠ n → contents_of w' id = contents_of w id ∧ rx_of w' id = rx_of w id ∧ cap_of w' id = cap_of w id) as Hother.
  { intros id Hne. unfold contents_of, rx_of, cap_of. simpl. by rewrite lookup_insert_ne. }
  apply l_inv_intro.
  - eapply l_global_frame, Hg; simpl; try done; [lia|intros id [= <-]; lia].
  - intros id Hrx. destruct (decide (id = n)) as [->|Hne]; [rewrite lookup_insert_eq; eauto|].
    rewrite lookup_insert_ne by done. apply Hown. destruct (Hother id Hne) as (_ & ? & _). congruence.
  - apply map_Forall_insert_others.
    + split; simpl; try done; [lia|..].
      * intros Hl. unfold late_inv. simpl. split_and!; try done. unfold late in Hl. simpl in Hl.
        by destruct Hl as [?|?].
      * intros Hl. rewrite decide_False by (intros Hc; assert (n < n) by (apply Hids; auto); lia).
        unfold fresh_inv, initial_events. simpl.
        assert (rs_terminal_event (sh_state w) = None) as Ht.
        { destruct (rs_terminal_event (sh_state w)) as [t|]; [|done]. destruct Hl. left. simpl. eauto. }
        rewrite Ht. simpl. rewrite (app_nil_r replay). split_and!; try done.
        { intros Hc. assert (n < n) by (apply Hids; auto). lia. }
        intros r e retried ->. destruct Hrd as (_ & _ & _ & _ & Hno). specialize (Hno eq_refl). subst replay.
        destruct Hno as [-> |[-> |He]]; [by rewrite orb_true_r|done|].
        unfold ReplayState.snapshot_events. rewrite He. by destruct (_ || _).
    + intros id s Hne Hs. destruct (Hother id Hne) as (? & ? & ?).
      eapply l_sub_frame, Hsubs, Hs; try done; simpl; [lia|].
      intros Hl. pose proof (li_active _ _ _ _ _ (Hsubs _ _ Hs) Hl). congruence.
Qed.

(** Clearing the claim of a subscriber that is gone. *)
Lemma l_inv_drop w subs rd log id s :
  l_inv (mkLSystem w subs rd log) → subs !! id = Some s →
  l_inv (mkLSystem (single_drop (ss_sub s) w) (delete id subs) rd log).
Proof.
  intros Hinv Hs Hab. destruct (l_inv_elim _ _ _ _ Hab Hinv) as (Hg & Hown & Hsubs). revert Hab.
  pose proof (Hsubs _ _ Hs) as [Hid _ Hrx _ _ _ _ _]. unfold single_drop. rewrite <- Hid in Hrx.
  destruct (drop_receiver_chans (ss_sub s) w) as (Hst & Hact & Hch & Hcl).
  set (w1 := drop_receiver (ss_sub s) w) in *. rewrite Hid in *. specialize (Hcl Hrx).
  destruct (clear_current_fields w1 id) as (_ & Hst' & Hsh'). pose proof (clear_current_same w1 id) as Hch'.
  set (w2 := clear_active_if_current w1 id) in *. rewrite Hst in *.
  pose proof Hg as ((Hsh & Hids) & _). rewrite Hact in Hsh'. specialize (Hsh' Hsh).
  apply l_inv_intro.
  - eapply l_global_frame, Hg; rewrite ?Hst'; try done.
    + by rewrite Hsh', Hst'.
    + simpl. intros id'. case_decide; [done|]. intros Hid'. apply Hids. by left.
    + unfold no_replay. by rewrite Hst'.
  - intros id' Hrx'. destruct (Hch' id') as (_ & Hr2 & _). destruct (decide (id' = id)) as [->|Hne]; [congruence|].
    rewrite lookup_delete_ne by done. apply Hown. destruct (Hch id') as (_ & _ & Hr1). rewrite <- Hr1, <- Hr2; done.
  - apply map_Forall_delete_others. intros id' s' Hne Hs'.
    destruct (Hch' id') as (? & ? & ?). destruct (Hch id') as (? & ? & Hr1). specialize (Hr1 Hne).
    eapply l_sub_frame, Hsubs, Hs'; rewrite ?Hst'; try congruence; try done.
    simpl. intros Hl. rewrite (li_active _ _ _ _ _ (Hsubs _ _ Hs') Hl). rewrite decide_False; [done|congruence].
Qed.

Lemma l_inv_seal w subs rd log st :
  l_inv (mkLSystem w subs rd log) → ReplayState.seal_replay (sh_state w) retention = Done st →
  l_inv (mkLSystem (with_state w st) subs rd log).
Proof.
  intros Hinv Hseal Hab. destruct (l_inv_elim _ _ _ _ Hab Hinv) as (Hg & Hown & Hsubs). revert Hab.
  apply trim_events_only in Hseal as (evs & n & b & ->). pose proof Hg as ((Hsh & Hids) & _).
  apply l_inv_intro.
  - eapply l_global_frame, Hg; simpl; try done; [intros id Hid; apply Hids; by left|].
    intros _. by right; left.
  - done.
  - intros id s Hs. eapply l_sub_frame, Hsubs, Hs; try done. apply (li_active _ _ _ _ _ (Hsubs _ _ Hs)).
Qed.

Lemma l_inv_release w subs rd log id m :
  l_inv (mkLSystem w subs rd log) → sh_chans w !! id = Some m →
  l_inv (mkLSystem (with_chan w id (mpsc_drop_tx m)) subs rd log).
Proof.
  intros Hinv Hm Hab. destruct (l_inv_elim _ _ _ _ Hab Hinv) as (Hg & Hown & Hsubs). revert Hab.
  pose proof (mpsc_drop_tx_view m) as Hv. unfold mpsc_view in Hv. injection Hv as Hc Hcap _ Hr.
  assert (same_chans w (with_chan w id (mpsc_drop_tx m))) as Hsame.
  { intros id'. rewrite contents_with_chan, rx_with_chan, cap_with_chan. case_decide as Hd; [|done].
    subst id'. unfold contents_of, rx_of, cap_of. rewrite Hm. done. }
  pose proof Hg as ((Hsh & Hids) & _). apply l_inv_intro.
  - eapply l_global_frame, Hg; simpl; try done. intros id' Hid. apply Hids. by left.
  - intros id' Hrx. apply Hown. destruct (Hsame id') as (_ & ? & _). congruence.
  - intros id' s Hs. destruct (Hsame id') as (? & ? & ?).
    eapply l_sub_frame, Hsubs, Hs; try done. apply (li_active _ _ _ _ _ (Hsubs _ _ Hs)).
Qed.

(** ** The reader *)

Lemma observe_sid l a : subscriber_id (observe_active l a) = a.
Proof. unfold observe_active. by case_bool_decide. Qed.

Lemma observe_gap l a :
  gap_pending (observe_active l a) = true ↔ gap_pending l = true ∧ subscriber_id l = a.
Proof. unfold observe_active. case_bool_decide; simpl; split; tauto || done || by intros [_ ?]. Qed.

Lemma observe_lag_ok l a : lag_ok l → lag_ok (observe_active l a).
Proof. unfold lag_ok. rewrite observe_gap, observe_sid. intros Hl [? <-]. auto. Qed.

(** The frame of a step of the reader for one subscription. *)
Lemma l_sub_next w w' rd rd' log l id s :
  l_sub_inv w rd log id s → rx_of w' id = rx_of w id → cap_of w' id = cap_of w id →
  rs_next_id (sh_state w') = rs_next_id (sh_state w) →
  (active_id (sh_state w) = Some id → active_id (sh_state w') = Some id) →
  (late s → l = [] ∧ is_Some (rs_terminal_event (sh_state w'))) →
  (¬ late s → if decide (rd_cached rd' = Some id)
     then tracked_inv w' rd' (log ++ l) s else fresh_inv w' rd' (log ++ l) s) →
  l_sub_inv w' rd' (log ++ l) id s.
Proof.
  intros [<- Hold Hr Hcp Ha Hst Hlate Hlive] Hrx Hcap Hn Hact Hl Hnl.
  split; try done; [lia|congruence|congruence|auto|rewrite length_app; lia|].
  intros Hs. destruct (Hl Hs) as [-> Ht]. destruct (Hlate Hs) as (_ & ? & ?).
  rewrite app_nil_r. by split_and!.
Qed.

(** While the stream runs, a subscription is live and holds the claim. *)
Lemma running_sub w rd log id s :
  rs_terminal_event (sh_state w) = None → active_id (sh_state w) = sh_active w → l_sub_inv w rd log id s →
  ¬ late s ∧ rx_of w id = true ∧ sh_active w = Some id ∧ sss_id (ss_sub s) = id.
Proof.
  intros Ht Hsh [Hid Hold Hr Hcp Ha Hst Hlate Hlive].
  assert (¬ late s) as Hn by (intros Hl; destruct (Hlate Hl) as ([? ?] & _); congruence).
  assert (sss_live (ss_sub s) = true) as Hl.
  { destruct (sss_live (ss_sub s)) eqn:E; [done|]. destruct Hn. by right. }
  split_and!; [done|congruence|rewrite <- Hsh; auto|done].
Qed.

(** The reader notices a subscription. *)
Lemma fresh_tracked w w' rd rd' log s :
  fresh_inv w rd log s → contents_of w' (sss_id (ss_sub s)) = [] → rd_pending rd' = [] →
  ¬ rd_gap rd' (sss_id (ss_sub s)) → tracked_inv w' rd' log s.
Proof.
  intros (_ & Hst & Hsn & Hc & _) Hc' Hp Hg. exists (ss_start s), [], [], [].
  rewrite Hc', Hp, Hst, drop_all, !app_nil_r. split_and!; try done; [by left|constructor|constructor|by right].
Qed.

Lemma tracked_same w w' rd rd' log s :
  let id := sss_id (ss_sub s) in
  tracked_inv w rd log s → contents_of w' id = contents_of w id → rd_pending rd' = rd_pending rd →
  (rd_gap rd' id ↔ rd_gap rd id) → (∀ r e rec ret, rd' ≠ LSending r e rec ret) → tracked_inv w' rd' log s.
Proof.
  intros id (from & obs & act & lost & Hf & Heq & Hd & Hex & Hnt & Hg & Hexact & Hlen & _) Hc Hp Hg' Hns.
  exists from, obs, act, lost. fold id in Heq |- *. rewrite Hc, Hp, Hg'. split_and!; try done.
  intros r e rec ret ->. by destruct (Hns r e rec ret).
Qed.

Lemma fresh_same w w' rd rd' log s :
  let id := sss_id (ss_sub s) in
  fresh_inv w rd log s → contents_of w' id = contents_of w id →
  rs_terminal_event (sh_state w') = None → subscriber_id (rd_lag rd') ≠ Some id →
  (∀ r e ret, rd' = LSending r e false ret → ss_snapshot s = []) → fresh_inv w' rd' log s.
Proof. intros id (? & ? & ? & Hc & _ & _) Hc' Ht Hl Hs. unfold fresh_inv. fold id. rewrite Hc'. by split_and!. Qed.

(** A gap arrives for a subscription that lost chunks. *)
Lemma tracked_gap w w' rd rd' log s :
  let id := sss_id (ss_sub s) in
  tracked_inv w rd log s → rd_gap rd id → contents_of w' id = contents_of w id ++ [Gap] →
  rd_pending rd' = rd_pending rd → ¬ rd_gap rd' id → (∀ r e rec ret, rd' ≠ LSending r e rec ret) →
  tracked_inv w' rd' log s.
Proof.
  intros id (from & obs & act & lost & Hf & Heq & Hd & Hex & Hnt & Hg & Hexact & Hlen & _) Hgap Hc Hp Hg' Hns.
  pose proof (proj2 Hg Hgap) as Hne. exists from, (obs ++ [Gap]), (act ++ lost), []. fold id in Heq |- *.
  rewrite Hc, Hp. split_and!; try done.
  - rewrite !(assoc_L (++)) in *. by rewrite Heq.
  - by rewrite <- (assoc_L (++)).
  - apply explains_app; [done|]. rewrite <- (app_nil_r lost). by apply ex_gap; [..|constructor].
  - constructor.
  - intros Hb. destruct (Hexact Hb). done.
  - rewrite !length_app. fold id in Hlen. simpl. lia.
  - intros r e rec ret ->. by destruct (Hns r e rec ret).
Qed.

Lemma l_inv_refresh w subs r log :
  l_inv (mkLSystem w subs (LReading r) log) → be_cached r = None →
  l_inv (mkLSystem w subs (LReading (lossy_refresh r w)) log).
Proof.
  intros Hinv Hc. destruct (Hinv ltac:(done))
    as ((Hsh & Hids) & Hown & Hlog & (Ht & Hbuf) & Hlag & Hsubs).
  apply l_inv_intro; [|done|].
  - split_and!; [split; [done|]|done|done|by apply observe_lag_ok]. simpl. rewrite observe_sid, <- Hsh.
    intros id [Hid|[Hid|Hid]]; apply Hids; by left.
  - intros id s Hs. pose proof (Hsubs _ _ Hs) as Hsub. destruct (running_sub _ _ _ _ _ Ht Hsh Hsub) as (Hn & _ & Ha & Hid).
    rewrite <- (app_nil_r log). eapply l_sub_next; try done. intros _. rewrite app_nil_r. simpl.
    rewrite decide_True by done. pose proof (li_live _ _ _ _ _ Hsub Hn) as Hf. simpl in Hf.
    rewrite Hc, decide_False in Hf by done. pose proof Hf as (_ & _ & _ & Hcn & Hsid & _). rewrite Hid in *.
    apply (fresh_tracked w w (LReading r)); rewrite ?Hid; try done. unfold rd_gap. simpl. rewrite Ha, observe_gap.
    by intros [[_ ?] _].
Qed.

(** What [best_effort_read] does to the cached subscriber and the lag. *)
Lemma read_fields buf r w r' w' :
  best_effort_read buf r w = (r', w') →
  be_buf r' = be_buf r ++ buf ∧ sh_state w' = sh_state w ∧ sh_active w' = sh_active w ∧ sh_chans w' = sh_chans w ∧
  ((is_Some (be_cached r) ∧ be_cached r' = be_cached r ∧ be_lag r' = be_lag r) ∨
   (be_cached r = None ∧ be_cached r' = sh_active w ∧ be_lag r' = observe_active (be_lag r) (sh_active w))).
Proof.
  unfold best_effort_read. destruct (be_cached r) as [c|]; intros [= <- <-]; simpl; split_and!; eauto.
Qed.

Lemma l_inv_read w subs r log b buf r' w' :
  l_inv (mkLSystem w subs (LReading r) log) → best_effort_read (b :: buf) r w = (r', w') →
  l_inv (mkLSystem w' subs (LLoop r') log).
Proof.
  intros Hinv (Hb & Hst & Hact & Hch & Hcase)%read_fields.
  destruct (Hinv ltac:(done))
    as ((Hsh & Hids) & Hown & Hlog & (Ht & Hbuf) & Hlag & Hsubs).
  pose proof (same_chans_eq _ _ Hch) as Hsame. apply l_inv_intro.
  - split_and!.
    + split; [by rewrite Hst, Hact|]. rewrite Hst. simpl.
      destruct Hcase as [(_ & -> & ->)|(_ & -> & ->)]; [done|]. rewrite observe_sid, <- Hsh.
      intros id [Hid|[Hid|Hid]]; apply Hids; by left.
    + unfold l_log_inv. by rewrite Hst.
    + simpl. rewrite Hst, Hb, Hbuf. done.
    + simpl. destruct Hcase as [(_ & _ & ->)|(_ & _ & ->)]; [done|by apply observe_lag_ok].
  - intros id Hrx. apply Hown. by destruct (Hsame id) as (_ & <- & _).
  - intros id s Hs. pose proof (Hsubs _ _ Hs) as Hsub. destruct (running_sub _ _ _ _ _ Ht Hsh Hsub) as (Hn & _ & Ha & Hid).
    destruct (Hsame id) as (Hcc & ? & ?). rewrite <- (app_nil_r log).
    eapply l_sub_next; try done; rewrite ?Hst; try done. intros _. rewrite app_nil_r.
    pose proof (li_live _ _ _ _ _ Hsub Hn) as Hl. simpl in *.
    destruct Hcase as [(_ & Hcd & Hlg)|(Hnone & Hcd & Hlg)].
    + rewrite Hcd. case_decide.
      * eapply tracked_same; [exact Hl|by rewrite Hid|done| |done]. unfold rd_gap. simpl. by rewrite Hlg.
      * pose proof Hl as (_ & _ & _ & _ & Hsid & _). eapply fresh_same; [exact Hl|by rewrite Hid|by rewrite Hst| |done].
        simpl. by rewrite Hlg.
    + rewrite Hcd, decide_True by done. rewrite Hnone, decide_False in Hl by done.
      pose proof Hl as (_ & _ & _ & Hcn & Hsid & _). rewrite Hid in *.
      eapply fresh_tracked; [exact Hl|by rewrite Hid, Hcc|done|]. rewrite Hid. unfold rd_gap. simpl. rewrite Hlg, Ha, observe_gap.
      by intros [[_ ?] _].
Qed.


(** A step of the reader: what it owes to a subscription that is not late. *)
Definition l_part w rd (log : list StreamEvent) (id : SubscriberId) s : Prop :=
  if decide (rd_cached rd = Some id) then tracked_inv w rd log s else fresh_inv w rd log s.

Lemma l_inv_step w w' subs rd rd' log l :
  l_inv (mkLSystem w subs rd log) → rd ≠ LAborted →
  (∀ id, rx_of w' id = rx_of w id ∧ cap_of w' id = cap_of w id) →
  rs_next_id (sh_state w') = rs_next_id (sh_state w) →
  (∀ id, rx_of w id = true → active_id (sh_state w) = Some id → active_id (sh_state w') = Some id) →
  (rs_terminal_event (sh_state w) = None ∨
     (l = [] ∧ rs_terminal_event (sh_state w') = rs_terminal_event (sh_state w))) →
  l_global w' rd' (log ++ l) →
  (∀ id s, subs !! id = Some s → sss_id (ss_sub s) = id → rx_of w id = true → sh_active w = Some id →
     cap_of w id = buffered → (ss_start s ≤ length log)%nat →
     l_part w rd log id s → l_part w' rd' (log ++ l) id s) →
  l_inv (mkLSystem w' subs rd' (log ++ l)).
Proof.
  intros Hinv Hab Hch Hn Hact Hterm Hg Hpart.
  destruct (Hinv Hab) as ((Hsh & _) & Hown & _ & _ & _ & Hsubs). apply l_inv_intro; [done|..].
  - intros id Hrx. apply Hown. by destruct (Hch id) as [<- _].
  - intros id s Hs. pose proof (Hsubs _ _ Hs) as Hsub. destruct (Hch id) as [Hrx Hcap].
    assert (¬ late s → sss_live (ss_sub s) = true) as Hlive.
    { intros Hl. destruct (sss_live (ss_sub s)) eqn:E; [done|]. destruct Hl. by right. }
    destruct Hsub as [Hid Hold Hr Hcp Ha Hst Hlate Hpt].
    split; try done; [lia|congruence|congruence| |rewrite length_app; lia|..].
    + intros Hl. apply Hact; [congruence|auto].
    + intros Hl. destruct (Hlate Hl) as ([t Ht] & ? & ?). destruct Hterm as [?|[-> Heq]]; [congruence|].
      rewrite app_nil_r. split_and!; [rewrite Heq; eauto|done..].
    + intros Hl. apply Hpart; [done..|rewrite Hr; auto|rewrite <- Hsh; auto|done|done|by apply Hpt].
Qed.

(** The subscriber a channel belongs to, while the stream runs. *)
Lemma l_owner w subs rd log id :
  l_inv (mkLSystem w subs rd log) → rd ≠ LAborted → rs_terminal_event (sh_state w) = None →
  rx_of w id = true → sh_active w = Some id.
Proof.
  intros Hinv Hab Ht Hrx. destruct (Hinv Hab) as ((Hsh & _) & Hown & _ & _ & _ & Hsubs).
  destruct (Hown _ Hrx) as [s Hs]. by destruct (running_sub _ _ _ _ _ Ht Hsh (Hsubs _ _ Hs)) as (_ & _ & ? & _).
Qed.

(** The reader finds the channel of its subscriber closed. *)
Lemma closed_effect w w1 id e :
  active_id (sh_state w) = sh_active w → chan_try_send w id e = (w1, Closed) →
  let w2 := clear_active_if_current w1 id in
  rx_of w id = false ∧ same_chans w w2 ∧
  sh_state w2 = set_active_id (sh_state w) (sh_active w2) ∧
  sh_active w2 = (if decide (sh_active w = Some id) then None else sh_active w).
Proof.
  intros Hsh (Hst & Hact & Hrx & Hsame)%try_send_cases w2.
  destruct (clear_current_fields w1 id) as (_ & Hst2 & Hsh2). fold w2 in Hst2, Hsh2.
  rewrite Hst, Hact in Hsh2. specialize (Hsh2 Hsh). rewrite Hst, Hsh in Hst2.
  assert (sh_active w2 = (if decide (sh_active w = Some id) then None else sh_active w)) as Heq.
  { by rewrite Hsh2, Hst2. }
  split_and!; [done| |by rewrite Heq|done].
  intros id'. destruct (clear_current_same w1 id id') as (? & ? & ?), (Hsame id') as (? & ? & ?).
  split_and!; subst w2; congruence.
Qed.

(** Chunks are lost for a subscription; its channel is full. *)
Lemma tracked_lost w w' rd rd' log l s :
  let id := sss_id (ss_sub s) in
  tracked_inv w rd log s → (ss_start s ≤ length log)%nat → contents_of w' id = contents_of w id → buffered ≤ len (contents_of w id) →
  nonterminal (rd_pending rd ++ l) → (rd_gap rd id ∨ rd_pending rd ++ l ≠ []) →
  rd_pending rd' = [] → rd_gap rd' id → (∀ r e rec ret, rd' ≠ LSending r e rec ret) →
  tracked_inv w' rd' (log ++ l) s.
Proof.
  intros id (from & obs & act & lost & Hf & Heq & Hd & Hex & Hnt & Hg & Hexact & Hlen & _) Hst Hc Hfull Hnl Hsome Hp Hg' Hns.
  exists from, obs, act, (lost ++ rd_pending rd ++ l). fold id in Heq, Hg, Hlen |- *. rewrite Hc, Hp, app_nil_r.
  rewrite drop_app_le by lia. rewrite Hd. split_and!; try done.
  - by rewrite <- !(assoc_L (++)).
  - by apply Forall_app.
  - split; [done|]. intros _ Hnil. apply app_eq_nil in Hnil as [Hl Hnil].
    destruct Hsome as [Hr|]; [by apply Hg in Hr|done].
  - unfold len in *. intros Hb. rewrite Hd in Hexact. rewrite !length_app in Hb. destruct Hexact as [-> ->].
    { rewrite !length_app. lia. }
    destruct Hsome as [Hr|Hne]; [by apply Hg in Hr|].
    assert (length (rd_pending rd ++ l) ≠ 0%nat) by (by destruct (rd_pending rd ++ l)).
    rewrite length_app in *. simpl in *. lia.
  - intros r e rec ret ->. by destruct (Hns r e rec ret).
Qed.

(** The reader sends an event to its subscriber. *)
Lemma l_inv_sent w subs rd rd' log id0 e w' :
  l_inv (mkLSystem w subs rd log) → rd_cached rd = Some id0 → chan_try_send w id0 e = (w', Sent) →
  rd_cached rd' = Some id0 → (∀ id, subscriber_id (rd_lag rd') = Some id → id < rs_next_id (sh_state w)) →
  l_reader_inv w' rd' log → lag_ok (rd_lag rd') →
  (∀ s, sss_id (ss_sub s) = id0 → tracked_inv w rd log s → contents_of w' id0 = contents_of w id0 ++ [e] →
     tracked_inv w' rd' log s) →
  l_inv (mkLSystem w' subs rd' log).
Proof.
  intros Hinv Hc (Hst & Hact & Hrx & Hcont & Hrx' & Hcap' & Hother)%try_send_cases Hc' Hb Hrd' Hlag' Htr.
  assert (rd ≠ LAborted) as Hab by by intros ->.
  destruct (Hinv Hab) as ((Hsh & Hids) & _ & Hlog & _).
  rewrite <- (app_nil_r log). eapply l_inv_step; try done; rewrite ?app_nil_r, ?Hst; auto.
  - intros id. destruct (decide (id = id0)) as [->|Hne]; [split; congruence|]. by destruct (Hother id Hne) as (_ & ? & ?).
  - split_and!; [split; [congruence|]|unfold l_log_inv; by rewrite Hst|done..].
    rewrite Hst. intros id [?|[Hi|?]]; auto. apply Hids. right; left. congruence.
  - intros id s Hs Hid _ Ha Hcap Hss. unfold l_part. rewrite Hc, Hc'. case_decide as Hd; [|intros Hf; exfalso].
    + injection Hd as ->. auto.
    + assert (sh_active w = Some id0); [|congruence]. eapply l_owner; try done. apply Hf.
Qed.

(** The reader finds its subscriber gone, and takes the current one. *)
Lemma l_inv_closed w subs rd rd' log id0 e w1 :
  let w' := clear_active_if_current w1 id0 in
  l_inv (mkLSystem w subs rd log) → rd_cached rd = Some id0 → chan_try_send w id0 e = (w1, Closed) →
  rd_cached rd' = sh_active w' → (∀ id, subscriber_id (rd_lag rd') = Some id → id < rs_next_id (sh_state w)) →
  (same_chans w w' → sh_state w' = set_active_id (sh_state w) (sh_active w') → sh_active w' ≠ Some id0 →
     l_reader_inv w' rd' log) → lag_ok (rd_lag rd') →
  (∀ s id, sss_id (ss_sub s) = id → id ≠ id0 → fresh_inv w rd log s → sh_active w' = Some id →
     contents_of w' id = [] → tracked_inv w' rd' log s) →
  l_inv (mkLSystem w' subs rd' log).
Proof.
  intros w' Hinv Hc Hsend Hc' Hb Hrd' Hlag' Hfr.
  assert (rd ≠ LAborted) as Hab by by intros ->.
  destruct (Hinv Hab) as ((Hsh & Hids) & _ & Hlog & _).
  apply closed_effect in Hsend as (Hrx & Hsame & Hst & Hact); [|done]. fold w' in Hsame, Hst, Hact.
  assert (∀ id, sh_active w' = Some id → sh_active w = Some id ∧ id ≠ id0) as Hact'.
  { intros id. rewrite Hact. case_decide; [done|]. by intros ?; split; [|congruence]. }
  rewrite <- (app_nil_r log). eapply l_inv_step; try done; rewrite ?app_nil_r, ?Hst; simpl; auto.
  - intros id. by destruct (Hsame id) as (_ & ? & ?).
  - intros id Hrx' Hid. rewrite Hact, decide_False; congruence.
  - split_and!; [split; [by rewrite Hst|]|unfold l_log_inv; by rewrite Hst| |done].
    + rewrite Hst, Hc'. simpl. intros id [Hi|[Hi|?]]; [..|auto]; apply Hids; left; destruct (Hact' _ Hi); congruence.
    + apply Hrd'; [done..|]. intros Hi. by destruct (Hact' _ Hi).
  - intros id s Hs Hid Hrx' Ha Hcap Hss. unfold l_part. rewrite Hc, Hc', decide_False by congruence.
    assert (sh_active w' = Some id) as Hw' by (rewrite Hact, decide_False; congruence).
    rewrite decide_True by done. intros Hf. apply (Hfr s id); try done; [congruence|].
    pose proof Hf as (_ & _ & _ & Hcn & _). rewrite Hid in Hcn. by destruct (Hsame id) as [-> _].
Qed.

(** A subscriber whose channel is full loses chunks. *)
Lemma l_inv_full w subs rd rd' log l id0 e w' :
  l_inv (mkLSystem w subs rd log) → rs_terminal_event (sh_state w) = None →
  rd_cached rd = Some id0 → chan_try_send w id0 e = (w', Full) →
  rd_cached rd' = Some id0 → (∀ id, subscriber_id (rd_lag rd') = Some id → id < rs_next_id (sh_state w)) →
  l_reader_inv w' rd' (log ++ l) → lag_ok (rd_lag rd') → nonterminal l →
  (∀ s, sss_id (ss_sub s) = id0 → cap_of w id0 = buffered → (ss_start s ≤ length log)%nat →
     tracked_inv w rd log s → contents_of w' id0 = contents_of w id0 → buffered ≤ len (contents_of w id0) →
     tracked_inv w' rd' (log ++ l) s) →
  l_inv (mkLSystem w' subs rd' (log ++ l)).
Proof.
  intros Hinv Ht Hc (Hst & Hact & Hrx & Hlen & Hsame)%try_send_cases Hc' Hb Hrd' Hlag' Hl Htr.
  assert (rd ≠ LAborted) as Hab by by intros ->.
  destruct (Hinv Hab) as ((Hsh & Hids) & _ & Hlog & _). unfold l_log_inv in Hlog. rewrite Ht in Hlog.
  eapply l_inv_step; try done; rewrite ?Hst; auto.
  - intros id. by destruct (Hsame id) as (_ & ? & ?).
  - split_and!; [split; [congruence|]|unfold l_log_inv; rewrite Hst, Ht; by apply Forall_app|done..].
    rewrite Hst. intros id [?|[Hi|?]]; auto. apply Hids. right; left. congruence.
  - intros id s Hs Hid _ Ha Hcap Hss. pose proof (l_owner _ _ _ _ _ Hinv Hab Ht Hrx) as Hown0.
    assert (id = id0) as -> by congruence. unfold l_part. rewrite Hc, Hc', !decide_True by done.
    intros Hf. apply Htr; [done..|by destruct (Hsame id0)|lia].
Qed.

Lemma l_inv_gap w subs r log rd' l w' :
  l_inv (mkLSystem w subs (LLoop r) log) → lossy_gap chunk_size r w = (rd', l, w') →
  l_inv (mkLSystem w' subs rd' (log ++ l)).
Proof.
  intros Hinv. destruct (Hinv ltac:(done)) as ((Hsh & Hids) & Hown & Hlog & (Ht & Hbuf) & Hlag & _).
  simpl in Hids, Hlag. unfold l_log_inv in Hlog. rewrite Ht in Hlog.
  set (lag := observe_active (be_lag r) (be_cached r)).
  assert (lag_ok lag) as Hlag' by by apply observe_lag_ok.
  unfold lossy_gap. fold lag. destruct (gap_pending lag) eqn:Hp.
  2: { (* no gap is owed *)
    intros [= <- <- <-]. eapply l_inv_step; try done; auto.
    - rewrite app_nil_r. split_and!; [split; [done|]|unfold l_log_inv; by rewrite Ht| |done].
      + simpl. subst lag. rewrite observe_sid. intros id [?|[?|?]]; auto.
      + simpl. split_and!; try done. apply observe_sid.
    - intros id s Hs Hid Hrx Ha Hcap Hss. unfold l_part. simpl. rewrite app_nil_r. case_decide as Hc; intros Hl.
      + eapply tracked_same; [exact Hl|done..| |done]. rewrite Hid. unfold rd_gap. simpl.
        rewrite <- Hc, <- (observe_gap (be_lag r)). fold lag. rewrite Hp. by split; [intros []|].
      + eapply fresh_same; [exact Hl|done..| |done]. rewrite Hid. simpl. subst lag. by rewrite observe_sid. }
  pose proof Hp as [Hp' Hsid]%observe_gap. assert (lag = be_lag r) as ->.
  { subst lag. unfold observe_active. by rewrite bool_decide_true. }
  destruct (be_cached r) as [id0|] eqn:Hc0; [|by destruct (Hlag Hp')]. cbn [try_send_loop].
  assert (∀ id, subscriber_id (be_lag r) = Some id → id < rs_next_id (sh_state w)) as Hb by auto.
  assert (rd_gap (LLoop r) id0) as Hgap by (split; simpl; congruence).
  destruct (chan_try_send w id0 Gap) as [w1 []] eqn:Hsend; intros [= <- <- <-].
  - rewrite app_nil_r. pose proof (try_send_cases _ _ _ _ _ Hsend) as (Hst & _).
    eapply l_inv_sent; try done; [simpl; by rewrite Hst|]. intros s Hid Hl Hcont.
    eapply tracked_gap; [exact Hl|..]; rewrite ?Hid; try done. unfold rd_gap. simpl. by intros [].
  - pose proof (try_send_cases _ _ _ _ _ Hsend) as (Hst & _).
    eapply l_inv_full; try done; [simpl; by rewrite Hst|intros _; simpl; congruence|apply Forall_fmap, Forall_true; done|].
    intros s Hid Hcap Hss Hl Hcont Hfull.
    eapply tracked_lost; [exact Hl|done|..]; rewrite ?Hid; try done; [apply Forall_fmap, Forall_true; done|by left].
  - rewrite app_nil_r. eapply l_inv_closed; try done; simpl.
    + intros id. rewrite observe_sid. intros Hi.
      pose proof (closed_effect _ _ _ _ Hsh Hsend) as (_ & _ & _ & Hact). rewrite Hact in Hi. apply Hids. left.
      case_decide; congruence.
    + intros _ Hst Hne. rewrite Hst. simpl. split_and!; try done; [|apply observe_sid].
      apply not_true_iff_false. rewrite observe_gap. intros [_ Heq]. congruence.
    + by apply observe_lag_ok.
    + intros s id Hid Hne Hf Hact Hcn. eapply fresh_tracked; [exact Hf|..]; rewrite ?Hid; try done.
      unfold rd_gap. simpl. rewrite observe_sid, observe_gap. intros [[_ ?] _]. congruence.
Qed.

(** An event of the reader becomes the one under way. *)
Lemma tracked_record w w' rd rd' log e s :
  let id := sss_id (ss_sub s) in
  tracked_inv w rd log s → (ss_start s ≤ length log)%nat → contents_of w' id = contents_of w id →
  rd_pending rd = [] → rd_pending rd' = [e] → (rd_gap rd' id ↔ rd_gap rd id) →
  (∀ r e rec ret, rd' = LSending r e rec ret → subscriber_id (be_lag r) = Some id) →
  tracked_inv w' rd' (log ++ [e]) s.
Proof.
  intros id (from & obs & act & lost & Hf & Heq & Hd & Hex & Hnt & Hg & Hexact & Hlen & _) Hst Hc Hp Hp' Hg' Hs.
  exists from, obs, act, lost. fold id in Heq, Hg, Hlen |- *. rewrite Hc, Hp', Hg'.
  rewrite drop_app_le by lia. rewrite Hp, app_nil_r in Hd. split_and!; try done.
  - by rewrite Hd, <- !(assoc_L (++)).
  - rewrite len_app. intros Hb. apply Hexact. lia.
  - intros r e' rec ret Heq'. left. by eapply Hs.
Qed.

Lemma fresh_record w w' rd rd' log e s :
  let id := sss_id (ss_sub s) in
  fresh_inv w rd log s → contents_of w' id = contents_of w id → rd_pending rd' = [e] → ¬ rd_gap rd' id →
  tracked_inv w' rd' (log ++ [e]) s.
Proof.
  intros id (_ & Hst & Hsn & Hc & _) Hc' Hp Hg. fold id in Hc. exists (ss_start s), [], [], []. fold id.
  rewrite Hc', Hc, Hp, Hst, drop_app_length, !app_nil_r. split_and!; try done; [by left|constructor..|by right].
Qed.

(** The event under way arrives. *)
Lemma tracked_sent w w' rd rd' log e s :
  let id := sss_id (ss_sub s) in
  tracked_inv w rd log s → contents_of w' id = contents_of w id ++ [e] →
  rd_pending rd = [e] → rd_pending rd' = [] → ¬ rd_gap rd id → ¬ rd_gap rd' id →
  (∀ r e rec ret, rd' ≠ LSending r e rec ret) → tracked_inv w' rd' log s.
Proof.
  intros id (from & obs & act & lost & Hf & Heq & Hd & Hex & Hnt & Hg & Hexact & Hlen & _) Hc Hp Hp' Hng Hg' Hns.
  assert (lost = []) as -> by (destruct lost; [done|]; by destruct Hng; apply Hg).
  exists from, (obs ++ [e]), (act ++ [e]), []. fold id in Heq, Hlen |- *. rewrite Hc, Hp'. rewrite Hp in Hd. split_and!; try done.
  - rewrite !(assoc_L (++)) in *. by rewrite Heq.
  - by rewrite app_nil_r.
  - apply explains_app; [done|]. by repeat constructor.
  - intros Hb. by destruct (Hexact Hb) as [_ ->].
  - rewrite !length_app. simpl. lia.
  - intros r e' rec ret ->. by destruct (Hns r e' rec ret).
Qed.

Lemma l_inv_record w subs r log rd' e w' :
  l_inv (mkLSystem w subs (LChunk r) log) → lossy_record retention chunk_size r w = Done (rd', e, w') →
  l_inv (mkLSystem w' subs rd' (log ++ [e])).
Proof.
  intros Hinv. destruct (Hinv ltac:(done)) as ((Hsh & Hids) & _ & Hlog & (Ht & Hbuf & Hp & Hsid) & Hlag & _).
  unfold lossy_record. destruct (record_event _ w retention) as [[[recorded cached] w1]|] eqn:Hrec; [|done].
  cbn [mbind outcome_bind mret outcome_ret]. intros [= <- <- <-].
  apply record_event_fields in Hrec as (-> & Hact & Hch & Haid & Hn & Ht' & Hrep & _). simpl in Ht', Hrep, Hids.
  pose proof (same_chans_eq _ _ Hch) as Hsame. unfold l_log_inv in Hlog. rewrite Ht in Ht', Hlog.
  eapply l_inv_step; try done.
  - intros id. by destruct (Hsame id) as (_ & ? & ?).
  - by rewrite Haid.
  - by left.
  - split_and!; [split; [congruence|]|unfold l_log_inv; rewrite Ht'; by apply nonterminal_snoc| |done].
    + rewrite Hn, Haid. simpl. intros id [?|[?|?]]; apply Hids; auto. left. congruence.
    + simpl. split_and!; [done..|eauto|done|auto].
  - intros id s Hs Hid Hrx Ha Hcap Hss. unfold l_part. simpl. rewrite (decide_True (P := sh_active w = Some id)) by done.
    assert (∀ rd : LReader, rd_lag rd = be_lag r → ¬ rd_gap rd (sss_id (ss_sub s))) as Hng.
    { intros rd Hrd [Hg _]. congruence. }
    destruct (Hsame id) as [Hc _]. case_decide as Hd; intros Hl.
    + eapply tracked_record; [exact Hl|done|by rewrite Hid|done..| |].
      * by split; intros Hx; [apply (Hng (LSending _ _ _ _))in Hx|apply Hng in Hx].
      * intros r' e' rec ret [= <- _ _ _]. simpl. congruence.
    + eapply fresh_record; [exact Hl|by rewrite Hid|done|by apply Hng].
Qed.

(** The parts of [lossy_next] the invariant looks at. *)
Lemma next_fields buf c lag :
  let rd := lossy_next buf c lag in
  rd_pending rd = [] ∧ rd_cached rd = c ∧ rd_lag rd = lag ∧ (∀ r e rec ret, rd ≠ LSending r e rec ret) ∧
  ∀ w log, rs_terminal_event (sh_state w) = None → l_reader_inv w rd log.
Proof. by destruct buf. Qed.

(** A full channel is never that of a subscriber the reader has just noticed. *)
Lemma send_full_noticed w subs r e rec ret log id w' :
  1 ≤ buffered → l_inv (mkLSystem w subs (LSending r e rec ret) log) → be_cached r = Some id →
  chan_try_send w id e = (w', Full) → subscriber_id (be_lag r) = Some id.
Proof.
  intros Hbuf Hinv Hc (_ & _ & Hrx & Hlen & _)%try_send_cases.
  destruct (Hinv ltac:(done)) as ((Hsh & _) & Hown & _ & (Ht & _) & _ & Hsubs).
  destruct (Hown _ Hrx) as [s Hs]. pose proof (Hsubs _ _ Hs) as Hsub.
  destruct (running_sub _ _ _ _ _ Ht Hsh Hsub) as (Hn & _ & _ & Hid).
  pose proof (li_live _ _ _ _ _ Hsub Hn) as Hl. simpl in Hl. rewrite decide_True in Hl by done.
  rewrite (li_cap _ _ _ _ _ Hsub) in Hlen. destruct Hl as (? & ? & ? & ? & _ & _ & _ & _ & _ & _ & _ & _ & Hun).
  rewrite Hid in Hun. destruct (Hun _ _ _ _ eq_refl) as [?|Hnil]; [done|]. rewrite Hnil in Hlen. unfold len in Hlen. simpl in Hlen. lia.
Qed.

(** The chunk goes to a subscriber that attached after it was recorded. *)
Lemma fresh_retry w w' r r' e retried log s :
  let id := sss_id (ss_sub s) in
  fresh_inv w (LSending r e false retried) log s → (∃ log0, log = log0 ++ [e]) → contents_of w' id = [] →
  ¬ rd_gap (LSending r' e false true) id → tracked_inv w' (LSending r' e false true) log s.
Proof.
  intros id (_ & Hst & Hsn & _ & _ & Hsnap) [log0 ->] Hc Hg. specialize (Hsnap _ _ _ eq_refl).
  exists (length log0), [], [], []. fold id. rewrite Hc, Hst, drop_app_length, !app_nil_r.
  split_and!; try done; [right; split; [rewrite length_app; simpl; lia|done]|constructor..|by right].
Qed.

(** Nobody is there to send to. *)
Lemma l_inv_unsent w subs r e rec ret log :
  l_inv (mkLSystem w subs (LSending r e rec ret) log) → be_cached r = None →
  l_inv (mkLSystem w subs (lossy_next (be_buf r) None (observe_active (be_lag r) None)) log).
Proof.
  intros Hinv Hc0. destruct (Hinv ltac:(done)) as ((Hsh & Hids) & _ & Hlog & (Ht & _) & Hlag & _). simpl in Hids, Hlag.
  set (lag := observe_active (be_lag r) None).
  destruct (next_fields (be_buf r) None lag) as (Hpn & Hcn & Hln & Hns & Hrn). set (rd' := lossy_next _ _ _) in *.
  rewrite <- (app_nil_r log). eapply l_inv_step; try done; rewrite ?app_nil_r; [by left|..].
  - split_and!; [split; [done|]|done|auto|rewrite Hln; by apply observe_lag_ok].
    rewrite Hcn, Hln. subst lag. rewrite observe_sid. intros id [?|[?|?]]; auto; done.
  - intros id s Hs Hid Hrx Ha Hcap Hss. unfold l_part. simpl. rewrite Hc0, Hcn, !decide_False by done. intros Hf.
    eapply fresh_same; [exact Hf|done|done|rewrite Hln; subst lag; by rewrite observe_sid|].
    intros r' e' ret' Heq. by destruct (Hns _ _ _ _ Heq).
Qed.

(** The subscriber is gone: the chunk is given up, or tried once more. *)
Lemma l_inv_send_closed w subs r e rec ret log id0 w1 :
  let w' := clear_active_if_current w1 id0 in
  l_inv (mkLSystem w subs (LSending r e rec ret) log) → be_cached r = Some id0 → chan_try_send w id0 e = (w1, Closed) →
  l_inv (mkLSystem w' subs
    (if rec || ret then lossy_next (be_buf r) (sh_active w') (observe_active (be_lag r) (sh_active w'))
     else LSending (mkBestEffort (be_buf r) (sh_active w') (be_lag r)) e rec true) log).
Proof.
  intros w2 Hinv Hc0 Hsend.
  destruct (Hinv ltac:(done)) as ((Hsh & Hids) & _ & Hlog & (Ht & Hp & Hlast & Hne & Hrep) & Hlag & _). simpl in Hids, Hlag.
  destruct (closed_effect _ _ _ _ Hsh Hsend) as (_ & _ & _ & Hact). fold w2 in Hact.
  assert (∀ id, sh_active w2 = Some id → id < rs_next_id (sh_state w)) as Hb2.
  { intros id. rewrite Hact. case_decide; [done|]. intros ?. apply Hids. left. congruence. }
  destruct (rec || ret) eqn:Hrr.
  - set (lag := observe_active _ _). destruct (next_fields (be_buf r) (sh_active w2) lag) as (Hpn & Hcn & Hln & Hns & Hrn).
    eapply l_inv_closed; try done; rewrite ?Hln; [by subst lag; rewrite observe_sid| |by apply observe_lag_ok|].
    { intros _ Hst _. apply Hrn. by rewrite Hst. }
    intros s id Hid Hnid Hf Ha Hcont. eapply fresh_tracked; [exact Hf|by rewrite Hid|done|].
    intros [Hx _]. rewrite Hln in Hx. subst lag. apply observe_gap in Hx as [Hx _]. congruence.
  - apply orb_false_iff in Hrr as [-> ->]. eapply l_inv_closed; try done; [auto|..].
    + intros _ Hst Hna. fold w2 in Hst |- *. unfold l_reader_inv, no_replay in *. rewrite Hst. by split_and!.
    + intros s id Hid Hnid Hf Ha Hcont. eapply fresh_retry; [exact Hf|done|by rewrite Hid|].
      intros [Hg _]. simpl in Hg. congruence.
Qed.

Lemma l_inv_send w subs r e rec ret log rd' w' :
  1 ≤ buffered → l_inv (mkLSystem w subs (LSending r e rec ret) log) → lossy_send r e rec ret w = (rd', w') →
  l_inv (mkLSystem w' subs rd' log).
Proof.
  intros Hbuf Hinv. destruct (Hinv ltac:(done)) as ((Hsh & Hids) & _ & Hlog & (Ht & Hp & Hlast & Hne & _) & Hlag & _).
  simpl in Hids, Hlag. unfold lossy_send. destruct (be_cached r) as [id0|] eqn:Hc0.
  2: { intros [= <- <-]. by eapply l_inv_unsent. }
  assert (∀ id, subscriber_id (be_lag r) = Some id → id < rs_next_id (sh_state w)) as Hb by auto.
  destruct (chan_try_send w id0 e) as [w1 []] eqn:Hsend.
  - intros [= <- <-]. pose proof (try_send_cases _ _ _ _ _ Hsend) as (Hst & _).
    destruct (next_fields (be_buf r) (Some id0) (log_if_lagged (be_lag r))) as (Hpn & Hcn & Hln & Hns & Hrn).
    eapply l_inv_sent; try done; rewrite ?Hln; auto; [apply Hrn; by rewrite Hst|].
    intros s Hid Hl Hcont. eapply tracked_sent; [exact Hl|by rewrite Hid|done|done| | |done].
    + intros [Hg _]. simpl in Hg. congruence.
    + intros [Hg _]. rewrite Hln in Hg. simpl in Hg. congruence.
  - intros [= <- <-]. pose proof (send_full_noticed _ _ _ _ _ _ _ _ _ Hbuf Hinv Hc0 Hsend) as Hsid.
    pose proof (try_send_cases _ _ _ _ _ Hsend) as (Hst & _). set (lag := mkLag _ _ _).
    destruct (next_fields (be_buf r) (Some id0) lag) as (Hpn & Hcn & Hln & Hns & Hrn). rewrite <- (app_nil_r log).
    eapply l_inv_full; try done; rewrite ?Hln; auto; [apply Hrn; by rewrite Hst|intros _; simpl; congruence|constructor|].
    intros s Hid Hcap Hss Hl Hcont Hfull. eapply tracked_lost; [exact Hl|done|by rewrite Hid|by rewrite Hid|..]; try done.
    + simpl. by repeat constructor.
    + by right.
    + rewrite Hid. by split; rewrite Hln.
  - pose proof (l_inv_send_closed _ _ _ _ _ _ _ _ _ Hinv Hc0 Hsend) as Hcl.
    by destruct (rec || ret) eqn:Hrr; intros [= <- <-].
Qed.

(** The end of the stream is recorded. *)
Lemma l_inv_terminal w subs r log e rd' w' :
  l_inv (mkLSystem w subs (LReading r) log) → is_terminal e = true →
  lossy_terminal retention r e w = Done (rd', w') → l_inv (mkLSystem w' subs rd' (log ++ [e])).
Proof.
  intros Hinv He. destruct (Hinv ltac:(done)) as ((Hsh & Hids) & _ & Hlog & (Ht & Hbuf) & Hlag & _). simpl in Hids, Hlag.
  unfold lossy_terminal. destruct (best_effort_read [] r w) as [r1 w1] eqn:Hread.
  apply read_fields in Hread as (_ & Hst1 & Hact1 & Hch1 & Hcase). unfold terminal_record.
  destruct (record_event e w1 retention) as [[[recorded cached] w2]|] eqn:Hrec; [|done].
  cbn [mbind outcome_bind mret outcome_ret]. intros [= <- <-].
  apply record_event_fields in Hrec as (-> & Hact & Hch & Haid & Hn & Ht' & _ & Hrec). rewrite He in Ht'.
  rewrite Hact1 in *. rewrite Hst1 in *. pose proof (same_chans_eq w w2 ltac:(congruence)) as Hsame.
  unfold l_log_inv in Hlog. rewrite Ht in Hlog.
  assert (lag_ok (be_lag r1)) as Hlag1.
  { destruct Hcase as [(_ & _ & ->)|(_ & _ & ->)]; [done|by apply observe_lag_ok]. }
  eapply l_inv_step; try done.
  - intros id. by destruct (Hsame id) as (_ & ? & ?).
  - by rewrite Haid.
  - by left.
  - split_and!; [split; [congruence|]|unfold l_log_inv; rewrite Ht'; eauto| |by apply observe_lag_ok].
    + rewrite Hn, Haid. simpl. rewrite observe_sid, <- Hsh. intros id [?|[?|?]]; auto.
    + simpl. split_and!; [done|auto|apply observe_sid].
  - intros id s Hs Hid Hrx Ha Hcap Hss. unfold l_part. simpl. rewrite (decide_True (P := sh_active w = Some id)) by done.
    destruct (Hsame id) as [Hc _].
    assert (rd_gap (LTermGap (mkBestEffort (be_buf r1) (sh_active w) (observe_active (be_lag r1) (sh_active w))) e recorded) id
              ↔ gap_pending (be_lag r) = true ∧ subscriber_id (be_lag r) = Some id) as Hgap.
    { unfold rd_gap. simpl. rewrite observe_sid, observe_gap, Ha.
      destruct Hcase as [(_ & _ & ->)|(_ & _ & ->)]; [|rewrite Ha, observe_gap, observe_sid]; intuition done. }
    case_decide as Hd; intros Hl.
    + eapply tracked_record; [exact Hl|done|by rewrite Hid|done..|by rewrite Hid|done].
    + eapply fresh_record; [exact Hl|by rewrite Hid|done|]. rewrite Hid, Hgap. intros [_ Hx].
      pose proof Hl as (_ & _ & _ & _ & Hsid & _). simpl in Hsid. congruence.
Qed.

(** A reader without lag owes no gap. *)
Lemma no_lag_no_gap rd id : rd_lag rd = default_lag → ¬ rd_gap rd id.
Proof. by intros Hl [Hg _]; rewrite Hl in Hg. Qed.

Lemma l_inv_term_gap w subs r e rec log cached lag w' :
  l_inv (mkLSystem w subs (LTermGap r e rec) log) →
  send_pending_gap_before_terminal (be_cached r) (be_lag r) w = Some (cached, lag, w') →
  l_inv (mkLSystem w' subs (LTermSend e rec false cached) log).
Proof.
  intros Hinv. destruct (Hinv ltac:(done)) as ((Hsh & Hids) & _ & Hlog & (Ht & Hrec & Hsid) & Hlag & _). simpl in Hids, Hlag.
  unfold send_pending_gap_before_terminal. destruct (gap_pending (be_lag r)) eqn:Hp.
  2: { intros [= <- <- <-]. rewrite <- (app_nil_r log). eapply l_inv_step; try done; rewrite ?app_nil_r; [by right|..].
    - split_and!; [split; [done|]|done..]. simpl. intros id [?|[?|?]]; auto; done.
    - intros id s Hs Hid Hrx Ha Hcap Hss. unfold l_part. simpl. case_decide as Hd; intros Hl.
      + eapply tracked_same; [exact Hl|done..| |done]. unfold rd_gap. simpl. rewrite Hp. by split; intros [].
      + destruct Hl. congruence. }
  destruct (be_cached r) as [id0|] eqn:Hc0; [|by destruct (Hlag Hp)].
  destruct (chan_try_send w id0 Gap) as [w1 []] eqn:Hsend; [|done|]; intros [= <- <- <-].
  - pose proof (try_send_cases _ _ _ _ _ Hsend) as (Hst & _).
    eapply l_inv_sent; try done; [simpl; by rewrite Hst|]. intros s Hid Hl Hcont.
    eapply tracked_gap; [exact Hl|by rewrite Hid; split|by rewrite Hid|done|by apply no_lag_no_gap|done].
  - eapply l_inv_closed; try done; [intros _ Hst _; simpl; by rewrite Hst|].
    intros s id Hid Hne Hf. destruct Hf. congruence.
Qed.

Lemma l_inv_term_send w subs e rec ret cached log :
  l_inv (mkLSystem w subs (LTermSend e rec ret cached) log) →
  match deliver_turn e rec ret cached w with
  | TurnWaits => True
  | TurnReturns cached w' => l_inv (mkLSystem w' subs (LStopped cached) log)
  | TurnRetries cached w' => l_inv (mkLSystem w' subs (LTermSend e rec true cached) log)
  end.
Proof.
  intros Hinv. destruct (Hinv ltac:(done)) as ((Hsh & Hids) & _ & Hlog & (Ht & ->) & Hlag & _). simpl in Hids, Hlag.
  unfold deliver_turn. destruct cached as [id0|].
  2: { rewrite <- (app_nil_r log). eapply l_inv_step; try done; rewrite ?app_nil_r; [by right|..].
    - split_and!; [split; [done|]|done|simpl; eauto|done]. simpl. intros id [?|[?|?]]; auto; done.
    - intros id s Hs Hid Hrx Ha Hcap Hss. unfold l_part. simpl. intros []. congruence. }
  destruct (chan_try_send w id0 e) as [w1 []] eqn:Hsend; [|done|].
  - pose proof (try_send_cases _ _ _ _ _ Hsend) as (Hst & _).
    eapply l_inv_sent; try done; [simpl; rewrite Hst; eauto|]. intros s Hid Hl Hcont.
    eapply tracked_sent; [exact Hl|by rewrite Hid|done|done|by apply no_lag_no_gap|by apply no_lag_no_gap|done].
  - eapply l_inv_closed; try done; [intros _ Hst _; simpl; rewrite Hst; eauto|].
    intros s id Hid Hne Hf. destruct Hf. congruence.
Qed.

Lemma l_inv_initial : l_inv l_initial.
Proof.
  intros _. split_and!; try done.
  - split; [done|]. simpl. by intros id [?|[?|?]].
  - constructor.
Qed.

Lemma l_inv_perform a y y' : 1 ≤ buffered → l_inv y → l_perform a y = Some y' → l_inv y'.
Proof.
  intros Hbuf Hinv. destruct y as [w subs rd log]. unfold l_perform.
  destruct a as [|[|b buf]| | | |e| | | |id|id| |id|]; try done.
  - destruct rd as [r| | | | | | |]; try done. destruct (be_cached r) eqn:Hc; [done|]. intros [= <-]. by apply l_inv_refresh.
  - destruct rd as [r| | | | | | |]; try done. destruct (best_effort_read _ r w) as [r' w'] eqn:Hr. intros [= <-]. by eapply l_inv_read.
  - destruct rd as [|r| | | | | |]; try done. destruct (lossy_gap _ r w) as [[rd l] w'] eqn:Hr. intros [= <-]. by eapply l_inv_gap.
  - destruct rd as [| |r| | | | |]; try done. destruct (lossy_record _ _ r w) as [[[rd e] w']|] eqn:Hr; [|done].
    intros [= <-]. by eapply l_inv_record.
  - destruct rd as [| | |r e rec ret| | | |]; try done. destruct (lossy_send _ _ _ _ w) as [rd w'] eqn:Hr. intros [= <-].
    by eapply l_inv_send.
  - destruct rd as [r| | | | | | |]; try done. destruct (is_terminal e) eqn:He; [|done].
    destruct (lossy_terminal _ r e w) as [[rd w']|] eqn:Hr; [|done]. intros [= <-]. by eapply l_inv_terminal.
  - destruct rd as [| | | |r e rec| | |]; try done.
    destruct (send_pending_gap_before_terminal _ _ w) as [[[c l] w']|] eqn:Hr; [|done]. intros [= <-].
    by eapply l_inv_term_gap.
  - destruct rd as [| | | | |e rec ret c| |]; try done. pose proof (l_inv_term_send _ _ _ _ _ _ _ Hinv) as Hi.
    destruct (deliver_turn _ _ _ _ w); [done|..]; by intros [= <-].
  - intros Hp. assert (rd ≠ LAborted) as Hab by by intros ->.
    destruct (N.ltb_spec (rs_next_id (sh_state w) + 1) word_modulus); [|by destruct rd].
    destruct (single_subscribe name retention buffered w) as [[[x w']|]|] eqn:Hs; [|by destruct rd..].
    destruct rd; try done; injection Hp as <-; by apply l_inv_subscribe.
  - destruct (subs !! id) as [s|] eqn:Hs; [|by destruct rd]. cbn [mbind option_bind].
    destruct (single_next_event (ss_sub s) w) as [[r x] w'] eqn:Hr.
    destruct rd; intros [= <-]; by eapply l_inv_recv.
  - destruct (subs !! id) as [s|] eqn:Hs; [|by destruct rd]. cbn [mbind option_bind]. destruct rd; intros [= <-]; by apply l_inv_drop.
  - destruct (ReplayState.seal_replay (sh_state w) retention) as [st|] eqn:Hs; [|by destruct rd].
    destruct rd; intros [= <-]; by apply l_inv_seal.
  - destruct (sh_chans w !! id) as [m|] eqn:Hm; [|by destruct rd]. intros Hp.
    assert (y' = mkLSystem (with_chan w id (mpsc_drop_tx m)) subs rd log) as ->.
    { destruct rd; simpl in Hp; by destruct (holds_sender_b _ _ _); simplify_eq. }
    by apply l_inv_release.
  - destruct rd; intros [= <-]; by intros [].
Qed.

Lemma l_reachable_inv y : 1 ≤ buffered → l_reachable y → l_inv y.
Proof. intros Hb. induction 1 as [|a y y' _ IH Hp]; [apply l_inv_initial|by eapply l_inv_perform]. Qed.

(** The reader has delivered the terminal event and the subscription has read
    all there is for it. *)
Definition l_drained y s : Prop := queue (l_shared y) s = [] ∧ ∃ c, l_reader y = LStopped c.

(** What a subscription has seen and will see of the events made so far. *)
Lemma tracked_seen w rd log s :
  tracked_inv w rd log s →
  ∃ from obs, (from = ss_start s ∨ (S from = ss_start s ∧ ss_snapshot s = [])) ∧ explains obs (drop from log) ∧
    (∃ rest, ss_snapshot s ++ obs = (ss_seen s ++ sss_replay (ss_sub s) ++ contents_of w (sss_id (ss_sub s))) ++ rest ∧
       ∀ c, rd = LStopped c → rest = []) ∧
    (len (drop from log) ≤ buffered → obs = drop from log).
Proof.
  intros (from & obs & act & lost & Hf & Heq & Hd & Hex & Hnt & Hg & Hexact & _).
  assert (explains (rd_pending rd) (rd_pending rd)) as Hp by apply explains_refl.
  destruct (decide (lost = [])) as [->|Hne].
  - exists from, (obs ++ rd_pending rd). rewrite Hd. split_and!; try done.
    + by apply explains_app.
    + exists (rd_pending rd). rewrite Heq, (assoc_L (++)). split; [done|]. by intros c ->.
    + rewrite <- Hd. intros Hb. by destruct (Hexact Hb) as [_ ->].
  - exists from, (obs ++ Gap :: rd_pending rd). rewrite Hd. split_and!; try done.
    + apply explains_app; [done|]. by apply ex_gap.
    + exists (Gap :: rd_pending rd). rewrite Heq, (assoc_L (++)). split; [done|]. intros c ->.
      by destruct (proj1 Hg Hne).
    + rewrite <- Hd. intros Hb. by destruct (Hexact Hb) as [-> _].
Qed.

(** What a subscription has seen of the events the reader made. *)
Lemma lossy_observed y id s :
  1 ≤ buffered → l_reachable y → l_reader y ≠ LAborted → l_subs y !! id = Some s →
  ∃ from obs, let since := drop from (l_log y) in
    (from = ss_start s ∨ (S from = ss_start s ∧ ss_snapshot s = [])) ∧ explains obs since ∧
    ss_seen s `prefix_of` ss_snapshot s ++ obs ∧ (l_drained y s → ss_seen s = ss_snapshot s ++ obs) ∧
    (len since ≤ buffered → obs = since).
Proof.
  intros Hbuf Hr Hab Hs. apply l_reachable_inv in Hr; [|done]. destruct y as [w subs rd log]. simpl in *.
  destruct (Hr Hab) as (_ & _ & _ & _ & _ & Hsubs).
  destruct (Hsubs _ _ Hs) as [Hid _ _ _ _ _ Hlate Hlive]. destruct (late_dec s) as [Hl|Hl].
  { destruct (Hlate Hl) as (_ & Hst & Hsn). exists (ss_start s), []. rewrite Hst, drop_all, app_nil_r. split_and!; try done.
    - by left.
    - constructor.
    - by eexists.
    - intros [[Hq _]%app_eq_nil _]. by rewrite <- Hsn, Hq, app_nil_r. }
  specialize (Hlive Hl). assert (sss_live (ss_sub s) = true) as Hlv.
  { destruct (sss_live (ss_sub s)) eqn:E; [done|]. destruct Hl. by right. }
  case_decide.
  - destruct (tracked_seen _ _ _ _ Hlive) as (from & obs & Hf & Hex & Hseen & Hexact). exists from, obs.
    split_and!; try done.
    + destruct Hseen as (rest & -> & _). eexists. by rewrite <- (assoc_L (++)).
    + intros [[[Hrp _]%app_eq_nil Hq]%app_eq_nil [c Hc]]. simpl in Hc, Hq. rewrite Hlv in Hq.
      destruct Hseen as (rest & Heq & Hst). specialize (Hst c Hc). subst rest. rewrite Heq, Hrp, Hq. by rewrite !app_nil_r.
  - destruct Hlive as (_ & Hst & Hsn & _). exists (ss_start s), []. rewrite Hst, drop_all, app_nil_r. split_and!; try done.
    + by left.
    + constructor.
    + by eexists.
    + intros [[[Hrp _]%app_eq_nil _]%app_eq_nil _]. by rewrite <- Hsn, Hrp, app_nil_r.
Qed.

(** C17: with lossy delivery the single-subscriber backend loses nothing
    silently.  A subscription sees its replay snapshot and then the events the
    reader made since it attached (one earlier when the receiver of that event
    had just gone and it has no snapshot), in order, where a run of lost chunks
    shows as a gap and the terminal event is never lost; once the reader has
    stopped and the subscription has read its channel it has seen all of that.
    While no more events were made since than the channel holds, nothing is
    lost. *)
Theorem single_lossy_marked y id s :
  1 ≤ buffered → l_reachable y → l_reader y ≠ LAborted → l_subs y !! id = Some s →
  ∃ from obs, let since := drop from (l_log y) in
    (from = ss_start s ∨ (S from = ss_start s ∧ ss_snapshot s = [])) ∧ explains obs since ∧
    ss_seen s `prefix_of` ss_snapshot s ++ obs ∧ (l_drained y s → ss_seen s = ss_snapshot s ++ obs) ∧
    (len since ≤ buffered → obs = since).
Proof. apply lossy_observed. Qed.

End system.
Arguments LSystem M : clear implicits.

(** ** A run with losses *)

Module LossyDemo.

Definition acts : list lossy_action :=
  [LASubscribe; LARead [x61; x62; x63; x64; x65]; LAGap; LARecord; LASend; LAGap; LARecord; LASend; LAGap;
   LARecv 0; LARead [x66]; LAGap; LARecord; LASend; LARecv 0; LATerminal Eof; LATermGap; LARecv 0; LATermSend; LARecv 0].

Definition name : String.string := "stdout".
Definition final : LSystem (ref_mpsc StreamEvent) :=
  default l_initial (l_perform_all name None 1 (mkNumBytes 2) acts l_initial).

Lemma lossy_final_reachable : l_reachable name None 1 (mkNumBytes 2) final.
Proof.
  apply (l_perform_all_reachable _ _ _ _ acts l_initial); [apply l_reach_initial|vm_compute; reflexivity].
Qed.

Definition sub : SSub := default (mkSSub (mkSingle 0 [] None false) [] 0 false []) (l_subs final !! 0).

Lemma lossy_final_sub : l_subs final !! 0 = Some sub.
Proof. vm_compute. reflexivity. Qed.

Lemma lossy_final_log :
  l_log final = [Chunk [x61; x62]; Chunk [x63; x64]; Chunk [x65]; Chunk [x66]; Eof] ∧
  ss_seen sub = [Chunk [x61; x62]; Gap; Gap; Eof] ∧ ss_start sub = 0%nat.
Proof. vm_compute. auto. Qed.

Lemma lossy_final_drained : l_drained final sub.
Proof. split; [vm_compute; reflexivity|eexists; vm_compute; reflexivity]. Qed.

Lemma lossy_final_running : l_reader final ≠ LAborted.
Proof. vm_compute. discriminate. Qed.

End LossyDemo.

Lemma single_lossy_marked_witness :
  ∃ from, explains (ss_seen LossyDemo.sub) (drop from (l_log LossyDemo.final)).
Proof.
  destruct (single_lossy_marked LossyDemo.name None 1 (mkNumBytes 2) LossyDemo.final 0 LossyDemo.sub
    ltac:(reflexivity || discriminate) LossyDemo.lossy_final_reachable LossyDemo.lossy_final_running
    LossyDemo.lossy_final_sub) as (from & obs & _ & Hex & _ & Hd & _).
  exists from. rewrite (Hd LossyDemo.lossy_final_drained). exact Hex.
Defined.
