(* ===== verification/EndToEnd.v ===== *)
(** * From the child's bytes to a consumer's lines

    The composition of the backends with the consumers: the reads of the
    reader task become events ([Broadcast.reader_events]), the backend's system
    delivers them to a subscription ([BroadcastSystem], [FastBroadcast],
    [SingleSystem]), and a line consumer drives a [ParseLines] adapter over
    what the subscription received ([Driver], [ParseLines]).

    With reliable delivery the consumer sees exactly the lines of the bytes
    read.  With lossy delivery the adapter follows a stream of which runs of
    chunks were replaced by gaps: it is at any time where the adapter of the
    whole stream is, or it discards until the next newline ([behind]); so the
    lines it yields are lines of the whole stream, in order. *)

From S2P Require Import Prelude Utf8 Stream Driver LineParser LineSpec ParseLines.
From S2P Require Import Retention Broadcast BroadcastSystem BroadcastLiveness FastBroadcast.
From S2P Require Import SingleSubscriber SingleSystem SingleLiveness LossySystem.

(** ** Parsing behind a gap *)

Section behind.
Context (o : LineParsingOptions).

Import Machine.

(** Outside a line nothing is buffered. *)
Definition idle (st : state) : Prop := st.1 ≠ ReadingLine → st.2 = [].

(** The parser is where the parser of the whole stream is, or waits for a
    newline. *)
Definition behind (st whole : state) : Prop := st = whole ∨ st = (DiscardUntilNewline, []).

Lemma step_byte_idle st b : idle st → idle (step_byte o st b).1.
Proof.
  destruct st as [m buf]. unfold idle, step_byte, read_byte. simpl. intros Hi.
  destruct m; repeat (case_match; simpl); try done; intros _; try (by apply Hi); done.
Qed.

Lemma step_byte_newline st : idle st → (step_byte o st newline).1 = (ReadingLine, []).
Proof.
  destruct st as [m buf]. unfold idle, step_byte, read_byte. simpl. intros Hi.
  destruct m; simpl; rewrite ?bool_decide_eq_true_2 by done; repeat (case_match; simpl); try done;
    by rewrite Hi.
Qed.

Lemma run_idle st l : idle st → idle (run o st l).1.
Proof.
  revert st. induction l as [|b l IH]; intros st Hi; simpl; [done|].
  pose proof (step_byte_idle st b Hi) as Hs. destruct (step_byte o st b) as [st1 ?].
  specialize (IH st1 Hs). by destruct (run o st1 l).
Qed.

Lemma step_byte_behind st whole b :
  idle whole → behind st whole →
  behind (step_byte o st b).1 (step_byte o whole b).1 ∧
  (step_byte o st b).2 `sublist_of` (step_byte o whole b).2.
Proof.
  intros Hi [->| ->]; [by split; [left|]|].
  destruct (decide (b = newline)) as [->|Hb].
  - rewrite (step_byte_newline whole Hi). simpl. split; [by left|apply sublist_nil_l].
  - simpl. rewrite bool_decide_eq_false_2 by done. split; [by right|apply sublist_nil_l].
Qed.

Lemma run_behind st whole l :
  idle whole → behind st whole →
  behind (run o st l).1 (run o whole l).1 ∧ (run o st l).2 `sublist_of` (run o whole l).2.
Proof.
  revert st whole. induction l as [|b l IH]; intros st whole Hi Hb; [done|]. simpl.
  destruct (step_byte_behind st whole b Hi Hb) as [Hb1 Hs1].
  pose proof (step_byte_idle whole b Hi) as Hi1.
  destruct (step_byte o st b) as [st1 l1], (step_byte o whole b) as [whole1 w1].
  destruct (IH st1 whole1 Hi1 Hb1) as [Hb2 Hs2].
  destruct (run o st1 l), (run o whole1 l). simpl in *. auto using sublist_app.
Qed.

Lemma flush_behind st whole : behind st whole → flush st `sublist_of` flush whole.
Proof. intros [->| ->]; [done|apply sublist_nil_l]. Qed.

(** The lines among what a visitor is handed. *)
Definition item_lines (items : list item) : list str :=
  omap (λ i, match i with Line l => Some l | GapSeen => None end) items.

Lemma item_lines_app items items' : item_lines (items ++ items') = item_lines items ++ item_lines items'.
Proof. apply omap_app. Qed.

Lemma item_lines_lines lines : item_lines (Line ∘ decode_line_lossy <$> lines) = decode_line_lossy <$> lines.
Proof. induction lines as [|l lines IH]; [done|]. by rewrite !fmap_cons, <- IH. Qed.

(** The items of a stream with gaps, against the lines of the whole stream:
    a subsequence, and all of them unless a gap was seen. *)
Lemma run_events_behind obs cs st whole :
  explains obs (Chunk <$> cs) → idle whole → behind st whole →
  let '(st', items) := run_events o st obs in
  let '(whole', lines) := run o whole (concat cs) in
  behind st' whole' ∧ item_lines items `sublist_of` (decode_line_lossy <$> lines) ∧
  (GapSeen ∈ items ∨ (st = whole → st' = whole' ∧ item_lines items = decode_line_lossy <$> lines)).
Proof.
  intros Hex. remember (Chunk <$> cs) as act eqn:Hact. revert cs st whole Hact.
  induction Hex as [|e obs act Hex IH|lost obs act _ _ Hex IH]; intros cs st whole Hact Hi Hb.
  - symmetry in Hact. apply fmap_nil_inv in Hact as ->. simpl. split_and!; [done..|by right].
  - symmetry in Hact. apply fmap_cons_inv in Hact as (c & cs' & -> & -> & ->). simpl.
    rewrite run_app. destruct (run_behind st whole c Hi Hb) as [Hb1 Hs1].
    pose proof (run_idle whole c Hi) as Hi1.
    destruct (run o st c) as [st1 l1] eqn:Hrs, (run o whole c) as [whole1 w1] eqn:Hrw. simpl in *.
    specialize (IH cs' st1 whole1 eq_refl Hi1 Hb1).
    destruct (run_events o st1 obs) as [st2 items], (run o whole1 (concat cs')) as [whole2 w2].
    destruct IH as (Hb2 & Hs2 & Hall). rewrite item_lines_app, item_lines_lines, fmap_app.
    split_and!; [done|by apply sublist_app; [apply fmap_sublist|]|].
    destruct Hall as [Hg|Hall]; [left; apply elem_of_app; by right|]. right. intros ->.
    rewrite Hrs in Hrw. injection Hrw as -> ->. by destruct (Hall eq_refl) as [-> ->].
  - symmetry in Hact. apply fmap_app_inv in Hact as (cs1 & cs2 & -> & -> & ->). simpl.
    rewrite concat_app, run_app. pose proof (run_idle whole (concat cs1) Hi) as Hi1.
    destruct (run o whole (concat cs1)) as [whole1 w1]. simpl in *.
    specialize (IH cs2 (on_gap st) whole1 eq_refl Hi1 (or_intror eq_refl)).
    destruct (run_events o (on_gap st) obs) as [st2 items], (run o whole1 (concat cs2)) as [whole2 w2].
    destruct IH as (Hb2 & Hs2 & _). rewrite fmap_app.
    split_and!; [done|by apply sublist_inserts_l|left; apply elem_of_cons; by left].
Qed.

End behind.

(** ** A line consumer over what a subscription received *)

Lemma explains_nil_act act : explains [] act → act = [].
Proof. by inversion 1. Qed.

(** The end of the stream is the last event observed. *)
Lemma explains_eof obs cs :
  explains obs ((Chunk <$> cs) ++ [Eof]) → ∃ obs', obs = obs' ++ [Eof] ∧ explains obs' (Chunk <$> cs).
Proof.
  intros Hex. pose proof (explains_last _ _ Eof Hex (last_snoc _ _) eq_refl) as Hl.
  apply last_Some in Hl as [obs' ->]. exists obs'. split; [done|].
  apply explains_app_inv in Hex as (a1 & a2 & Heq & H1 & H2).
  inversion H2 as [|e obs act Hnil|]; subst. apply explains_nil_act in Hnil as ->.
  by apply app_inj_2 in Heq as [-> _].
Qed.

Lemma explains_nonterminal obs cs : explains obs (Chunk <$> cs) → Forall (λ e, is_terminal e = false) obs.
Proof.
  intros Hex. remember (Chunk <$> cs) as act eqn:Hact. revert cs Hact.
  induction Hex as [|e obs act Hex IH|lost obs act _ _ Hex IH]; intros cs Hact; [done|..]; symmetry in Hact.
  - apply fmap_cons_inv in Hact as (c & cs' & -> & -> & ->). constructor; [done|by eapply IH].
  - apply fmap_app_inv in Hact as (cs1 & cs2 & -> & -> & ->). constructor; [done|by eapply IH].
Qed.

Section consumer.
Context {B : Type} `{BytesMut B, Memchr} {S Out : Type} `{LineVisitor S Out}.
Context (step : S → str → S) (eof : S → S) `{!FoldVisitor step eof}.
Implicit Types v : ParseLines B S.

(** What a fold visitor makes of one item. *)
Definition take_item (s : S) (i : item) : S :=
  match i with Line l => step s l | GapSeen => line_on_gap s end.

Lemma feed_items_fold s items : feed_items s items = Done (foldl take_item s items, Continue).
Proof.
  revert s. induction items as [|[l|] items IH]; intros s; simpl; [done|..|apply IH].
  rewrite fold_on_line. simpl. apply IH.
Qed.

(** What a line consumer returns that was handed [items]. *)
Definition consumed (inner : S) (items : list item) : driver (ParseLines B S) Out :=
  Finished (Ok (line_into_output (eof (foldl take_item inner items)))).

(** The lines are genuine: a consumer that observes a stream with gaps is
    handed lines of the whole stream, in order, and all of them unless it is
    told of a gap. *)
Lemma explained_lines o inner v cs obs :
  bytes (max_line_length o) ≤ usize_max → ParseLines_new o inner = Done v →
  explains obs ((Chunk <$> cs) ++ [Eof]) →
  ∃ items, consume_sync v (turns_of obs) = consumed inner items ∧
    item_lines items `sublist_of` (decode_line_lossy <$> Lines.spec_lines o (concat cs)) ∧
    (GapSeen ∈ items ∨ item_lines items = decode_line_lossy <$> Lines.spec_lines o (concat cs)).
Proof.
  intros Hu Hnew Hex. destruct (new_adapter_wf o inner v Hu Hnew) as (Hwf & <- & <- & Habs & _).
  destruct (explains_eof _ _ Hex) as (obs' & -> & Hex').
  unfold turns_of. rewrite fmap_app. fold (turns_of obs'). cbn [fmap list_fmap].
  rewrite session_ok by (done || by eapply explains_nonterminal).
  unfold session. rewrite Habs. rewrite <- Lines.run_spec_lines.
  assert (idle (ReadingLine, [])) as Hi by done.
  pose proof (run_events_behind (pl_options v) obs' cs _ _ Hex' Hi (or_introl eq_refl)) as Hb.
  destruct (run_events _ _ obs') as [st items], (Machine.run _ _ (concat cs)) as [whole lines].
  destruct Hb as (Hb & Hs & Hall). rewrite feed_items_fold.
  exists (items ++ (Line ∘ decode_line_lossy <$> Machine.flush st)).
  rewrite item_lines_app, item_lines_lines, fmap_app. cbn [fst snd]. split_and!.
  - unfold consumed. erewrite finish_session_fold by done. rewrite foldl_app. do 4 f_equal.
    generalize (foldl take_item (pl_inner v) items). clear. induction (Machine.flush st); simpl; auto.
  - apply sublist_app; [done|]. by apply fmap_sublist, flush_behind.
  - destruct Hall as [Hg|Hall]; [left; apply elem_of_app; by left|]. right.
    by destruct (Hall eq_refl) as [-> ->].
Qed.

End consumer.

(** ** The fanout broadcast stream *)

Section broadcast.
Context {M : Type} `{MpscLaws M IndexedEvent}.
Context {B : Type} `{BytesMut B, Memchr} {S Out : Type} `{LineVisitor S Out}.
Context (step : S → str → S) (eof : S → S) `{!FoldVisitor step eof}.
Context (name : String.string) (size : NumBytes) (buffered : N).
Hypotheses (Hsize : 0 < bytes size) (Hbuffered : 1 ≤ buffered).
Implicit Types (s : System (M := M)) (x : SubState) (v : ParseLines B S).

(** The reads of a child whose output ended: [bufs], then end of file. *)
Definition reads_of (bufs : list (list byte)) : list read_result := (Ok <$> bufs) ++ [Ok []].

Lemma reads_events bufs :
  Forall (λ buf, buf ≠ []) bufs →
  ∃ cs, reader_events name size (reads_of bufs) = (Chunk <$> cs) ++ [Eof] ∧ concat cs = concat bufs.
Proof.
  intros Hne. destruct (reader_events_faithful name size bufs (Ok []) [] Hsize Hne) as (cs & Hcs & Hcat & _); [done|].
  by exists cs.
Qed.

(** A subscription that is due the whole stream: with [replay_all] one that
    attached before replay was sealed, and with any replay policy one that
    attached before the first event. *)
Definition due_everything (retention : option ReplayRetention) x : Prop :=
  (retention = Some All ∧ sealed_before x = false) ∨ attached_at x = 0%nat.

(** When delivery has run its course, such a subscription has received what the
    guarantee makes of the events of the reads. *)
Lemma settled_events g retention s s' bufs h x :
  reachable g retention buffered s → closed (s_bs s) = false →
  s_log s = reader_events name size (reads_of bufs) →
  rtc (productive g) s s' → nf (productive g) s' → s_subs s' !! h = Some x → due_everything retention x →
  delivered g (received x) (reader_events name size (reads_of bufs)).
Proof.
  intros Hr Hcl Hlog Hrun Hnf Hx Hdue.
  destruct (productive_run g retention buffered s s' Hr Hrun) as (Hr' & Hlog' & _ & Hcl').
  assert (promised (s_log s') x = s_log s') as Hall.
  { destruct Hdue as [[-> Hse]|Hat]; [by eapply promised_all|by eapply promised_first]. }
  rewrite <- Hlog, <- Hlog', <- Hall. by apply (stuck_delivered g retention buffered s' h x); auto.
Qed.

(** C1: from bytes to lines, with reliable delivery and [replay_all].  Once the
    reader has appended the events of its reads up to the end of file, in
    whatever sizes the bytes came, and the stream was not dropped, every run of
    delivery steps ends, and where it ends the line consumer of every subscription, whenever it attached
    (before replay was sealed), has returned from exactly the lines of the
    bytes the child wrote, in order. *)
Theorem broadcast_lines_complete s bufs o inner v :
  Forall (λ buf, buf ≠ []) bufs →
  reachable GReliableWithBackpressure (Some All) buffered s → closed (s_bs s) = false →
  s_log s = reader_events name size (reads_of bufs) →
  bytes (max_line_length o) ≤ usize_max → ParseLines_new o inner = Done v →
  sn (productive GReliableWithBackpressure) s ∧
  ∀ s' h x, rtc (productive GReliableWithBackpressure) s s' → nf (productive GReliableWithBackpressure) s' →
    s_subs s' !! h = Some x → sealed_before x = false →
    consume_sync v (turns_of (received x)) = Finished (Ok (line_into_output (eof
      (foldl step inner (decode_line_lossy <$> Lines.spec_lines o (concat bufs)))))).
Proof.
  intros Hne Hr Hcl Hlog Hu Hnew. split; [by eapply productive_sn|]. intros s' h x Hrun Hnf Hx Hse.
  pose proof (settled_events _ _ s s' bufs h x Hr Hcl Hlog Hrun Hnf Hx (or_introl (conj eq_refl Hse))) as Hrec. simpl in Hrec.
  destruct (reads_events bufs Hne) as (cs & Hcs & <-). rewrite Hrec, Hcs.
  unfold turns_of. rewrite fmap_app. by apply parse_lines_fold.
Qed.

(** C2: lossy delivery of the fan-out backend never invents or alters a line, for
    a subscription that is due the whole stream: with [replay_all] one that
    attached before replay was sealed, with any other replay policy one that
    attached before the first event (a later one starts in the middle of the
    stream, maybe of a line).  Where a run of delivery steps ends, on a stream
    that was read to its end and not dropped, its line consumer has been handed
    a subsequence of the lines of the bytes the child wrote (as the parsing
    options cut them): what a loss has torn is never glued to other bytes and
    never passed on as a line.  If a line is missing, it was told of a gap. *)
Theorem broadcast_lossy_lines_genuine retention s bufs o inner v :
  Forall (λ buf, buf ≠ []) bufs →
  reachable GLossyWithoutBackpressure retention buffered s → closed (s_bs s) = false →
  s_log s = reader_events name size (reads_of bufs) →
  bytes (max_line_length o) ≤ usize_max → ParseLines_new o inner = Done v →
  sn (productive GLossyWithoutBackpressure) s ∧
  ∀ s' h x, rtc (productive GLossyWithoutBackpressure) s s' → nf (productive GLossyWithoutBackpressure) s' →
    s_subs s' !! h = Some x → due_everything retention x →
    let lines := decode_line_lossy <$> Lines.spec_lines o (concat bufs) in
    ∃ items, consume_sync v (turns_of (received x)) = consumed step eof inner items ∧
      item_lines items `sublist_of` lines ∧ (GapSeen ∈ items ∨ item_lines items = lines).
Proof.
  intros Hne Hr Hcl Hlog Hu Hnew. split; [by eapply productive_sn|]. intros s' h x Hrun Hnf Hx Hse.
  pose proof (settled_events _ _ s s' bufs h x Hr Hcl Hlog Hrun Hnf Hx Hse) as Hrec. simpl in Hrec.
  destruct (reads_events bufs Hne) as (cs & Hcs & <-). rewrite Hcs in Hrec. by apply explained_lines.
Qed.

End broadcast.

(** ** The fast broadcast stream *)

Section fast.
Context {C : Type} `{TokioBroadcastLaws C StreamEvent}.
Context {B : Type} `{BytesMut B, Memchr} {S Out : Type} `{LineVisitor S Out}.
Context (step : S → str → S) (eof : S → S) `{!FoldVisitor step eof}.
Implicit Types (s : FastSystem C) (x : FastSub) (v : ParseLines B S).

(** What a subscription present from the start was given on attaching. *)
Lemma initial_none rd log x cs :
  initial_inv rd log x → fs_start x = 0%nat → log = (Chunk <$> cs) ++ [Eof] → fs_initial x = None.
Proof.
  unfold initial_inv. intros Hi Hst ->. rewrite Hst, drop_0, last_snoc in Hi.
  destruct (fs_initial x) as [[| | |err]|]; try done.
  - by destruct Hi as (_ & _ & Hnil%app_eq_nil), Hnil.
  - destruct Hi as [[_ Hnil]|(_ & Hl & _)]; [|done]. by apply app_eq_nil in Hnil as [_ ?].
Qed.

(** The same on the fast path, for a subscription present from the first event:
    when the reader has stopped at the end of file and the subscription has
    read its channel, the lines are a subsequence of the lines of the bytes
    read, and all of them unless a gap was seen. *)
Lemma fast_lines_genuine name size buffered s h x bufs o inner v :
  0 < bytes size → Forall (λ buf, buf ≠ []) bufs →
  fast_reachable name size buffered s → f_subs s !! h = Some x → fs_start x = 0%nat →
  f_reads s = reads_of bufs → f_reader s = FStopped → f_dropped s = false → fast_drained s x →
  bytes (max_line_length o) ≤ usize_max → ParseLines_new o inner = Done v →
  let lines := decode_line_lossy <$> Lines.spec_lines o (concat bufs) in
  ∃ items, consume_sync v (turns_of (fs_received x)) = consumed step eof inner items ∧
    item_lines items `sublist_of` lines ∧ (GapSeen ∈ items ∨ item_lines items = lines).
Proof.
  intros Hsize Hne Hr Hx Hst Hreads Hrd Hdr Hend Hu Hnew.
  destruct (reads_events name size Hsize bufs Hne) as (cs & Hcs & <-).
  pose proof (fast_reader_faithful _ _ _ _ Hsize Hr) as Hlog.
  rewrite Hrd, Hreads, Hcs in Hlog. simpl in Hlog. rewrite app_nil_r in Hlog.
  destruct (fast_observed _ _ _ _ _ _ Hsize Hr Hx) as (rest & Hex & Hdone & _ & Hi).
  rewrite (Hdone Hend), app_nil_r, (initial_none _ _ _ cs Hi Hst Hlog), Hst, Hlog in Hex.
  by apply explained_lines.
Qed.

End fast.

(** ** The single-subscriber stream *)

Section single.
Context {M : Type} `{MpscLaws M StreamEvent}.
Context {B : Type} `{BytesMut B, Memchr} {S Out : Type} `{LineVisitor S Out}.
Context (step : S → str → S) (eof : S → S) `{!FoldVisitor step eof}.
Implicit Types (y : SSystem (M := M)) (s : SSub) (v : ParseLines B S).

(** C3: from bytes to lines, on a single-subscriber stream with reliable
    delivery and [replay_all].  Once the reader has recorded the events of its
    reads up to the end of file, every run of delivery steps ends, and where it
    ends the line consumer of the subscription, whether it is the first one or
    came after others (before replay was sealed), has returned from exactly the
    lines of the bytes the child wrote, in order. *)
Theorem single_lines_complete name size buffered y bufs o inner v :
  0 < bytes size → 1 ≤ buffered → Forall (λ buf, buf ≠ []) bufs →
  s_reachable name (Some All) buffered y → sy_reader y ≠ SAborted →
  sy_log y = reader_events name size (reads_of bufs) →
  bytes (max_line_length o) ≤ usize_max → ParseLines_new o inner = Done v →
  sn s_productive y ∧
  ∀ y' id s, rtc s_productive y y' → nf s_productive y' →
    sy_subs y' !! id = Some s → ss_sealed s = false →
    consume_sync v (turns_of (ss_seen s)) = Finished (Ok (line_into_output (eof
      (foldl step inner (decode_line_lossy <$> Lines.spec_lines o (concat bufs)))))).
Proof.
  intros Hsize Hb Hne Hr Hab Hlog Hu Hnew. split; [apply s_productive_sn|]. intros y' id s Hrun Hnf Hs Hse.
  assert (∀ r, Some All = Some r → retention_assert_non_zero r = Done ()) as Hret by (by intros r [= <-]).
  destruct (s_productive_run name (Some All) buffered y y' Hr Hrun) as (Hr' & Hlog' & _ & Hab').
  pose proof (s_stuck_drained (Some All) y' id s (s_reachable_inv _ _ _ Hret y' Hr')
    (s_reachable_owned name (Some All) buffered Hret y' Hb Hr') Hnf (Hab' Hab) Hs) as Hd.
  destruct (reads_events name size Hsize bufs Hne) as (cs & Hcs & <-).
  rewrite (single_replay_all_complete name buffered y' id s Hr' Hs Hd Hse), Hlog', Hlog, Hcs.
  unfold turns_of. rewrite fmap_app. by apply parse_lines_fold.
Qed.

(** The same with lossy delivery, for a subscription present from the first
    event: once the reader has stopped at the end of file and the subscription
    has read its channel, the lines are a subsequence of the lines of the bytes
    read, and all of them unless a gap was seen. *)
Lemma single_lossy_lines_genuine name retention size buffered (y : LSystem M) id s bufs o inner v :
  0 < bytes size → 1 ≤ buffered → Forall (λ buf, buf ≠ []) bufs →
  l_reachable name retention buffered size y → l_reader y ≠ LAborted →
  l_log y = reader_events name size (reads_of bufs) →
  l_subs y !! id = Some s → ss_start s = 0%nat → ss_snapshot s = [] → l_drained y s →
  bytes (max_line_length o) ≤ usize_max → ParseLines_new o inner = Done v →
  let lines := decode_line_lossy <$> Lines.spec_lines o (concat bufs) in
  ∃ items, consume_sync v (turns_of (ss_seen s)) = consumed step eof inner items ∧
    item_lines items `sublist_of` lines ∧ (GapSeen ∈ items ∨ item_lines items = lines).
Proof.
  intros Hsize Hb Hne Hr Hab Hlog Hs Hst Hsn Hd Hu Hnew.
  destruct (lossy_observed name retention buffered size y id s Hb Hr Hab Hs) as (from & obs & Hf & Hex & _ & Hall & _).
  assert (from = 0%nat) as -> by (destruct Hf as [->|[? _]]; [done|lia]).
  destruct (reads_events name size Hsize bufs Hne) as (cs & Hcs & <-).
  rewrite drop_0, Hlog, Hcs in Hex. rewrite (Hall Hd), Hsn. by apply explained_lines.
Qed.

End single.

(** ** Running delivery steps *)

Section settle.
Context {M : Type} `{MpscLaws M IndexedEvent}.
Context (g : DeliveryGuarantee) (retention : option ReplayRetention) (buffered : N).
Implicit Types (s : System (M := M)).

(** A delivery step: the reader goes on, or a subscriber that has an event
    waiting takes it. *)
Definition deliver (a : action) s : option System :=
  match a with
  | ASend | AAppendDone => perform g retention buffered a s
  | ARecv h =>
      x ← s_subs s !! h;
      match (shared_recv (sub x) (s_bs s) (s_store s)).1.1.1 with
      | Ready (Some _) => perform g retention buffered a s
      | _ => None
      end
  | _ => None
  end.

Lemma deliver_productive a s s' : deliver a s = Some s' → productive g s s'.
Proof.
  destruct s as [bs st subs rd log]. destruct a; try done; simpl.
  - destruct rd as [|ie [|t ts] stale|]; try done.
    destruct (append_send g ie t st) as [[st' b]|] eqn:Hs; [|done]. intros [= <-].
    by apply (productive_send g bs st subs log ie [] t ts).
  - destruct rd as [|ie [|t ts] stale|]; try done. intros [= <-]. apply productive_done.
  - destruct (subs !! h) as [x|] eqn:Hx; [|done]. simpl.
    destruct (shared_recv (sub x) bs st) as [[[[[e|]|] y] bs'] st'] eqn:Hr; try done. simpl.
    intros Hp. assert (Some (mkSystem bs' st'
      (<[h := mkSub y (received x ++ [e]) (snapshot x) (sealed_before x) (attached_at x)]> subs) rd log) = Some s')
      as [= <-] by (by destruct rd). by apply productive_recv.
Qed.

Fixpoint deliver_all (acts : list action) s : option System :=
  match acts with
  | [] => Some s
  | a :: acts => s ← deliver a s; deliver_all acts s
  end.

Lemma deliver_all_run acts s s' : deliver_all acts s = Some s' → rtc (productive g) s s'.
Proof.
  revert s. induction acts as [|a acts IH]; intros s; simpl; [by intros [= <-]|].
  destruct (deliver a s) as [s1|] eqn:Ha; [|done]. simpl. intros Hs.
  eapply rtc_l; [by eapply deliver_productive|by apply IH].
Qed.

(** No delivery step is left. *)
Definition settled s : bool :=
  match s_reader s with RSending _ _ _ => false | _ => true end &&
  forallb (λ '(_, x), match (shared_recv (sub x) (s_bs s) (s_store s)).1.1.1 with
                      | Ready (Some _) => false
                      | _ => true
                      end) (map_to_list (s_subs s)).

Lemma settled_nf s : settled s = true → nf (productive g) s.
Proof.
  unfold settled. intros [Hrd Hall]%andb_true_iff [s' Hp].
  inversion Hp as [bs st subs rd log h x e y bs' st' Hx Hr| |]; subst; try done. simpl in *.
  rewrite forallb_forall in Hall. specialize (Hall (h, x)). cbv beta iota in Hall. rewrite Hr in Hall. simpl in Hall.
  enough (false = true) by done. apply Hall, list_elem_of_In, elem_of_map_to_list, Hx.
Qed.

End settle.

(** ** A run

    Two reads with a chunk size of two: ["a\nb"] and ["c\nd"], then end of
    file.  One subscriber attaches before the first event and receives only at
    the end, another in the middle; the buffers hold two events. *)

Module EndToEndDemo.

Definition bufs : list (list byte) := [[x61; newline; x62]; [x63; newline; x64]].

(** A chunk, handed to one or two subscribers that make room for it first. *)
Definition append1 (e : StreamEvent) : list action := [AAppend e; ASend; AAppendDone].
Definition append2 (e : StreamEvent) : list action := [AAppend e; ASend; ASend; AAppendDone].

Definition reliable_acts : list action :=
  ASubscribe 0 :: append1 (Chunk [x61; newline]) ++ append1 (Chunk [x62]) ++
  [ASubscribe 1; ARecv 0] ++ append2 (Chunk [x63; newline]) ++ [ARecv 0] ++ append2 (Chunk [x64]) ++
  [ARecv 1; ARecv 1; ARecv 1; ARecv 0; AAppend Eof].

Definition lossy_acts : list action :=
  ASubscribe 0 :: append1 (Chunk [x61; newline]) ++ append1 (Chunk [x62]) ++
  [ASubscribe 1] ++ append2 (Chunk [x63; newline]) ++ append2 (Chunk [x64]) ++ append2 Eof.

Definition reached (g : DeliveryGuarantee) (acts : list action) : System (M := ref_mpsc IndexedEvent) :=
  default initial (perform_all g (Some All) 2 acts initial).

(** What is left to do: the reader finishes the end of the stream, the
    subscribers take their events. *)
Definition reliable_rest : list action := [ASend; ARecv 0; ASend; AAppendDone; ARecv 0; ARecv 1; ARecv 1].
Definition lossy_rest : list action := replicate 3 (ARecv 0) ++ replicate 5 (ARecv 1).

Definition settle (g : DeliveryGuarantee) (acts rest : list action) : System (M := ref_mpsc IndexedEvent) :=
  default initial (deliver_all g (Some All) 2 rest (reached g acts)).

Definition reliable_end : System := settle GReliableWithBackpressure reliable_acts reliable_rest.
Definition lossy_end : System := settle GLossyWithoutBackpressure lossy_acts lossy_rest.

Definition sub_of (s : System (M := ref_mpsc IndexedEvent)) (h : N) : SubState :=
  default (mkSub (mkShared None [] 0 LClosed false) [] [] false 0) (s_subs s !! h).

Lemma reached_facts g acts :
  (g, acts) ∈ [(GReliableWithBackpressure, reliable_acts); (GLossyWithoutBackpressure, lossy_acts)] →
  reachable g (Some All) 2 (reached g acts) ∧ closed (s_bs (reached g acts)) = false ∧
  s_log (reached g acts) = reader_events "stdout" (mkNumBytes 2) (reads_of bufs).
Proof.
  rewrite !elem_of_cons, elem_of_nil. intros Hin.
  split_and!; [apply (perform_all_reachable _ _ _ acts initial); [apply reachable_initial|]|..];
    destruct Hin as [[= -> ->]|[[= -> ->]|[]]]; vm_compute; reflexivity.
Qed.

Lemma bufs_nonempty : Forall (λ buf, buf ≠ []) bufs.
Proof. repeat constructor; discriminate. Qed.

Lemma reliable_end_settled :
  rtc (productive GReliableWithBackpressure) (reached GReliableWithBackpressure reliable_acts) reliable_end ∧
  nf (productive GReliableWithBackpressure) reliable_end.
Proof.
  split; [apply (deliver_all_run _ (Some All) 2 reliable_rest)|apply settled_nf]; vm_compute; reflexivity.
Qed.

Lemma lossy_end_settled :
  rtc (productive GLossyWithoutBackpressure) (reached GLossyWithoutBackpressure lossy_acts) lossy_end ∧
  nf (productive GLossyWithoutBackpressure) lossy_end.
Proof.
  split; [apply (deliver_all_run _ (Some All) 2 lossy_rest)|apply settled_nf]; vm_compute; reflexivity.
Qed.

End EndToEndDemo.

Lemma broadcast_lines_complete_witness :
  consume_sync LineLog.start (turns_of (received (EndToEndDemo.sub_of EndToEndDemo.reliable_end 1))) =
    Finished (Ok [Some [x61]; Some [x62; x63]; Some [x64]]).
Proof.
  destruct (EndToEndDemo.reached_facts GReliableWithBackpressure EndToEndDemo.reliable_acts)
    as (Hr & Hc & Hl); [constructor|].
  destruct EndToEndDemo.reliable_end_settled as [Hrun Hnf].
  exact (proj2 (broadcast_lines_complete LineLog.step (λ v, v) "stdout" (mkNumBytes 2) 2
    ltac:(reflexivity) ltac:(lia) _ EndToEndDemo.bufs default_options (LineLog.mkLog []) LineLog.start
    EndToEndDemo.bufs_nonempty Hr Hc Hl ltac:(vm_compute; discriminate) eq_refl)
    _ 1 _ Hrun Hnf ltac:(vm_compute; reflexivity) ltac:(vm_compute; reflexivity)).
Defined.

Lemma broadcast_lossy_lines_genuine_witness :
  received (EndToEndDemo.sub_of EndToEndDemo.lossy_end 0) = [Gap; Chunk [x64]; Eof] ∧
  ∃ items, consume_sync LineLog.start (turns_of [Gap; Chunk [x64]; Eof])
             = consumed LineLog.step (λ v, v) (LineLog.mkLog []) items ∧
    item_lines items `sublist_of` [[x61]; [x62; x63]; [x64]] ∧
    (GapSeen ∈ items ∨ item_lines items = [[x61]; [x62; x63]; [x64]]).
Proof.
  split; [vm_compute; reflexivity|].
  destruct (EndToEndDemo.reached_facts GLossyWithoutBackpressure EndToEndDemo.lossy_acts)
    as (Hr & Hc & Hl); [do 2 constructor|].
  destruct EndToEndDemo.lossy_end_settled as [Hrun Hnf].
  exact (proj2 (broadcast_lossy_lines_genuine LineLog.step (λ v, v) "stdout" (mkNumBytes 2) 2
    ltac:(reflexivity) ltac:(lia) (Some All) _ EndToEndDemo.bufs default_options (LineLog.mkLog []) LineLog.start
    EndToEndDemo.bufs_nonempty Hr Hc Hl ltac:(vm_compute; discriminate) eq_refl)
    _ 0 (EndToEndDemo.sub_of EndToEndDemo.lossy_end 0) Hrun Hnf
    ltac:(vm_compute; reflexivity) ltac:(right; vm_compute; reflexivity)).
Defined.

(** The single-subscriber stream: the first subscriber leaves, the second gets
    everything. *)
Module SingleLinesDemo.

Definition acts : list s_action :=
  [DoSubscribe; DoRecord (Chunk [x61; newline]); DoDeliver; DoRecv 0; DoDrop 0;
   DoRecord (Chunk [x62]); DoDeliver; DoSubscribe; DoRecord (Chunk [x63; newline]); DoDeliver;
   DoRecv 1; DoRecv 1; DoRecord (Chunk [x64]); DoDeliver; DoRecv 1; DoRecord Eof].

Definition recorded : SSystem (M := ref_mpsc StreamEvent) :=
  default s_initial (s_perform_all "stdout" (Some All) 2 acts s_initial).

Definition rest : list s_action := [DoRecv 1; DoDeliver; DoRecv 1].

Definition over : SSystem (M := ref_mpsc StreamEvent) :=
  default s_initial (s_deliver_all "stdout" (Some All) 2 rest recorded).

Lemma recorded_reachable : s_reachable "stdout" (Some All) 2 recorded.
Proof.
  apply (s_perform_all_reachable _ _ _ acts s_initial); [apply s_reach_initial|vm_compute; reflexivity].
Qed.

Lemma over_settled : rtc s_productive recorded over ∧ nf s_productive over.
Proof.
  split; [apply (s_deliver_all_run "stdout" (Some All) 2 rest)|apply s_settled_nf]; vm_compute; reflexivity.
Qed.

Definition second : SSub := default (mkSSub (mkSingle 0 [] None false) [] 0 false []) (sy_subs over !! 1).

End SingleLinesDemo.

Lemma single_lines_complete_witness :
  consume_sync LineLog.start (turns_of (ss_seen SingleLinesDemo.second)) =
    Finished (Ok [Some [x61]; Some [x62; x63]; Some [x64]]).
Proof.
  destruct SingleLinesDemo.over_settled as [Hrun Hnf].
  exact (proj2 (single_lines_complete LineLog.step (λ v, v) "stdout" (mkNumBytes 2) 2 _ EndToEndDemo.bufs
    default_options (LineLog.mkLog []) LineLog.start ltac:(reflexivity) ltac:(lia) EndToEndDemo.bufs_nonempty
    SingleLinesDemo.recorded_reachable ltac:(vm_compute; discriminate) ltac:(vm_compute; reflexivity)
    ltac:(vm_compute; discriminate) eq_refl)
    _ 1 SingleLinesDemo.second Hrun Hnf ltac:(vm_compute; reflexivity) ltac:(vm_compute; reflexivity)).
Defined.
