(* ===== verification/Errors.v ===== *)
(** * Error and result types of the process side

    Models [src/error.rs] and [src/process_handle/termination/diagnostics.rs]:
    the result types of waiting, terminating and collecting, and the
    accumulator that turns the failed actions of one call into an error. *)

From S2P Require Import Prelude Time Stream Collect Consumer SingleSubscriber.

(** ** Durations in messages and exit status *)

(** [Debug] of a duration, [format!("{timeout:?}")]: whole seconds,
    milliseconds, microseconds or nanoseconds, and the digits behind the point
    without trailing zeros. *)
Fixpoint fraction_digits (n : nat) (fractional divisor : N) : String.string :=
  match n with
  | S n =>
      if fractional =? 0 then ""
      else String.append (pretty.pretty (fractional / divisor))
             (fraction_digits n (fractional mod divisor) (divisor / 10))
  | O => ""
  end.

Definition fmt_decimal (integer fractional divisor : N) (postfix : String.string) : String.string :=
  let digits := fraction_digits 9 fractional divisor in
  String.append (pretty.pretty integer)
    (String.append (if bool_decide (digits = ""%string) then "" else String.append "." digits) postfix).

Definition debug_duration (d : Duration) : String.string :=
  let secs := d / NANOS_PER_SEC in
  let nanos := d mod NANOS_PER_SEC in
  if 0 <? secs then fmt_decimal secs nanos 100000000 "s"
  else if 1000000 <=? nanos then fmt_decimal (nanos / 1000000) (nanos mod 1000000) 100000 "ms"
  else if 1000 <=? nanos then fmt_decimal (nanos / 1000) (nanos mod 1000) 100 "µs"
  else fmt_decimal nanos 0 1 "ns".

Example debug_duration_examples :
  debug_duration <$> [from_secs 3; from_millis 2700; from_millis 100; 1500050; 0; 1000001]
  = ["3s"; "2.7s"; "100ms"; "1.50005ms"; "0ns"; "1.000001ms"]%string.
Proof. vm_compute. reflexivity. Qed.

Record ExitStatus : Type := mkExitStatus { status_code : option N }.

#[export] Instance ExitStatus_eq_dec : EqDecision ExitStatus.
Proof. solve_decision. Defined.

(** ** Termination errors *)

Inductive TerminationAction : Type :=
| CheckStatus
| SendSignal (signal_name : String.string)
| WaitForExit.

Inductive WaitError : Type :=
| IoError (process_name : String.string) (source : io_error).

(** [Box<dyn Error>]: the two error types that are recorded. *)
Inductive AttemptSource : Type :=
| FromIo (e : io_error)
| FromWait (e : WaitError).

Record TerminationAttemptError : Type := mkAttempt {
  action : TerminationAction;
  source : AttemptSource;
}.

Inductive TerminationError : Type :=
| SignalFailed (process_name : String.string) (attempt_errors : list TerminationAttemptError)
| TerminationFailed (process_name : String.string) (attempt_errors : list TerminationAttemptError).

Definition termination_process_name (e : TerminationError) : String.string :=
  match e with SignalFailed n _ | TerminationFailed n _ => n end.

Definition attempt_errors (e : TerminationError) : list TerminationAttemptError :=
  match e with SignalFailed _ es | TerminationFailed _ es => es end.

#[export] Instance TerminationAction_eq_dec : EqDecision TerminationAction.
Proof. solve_decision. Defined.
#[export] Instance WaitError_eq_dec : EqDecision WaitError.
Proof. solve_decision. Defined.
#[export] Instance AttemptSource_eq_dec : EqDecision AttemptSource.
Proof. solve_decision. Defined.
#[export] Instance TerminationAttemptError_eq_dec : EqDecision TerminationAttemptError.
Proof. solve_decision. Defined.
#[export] Instance TerminationError_eq_dec : EqDecision TerminationError.
Proof. solve_decision. Defined.

(** *** Display *)

Definition display_action (a : TerminationAction) : String.string :=
  match a with
  | CheckStatus => "status check"
  | SendSignal n => String.append "send signal " n
  | WaitForExit => "exit wait"
  end.

Definition display_attempt (e : TerminationAttemptError) : String.string :=
  String.append (display_action (action e)) " failed".

(** [DisplayAttemptErrors]: the errors numbered from one. *)
Fixpoint display_attempts_from (index : N) (es : list TerminationAttemptError) : String.string :=
  match es with
  | [] => ""
  | e :: es =>
      String.append " ["
        (String.append (pretty.pretty (index + 1))
          (String.append "] "
            (String.append (display_attempt e) (display_attempts_from (index + 1) es))))
  end.

Definition display_attempt_errors (es : list TerminationAttemptError) : String.string :=
  match es with
  | [] => " No attempt error was recorded."
  | _ => String.append " Attempt errors:" (display_attempts_from 0 es)
  end.

(** ** Diagnostics *)

Record TerminationDiagnostics : Type := mkDiagnostics {
  recorded_errors : list TerminationAttemptError;
}.

Module Diagnostics.

Definition default : TerminationDiagnostics := mkDiagnostics [].

Definition record (d : TerminationDiagnostics) (a : TerminationAction) (e : AttemptSource)
    : TerminationDiagnostics :=
  mkDiagnostics (recorded_errors d ++ [mkAttempt a e]).

(** Both conversions assert that an error was recorded. *)
Definition into_termination_failed (d : TerminationDiagnostics) (name : String.string)
    : outcome TerminationError :=
  _ ← assert_that (negb (bool_decide (recorded_errors d = [])));
  mret (TerminationFailed name (recorded_errors d)).

Definition into_signal_failed (d : TerminationDiagnostics) (name : String.string)
    : outcome TerminationError :=
  _ ← assert_that (negb (bool_decide (recorded_errors d = [])));
  mret (SignalFailed name (recorded_errors d)).

Lemma into_termination_failed_record d a e name :
  into_termination_failed (record d a e) name
    = Done (TerminationFailed name (recorded_errors d ++ [mkAttempt a e])).
Proof. unfold into_termination_failed. simpl. by destruct (recorded_errors d). Qed.

Lemma into_signal_failed_record d a e name :
  into_signal_failed (record d a e) name
    = Done (SignalFailed name (recorded_errors d ++ [mkAttempt a e])).
Proof. unfold into_signal_failed. simpl. by destruct (recorded_errors d). Qed.

End Diagnostics.

(** ** Results of waiting *)

Inductive WaitForCompletionResult (T : Type) : Type :=
| Completed (t : T)
| Timeout (timeout : Duration).
Arguments Completed {T}.
Arguments Timeout {T}.

Definition wait_into_completed {T} (r : WaitForCompletionResult T) : option T :=
  match r with Completed t => Some t | Timeout _ => None end.

Definition wait_expect_completed {T} (r : WaitForCompletionResult T) : outcome T :=
  expect (wait_into_completed r).

Inductive WaitForCompletionOrTerminateResult (T : Type) : Type :=
| OtCompleted (t : T)
| TerminatedAfterTimeout (result : T) (timeout : Duration).
Arguments OtCompleted {T}.
Arguments TerminatedAfterTimeout {T}.

Definition into_result {T} (r : WaitForCompletionOrTerminateResult T) : T :=
  match r with OtCompleted t | TerminatedAfterTimeout t _ => t end.

Definition ot_into_completed {T} (r : WaitForCompletionOrTerminateResult T) : option T :=
  match r with OtCompleted t => Some t | TerminatedAfterTimeout _ _ => None end.

Definition ot_expect_completed {T} (r : WaitForCompletionOrTerminateResult T) : outcome T :=
  expect (ot_into_completed r).

Definition ot_map {T U} (f : T → U) (r : WaitForCompletionOrTerminateResult T)
    : WaitForCompletionOrTerminateResult U :=
  match r with
  | OtCompleted t => OtCompleted (f t)
  | TerminatedAfterTimeout t d => TerminatedAfterTimeout (f t) d
  end.

Inductive WaitOrTerminateError : Type :=
| WaitFailed (process_name : String.string) (wait_error : WaitError) (termination_status : ExitStatus)
| OtTerminationFailed (process_name : String.string) (wait_error : WaitError)
    (termination_error : TerminationError)
| TerminationAfterTimeoutFailed (process_name : String.string) (timeout : Duration)
    (termination_error : TerminationError).

Inductive WaitWithOutputError : Type :=
| WoWaitFailed (e : WaitError)
| WaitOrTerminateFailed (e : WaitOrTerminateError)
| OutputCollectionTimeout (process_name : String.string) (timeout : Duration)
| OutputCollectionFailed (process_name : String.string) (source : ConsumerError)
| OutputCollectionStartFailed (process_name : String.string) (source : StreamConsumerError).

(** The second constructor exists on Windows only. *)
Inductive SpawnError : Type :=
| SpawnFailed (process_name : String.string) (source : io_error)
| JobAttachmentFailed (process_name : String.string) (source : io_error).

Inductive WaitForLineResult : Type := Matched | StreamClosed | WaitForLineTimeout.

#[export] Instance WaitForLineResult_eq_dec : EqDecision WaitForLineResult.
Proof. solve_decision. Defined.
