(* ===== verification/LineWaiter.v ===== *)
(** * Waiting for a line, and the discard backend

    Models [wait_for_line] of the broadcast and the single-subscriber backend
    ([src/output_stream/backend/broadcast/mod.rs] and
    [single_subscriber/mod.rs]): a driver loop over a line adapter, raced
    against a timeout; and [src/output_stream/backend/discard/mod.rs], whose
    subscription ends at once. *)

From S2P Require Import Prelude Time Utf8 Stream Driver LineParser LineSpec.
From S2P Require Import ParseLines Collect Visitors Broadcast SingleSubscriber Errors.

(** ** Waiting for a line *)

Section waiter.
Context {B : Type} `{BytesMut B, Memchr}.

(** The future [wait_for_line] returns: [turns] are the turns of the driver
    before the timeout elapses.  The driver is polled before the timer, so an
    answer in time is never lost.  The cancellation token is held all the
    while. *)
Definition waiting_future (v : ParseLines B WaitForLine) (turns : list turn)
    : outcome (result WaitForLineResult StreamReadError) :=
  match consume_sync v turns with
  | Finished (Ok true) => mret (Ok Matched)
  | Finished (Ok false) => mret (Ok StreamClosed)
  | Finished (Err e) => mret (Err e)
  | Running _ => mret (Ok WaitForLineTimeout)
  | Panicked => Panic
  end.

(** The visitor is made when the method is called, the future runs it. *)
Definition wait_for_line (p : str → bool) (o : LineParsingOptions) (turns : list turn)
    : outcome (result WaitForLineResult StreamReadError) :=
  v ← ParseLines_new (B := B) o (WaitForLine_new p); waiting_future v turns.

(** The single-subscriber backend first claims the stream. *)
Definition single_wait_for_line {M} `{Mpsc M StreamEvent} (name : String.string)
    (retention : option ReplayRetention) (buffered : N) (w : ConfiguredShared (M := M))
    (p : str → bool) (o : LineParsingOptions)
    : outcome (result (SingleSubscriberSubscription * ConfiguredShared (M := M)
              * (list turn → outcome (result WaitForLineResult StreamReadError))) StreamConsumerError) :=
  sub ← single_subscribe name retention buffered w;
  match sub with
  | Err e => mret (Err e)
  | Ok (x, w) =>
      v ← ParseLines_new (B := B) o (WaitForLine_new p);
      mret (Ok (x, w, waiting_future v))
  end.

(** A driven adapter in the middle of a stream. *)
Lemma partial_session {S Out} `{LineVisitor S Out} (v : ParseLines B S) cs :
  adapter_wf v →
  match feed_lines on_line (pl_inner v) (decode_line_lossy <$> (adapter_run v (concat cs)).2) with
  | Panic => consume_sync v (turns_of (Chunk <$> cs)) = Panicked
  | Done (s, Break) => consume_sync v (turns_of (Chunk <$> cs)) = Finished (Ok (line_into_output s))
  | Done (s, Continue) => ∃ v', consume_sync v (turns_of (Chunk <$> cs)) = Running v' ∧
      pl_inner v' = s ∧ adapter_wf v' ∧ pl_options v' = pl_options v ∧
      abs (pl_parser v') = (adapter_run v (concat cs)).1
  end.
Proof.
  revert v. induction cs as [|c cs IH]; intros v Hwf; [simpl; eauto 10|].
  unfold adapter_run. cbn [concat]. rewrite Machine.run_app.
  pose proof (parse_chunk_ok on_line v c Hwf) as Hc. unfold chunk_result, adapter_run in Hc.
  destruct (Machine.run (pl_options v) (abs (pl_parser v)) c) as [st lines]. cbn [fst snd] in Hc.
  cbn [fst snd].
  rewrite fmap_app, feed_lines_app.
  change (turns_of (Chunk <$> c :: cs)) with (Event (Some (Chunk c)) :: turns_of (Chunk <$> cs)).
  cbn [consume_sync on_chunk parse_lines_visitor].
  destruct (feed_lines on_line (pl_inner v) (decode_line_lossy <$> lines)) as [[s []]|]; simpl.
  - destruct Hc as (v' & -> & <- & Ho & Habs & Hwf'). specialize (IH v' Hwf').
    unfold adapter_run in IH. rewrite Ho, Habs in IH.
    by destruct (feed_lines _ _ _) as [[s' []]|].
  - by destruct Hc as (v' & -> & <-).
  - by rewrite Hc.
Qed.

(** The lines completed by a stretch of bytes from the start of a stream. *)
Definition completed_lines (o : LineParsingOptions) (l : list byte) : list str :=
  decode_line_lossy <$> (Machine.run o (ReadingLine, []) l).2.

(** C36: the answer of [wait_for_line].  While the stream goes on, it is a match
    as soon as a completed line satisfies the predicate, and otherwise the
    timeout; at end of stream an unterminated last line counts as well, and
    without a match the stream was closed; a read error is reported unless a
    line had matched before it. *)
Theorem wait_for_line_outcome p o cs :
  bytes (max_line_length o) ≤ usize_max → bytes (max_line_length o) ≠ 0 →
  let found := existsb p (completed_lines o (concat cs)) in
  wait_for_line p o (turns_of (Chunk <$> cs)) = Done (Ok (if found then Matched else WaitForLineTimeout)) ∧
  wait_for_line p o (turns_of (Chunk <$> cs) ++ [Event (Some Eof)]) =
    Done (Ok (if existsb p (decode_line_lossy <$> Lines.spec_lines o (concat cs))
              then Matched else StreamClosed)) ∧
  (∀ e, wait_for_line p o (turns_of (Chunk <$> cs) ++ [Event (Some (ReadError e))]) =
    Done (if found then Ok Matched else Err e)).
Proof.
  intros Hu Hz found. unfold wait_for_line, waiting_future.
  destruct (ParseLines_new (B := B) o (WaitForLine_new p)) as [v|] eqn:Hnew.
  2: { unfold ParseLines_new, assert_max_line_length_non_zero in Hnew.
       by rewrite (proj2 (N.ltb_lt _ _)) in Hnew by lia. }
  destruct (new_adapter_wf o _ v Hu Hnew) as (Hwf & Ho & Hinner & Habs & _).
  pose proof (partial_session v cs Hwf) as Hp. unfold adapter_run in Hp.
  rewrite Ho, Hinner, Habs, feed_wait in Hp.
  change (existsb p (decode_line_lossy <$> (Machine.run o (ReadingLine, []) (concat cs)).2)) with found in Hp.
  assert (existsb p (decode_line_lossy <$> Lines.spec_lines o (concat cs)) =
    found || existsb p (decode_line_lossy <$> Machine.flush (Machine.run o (ReadingLine, []) (concat cs)).1)) as ->.
  { rewrite <- Lines.run_spec_lines. destruct (Machine.run o (ReadingLine, []) (concat cs)) as [st l] eqn:Hr.
    subst found. unfold completed_lines. rewrite Hr. simpl. by rewrite fmap_app, existsb_app. }
  cbn [mbind outcome_bind]. destruct found.
  - rewrite !Hp. split_and!; [done|by rewrite consume_sync_app, Hp|].
    intros e. by rewrite consume_sync_app, Hp.
  - destruct Hp as (v' & Hrun & Hin' & Hwf' & Ho' & Habs'). rewrite Hrun. split_and!; [done| |].
    + rewrite consume_sync_app, Hrun, session_eof by done. unfold finish_session.
      rewrite Hin', feed_wait, Habs'. cbn [orb]. by destruct (existsb p _).
    + intros e. by rewrite consume_sync_app, Hrun.
Qed.

End waiter.

Lemma wait_for_line_outcome_witness :
  wait_for_line (B := Reference.buffer) (λ l, bool_decide (l = [x61])) default_options
    (turns_of [Chunk [x62; newline]; Chunk [x61]] ++ [Event (Some Eof)]) = Done (Ok Matched).
Proof.
  destruct (wait_for_line_outcome (B := Reference.buffer) (λ l, bool_decide (l = [x61])) default_options
    [[x62; newline]; [x61]]) as (_ & Heof & _); [vm_compute; discriminate|vm_compute; discriminate|].
  simpl in Heof. exact Heof.
Defined.

(** ** The discard backend *)

Record DiscardedOutputStream : Type := mkDiscarded { discarded_name : String.string }.

Record ImmediateEof : Type := mkImmediateEof { eof_emitted : bool }.

Module Discarded.

Definition new (name : String.string) : DiscardedOutputStream := mkDiscarded name.
Definition try_subscribe (s : DiscardedOutputStream) : ImmediateEof := mkImmediateEof false.
Definition read_chunk_size (s : DiscardedOutputStream) : NumBytes := NumBytes.zero.
Definition max_buffered_chunks (s : DiscardedOutputStream) : N := 0.

End Discarded.

#[export] Instance immediate_eof_subscription : Subscription ImmediateEof := λ s,
  (Ready (if eof_emitted s then None else Some Eof), mkImmediateEof true).

(** The turns a subscription gives a driver that polls it [n] times. *)
Fixpoint subscription_turns {X} `{Subscription X} (n : nat) (x : X) : list turn :=
  match n with
  | O => []
  | S n =>
      let '(r, x) := next_event x in
      match r with
      | Ready e => Event e :: subscription_turns n x
      | Pending => subscription_turns n x
      end
  end.

(** Any visitor consumed on a discarded stream sees no chunk and is finished
    at its first event, end of stream; polled again the subscription keeps
    answering that there is nothing more. *)
Lemma discarded_consumer_ends {V Out} `{StreamVisitor V Out} (s : DiscardedOutputStream) (v : V) n :
  consume_sync v (subscription_turns (S n) (Discarded.try_subscribe s)) =
    match on_eof v with
    | Panic => Panicked
    | Done v => Finished (Ok (into_output v))
    end ∧
  subscription_turns (S n) (Discarded.try_subscribe s) = Event (Some Eof) :: replicate n (Event None).
Proof.
  assert (∀ n, subscription_turns n (mkImmediateEof true) = replicate n (Event None)) as Hrep.
  { clear. intros n. induction n as [|n IH]; simpl; [done|]. by rewrite IH. }
  split; [done|]. simpl. by rewrite Hrep.
Qed.
