(* ===== verification/ErrorSources.v ===== *)
(** * Messages and sources of the errors

    Models the [Display] and [Error::source] implementations of [src/error.rs]
    (derived from the [#[error]], [#[source]] and [#[from]] attributes), of
    [ConsumerError] in [consumer/mod.rs] and of [SinkWriteError] in
    [visitors/write.rs].  A [dyn Error] is the sum of the error types; the
    system's and the task's errors are its leaves.  How an exit status and a
    [JoinError] print is left open. *)

From S2P Require Import Prelude Time Stream Collect Visitors Consumer SingleSubscriber Errors.

Inductive DynError : Type :=
| DynIo (e : io_error)
| DynJoin (e : JoinError)
| DynStreamRead (e : StreamReadError)
| DynConsumer (e : ConsumerError)
| DynStreamConsumer (e : StreamConsumerError)
| DynSinkWrite (e : SinkWriteError)
| DynAttempt (e : TerminationAttemptError)
| DynTermination (e : TerminationError)
| DynWait (e : WaitError)
| DynWaitOrTerminate (e : WaitOrTerminateError)
| DynWaitWithOutput (e : WaitWithOutputError)
| DynSpawn (e : SpawnError).

(** ** Sources *)

Definition stream_read_source (e : StreamReadError) : DynError := DynIo (sre_source e).

Definition consumer_source (e : ConsumerError) : DynError :=
  match e with
  | TaskJoin _ source => DynJoin source
  | StreamRead source => DynStreamRead source
  end.

Definition sink_write_source (e : SinkWriteError) : DynError := DynIo (swe_source e).

Definition attempt_source (e : TerminationAttemptError) : DynError :=
  match source e with FromIo e => DynIo e | FromWait e => DynWait e end.

Definition wait_source (e : WaitError) : DynError := match e with IoError _ source => DynIo source end.

Definition wait_or_terminate_source (e : WaitOrTerminateError) : DynError :=
  match e with
  | WaitFailed _ wait_error _ => DynWait wait_error
  | OtTerminationFailed _ _ termination_error => DynTermination termination_error
  | TerminationAfterTimeoutFailed _ _ termination_error => DynTermination termination_error
  end.

Definition wait_with_output_source (e : WaitWithOutputError) : option DynError :=
  match e with
  | WoWaitFailed e => Some (DynWait e)
  | WaitOrTerminateFailed e => Some (DynWaitOrTerminate e)
  | OutputCollectionTimeout _ _ => None
  | OutputCollectionFailed _ source => Some (DynConsumer source)
  | OutputCollectionStartFailed _ source => Some (DynStreamConsumer source)
  end.

Definition spawn_source (e : SpawnError) : DynError :=
  match e with SpawnFailed _ source | JobAttachmentFailed _ source => DynIo source end.

(** [Error::source].  A termination error has none: its attempts are listed in
    the message and kept in [attempt_errors]. *)
Definition error_source (e : DynError) : option DynError :=
  match e with
  | DynIo _ | DynJoin _ | DynStreamConsumer _ | DynTermination _ => None
  | DynStreamRead e => Some (stream_read_source e)
  | DynConsumer e => Some (consumer_source e)
  | DynSinkWrite e => Some (sink_write_source e)
  | DynAttempt e => Some (attempt_source e)
  | DynWait e => Some (wait_source e)
  | DynWaitOrTerminate e => Some (wait_or_terminate_source e)
  | DynWaitWithOutput e => wait_with_output_source e
  | DynSpawn e => Some (spawn_source e)
  end.

(** ** Messages *)

Section display.
Context (display_status : ExitStatus → String.string) (display_join : JoinError → String.string).
Local Open Scope string_scope.

Definition display_stream_read (e : StreamReadError) : String.string :=
  "Could not read from stream '" +:+ sre_stream_name e +:+ "'".

Definition display_consumer (e : ConsumerError) : String.string :=
  match e with
  | TaskJoin stream_name _ =>
      "Failed to join/terminate the consumer task over stream '" +:+ stream_name +:+ "'."
  | StreamRead _ => "Failed to read stream."
  end.

Definition display_stream_consumer (e : StreamConsumerError) : String.string :=
  match e with ActiveConsumer stream_name => "Stream '" +:+ stream_name +:+ "' already has an active consumer" end.

Definition display_termination (e : TerminationError) : String.string :=
  match e with
  | SignalFailed process_name attempt_errors =>
      "Failed to send signal to process '" +:+ process_name +:+ "'." +:+ display_attempt_errors attempt_errors
  | TerminationFailed process_name attempt_errors =>
      "Failed to terminate process '" +:+ process_name +:+ "'." +:+ display_attempt_errors attempt_errors
  end.

Definition display_wait (e : WaitError) : String.string :=
  match e with
  | IoError process_name _ => "IO error occurred while waiting for process '" +:+ process_name +:+ "'"
  end.

Definition display_wait_or_terminate (e : WaitOrTerminateError) : String.string :=
  match e with
  | WaitFailed process_name _ termination_status =>
      "Waiting for process '" +:+ process_name +:+ "' failed; cleanup termination completed with status "
      +:+ display_status termination_status
  | OtTerminationFailed process_name wait_error _ =>
      "Termination of process '" +:+ process_name +:+ "' failed after '" +:+ display_wait wait_error +:+ "'."
  | TerminationAfterTimeoutFailed process_name timeout _ =>
      "Process '" +:+ process_name +:+ "' did not complete within " +:+ debug_duration timeout
      +:+ "; cleanup termination failed"
  end.

Definition display_wait_with_output (e : WaitWithOutputError) : String.string :=
  match e with
  | WoWaitFailed _ => "Waiting for process completion failed"
  | WaitOrTerminateFailed _ => "Wait-or-terminate operation failed"
  | OutputCollectionTimeout process_name timeout =>
      "Output collection for process '" +:+ process_name +:+ "' did not complete within " +:+ debug_duration timeout
  | OutputCollectionFailed process_name _ =>
      "Output collection for process '" +:+ process_name +:+ "' failed"
  | OutputCollectionStartFailed process_name _ =>
      "Output collection for process '" +:+ process_name +:+ "' could not start"
  end.

Definition display_spawn (e : SpawnError) : String.string :=
  match e with
  | SpawnFailed process_name _ => "Failed to spawn process '" +:+ process_name +:+ "'"
  | JobAttachmentFailed process_name _ =>
      "Failed to attach spawned process '" +:+ process_name +:+ "' to a Windows Job Object"
  end.

Definition display (e : DynError) : String.string :=
  match e with
  | DynIo e => message e
  | DynJoin e => display_join e
  | DynStreamRead e => display_stream_read e
  | DynConsumer e => display_consumer e
  | DynStreamConsumer e => display_stream_consumer e
  | DynSinkWrite e => display_sink_write_error message e
  | DynAttempt e => display_attempt e
  | DynTermination e => display_termination e
  | DynWait e => display_wait e
  | DynWaitOrTerminate e => display_wait_or_terminate e
  | DynWaitWithOutput e => display_wait_with_output e
  | DynSpawn e => display_spawn e
  end.

End display.

(** ** Following the sources *)

(** An error and its sources, at most [n] of them. *)
Fixpoint sources (n : nat) (e : DynError) : list DynError :=
  e :: match n with
       | O => []
       | S n => match error_source e with Some e => sources n e | None => [] end
       end.

(** How many sources an error has at most. *)
Definition depth (e : DynError) : nat :=
  match e with
  | DynIo _ | DynJoin _ | DynStreamConsumer _ | DynTermination _ => 0
  | DynStreamRead _ | DynWait _ | DynSpawn _ | DynSinkWrite _ => 1
  | DynConsumer _ | DynAttempt _ | DynWaitOrTerminate _ => 2
  | DynWaitWithOutput _ => 3
  end.

Lemma source_depth e e' : error_source e = Some e' → (depth e' < depth e)%nat.
Proof.
  destruct e as [| |e|[]|e|e|[? []]|e|[]|[]|[]|[]]; simpl; intros Hs; simplify_eq/=; lia.
Qed.

Lemma sources_enough n e : (depth e ≤ n)%nat → sources n e = sources (depth e) e.
Proof.
  revert e. induction n as [n IH] using lt_wf_ind. intros e Hn. destruct n as [|n].
  { by replace (depth e) with 0%nat by lia. }
  destruct (error_source e) as [e'|] eqn:He; cbn [sources]; rewrite He.
  - pose proof (source_depth e e' He) as Hd. destruct (depth e) as [|d] eqn:Hde; [lia|].
    cbn [sources]. rewrite He. f_equal. rewrite (IH n) by lia. symmetry. destruct (decide (d = n)) as [->|].
    + apply IH; lia.
    + apply IH; lia.
  - by destruct (depth e); cbn [sources]; rewrite ?He.
Qed.

(** Following [source] from any error of the crate ends after at most three
    steps. *)
Lemma sources_stable e n : (3 ≤ n)%nat → sources n e = sources 3 e.
Proof.
  assert (depth e ≤ 3)%nat as Hd by (destruct e; simpl; lia).
  intros Hn. by rewrite (sources_enough n), (sources_enough 3) by lia.
Qed.

(** An attempt recorded in a failed termination leads to an [io::Error]. *)
Lemma attempt_root a : ∃ io, last (sources 2 (DynAttempt a)) = Some (DynIo io).
Proof. destruct a as [? [io|[? io]]]; by exists io. Qed.

(** The message of a termination that could neither signal nor wait. *)
Example termination_message :
  display_termination (TerminationFailed "demo"
    [mkAttempt (SendSignal "SIGTERM") (FromIo (mkIoError PermissionDenied "denied"));
     mkAttempt WaitForExit (FromWait (IoError "demo" (mkIoError Other "lost")))])
  = "Failed to terminate process 'demo'. Attempt errors: [1] send signal SIGTERM failed [2] exit wait failed"%string.
Proof. vm_compute. reflexivity. Qed.
