(* ===== verification/Shutdown.v ===== *)
(** * Graceful-shutdown policies

    Models [src/process_handle/termination/shutdown.rs]: the phases of a
    shutdown, their constructors, and the typestate builder.  The value and the
    builder have one set of fields per platform: the definitions at top level
    are those of Unix, module [OnWindows] has those of Windows.  The setters for
    the other platform accept their argument and ignore it. *)

From S2P Require Import Prelude Time Stream Errors.

Inductive UnixGracefulSignal : Type := Interrupt | Terminate.

#[export] Instance UnixGracefulSignal_eq_dec : EqDecision UnixGracefulSignal.
Proof. solve_decision. Defined.

Definition label (s : UnixGracefulSignal) : String.string :=
  match s with Interrupt => "SIGINT" | Terminate => "SIGTERM" end.

Record UnixGracefulPhase : Type := mkPhase { signal : UnixGracefulSignal; phase_timeout : Duration }.

Definition phase_interrupt (d : Duration) : UnixGracefulPhase := mkPhase Interrupt d.
Definition phase_terminate (d : Duration) : UnixGracefulPhase := mkPhase Terminate d.

Record UnixGracefulShutdown : Type := mkUnix { phases : list UnixGracefulPhase }.

Module UnixGracefulShutdown.

Definition single (p : UnixGracefulPhase) : UnixGracefulShutdown := mkUnix [p].
Definition terminate_only (d : Duration) : UnixGracefulShutdown := single (phase_terminate d).
Definition interrupt_only (d : Duration) : UnixGracefulShutdown := single (phase_interrupt d).

Definition from_phases (ps : list UnixGracefulPhase) : outcome UnixGracefulShutdown :=
  _ ← assert_that (negb (bool_decide (ps = [])));
  mret (mkUnix ps).

Definition total_timeout (s : UnixGracefulShutdown) : outcome Duration :=
  sum_durations (phase_timeout <$> phases s).

End UnixGracefulShutdown.

Record WindowsGracefulShutdown : Type := mkWindows { windows_timeout : Duration }.

(** On Unix the value carries the Unix sequence only. *)
Record GracefulShutdown : Type := mkGraceful { unix : UnixGracefulShutdown }.

Definition total_timeout (s : GracefulShutdown) : outcome Duration :=
  UnixGracefulShutdown.total_timeout (unix s).

(** The builder's states are type indices, as in the source. *)
Module GracefulShutdownBuilder.

Inductive state : Type := UnixUnset | UnixSet | BothSet.

Record t (s : state) : Type := mk { b_unix : option UnixGracefulShutdown }.
Arguments mk {s}.
Arguments b_unix {s}.

Definition builder : t UnixUnset := mk None.

Definition set_unix (b : t UnixUnset) (s : UnixGracefulShutdown) : t UnixSet := mk (Some s).
Definition unix_sigterm (b : t UnixUnset) (d : Duration) : t UnixSet :=
  mk (Some (UnixGracefulShutdown.terminate_only d)).
Definition unix_sigint (b : t UnixUnset) (d : Duration) : t UnixSet :=
  mk (Some (UnixGracefulShutdown.interrupt_only d)).

Definition set_windows (b : t UnixSet) (s : WindowsGracefulShutdown) : t BothSet := mk (b_unix b).
Definition windows_ctrl_break (b : t UnixSet) (d : Duration) : t BothSet := mk (b_unix b).

Definition build (b : t BothSet) : outcome GracefulShutdown :=
  s ← expect (b_unix b); mret (mkGraceful s).

End GracefulShutdownBuilder.

Module OnWindows.

Record GracefulShutdown : Type := mkGraceful { windows : WindowsGracefulShutdown }.

Definition total_timeout (s : GracefulShutdown) : Duration := windows_timeout (windows s).

Module Builder.
Import GracefulShutdownBuilder (state(..)).

Record t (s : state) : Type := mk { b_windows : WindowsGracefulShutdown }.
Arguments mk {s}.
Arguments b_windows {s}.

Definition builder : t UnixUnset := mk (mkWindows 0).

Definition set_unix (b : t UnixUnset) (s : UnixGracefulShutdown) : t UnixSet := mk (b_windows b).
Definition unix_sigterm (b : t UnixUnset) (d : Duration) : t UnixSet := mk (b_windows b).
Definition unix_sigint (b : t UnixUnset) (d : Duration) : t UnixSet := mk (b_windows b).

Definition set_windows (b : t UnixSet) (s : WindowsGracefulShutdown) : t BothSet := mk s.
Definition windows_ctrl_break (b : t UnixSet) (d : Duration) : t BothSet := mk (mkWindows d).

Definition build (b : t BothSet) : GracefulShutdown := mkGraceful (b_windows b).

End Builder.
End OnWindows.

(** A shutdown that can be built: the fields are private, so these are the only
    ways to obtain one. *)
Inductive constructible : UnixGracefulShutdown → Prop :=
| built_single p : constructible (UnixGracefulShutdown.single p)
| built_phases ps s : UnixGracefulShutdown.from_phases ps = Done s → constructible s.

Lemma constructible_phases s : constructible s → phases s ≠ [].
Proof.
  destruct 1 as [|ps s Hs]; [done|]. unfold UnixGracefulShutdown.from_phases in Hs.
  case_bool_decide as Hn; [done|]. by injection Hs as <-.
Qed.

(** The shutdown builder never panics, whichever Unix setter is used, and
    its result carries exactly the sequence it was given; a sequence that
    exists has at least one phase. *)
Lemma shutdown_builder_total (s : UnixGracefulShutdown) (d d' : Duration) :
  let b := GracefulShutdownBuilder.builder in
  GracefulShutdownBuilder.build (GracefulShutdownBuilder.windows_ctrl_break
    (GracefulShutdownBuilder.set_unix b s) d) = Done (mkGraceful s) ∧
  GracefulShutdownBuilder.build (GracefulShutdownBuilder.windows_ctrl_break
    (GracefulShutdownBuilder.unix_sigterm b d') d) = Done (mkGraceful (mkUnix [mkPhase Terminate d'])) ∧
  GracefulShutdownBuilder.build (GracefulShutdownBuilder.set_windows
    (GracefulShutdownBuilder.unix_sigint b d') (mkWindows d)) = Done (mkGraceful (mkUnix [mkPhase Interrupt d'])) ∧
  (∀ ps, UnixGracefulShutdown.from_phases ps = Panic ↔ ps = []).
Proof.
  split_and!; try done. intros ps. unfold UnixGracefulShutdown.from_phases.
  case_bool_decide as Hn; simpl; [done|]. split; [done|]. by intros ->.
Qed.
