(* ===== verification/Process.v ===== *)
(** * The process handle

    Models [src/process_handle/]: [mod.rs] (the handle, its stdin, status
    queries), [group/mod.rs] (signal delivery to the process group),
    [drop_guard.rs] and [src/panic_on_drop.rs] (the armed drop), [wait.rs],
    [signal.rs] and [termination/mod.rs] (kill, start_kill, the escalation
    loop).

    Tokio's [Child] is the class [Child]; the parts of the code that are compiled
    per platform are the class [Platform], and the common code is written
    against it.  The Unix instance, over process groups ([Os]), and the
    operations that exist on Unix only are in the second half; [Windows] has the
    other instance.  Operations are a state monad over the handle and the
    system, whose [outcome] is the panic of an assertion.  Logging is not
    modelled. *)

From S2P Require Import Prelude Time Stream Errors Shutdown.

(** ** Tokio's [Child] and the operating system *)

Inductive Signal : Type := SIGINT | SIGTERM | SIGKILL.

#[export] Instance Signal_eq_dec : EqDecision Signal.
Proof. solve_decision. Defined.

Abbreviation pid := N (only parsing).

Class Child (W : Type) := {
  (** [Child::id]: [None] once the child was polled to completion. *)
  os_id : W → option pid;
  (** [Child::try_wait]. *)
  os_try_wait : W → result (option ExitStatus) io_error * W;
  (** [tokio::time::timeout(d, child.wait())]; [None] when the time elapsed. *)
  os_wait : Duration → W → option (result ExitStatus io_error) * W;
  (** [child.wait()], awaited without a limit. *)
  os_wait_unbounded : W → result ExitStatus io_error * W;
}.

(** The child's id changes only when its exit status is collected. *)
Class ChildLaws (W : Type) `{Child W} : Prop := {
  try_wait_id w r w' : os_try_wait w = (r, w') → (∀ st, r ≠ Ok (Some st)) → os_id w' = os_id w;
  wait_id d w r w' : os_wait d w = (r, w') → (∀ st, r ≠ Some (Ok st)) → os_id w' = os_id w;
}.

(** What [cfg] selects: the label of the forceful kill and the group's
    [send_kill]. *)
Class Platform (W : Type) := {
  KILL_LABEL : String.string;
  platform_kill : W → result unit io_error * W;
}.

(** A Unix system: [nix::sys::signal::killpg]. *)
Class Os (W : Type) := {
  os_child : Child W;
  os_killpg : pid → Signal → W → result unit io_error * W;
}.
#[export] Existing Instance os_child | 10.

Class OsLaws (W : Type) `{Os W} : Prop := {
  os_child_laws : ChildLaws W;
  killpg_id p s w r w' : os_killpg p s w = (r, w') → os_id w' = os_id w;
}.
#[export] Existing Instance os_child_laws | 10.

(** ** Panic guard and drop mode *)

Record PanicOnDrop : Type := mkGuard {
  resource_name : String.string;
  error_msg : String.string;
  help_msg : String.string;
  armed : bool;
}.

Module PanicOnDrop.

Definition new (resource error help : String.string) : PanicOnDrop := mkGuard resource error help true.
Definition defuse (g : PanicOnDrop) : PanicOnDrop :=
  mkGuard (resource_name g) (error_msg g) (help_msg g) false.
Definition is_armed (g : PanicOnDrop) : bool := armed g.

(** [Drop]: whether it panics, given whether the thread already does. *)
Definition drop_panics (panicking : bool) (g : PanicOnDrop) : bool := is_armed g && negb panicking.

End PanicOnDrop.

Inductive DropMode : Type :=
| Armed (panic : PanicOnDrop)
| Disarmed.

Definition armed_panic_guard : PanicOnDrop :=
  PanicOnDrop.new "tokio_process_tools::ProcessHandle" "The process was not terminated."
    "Successfully call `wait_for_completion`, `terminate`, or `kill`, or call `must_not_be_terminated` before the type is dropped!".

Definition new_armed_drop_mode : DropMode := Armed armed_panic_guard.

(** Whether dropping the value of a drop mode panics. *)
Definition mode_drop_panics (panicking : bool) (m : DropMode) : bool :=
  match m with Armed g => PanicOnDrop.drop_panics panicking g | Disarmed => false end.

(** ** The handle *)

Inductive Stdin : Type := StdinOpen | StdinClosed.

Definition stdin_is_open (s : Stdin) : bool := match s with StdinOpen => true | StdinClosed => false end.
Definition stdin_close (s : Stdin) : Stdin := StdinClosed.

(** [Stdin::as_mut]: the pipe to write to, if it is still there. *)
Definition stdin_as_mut (s : Stdin) : option unit :=
  match s with StdinOpen => Some () | StdinClosed => None end.

Inductive RunningState : Type :=
| StillRunning
| Terminated (status : ExitStatus)
| Uncertain (err : io_error).

Definition is_definitely_running (s : RunningState) : bool :=
  match s with StillRunning => true | Terminated _ | Uncertain _ => false end.

Record ProcessHandle (Out Err : Type) : Type := mkHandle {
  h_name : String.string;
  std_in : Stdin;
  std_out_stream : Out;
  std_err_stream : Err;
  drop_mode : DropMode;
}.
Arguments mkHandle {Out Err}.
Arguments h_name {Out Err}.
Arguments std_in {Out Err}.
Arguments std_out_stream {Out Err}.
Arguments std_err_stream {Out Err}.
Arguments drop_mode {Out Err}.

(** ** Operations as state transformers *)

Definition st (S A : Type) : Type := S → outcome (A * S).

#[export] Instance st_ret {S} : MRet (st S) := λ A a s, Done (a, s).
#[export] Instance st_bind {S} : MBind (st S) := λ A B f m s,
  match m s with Done (a, s) => f a s | Panic => Panic end.

Definition lift {S A} (o : outcome A) : st S A := λ s,
  match o with Done a => Done (a, s) | Panic => Panic end.

(** [GracefulShutdown] (here [G]) and [ProcessHandle::terminate], which every
    platform has in its own form. *)
Class Graceful (W G : Type) := {
  graceful_terminate {Stdout Stderr : Type} (s : G)
    : st (ProcessHandle Stdout Stderr * W) (result ExitStatus TerminationError);
}.

Section process.
Context {W Stdout Stderr : Type} `{Child W} `{Platform W}.

Abbreviation handle := (ProcessHandle Stdout Stderr).
Definition act (A : Type) : Type := st (handle * W) A.

Definition on_handle (f : handle → handle) : act unit := λ '(h, w), Done ((), (f h, w)).
Definition get_handle : act handle := λ '(h, w), Done (h, (h, w)).
Definition on_os {A} (f : W → A * W) : act A := λ '(h, w), let '(a, w) := f w in Done (a, (h, w)).

Definition set_drop_mode (m : DropMode) (h : handle) : handle :=
  mkHandle (h_name h) (std_in h) (std_out_stream h) (std_err_stream h) m.
Definition set_stdin (s : Stdin) (h : handle) : handle :=
  mkHandle (h_name h) s (std_out_stream h) (std_err_stream h) (drop_mode h).

Definition close_stdin : act unit := on_handle (λ h, set_stdin (stdin_close (std_in h)) h).

(** *** Drop guard *)

(** The value the assignment of [Disarmed] drops. *)
Definition defused_mode (m : DropMode) : DropMode :=
  match m with Armed g => Armed (PanicOnDrop.defuse g) | Disarmed => Disarmed end.

Definition must_not_be_terminated : act unit := λ '(h, w),
  if mode_drop_panics false (defused_mode (drop_mode h)) then Panic
  else Done ((), (set_drop_mode Disarmed h, w)).

Definition must_be_terminated : act unit := λ '(h, w),
  match drop_mode h with
  | Armed g =>
      if PanicOnDrop.is_armed g then Done ((), (h, w))
      else Done ((), (set_drop_mode (Armed armed_panic_guard) h, w))
  | Disarmed => Done ((), (set_drop_mode (Armed armed_panic_guard) h, w))
  end.

Definition is_drop_armed (h : handle) : bool :=
  match drop_mode h with Armed g => PanicOnDrop.is_armed g | Disarmed => false end.
Definition is_drop_disarmed (h : handle) : bool :=
  match drop_mode h with Armed _ => false | Disarmed => true end.

(** *** The group *)

Definition send_kill_signal : act (result unit io_error) := on_os platform_kill.

Definition handle_id (w : W) : option pid := os_id w.

Definition try_reap_exit_status : act (result (option ExitStatus) io_error) := on_os os_try_wait.

Definition is_running : act RunningState :=
  r ← try_reap_exit_status;
  mret match r with
       | Ok None => StillRunning
       | Ok (Some status) => Terminated status
       | Err e => Uncertain e
       end.

(** [Drop] of the handle and then of its fields: whether it panics. *)
Definition handle_drop (panicking : bool) (h : handle) (w : W) : bool * W :=
  let w :=
    match drop_mode h with
    | Armed _ => (platform_kill w).2
    | Disarmed => w
    end in
  (mode_drop_panics panicking (drop_mode h), w).

(** [into_inner]: the guards are disarmed, the parts are moved out, and the
    name and the drop mode are dropped in place; the handle's own [Drop] does
    not run.  The child comes back as the system holds it. *)
Definition into_inner : handle * W → outcome (Stdin * Stdout * Stderr * W) := λ s,
  '(_, (h, w)) ← must_not_be_terminated s;
  if mode_drop_panics false (drop_mode h) then Panic
  else Done (std_in h, std_out_stream h, std_err_stream h, w).

(** Whatever the drop mode, the caller gets every part back, the child is not
    signalled, and nothing panics. *)
Lemma into_inner_detaches (h : handle) (w : W) :
  into_inner (h, w) = Done (std_in h, std_out_stream h, std_err_stream h, w).
Proof. unfold into_inner, must_not_be_terminated. destruct h as [n i o e [g|]]; done. Qed.

(** *** Waiting *)

(** [tokio::time::timeout(timeout, self.wait())]: the first poll closes stdin;
    an exit disarms the guards. *)
Definition wait_within (d : Duration) : act (option (result ExitStatus io_error)) :=
  _ ← close_stdin;
  r ← on_os (os_wait d);
  match r with
  | Some (Ok status) => _ ← must_not_be_terminated; mret (Some (Ok status))
  | r => mret r
  end.

Definition wait_unbounded : act (result ExitStatus io_error) :=
  _ ← close_stdin;
  r ← on_os os_wait_unbounded;
  match r with
  | Ok status => _ ← must_not_be_terminated; mret (Ok status)
  | r => mret r
  end.

Definition wait_for_completion_inner (d : Duration)
    : act (result (WaitForCompletionResult ExitStatus) WaitError) :=
  r ← wait_within d;
  h ← get_handle;
  mret match r with
       | Some (Ok status) => Ok (Completed status)
       | Some (Err e) => Err (IoError (h_name h) e)
       | None => Ok (Timeout d)
       end.

Definition wait_for_completion_unbounded : act (result ExitStatus WaitError) :=
  r ← wait_unbounded;
  h ← get_handle;
  mret (map_err (IoError (h_name h)) r).

Definition wait_for_exit_after_signal (d : Duration) : act (result (option ExitStatus) WaitError) :=
  r ← wait_for_completion_inner d;
  mret match r with
       | Ok (Completed status) => Ok (Some status)
       | Ok (Timeout _) => Ok None
       | Err e => Err e
       end.

(** *** Termination *)

Definition FORCE_KILL_WAIT_TIMEOUT : Duration := from_secs 3.
Definition REAP_AFTER_SIGNAL_FAILURE_GRACE : Duration := from_millis 100.

Record TerminationStep : Type := mkStep { signal_label : String.string; step_timeout : Duration }.

Definition wait_timeout_error (d : Duration) : io_error :=
  mkIoError TimedOut (String.append "process did not complete within " (debug_duration d)).

(** [diagnostics.into_termination_failed(self.name.clone())]. *)
Definition termination_failed {A} (d : TerminationDiagnostics) : act (result A TerminationError) :=
  h ← get_handle;
  e ← lift (Diagnostics.into_termination_failed d (h_name h));
  mret (Err e).

Definition signal_failed {A} (d : TerminationDiagnostics) : act (result A TerminationError) :=
  h ← get_handle;
  e ← lift (Diagnostics.into_signal_failed d (h_name h));
  mret (Err e).

Definition kill : act (result unit TerminationError) :=
  _ ← close_stdin;
  sent ← send_kill_signal;
  match sent with
  | Err err =>
      termination_failed (Diagnostics.record Diagnostics.default (SendSignal KILL_LABEL) (FromIo err))
  | Ok _ =>
      waited ← wait_for_completion_unbounded;
      match waited with
      | Err err =>
          termination_failed (Diagnostics.record Diagnostics.default WaitForExit (FromWait err))
      | Ok _ => mret (Ok ())
      end
  end.

Definition start_kill : act (result unit TerminationError) :=
  _ ← close_stdin;
  sent ← send_kill_signal;
  match sent with
  | Ok _ => _ ← must_not_be_terminated; mret (Ok ())
  | Err err =>
      let d := Diagnostics.record Diagnostics.default (SendSignal KILL_LABEL) (FromIo err) in
      reaped ← try_reap_exit_status;
      match reaped with
      | Ok (Some _) => _ ← must_not_be_terminated; mret (Ok ())
      | Ok None => termination_failed d
      | Err reap_error =>
          termination_failed (Diagnostics.record d CheckStatus (FromIo reap_error))
      end
  end.

Definition attempt_graceful_phase (signal_name : String.string) (timeout : Duration)
    (d : TerminationDiagnostics) (send : act (result unit io_error))
    : act (option ExitStatus * TerminationDiagnostics) :=
  sent ← send;
  match sent with
  | Ok _ =>
      r ← wait_for_exit_after_signal timeout;
      mret match r with
           | Ok (Some status) => (Some status, d)
           | Ok None => (None, Diagnostics.record d WaitForExit (FromIo (wait_timeout_error timeout)))
           | Err wait_error => (None, Diagnostics.record d WaitForExit (FromWait wait_error))
           end
  | Err send_error =>
      let d := Diagnostics.record d (SendSignal signal_name) (FromIo send_error) in
      r ← wait_for_exit_after_signal REAP_AFTER_SIGNAL_FAILURE_GRACE;
      mret match r with
           | Ok (Some status) => (Some status, d)
           | Ok None => (None, d)
           | Err reap_error => (None, Diagnostics.record d CheckStatus (FromWait reap_error))
           end
  end.

Definition attempt_forceful_kill (d : TerminationDiagnostics) : act (result ExitStatus TerminationError) :=
  sent ← send_kill_signal;
  match sent with
  | Ok _ =>
      r ← wait_for_exit_after_signal FORCE_KILL_WAIT_TIMEOUT;
      match r with
      | Ok (Some status) => mret (Ok status)
      | Ok None =>
          termination_failed (Diagnostics.record d WaitForExit
            (FromIo (wait_timeout_error FORCE_KILL_WAIT_TIMEOUT)))
      | Err e => termination_failed (Diagnostics.record d WaitForExit (FromWait e))
      end
  | Err kill_error =>
      let d := Diagnostics.record d (SendSignal KILL_LABEL) (FromIo kill_error) in
      r ← wait_for_exit_after_signal REAP_AFTER_SIGNAL_FAILURE_GRACE;
      match r with
      | Ok (Some status) => mret (Ok status)
      | Ok None => termination_failed d
      | Err reap_error => termination_failed (Diagnostics.record d CheckStatus (FromWait reap_error))
      end
  end.

(** The [for] loop over the graceful steps. *)
Fixpoint graceful_phases (steps : list TerminationStep) (index : nat)
    (send : nat → TerminationStep → act (result unit io_error)) (d : TerminationDiagnostics)
    : act (option ExitStatus * TerminationDiagnostics) :=
  match steps with
  | [] => mret (None, d)
  | step :: steps =>
      '(o, d) ← attempt_graceful_phase (signal_label step) (step_timeout step) d (send index step);
      match o with
      | Some status => mret (Some status, d)
      | None => graceful_phases steps (S index) send d
      end
  end.

Definition disarm_after_successful_termination {T} (r : result T TerminationError)
    : act (result T TerminationError) :=
  if is_ok r then _ ← must_not_be_terminated; mret r else mret r.

(** The part of the loop's block after the preflight check. *)
Definition escalate (steps : list TerminationStep)
    (send : nat → TerminationStep → act (result unit io_error)) (d : TerminationDiagnostics)
    : act (result ExitStatus TerminationError) :=
  '(o, d) ← graceful_phases steps 0 send d;
  match o with
  | Some status => mret (Ok status)
  | None => attempt_forceful_kill d
  end.

Definition run_termination_loop (steps : list TerminationStep)
    (reap : act (result (option ExitStatus) io_error))
    (send : nat → TerminationStep → act (result unit io_error))
    : act (result ExitStatus TerminationError) :=
  _ ← lift (assert_that (negb (bool_decide (length steps = 0%nat))));
  pre ← reap;
  r ← match pre with
      | Ok (Some status) => mret (Ok status)
      | Ok None => escalate steps send Diagnostics.default
      | Err e =>
          escalate steps send (Diagnostics.record Diagnostics.default CheckStatus (FromIo e))
      end;
  disarm_after_successful_termination r.

(** *** Manual signals *)

Definition send_signal_with_reaper (signal_name : String.string)
    (send : act (result unit io_error)) (reap : act (result (option ExitStatus) io_error))
    : act (result unit TerminationError) :=
  let d := Diagnostics.default in
  pre ← reap;
  match pre with
  | Ok (Some _) => _ ← must_not_be_terminated; mret (Ok ())
  | Ok None =>
      sent ← send;
      match sent with
      | Ok _ => mret (Ok ())
      | Err signal_error =>
          again ← reap;
          let d := Diagnostics.record d (SendSignal signal_name) (FromIo signal_error) in
          match again with
          | Ok (Some _) => _ ← must_not_be_terminated; mret (Ok ())
          | Ok None => signal_failed d
          | Err reap_error => signal_failed (Diagnostics.record d CheckStatus (FromIo reap_error))
          end
      end
  | Err status_error => signal_failed (Diagnostics.record d CheckStatus (FromIo status_error))
  end.

(** *** Waiting with termination *)

Context {G : Type} `{Graceful W G}.

Definition terminate_after_wait_timeout (d : Duration) (s : G)
    : act (result (WaitForCompletionOrTerminateResult ExitStatus) WaitOrTerminateError) :=
  h ← get_handle;
  r ← graceful_terminate s;
  mret match r with
       | Ok status => Ok (TerminatedAfterTimeout status d)
       | Err e => Err (TerminationAfterTimeoutFailed (h_name h) d e)
       end.

Definition terminate_after_wait_error (e : WaitError) (s : G)
    : act (result (WaitForCompletionOrTerminateResult ExitStatus) WaitOrTerminateError) :=
  h ← get_handle;
  r ← graceful_terminate s;
  mret match r with
       | Ok status => Err (WaitFailed (h_name h) e status)
       | Err te => Err (OtTerminationFailed (h_name h) e te)
       end.

Definition wait_for_completion_or_terminate_inner (d : Duration) (s : G)
    : act (result (WaitForCompletionOrTerminateResult ExitStatus) WaitOrTerminateError) :=
  r ← wait_for_completion_inner d;
  match r with
  | Ok (Completed status) => mret (Ok (OtCompleted status))
  | Ok (Timeout d) => terminate_after_wait_timeout d s
  | Err e => terminate_after_wait_error e s
  end.

End process.

(** ** Unix *)

#[export] Instance unix_platform {W} `{Os W} : Platform W := {|
  KILL_LABEL := "SIGKILL";
  platform_kill w := match os_id w with None => (Ok (), w) | Some p => os_killpg p SIGKILL w end;
|}.

Section unix.
Context {W Stdout Stderr : Type} `{Os W}.

Abbreviation act := (act (W := W) (Stdout := Stdout) (Stderr := Stderr)).

(** *** Signals to the group *)

(** [killpg] of the [nix] crate is [os_killpg]: the conversion of the id to a
    signed number and of an [Errno] to an [io::Error] are part of it. *)
Definition send_to_process_group (p : pid) (s : Signal) : act (result unit io_error) :=
  on_os (os_killpg p s).

(** The body the senders share: nothing to signal once the leader was
    polled to completion. *)
Definition send_signal (s : Signal) : act (result unit io_error) := λ '(h, w),
  match os_id w with
  | None => Done (Ok (), (h, w))
  | Some p => send_to_process_group p s (h, w)
  end.

Definition send_interrupt : act (result unit io_error) := send_signal SIGINT.
Definition send_terminate : act (result unit io_error) := send_signal SIGTERM.

(** *** Termination *)

(** Indexing a slice out of its bounds panics. *)
Definition terminate_with_hooks (sequence : UnixGracefulShutdown)
    (reap : act (result (option ExitStatus) io_error))
    (send : UnixGracefulSignal → act (result unit io_error))
    : act (result ExitStatus TerminationError) :=
  let steps := (λ p, mkStep (label (signal p)) (phase_timeout p)) <$> phases sequence in
  run_termination_loop steps reap
    (λ index _, p ← lift (expect (phases sequence !! index)); send (signal p)).

Definition terminate (s : GracefulShutdown) : act (result ExitStatus TerminationError) :=
  terminate_with_hooks (unix s) try_reap_exit_status
    (λ sig, match sig with Interrupt => send_interrupt | Terminate => send_terminate end).

(** *** Manual signals *)

Definition send_interrupt_signal : act (result unit TerminationError) :=
  send_signal_with_reaper "SIGINT" send_interrupt try_reap_exit_status.
Definition send_terminate_signal : act (result unit TerminationError) :=
  send_signal_with_reaper "SIGTERM" send_terminate try_reap_exit_status.

End unix.

#[export] Instance unix_graceful {W} `{Os W} : Graceful W GracefulShutdown := {|
  graceful_terminate _ _ := terminate;
|}.
