(* ===== verification/Termination.v ===== *)
(** * Termination: what the process handle does to the child

    The protocol of [terminate] as a relation on the calls made to the system
    (which signals are sent, in which order, how long is waited), and the proof
    that the escalation loop of [src/process_handle/termination/mod.rs]
    follows it for every behaviour of the system; the drop guard; kill,
    start_kill and the manual signals. *)

From S2P Require Import Prelude Time Stream Errors Shutdown Process.

(** ** A system that keeps a record of the calls made to it *)

Inductive call : Type :=
| CTryWait (r : result (option ExitStatus) io_error)
| CWait (d : Duration) (r : option (result ExitStatus io_error))
| CWaitUnbounded (r : result ExitStatus io_error)
| CKillpg (p : pid) (s : Signal) (r : result unit io_error).

Record logged (W : Type) : Type := mkLogged { world : W; calls : list call }.
Arguments mkLogged {W}.
Arguments world {W}.
Arguments calls {W}.

Definition log_call {W A} (f : A → call) (r : A * W) (cs : list call) : A * logged W :=
  (r.1, mkLogged r.2 (cs ++ [f r.1])).

Definition logged_child {W} `{Child W} : Child (logged W) := {|
  os_id w := os_id (world w);
  os_try_wait w := log_call CTryWait (os_try_wait (world w)) (calls w);
  os_wait d w := log_call (CWait d) (os_wait d (world w)) (calls w);
  os_wait_unbounded w := log_call CWaitUnbounded (os_wait_unbounded (world w)) (calls w);
|}.

#[export] Instance logged_os {W} `{Os W} : Os (logged W) := {|
  os_child := logged_child;
  os_killpg p s w := log_call (CKillpg p s) (os_killpg p s (world w)) (calls w);
|}.

#[export] Instance logged_laws {W} `{OsLaws W} : OsLaws (logged W).
Proof.
  split; [split|]; simpl; unfold log_call; intros.
  - destruct (os_try_wait (world w)) eqn:He. simplify_eq/=. by eapply try_wait_id.
  - destruct (os_wait d (world w)) eqn:He. simplify_eq/=. by eapply wait_id.
  - destruct (os_killpg p s (world w)) eqn:He. simplify_eq/=. by eapply killpg_id.
Qed.

(** ** The protocol *)

Definition signal_of (s : UnixGracefulSignal) : Signal :=
  match s with Interrupt => SIGINT | Terminate => SIGTERM end.

Definition not_exited (r : option (result ExitStatus io_error)) : Prop := ∀ st, r ≠ Some (Ok st).
Definition not_reaped (r : result (option ExitStatus) io_error) : Prop := ∀ st, r ≠ Ok (Some st).

(** One signal and the wait after it; a signal that could not be sent gets the
    short grace instead of its timeout. *)
Definition signal_and_wait (p : pid) (s : Signal) (timeout : Duration) (sent : result unit io_error)
    (r : option (result ExitStatus io_error)) : list call :=
  [CKillpg p s sent; CWait (if is_ok sent then timeout else REAP_AFTER_SIGNAL_FAILURE_GRACE) r].

(** The graceful phases, in order, until the child exits. *)
Inductive escalates (p : pid) : list UnixGracefulPhase → list call → option ExitStatus → Prop :=
| esc_exhausted : escalates p [] [] None
| esc_exit ph phs sent st :
    escalates p (ph :: phs)
      (signal_and_wait p (signal_of (signal ph)) (phase_timeout ph) sent (Some (Ok st))) (Some st)
| esc_next ph phs sent r cs o :
    not_exited r → escalates p phs cs o →
    escalates p (ph :: phs)
      (signal_and_wait p (signal_of (signal ph)) (phase_timeout ph) sent r ++ cs) o.

(** A whole termination: a look at the child, the phases, then the kill. *)
Inductive terminates (p : pid) (phs : list UnixGracefulPhase) : list call → option ExitStatus → Prop :=
| term_reaped st : terminates p phs [CTryWait (Ok (Some st))] (Some st)
| term_graceful pre cs st :
    not_reaped pre → escalates p phs cs (Some st) → terminates p phs (CTryWait pre :: cs) (Some st)
| term_killed pre cs sent st :
    not_reaped pre → escalates p phs cs None →
    terminates p phs (CTryWait pre :: cs ++
      signal_and_wait p SIGKILL FORCE_KILL_WAIT_TIMEOUT sent (Some (Ok st))) (Some st)
| term_failed pre cs sent r :
    not_reaped pre → escalates p phs cs None → not_exited r →
    terminates p phs (CTryWait pre :: cs ++
      signal_and_wait p SIGKILL FORCE_KILL_WAIT_TIMEOUT sent r) None.

Definition ok_value {A E} (r : result A E) : option A :=
  match r with Ok a => Some a | Err _ => None end.

(** ** Single operations *)

(** ** What the common code does *)

Section common.
Context {W Stdout Stderr : Type} `{Child W} `{Platform W}.
Implicit Types (h : ProcessHandle Stdout Stderr) (w : W).

Lemma must_not_run h w : must_not_be_terminated (h, w) = Done ((), (set_drop_mode Disarmed h, w)).
Proof. unfold must_not_be_terminated. by destruct (drop_mode h). Qed.

Definition wait_result h (r : option (result ExitStatus io_error))
    : result (option ExitStatus) WaitError :=
  match r with
  | Some (Ok st) => Ok (Some st)
  | Some (Err e) => Err (IoError (h_name h) e)
  | None => Ok None
  end.

(** The handle after a bounded wait. *)
Definition after_wait h (r : option (result ExitStatus io_error)) : ProcessHandle Stdout Stderr :=
  let h := set_stdin StdinClosed h in
  match r with Some (Ok _) => set_drop_mode Disarmed h | _ => h end.

Lemma wait_for_exit_run d h w :
  wait_for_exit_after_signal d (h, w) =
    Done (wait_result h (os_wait d w).1, (after_wait h (os_wait d w).1, (os_wait d w).2)).
Proof.
  unfold wait_for_exit_after_signal, wait_for_completion_inner, wait_within. simpl.
  unfold mbind, st_bind, close_stdin, on_handle, on_os, get_handle. simpl.
  destruct (os_wait d w) as [[[st|e]|] w']; simpl; [|done..].
  unfold must_not_be_terminated. simpl. by destruct (drop_mode h).
Qed.

Lemma after_wait_guard h r : not_exited r → drop_mode (after_wait h r) = drop_mode h.
Proof. destruct r as [[st|]|]; try done. intros Hn. by destruct (Hn st). Qed.

Lemma after_wait_name h r : h_name (after_wait h r) = h_name h.
Proof. by destruct r as [[]|]. Qed.

(** The wait that follows a signal, and the exit it may see. *)
Definition wait_after (sent : result unit io_error) (timeout : Duration) : Duration :=
  if is_ok sent then timeout else REAP_AFTER_SIGNAL_FAILURE_GRACE.

Definition exit_of (a : option (result ExitStatus io_error)) : option ExitStatus :=
  match a with Some (Ok st) => Some st | _ => None end.

Lemma exit_of_none a : exit_of a = None ↔ not_exited a.
Proof.
  split; [by intros Ha st ->|]. destruct a as [[st|]|]; try done. intros Hn. by destruct (Hn st).
Qed.

Lemma attempt_run name timeout d send h w sent w1 a w2 :
  send (h, w) = Done (sent, (h, w1)) → os_wait (wait_after sent timeout) w1 = (a, w2) →
  ∃ d' es, attempt_graceful_phase name timeout d send (h, w)
      = Done ((exit_of a, d'), (after_wait h a, w2)) ∧
    recorded_errors d' = recorded_errors d ++ es ∧ (length es ≤ 2)%nat ∧ (exit_of a = None → es ≠ []).
Proof.
  intros Hsend Hw. unfold attempt_graceful_phase, mbind, st_bind. rewrite Hsend. unfold wait_after in Hw.
  destruct sent as [[]|err]; cbn [is_ok] in Hw; rewrite wait_for_exit_run, Hw; simpl;
    destruct a as [[st|e]|]; simpl; eexists.
  - exists []. split_and!; [reflexivity|by rewrite app_nil_r|simpl; lia|done].
  - eexists [_]. split_and!; [reflexivity..|simpl; lia|done].
  - eexists [_]. split_and!; [reflexivity..|simpl; lia|done].
  - eexists [_]. split_and!; [reflexivity..|simpl; lia|done].
  - eexists [_; _]. split_and!; [reflexivity|simpl; by rewrite <- app_assoc|simpl; lia|done].
  - eexists [_]. split_and!; [reflexivity..|simpl; lia|done].
Qed.

Lemma forceful_run d h w sent w1 a w2 :
  platform_kill w = (sent, w1) → os_wait (wait_after sent FORCE_KILL_WAIT_TIMEOUT) w1 = (a, w2) →
  ∃ r, attempt_forceful_kill d (h, w) = Done (r, (after_wait h a, w2)) ∧ ok_value r = exit_of a ∧
    ∀ e, r = Err e → ∃ es, e = TerminationFailed (h_name h) (recorded_errors d ++ es) ∧ (1 ≤ length es ≤ 2)%nat.
Proof.
  intros Hk Hw. unfold attempt_forceful_kill, send_kill_signal, on_os, mbind, st_bind. rewrite Hk. unfold wait_after in Hw.
  destruct sent as [[]|err]; cbn [is_ok] in Hw; rewrite wait_for_exit_run, Hw; simpl;
    (destruct a as [[st|e]|]; simpl;
     unfold termination_failed, mbind, st_bind, get_handle, lift;
     rewrite ?Diagnostics.into_termination_failed_record; simpl;
     eexists; (split; [reflexivity|]); (split; [done|]); intros e' He'; try done; injection He' as <-).
  - eexists [_]. split; [reflexivity|simpl; lia].
  - eexists [_]. split; [reflexivity|simpl; lia].
  - eexists [_; _]. rewrite <- app_assoc. split; [reflexivity|simpl; lia].
  - eexists [_]. split; [reflexivity|simpl; lia].
Qed.

(** What a successful termination does to the guard. *)
Lemma disarm_run {T} (r : result T TerminationError) h w :
  disarm_after_successful_termination r (h, w) =
    Done (r, (if is_ok r then set_drop_mode Disarmed h else h, w)).
Proof.
  unfold disarm_after_successful_termination, mbind, st_bind. destruct r; cbn [is_ok]; [|done].
  by rewrite must_not_run.
Qed.

Lemma wait_inner_run d h w :
  wait_for_completion_inner d (h, w) =
    Done (match (os_wait d w).1 with
          | Some (Ok st) => Ok (Completed st)
          | Some (Err e) => Err (IoError (h_name h) e)
          | None => Ok (Timeout d)
          end, (after_wait h (os_wait d w).1, (os_wait d w).2)).
Proof.
  unfold wait_for_completion_inner, wait_within. simpl.
  unfold mbind, st_bind, close_stdin, on_handle, on_os, get_handle. simpl.
  destruct (os_wait d w) as [[[st|e]|] w']; simpl; [|done..].
  unfold must_not_be_terminated. simpl. by destruct (drop_mode h).
Qed.

(** What waiting with termination reports, given the wait's answer and that of
    the termination. *)
Definition ot_report (name : String.string) (d : Duration) (a : option (result ExitStatus io_error))
    (t : result ExitStatus TerminationError)
    : result (WaitForCompletionOrTerminateResult ExitStatus) WaitOrTerminateError :=
  match a, t with
  | Some (Ok st), _ => Ok (OtCompleted st)
  | None, Ok st => Ok (TerminatedAfterTimeout st d)
  | None, Err e => Err (TerminationAfterTimeoutFailed name d e)
  | Some (Err e), Ok st => Err (WaitFailed name (IoError name e) st)
  | Some (Err e), Err te => Err (OtTerminationFailed name (IoError name e) te)
  end.

Lemma wait_or_terminate_exit {G} `{Graceful W G} d s h w st w1 :
  os_wait d w = (Some (Ok st), w1) →
  wait_for_completion_or_terminate_inner d s (h, w)
    = Done (Ok (OtCompleted st), (after_wait h (Some (Ok st)), w1)).
Proof.
  intros Hw. unfold wait_for_completion_or_terminate_inner, mbind, st_bind. by rewrite wait_inner_run, Hw.
Qed.

Lemma wait_or_terminate_run {G} `{Graceful W G} d s h w a w1 t h' w' :
  os_wait d w = (a, w1) → not_exited a → graceful_terminate s (after_wait h a, w1) = Done (t, (h', w')) →
  wait_for_completion_or_terminate_inner d s (h, w) = Done (ot_report (h_name h) d a t, (h', w')).
Proof.
  intros Hw Hna Ht. unfold wait_for_completion_or_terminate_inner, mbind, st_bind.
  rewrite wait_inner_run, Hw. cbn [fst snd].
  destruct a as [[st|e]|]; [by destruct (Hna st)|..];
    unfold terminate_after_wait_error, terminate_after_wait_timeout, mbind, st_bind; cbn [get_handle];
    rewrite Ht; destruct t; simpl; by rewrite ?after_wait_name.
Qed.

End common.

Section operations.
Context {W Stdout Stderr : Type} `{OsLaws W}.
Implicit Types (h : ProcessHandle Stdout Stderr) (w : logged W).

(** The system's step of a group signal. *)
Definition group_send (s : Signal) w : result unit io_error * logged W :=
  match os_id w with None => (Ok (), w) | Some p => os_killpg p s w end.

Lemma send_signal_run s h w :
  send_signal s (h, w) = Done ((group_send s w).1, (h, (group_send s w).2)).
Proof. unfold send_signal, group_send, send_to_process_group, on_os. by destruct (os_id w). Qed.

Lemma send_kill_run h w :
  send_kill_signal (h, w) = Done ((group_send SIGKILL w).1, (h, (group_send SIGKILL w).2)).
Proof. unfold send_kill_signal, on_os, group_send. simpl. by destruct (os_id (world w)). Qed.

(** *** One phase *)

Record phase_effect (p : pid) (s : Signal) (timeout : Duration) (d : TerminationDiagnostics) h w
    (o : option ExitStatus) (d' : TerminationDiagnostics) h' w' : Prop := {
  pe_calls : ∃ sent r, calls w' = calls w ++ signal_and_wait p s timeout sent r ∧
    o = match r with Some (Ok st) => Some st | _ => None end;
  pe_alive : o = None → os_id w' = Some p ∧ drop_mode h' = drop_mode h;
  pe_name : h_name h' = h_name h;
  pe_errors : ∃ es, recorded_errors d' = recorded_errors d ++ es ∧ (length es ≤ 2)%nat ∧
    (o = None → es ≠ []);
}.

Lemma phase_run name timeout d s h w p :
  os_id w = Some p →
  ∃ o d' h' w', attempt_graceful_phase name timeout d (send_signal s) (h, w)
    = Done ((o, d'), (h', w')) ∧ phase_effect p s timeout d h w o d' h' w'.
Proof.
  intros Hid. destruct (os_killpg p s w) as [sent w1] eqn:Hk.
  assert (send_signal s (h, w) = Done (sent, (h, w1))) as Hsend.
  { rewrite send_signal_run. unfold group_send. by rewrite Hid, Hk. }
  pose proof (eq_trans (killpg_id _ _ _ _ _ Hk) Hid) as Hid1.
  destruct (os_wait (wait_after sent timeout) w1) as [a w2] eqn:Hw.
  destruct (attempt_run name timeout d _ h w _ _ _ _ Hsend Hw) as (d' & es & -> & Hes & Hle & Hne).
  eexists _, _, _, _. split; [reflexivity|]. split.
  - exists sent, a. split; [|done]. simpl in Hk, Hw. unfold log_call in Hk, Hw. injection Hk as <- <-. injection Hw as <- <-.
    simpl. by rewrite <- app_assoc.
  - intros Hn%exit_of_none. split; [|by apply after_wait_guard]. by rewrite (wait_id _ _ _ _ Hw Hn).
  - apply after_wait_name.
  - by exists es.
Qed.

(** *** The escalation loop *)

Definition phase_sender (all : list UnixGracefulPhase) (index : nat) (_ : TerminationStep)
    : act (W := logged W) (Stdout := Stdout) (Stderr := Stderr) (result unit io_error) :=
  ph ← lift (expect (all !! index));
  match signal ph with Interrupt => send_interrupt | Terminate => send_terminate end.

Definition step_of (ph : UnixGracefulPhase) : TerminationStep :=
  mkStep (label (signal ph)) (phase_timeout ph).

Lemma phase_sender_at pre ph phs st_ s :
  phase_sender (pre ++ ph :: phs) (length pre) st_ s = send_signal (signal_of (signal ph)) s.
Proof.
  unfold phase_sender, mbind, st_bind, lift.
  rewrite lookup_app_r, Nat.sub_diag by done. simpl. by destruct (signal ph).
Qed.

Lemma attempt_ext name timeout d (send send' : act (W := logged W) (result unit io_error)) (s : ProcessHandle Stdout Stderr * logged W) :
  (∀ s, send s = send' s) →
  attempt_graceful_phase name timeout d send s
    = attempt_graceful_phase name timeout d send' s.
Proof. intros Heq. unfold attempt_graceful_phase, mbind, st_bind. by rewrite Heq. Qed.

Record phases_effect (p : pid) (phs : list UnixGracefulPhase) (d : TerminationDiagnostics) h w
    (o : option ExitStatus) (d' : TerminationDiagnostics) h' w' : Prop := {
  ps_calls : ∃ cs, calls w' = calls w ++ cs ∧ escalates p phs cs o;
  ps_alive : o = None → os_id w' = Some p ∧ drop_mode h' = drop_mode h;
  ps_name : h_name h' = h_name h;
  ps_errors : ∃ es, recorded_errors d' = recorded_errors d ++ es ∧
    (length es ≤ 2 * length phs)%nat ∧ (o = None → length phs ≤ length es)%nat;
}.

Lemma phases_run p phs pre d h w :
  os_id w = Some p →
  ∃ o d' h' w', graceful_phases (step_of <$> phs) (length pre)
      (phase_sender (pre ++ phs)) d (h, w) = Done ((o, d'), (h', w')) ∧
    phases_effect p phs d h w o d' h' w'.
Proof.
  revert pre d h w. induction phs as [|ph phs IH]; intros pre d h w Hid.
  { eexists _, _, _, _. split; [reflexivity|]. split; try done.
    - exists []. rewrite app_nil_r. split; [done|constructor].
    - exists []. rewrite app_nil_r. split_and!; [done|simpl; lia..]. }
  rewrite fmap_cons. cbn [graceful_phases]. unfold mbind, st_bind.
  rewrite (attempt_ext _ _ _ _ (send_signal (signal_of (signal ph))))
    by (intros; apply phase_sender_at).
  destruct (phase_run (label (signal ph)) (phase_timeout ph) d (signal_of (signal ph)) h w p Hid)
    as (o & d1 & h1 & w1 & Hrun & [(sent & r & Hc & Ho) Ha Hn (es & He & Hle & Hne)]).
  unfold step_of at 1 2. cbn [signal_label step_timeout]. rewrite Hrun. destruct o as [st|].
  - eexists _, _, _, _. split; [reflexivity|]. split; try done.
    + eexists. split; [exact Hc|]. destruct r as [[st'|]|]; try done. injection Ho as ->. constructor.
    + exists es. split_and!; [done|simpl; lia|done].
  - destruct (Ha eq_refl) as [Hid1 Hm1].
    destruct (IH (pre ++ [ph]) d1 h1 w1 Hid1) as (o & d2 & h2 & w2 & Hrun2 & [(cs & Hc2 & Hesc) Ha2 Hn2 (es2 & He2 & Hle2 & Hne2)]).
    rewrite length_app, Nat.add_1_r, <- app_assoc in Hrun2. simpl in Hrun2.
    exists o, d2, h2, w2. split; [exact Hrun2|]. split.
    + eexists. rewrite Hc2, Hc, <- app_assoc. split; [reflexivity|]. constructor; [|done].
      intros st' ->. done.
    + intros Hnone. destruct (Ha2 Hnone) as [? ?]. split; congruence.
    + congruence.
    + exists (es ++ es2). rewrite He2, He, <- app_assoc, length_app. split_and!; [done|simpl; lia|].
      intros Hnone. specialize (Hne eq_refl). specialize (Hne2 Hnone). destruct es; [done|simpl in *; lia].
Qed.

(** *** The final kill *)

Lemma kill_run p d h w :
  os_id w = Some p →
  ∃ r h' w' sent a, attempt_forceful_kill d (h, w) = Done (r, (h', w')) ∧
    calls w' = calls w ++ signal_and_wait p SIGKILL FORCE_KILL_WAIT_TIMEOUT sent a ∧
    ok_value r = match a with Some (Ok st) => Some st | _ => None end ∧
    (∀ e, r = Err e → drop_mode h' = drop_mode h ∧
       ∃ es, e = TerminationFailed (h_name h) (recorded_errors d ++ es) ∧ (1 ≤ length es ≤ 2)%nat).
Proof.
  intros Hid. destruct (os_killpg p SIGKILL w) as [sent w1] eqn:Hk.
  assert (platform_kill w = (sent, w1)) as Hkill by (unfold platform_kill, unix_platform; by rewrite Hid).
  destruct (os_wait (wait_after sent FORCE_KILL_WAIT_TIMEOUT) w1) as [a w2] eqn:Hw.
  destruct (forceful_run d h w _ _ _ _ Hkill Hw) as (r & -> & Hr & Herr).
  eexists r, _, _, sent, a. split; [reflexivity|]. split_and!; [|done|].
  - simpl in Hk, Hw. unfold log_call in Hk, Hw. injection Hk as <- <-. injection Hw as <- <-.
    simpl. by rewrite <- app_assoc.
  - intros e ->. split; [|by apply Herr]. apply after_wait_guard, exit_of_none. by rewrite <- Hr.
Qed.

(** *** The whole termination *)

Record termination_effect (p : pid) (phs : list UnixGracefulPhase) h w
    (r : result ExitStatus TerminationError) h' w' : Prop := {
  te_calls : ∃ cs, calls w' = calls w ++ cs ∧ terminates p phs cs (ok_value r);
  te_guard : drop_mode h' = if is_ok r then Disarmed else drop_mode h;
  te_errors : ∀ e, r = Err e → ∃ es, e = TerminationFailed (h_name h) es ∧
    (length phs + 1 ≤ length es ≤ 2 * length phs + 3)%nat;
}.

(** Everything after the preflight check. *)
Lemma escalate_run p phs d h w pre :
  os_id w = Some p → (length (recorded_errors d) ≤ 1)%nat → not_reaped pre →
  ∃ r h' w' cs, escalate (step_of <$> phs) (phase_sender phs) d (h, w) = Done (r, (h', w')) ∧
    calls w' = calls w ++ cs ∧ terminates p phs (CTryWait pre :: cs) (ok_value r) ∧
    (∀ e, r = Err e → drop_mode h' = drop_mode h ∧ ∃ es, e = TerminationFailed (h_name h) es ∧
       (length phs + 1 ≤ length es ≤ 2 * length phs + 3)%nat).
Proof.
  intros Hid Hd Hpre. unfold escalate, mbind, st_bind.
  destruct (phases_run p phs [] d h w Hid) as (o & d1 & h1 & w1 & Hrun & [(cs & Hc & Hesc) Ha Hname (es & He & Hle & Hge)]).
  cbn [app length] in Hrun. rewrite Hrun. destruct o as [st|].
  - eexists _, _, _, cs. split; [reflexivity|]. split_and!; [done|by constructor|done].
  - destruct (Ha eq_refl) as [Hid1 Hm]. destruct (kill_run p d1 h1 w1 Hid1)
      as (r & h2 & w2 & sent & a & Hkill & Hc2 & Hok & Herr).
    eexists r, h2, w2, (cs ++ signal_and_wait p SIGKILL FORCE_KILL_WAIT_TIMEOUT sent a).
    split; [exact Hkill|]. rewrite Hc2, Hc, app_assoc. split_and!; [done| |].
    + rewrite Hok. destruct a as [[st|e]|]; by constructor.
    + intros e Hr. destruct (Herr e Hr) as (Hm2 & es2 & -> & Hes2). split; [congruence|].
      eexists. rewrite Hname. split; [reflexivity|]. rewrite He, !length_app. specialize (Hge eq_refl). lia.
Qed.

(** [terminate] always comes to an end with a result, and it follows the
    protocol. *)
Lemma terminate_run p s h w :
  phases (unix s) ≠ [] → os_id w = Some p →
  ∃ r h' w', terminate s (h, w) = Done (r, (h', w')) ∧
    termination_effect p (phases (unix s)) h w r h' w'.
Proof.
  intros Hne Hid. unfold terminate, terminate_with_hooks. set (phs := phases (unix s)) in *.
  change (λ p0 : UnixGracefulPhase, mkStep (label (signal p0)) (phase_timeout p0)) with step_of.
  change (λ (index : nat) (_ : TerminationStep), _) with (phase_sender phs).
  unfold run_termination_loop, mbind, st_bind. rewrite bool_decide_eq_false_2.
  2: { rewrite length_fmap. by destruct phs. }
  cbn [negb assert_that lift]. unfold try_reap_exit_status, on_os.
  destruct (os_try_wait w) as [pre w1] eqn:Hpre.
  assert (calls w1 = calls w ++ [CTryWait pre]) as Hc1.
  { simpl in Hpre. unfold log_call in Hpre. by injection Hpre as <- <-. }
  assert (∀ d, not_reaped pre → (length (recorded_errors d) ≤ 1)%nat →
    ∃ r h' w', match escalate (step_of <$> phs) (phase_sender phs) d (h, w1) with
      | Done (r, s0) => disarm_after_successful_termination r s0
      | Panic => Panic
      end = Done (r, (h', w')) ∧ termination_effect p phs h w r h' w') as Hrest.
  { intros d Hnr Hd. pose proof (eq_trans (try_wait_id _ _ _ Hpre Hnr) Hid) as Hid1.
    destruct (escalate_run p phs d h w1 pre Hid1 Hd Hnr) as (r & h2 & w2 & cs & -> & Hc2 & Hterm & Herr).
    rewrite disarm_run. eexists _, _, _. split; [reflexivity|]. split.
    - eexists. split; [|exact Hterm]. by rewrite Hc2, Hc1, <- app_assoc.
    - destruct r; [done|]. simpl. by destruct (Herr e eq_refl).
    - intros e Hr. by destruct (Herr e Hr). }
  destruct pre as [[st|]|err].
  - unfold mret, st_ret. rewrite disarm_run. eexists _, _, _. split; [reflexivity|]. split; try done.
    exists [CTryWait (Ok (Some st))]. split; [done|constructor].
  - apply Hrest; [done|simpl; lia].
  - apply Hrest; [done|simpl; lia].
Qed.

End operations.

(** ** What the protocol implies *)

(** The signals of a sequence of calls, in order. *)
Definition signals (cs : list call) : list Signal :=
  omap (λ c, match c with CKillpg _ s _ => Some s | _ => None end) cs.

(** The time the bounded waits of a sequence of calls may take. *)
Definition wait_budget (cs : list call) : Duration :=
  foldr (λ c n, match c with CWait d _ => d | _ => 0 end + n) 0 cs.

(** Every signal was delivered. *)
Definition all_sent (cs : list call) : Prop :=
  Forall (λ c, match c with CKillpg _ _ r => is_ok r = true | _ => True end) cs.

Definition targets (p : pid) (cs : list call) : Prop :=
  Forall (λ c, match c with CKillpg q _ _ => q = p | _ => True end) cs.

Lemma signals_app cs ds : signals (cs ++ ds) = signals cs ++ signals ds.
Proof. apply omap_app. Qed.

Lemma wait_budget_app cs ds : wait_budget (cs ++ ds) = wait_budget cs + wait_budget ds.
Proof. induction cs as [|c cs IH]; simpl; [done|]. rewrite IH. lia. Qed.

Lemma escalates_signals p phs cs o :
  escalates p phs cs o →
  ∃ k, (k ≤ length phs)%nat ∧ signals cs = take k (signal_of ∘ signal <$> phs) ∧
       (o = None → k = length phs) ∧ targets p cs.
Proof.
  induction 1 as [|ph phs sent st|ph phs sent r cs o Hr _ (k & Hk & Hs & Ho & Ht)].
  - exists 0%nat. split_and!; try done. constructor.
  - exists 1%nat. split_and!; [simpl; lia|done|done|]. repeat constructor.
  - exists (S k). rewrite signals_app, Hs. split_and!; [simpl; lia|done|simpl; auto|].
    repeat (constructor; [done|]). done.
Qed.

(** The budget of the phases: a phase whose signal fails waits the grace. *)
Definition phases_budget (phs : list UnixGracefulPhase) : Duration :=
  foldr (λ ph n, (phase_timeout ph `max` REAP_AFTER_SIGNAL_FAILURE_GRACE) + n) 0 phs.

Lemma escalates_budget p phs cs o :
  escalates p phs cs o →
  wait_budget cs ≤ phases_budget phs ∧
  (all_sent cs → wait_budget cs ≤ total_duration (phase_timeout <$> phs)).
Proof.
  induction 1 as [|ph phs sent st|ph phs sent r cs o Hr _ [IH1 IH2]].
  - done.
  - simpl. split; [destruct (is_ok sent); lia|]. intros Ha. apply Forall_inv in Ha. simpl in Ha.
    rewrite Ha. lia.
  - rewrite wait_budget_app.
    change (total_duration (phase_timeout <$> ph :: phs))
      with (phase_timeout ph + total_duration (phase_timeout <$> phs)).
    set (t := total_duration _) in *. simpl. split; [destruct (is_ok sent); lia|]. intros Ha.
    apply Forall_cons in Ha as [Ha1 Ha2]. apply Forall_cons in Ha2 as [_ Ha2]. rewrite Ha1.
    specialize (IH2 Ha2). lia.
Qed.

Lemma terminates_signals p phs cs o :
  terminates p phs cs o →
  signals cs `prefix_of` (signal_of ∘ signal <$> phs) ++ [SIGKILL] ∧ targets p cs ∧
  (o = None → signals cs = (signal_of ∘ signal <$> phs) ++ [SIGKILL]).
Proof.
  assert (∀ cs k, (k ≤ length phs)%nat → signals cs = take k (signal_of ∘ signal <$> phs) →
    signals cs `prefix_of` (signal_of ∘ signal <$> phs) ++ [SIGKILL]) as Hpre.
  { intros ds k Hk ->. apply prefix_app_r. exists (drop k (signal_of ∘ signal <$> phs)). by rewrite take_drop. }
  assert (∀ ds sent r, escalates p phs ds None →
    signals (ds ++ signal_and_wait p SIGKILL FORCE_KILL_WAIT_TIMEOUT sent r)
      = (signal_of ∘ signal <$> phs) ++ [SIGKILL] ∧
    targets p (ds ++ signal_and_wait p SIGKILL FORCE_KILL_WAIT_TIMEOUT sent r)) as Hkill.
  { intros ds sent r Hesc. destruct (escalates_signals _ _ _ _ Hesc) as (k & Hk & Hs & Ho & Ht).
    rewrite signals_app, Hs, (Ho eq_refl), take_ge by (by rewrite length_fmap).
    split; [done|]. apply Forall_app. split; [done|]. repeat constructor. }
  destruct 1 as [st|pre cs st Hn Hesc|pre cs sent st Hn Hesc|pre cs sent r Hn Hesc Hr].
  - split_and!; [apply prefix_nil|repeat constructor|done].
  - destruct (escalates_signals _ _ _ _ Hesc) as (k & Hk & Hs & _ & Ht).
    split_and!; [by eapply (Hpre cs)|by constructor|done].
  - destruct (Hkill cs sent (Some (Ok st)) Hesc) as [Hs Ht]. split_and!; [|by constructor|done].
    change (signals (CTryWait pre :: ?l)) with (signals l). by rewrite Hs.
  - destruct (Hkill cs sent r Hesc) as [Hs Ht]. split_and!; [|by constructor|].
    all: change (signals (CTryWait pre :: ?l)) with (signals l); by rewrite Hs.
Qed.

Lemma terminates_budget p phs cs o :
  terminates p phs cs o →
  wait_budget cs ≤ phases_budget phs + FORCE_KILL_WAIT_TIMEOUT ∧
  (all_sent cs → wait_budget cs ≤ total_duration (phase_timeout <$> phs) + FORCE_KILL_WAIT_TIMEOUT).
Proof.
  assert (REAP_AFTER_SIGNAL_FAILURE_GRACE ≤ FORCE_KILL_WAIT_TIMEOUT) as Hgrace by done.
  assert (∀ ds sent r, escalates p phs ds None →
    let cs := ds ++ signal_and_wait p SIGKILL FORCE_KILL_WAIT_TIMEOUT sent r in
    wait_budget cs ≤ phases_budget phs + FORCE_KILL_WAIT_TIMEOUT ∧
    (all_sent cs → wait_budget cs ≤ total_duration (phase_timeout <$> phs) + FORCE_KILL_WAIT_TIMEOUT)) as Hkill.
  { intros ds sent r Hesc. destruct (escalates_budget _ _ _ _ Hesc) as [H1 H2]. simpl.
    rewrite wait_budget_app. simpl. split; [destruct (is_ok sent); lia|]. intros Ha.
    apply Forall_app in Ha as [Ha _]. specialize (H2 Ha). destruct (is_ok sent); lia. }
  destruct 1 as [st|pre cs st Hn Hesc|pre cs sent st Hn Hesc|pre cs sent r Hn Hesc Hr].
  - simpl. split; [lia|]. intros _. lia.
  - destruct (escalates_budget _ _ _ _ Hesc) as [H1 H2]. change (wait_budget (CTryWait pre :: cs)) with (wait_budget cs).
    split; [lia|]. intros Ha. apply Forall_inv_tail in Ha. specialize (H2 Ha). lia.
  - destruct (Hkill cs sent (Some (Ok st)) Hesc) as [H1 H2]. split; [exact H1|].
    intros Ha. apply Forall_inv_tail in Ha. by apply H2.
  - destruct (Hkill cs sent r Hesc) as [H1 H2]. split; [exact H1|].
    intros Ha. apply Forall_inv_tail in Ha. by apply H2.
Qed.

(** ** A scripted system, for evaluation

    It answers from lists and then with defaults: the child runs on, signals
    are delivered. *)

Record script : Type := mkScript {
  sc_id : option pid;
  sc_try_waits : list (result (option ExitStatus) io_error);
  sc_waits : list (option (result ExitStatus io_error));
  sc_kills : list (result unit io_error);
}.

Definition script_child : Child script := {|
  os_id := sc_id;
  os_try_wait s :=
    let r := default (Ok None) (head (sc_try_waits s)) in
    (r, mkScript (match r with Ok (Some _) => None | _ => sc_id s end)
          (tail (sc_try_waits s)) (sc_waits s) (sc_kills s));
  os_wait d s :=
    let r := default None (head (sc_waits s)) in
    (r, mkScript (match r with Some (Ok _) => None | _ => sc_id s end)
          (sc_try_waits s) (tail (sc_waits s)) (sc_kills s));
  os_wait_unbounded s := (Ok (mkExitStatus None), mkScript None (sc_try_waits s) (sc_waits s) (sc_kills s));
|}.

#[export] Instance script_os : Os script := {|
  os_child := script_child;
  os_killpg p sig s :=
    (default (Ok ()) (head (sc_kills s)),
     mkScript (sc_id s) (sc_try_waits s) (sc_waits s) (tail (sc_kills s)));
|}.

#[export] Instance script_laws : OsLaws script.
Proof.
  split; [split|]; simpl; intros; simplify_eq/=; try done.
  - destruct (default _ _) as [[]|] eqn:He; try done. by destruct (H0 e).
  - destruct (default _ _) as [[]|] eqn:He; try done. by destruct (H0 a).
Qed.

Module ProcessDemo.

Definition handle : ProcessHandle unit unit := mkHandle "demo" StdinOpen () () new_armed_drop_mode.
(** The child of pid 7 never exits. *)
Definition stuck : logged script := mkLogged (mkScript (Some 7) [] [] []) [].
Definition two_phases : GracefulShutdown := mkGraceful (mkUnix [mkPhase Interrupt 5; mkPhase Terminate 6]).
(** No signal can be sent, and the phases have no time. *)
Definition denied : logged script :=
  let e := Err (mkIoError PermissionDenied "EPERM") in
  mkLogged (mkScript (Some 7) [] [] [e; e; e]) [].
Definition hurried : GracefulShutdown := mkGraceful (mkUnix [mkPhase Terminate 0]).

End ProcessDemo.

(** ** Claims *)

Section claims.
Context {W Stdout Stderr : Type} `{OsLaws W}.
Implicit Types (h : ProcessHandle Stdout Stderr) (w : logged W).

(** C5: for every behaviour of the operating system, [terminate] returns a
    result without panicking, and its calls follow the protocol: a look at the
    child, then each graceful phase in order with its wait until the child
    exits, then the forceful kill; the result is the exit status observed, or
    an error when the child was not seen to exit. *)
Theorem terminate_follows_protocol p s h w :
  phases (unix s) ≠ [] → os_id w = Some p →
  ∃ r h' w' cs, terminate s (h, w) = Done (r, (h', w')) ∧
    calls w' = calls w ++ cs ∧ terminates p (phases (unix s)) cs (ok_value r).
Proof.
  intros Hne Hid. destruct (terminate_run p s h w Hne Hid)
    as (r & h' & w' & Hrun & [(cs & Hc & Ht) _ _]). by exists r, h', w', cs.
Qed.

(** C28: [terminate] signals only the child's own process group, each phase's
    signal at most once and in the configured order, and sends [SIGKILL] only
    after all of them; when it fails, every signal and the kill were tried. *)
Theorem terminate_signal_order p s h w r h' w' :
  phases (unix s) ≠ [] → os_id w = Some p →
  terminate s (h, w) = Done (r, (h', w')) →
  let plan := (signal_of ∘ signal <$> phases (unix s)) ++ [SIGKILL] in
  ∃ cs, calls w' = calls w ++ cs ∧ targets p cs ∧ signals cs `prefix_of` plan ∧
    (is_ok r = false → signals cs = plan).
Proof.
  intros Hne Hid Hrun plan. destruct (terminate_run p s h w Hne Hid)
    as (r0 & h0 & w0 & Hrun0 & [(cs & Hc & Ht) _ _]). rewrite Hrun in Hrun0. injection Hrun0 as -> -> ->.
  destruct (terminates_signals _ _ _ _ Ht) as (Hp & Htg & Hall). exists cs. split_and!; try done.
  intros Hr. apply Hall. by destruct r0.
Qed.

(** C29: the waits of [terminate] are bounded: by the sum of the phase timeouts
    plus the fixed three seconds of the kill when every signal is delivered,
    and always by the same sum with each timeout raised to the 100 ms grace
    that a failed send is given. *)
Theorem terminate_wait_budget p s h w r h' w' :
  phases (unix s) ≠ [] → os_id w = Some p →
  terminate s (h, w) = Done (r, (h', w')) →
  ∃ cs, calls w' = calls w ++ cs ∧
    wait_budget cs ≤ phases_budget (phases (unix s)) + FORCE_KILL_WAIT_TIMEOUT ∧
    ∀ total, total_timeout s = Done total → all_sent cs →
      wait_budget cs ≤ total + FORCE_KILL_WAIT_TIMEOUT.
Proof.
  intros Hne Hid Hrun. destruct (terminate_run p s h w Hne Hid)
    as (r0 & h0 & w0 & Hrun0 & [(cs & Hc & Ht) _ _]). rewrite Hrun in Hrun0. injection Hrun0 as -> -> ->.
  destruct (terminates_budget _ _ _ _ Ht) as [H1 H2]. exists cs. split_and!; try done.
  intros total Htot Ha. specialize (H2 Ha).
  unfold total_timeout, UnixGracefulShutdown.total_timeout, sum_durations in Htot.
  case_match; [|done]. by injection Htot as <-.
Qed.

(** C10: [terminate] disarms the drop guard exactly when it succeeds; when it
    fails the guard is as before, and the error names the process and lists at
    least one failed action for every phase and for the kill. *)
Theorem terminate_guard_and_errors p s h (w w' : logged W) r h' :
  phases (unix s) ≠ [] → os_id w = Some p →
  terminate s (h, w) = Done (r, (h', w')) →
  drop_mode h' = (if is_ok r then Disarmed else drop_mode h) ∧
  ∀ e, r = Err e → ∃ es, e = TerminationFailed (h_name h) es ∧
    (length (phases (unix s)) + 1 ≤ length es)%nat.
Proof.
  intros Hne Hid Hrun. destruct (terminate_run p s h w Hne Hid)
    as (r0 & h0 & w0 & Hrun0 & [_ Hg He]). rewrite Hrun in Hrun0. injection Hrun0 as -> -> ->.
  split; [done|]. intros e Hr. destruct (He e Hr) as (es & -> & Hle). exists es. split; [done|lia].
Qed.

(** C35: dropping an armed handle whose child was not reaped sends [SIGKILL] to
    the child's group, once, and panics unless the thread is already
    unwinding; dropping a disarmed handle does nothing. *)
Theorem drop_kills_when_armed p h (w : logged W) panicking :
  os_id w = Some p →
  match drop_mode h with
  | Armed g => armed g = true →
      (handle_drop panicking h w).1 = negb panicking ∧
      ∃ r, calls (handle_drop panicking h w).2 = calls w ++ [CKillpg p SIGKILL r]
  | Disarmed => handle_drop panicking h w = (false, w)
  end.
Proof.
  intros Hid. unfold handle_drop. destruct (drop_mode h) as [g|] eqn:Hm; [|done].
  intros Hg. simpl in *. rewrite Hid. split.
  - simpl. unfold PanicOnDrop.drop_panics, PanicOnDrop.is_armed. by rewrite Hg.
  - simpl. eauto.
Qed.

(** [start_kill] closes stdin, and succeeds exactly when the kill was
    delivered to the child's group or the child turned out to have exited;
    only then is the guard disarmed.  Otherwise the error carries the failed
    actions and the guard stays as it was. *)
Lemma start_kill_run p h w :
  os_id w = Some p →
  ∃ r h' w' cs, start_kill (h, w) = Done (r, (h', w')) ∧ std_in h' = StdinClosed ∧
    calls w' = calls w ++ cs ∧ drop_mode h' = (if is_ok r then Disarmed else drop_mode h) ∧
    match r with
    | Ok _ => cs = [CKillpg p SIGKILL (Ok ())] ∨
        ∃ e st, cs = [CKillpg p SIGKILL (Err e); CTryWait (Ok (Some st))]
    | Err err => ∃ e a, cs = [CKillpg p SIGKILL (Err e); CTryWait a] ∧ not_reaped a ∧
        termination_process_name err = h_name h ∧
        ∃ es, attempt_errors err = mkAttempt (SendSignal KILL_LABEL) (FromIo e) :: es
    end.
Proof.
  intros Hid. unfold start_kill, mbind, st_bind. cbn [close_stdin on_handle].
  rewrite send_kill_run. unfold group_send. rewrite Hid.
  destruct (os_killpg p SIGKILL w) as [sent w1] eqn:Hk.
  assert (calls w1 = calls w ++ [CKillpg p SIGKILL sent]) as Hc1.
  { simpl in Hk. unfold log_call in Hk. by injection Hk as <- <-. }
  cbn [fst snd]. destruct sent as [[]|err].
  { rewrite must_not_run. eexists _, _, _, _. split; [reflexivity|]. split_and!; [done|exact Hc1|done|by left]. }
  unfold try_reap_exit_status, on_os. destruct (os_try_wait w1) as [a w2] eqn:Ht.
  assert (calls w2 = calls w ++ [CKillpg p SIGKILL (Err err); CTryWait a]) as Hc2.
  { simpl in Ht. unfold log_call in Ht. injection Ht as <- <-. simpl. by rewrite Hc1, <- app_assoc. }
  destruct a as [[st|]|e].
  - rewrite must_not_run. eexists _, _, _, _. split; [reflexivity|]. split_and!; [done|exact Hc2|done|]. right. by eexists _, _.
  - eexists _, _, _, _. split; [reflexivity|]. split_and!; [done|exact Hc2|done|].
    eexists _, _. split_and!; [reflexivity|done|done|by eexists].
  - eexists _, _, _, _. split; [reflexivity|]. split_and!; [done|exact Hc2|done|].
    eexists _, _. split_and!; [reflexivity|done|done|by eexists].
Qed.

(** A manual [SIGTERM] is never sent to a child that has exited: if the
    preflight check reaps it, nothing is signalled; a failed send is an error
    only if the child is not found to have exited then; and the guard is
    disarmed exactly when an exit was observed. *)
Lemma manual_signal_correct p h w :
  os_id w = Some p →
  ∃ r h' w' cs, send_terminate_signal (h, w) = Done (r, (h', w')) ∧ calls w' = calls w ++ cs ∧
    match cs with
    | [CTryWait (Ok (Some _))] => r = Ok () ∧ drop_mode h' = Disarmed
    | [CTryWait (Err e)] => h' = h ∧ ∃ es, r = Err (SignalFailed (h_name h) es)
    | [CTryWait (Ok None); CKillpg q s (Ok _)] => q = p ∧ s = SIGTERM ∧ r = Ok () ∧ h' = h
    | [CTryWait (Ok None); CKillpg q s (Err _); CTryWait a] => q = p ∧ s = SIGTERM ∧
        if decide (is_Some (ok_value a ≫= id)) then r = Ok () ∧ drop_mode h' = Disarmed
        else h' = h ∧ ∃ es, r = Err (SignalFailed (h_name h) es)
    | _ => False
    end.
Proof.
  intros Hid. unfold send_terminate_signal, send_signal_with_reaper, mbind, st_bind.
  unfold try_reap_exit_status, on_os. destruct (os_try_wait w) as [a w1] eqn:Ht.
  assert (calls w1 = calls w ++ [CTryWait a]) as Hc1.
  { simpl in Ht. unfold log_call in Ht. by injection Ht as <- <-. }
  destruct a as [[st|]|e].
  { rewrite must_not_run. eexists _, _, _, _. split; [reflexivity|]. split; [exact Hc1|done]. }
  2: { eexists _, _, _, _. split; [reflexivity|]. split; [exact Hc1|]. split; [done|]. by eexists. }
  pose proof (eq_trans (try_wait_id _ _ _ Ht ltac:(done)) Hid) as Hid1.
  unfold send_terminate. rewrite send_signal_run. unfold group_send. rewrite Hid1.
  destruct (os_killpg p SIGTERM w1) as [sent w2] eqn:Hk.
  assert (calls w2 = calls w ++ [CTryWait (Ok None); CKillpg p SIGTERM sent]) as Hc2.
  { simpl in Hk. unfold log_call in Hk. injection Hk as <- <-. simpl. by rewrite Hc1, <- app_assoc. }
  cbn [fst snd]. destruct sent as [[]|err].
  { eexists _, _, _, _. split; [reflexivity|]. split; [exact Hc2|]. done. }
  destruct (os_try_wait w2) as [b w3] eqn:Ht3.
  assert (calls w3 = calls w ++ [CTryWait (Ok None); CKillpg p SIGTERM (Err err); CTryWait b]) as Hc3.
  { simpl in Ht3. unfold log_call in Ht3. injection Ht3 as <- <-. simpl. by rewrite Hc2, <- app_assoc. }
  destruct b as [[st|]|e]; rewrite ?must_not_run; eexists _, _, _, _; (split; [reflexivity|]);
    (split; [exact Hc3|]); split_and!; try done; simpl; (split; [done|]); by eexists.
Qed.

(** C30: waiting with termination completes with the status if the child exits
    in time, without touching it; after a timeout it terminates the child by
    the protocol and reports the status with the timeout, or the failure; a
    failed wait is always reported as an error, after the same termination. *)
Theorem wait_or_terminate_correct p d s h w :
  phases (unix s) ≠ [] → os_id w = Some p →
  ∃ r h' w' a cs, wait_for_completion_or_terminate_inner d s (h, w) = Done (r, (h', w')) ∧
    calls w' = calls w ++ CWait d a :: cs ∧
    match a with
    | Some (Ok st) => r = Ok (OtCompleted st) ∧ cs = [] ∧ drop_mode h' = Disarmed
    | _ => ∃ t, terminates p (phases (unix s)) cs (ok_value t) ∧
        drop_mode h' = (if is_ok t then Disarmed else drop_mode h) ∧
        r = match a, t with
            | None, Ok st => Ok (TerminatedAfterTimeout st d)
            | None, Err e => Err (TerminationAfterTimeoutFailed (h_name h) d e)
            | Some (Err e), Ok st => Err (WaitFailed (h_name h) (IoError (h_name h) e) st)
            | Some (Err e), Err te => Err (OtTerminationFailed (h_name h) (IoError (h_name h) e) te)
            | Some (Ok st), _ => Ok (OtCompleted st)
            end
    end.
Proof.
  intros Hne Hid. destruct (os_wait d w) as [a w1] eqn:Hw.
  assert (calls w1 = calls w ++ [CWait d a]) as Hc1.
  { simpl in Hw. unfold log_call in Hw. by injection Hw as <- <-. }
  destruct (exit_of a) as [st|] eqn:Hex.
  { destruct a as [[st'|]|]; try done. injection Hex as ->.
    eexists _, _, _, _, []. split; [by eapply wait_or_terminate_exit|]. split; [exact Hc1|done]. }
  apply exit_of_none in Hex as Hna. pose proof (eq_trans (wait_id _ _ _ _ Hw Hna) Hid) as Hid1.
  destruct (terminate_run p s (after_wait h a) w1 Hne Hid1)
    as (t & h' & w' & Hrun & [(cs & Hc & Ht) Hg _]).
  rewrite after_wait_guard in Hg by done.
  eexists _, _, _, a, cs. split; [by eapply wait_or_terminate_run|].
  split; [by rewrite Hc, Hc1, <- app_assoc|].
  destruct a as [[st|e]|]; [by destruct (Hna st)|..]; exists t; (split; [exact Ht|]); by destruct t.
Qed.

(** [kill] closes stdin, signals the child's group once and, if that was
    delivered, awaits the exit; it disarms the guard exactly when it
    succeeds. *)
Lemma kill_correct p h (w : logged W) :
  os_id w = Some p →
  ∃ r h' w' sent cs, kill (h, w) = Done (r, (h', w')) ∧ std_in h' = StdinClosed ∧
    calls w' = calls w ++ CKillpg p SIGKILL sent :: cs ∧
    drop_mode h' = (if is_ok r then Disarmed else drop_mode h) ∧
    match sent with
    | Err e => cs = [] ∧ r = Err (TerminationFailed (h_name h)
        [mkAttempt (SendSignal KILL_LABEL) (FromIo e)])
    | Ok _ => ∃ a, cs = [CWaitUnbounded a] ∧
        r = match a with
            | Ok _ => Ok ()
            | Err e => Err (TerminationFailed (h_name h)
                [mkAttempt WaitForExit (FromWait (IoError (h_name h) e))])
            end
    end.
Proof.
  intros Hid. unfold kill, mbind, st_bind. cbn [close_stdin on_handle].
  rewrite send_kill_run. unfold group_send. rewrite Hid.
  destruct (os_killpg p SIGKILL w) as [sent w1] eqn:Hk.
  assert (calls w1 = calls w ++ [CKillpg p SIGKILL sent]) as Hc1.
  { simpl in Hk. unfold log_call in Hk. by injection Hk as <- <-. }
  cbn [fst snd]. destruct sent as [[]|err].
  2: { eexists _, _, _, _, []. split; [reflexivity|]. split_and!; [done|exact Hc1|done..]. }
  unfold wait_for_completion_unbounded, wait_unbounded, mbind, st_bind, on_os, get_handle.
  cbn [close_stdin on_handle]. destruct (os_wait_unbounded w1) as [a w2] eqn:Hw.
  assert (calls w2 = calls w ++ [CKillpg p SIGKILL (Ok ()); CWaitUnbounded a]) as Hc2.
  { simpl in Hw. unfold log_call in Hw. injection Hw as <- <-. simpl. by rewrite Hc1, <- app_assoc. }
  destruct a as [st|e]; rewrite ?must_not_run; eexists _, _, _, _, _; (split; [reflexivity|]);
    split_and!; [done|exact Hc2|done|by eexists|done|exact Hc2|done|by eexists].
Qed.

End claims.

(** ** Witnesses *)

Lemma terminate_follows_protocol_witness :
  ∃ r h' w' cs, terminate ProcessDemo.two_phases (ProcessDemo.handle, ProcessDemo.stuck)
      = Done (r, (h', w')) ∧ calls w' = cs ∧ terminates 7 (phases (unix ProcessDemo.two_phases)) cs (ok_value r).
Proof.
  destruct (terminate_follows_protocol 7 ProcessDemo.two_phases ProcessDemo.handle
    ProcessDemo.stuck ltac:(discriminate) eq_refl) as (r & h' & w' & cs & Hrun & Hc & Ht).
  exists r, h', w', cs. split; [exact Hrun|]. split; [exact Hc|exact Ht].
Defined.

(** The run of the two phases against a child that never exits. *)
Definition demo_termination : outcome (result ExitStatus TerminationError
    * (ProcessHandle unit unit * logged script)) :=
  terminate ProcessDemo.two_phases (ProcessDemo.handle, ProcessDemo.stuck).

Lemma terminate_signal_order_witness :
  ∃ r h' w', demo_termination = Done (r, (h', w')) ∧ signals (calls w') = [SIGINT; SIGTERM; SIGKILL].
Proof.
  destruct demo_termination as [[r [h' w']]|] eqn:Hrun; [|discriminate].
  exists r, h', w'. split; [reflexivity|].
  destruct (terminate_signal_order 7 ProcessDemo.two_phases ProcessDemo.handle ProcessDemo.stuck _ _ _
    ltac:(discriminate) eq_refl Hrun) as (cs & Hc & _ & _ & Hall).
  simpl in Hc. rewrite Hc. apply Hall.
  unfold demo_termination in Hrun. vm_compute in Hrun. injection Hrun as <- _ _. reflexivity.
Defined.

Lemma terminate_wait_budget_witness :
  ∃ r h' w', demo_termination = Done (r, (h', w')) ∧
    wait_budget (calls w') ≤ 2 * REAP_AFTER_SIGNAL_FAILURE_GRACE + FORCE_KILL_WAIT_TIMEOUT.
Proof.
  destruct demo_termination as [[r [h' w']]|] eqn:Hrun; [|discriminate].
  exists r, h', w'. split; [reflexivity|].
  destruct (terminate_wait_budget 7 ProcessDemo.two_phases ProcessDemo.handle ProcessDemo.stuck _ _ _
    ltac:(discriminate) eq_refl Hrun) as (cs & Hc & Hb & _).
  simpl in Hc. rewrite Hc. exact Hb.
Defined.

Lemma terminate_guard_and_errors_witness :
  ∃ e h' w', demo_termination = Done (Err e, (h', w')) ∧ drop_mode h' = new_armed_drop_mode ∧
    (3 ≤ length (attempt_errors e))%nat.
Proof.
  destruct demo_termination as [[r [h' w']]|] eqn:Hrun; [|discriminate].
  destruct (terminate_guard_and_errors 7 ProcessDemo.two_phases ProcessDemo.handle ProcessDemo.stuck _ _ _
    ltac:(discriminate) eq_refl Hrun) as [Hg He].
  destruct r as [st|e].
  - unfold demo_termination in Hrun. vm_compute in Hrun. discriminate.
  - exists e, h', w'. split; [reflexivity|]. split; [exact Hg|].
    destruct (He e eq_refl) as (es & -> & Hle). exact Hle.
Defined.

Lemma drop_kills_when_armed_witness :
  (handle_drop false ProcessDemo.handle ProcessDemo.stuck).1 = true.
Proof. exact (proj1 (drop_kills_when_armed 7 ProcessDemo.handle ProcessDemo.stuck false eq_refl eq_refl)). Defined.

Lemma wait_or_terminate_correct_witness :
  ∃ r h' w' a cs, wait_for_completion_or_terminate_inner 9 ProcessDemo.two_phases
      (ProcessDemo.handle, ProcessDemo.stuck) = Done (r, (h', w')) ∧ calls w' = CWait 9 a :: cs.
Proof.
  destruct (wait_or_terminate_correct 7 9 ProcessDemo.two_phases ProcessDemo.handle
    ProcessDemo.stuck ltac:(discriminate) eq_refl) as (r & h' & w' & a & cs & Hrun & Hc & _).
  exists r, h', w', a, cs. split; [exact Hrun|exact Hc].
Defined.

(** [total_timeout] is not an upper bound on the time of the graceful
    phases when signals cannot be sent: with a single phase of zero timeout,
    whose [total_timeout] is zero, the phase still waits the 100 ms grace
    before the kill. *)
Lemma graceful_phases_exceed_total_timeout :
  total_timeout ProcessDemo.hurried = Done 0 ∧
  ∃ r h' w' d, graceful_phases
      (step_of <$> phases (unix ProcessDemo.hurried)) 0
      (phase_sender (phases (unix ProcessDemo.hurried))) Diagnostics.default
      (ProcessDemo.handle, ProcessDemo.denied) = Done ((r, d), (h', w')) ∧
    wait_budget (calls w') = from_millis 100.
Proof. split; [reflexivity|]. eexists _, _, _, _. split; [reflexivity|]. reflexivity. Qed.
