(* ===== verification/Cleanup.v ===== *)
(** * What termination promises its clients

    The operations that own a child's end (the drop of the handle, termination
    on drop, waiting with termination) rely on few facts about the platform:
    the class [CleanupLaws].  A world remembers what was done to the child, and
    [settled] holds of two worlds if in between the child was seen to have
    exited, or the forceful kill was tried: the system carried it out or refused
    it.  A refused kill may leave the process running, as the code's own
    messages say, so the two are told apart.  The clients are proved against the
    class; the instance here is Unix, the one for Windows is in [Windows]. *)

From S2P Require Import Prelude Time Stream Errors Shutdown Process Termination.

Class Cleanup (W G : Type) := {
  (** The child was not reaped yet. *)
  unreaped : W → Prop;
  settled : W → W → Prop;
  (** A configuration [terminate] accepts. *)
  usable : G → Prop;
}.
Arguments usable {W G _}.
Arguments unreaped {W} G {_}.
Arguments settled {W} G {_}.

Class CleanupLaws (W G : Type) `{Child W, Platform W, Graceful W G, Cleanup W G} : Prop := {
  cl_try_wait w r w' :
    unreaped G w → os_try_wait w = (r, w') →
    match r with
    | Ok (Some _) => settled G w w'
    | _ => unreaped G w' ∧ ∀ u, settled G w' u → settled G w u
    end;
  cl_wait d w r w' :
    unreaped G w → os_wait d w = (r, w') →
    match r with
    | Some (Ok _) => settled G w w'
    | _ => unreaped G w' ∧ ∀ u, settled G w' u → settled G w u
    end;
  cl_kill w : unreaped G w → settled G w (platform_kill w).2;
  cl_try_wait_after w w' : settled G w w' → settled G w (os_try_wait w').2;
  cl_kill_after w w' : settled G w w' → settled G w (platform_kill w').2;
  cl_terminate {Stdout Stderr} (h : ProcessHandle Stdout Stderr) w s :
    unreaped G w → usable (W := W) s →
    ∃ r h' w', graceful_terminate s (h, w) = Done (r, (h', w')) ∧ settled G w w' ∧
      drop_mode h' = (if is_ok r then Disarmed else drop_mode h);
}.

(** ** The clients *)

Section clients.
Context {W G Stdout Stderr : Type} `{CleanupLaws W G}.
Implicit Types (h : ProcessHandle Stdout Stderr) (w : W).

Lemma start_kill_settles h w :
  unreaped G w →
  ∃ r h' w', start_kill (h, w) = Done (r, (h', w')) ∧ settled G w w' ∧
    drop_mode h' = (if is_ok r then Disarmed else drop_mode h).
Proof.
  intros Hw. pose proof (cl_kill w Hw) as Hk. unfold start_kill, send_kill_signal, on_os, mbind, st_bind.
  cbn [close_stdin on_handle]. destruct (platform_kill w) as [[[]|err] w1]; cbn [snd] in Hk.
  { rewrite must_not_run. eexists _, _, _. split_and!; [reflexivity|done|done]. }
  pose proof (cl_try_wait_after w w1 Hk) as Ht. unfold try_reap_exit_status, on_os.
  destruct (os_try_wait w1) as [[[st|]|e] w2]; cbn [snd] in Ht.
  - rewrite must_not_run. eexists _, _, _. split_and!; [reflexivity|done|done].
  - eexists _, _, _. split_and!; [reflexivity|done|done].
  - eexists _, _, _. split_and!; [reflexivity|done|done].
Qed.

(** Waiting with termination always returns, and by then the child's end is
    settled; the guard is disarmed unless the termination failed. *)
Lemma wait_or_terminate_settles d s h w :
  unreaped G w → usable (W := W) s →
  ∃ r h' w', wait_for_completion_or_terminate_inner d s (h, w) = Done (r, (h', w')) ∧ settled G w w' ∧
    drop_mode h' = match r with
                   | Ok _ | Err (WaitFailed _ _ _) => Disarmed
                   | Err _ => drop_mode h
                   end.
Proof.
  intros Hw Hs. destruct (os_wait d w) as [a w1] eqn:Ha. pose proof (cl_wait d w a w1 Hw Ha) as Hc.
  destruct (exit_of a) as [st|] eqn:Hex.
  { destruct a as [[st'|]|]; try done. eexists _, _, _. by split_and!; [eapply wait_or_terminate_exit|..]. }
  apply exit_of_none in Hex as Hna.
  assert (unreaped G w1 ∧ ∀ u, settled G w1 u → settled G w u) as [Hw1 Hu].
  { destruct a as [[st|]|]; [by destruct (Hna st)|done..]. }
  destruct (cl_terminate (after_wait h a) w1 s Hw1 Hs) as (t & h' & w' & Ht & Hcl & Hm).
  eexists _, _, _. split; [by eapply wait_or_terminate_run|]. split; [by apply Hu|].
  rewrite Hm, after_wait_guard by done. destruct a as [[st|]|]; [by destruct (Hna st)|..]; by destruct t.
Qed.

(** Dropping the handle afterwards does not undo it. *)
Lemma handle_drop_settled b h w w' : settled G w w' → settled G w (handle_drop b h w').2.
Proof. intros Hc. unfold handle_drop. destruct (drop_mode h); [by apply cl_kill_after|done]. Qed.

End clients.

(** ** Worlds that remember the calls made

    [seen] are the calls that show an exit, [kills p] those by which the system
    killed the child of id [p], [refused p] those by which it refused to. *)

Section history.
Context {W C : Type} `{Child W} (hist : W → list C) (seen : C → Prop) (kills refused : pid → C → Prop).
Implicit Types w : W.

Definition ends_child (p : pid) (cs : list C) : Prop :=
  Exists seen cs ∨ Exists (kills p) cs ∨ Exists (refused p) cs.

Definition ended_since (w w' : W) : Prop :=
  ∃ p cs, os_id w = Some p ∧ hist w' = hist w ++ cs ∧ ends_child p cs.

Lemma ends_child_app p cs ds : ends_child p cs ∨ ends_child p ds → ends_child p (cs ++ ds).
Proof. unfold ends_child. rewrite !Exists_app. tauto. Qed.

(** A call that ends the child. *)
Lemma ended_by w w' p c :
  os_id w = Some p → hist w' = hist w ++ [c] → seen c ∨ kills p c ∨ refused p c → ended_since w w'.
Proof.
  intros Hp Hc Hs. exists p, [c]. split_and!; [done..|]. unfold ends_child. rewrite !Exists_cons. tauto.
Qed.

(** One more call, before or after. *)
Lemma ended_before w w1 p c :
  os_id w = Some p → hist w1 = hist w ++ [c] → os_id w1 = os_id w →
  is_Some (os_id w1) ∧ ∀ u, ended_since w1 u → ended_since w u.
Proof.
  intros Hp Hc Hid. split; [rewrite Hid; eauto|]. intros u (q & cs & Hq & Hcs & Hcl). exists q, ([c] ++ cs).
  rewrite <- Hid, Hcs, Hc, <- app_assoc. auto using ends_child_app.
Qed.

Lemma ended_after w w1 w2 cs :
  ended_since w w1 → hist w2 = hist w1 ++ cs → ended_since w w2.
Proof.
  intros (p & ds & Hp & Hds & Hcl) Hc. exists p, (ds ++ cs). rewrite Hc, Hds, <- app_assoc.
  auto using ends_child_app.
Qed.

End history.

(** ** Unix *)

(** The calls show that the child exited, that its group was sent [SIGKILL], or
    that the system refused to send it. *)
Definition exit_seen (c : call) : Prop :=
  match c with
  | CTryWait (Ok (Some _)) | CWait _ (Some (Ok _)) | CWaitUnbounded (Ok _) => True
  | _ => False
  end.
Definition group_killed (p : pid) (c : call) : Prop :=
  match c with CKillpg q SIGKILL (Ok _) => q = p | _ => False end.
Definition kill_refused (p : pid) (c : call) : Prop :=
  match c with CKillpg q SIGKILL (Err _) => q = p | _ => False end.
Definition unix_settled : pid → list call → Prop := ends_child exit_seen group_killed kill_refused.

Lemma kill_answered p r : group_killed p (CKillpg p SIGKILL r) ∨ kill_refused p (CKillpg p SIGKILL r).
Proof. destruct r; [by left|by right]. Qed.

Lemma terminates_settled p phs cs o : terminates p phs cs o → unix_settled p cs.
Proof.
  assert (∀ cs o, escalates p phs cs o → is_Some o → Exists exit_seen cs) as Hesc.
  { clear cs o. induction 1 as [|ph phs' sent st|ph phs' sent r cs o Hr _ IH]; intros Ho.
    - by destruct Ho.
    - apply Exists_cons_tl, Exists_cons_hd. done.
    - apply Exists_app. auto. }
  assert (∀ pre ds sent r, unix_settled p (CTryWait pre :: ds
    ++ signal_and_wait p SIGKILL FORCE_KILL_WAIT_TIMEOUT sent r)) as Hin.
  { intros pre ds sent r. right.
    destruct (kill_answered p sent); [left|right]; apply Exists_cons_tl, Exists_app; right; by apply Exists_cons_hd. }
  destruct 1.
  - left. apply Exists_cons_hd. done.
  - left. apply Exists_cons_tl. eauto.
  - apply Hin.
  - apply Hin.
Qed.

(** The three cases, call by call. *)
Lemma unix_settled_calls p cs :
  unix_settled p cs →
  Exists exit_seen cs ∨
  Exists (λ call, call = CKillpg p SIGKILL (Ok ())) cs ∨
  ∃ e, Exists (λ call, call = CKillpg p SIGKILL (Err e)) cs.
Proof.
  unfold unix_settled, ends_child. rewrite !Exists_exists.
  intros [?|[(c & Hin & Hk)|(c & Hin & Hk)]]; [by left|right; left|right; right];
    destruct c as [| | |q [] [[]|e]]; try done; cbn in Hk; subst.
  - by eexists.
  - eexists. apply Exists_exists. by eexists.
Qed.

#[export] Instance unix_cleanup {W} `{Os W} : Cleanup (logged W) GracefulShutdown := {|
  unreaped w := is_Some (os_id w);
  settled := ended_since calls exit_seen group_killed kill_refused;
  usable s := phases (unix s) ≠ [];
|}.

#[export] Instance unix_cleanup_laws {W} `{OsLaws W} : CleanupLaws (logged W) GracefulShutdown.
Proof.
  split.
  - intros w r w' [p Hp] Ht. assert (calls w' = calls w ++ [CTryWait r]) as Hc by (by injection Ht as <- <-).
    destruct r as [[st|]|e]; [eapply ended_by; eauto; by left|..];
      eapply ended_before; eauto; by eapply try_wait_id.
  - intros d w r w' [p Hp] Ht. assert (calls w' = calls w ++ [CWait d r]) as Hc by (by injection Ht as <- <-).
    destruct r as [[st|e]|]; [eapply ended_by; eauto; by left|..];
      eapply ended_before; eauto; by eapply wait_id.
  - intros w [p Hp]. unfold platform_kill, unix_platform. rewrite Hp.
    eapply ended_by; [done|reflexivity|]. right. apply kill_answered.
  - intros w w' Hc. by eapply ended_after; [exact Hc|].
  - intros w w' Hc. unfold platform_kill, unix_platform. destruct (os_id w'); [|done].
    by eapply ended_after; [exact Hc|].
  - intros Stdout Stderr h w s [p Hp] Hs.
    destruct (terminate_run p s h w Hs Hp) as (r & h' & w' & Hrun & [(cs & Hc & Ht) Hg _]).
    exists r, h', w'. split_and!; [done| |done]. exists p, cs. split_and!; [done..|]. by eapply terminates_settled.
Qed.
