(* ===== verification/TerminateOnDrop.v ===== *)
(** * Termination on drop

    Models [src/terminate_on_drop.rs] and [src/async_drop.rs]: dropping the
    wrapper drives the graceful shutdown where the thread's context allows it
    and kills the process group otherwise.  The drop of a struct is its [Drop]
    followed by the drop of its fields, which also happens when [Drop]
    panics.  The code is the same on both platforms, and so are its theorems,
    which rest on [CleanupLaws]. *)

From S2P Require Import Prelude Time Stream Errors Shutdown Process Termination Cleanup.

(** ** Running a future from a synchronous context *)

Inductive UnsupportedContext : Type :=
| Panicking
| NoRuntime
| CurrentThreadRuntime
| RuntimeShuttingDown.

Inductive RuntimeFlavor : Type := CurrentThread | MultiThread.

(** What the thread's context looks like to the probes: whether it is
    unwinding, the flavour of the runtime entered on it, and whether the
    runtime cancels the probe task. *)
Record ThreadContext : Type := mkContext {
  panicking : bool;
  current_runtime : option RuntimeFlavor;
  is_shutting_down : bool;
}.

(** The checks of [try_run_future]: whether the future is driven. *)
Definition try_run_future (c : ThreadContext) : result unit UnsupportedContext :=
  if panicking c then Err Panicking
  else
    match current_runtime c with
    | None => Err NoRuntime
    | Some CurrentThread => Err CurrentThreadRuntime
    | Some MultiThread => if is_shutting_down c then Err RuntimeShuttingDown else Ok ()
    end.

Definition describe (u : UnsupportedContext) : String.string :=
  match u with
  | Panicking => "while the thread was unwinding from a panic"
  | NoRuntime => "outside a tokio runtime context"
  | CurrentThreadRuntime => "inside a current-thread tokio runtime"
  | RuntimeShuttingDown => "while its tokio runtime was shutting down"
  end.

(** ** The wrapper *)

Inductive TerminateOnDropFallback : Type := FallbackPanic | FallbackTrace.

(** [G] is the platform's [GracefulShutdown]. *)
Record TerminateOnDrop (G Stdout Stderr : Type) : Type := mkTerminateOnDrop {
  process_handle : ProcessHandle Stdout Stderr;
  shutdown : G;
  fallback : TerminateOnDropFallback;
}.
Arguments mkTerminateOnDrop {G Stdout Stderr}.
Arguments process_handle {G Stdout Stderr}.
Arguments shutdown {G Stdout Stderr}.
Arguments fallback {G Stdout Stderr}.

Section drop.
Context {W G Stdout Stderr : Type} `{Child W} `{Platform W} `{Graceful W G}.
Abbreviation handle := (ProcessHandle Stdout Stderr).

(** [ProcessHandle::terminate_on_drop]. *)
Definition terminate_on_drop_with_fallback (h : handle) (s : G)
    (f : TerminateOnDropFallback) : TerminateOnDrop G Stdout Stderr := mkTerminateOnDrop h s f.
Definition terminate_on_drop (h : handle) (s : G) : TerminateOnDrop G Stdout Stderr :=
  terminate_on_drop_with_fallback h s FallbackPanic.

Definition into_inner (t : TerminateOnDrop G Stdout Stderr) : handle := process_handle t.

Definition nothing_to_terminate : act (W := W) (Stdout := Stdout) (Stderr := Stderr) bool :=
  h ← get_handle;
  if is_drop_disarmed h then mret true
  else
    state ← is_running;
    match state with
    | Terminated _ => _ ← must_not_be_terminated; mret true
    | StillRunning | Uncertain _ => mret false
    end.

Definition terminate_gracefully (s : G)
    : act (W := W) (Stdout := Stdout) (Stderr := Stderr) unit :=
  _ ← graceful_terminate s; mret ().

(** Returns whether it panics in the end, after the kill. *)
Definition terminate_forcefully (f : TerminateOnDropFallback) (u : UnsupportedContext)
    : act (W := W) (Stdout := Stdout) (Stderr := Stderr) bool :=
  r ← start_kill;
  _ ← (if is_ok r then mret () else must_not_be_terminated);
  mret match u with
       | Panicking | RuntimeShuttingDown => false
       | NoRuntime | CurrentThreadRuntime =>
           match f with FallbackTrace => false | FallbackPanic => true end
       end.

(** [Drop::drop]. *)
Definition drop_body (f : TerminateOnDropFallback) (s : G) (c : ThreadContext)
    : act (W := W) (Stdout := Stdout) (Stderr := Stderr) bool :=
  nothing ← nothing_to_terminate;
  if nothing : bool then mret false
  else
    match try_run_future c with
    | Ok _ => _ ← terminate_gracefully s; mret false
    | Err u => terminate_forcefully f u
    end.

(** The whole drop: the body, then the wrapped handle.  Returns whether a panic
    leaves it; a panic of the body is in flight while the handle is dropped. *)
Definition drop_terminate_on_drop (c : ThreadContext) (t : TerminateOnDrop G Stdout Stderr) (w : W)
    : outcome (bool * W) :=
  '(body_panics, (h, w)) ← drop_body (fallback t) (shutdown t) c (process_handle t, w);
  let '(handle_panics, w) := handle_drop (panicking c || body_panics) h w in
  mret (body_panics || handle_panics, w).

End drop.

(** ** Claims *)

Section contract.
Context {W G Stdout Stderr : Type} `{CleanupLaws W G}.
Implicit Types (t : TerminateOnDrop G Stdout Stderr) (h : ProcessHandle Stdout Stderr) (w : W) (c : ThreadContext).

(** What the body of the drop does for a child that was not reaped. *)
Record body_effect (c : ThreadContext) (f : TerminateOnDropFallback) w (b : bool) h' w' : Prop := {
  be_settled : settled G w w';
  be_guard : try_run_future c ≠ Ok () → drop_mode h' = Disarmed;
  be_panics : b = true → f = FallbackPanic ∧
    (try_run_future c = Err NoRuntime ∨ try_run_future c = Err CurrentThreadRuntime);
}.

Lemma nothing_run h w :
  is_drop_disarmed h = false → unreaped G w →
  ∃ b h' w', nothing_to_terminate (h, w) = Done (b, (h', w')) ∧
    if b then drop_mode h' = Disarmed ∧ settled G w w'
    else h' = h ∧ unreaped G w' ∧ ∀ u, settled G w' u → settled G w u.
Proof.
  intros Hd Hw. unfold nothing_to_terminate, mbind, st_bind. cbn [get_handle]. rewrite Hd.
  unfold is_running, try_reap_exit_status, on_os, mbind, st_bind.
  destruct (os_try_wait w) as [a w1] eqn:Ht. pose proof (cl_try_wait w a w1 Hw Ht) as Hc.
  destruct a as [[st|]|e]; cbn [mret st_ret]; rewrite ?must_not_run; eexists _, _, _; by split; [reflexivity|].
Qed.

Lemma forceful_effect f u c h w :
  unreaped G w → try_run_future c = Err u →
  ∃ b h' w', terminate_forcefully f u (h, w) = Done (b, (h', w')) ∧ body_effect c f w b h' w'.
Proof.
  intros Hw Hu. unfold terminate_forcefully, mbind, st_bind.
  destruct (start_kill_settles h w Hw) as (r & h' & w' & -> & Hc & Hm).
  destruct r as [[]|e]; cbn [is_ok] in *; rewrite ?must_not_run; eexists _, _, _; (split; [reflexivity|]);
    (split; [done|done|]); rewrite Hu; destruct u, f; try done; auto.
Qed.

Lemma body_run f s c h w :
  is_drop_disarmed h = false → unreaped G w → usable (W := W) s →
  ∃ b h' w', drop_body f s c (h, w) = Done (b, (h', w')) ∧ body_effect c f w b h' w'.
Proof.
  intros Hd Hw Hs. unfold drop_body, mbind, st_bind.
  destruct (nothing_run h w Hd Hw) as (b & h1 & w1 & -> & Hb). destruct b.
  { destruct Hb as [Hm Hc]. eexists _, _, _. split; [reflexivity|]. by split. }
  destruct Hb as (-> & Hw1 & Hu). destruct (try_run_future c) as [[]|u] eqn:Hc.
  - unfold terminate_gracefully, mbind, st_bind.
    destruct (cl_terminate h w1 s Hw1 Hs) as (r & h2 & w2 & -> & Hc2 & _).
    eexists _, _, _. split; [reflexivity|]. split; try done. by apply Hu.
  - destruct (forceful_effect f u c h w1 Hw1 Hc) as (b & h2 & w2 & -> & [Hcl Hg Hp]).
    eexists _, _, _. split; [reflexivity|]. split; [by apply Hu|done|done].
Qed.

Lemma drop_settles c t w :
  is_drop_disarmed (process_handle t) = false → unreaped G w → usable (W := W) (shutdown t) →
  ∃ b w', drop_terminate_on_drop c t w = Done (b, w') ∧ settled G w w'.
Proof.
  intros Hd Hw Hs. unfold drop_terminate_on_drop.
  destruct (body_run (fallback t) (shutdown t) c (process_handle t) w Hd Hw Hs)
    as (b & h' & w' & -> & [Hc _ _]). cbn [mbind outcome_bind].
  pose proof (handle_drop_settled (panicking c || b) h' w w' Hc) as Hh.
  destruct (handle_drop (panicking c || b) h' w') as [hp w2]. by eexists _, _.
Qed.

(** The drop of a [TerminateOnDrop] panics only on a thread that is not
    already unwinding, and only if the graceful shutdown ran and failed, or
    if it could not run for want of a multi-threaded runtime under the
    [Panic] fallback; with a handle whose lifecycle is closed it does
    nothing. *)
Lemma terminate_on_drop_panics c t w b w' :
  unreaped G w → usable (W := W) (shutdown t) →
  drop_terminate_on_drop c t w = Done (b, w') →
  if is_drop_disarmed (process_handle t) then b = false ∧ w' = w
  else b = true → panicking c = false ∧
    (try_run_future c = Ok () ∨
     fallback t = FallbackPanic ∧
     (try_run_future c = Err NoRuntime ∨ try_run_future c = Err CurrentThreadRuntime)).
Proof.
  intros Hw Hs. unfold drop_terminate_on_drop. destruct (is_drop_disarmed (process_handle t)) eqn:Hd.
  { unfold drop_body, nothing_to_terminate, mbind, st_bind. cbn [get_handle]. rewrite Hd. cbn.
    unfold is_drop_disarmed in Hd. unfold handle_drop. destruct (drop_mode (process_handle t)); [done|].
    simpl. by intros [= <- <-]. }
  destruct (body_run (fallback t) (shutdown t) c (process_handle t) w Hd Hw Hs)
    as (bp & h' & w1 & -> & [_ Hg Hp]). cbn [mbind outcome_bind].
  destruct (handle_drop (panicking c || bp) h' w1) as [hp w2] eqn:Hh. intros [= <- <-] Hb.
  unfold handle_drop in Hh. injection Hh as Hhp _.
  destruct bp.
  - destruct (Hp eq_refl) as [Hf Hu]. split; [|auto].
    unfold try_run_future in Hu. destruct (panicking c); [|done]. by destruct Hu.
  - simpl in Hb. rewrite orb_false_r in Hhp. subst hp.
    destruct (try_run_future c) as [[]|u] eqn:Hc.
    + split; [|by left]. unfold try_run_future in Hc. by destruct (panicking c).
    + rewrite Hg in Hb by done. done.
Qed.

End contract.


