(* ===== verification/OutputCollection.v ===== *)
(** * Waiting for a process with its output

    Models [src/process_handle/output_collection/] and
    [src/process_handle/wait_builder.rs]: the collectors spawned on stdout and
    stderr, the drain of both under one shared deadline, and the staged wait
    builder that puts them together with waiting and termination.

    The driver tasks of the two collectors run while the handle is awaited; a
    [DrainSchedule] says how: the turns each takes, when its timer fires and
    which branch the [select!] picks first. *)

From S2P Require Import Prelude Time Utf8 Stream Driver LineParser LineSpec ParseLines Collect.
From S2P Require Import Visitors Consumer SingleSubscriber Errors Shutdown Process Termination Cleanup.

Record ProcessOutput (O1 O2 : Type) : Type := mkProcessOutput {
  po_status : ExitStatus; po_stdout : O1; po_stderr : O2 }.
Arguments mkProcessOutput {O1 O2}.
Arguments po_status {O1 O2}.
Arguments po_stdout {O1 O2}.
Arguments po_stderr {O1 O2}.

Definition DEFAULT_OUTPUT_EOF_TIMEOUT : Duration := from_secs 3.

Record LineOutputOptions : Type := mkLineOutputOptions {
  stdout_line_options : LineCollectionOptions; stderr_line_options : LineCollectionOptions }.
Record RawOutputOptions : Type := mkRawOutputOptions {
  stdout_raw_options : RawCollectionOptions; stderr_raw_options : RawCollectionOptions }.

Definition line_symmetric (o : LineCollectionOptions) : LineOutputOptions := mkLineOutputOptions o o.
Definition raw_symmetric (o : RawCollectionOptions) : RawOutputOptions := mkRawOutputOptions o o.

(** ** Draining two collectors *)

Inductive ConsumerDrainError : Type :=
| DrainTimeout
| DrainCollection (e : ConsumerError).

Definition into_wait_with_output_error (e : ConsumerDrainError) (name : String.string)
    (eof_timeout : Duration) : WaitWithOutputError :=
  match e with
  | DrainCollection source => OutputCollectionFailed name source
  | DrainTimeout => OutputCollectionTimeout name eof_timeout
  end.

(** [drain_remaining_consumer]: what the second future's answer means. *)
Definition drain_remaining_consumer {S} (r : result (option S) ConsumerError)
    : result S ConsumerDrainError :=
  match r with
  | Ok (Some sink) => Ok sink
  | Err e => Err (DrainCollection e)
  | Ok None => Err DrainTimeout
  end.

(** One side's part of a schedule. *)
Record side_schedule : Type := mkSide { turns : list turn; deadline : timer }.

Section drain.
Context {V1 O1 V2 O2 : Type} `{StreamVisitor V1 O1, StreamVisitor V2 O2}.

Abbreviation drained := (result (O1 * O2) ConsumerDrainError * World V1 O1 * World V2 O2)%type.

(** [take_ready_error_or_timeout]: one poll of the other future. *)
Definition take_ready_error_or_timeout (a : awaited (V := V2) (Out := O2) (result (option O2) ConsumerError))
    : ConsumerDrainError * ConsumerWait * World V2 O2 :=
  match a with
  | AReady (Err e) g w => (DrainCollection e, g, w)
  | AReady (Ok _) g w => (DrainTimeout, g, w)
  | APending g w => (DrainTimeout, g, w)
  end.

(** The arm of the [select!] whose future (the first one here) is ready, and
    the action it leads to; the guards are dropped at the end.  [None] while a
    future is still pending. *)
Definition drain_after (g1 : ConsumerWait) (w1 : World V1 O1) (s1 : side_schedule)
    (g2 : ConsumerWait) (w2 : World V2 O2) (s2 : side_schedule) : outcome (option drained) :=
  a1 ← wait_until g1 w1 (turns s1) (deadline s1);
  match a1 with
  | APending _ _ => mret None
  | AReady (Ok (Some out)) g1 w1 =>
      a2 ← wait_until g2 w2 (turns s2) (deadline s2);
      match a2 with
      | APending _ _ => mret None
      | AReady r g2 w2 =>
          mret (Some (match drain_remaining_consumer r with
                      | Ok err => Ok (out, err)
                      | Err e => Err e
                      end, guard_drop g1 w1, guard_drop g2 w2))
      end
  | AReady (Err e) g1 w1 =>
      let '(g2, w2) := guard_abort g2 (await_task w2 (turns s2)).1 in
      mret (Some (Err (DrainCollection e), guard_drop g1 w1, guard_drop g2 w2))
  | AReady (Ok None) g1 w1 =>
      a2 ← wait_until g2 w2 (turns s2) (deadline s2);
      let '(e, g2, w2) := take_ready_error_or_timeout a2 in
      let '(g2, w2) := guard_abort g2 w2 in
      mret (Some (Err e, guard_drop g1 w1, guard_drop g2 w2))
  end.

End drain.

(** What happens during a drain: the clock when it starts, which collector is
    served first, and the two sides. *)
Record DrainSchedule : Type := mkDrainSchedule {
  drain_clock : Clock;
  stdout_first : bool;
  stdout_side : side_schedule;
  stderr_side : side_schedule;
}.

Section collect.
Context {V1 O1 V2 O2 : Type} `{StreamVisitor V1 O1, StreamVisitor V2 O2}.

Abbreviation drained := (result (O1 * O2) ConsumerDrainError * World V1 O1 * World V2 O2)%type.

Definition wait_for_output_consumers (c1 c2 : Consumer) (timeout : Duration)
    (w1 : World V1 O1) (w2 : World V2 O2) (s : DrainSchedule) : outcome (option drained) :=
  _ ← instant_add (drain_clock s) timeout;
  let '(g1, _) := into_wait c1 in
  let '(g2, _) := into_wait c2 in
  if stdout_first s then drain_after g1 w1 (stdout_side s) g2 w2 (stderr_side s)
  else
    r ← drain_after g2 w2 (stderr_side s) g1 w1 (stdout_side s);
    mret (match r with
          | Some (Ok (err, out), w2, w1) => Some (Ok (out, err), w1, w2)
          | Some (Err e, w2, w1) => Some (Err e, w1, w2)
          | None => None
          end).

(** ** Waiting with collectors *)

Context {W G Stdout Stderr : Type} `{Child W} `{Graceful W G}.
Abbreviation handle := (ProcessHandle Stdout Stderr).

(** The two collectors with their tasks. *)
Record running_collectors : Type := mkRunning {
  out_collector : Consumer;
  err_collector : Consumer;
  out_world : World V1 O1;
  err_world : World V2 O2;
}.

(** What an operation returns: its result and the state of everything. *)
Abbreviation finished T := (option (T * (handle * W) * World V1 O1 * World V2 O2)).

Definition drain_and_finish {T} (c : running_collectors) (s : DrainSchedule) (eof_timeout : Duration)
    (k : O1 * O2 → T) (hw : handle * W) : outcome (finished (result T WaitWithOutputError)) :=
  r ← wait_for_output_consumers (out_collector c) (err_collector c) eof_timeout (out_world c) (err_world c) s;
  mret (match r with
        | Some (Ok outs, w1, w2) => Some (Ok (k outs), hw, w1, w2)
        | Some (Err e, w1, w2) =>
            Some (Err (into_wait_with_output_error e (h_name hw.1) eof_timeout), hw, w1, w2)
        | None => None
        end).

Definition wait_for_completion_with_collectors (proc_timeout eof_timeout : Duration)
    (c : running_collectors) (s : DrainSchedule) (hw : handle * W)
    : outcome (finished (result (WaitForCompletionResult (ProcessOutput O1 O2)) WaitWithOutputError)) :=
  '(r, hw) ← wait_for_completion_inner proc_timeout hw;
  match r with
  | Err e =>
      mret (Some (Err (WoWaitFailed e), hw, consumer_drop (out_collector c) (out_world c),
                  consumer_drop (err_collector c) (err_world c)))
  | Ok (Timeout d) =>
      mret (Some (Ok (Timeout d), hw, Consumer_abort (out_collector c) (out_world c),
                  Consumer_abort (err_collector c) (err_world c)))
  | Ok (Errors.Completed status) =>
      drain_and_finish c s eof_timeout
        (λ outs, Errors.Completed (mkProcessOutput status outs.1 outs.2)) hw
  end.

Definition wait_for_completion_or_terminate_with_collectors (wait_timeout : Duration)
    (shutdown : G) (eof_timeout : Duration) (c : running_collectors)
    (s : DrainSchedule) (hw : handle * W)
    : outcome (finished (result (WaitForCompletionOrTerminateResult (ProcessOutput O1 O2))
                           WaitWithOutputError)) :=
  '(r, hw) ← wait_for_completion_or_terminate_inner wait_timeout shutdown hw;
  match r with
  | Err e =>
      mret (Some (Err (WaitOrTerminateFailed e), hw, consumer_drop (out_collector c) (out_world c),
                  consumer_drop (err_collector c) (err_world c)))
  | Ok o =>
      drain_and_finish c s eof_timeout
        (λ outs, ot_map (λ status, mkProcessOutput status outs.1 outs.2) o) hw
  end.

End collect.

(** ** Starting the collectors *)

(** The driver task owns the subscription from here on: the turns a schedule
    gives the task are what the subscription yields, which [CollectedOutput] ties
    to the stream. *)
Definition spawn_chunk_collector {S} (name : String.string) (subscription : S) (options : RawCollectionOptions)
    : Consumer * World (CollectChunks CollectedBytes RawCollectionOptions) CollectedBytes :=
  spawn_consumer_sync name (mkCollectChunks CollectedBytes.new options).

Definition spawn_line_collector {B S} `{BytesMut B, Memchr} (name : String.string) (subscription : S)
    (parsing_options : LineParsingOptions) (options : LineCollectionOptions)
    : outcome (Consumer * World (ParseLines B (CollectLines CollectedLines LineCollectionOptions)) CollectedLines) :=
  v ← ParseLines_collect parsing_options CollectedLines.new options;
  mret (spawn_consumer_sync name v).

(** [Subscribable], with the stream's state and the drop of a subscription made
    explicit; making the subscription's channel may panic. *)
Class Subscribable (X Sub : Type) := {
  stream_name : X → String.string;
  try_subscribe : X → outcome (result (Sub * X) StreamConsumerError);
  drop_subscription : Sub → X → X;
}.

(** A stream that can be subscribed to now. *)
Definition claimable {X Sub} `{Subscribable X Sub} (x : X) : Prop :=
  ∃ s x', try_subscribe x = Done (Ok (s, x')).

(** What a backend promises to [try_spawn_output_collectors]: a subscription
    that still has its claim releases it when it is dropped. *)
Class ReleasesOnDrop (X Sub : Type) `{Subscribable X Sub} := {
  has_claim : Sub → X → Prop;
  subscribe_claims x s x' : try_subscribe x = Done (Ok (s, x')) → has_claim s x';
  drop_releases s x : has_claim s x → claimable (drop_subscription s x);
}.

Section start.
Context {V1 O1 V2 O2 : Type} `{StreamVisitor V1 O1, StreamVisitor V2 O2}.
Context {X1 S1 X2 S2 : Type} `{Subscribable X1 S1, Subscribable X2 S2}.

Definition with_streams (h : ProcessHandle X1 X2) (x1 : X1) (x2 : X2) : ProcessHandle X1 X2 :=
  mkHandle (h_name h) (std_in h) x1 x2 (drop_mode h).

(** The drop of a task's subscription, when the task is over. *)
Definition release_if_joined (w : World V1 O1) (s : S1) (x : X1) : X1 :=
  match join w with Some _ => drop_subscription s x | None => x end.

(** [try_spawn_output_collectors]: if stderr cannot be claimed, the stdout
    collector that already runs is aborted and joined.  [activity] is what the
    reader and the collector did with the claimed stream until then; the
    collector's final state is returned with the error. *)
Definition try_spawn_output_collectors
    (spawn_stdout : String.string → S1 → outcome (Consumer * World V1 O1))
    (spawn_stderr : String.string → S2 → outcome (Consumer * World V2 O2))
    (activity : S1 * X1 → S1 * X1) (h : ProcessHandle X1 X2)
    : outcome (result (running_collectors (V1 := V1) (O1 := O1) (V2 := V2) (O2 := O2))
        (WaitWithOutputError * option (World V1 O1)) * ProcessHandle X1 X2) :=
  out_subscription ← try_subscribe (std_out_stream h);
  match out_subscription with
  | Err e => mret (Err (OutputCollectionStartFailed (h_name h) e, None), h)
  | Ok (s1, x1) =>
      '(out_collector, w1) ← spawn_stdout (stream_name (std_out_stream h)) s1;
      err_subscription ← try_subscribe (std_err_stream h);
      match err_subscription with
      | Err e =>
          let w1 := Consumer_abort out_collector w1 in
          let '(s1, x1) := activity (s1, x1) in
          mret (Err (OutputCollectionStartFailed (h_name h) e, Some w1),
                with_streams h (release_if_joined w1 s1 x1) (std_err_stream h))
      | Ok (s2, x2) =>
          '(err_collector, w2) ← spawn_stderr (stream_name (std_err_stream h)) s2;
          mret (Ok (mkRunning out_collector err_collector w1 w2), with_streams h x1 x2)
      end
  end.

End start.

(** ** The drain comes to an end and leaks nothing *)

Section drain_facts.
Context {V1 O1 V2 O2 : Type} `{StreamVisitor V1 O1, StreamVisitor V2 O2}.

Lemma wait_until_total {V O} `{StreamVisitor V O} g (w : World V O) sched d :
  guard_task g = Some () → ∃ a, wait_until g w sched d = Done a.
Proof.
  intros Hg. unfold wait_until, guard_wait. rewrite Hg. cbn.
  destruct (await_task w sched) as [w' [[r|e]|]]; simpl; destruct d; simpl; eauto.
Qed.

Lemma abort_drop_stopped {V O} `{StreamVisitor V O} g (w : World V O) g' w' :
  guard_abort g w = (g', w') → guard_task g = Some () ∨ stopped (guard_drop g w) →
  stopped (guard_drop g' w').
Proof.
  intros Ha [Hg|Hs].
  - apply guard_drop_stopped. right. by eapply guard_abort_stopped.
  - destruct (guard_task g) as [[]|] eqn:Hg.
    + apply guard_drop_stopped. right. by eapply guard_abort_stopped.
    + unfold guard_abort in Ha. rewrite Hg in Ha. injection Ha as <- <-.
      unfold guard_drop in *. rewrite Hg in Hs. done.
Qed.

Lemma wait_until_pending {V O} `{StreamVisitor V O} g (w : World V O) sched d g' w' :
  wait_until g w sched d = Done (APending g' w') → d = NotElapsed.
Proof.
  unfold wait_until, guard_wait. destruct (guard_task g); [|done]. cbn.
  destruct (await_task w sched) as [w0 [[r|e]|]]; cbn; by destruct d.
Qed.

Lemma drain_after_ends g1 (w1 : World V1 O1) s1 g2 (w2 : World V2 O2) s2 :
  guard_task g1 = Some () → guard_task g2 = Some () →
  ∃ r, drain_after g1 w1 s1 g2 w2 s2 = Done r ∧
    (deadline s1 ≠ NotElapsed → deadline s2 ≠ NotElapsed → is_Some r) ∧
    ∀ x u1 u2, r = Some (x, u1, u2) → stopped u1 ∧ stopped u2.
Proof.
  intros Hg1 Hg2. unfold drain_after.
  destruct (wait_until_total g1 w1 (turns s1) (deadline s1) Hg1) as [a1 Ha1]. rewrite Ha1. cbn [mbind outcome_bind].
  pose proof (wait_until_stopped _ _ _ _ _ Ha1) as Hs1.
  destruct (wait_until_total g2 w2 (turns s2) (deadline s2) Hg2) as [a2 Ha2].
  pose proof (wait_until_stopped _ _ _ _ _ Ha2) as Hs2.
  destruct a1 as [[[out|]|e] h1 u1|h1 u1]; simpl in Hs1.
  - rewrite Ha2. cbn [mbind outcome_bind].
    destruct a2 as [r h2 u2|h2 u2]; (eexists; split; [reflexivity|]; split).
    + eauto.
    + intros x y1 y2 Heq. injection Heq as _ <- <-. done.
    + intros _ []. by eapply wait_until_pending.
    + done.
  - rewrite Ha2. cbn [mbind outcome_bind]. destruct (take_ready_error_or_timeout a2) as [[e h2] u2] eqn:Ht.
    destruct (guard_abort h2 u2) as [h3 u3] eqn:Hab. eexists. split; [reflexivity|]. split; [eauto|].
    intros x y1 y2 Heq. injection Heq as _ <- <-. split; [done|]. eapply abort_drop_stopped; [done|]. right.
    destruct a2 as [[r|e'] h u|h u]; by injection Ht as <- <- <-.
  - destruct (guard_abort g2 (await_task w2 (turns s2)).1) as [h3 u3] eqn:Hab.
    eexists. split; [reflexivity|]. split; [eauto|].
    intros x y1 y2 Heq. injection Heq as _ <- <-. split; [done|]. eapply abort_drop_stopped; [done|]. by left.
  - eexists. split; [reflexivity|]. split; [|done]. intros Hd. destruct Hd. exact (wait_until_pending _ _ _ _ _ _ Ha1).
Qed.

End drain_facts.

Section claims.
Context {V1 O1 V2 O2 : Type} `{StreamVisitor V1 O1, StreamVisitor V2 O2}.
Context {W Stdout Stderr : Type} `{Child W}.
Implicit Types (h : ProcessHandle Stdout Stderr).

(** Both deadlines of a schedule fire, as the timers of tokio do. *)
Definition timers_fire (s : DrainSchedule) : Prop :=
  deadline (stdout_side s) ≠ NotElapsed ∧ deadline (stderr_side s) ≠ NotElapsed.

Lemma output_consumers_end (c1 c2 : Consumer) timeout (u1 : World V1 O1) (u2 : World V2 O2) s :
  representable (drain_clock s) timeout → c_task c1 = Some () → c_task c2 = Some () →
  ∃ r, wait_for_output_consumers c1 c2 timeout u1 u2 s = Done r ∧ (timers_fire s → is_Some r) ∧
    ∀ x w1 w2, r = Some (x, w1, w2) → stopped w1 ∧ stopped w2.
Proof.
  intros Hd Hc1 Hc2. unfold wait_for_output_consumers, into_wait, timers_fire.
  rewrite (instant_add_done _ _ Hd). cbn [mbind outcome_bind].
  set (g1 := mkConsumerWait (c_stream_name c1) (c_task c1) (c_sender c1)).
  set (g2 := mkConsumerWait (c_stream_name c2) (c_task c2) (c_sender c2)).
  destruct (stdout_first s).
  - destruct (drain_after_ends g1 u1 (stdout_side s) g2 u2 (stderr_side s) Hc1 Hc2) as (r & -> & Hf & Hr).
    exists r. split; [done|]. split; [|done]. intros []. auto.
  - destruct (drain_after_ends g2 u2 (stderr_side s) g1 u1 (stdout_side s) Hc2 Hc1) as (r & -> & Hf & Hr).
    cbn. eexists. split; [reflexivity|]. split.
    + intros [H1' H2']. destruct (Hf H2' H1') as [[[[[]|] ?] ?] ->]; eauto.
    + intros x w1 w2. destruct r as [[[[[err out]|e] y2] y1]|]; [| |done]; intros [= _ <- <-];
        destruct (Hr _ _ _ eq_refl); done.
Qed.

Lemma drain_and_finish_ends {T} c s eof_timeout (k : O1 * O2 → T) (hw : ProcessHandle Stdout Stderr * W) :
  representable (drain_clock s) eof_timeout →
  c_task (out_collector c) = Some () → c_task (err_collector c) = Some () →
  ∃ r, drain_and_finish c s eof_timeout k hw = Done r ∧ (timers_fire s → is_Some r) ∧
    ∀ x hw' w1 w2, r = Some (x, hw', w1, w2) → stopped w1 ∧ stopped w2 ∧ hw' = hw.
Proof.
  intros Hd Hc1 Hc2. unfold drain_and_finish.
  destruct (output_consumers_end (out_collector c) (err_collector c) eof_timeout (out_world c) (err_world c) s
    Hd Hc1 Hc2)
    as (r & -> & Hf & Hr). cbn. eexists. split; [reflexivity|]. split.
  - intros Hs. destruct (Hf Hs) as [[[[] ?] ?] ->]; eauto.
  - intros x hw' w1 w2. destruct r as [[[[outs|e] y1] y2]|]; [| |done]; intros [= _ <- <- <-];
      destruct (Hr _ _ _ eq_refl); done.
Qed.

(** The collectors of a running operation as they were spawned, at any point of
    their life. *)
Definition spawned (c : running_collectors (V1 := V1) (O1 := O1) (V2 := V2) (O2 := O2)) : Prop :=
  c_task (out_collector c) = Some () ∧ c_task (err_collector c) = Some ().


Lemma wait_until_driver {V O} `{StreamVisitor V O} name (v : V) g w ts d (o : O) :
  spawn_consumer_sync name v = (g, w) → consume_sync v ts = Finished (Ok o) → Cancelled ∉ ts →
  d ≠ ElapsedFirst →
  ∃ g' w', wait_until (into_wait g).1 w ts d = Done (AReady (Ok (Some o)) g' w').
Proof.
  intros [= <- <-] Hts Hc Hd. unfold wait_until, guard_wait. cbn.
  pose proof (await_task_driver v false ts) as Ha.
  destruct (await_task _ ts) as [w' r] eqn:Haw. apply await_task_join in Haw as <-.
  simpl in Ha. rewrite Ha, Hts.
  2: { apply Forall_forall. by intros t Ht ->. }
  simpl. destruct d; try done; eauto.
Qed.

(** Both collectors reach the end of their streams before the deadline: the
    drain returns what their visitors made of the streams, whichever of them is
    finished first. *)
Lemma drain_and_finish_complete {T} n1 n2 (v1 : V1) (v2 : V2) c1 c2 w1 w2 s eof_timeout
    (k : O1 * O2 → T) (hw : ProcessHandle Stdout Stderr * W) o1 o2 :
  representable (drain_clock s) eof_timeout →
  spawn_consumer_sync n1 v1 = (c1, w1) → spawn_consumer_sync n2 v2 = (c2, w2) →
  consume_sync v1 (turns (stdout_side s)) = Finished (Ok o1) → Cancelled ∉ turns (stdout_side s) →
  consume_sync v2 (turns (stderr_side s)) = Finished (Ok o2) → Cancelled ∉ turns (stderr_side s) →
  deadline (stdout_side s) ≠ ElapsedFirst → deadline (stderr_side s) ≠ ElapsedFirst →
  ∃ u1 u2, drain_and_finish (mkRunning c1 c2 w1 w2) s eof_timeout k hw
    = Done (Some (Ok (k (o1, o2)), hw, u1, u2)).
Proof.
  intros Hd Hs1 Hs2 Hv1 Hc1 Hv2 Hc2 Hd1 Hd2.
  destruct (wait_until_driver n1 v1 c1 w1 _ _ o1 Hs1 Hv1 Hc1 Hd1) as (g1' & w1' & Ha1).
  destruct (wait_until_driver n2 v2 c2 w2 _ _ o2 Hs2 Hv2 Hc2 Hd2) as (g2' & w2' & Ha2).
  unfold drain_and_finish, wait_for_output_consumers. rewrite (instant_add_done _ _ Hd). cbn [mbind outcome_bind].
  cbn [out_collector err_collector out_world err_world].
  destruct (into_wait c1) as [g1 ?], (into_wait c2) as [g2 ?]. cbn [fst] in *.
  unfold drain_after. destruct (stdout_first s).
  - rewrite Ha1. cbn [mbind outcome_bind]. rewrite Ha2. cbn. eexists _, _. reflexivity.
  - rewrite Ha2. cbn [mbind outcome_bind]. rewrite Ha1. cbn. eexists _, _. reflexivity.
Qed.

(** C37: if the second stream cannot be claimed, the collector already started
    on the first is aborted and joined before the error is returned, so that
    the first stream can be claimed again by the time the caller sees the error. *)
Theorem collector_start_failure_joins {X1 S1 X2 S2} `{Hx1 : Subscribable X1 S1, !ReleasesOnDrop X1 S1,
    Hx2 : Subscribable X2 S2} n1 (v1 : V1) spawn_stderr activity (hx : ProcessHandle X1 X2) s1 x1 e :
  try_subscribe (std_out_stream hx) = Done (Ok (s1, x1)) → try_subscribe (std_err_stream hx) = Done (Err e) →
  (∀ s x, has_claim s x → has_claim (activity (s, x)).1 (activity (s, x)).2) →
  ∃ (u : World V1 O1) hx',
    try_spawn_output_collectors (V2 := V2) (O2 := O2) (λ _ _, mret (spawn_consumer_sync n1 v1)) spawn_stderr activity hx =
      Done (Err (OutputCollectionStartFailed (h_name hx) e, Some u), hx') ∧
    stopped u ∧ is_Some (join u) ∧
    claimable (std_out_stream hx') ∧ std_err_stream hx' = std_err_stream hx.
Proof.
  intros Hs1 Hs2 Hact. unfold try_spawn_output_collectors. rewrite Hs1. cbn. rewrite Hs2.
  apply subscribe_claims, Hact in Hs1. destruct (activity (s1, x1)) as [s x]. cbn in *.
  eexists _, _. split; [reflexivity|]. cbn. repeat split; [done|]. by apply drop_releases.
Qed.

(** Waiting with output and termination, for a platform with the termination
    contract. *)
Lemma output_or_terminate_settles {G} `{!Platform W, !Graceful W G, !Cleanup W G, !CleanupLaws W G}
    d (shutdown : G) eof_timeout c s h (w : W) :
  usable (W := W) shutdown → unreaped G w → spawned c → representable (drain_clock s) eof_timeout →
  ∃ r, wait_for_completion_or_terminate_with_collectors d shutdown eof_timeout c s (h, w) = Done r ∧
    (timers_fire s → is_Some r) ∧
    ∀ x hw w1 w2, r = Some (x, hw, w1, w2) → stopped w1 ∧ stopped w2 ∧ settled G w hw.2.
Proof.
  intros Hs Hw [Hc1 Hc2] Hd. unfold wait_for_completion_or_terminate_with_collectors.
  destruct (wait_or_terminate_settles d shutdown h w Hw Hs) as (r & h' & w' & -> & Hcl & _).
  cbn [mbind outcome_bind]. destruct r as [o|e].
  - match goal with |- context [drain_and_finish _ _ _ ?k _] =>
      destruct (drain_and_finish_ends c s eof_timeout k (h', w') Hd Hc1 Hc2) as (r & -> & Hf & Hr) end.
    eexists. split; [reflexivity|]. split; [done|]. intros x hw w1 w2 Hx.
    destruct (Hr x hw w1 w2 Hx) as (? & ? & ->). done.
  - eexists. split; [reflexivity|]. split; [eauto|]. intros x hw' w1 w2 [= _ <- <- <-].
    unfold consumer_drop. rewrite Hc1, Hc2. split_and!; [apply abort_stopped..|done].
Qed.

End claims.


(** An end-of-file timeout whose deadline does not exist makes the drain panic
    after the process has exited, instead of waiting for the streams; the
    collectors it owns are dropped while it unwinds, which stops both tasks. *)
Lemma oversized_eof_timeout_panics {V1 O1 V2 O2 W Stdout Stderr} `{StreamVisitor V1 O1, StreamVisitor V2 O2, Child W}
    proc_timeout eof_timeout (c : running_collectors (V1 := V1) (O1 := O1) (V2 := V2) (O2 := O2)) s
    (h : ProcessHandle Stdout Stderr) (w w' : W) status :
  spawned c → os_wait proc_timeout w = (Some (Ok status), w') → ¬ representable (drain_clock s) eof_timeout →
  wait_for_completion_with_collectors proc_timeout eof_timeout c s (h, w) = Panic ∧
  stopped (consumer_drop (out_collector c) (out_world c)) ∧
  stopped (consumer_drop (err_collector c) (err_world c)).
Proof.
  intros [Hc1 Hc2] Hw Hd. unfold consumer_drop. rewrite Hc1, Hc2. split; [|split; apply abort_stopped].
  unfold wait_for_completion_with_collectors. rewrite wait_inner_run, Hw. cbn [mbind outcome_bind fst].
  unfold drain_and_finish, wait_for_output_consumers. by rewrite (instant_add_panic _ _ Hd).
Qed.

(** ** Examples *)

Module OutputDemo.

Definition collectors : running_collectors (V1 := CollectChunks CollectedBytes RawCollectionOptions)
    (V2 := CollectChunks CollectedBytes RawCollectionOptions) :=
  let out := spawn_chunk_collector "stdout" () RawTrustedUnbounded in
  let err := spawn_chunk_collector "stderr" () RawTrustedUnbounded in
  mkRunning out.1 err.1 out.2 err.2.

(** Stdout ends, stderr stays open beyond the deadline. *)
Definition stderr_hangs : DrainSchedule :=
  mkDrainSchedule (mkClock 0 UNIX_LAST_INSTANT) true (mkSide [Event (Some (Chunk [x61])); Event (Some Eof)] Elapsed)
    (mkSide [Event (Some (Chunk [x62]))] Elapsed).

(** The child of pid 7 exits at the first wait. *)
Definition exits : logged script :=
  mkLogged (mkScript (Some 7) [] [Some (Ok (mkExitStatus (Some 0)))] []) [].

(** A backend of one slot: [true] while it is taken. *)
#[global] Instance slot_subscribable : Subscribable bool unit := {|
  stream_name _ := "slot"%string;
  try_subscribe (x : bool) := mret (if x then Err (ActiveConsumer "slot") else Ok ((), true));
  drop_subscription _ _ := false;
|}.

#[global, refine] Instance slot_releases : ReleasesOnDrop bool unit := {|
  has_claim _ x := x = true;
|}.
Proof.
  - intros [] s x' Hx; [discriminate|]. by injection Hx as <- <-.
  - intros s x _. exists (), true. reflexivity.
Defined.

(** Stderr is taken. *)
Definition half_taken : ProcessHandle bool bool :=
  mkHandle "demo" StdinOpen false true new_armed_drop_mode.

End OutputDemo.



Lemma collector_start_failure_joins_witness :
  ∃ u hx, try_spawn_output_collectors
      (λ _ sub, mret (spawn_chunk_collector "stdout" sub RawTrustedUnbounded))
      (λ n sub, mret (spawn_chunk_collector n sub RawTrustedUnbounded)) (λ p : unit * bool, p) OutputDemo.half_taken =
    Done (Err (OutputCollectionStartFailed "demo" (ActiveConsumer "slot"), Some u), hx) ∧
    claimable (std_out_stream hx).
Proof.
  destruct (collector_start_failure_joins (Hx1 := OutputDemo.slot_subscribable)
    (Hx2 := OutputDemo.slot_subscribable) "stdout" (mkCollectChunks CollectedBytes.new RawTrustedUnbounded)
    (λ n sub, mret (spawn_chunk_collector n sub RawTrustedUnbounded)) (λ p : unit * bool, p) OutputDemo.half_taken () true
    (ActiveConsumer "slot") ltac:(reflexivity) ltac:(reflexivity) ltac:(intros s x Hx; exact Hx))
    as (u & hx & Hrun & _ & _ & Hok & _).
  exists u, hx. split; [exact Hrun|exact Hok].
Defined.
