(* ===== verification/WaitBuilder.v ===== *)
(** * The staged wait builder

    Models [src/process_handle/wait_builder.rs]: the two type-state axes (output
    collection and termination) and the six [IntoFuture] implementations, on
    top of the operations of [Termination] and [OutputCollection]; and the
    single-subscriber stream as a [Subscribable] backend of them.

    Awaiting a builder is its [run] function.  It returns [None] while the
    future is pending, and the handle and system are threaded through it; the
    schedule and the stream activity of the collectors are arguments. *)

From S2P Require Import Prelude Time Utf8 Stream Driver LineParser LineSpec ParseLines Collect Visitors.
From S2P Require Import Consumer Broadcast SingleSubscriber Errors Shutdown Process Termination Cleanup OutputCollection.

(** ** Builder states *)

Inductive NoOutput : Type := mkNoOutput.
Record LineOutput : Type := mkLineOutput {
  lo_eof_timeout : Duration; line_parsing_options : LineParsingOptions; lo_options : LineOutputOptions }.
Record RawOutput : Type := mkRawOutput { ro_eof_timeout : Duration; ro_options : RawOutputOptions }.

Inductive NoTerminate : Type := mkNoTerminate.
Record WithTerminate (G : Type) : Type := mkWithTerminate { wt_shutdown : G }.
Arguments mkWithTerminate {G}.
Arguments wt_shutdown {G}.

(** The handle the builder borrows is the state its [run] is applied to. *)
Record WaitForCompletion (Output Terminate : Type) : Type := mkWaitForCompletion {
  wfc_timeout : Duration; wfc_output : Output; wfc_terminate : Terminate }.
Arguments mkWaitForCompletion {Output Terminate}.
Arguments wfc_timeout {Output Terminate}.
Arguments wfc_output {Output Terminate}.
Arguments wfc_terminate {Output Terminate}.

Definition wait_for_completion (timeout : Duration) : WaitForCompletion NoOutput NoTerminate :=
  mkWaitForCompletion timeout mkNoOutput mkNoTerminate.

Definition with_line_output (b : WaitForCompletion NoOutput NoTerminate) (eof_timeout : Duration)
    (parsing : LineParsingOptions) (options : LineOutputOptions)
    : WaitForCompletion LineOutput NoTerminate :=
  mkWaitForCompletion (wfc_timeout b) (mkLineOutput eof_timeout parsing options) mkNoTerminate.

Definition with_raw_output (b : WaitForCompletion NoOutput NoTerminate) (eof_timeout : Duration)
    (options : RawOutputOptions) : WaitForCompletion RawOutput NoTerminate :=
  mkWaitForCompletion (wfc_timeout b) (mkRawOutput eof_timeout options) mkNoTerminate.

(** [G] is the platform's [GracefulShutdown]. *)
Definition or_terminate {Output G} (b : WaitForCompletion Output NoTerminate)
    (shutdown : G) : WaitForCompletion Output (WithTerminate G) :=
  mkWaitForCompletion (wfc_timeout b) (wfc_output b) (mkWithTerminate shutdown).

(** ** Running a builder *)

Section run.
Context {W G : Type} `{Child W} `{Graceful W G}.
Context {X1 S1 X2 S2 : Type} `{Subscribable X1 S1, Subscribable X2 S2}.
Context {B : Type} `{BytesMut B, Memchr}.
Abbreviation handle := (ProcessHandle X1 X2).
Implicit Types (hw : handle * W) (s : DrainSchedule) (activity : S1 * X1 → S1 * X1).

Definition run_plain (b : WaitForCompletion NoOutput NoTerminate) hw :=
  wait_for_completion_inner (wfc_timeout b) hw.

Definition run_or_terminate (b : WaitForCompletion NoOutput (WithTerminate G)) hw :=
  wait_for_completion_or_terminate_inner (wfc_timeout b) (wt_shutdown (wfc_terminate b)) hw.

(** What the four collecting runs return: the result with the handle and the
    system; the collectors' tasks are not reachable from it. *)
Definition await_collecting {V1 O1 V2 O2 T} `{StreamVisitor V1 O1, StreamVisitor V2 O2}
    (spawn_stdout : String.string → S1 → outcome (Consumer * World V1 O1))
    (spawn_stderr : String.string → S2 → outcome (Consumer * World V2 O2))
    (finish : running_collectors → handle * W →
      outcome (option (result T WaitWithOutputError * (handle * W) * World V1 O1 * World V2 O2)))
    activity hw : outcome (option (result T WaitWithOutputError * (handle * W))) :=
  let '(h, w) := hw in
  '(r, h) ← try_spawn_output_collectors spawn_stdout spawn_stderr activity h;
  match r with
  | Err (e, _) => mret (Some (Err e, (h, w)))
  | Ok c =>
      r ← finish c (h, w);
      mret (match r with Some (x, hw, _, _) => Some (x, hw) | None => None end)
  end.

Definition run_line (b : WaitForCompletion LineOutput NoTerminate) s activity hw :=
  let o := wfc_output b in
  await_collecting
    (λ name sub, spawn_line_collector (B := B) name sub (line_parsing_options o) (stdout_line_options (lo_options o)))
    (λ name sub, spawn_line_collector (B := B) name sub (line_parsing_options o) (stderr_line_options (lo_options o)))
    (λ c hw, wait_for_completion_with_collectors (wfc_timeout b) (lo_eof_timeout o) c s hw)
    activity hw.

Definition run_raw (b : WaitForCompletion RawOutput NoTerminate) s activity hw :=
  let o := wfc_output b in
  await_collecting
    (λ name sub, mret (spawn_chunk_collector name sub (stdout_raw_options (ro_options o))))
    (λ name sub, mret (spawn_chunk_collector name sub (stderr_raw_options (ro_options o))))
    (λ c hw, wait_for_completion_with_collectors (wfc_timeout b) (ro_eof_timeout o) c s hw)
    activity hw.

Definition run_line_or_terminate (b : WaitForCompletion LineOutput (WithTerminate G)) s activity hw :=
  let o := wfc_output b in
  await_collecting
    (λ name sub, spawn_line_collector (B := B) name sub (line_parsing_options o) (stdout_line_options (lo_options o)))
    (λ name sub, spawn_line_collector (B := B) name sub (line_parsing_options o) (stderr_line_options (lo_options o)))
    (λ c hw, wait_for_completion_or_terminate_with_collectors (wfc_timeout b)
               (wt_shutdown (wfc_terminate b)) (lo_eof_timeout o) c s hw)
    activity hw.

Definition run_raw_or_terminate (b : WaitForCompletion RawOutput (WithTerminate G)) s activity hw :=
  let o := wfc_output b in
  await_collecting
    (λ name sub, mret (spawn_chunk_collector name sub (stdout_raw_options (ro_options o))))
    (λ name sub, mret (spawn_chunk_collector name sub (stderr_raw_options (ro_options o))))
    (λ c hw, wait_for_completion_or_terminate_with_collectors (wfc_timeout b)
               (wt_shutdown (wfc_terminate b)) (ro_eof_timeout o) c s hw)
    activity hw.

End run.

(** ** The single-subscriber stream as a backend *)

Record SingleSubscriberOutputStream (M D R : Type) `{Mpsc M StreamEvent} : Type := mkSingleStream {
  single_name : String.string;
  single_options : StreamConfig D R;
  configured_shared : ConfiguredShared (M := M);
}.
Arguments mkSingleStream {M D R _}.
Arguments single_name {M D R _}.
Arguments single_options {M D R _}.
Arguments configured_shared {M D R _}.

Section single_backend.
Context {M D R : Type} `{Mpsc M StreamEvent, Delivery D, Replay R}.
Implicit Types x : SingleSubscriberOutputStream M D R.

(** [from_stream]: the options are checked; the reader loop the delivery selects
    is started on the shared state. *)
Definition single_from_stream (name : String.string) (c : StreamConfig D R)
    : outcome (SingleSubscriberOutputStream M D R) :=
  _ ← assert_valid c;
  mret (mkSingleStream name c shared_new).

Definition with_shared x (w : ConfiguredShared) : SingleSubscriberOutputStream M D R :=
  mkSingleStream (single_name x) (single_options x) w.

(** [replay_enabled] and [replay_retention]. *)
Definition single_replay_enabled x : bool := config_replay_enabled (single_options x).
Definition single_retention x : option ReplayRetention := config_replay_retention (single_options x).

(** [Drop]: the reader is aborted and the slot is cleared. *)
Definition single_drop_stream x : ConfiguredShared := clear_active (configured_shared x).

#[export] Instance single_subscribable :
    Subscribable (SingleSubscriberOutputStream M D R) SingleSubscriberSubscription := {|
  stream_name := single_name;
  try_subscribe x :=
    sub ← single_subscribe (single_name x) (single_retention x) (max_buffered_chunks (single_options x))
            (configured_shared x);
    mret match sub with
         | Ok (s, w) => Ok (s, with_shared x w)
         | Err e => Err e
         end;
  drop_subscription s x := with_shared x (single_drop s (configured_shared x));
|}.

#[export, refine] Instance single_releases :
    ReleasesOnDrop (SingleSubscriberOutputStream M D R) SingleSubscriberSubscription := {|
  has_claim s x := active_id (sh_state (configured_shared x)) = Some (sss_id s) ∧
    ∃ m : M, mpsc_channel (max_buffered_chunks (single_options x)) = Done m;
|}.
Proof.
  - intros x s x'. cbn. unfold single_subscribe.
    destruct (mpsc_channel _) as [m|] eqn:Hm; [|done]. cbn [mbind outcome_bind].
    case_bool_decide; [done|]. cbn. intros [= <- <-]. cbn. eauto.
  - intros s x [Hact [m Hm]]. unfold claimable. cbn. unfold single_subscribe, single_drop, clear_active_if_current.
    rewrite Hm. cbn [mbind outcome_bind].
    assert (sh_state (drop_receiver s (configured_shared x)) = sh_state (configured_shared x)) as Heq.
    { unfold drop_receiver. destruct (sh_chans _ !! _); [|done]. by destruct (sss_live s). }
    rewrite Heq, Hact, bool_decide_true by done. cbn. eauto.
Defined.

End single_backend.

(** ** What the collecting builders return *)

Section claims.
Context {W : Type} `{Child W}.
Context {X1 S1 X2 S2 : Type} `{Subscribable X1 S1, Subscribable X2 S2}.
Context {B : Type} `{BytesMut B, Memchr}.
Implicit Types (h : ProcessHandle X1 X2).

(** A side whose collector receives these events and then the end of its stream
    before the deadline. *)
Definition side_receives (side : side_schedule) (es : list StreamEvent) : Prop :=
  turns side = turns_of es ++ [Event (Some Eof)] ∧ deadline side ≠ ElapsedFirst.

Lemma no_cancel es : Cancelled ∉ turns_of es ++ [Event (Some Eof)].
Proof.
  unfold turns_of. rewrite elem_of_app, list_elem_of_fmap, list_elem_of_singleton. intros [(? & ? & ?)|?]; done.
Qed.

(** Both streams can be claimed: the operation runs on both collectors. *)
Lemma await_spawned {V1 O1 V2 O2 T} `{StreamVisitor V1 O1, StreamVisitor V2 O2}
    spawn1 spawn2 (v1 : V1) (v2 : V2)
    (finish : running_collectors → ProcessHandle X1 X2 * W →
      outcome (option (result T WaitWithOutputError * (ProcessHandle X1 X2 * W) * World V1 O1 * World V2 O2)))
    activity h (w : W) s1 x1 s2 x2 :
  try_subscribe (std_out_stream h) = Done (Ok (s1, x1)) → try_subscribe (std_err_stream h) = Done (Ok (s2, x2)) →
  (∀ n s, spawn1 n s = Done (spawn_consumer_sync n v1)) → (∀ n s, spawn2 n s = Done (spawn_consumer_sync n v2)) →
  let '(c1, w1) := spawn_consumer_sync (stream_name (std_out_stream h)) v1 in
  let '(c2, w2) := spawn_consumer_sync (stream_name (std_err_stream h)) v2 in
  await_collecting spawn1 spawn2 finish activity (h, w) =
    (r ← finish (mkRunning c1 c2 w1 w2) (with_streams h x1 x2, w);
     mret (match r with Some (x, hw, _, _) => Some (x, hw) | None => None end)).
Proof.
  intros Hx1 Hx2 Hsp1 Hsp2. cbn [spawn_consumer_sync].
  unfold await_collecting, try_spawn_output_collectors. rewrite Hx1. cbn [mbind outcome_bind].
  rewrite Hsp1. cbn [mbind outcome_bind spawn_consumer_sync]. rewrite Hx2. cbn [mbind outcome_bind].
  rewrite Hsp2. reflexivity.
Qed.

(** Both streams end in time: the drain returns what the visitors made of
    them. *)
Lemma sides_drained {V1 O1 V2 O2 T} `{StreamVisitor V1 O1, StreamVisitor V2 O2}
    n1 n2 (v1 : V1) (v2 : V2) (o1 : O1) (o2 : O2) s es1 es2 eof_timeout (k : O1 * O2 → T) (hw : ProcessHandle X1 X2 * W) :
  representable (drain_clock s) eof_timeout →
  side_receives (stdout_side s) es1 → side_receives (stderr_side s) es2 →
  consume_sync v1 (turns_of es1 ++ [Event (Some Eof)]) = Finished (Ok o1) →
  consume_sync v2 (turns_of es2 ++ [Event (Some Eof)]) = Finished (Ok o2) →
  let '(c1, w1) := spawn_consumer_sync n1 v1 in
  let '(c2, w2) := spawn_consumer_sync n2 v2 in
  ∃ u1 u2, drain_and_finish (mkRunning c1 c2 w1 w2) s eof_timeout k hw = Done (Some (Ok (k (o1, o2)), hw, u1, u2)).
Proof.
  intros Hrep [Ht1 Hd1] [Ht2 Hd2] Hv1 Hv2. cbn [spawn_consumer_sync].
  eapply (drain_and_finish_complete n1 n2 v1 v2); [exact Hrep|reflexivity|reflexivity|rewrite Ht1; eassumption
    |rewrite Ht1; apply no_cancel|rewrite Ht2; eassumption|rewrite Ht2; apply no_cancel|done|done].
Qed.

Lemma await_collecting_completed {V1 O1 V2 O2} `{StreamVisitor V1 O1, StreamVisitor V2 O2}
    spawn1 spawn2 (v1 : V1) (v2 : V2) (o1 : O1) (o2 : O2) timeout eof_timeout s es1 es2
    activity h (w w' : W) status s1 x1 s2 x2 :
  try_subscribe (std_out_stream h) = Done (Ok (s1, x1)) → try_subscribe (std_err_stream h) = Done (Ok (s2, x2)) →
  (∀ n s, spawn1 n s = Done (spawn_consumer_sync n v1)) → (∀ n s, spawn2 n s = Done (spawn_consumer_sync n v2)) →
  os_wait timeout w = (Some (Ok status), w') → representable (drain_clock s) eof_timeout →
  side_receives (stdout_side s) es1 → side_receives (stderr_side s) es2 →
  consume_sync v1 (turns_of es1 ++ [Event (Some Eof)]) = Finished (Ok o1) →
  consume_sync v2 (turns_of es2 ++ [Event (Some Eof)]) = Finished (Ok o2) →
  ∃ hw, await_collecting spawn1 spawn2
      (λ c hw, wait_for_completion_with_collectors timeout eof_timeout c s hw) activity (h, w)
    = Done (Some (Ok (Errors.Completed (mkProcessOutput status o1 o2)), hw)) ∧ drop_mode hw.1 = Disarmed.
Proof.
  intros Hx1 Hx2 Hsp1 Hsp2 Hw Hrep Hs1 Hs2 Hv1 Hv2.
  pose proof (await_spawned spawn1 spawn2 v1 v2
    (λ c hw, wait_for_completion_with_collectors timeout eof_timeout c s hw) activity h w s1 x1 s2 x2
    Hx1 Hx2 Hsp1 Hsp2) as Hawait. cbn [spawn_consumer_sync] in Hawait. rewrite Hawait. clear Hawait.
  unfold wait_for_completion_with_collectors. rewrite wait_inner_run, Hw. cbn [mbind outcome_bind fst snd].
  match goal with |- context [drain_and_finish _ _ _ ?k ?hw] =>
    destruct (sides_drained (stream_name (std_out_stream h)) (stream_name (std_err_stream h)) v1 v2 o1 o2
      s es1 es2 eof_timeout k hw Hrep Hs1 Hs2 Hv1 Hv2) as (u1 & u2 & ->) end.
  cbn. eexists. split; [reflexivity|done].
Qed.

(** What an unbounded line collector makes of a stream. *)
Lemma line_collector_total parsing :
  0 < bytes (max_line_length parsing) ≤ usize_max →
  ∃ v, (∀ S n (s : S), spawn_line_collector (B := B) n s parsing LineTrustedUnbounded
      = Done (spawn_consumer_sync n v)) ∧
    ∀ cs, ∃ o, consume_sync v (turns_of (Chunk <$> cs) ++ [Event (Some Eof)]) = Finished (Ok o) ∧
      CollectedLines.into_parts o = (decode_line_lossy <$> Lines.spec_lines parsing (concat cs), false).
Proof.
  intros [Hpos Hmax].
  destruct (ParseLines_collect_total (B := B) parsing CollectedLines.new LineTrustedUnbounded Hpos) as (v & Hv).
  exists v. split; [intros S n s; unfold spawn_line_collector; by rewrite Hv|]. intros cs.
  destruct (push_lines_unbounded CollectedLines.new
    (decode_line_lossy <$> Lines.spec_lines parsing (concat cs))) as (o & Ho & Hl & Ht).
  exists o. split; [by eapply collect_lines_session|]. unfold CollectedLines.into_parts. by rewrite Hl, Ht.
Qed.

(** With raw output collected under [DropAdditionalData], if the process
    exits within the timeout and both streams end before the deadline, the
    builder returns the exit status and, for each stream, the first bytes it
    produced up to the limit, whichever stream ends first and however it was
    cut into chunks; the truncation flags are exact, and the drop guard is
    disarmed. *)
Lemma raw_output_end_to_end timeout eof_timeout max1 max2 s es1 es2 activity h (w w' : W)
    status s1 x1 s2 x2 :
  try_subscribe (std_out_stream h) = Done (Ok (s1, x1)) → try_subscribe (std_err_stream h) = Done (Ok (s2, x2)) →
  os_wait timeout w = (Some (Ok status), w') → representable (drain_clock s) eof_timeout →
  side_receives (stdout_side s) es1 → side_receives (stderr_side s) es2 →
  Forall (λ e, is_terminal e = false) es1 → Forall (λ e, is_terminal e = false) es2 →
  let out := concat (event_bytes <$> es1) in
  let err := concat (event_bytes <$> es2) in
  let b := with_raw_output (wait_for_completion timeout) eof_timeout
    (mkRawOutputOptions (RawBounded max1 CDropAdditionalData) (RawBounded max2 CDropAdditionalData)) in
  ∃ hw, run_raw b s activity (h, w) = Done (Some (Ok (Errors.Completed (mkProcessOutput status
      (mkCollectedBytes (slice_to (bytes max1) out) (bytes max1 <? len out))
      (mkCollectedBytes (slice_to (bytes max2) err) (bytes max2 <? len err)))), hw)) ∧
    drop_mode hw.1 = Disarmed.
Proof.
  intros Hx1 Hx2 Hw Hrep Hs1 Hs2 He1 He2 out err b. unfold run_raw.
  eapply await_collecting_completed; [exact Hx1|exact Hx2|reflexivity|reflexivity|exact Hw|exact Hrep|exact Hs1|exact Hs2|..];
    (apply collect_chunks_session; [done|]); subst out err; rewrite <- event_chunks_bytes;
    apply push_chunks_first.
Qed.

(** With unbounded line output, if the process exits within the timeout and the
    collectors receive chunks and then the end of their streams before the
    deadline, the builder returns the exit status and exactly the lines of what
    they received. *)
Lemma completed_line_output timeout eof_timeout parsing s cs1 cs2 activity h (w w' : W)
    status s1 x1 s2 x2 :
  0 < bytes (max_line_length parsing) ≤ usize_max →
  try_subscribe (std_out_stream h) = Done (Ok (s1, x1)) → try_subscribe (std_err_stream h) = Done (Ok (s2, x2)) →
  os_wait timeout w = (Some (Ok status), w') → representable (drain_clock s) eof_timeout →
  side_receives (stdout_side s) (Chunk <$> cs1) → side_receives (stderr_side s) (Chunk <$> cs2) →
  let b := with_line_output (wait_for_completion timeout) eof_timeout parsing
    (line_symmetric LineTrustedUnbounded) in
  ∃ hw out err, run_line (B := B) b s activity (h, w) =
      Done (Some (Ok (Errors.Completed (mkProcessOutput status out err)), hw)) ∧
    CollectedLines.into_parts out = (decode_line_lossy <$> Lines.spec_lines parsing (concat cs1), false) ∧
    CollectedLines.into_parts err = (decode_line_lossy <$> Lines.spec_lines parsing (concat cs2), false) ∧
    drop_mode hw.1 = Disarmed.
Proof.
  intros Hpos Hx1 Hx2 Hw Hrep Hs1 Hs2 b. destruct (line_collector_total parsing Hpos) as (v & Hsp & Hrun).
  destruct (Hrun cs1) as (o1 & Ho1 & Hp1), (Hrun cs2) as (o2 & Ho2 & Hp2).
  destruct (await_collecting_completed _ _ v v o1 o2 timeout eof_timeout s _ _ activity h w w' status
    s1 x1 s2 x2 Hx1 Hx2 (Hsp _) (Hsp _) Hw Hrep Hs1 Hs2 Ho1 Ho2) as (hw & Hr & Hd).
  exists hw, o1, o2. split_and!; [exact Hr|done..].
Qed.

(** The same when the process does not exit in time and the builder terminates
    it: the result says what the termination came to, and the collected lines
    are kept. *)
Lemma terminated_line_output {G} `{!Platform W, !Graceful W G, !Cleanup W G, !CleanupLaws W G}
    timeout eof_timeout parsing (shutdown : G) s cs1 cs2 activity h (w w1 : W) s1 x1 s2 x2 :
  0 < bytes (max_line_length parsing) ≤ usize_max →
  unreaped G w → usable (W := W) shutdown → os_wait timeout w = (None, w1) →
  representable (drain_clock s) eof_timeout →
  try_subscribe (std_out_stream h) = Done (Ok (s1, x1)) → try_subscribe (std_err_stream h) = Done (Ok (s2, x2)) →
  side_receives (stdout_side s) (Chunk <$> cs1) → side_receives (stderr_side s) (Chunk <$> cs2) →
  let b := or_terminate (with_line_output (wait_for_completion timeout) eof_timeout parsing
    (line_symmetric LineTrustedUnbounded)) shutdown in
  ∃ (t : result ExitStatus TerminationError) out err hw,
    run_line_or_terminate (B := B) b s activity (h, w) =
      Done (Some (match t with
                  | Ok status => Ok (TerminatedAfterTimeout (mkProcessOutput status out err) timeout)
                  | Err e => Err (WaitOrTerminateFailed (TerminationAfterTimeoutFailed (h_name h) timeout e))
                  end, hw)) ∧
    CollectedLines.into_parts out = (decode_line_lossy <$> Lines.spec_lines parsing (concat cs1), false) ∧
    CollectedLines.into_parts err = (decode_line_lossy <$> Lines.spec_lines parsing (concat cs2), false) ∧
    settled G w hw.2 ∧ drop_mode hw.1 = (if is_ok t then Disarmed else drop_mode h).
Proof.
  intros Hpos Hu Hs Hw Hrep Hx1 Hx2 Hs1 Hs2 b. destruct (line_collector_total parsing Hpos) as (v & Hsp & Hrun).
  destruct (Hrun cs1) as (o1 & Ho1 & Hp1), (Hrun cs2) as (o2 & Ho2 & Hp2).
  pose proof (cl_wait timeout w None w1 Hu Hw) as [Hu1 Hcl].
  destruct (cl_terminate (after_wait (with_streams h x1 x2) None) w1 shutdown Hu1 Hs)
    as (t & h2 & w2 & Ht & Hc & Hm).
  pose proof (wait_or_terminate_run timeout shutdown (with_streams h x1 x2) w None w1 t h2 w2 Hw
    ltac:(done) Ht) as Hwait.
  exists t, o1, o2, (h2, w2). split; [|by split_and!; [done|done|apply Hcl|]].
  unfold run_line_or_terminate.
  pose proof (await_spawned (T := WaitForCompletionOrTerminateResult (ProcessOutput CollectedLines CollectedLines))
    _ _ v v (λ c hw, wait_for_completion_or_terminate_with_collectors timeout shutdown eof_timeout c s hw)
    activity h w s1 x1 s2 x2 Hx1 Hx2 (Hsp _) (Hsp _)) as Hawait.
  cbn [spawn_consumer_sync] in Hawait. etrans; [exact Hawait|]. clear Hawait.
  unfold wait_for_completion_or_terminate_with_collectors. rewrite Hwait. cbn [mbind outcome_bind].
  destruct t as [status|e]; [|reflexivity].
  cbn [ot_report]. match goal with |- context [drain_and_finish _ _ _ ?k ?hw] =>
    destruct (sides_drained (stream_name (std_out_stream h)) (stream_name (std_err_stream h)) v v o1 o2
      s _ _ eof_timeout k hw Hrep Hs1 Hs2 Ho1 Ho2) as (u1 & u2 & ->) end.
  reflexivity.
Qed.

End claims.

(** ** Examples *)

Module WaitDemo.

Definition stream (name : String.string) : SingleSubscriberOutputStream (ref_mpsc StreamEvent) ReliableWithBackpressure ReplayEnabled :=
  mkSingleStream name (mkStreamConfig DEFAULT_READ_CHUNK_SIZE 4 Reliable (mkReplayEnabled All)) shared_new.

Definition handle : ProcessHandle
    (SingleSubscriberOutputStream (ref_mpsc StreamEvent) ReliableWithBackpressure ReplayEnabled)
    (SingleSubscriberOutputStream (ref_mpsc StreamEvent) ReliableWithBackpressure ReplayEnabled) :=
  mkHandle "demo" StdinOpen (stream "stdout") (stream "stderr") new_armed_drop_mode.

Definition out_chunks : list chunk := [[x61]; [x62; newline; x63]].
Definition err_chunks : list chunk := [[x64]].

Definition schedule : DrainSchedule :=
  mkDrainSchedule (mkClock 0 UNIX_LAST_INSTANT) false
    (mkSide (turns_of (Chunk <$> out_chunks) ++ [Event (Some Eof)]) NotElapsed)
    (mkSide (turns_of (Chunk <$> err_chunks) ++ [Event (Some Eof)]) Elapsed).

(** The child of pid 7 overruns the timeout and exits after the first signal. *)
Definition slow : logged script :=
  mkLogged (mkScript (Some 7) [] [None; Some (Ok (mkExitStatus (Some 3)))] []) [].

(** The status of a run that ended in a termination. *)
Definition terminated_status {O1 O2 HW}
    (r : outcome (option (result (WaitForCompletionOrTerminateResult (ProcessOutput O1 O2)) WaitWithOutputError * HW)))
    : option ExitStatus :=
  match r with
  | Done (Some (Ok (TerminatedAfterTimeout o _), _)) => Some (po_status o)
  | _ => None
  end.

Lemma slow_status :
  terminated_status (run_line_or_terminate (B := Reference.buffer)
    (or_terminate (with_line_output (wait_for_completion 5) 3 default_options (line_symmetric LineTrustedUnbounded))
      ProcessDemo.two_phases) schedule (λ p, p) (handle, slow)) = Some (mkExitStatus (Some 3)).
Proof. vm_compute. reflexivity. Qed.

End WaitDemo.
