(* ===== verification/CollectedOutput.v ===== *)
(** * The collected output of a process

    The wait builder of [WaitBuilder] on a process whose stdout and stderr are
    single-subscriber streams with reliable delivery and [replay_all]: the
    collectors' subscriptions are followed through the backend's concurrent
    system ([SingleSystem]), so that what the builder returns is stated of the
    bytes the child wrote. *)

From S2P Require Import Prelude Time Utf8 Stream Driver LineParser LineSpec ParseLines Collect Visitors.
From S2P Require Import Retention Consumer Broadcast SingleSubscriber SingleSystem EndToEnd.
From S2P Require Import Errors Shutdown Process Termination Cleanup OutputCollection WaitBuilder.

Section stream.
Context {M R : Type} `{MpscLaws M StreamEvent, Replay R}.
Abbreviation reliable_stream := (SingleSubscriberOutputStream M ReliableWithBackpressure R).
Implicit Types (x : reliable_stream) (y : SSystem (M := M)) (sub : SingleSubscriberSubscription).

(** A valid chunk size, [replay_all], and replay not sealed. *)
Definition replays_everything x : Prop :=
  0 < bytes (read_chunk_size (single_options x)) ∧ single_retention x = Some All ∧
  rs_sealed (sh_state (configured_shared x)) = false.

(** The steps of a stream's system. *)
Definition stream_step x : SSystem → SSystem → Prop :=
  s_step (single_name x) (single_retention x) (max_buffered_chunks (single_options x)).

(** A state of the stream's system that is the stream's present state: anything
    may have happened to the stream before, but its drop, and there is an id
    left for one more subscription. *)
Definition present x y : Prop :=
  s_reachable (single_name x) (single_retention x) (max_buffered_chunks (single_options x)) y ∧
  sh_state (sy_shared y) = sh_state (configured_shared x) ∧ sy_reader y ≠ SAborted ∧
  rs_next_id (sh_state (sy_shared y)) + 1 < word_modulus.

(** The subscription [sub] that [try_subscribe x] returns yields [evs], on a
    stream whose reader reads the buffers [bufs] and then end of file: from the
    present state, any run of the system that begins with the subscribing and in
    which the reader gets to the end of its reads and the subscription takes
    everything there is for it. *)
Definition yields x sub (bufs : list (list byte)) (evs : list StreamEvent) : Prop :=
  ∃ y w1 y' s,
    present x y ∧
    single_subscribe (single_name x) (single_retention x) (max_buffered_chunks (single_options x))
      (sy_shared y) = Done (Ok (sub, w1)) ∧
    rtc (stream_step x)
      (mkSSystem w1 (<[sss_id sub := mkSSub sub (initial_events sub) (length (sy_log y))
                                       (rs_sealed (sh_state (sy_shared y))) []]> (sy_subs y))
         (sy_reader y) (sy_log y)) y' ∧
    sy_log y' = reader_events (single_name x) (read_chunk_size (single_options x)) (reads_of bufs) ∧
    sy_subs y' !! sss_id sub = Some s ∧ s_drained y' s ∧ evs = ss_seen s.

(** One side of the drain: its collector receives what the subscription yields,
    and the deadline does not fire before. *)
Definition side_collects x sub (bufs : list (list byte)) (side : side_schedule) : Prop :=
  deadline side ≠ ElapsedFirst ∧ ∃ evs, yields x sub bufs evs ∧ turns side = turns_of evs.

Lemma rtc_reachable x y y' :
  s_reachable (single_name x) (single_retention x) (max_buffered_chunks (single_options x)) y →
  rtc (stream_step x) y y' →
  s_reachable (single_name x) (single_retention x) (max_buffered_chunks (single_options x)) y'.
Proof. intros Hr. induction 1; [done|]. eauto using s_reachable. Qed.

(** Everything the child wrote, whenever the subscription came. *)
Lemma yields_everything x sub bufs evs :
  replays_everything x → Forall (λ buf, buf ≠ []) bufs →
  yields x sub bufs evs →
  ∃ cs, evs = (Chunk <$> cs) ++ [Eof] ∧ concat cs = concat bufs.
Proof.
  intros (Hsize & Hret & Hse) Hne (y & w1 & y' & s & (Hr & Hsh & Hab & Hid) & Hsub & Hrun & Hlog & Hs & Hd & ->).
  set (y1 := mkSSystem w1 _ _ _) in Hrun.
  assert (∀ r, single_retention x = Some r → retention_assert_non_zero r = Done ()) as Hvalid.
  { rewrite Hret. by intros r [= <-]. }
  assert (s_reachable (single_name x) (single_retention x) (max_buffered_chunks (single_options x)) y1) as Hr1.
  { eapply s_reach_step; [exact Hr|]. destruct y. by apply s_subscribe. }
  pose proof (s_reachable_inv _ _ _ Hvalid _ Hr1) as Hinv1.
  destruct (s_run_later _ _ _ Hvalid y1 y' Hrun Hinv1) as [[_ _ Hsubs] _].
  assert (ss_sealed s = false) as Hss.
  { destruct (Hsubs _ _ Hs) as [(s0 & Hs0 & _ & _ & ->)|[Hge _]].
    - cbn in Hs0. rewrite lookup_insert_eq in Hs0. injection Hs0 as <-. cbn. by rewrite Hsh.
    - destruct (s_reachable_sub _ _ _ y1 (sss_id sub) _ Hvalid Hr1 (lookup_insert_eq _ _ _)) as (_ & _ & Hi).
      pose proof (si_old _ _ _ _ _ _ Hi). lia. }
  pose proof (rtc_reachable x y1 y' Hr1 Hrun) as Hr'. rewrite Hret in Hr'.
  rewrite (single_replay_all_complete _ _ y' _ s Hr' Hs Hd Hss), Hlog. by apply reads_events.
Qed.

Lemma side_collects_receives x sub bufs side :
  replays_everything x → Forall (λ buf, buf ≠ []) bufs →
  side_collects x sub bufs side →
  ∃ cs, side_receives side (Chunk <$> cs) ∧ concat cs = concat bufs.
Proof.
  intros Hx Hne (Hd & evs & Hy & Ht).
  destruct (yields_everything x sub bufs evs Hx Hne Hy) as (cs & -> & Hcs).
  exists cs. split; [|done]. split; [|done]. rewrite Ht. unfold turns_of. by rewrite fmap_app.
Qed.

End stream.

(** ** The builders *)

Section claims.
Context {M R1 R2 : Type} `{MpscLaws M StreamEvent, Replay R1, Replay R2}.
Context {B : Type} `{BytesMut B, Memchr}.
Abbreviation out_stream := (SingleSubscriberOutputStream M ReliableWithBackpressure R1).
Abbreviation err_stream := (SingleSubscriberOutputStream M ReliableWithBackpressure R2).
Implicit Types (h : ProcessHandle out_stream err_stream) (parsing : LineParsingOptions).

(** The lines of these bytes, decoded, and nothing marked as truncated. *)
Definition all_lines parsing (bufs : list (list byte)) : list str * bool :=
  (decode_line_lossy <$> Lines.spec_lines parsing (concat bufs), false).

(** C12: the output of a process comes back complete.  Its two streams are
    single-subscriber streams with reliable delivery and [replay_all] (not
    sealed), in any state in which they can be claimed.  With unbounded line
    output and a line length limit, if the process exits within the timeout and
    both streams are read to their end before the end-of-file deadline (which
    must exist), the builder returns the exit status and exactly the lines of
    the bytes the child wrote to each, from their first byte on, decoded,
    nothing marked as truncated, and the drop guard is disarmed. *)
Theorem line_output_end_to_end {W} `{Child W} timeout eof_timeout parsing s bufs1 bufs2 activity h (w w' : W)
    status s1 x1 s2 x2 :
  0 < bytes (max_line_length parsing) ≤ usize_max →
  replays_everything (std_out_stream h) → replays_everything (std_err_stream h) →
  try_subscribe (std_out_stream h) = Done (Ok (s1, x1)) → try_subscribe (std_err_stream h) = Done (Ok (s2, x2)) →
  Forall (λ buf, buf ≠ []) bufs1 → Forall (λ buf, buf ≠ []) bufs2 →
  os_wait timeout w = (Some (Ok status), w') → representable (drain_clock s) eof_timeout →
  side_collects (std_out_stream h) s1 bufs1 (stdout_side s) →
  side_collects (std_err_stream h) s2 bufs2 (stderr_side s) →
  let b := with_line_output (wait_for_completion timeout) eof_timeout parsing
    (line_symmetric LineTrustedUnbounded) in
  ∃ hw out err, run_line (B := B) b s activity (h, w) =
      Done (Some (Ok (Errors.Completed (mkProcessOutput status out err)), hw)) ∧
    CollectedLines.into_parts out = all_lines parsing bufs1 ∧
    CollectedLines.into_parts err = all_lines parsing bufs2 ∧ drop_mode hw.1 = Disarmed.
Proof.
  intros Hpos Hr1 Hr2 Hx1 Hx2 Hne1 Hne2 Hw Hrep Hs1 Hs2 b. unfold all_lines.
  destruct (side_collects_receives _ _ _ _ Hr1 Hne1 Hs1) as (cs1 & Hc1 & <-).
  destruct (side_collects_receives _ _ _ _ Hr2 Hne2 Hs2) as (cs2 & Hc2 & <-).
  by eapply completed_line_output.
Qed.

(** C13: the output of a process that had to be terminated is not lost (Unix).
    Its two streams are single-subscriber streams with reliable delivery and
    [replay_all] (not sealed), in any state in which they can be claimed; the
    shutdown has at least one phase and the end-of-file deadline exists.  When
    the process does not exit in time, the builder with [or_terminate], unbounded
    line output and a line length limit terminates it.  If that succeeds and both streams are
    read to their end before the end-of-file deadline, it returns the observed
    status, the timeout, and exactly the lines of the bytes the child wrote; if
    it fails, it returns the termination's error.  Either way the child was seen
    to have exited, or its process group was sent [SIGKILL], or the system
    refused that [SIGKILL]; and the guard is disarmed exactly if the
    termination succeeded. *)
Theorem terminated_output_end_to_end {W} `{OsLaws W} p timeout eof_timeout parsing shutdown s bufs1 bufs2
    activity h (w w1 : logged W) s1 x1 s2 x2 :
  0 < bytes (max_line_length parsing) ≤ usize_max → phases (unix shutdown) ≠ [] →
  replays_everything (std_out_stream h) → replays_everything (std_err_stream h) →
  try_subscribe (std_out_stream h) = Done (Ok (s1, x1)) → try_subscribe (std_err_stream h) = Done (Ok (s2, x2)) →
  Forall (λ buf, buf ≠ []) bufs1 → Forall (λ buf, buf ≠ []) bufs2 →
  os_id w = Some p → os_wait timeout w = (None, w1) → representable (drain_clock s) eof_timeout →
  side_collects (std_out_stream h) s1 bufs1 (stdout_side s) →
  side_collects (std_err_stream h) s2 bufs2 (stderr_side s) →
  let b := or_terminate (with_line_output (wait_for_completion timeout) eof_timeout parsing
    (line_symmetric LineTrustedUnbounded)) shutdown in
  ∃ (t : result ExitStatus TerminationError) hw cs,
    match t with
    | Ok status => ∃ out err,
        run_line_or_terminate (B := B) b s activity (h, w) =
          Done (Some (Ok (TerminatedAfterTimeout (mkProcessOutput status out err) timeout), hw)) ∧
        CollectedLines.into_parts out = all_lines parsing bufs1 ∧
        CollectedLines.into_parts err = all_lines parsing bufs2
    | Err e =>
        run_line_or_terminate (B := B) b s activity (h, w) =
          Done (Some (Err (WaitOrTerminateFailed (TerminationAfterTimeoutFailed (h_name h) timeout e)), hw))
    end ∧
    calls hw.2 = calls w ++ cs ∧
    (Exists exit_seen cs ∨
     Exists (λ call, call = CKillpg p SIGKILL (Ok ())) cs ∨
     ∃ e, Exists (λ call, call = CKillpg p SIGKILL (Err e)) cs) ∧
    drop_mode hw.1 = (if is_ok t then Disarmed else drop_mode h).
Proof.
  intros Hpos Hph Hr1 Hr2 Hx1 Hx2 Hne1 Hne2 Hp Hw Hrep Hs1 Hs2 b. unfold all_lines.
  destruct (side_collects_receives _ _ _ _ Hr1 Hne1 Hs1) as (cs1 & Hc1 & <-).
  destruct (side_collects_receives _ _ _ _ Hr2 Hne2 Hs2) as (cs2 & Hc2 & <-).
  destruct (terminated_line_output (W := logged W) (B := B) timeout eof_timeout parsing shutdown s cs1 cs2
    activity h w w1 s1 x1 s2 x2) as (t & out & err & hw & Hrun & Ho & He & (q & cs & Hq & Hcs & Hcl) & Hm);
    [done|by exists p|done..|].
  rewrite Hp in Hq. injection Hq as <-. exists t, hw, cs.
  split; [|by split_and!; [|apply unix_settled_calls|]]. destruct t; [|done]. by exists out, err.
Qed.

End claims.

(** ** Examples *)

Module CollectedDemo.

(** Each event is recorded, delivered and received before the next. *)
Definition acts (cs : list chunk) : list s_action :=
  (cs ++ [[]]) ≫= λ c, [DoRecord (if bool_decide (c = []) then Eof else Chunk c); DoDeliver; DoRecv 0].

(** The stream's system right after [try_subscribe] on the new stream. *)
Definition subscribed (name : String.string) : SSystem (M := ref_mpsc StreamEvent) :=
  default s_initial (s_perform name (Some All) 4 DoSubscribe s_initial).

Definition over (name : String.string) (cs : list chunk) : SSystem (M := ref_mpsc StreamEvent) :=
  default s_initial (s_perform_all name (Some All) 4 (acts cs) (subscribed name)).

Definition subscriber (name : String.string) (cs : list chunk) : SSub :=
  default (mkSSub (mkSingle 0 [] None false) [] 0 false []) (sy_subs (over name cs) !! 0).

Definition subscription : SingleSubscriberSubscription := mkSingle 0 [] None true.

Lemma stream_replays name : replays_everything (WaitDemo.stream name).
Proof. split_and!; [vm_compute; reflexivity|reflexivity..]. Qed.

Lemma stream_present name : present (WaitDemo.stream name) s_initial.
Proof. split_and!; [apply s_reach_initial|reflexivity|discriminate|reflexivity]. Qed.

Lemma out_yields :
  yields (WaitDemo.stream "stdout") subscription WaitDemo.out_chunks ((Chunk <$> WaitDemo.out_chunks) ++ [Eof]).
Proof.
  exists s_initial. eexists. exists (over "stdout" WaitDemo.out_chunks), (subscriber "stdout" WaitDemo.out_chunks).
  split; [apply stream_present|]. split; [vm_compute; reflexivity|].
  split; [apply (s_perform_all_run _ _ _ (acts WaitDemo.out_chunks)); vm_compute; reflexivity|].
  split_and!; [vm_compute; reflexivity..| |vm_compute; reflexivity].
  split; [vm_compute; reflexivity|right; vm_compute; reflexivity].
Qed.

Lemma err_yields :
  yields (WaitDemo.stream "stderr") subscription WaitDemo.err_chunks ((Chunk <$> WaitDemo.err_chunks) ++ [Eof]).
Proof.
  exists s_initial. eexists. exists (over "stderr" WaitDemo.err_chunks), (subscriber "stderr" WaitDemo.err_chunks).
  split; [apply stream_present|]. split; [vm_compute; reflexivity|].
  split; [apply (s_perform_all_run _ _ _ (acts WaitDemo.err_chunks)); vm_compute; reflexivity|].
  split_and!; [vm_compute; reflexivity..| |vm_compute; reflexivity].
  split; [vm_compute; reflexivity|right; vm_compute; reflexivity].
Qed.

Lemma out_collects :
  side_collects (WaitDemo.stream "stdout") subscription WaitDemo.out_chunks (stdout_side WaitDemo.schedule).
Proof. split; [discriminate|]. eexists. split; [apply out_yields|reflexivity]. Qed.

Lemma err_collects :
  side_collects (WaitDemo.stream "stderr") subscription WaitDemo.err_chunks (stderr_side WaitDemo.schedule).
Proof. split; [discriminate|]. eexists. split; [apply err_yields|reflexivity]. Qed.

Lemma limited : 0 < bytes (max_line_length default_options) ≤ usize_max.
Proof. vm_compute. split; [reflexivity|discriminate]. Qed.

Lemma nonempty : Forall (λ buf, buf ≠ []) WaitDemo.out_chunks ∧ Forall (λ buf, buf ≠ []) WaitDemo.err_chunks.
Proof. split; repeat constructor; discriminate. Qed.

End CollectedDemo.

Lemma line_output_end_to_end_witness :
  ∃ hw out err, run_line (B := Reference.buffer)
      (with_line_output (wait_for_completion 5) 3 default_options (line_symmetric LineTrustedUnbounded))
      WaitDemo.schedule (λ p, p) (WaitDemo.handle, OutputDemo.exits) =
    Done (Some (Ok (Errors.Completed (mkProcessOutput (mkExitStatus (Some 0)) out err)), hw)) ∧
    CollectedLines.into_parts out = ([[x61; x62]; [x63]], false) ∧
    CollectedLines.into_parts err = ([[x64]], false) ∧ drop_mode hw.1 = Disarmed.
Proof.
  destruct CollectedDemo.nonempty as [Hn1 Hn2].
  exact (line_output_end_to_end (B := Reference.buffer) 5 3 default_options WaitDemo.schedule
    WaitDemo.out_chunks WaitDemo.err_chunks (λ p, p) WaitDemo.handle
    OutputDemo.exits _ _ CollectedDemo.subscription _ CollectedDemo.subscription _ CollectedDemo.limited
    (CollectedDemo.stream_replays "stdout") (CollectedDemo.stream_replays "stderr") eq_refl eq_refl Hn1 Hn2
    eq_refl ltac:(done) CollectedDemo.out_collects CollectedDemo.err_collects).
Defined.

Lemma terminated_output_end_to_end_witness :
  ∃ out err hw,
    run_line_or_terminate (B := Reference.buffer)
      (or_terminate (with_line_output (wait_for_completion 5) 3 default_options (line_symmetric LineTrustedUnbounded))
        ProcessDemo.two_phases) WaitDemo.schedule (λ p, p) (WaitDemo.handle, WaitDemo.slow) =
      Done (Some (Ok (TerminatedAfterTimeout (mkProcessOutput (mkExitStatus (Some 3)) out err) 5), hw)) ∧
    CollectedLines.into_parts out = ([[x61; x62]; [x63]], false) ∧
    CollectedLines.into_parts err = ([[x64]], false).
Proof.
  destruct CollectedDemo.nonempty as [Hn1 Hn2].
  destruct (terminated_output_end_to_end (W := script) (B := Reference.buffer) 7 5 3 default_options
    ProcessDemo.two_phases WaitDemo.schedule WaitDemo.out_chunks WaitDemo.err_chunks (λ p, p) WaitDemo.handle
    WaitDemo.slow (os_wait 5 WaitDemo.slow).2 CollectedDemo.subscription _ CollectedDemo.subscription _
    CollectedDemo.limited ltac:(discriminate) (CollectedDemo.stream_replays "stdout")
    (CollectedDemo.stream_replays "stderr") eq_refl eq_refl Hn1 Hn2 eq_refl eq_refl ltac:(done)
    CollectedDemo.out_collects CollectedDemo.err_collects)
    as (t & hw & cs & Hrun & _). pose proof WaitDemo.slow_status as Hst.
  destruct t as [st|e].
  - destruct Hrun as (out & err & Hrun & Ho & He). rewrite Hrun in Hst. injection Hst as ->.
    exists out, err, hw. split; [exact Hrun|split; [exact Ho|exact He]].
  - rewrite Hrun in Hst. discriminate Hst.
Defined.
