(* ===== verification/Backends.v ===== *)
(** * The output streams and their traits

    Models [src/output_stream/backend/broadcast/mod.rs] as a whole: the stream
    with its two backends, [from_stream], [try_subscribe], [recv] of
    [BroadcastSubscription], sealing and [drop]; the traits [OutputStream] and
    [Consumable] of [src/output_stream/mod.rs] with [consume] and
    [consume_async]; and [src/process_handle/replay.rs], sealing on the
    handle.  The operations of each backend are in [Broadcast],
    [FastBroadcast], [SingleSubscriber] and [LineWaiter]. *)

From S2P Require Import Prelude Stream LineParser ParseLines Collect Visitors Retention Driver Consumer Broadcast BroadcastSystem FastBroadcast SingleSubscriber LineWaiter.
From S2P Require Import Time Errors Process OutputCollection WaitBuilder.

(** ** Traits *)

(** [OutputStream]; the label is the [stream_name] of [Subscribable]. *)
Class OutputStream (X : Type) := {
  os_read_chunk_size : X → NumBytes;
  os_max_buffered_chunks : X → N;
}.

(** [Consumable]: the subscription the driver task owns is returned beside its
    handle.  [spawn_consumer_async] runs the async driver. *)
Section consumable.
Context {X Sub : Type} `{Subscribable X Sub}.

Definition consume {V Out} `{StreamVisitor V Out} (x : X) (v : V)
    : outcome (result (Consumer * World V Out * Sub * X) StreamConsumerError) :=
  sub ← try_subscribe x;
  mret match sub with
       | Ok (s, x') => let '(c, w) := spawn_consumer_sync (stream_name x) v in Ok (c, w, s, x')
       | Err e => Err e
       end.

Definition spawn_consumer_async {V Out} `{AsyncStreamVisitor V Out} (name : String.string) (v : V)
    : Consumer * World V Out :=
  (mkConsumer name (Some ()) (Some ()), mkWorld (Live v false) false).

Definition consume_async {V Out} `{AsyncStreamVisitor V Out} (x : X) (v : V)
    : outcome (result (Consumer * World V Out * Sub * X) StreamConsumerError) :=
  sub ← try_subscribe x;
  mret match sub with
       | Ok (s, x') => let '(c, w) := spawn_consumer_async (stream_name x) v in Ok (c, w, s, x')
       | Err e => Err e
       end.

End consumable.

(** Sealing, of the streams that have it. *)
Class SealReplay (X Sub : Type) `{Subscribable X Sub} := {
  seal_replay : X → outcome X;
  is_replay_sealed : X → bool;
  (** The retained chunks a new subscription starts with. *)
  retained : Sub → list StreamEvent;
}.

(** What sealing promises: for a stream as [from_stream] builds it, sealing does
    not fail, is final and idempotent, and hides the history from subscribers
    that attach later. *)
Class SealReplayLaws (X Sub : Type) `{SealReplay X Sub} := {
  built : X → Prop;
  seal_seals x : built x →
    ∃ x', seal_replay x = Done x' ∧ built x' ∧ is_replay_sealed x' = true ∧ seal_replay x' = Done x';
  seal_hides x s x' : built x → is_replay_sealed x = true → try_subscribe x = Done (Ok (s, x')) → retained s = [];
  seal_stays x s x' : try_subscribe x = Done (Ok (s, x')) → is_replay_sealed x' = is_replay_sealed x;
}.

(** ** The broadcast stream *)

Section broadcast.
Context {B M : Type} `{TokioBroadcast B StreamEvent, Mpsc M IndexedEvent}.
Context {D R : Type} `{Delivery D, Replay R}.

Record FanoutReplayBackend : Type := mkFanoutBackend {
  fan_state : BroadcastState;
  fan_store : store M;
  fan_bytes_ingested : N;
  fan_options : StreamConfig D R;
  fan_name : String.string;
}.

Inductive Backend : Type :=
| Fast (b : FastBackend B)
| FanoutReplay (b : FanoutReplayBackend).

Record BroadcastOutputStream : Type := mkBroadcastStream { backend : Backend }.

Inductive BroadcastSubscription : Type :=
| FastSub (s : FastSubscription)
| SharedSub (s : SharedSubscription).

Implicit Types (x : BroadcastOutputStream) (b : FanoutReplayBackend).

Definition new_fanout_backend (name : String.string) (options : StreamConfig D R) : FanoutReplayBackend :=
  mkFanoutBackend BroadcastState.new ∅ 0 options name.

Definition from_stream (name : String.string) (options : StreamConfig D R)
    : outcome BroadcastOutputStream :=
  _ ← assert_valid options;
  if bool_decide (delivery_guarantee options = GLossyWithoutBackpressure)
     && negb (config_replay_enabled options)
  then
    b ← new_fast_backend name (read_chunk_size options) (max_buffered_chunks options);
    mret (mkBroadcastStream (Fast b))
  else mret (mkBroadcastStream (FanoutReplay (new_fanout_backend name options))).

Definition broadcast_name x : String.string :=
  match backend x with Fast b => fb_name b | FanoutReplay b => fan_name b end.

#[export] Instance broadcast_output_stream : OutputStream BroadcastOutputStream := {|
  os_read_chunk_size x :=
    match backend x with
    | Fast b => read_chunk_size (fb_options b)
    | FanoutReplay b => read_chunk_size (fan_options b)
    end;
  os_max_buffered_chunks x :=
    match backend x with
    | Fast b => max_buffered_chunks (fb_options b)
    | FanoutReplay b => max_buffered_chunks (fan_options b)
    end;
|}.

Definition with_fanout b (bs : BroadcastState) (st : store M) : FanoutReplayBackend :=
  mkFanoutBackend bs st (fan_bytes_ingested b) (fan_options b) (fan_name b).

Definition broadcast_try_subscribe x : outcome (BroadcastSubscription * BroadcastOutputStream) :=
  match backend x with
  | Fast b => let '(s, b) := fast_subscribe b in mret (FastSub s, mkBroadcastStream (Fast b))
  | FanoutReplay b =>
      '(s, bs, st) ←
        fanout_subscribe (delivery_guarantee (fan_options b)) (config_replay_retention (fan_options b))
          (max_buffered_chunks (fan_options b)) (fan_state b) (fan_store b);
      mret (SharedSub s, mkBroadcastStream (FanoutReplay (with_fanout b bs st)))
  end.

(** [BroadcastSubscription::recv], which is [next_event]; the two kinds of
    subscription never meet the other backend. *)
Definition subscription_recv (s : BroadcastSubscription) x
    : poll (option StreamEvent) * BroadcastSubscription * BroadcastOutputStream :=
  match s, backend x with
  | FastSub s, Fast b =>
      let '(r, s, b) := fast_recv s b in (r, FastSub s, mkBroadcastStream (Fast b))
  | SharedSub s, FanoutReplay b =>
      let '(r, s, bs, st) := shared_recv s (fan_state b) (fan_store b) in
      (r, SharedSub s, mkBroadcastStream (FanoutReplay (with_fanout b bs st)))
  | _, _ => (Pending, s, x)
  end.

Definition broadcast_drop_subscription (s : BroadcastSubscription) x : BroadcastOutputStream :=
  match s, backend x with
  | FastSub s, Fast b => mkBroadcastStream (Fast (fast_drop_subscription s b))
  | SharedSub s, FanoutReplay b =>
      let '(bs, st) := shared_drop s (fan_state b) (fan_store b) in
      mkBroadcastStream (FanoutReplay (with_fanout b bs st))
  | _, _ => x
  end.

(** [Drop]; the reader is aborted. *)
Definition broadcast_drop x : Backend :=
  match backend x with
  | Fast b => Fast (fast_drop_stream b)
  | FanoutReplay b =>
      let '(bs, st) := stream_drop (fan_state b) (fan_store b) in FanoutReplay (with_fanout b bs st)
  end.

#[export] Instance broadcast_subscribable : Subscribable BroadcastOutputStream BroadcastSubscription := {|
  stream_name := broadcast_name;
  try_subscribe x := p ← broadcast_try_subscribe x; mret (Ok p);
  drop_subscription := broadcast_drop_subscription;
|}.

(** [wait_for_line]: the subscription is taken and the visitor is made before the
    future is returned. *)
Definition broadcast_wait_for_line {Buf} `{BytesMut Buf, Memchr} x (p : str → bool) (o : LineParsingOptions)
    : outcome (BroadcastSubscription * BroadcastOutputStream
               * (list turn → outcome (result WaitForLineResult StreamReadError))) :=
  '(s, x) ← broadcast_try_subscribe x;
  v ← ParseLines_new (B := Buf) o (WaitForLine_new p);
  mret (s, x, waiting_future v).

(** The future is that of [wait_for_line], on a subscription taken before it is
    polled. *)
Lemma broadcast_wait_for_line_future {Buf} `{BytesMut Buf, Memchr} x p o s x' f :
  broadcast_wait_for_line (Buf := Buf) x p o = Done (s, x', f) →
  broadcast_try_subscribe x = Done (s, x') ∧ ∀ turns, f turns = wait_for_line (B := Buf) p o turns.
Proof.
  unfold broadcast_wait_for_line, wait_for_line. destruct (broadcast_try_subscribe x) as [[s0 x0]|]; [|done].
  cbn. destruct (ParseLines_new o (WaitForLine_new p)) as [v|]; [|done]. cbn. by intros [= <- <- <-].
Qed.

(** The channel of one more subscriber can be made. *)
Definition subscriber_fits x : Prop :=
  match backend x with
  | Fast _ => True
  | FanoutReplay b =>
      ∃ c : SubscriberSender * live_chan M,
        new_channel (delivery_guarantee (fan_options b)) (max_buffered_chunks (fan_options b)) = Done c
  end.

Lemma fanout_subscribe_fits g r n bs st (c : SubscriberSender * live_chan M) :
  new_channel g n = Done c → ∃ s bs' st', fanout_subscribe g r n bs st = Done (s, bs', st').
Proof.
  unfold fanout_subscribe. intros ->. destruct c as [[] c]; cbn;
    destruct (closed bs || _); cbn; eauto.
Qed.

Lemma broadcast_subscribe_fits x : subscriber_fits x → ∃ s x', broadcast_try_subscribe x = Done (s, x').
Proof.
  destruct x as [[b|b]]; unfold subscriber_fits, broadcast_try_subscribe; cbn.
  - intros _. destruct (fast_subscribe b). eauto.
  - intros [c Hc]. destruct (fanout_subscribe_fits _ (config_replay_retention (fan_options b)) _
      (fan_state b) (fan_store b) c Hc) as (s & bs & st & ->). cbn. eauto.
Qed.

(** Subscribing, and dropping a subscription, leave the options as they are. *)
Lemma subscribe_keeps_fits x s x' : broadcast_try_subscribe x = Done (s, x') → subscriber_fits x'.
Proof.
  destruct x as [[b|b]]; unfold subscriber_fits, broadcast_try_subscribe; cbn.
  - destruct (fast_subscribe b). by intros [= <- <-].
  - unfold fanout_subscribe. destruct (new_channel _ _) as [c|] eqn:Hc; [|done]. cbn.
    destruct c as [[] c], (closed (fan_state b) || _); cbn; intros [= <- <-]; cbn; eauto.
Qed.

Lemma drop_keeps_fits s x : subscriber_fits x → subscriber_fits (broadcast_drop_subscription s x).
Proof.
  destruct s, x as [[b|b]]; unfold subscriber_fits, broadcast_drop_subscription; cbn; done.
Qed.

(** Any number of subscribers: there is no claim to lose. *)
#[export, refine] Instance broadcast_releases : ReleasesOnDrop BroadcastOutputStream BroadcastSubscription := {|
  has_claim _ x := subscriber_fits x;
|}.
Proof.
  - intros x s x'. cbn. destruct (broadcast_try_subscribe x) as [[s0 x0]|] eqn:Hx; [|done].
    cbn. intros [= <- <-]. by eapply subscribe_keeps_fits.
  - intros s x Hx. destruct (broadcast_subscribe_fits _ (drop_keeps_fits s x Hx)) as (s' & x' & Hs).
    exists s', x'. cbn. by rewrite Hs.
Defined.

(** [seal_replay] and [is_replay_sealed]: the fast path has no history. *)
#[export] Instance broadcast_seal : SealReplay BroadcastOutputStream BroadcastSubscription := {|
  seal_replay x :=
    match backend x with
    | Fast _ => mret x
    | FanoutReplay b =>
        mret (mkBroadcastStream (FanoutReplay
          (with_fanout b (BroadcastState.seal_replay (fan_state b)) (fan_store b))))
    end;
  is_replay_sealed x :=
    match backend x with Fast _ => false | FanoutReplay b => replay_sealed (fan_state b) end;
  retained s :=
    match s with
    | FastSub _ => []
    | SharedSub s => filter (λ e, is_chunk e = true) (event <$> ss_replay s)
    end;
|}.

(** A fan-out stream whose recorded end is a terminal event. *)
Definition fanout_built x : Prop :=
  ∃ b, backend x = FanoutReplay b ∧ ∀ t, terminal (fan_state b) = Some t → is_terminal (event t) = true.

#[export, refine] Instance broadcast_seal_laws : SealReplayLaws BroadcastOutputStream BroadcastSubscription := {|
  built := fanout_built;
|}.
Proof.
  - intros [k] (b & Hb & Ht). cbn in *. subst k. eexists. split; [reflexivity|].
    split_and!; [|reflexivity..]. eexists. split; [reflexivity|done].
  - intros [k] s x' (b & Hb & Ht) Hs. cbn in *. subst k.
    unfold broadcast_try_subscribe, fanout_subscribe, BroadcastState.replay_snapshot. cbn.
    rewrite Hs, andb_false_r. cbn [app].
    assert (filter (λ e, is_chunk e = true)
      (event <$> match terminal (fan_state b) with Some t => [t] | None => [] end) = []) as Hnil.
    { destruct (terminal (fan_state b)) as [t|] eqn:E; [|done]. specialize (Ht t eq_refl).
      rewrite fmap_cons, filter_cons_False; [done|]. by destruct (event t). }
    destruct (new_channel _ _) as [[[] c]|]; cbn; [| |done];
      destruct (closed (fan_state b) || _); cbn; intros [= <- _]; exact Hnil.
  - intros [[b|b]] s x'; cbn; unfold broadcast_try_subscribe; cbn.
    + destruct (fast_subscribe b) as [y b']. by intros [= <- <-].
    + unfold fanout_subscribe.
      destruct (new_channel _ _) as [[[] c]|]; cbn; [| |done];
        by destruct (closed (fan_state b) || _); cbn; intros [= <- <-].
Defined.

End broadcast.
Arguments BroadcastOutputStream B M D R : clear implicits.

(** Valid options open a stream, unless the fast path cannot allocate its
    channel; with replay enabled the fan-out backend is selected. *)
Section open.
Context {B M D R : Type} `{TokioBroadcastLaws B StreamEvent, Mpsc M IndexedEvent, Delivery D, Replay R}.

(** Lossy delivery without replay. *)
Definition takes_fast_path (options : StreamConfig D R) : Prop :=
  delivery_guarantee options = GLossyWithoutBackpressure ∧ config_replay_enabled options = false.

Lemma from_stream_total name (options : StreamConfig D R) :
  assert_valid options = Done () →
  (takes_fast_path options → max_buffered_chunks options ≤ BROADCAST_MAX_CAPACITY) →
  ∃ x : BroadcastOutputStream B M D R, from_stream name options = Done x.
Proof.
  intros Hv Hb. unfold from_stream. rewrite Hv. cbn [mbind outcome_bind].
  destruct (bool_decide _ && _) eqn:Hfast; [|eauto]. unfold new_fast_backend.
  apply andb_true_iff in Hfast as [Hg%bool_decide_eq_true Hr%negb_true_iff]. specialize (Hb (conj Hg Hr)).
  pose proof (bc_channel_spec (B := B) (E := StreamEvent) (max_buffered_chunks options)) as Hspec.
  apply N.leb_le in Hb. rewrite Hb, andb_true_r in Hspec.
  assert ((0 <? max_buffered_chunks options) = true) as Hpos.
  { unfold assert_valid, assert_max_buffered_chunks_non_zero in Hv.
    destruct (NumBytes.assert_non_zero _); [|done]. cbn in Hv. by destruct (0 <? _). }
  rewrite Hpos in Hspec. destruct Hspec as (rx & c & -> & _). cbn. eauto.
Qed.

Lemma from_stream_replay name (options : StreamConfig D R) (x : BroadcastOutputStream B M D R) :
  config_replay_enabled options = true → from_stream name options = Done x →
  built x ∧ is_replay_sealed x = false.
Proof.
  unfold from_stream. destruct (assert_valid options); [|done]. cbn [mbind outcome_bind].
  intros ->. rewrite andb_false_r. intros [= <-]. split; [|done]. eexists. split; [reflexivity|done].
Qed.

End open.

(** ** The single-subscriber and the discarded stream *)

Section single.
Context {M D R : Type} `{Mpsc M StreamEvent, Delivery D, Replay R}.
Implicit Types x : SingleSubscriberOutputStream M D R.

#[export] Instance single_output_stream : OutputStream (SingleSubscriberOutputStream M D R) := {|
  os_read_chunk_size x := read_chunk_size (single_options x);
  os_max_buffered_chunks x := max_buffered_chunks (single_options x);
|}.

#[export] Instance single_seal : SealReplay (SingleSubscriberOutputStream M D R) SingleSubscriberSubscription := {|
  seal_replay x :=
    s ← ReplayState.seal_replay (sh_state (configured_shared x)) (single_retention x);
    mret (with_shared x (with_state (configured_shared x) s));
  is_replay_sealed x := rs_sealed (sh_state (configured_shared x));
  retained s := sss_replay s;
|}.

Lemma pop_all_empties fuel s :
  (length (rs_events s) ≤ fuel)%nat →
  rs_events (ReplayState.pop_all fuel s) = [] ∧ rs_sealed (ReplayState.pop_all fuel s) = rs_sealed s.
Proof.
  revert s. induction fuel as [|fuel IH]; intros s Hf; simpl.
  { by destruct (rs_events s) eqn:E; [|simpl in Hf; lia]. }
  unfold ReplayState.pop_replay_front. destruct (rs_events s) as [|e rest] eqn:E; [done|].
  simpl in Hf. destruct e;
    match goal with |- context [ReplayState.pop_all fuel ?t] => apply (IH t); simpl; lia end.
Qed.

Lemma seal_replay_pops s r :
  ∃ s', ReplayState.seal_replay s r = Done s' ∧ rs_events s' = [] ∧ rs_sealed s' = true.
Proof.
  set (t := mkReplayState (rs_events s) (chunk_count s) (byte_count s) true
    (rs_terminal_event s) (active_id s) (rs_next_id s)).
  exists (ReplayState.pop_all (length (rs_events t)) t). split; [|by apply pop_all_empties].
  unfold ReplayState.seal_replay, ReplayState.trim_replay_window. by destruct r as [[[|n]|n|]|].
Qed.

Lemma seal_replay_again s r :
  rs_events s = [] → rs_sealed s = true → ReplayState.seal_replay s r = Done s.
Proof.
  destruct s as [evs n b se t a i]. cbn. intros -> ->.
  unfold ReplayState.seal_replay, ReplayState.trim_replay_window. by destruct r as [[[|?]|?|]|].
Qed.

#[export, refine] Instance single_seal_laws :
    SealReplayLaws (SingleSubscriberOutputStream M D R) SingleSubscriberSubscription := {|
  built _ := True;
|}.
Proof.
  - intros x _. destruct (seal_replay_pops (sh_state (configured_shared x)) (single_retention x))
      as (s' & Hs & He & Hse). cbn. rewrite Hs. cbn. eexists. split_and!; [reflexivity|done..|].
    cbn. by rewrite (seal_replay_again s').
  - intros x s x' _ Hs. cbn in *. unfold single_subscribe.
    destruct (mpsc_channel _); [|done]. cbn. case_bool_decide; [done|].
    rewrite Hs. cbn. by intros [= <- _].
  - intros x s x'. cbn. unfold single_subscribe.
    destruct (mpsc_channel _); [|done]. cbn. case_bool_decide; [done|]. by intros [= <- <-].
Defined.

End single.

#[export] Instance discarded_output_stream : OutputStream DiscardedOutputStream := {|
  os_read_chunk_size := Discarded.read_chunk_size;
  os_max_buffered_chunks := Discarded.max_buffered_chunks;
|}.

#[export] Instance discarded_subscribable : Subscribable DiscardedOutputStream ImmediateEof := {|
  stream_name := discarded_name;
  try_subscribe x := mret (Ok (Discarded.try_subscribe x, x));
  drop_subscription _ x := x;
|}.

#[export, refine] Instance discarded_releases : ReleasesOnDrop DiscardedOutputStream ImmediateEof := {|
  has_claim _ _ := True;
|}.
Proof. all: try done. intros s x _. by eexists _, _. Defined.

(** ** Sealing on the handle *)

Section handle.
Context {X1 S1 X2 S2 : Type}.
Context `{Subscribable X1 S1, !SealReplay X1 S1, !SealReplayLaws X1 S1}.
Context `{Subscribable X2 S2, !SealReplay X2 S2, !SealReplayLaws X2 S2}.
Implicit Types h : ProcessHandle X1 X2.

Definition seal_stdout_replay h : outcome (ProcessHandle X1 X2) :=
  x ← seal_replay (std_out_stream h); mret (with_streams h x (std_err_stream h)).

Definition seal_stderr_replay h : outcome (ProcessHandle X1 X2) :=
  x ← seal_replay (std_err_stream h); mret (with_streams h (std_out_stream h) x).

Definition seal_output_replay h : outcome (ProcessHandle X1 X2) :=
  h ← seal_stdout_replay h; seal_stderr_replay h.

(** Sealing the replay of a handle's streams does not panic, is idempotent and
    changes nothing else of the handle; both streams are then sealed, and a
    subscription taken next starts without any retained chunk.  That the seal
    holds through everything that follows is [broadcast_seal_final] and
    [single_seal_final], on the backends' systems. *)
Lemma seal_output_replay_seals h :
  built (std_out_stream h) → built (std_err_stream h) →
  ∃ h', seal_output_replay h = Done h' ∧ seal_output_replay h' = Done h' ∧
    h_name h' = h_name h ∧ std_in h' = std_in h ∧ drop_mode h' = drop_mode h ∧
    is_replay_sealed (std_out_stream h') = true ∧ is_replay_sealed (std_err_stream h') = true ∧
    (∀ s x, try_subscribe (std_out_stream h') = Done (Ok (s, x)) → retained s = [] ∧ is_replay_sealed x = true) ∧
    (∀ s x, try_subscribe (std_err_stream h') = Done (Ok (s, x)) → retained s = [] ∧ is_replay_sealed x = true).
Proof.
  intros Hb1 Hb2. destruct (seal_seals _ Hb1) as (x1 & Hx1 & Hb1' & Hs1 & Hi1).
  destruct (seal_seals _ Hb2) as (x2 & Hx2 & Hb2' & Hs2 & Hi2).
  exists (with_streams h x1 x2). unfold seal_output_replay, seal_stdout_replay, seal_stderr_replay.
  rewrite Hx1. cbn. rewrite Hx2, Hi1. cbn. rewrite Hi2. split_and!; try done.
  - intros s x Hsub. split; [by eapply seal_hides|]. by rewrite (seal_stays _ _ _ Hsub).
  - intros s x Hsub. split; [by eapply seal_hides|]. by rewrite (seal_stays _ _ _ Hsub).
Qed.

End handle.

Module SealDemo.

Definition single : SingleSubscriberOutputStream (ref_mpsc StreamEvent) ReliableWithBackpressure ReplayEnabled :=
  mkSingleStream "stdout" (mkStreamConfig (mkNumBytes 4) 2 Reliable (mkReplayEnabled All))
    (mkConfigured (mkReplayState [Chunk [x61]] 1 1 false None None 0) None None ∅ 1).

Definition fanout : BroadcastOutputStream (ref_broadcast StreamEvent) (ref_mpsc IndexedEvent)
    LossyWithoutBackpressure ReplayEnabled :=
  mkBroadcastStream (FanoutReplay (mkFanoutBackend
    (BroadcastState.push_event BroadcastState.new (Chunk [x62]) (Some All)).2 ∅ 1
    (mkStreamConfig (mkNumBytes 4) 2 Lossy (mkReplayEnabled All)) "stderr")).

Definition handle := mkHandle "demo" StdinOpen single fanout Disarmed.

Lemma fanout_is_built : built (std_err_stream handle).
Proof. eexists. split; [reflexivity|done]. Qed.

End SealDemo.

Example seal_demo :
  ∃ h', seal_output_replay SealDemo.handle = Done h' ∧
    (∀ s x, try_subscribe (std_err_stream h') = Done (Ok (s, x)) → retained s = []).
Proof.
  destruct (seal_output_replay_seals (S1 := SingleSubscriberSubscription)
      SealDemo.handle ltac:(exact I) SealDemo.fanout_is_built)
    as (h' & Hs & _ & _ & _ & _ & _ & _ & _ & Herr).
  exists h'. split; [exact Hs|]. intros s x Hx. apply (Herr s x Hx).
Qed.

(** The validation of the options has no upper bound on the buffer, the channel
    of a subscriber has one: such a stream opens, and the first consumer
    panics. *)
Lemma oversized_buffer_panics {M D R} `{MpscLaws M StreamEvent, Delivery D, Replay R} name (c : StreamConfig D R) :
  assert_valid c = Done () → MAX_PERMITS < max_buffered_chunks c →
  ∃ x : SingleSubscriberOutputStream M D R, single_from_stream name c = Done x ∧ try_subscribe x = Panic.
Proof.
  intros Hv Hbig. unfold single_from_stream. rewrite Hv. cbn. eexists. split; [reflexivity|].
  cbn. unfold single_subscribe. destruct (mpsc_channel _) as [m|] eqn:Hm; [|done].
  apply mpsc_channel_done in Hm. lia.
Qed.

(** ** Configurations that can be built *)

Section builders.
Context {B M M' D : Type} `{TokioBroadcastLaws B StreamEvent, Mpsc M IndexedEvent, Mpsc M' StreamEvent, Delivery D}.
Implicit Types s : Builder.StreamConfigReplayBuilder D.

(** A configuration that opens a stream of either backend. *)
Definition opens {R} `{Replay R} (name : String.string) (c : StreamConfig D R) : Prop :=
  (∃ x : SingleSubscriberOutputStream M' D R, single_from_stream name c = Done x) ∧
  (max_buffered_chunks c ≤ BROADCAST_MAX_CAPACITY →
   ∃ x : BroadcastOutputStream B M D R, from_stream name c = Done x).

Lemma valid_opens {R} `{Replay R} name (c : StreamConfig D R) : assert_valid c = Done () → opens name c.
Proof.
  intros Hv. split; [|intros Hb; by apply from_stream_total]. unfold single_from_stream. rewrite Hv. cbn. eauto.
Qed.

Definition retention_non_zero (r : ReplayRetention) : Prop :=
  match r with LastChunks n => n ≠ 0 | LastBytes n => bytes n ≠ 0 | All => True end.

Lemma assert_valid_sizes {R} `{Replay R} (c : StreamConfig D R) :
  assert_valid c = Done () ↔
  bytes (read_chunk_size c) ≠ 0 ∧ max_buffered_chunks c ≠ 0 ∧
  ∀ r, config_replay_retention c = Some r → retention_non_zero r.
Proof.
  unfold assert_valid, NumBytes.assert_non_zero, assert_max_buffered_chunks_non_zero.
  destruct (N.ltb_spec 0 (bytes (read_chunk_size c))), (N.ltb_spec 0 (max_buffered_chunks c)); cbn;
    try (split; [done|intros (? & ? & _); lia]).
  destruct (config_replay_retention c) as [r|].
  - pose proof (retention_assert_done r) as Hr. fold (retention_non_zero r) in Hr. rewrite Hr. split.
    + intros Hn. split_and!; [lia|lia|]. by intros r' [= <-].
    + intros (_ & _ & Hn). by apply Hn.
  - split; [|done]. intros _. split_and!; [lia|lia|done].
Qed.

(** C39: a configuration that comes out of the staged builder is well formed.
    With or without replay the builder either panics, exactly when the chunk
    size, the buffer or the replay window is zero, or returns the configuration
    asked for; opening a stream of either backend with it does not panic (for
    the fast path, up to the largest buffer its channel can have). *)
Theorem stream_builder_valid name s r n m :
  let with_replay := mkStreamConfig n m (Builder.stage1_delivery s) (mkReplayEnabled r) in
  let without := mkStreamConfig n m (Builder.stage1_delivery s) NoReplayMarker in
  (bytes n ≠ 0 ∧ m ≠ 0 → Builder.build_no_replay s n m = Done without ∧ opens name without) ∧
  (¬ (bytes n ≠ 0 ∧ m ≠ 0) → Builder.build_no_replay s n m = Panic) ∧
  (bytes n ≠ 0 ∧ m ≠ 0 ∧ retention_non_zero r →
     Builder.build_replay s r n m = Done with_replay ∧ opens name with_replay) ∧
  (¬ (bytes n ≠ 0 ∧ m ≠ 0 ∧ retention_non_zero r) → Builder.build_replay s r n m = Panic).
Proof.
  intros with_replay without. rewrite build_no_replay_valid, build_replay_valid. fold with_replay without.
  pose proof (assert_valid_sizes with_replay) as Hw. pose proof (assert_valid_sizes without) as Ho.
  cbn in Hw, Ho. split_and!.
  - intros Hn. assert (assert_valid without = Done ()) as Hv by (apply Ho; split_and!; [apply Hn..|done]).
    split; [by rewrite Hv|by apply valid_opens].
  - intros Hn. destruct (assert_valid without) as [[]|] eqn:Hv; [|done]. destruct Hn.
    destruct (proj1 Ho eq_refl) as (? & ? & _). done.
  - intros Hn. assert (assert_valid with_replay = Done ()) as Hv.
    { apply Hw. split_and!; [apply Hn..|]. intros r' [= <-]. apply Hn. }
    split; [by rewrite Hv|by apply valid_opens].
  - intros Hn. destruct (assert_valid with_replay) as [[]|] eqn:Hv; [|done]. destruct Hn.
    destruct (proj1 Hw eq_refl) as (? & ? & Hr). split_and!; [done..|]. by apply Hr.
Qed.

End builders.

Lemma stream_builder_valid_witness :
  ∃ x : BroadcastOutputStream (ref_broadcast StreamEvent) (ref_mpsc IndexedEvent) LossyWithoutBackpressure ReplayEnabled,
    from_stream "stdout" (mkStreamConfig (mkNumBytes 4) 2 Lossy (mkReplayEnabled (LastChunks 3))) = Done x.
Proof.
  destruct (stream_builder_valid (B := ref_broadcast StreamEvent) (M := ref_mpsc IndexedEvent)
    (M' := ref_mpsc StreamEvent) "stdout" (Builder.mkReplayStage Lossy) (LastChunks 3) (mkNumBytes 4) 2)
    as (_ & _ & Hr & _).
  destruct Hr as (_ & _ & Hx); [split_and!; discriminate|]. apply Hx. vm_compute. discriminate.
Defined.
