(* ===== verification/Naming.v ===== *)
(** * Process names

    Models [src/process/name.rs]: the naming settings, their presets, and the
    rendering of a command.  A [Command] carries what [std::process::Command]
    reports of itself; [OsStr::to_string_lossy] on Unix is the lossy decoding of
    [Utf8]; the [Debug] rendering of a command is a parameter. *)

From S2P Require Import Prelude Utf8.

(** ** Commands *)

Inductive Stdio : Type := Piped | NullDevice.

#[export] Instance Stdio_eq_dec : EqDecision Stdio.
Proof. solve_decision. Defined.

(** [get_envs] lists the explicitly set variables by key; a removed one has no
    value. *)
Record Command : Type := mkCommand {
  get_program : list byte;
  get_args : list (list byte);
  get_envs : list (list byte * option (list byte));
  get_current_dir : option (list byte);
  cmd_process_group : option N;
  cmd_creation_flags : N;
  cmd_stdin : option Stdio;
  cmd_stdout : option Stdio;
  cmd_stderr : option Stdio;
  cmd_kill_on_drop : bool;
}.

Definition command_new (program : list byte) : Command :=
  mkCommand program [] [] None None 0 None None None false.

Definition to_string_lossy (s : list byte) : str := from_utf8_lossy s.

(** ** Settings *)

Record AutoNameSettings : Type := mkSettings {
  include_current_dir : bool;
  include_envs : bool;
  include_program : bool;
  include_args : bool;
}.

Module AutoNameSettings.

Definition default : AutoNameSettings := mkSettings false false true false.

(** The builder: three setters over the defaults; [include_program] has none. *)
Definition build (current_dir envs args : bool) : AutoNameSettings :=
  mkSettings current_dir envs true args.

Definition program_only : AutoNameSettings := default.
Definition program_with_args : AutoNameSettings := build false false true.
Definition program_with_env_and_args : AutoNameSettings := build false true true.
Definition full : AutoNameSettings := build true true true.

End AutoNameSettings.

Definition char_space : byte := x20.
Definition char_quote : byte := x22.
Definition char_equals : byte := x3d.
Definition char_percent : byte := x25.

(** [name.ends_with(' ')] and [name.pop()]. *)
Definition pop_space (name : str) : str :=
  match last name with
  | Some b => if bool_decide (b = char_space) then removelast name else name
  | None => name
  end.

Definition format_cmd (s : AutoNameSettings) (cmd : Command) : str :=
  let name := [] in
  let name :=
    if include_current_dir s then
      match get_current_dir cmd with
      | Some dir => name ++ to_string_lossy dir ++ [char_space; char_percent; char_space]
      | None => name
      end
    else name in
  let name :=
    if include_envs s then
      foldl (λ name kv, name ++ to_string_lossy kv.1 ++ [char_equals] ++ to_string_lossy kv.2 ++ [char_space])
        name (omap (λ kv, value ← kv.2; Some (kv.1, value)) (get_envs cmd))
    else name in
  let name :=
    if include_program s then name ++ to_string_lossy (get_program cmd) ++ [char_space] else name in
  let name :=
    if include_args s then
      foldl (λ name arg, name ++ [char_quote] ++ to_string_lossy arg ++ [char_quote] ++ [char_space])
        name (get_args cmd)
    else name in
  pop_space name.

(** ** Names *)

Inductive AutoName : Type := Using (s : AutoNameSettings) | DebugName.
Inductive ProcessName : Type := Explicit (name : str) | Auto (a : AutoName).

Definition AutoName_default : AutoName := Using AutoNameSettings.program_only.
Definition ProcessName_default : ProcessName := Auto AutoName_default.

Module AutoName.

Definition program_only : AutoName := Using AutoNameSettings.program_only.
Definition program_with_args : AutoName := Using AutoNameSettings.program_with_args.
Definition program_with_env_and_args : AutoName := Using AutoNameSettings.program_with_env_and_args.
Definition full : AutoName := Using AutoNameSettings.full.
Definition from_settings (s : AutoNameSettings) : AutoName := Using s.

End AutoName.

(** The [From] conversions; the borrowed, owned and [Cow] strings are one. *)
Module ProcessName.

Definition from_str (s : str) : ProcessName := Explicit s.
Definition from_auto_name (mode : AutoName) : ProcessName := Auto mode.
Definition from_settings (s : AutoNameSettings) : ProcessName := Auto (AutoName.from_settings s).

End ProcessName.

Definition generate_name (debug_command : Command → str) (name : ProcessName) (cmd : Command) : str :=
  match name with
  | Explicit name => name
  | Auto (Using s) => format_cmd s cmd
  | Auto DebugName => debug_command cmd
  end.

(** ** What a generated name shows *)

(** Words separated by single spaces. *)
Definition unwords (ws : list str) : str := pop_space (concat ((λ w, w ++ [char_space]) <$> ws)).

(** The words of a name, by setting. *)
Definition dir_words (s : AutoNameSettings) (cmd : Command) : list str :=
  if include_current_dir s then
    match get_current_dir cmd with
    | Some dir => [to_string_lossy dir; [char_percent]]
    | None => []
    end
  else [].

Definition env_words (s : AutoNameSettings) (cmd : Command) : list str :=
  if include_envs s then
    omap (λ kv, (λ value, to_string_lossy kv.1 ++ [char_equals] ++ to_string_lossy value) <$> kv.2)
      (get_envs cmd)
  else [].

Definition arg_words (s : AutoNameSettings) (cmd : Command) : list str :=
  if include_args s then (λ arg, [char_quote] ++ to_string_lossy arg ++ [char_quote]) <$> get_args cmd
  else [].

Lemma foldl_words {A} (g : str → A → str) (f : A → str) (name : str) (l : list A) :
  (∀ n a, g n a = n ++ f a ++ [char_space]) →
  foldl g name l = name ++ concat ((λ w, w ++ [char_space]) <$> (f <$> l)).
Proof.
  intros Hg. revert name. induction l as [|a l IH]; intros name; simpl; [by rewrite app_nil_r|].
  rewrite IH, Hg. by rewrite <- !(assoc_L (++)).
Qed.

Lemma pop_space_snoc name : pop_space (name ++ [char_space]) = name.
Proof. unfold pop_space. rewrite last_snoc, bool_decide_true by done. apply removelast_last. Qed.

(** The set variables as words. *)
Lemma set_vars_words (envs : list (list byte * option (list byte))) :
  (λ kv, to_string_lossy kv.1 ++ [char_equals] ++ to_string_lossy kv.2) <$>
    omap (λ kv, value ← kv.2; Some (kv.1, value)) envs =
  omap (λ kv, (λ value, to_string_lossy kv.1 ++ [char_equals] ++ to_string_lossy value) <$> kv.2) envs.
Proof. induction envs as [|[k [v|]] envs IH]; simpl; [done|f_equal; exact IH|exact IH]. Qed.

(** A generated name is the chosen words in order, separated by single
    spaces: the directory and a percent sign, the set (not the removed)
    variables, the program, the quoted arguments. *)
Lemma format_cmd_words current_dir envs args cmd :
  let s := AutoNameSettings.build current_dir envs args in
  format_cmd s cmd =
    unwords (dir_words s cmd ++ env_words s cmd ++ to_string_lossy (get_program cmd) :: arg_words s cmd).
Proof.
  intros s. unfold format_cmd, unwords. cbn [include_program s AutoNameSettings.build]. f_equal.
  rewrite !fmap_app, !concat_app, fmap_cons, concat_cons.
  set (d := if include_current_dir s then _ else _).
  assert (d = concat ((λ w, w ++ [char_space]) <$> dir_words s cmd)) as ->.
  { subst d. unfold dir_words. destruct (include_current_dir s), (get_current_dir cmd); simpl; try done.
    by rewrite <- !(assoc_L (++)). }
  set (dw := concat _). set (e := if include_envs s then _ else _).
  assert (e = dw ++ concat ((λ w, w ++ [char_space]) <$> env_words s cmd)) as ->.
  { subst e. unfold env_words. destruct (include_envs s); [|by rewrite app_nil_r].
    rewrite <- set_vars_words. apply foldl_words. intros n a. by rewrite <- !(assoc_L (++)). }
  unfold arg_words. destruct (include_args s).
  - rewrite (foldl_words _ (λ arg, [char_quote] ++ to_string_lossy arg ++ [char_quote]))
      by (intros n a; by rewrite <- !(assoc_L (++))). by rewrite <- !(assoc_L (++)).
  - simpl. by rewrite app_nil_r, <- !(assoc_L (++)).
Qed.

(** By default a name shows the program and nothing of the arguments, the
    environment or the directory. *)
Lemma default_name_is_program debug_command cmd :
  generate_name debug_command ProcessName_default cmd = to_string_lossy (get_program cmd).
Proof. apply pop_space_snoc. Qed.

(** Two words and a variable. *)
Example format_cmd_full :
  format_cmd AutoNameSettings.full
    (mkCommand (bytes_of "ls") [bytes_of "-la"] [(bytes_of "FOO", Some (bytes_of "foo")); (bytes_of "BAR", None)]
      (Some (bytes_of "./")) None 0 None None None false)
  = bytes_of "./ % FOO=foo ls " ++ [char_quote] ++ bytes_of "-la" ++ [char_quote].
Proof. vm_compute. reflexivity. Qed.
