(* ===== verification/Spawn.v ===== *)
(** * Configuring and spawning a process

    Models [src/process/stream_config.rs], [src/process/builder.rs] and
    [src/process_handle/spawn.rs], with [prepare_command] and
    [from_spawned_child] of [src/process_handle/group/mod.rs] (Unix): the stream
    configurations of the three backends, the process builder's stages, and the
    spawn that turns them into an armed handle.

    The spawn itself is [tokio::process::Command::spawn], a class with the
    documented link between the stdio configuration and the child's pipes. *)

From S2P Require Import Prelude Time Utf8 Stream Broadcast FastBroadcast SingleSubscriber.
From S2P Require Import Errors LineWaiter Process WaitBuilder Backends Naming.

(** ** Stream configurations *)

Inductive BroadcastBackend : Type := mkBroadcastBackend.
Inductive SingleSubscriberBackend : Type := mkSingleSubscriberBackend.

Record PipedStreamConfig (Backend Stage : Type) : Type := mkPiped { stage : Stage }.
Arguments mkPiped {Backend Stage}.
Arguments stage {Backend Stage}.

Definition PipedStreamConfig_new {Backend Stage} (s : Stage) : PipedStreamConfig Backend Stage := mkPiped s.

Inductive DiscardedStreamConfig : Type := mkDiscardedConfig.

Inductive ProcessStreamBuilder : Type := mkProcessStreamBuilder.

Module StreamBuilder.
Section stages.
Context {Backend D R : Type}.

Definition broadcast (_ : ProcessStreamBuilder)
    : PipedStreamConfig BroadcastBackend Builder.StreamConfigBuilder := PipedStreamConfig_new Builder.builder.
Definition single_subscriber (_ : ProcessStreamBuilder)
    : PipedStreamConfig SingleSubscriberBackend Builder.StreamConfigBuilder :=
  PipedStreamConfig_new Builder.builder.
Definition discard (_ : ProcessStreamBuilder) : DiscardedStreamConfig := mkDiscardedConfig.

Definition lossy_without_backpressure (s : PipedStreamConfig Backend Builder.StreamConfigBuilder)
    : PipedStreamConfig Backend (Builder.StreamConfigReplayBuilder LossyWithoutBackpressure) :=
  PipedStreamConfig_new (Builder.lossy_without_backpressure (stage s)).
Definition reliable_with_backpressure (s : PipedStreamConfig Backend Builder.StreamConfigBuilder)
    : PipedStreamConfig Backend (Builder.StreamConfigReplayBuilder ReliableWithBackpressure) :=
  PipedStreamConfig_new (Builder.reliable_with_backpressure (stage s)).

Definition no_replay (s : PipedStreamConfig Backend (Builder.StreamConfigReplayBuilder D))
    : PipedStreamConfig Backend (Builder.StreamConfigReadChunkSizeBuilder D NoReplay) :=
  PipedStreamConfig_new (Builder.no_replay (stage s)).
Definition replay_last_chunks (s : PipedStreamConfig Backend (Builder.StreamConfigReplayBuilder D)) (n : N)
    : outcome (PipedStreamConfig Backend (Builder.StreamConfigReadChunkSizeBuilder D ReplayEnabled)) :=
  x ← Builder.replay_last_chunks (stage s) n; mret (PipedStreamConfig_new x).
Definition replay_last_bytes (s : PipedStreamConfig Backend (Builder.StreamConfigReplayBuilder D)) (n : NumBytes)
    : outcome (PipedStreamConfig Backend (Builder.StreamConfigReadChunkSizeBuilder D ReplayEnabled)) :=
  x ← Builder.replay_last_bytes (stage s) n; mret (PipedStreamConfig_new x).
Definition replay_all (s : PipedStreamConfig Backend (Builder.StreamConfigReplayBuilder D))
    : outcome (PipedStreamConfig Backend (Builder.StreamConfigReadChunkSizeBuilder D ReplayEnabled)) :=
  x ← Builder.replay_all (stage s); mret (PipedStreamConfig_new x).

Definition set_read_chunk_size (s : PipedStreamConfig Backend (Builder.StreamConfigReadChunkSizeBuilder D R))
    (n : NumBytes) : outcome (PipedStreamConfig Backend (Builder.StreamConfigMaxBufferedChunksBuilder D R)) :=
  x ← Builder.set_read_chunk_size (stage s) n; mret (PipedStreamConfig_new x).

Definition set_max_buffered_chunks
    (s : PipedStreamConfig Backend (Builder.StreamConfigMaxBufferedChunksBuilder D R))
    (n : N) : outcome (PipedStreamConfig Backend (Builder.StreamConfigReadyBuilder D R)) :=
  x ← Builder.set_max_buffered_chunks (stage s) n; mret (PipedStreamConfig_new x).

End stages.
End StreamBuilder.

(** The sealed trait: the child's stdio slot, and the stream over the captured
    pipe.  [expect] on the pipe panics without one. *)
Class ProcessStreamConfig (Config Stream : Type) := {
  child_stdio : Config → Stdio;
  into_stream : Config → option unit → String.string → outcome Stream;
}.

#[export] Instance broadcast_config {B M D R}
    `{TokioBroadcast B StreamEvent, Mpsc M IndexedEvent, Delivery D, Replay R} :
    ProcessStreamConfig (PipedStreamConfig BroadcastBackend (Builder.StreamConfigReadyBuilder D R))
      (BroadcastOutputStream B M D R) := {|
  child_stdio _ := Piped;
  into_stream c captured name := _ ← expect captured; from_stream name (Builder.build (stage c));
|}.

#[export] Instance single_config {M D R} `{Mpsc M StreamEvent, Delivery D, Replay R} :
    ProcessStreamConfig (PipedStreamConfig SingleSubscriberBackend (Builder.StreamConfigReadyBuilder D R))
      (SingleSubscriberOutputStream M D R) := {|
  child_stdio _ := Piped;
  into_stream c captured name := _ ← expect captured; single_from_stream name (Builder.build (stage c));
|}.

#[export] Instance discarded_config : ProcessStreamConfig DiscardedStreamConfig DiscardedOutputStream := {|
  child_stdio _ := NullDevice;
  into_stream _ _ name := mret (Discarded.new name);
|}.

(** ** Spawning *)

Record SpawnedChild : Type := mkChild { ch_stdin : option unit; ch_stdout : option unit; ch_stderr : option unit }.

Definition piped (s : option Stdio) : bool := bool_decide (s = Some Piped).

(** [Command::spawn]: a pipe for exactly the piped slots. *)
Class Spawner (W : Type) := {
  os_spawn : Command → W → result SpawnedChild io_error * W;
  spawn_pipes cmd w child w' :
    os_spawn cmd w = (Ok child, w') →
    ch_stdin child = (if piped (cmd_stdin cmd) then Some () else None) ∧
    ch_stdout child = (if piped (cmd_stdout cmd) then Some () else None) ∧
    ch_stderr child = (if piped (cmd_stderr cmd) then Some () else None);
}.

Definition prepare_command (c : Command) : Command :=
  mkCommand (get_program c) (get_args c) (get_envs c) (get_current_dir c) (Some 0)
    (cmd_creation_flags c) (cmd_stdin c) (cmd_stdout c) (cmd_stderr c) (cmd_kill_on_drop c).

Definition with_stdio (c : Command) (stdout stderr : Stdio) : Command :=
  mkCommand (get_program c) (get_args c) (get_envs c) (get_current_dir c) (cmd_process_group c)
    (cmd_creation_flags c) (Some Piped) (Some stdout) (Some stderr) false.

(** On Unix wrapping the child cannot fail. *)
Definition from_spawned_child (c : SpawnedChild) : result SpawnedChild io_error := Ok c.

(** The pipes are taken out of the leader. *)
Definition take_stdin (c : SpawnedChild) : option unit * SpawnedChild :=
  (ch_stdin c, mkChild None (ch_stdout c) (ch_stderr c)).
Definition take_stdout (c : SpawnedChild) : option unit * SpawnedChild :=
  (ch_stdout c, mkChild (ch_stdin c) None (ch_stderr c)).
Definition take_stderr (c : SpawnedChild) : option unit * SpawnedChild :=
  (ch_stderr c, mkChild (ch_stdin c) (ch_stdout c) None).

Definition STDOUT_STREAM_NAME : String.string := "stdout".
Definition STDERR_STREAM_NAME : String.string := "stderr".

Section spawn.
Context {W C1 X1 C2 X2 : Type} `{Spawner W, ProcessStreamConfig C1 X1, ProcessStreamConfig C2 X2}.

(** The handle over a child that is in its group. *)
Definition handle_of_child (name : String.string) (stdout_config : C1) (stderr_config : C2) (child : SpawnedChild)
    : outcome (ProcessHandle X1 X2) :=
  let '(stdin, child) := take_stdin child in
  let stdin := match stdin with Some _ => StdinOpen | None => StdinClosed end in
  let '(stdout, child) := take_stdout child in
  let '(stderr, child) := take_stderr child in
  std_out ← into_stream stdout_config stdout STDOUT_STREAM_NAME;
  std_err ← into_stream stderr_config stderr STDERR_STREAM_NAME;
  mret (mkHandle name stdin std_out std_err new_armed_drop_mode).

Definition spawn_with_stream_configs (name : String.string) (cmd : Command) (stdout_config : C1)
    (stderr_config : C2) (w : W) : outcome (result (ProcessHandle X1 X2) SpawnError * W) :=
  let cmd := with_stdio (prepare_command cmd) (child_stdio stdout_config) (child_stdio stderr_config) in
  match os_spawn cmd w with
  | (Err source, w) => mret (Err (SpawnFailed name source), w)
  | (Ok child, w) =>
      group ← expect (match from_spawned_child child with Ok g => Some g | Err _ => None end);
      h ← handle_of_child name stdout_config stderr_config group;
      mret (Ok h, w)
  end.

End spawn.

(** ** The process builder *)

Inductive Unnamed : Type := mkUnnamed.
Inductive Unset : Type := mkUnset.
Record Named : Type := mkNamed { np_name : ProcessName }.

Record ProcessBuilder (NameState C1 C2 : Type) : Type := mkProcessBuilder {
  pb_cmd : Command; name_state : NameState; stdout_config : C1; stderr_config : C2 }.
Arguments mkProcessBuilder {NameState C1 C2}.
Arguments pb_cmd {NameState C1 C2}.
Arguments name_state {NameState C1 C2}.
Arguments stdout_config {NameState C1 C2}.
Arguments stderr_config {NameState C1 C2}.

Module ProcessStages.

Definition new (cmd : Command) : ProcessBuilder Unnamed Unset Unset :=
  mkProcessBuilder cmd mkUnnamed mkUnset mkUnset.

Definition name (p : ProcessBuilder Unnamed Unset Unset) (n : ProcessName)
    : ProcessBuilder Named Unset Unset := mkProcessBuilder (pb_cmd p) (mkNamed n) mkUnset mkUnset.

Section stages.
Context {C1 C2 : Type}.

(** The closures that configure a stream may panic. *)
Definition stdout_and_stderr (p : ProcessBuilder Named Unset Unset)
    (configure : ProcessStreamBuilder → outcome C1) : outcome (ProcessBuilder Named C1 C1) :=
  c ← configure mkProcessStreamBuilder; mret (mkProcessBuilder (pb_cmd p) (name_state p) c c).

(** The first of the two slots to be configured: the other one stays unset. *)
Definition stdout_first (p : ProcessBuilder Named Unset Unset) (configure : ProcessStreamBuilder → outcome C1)
    : outcome (ProcessBuilder Named C1 Unset) :=
  c ← configure mkProcessStreamBuilder; mret (mkProcessBuilder (pb_cmd p) (name_state p) c mkUnset).
Definition stderr_first (p : ProcessBuilder Named Unset Unset) (configure : ProcessStreamBuilder → outcome C2)
    : outcome (ProcessBuilder Named Unset C2) :=
  c ← configure mkProcessStreamBuilder; mret (mkProcessBuilder (pb_cmd p) (name_state p) mkUnset c).

(** The second: the first is kept. *)
Definition stdout (p : ProcessBuilder Named Unset C2) (configure : ProcessStreamBuilder → outcome C1)
    : outcome (ProcessBuilder Named C1 C2) :=
  c ← configure mkProcessStreamBuilder; mret (mkProcessBuilder (pb_cmd p) (name_state p) c (stderr_config p)).
Definition stderr (p : ProcessBuilder Named C1 Unset) (configure : ProcessStreamBuilder → outcome C2)
    : outcome (ProcessBuilder Named C1 C2) :=
  c ← configure mkProcessStreamBuilder; mret (mkProcessBuilder (pb_cmd p) (name_state p) (stdout_config p) c).

Definition spawn {W X1 X2} `{Spawner W, ProcessStreamConfig C1 X1, ProcessStreamConfig C2 X2}
    (debug_command : Command → str) (p : ProcessBuilder Named C1 C2) (w : W)
    : outcome (result (ProcessHandle X1 X2) SpawnError * W) :=
  let n := generate_name debug_command (np_name (name_state p)) (pb_cmd p) in
  spawn_with_stream_configs (String.string_of_list_byte n) (pb_cmd p) (stdout_config p) (stderr_config p) w.

End stages.
End ProcessStages.

(** The two orders in which the slots can be configured give the same builder. *)
Lemma stages_commute {C1 C2} p (f : ProcessStreamBuilder → outcome C1) (g : ProcessStreamBuilder → outcome C2) :
  (q ← ProcessStages.stdout_first p f; ProcessStages.stderr q g) =
  (q ← ProcessStages.stderr_first p g; ProcessStages.stdout q f).
Proof.
  unfold ProcessStages.stdout_first, ProcessStages.stderr_first, ProcessStages.stdout, ProcessStages.stderr.
  by destruct (f mkProcessStreamBuilder), (g mkProcessStreamBuilder).
Qed.

(** ** A spawned handle *)

(** What a configuration promises to the spawn: given a pipe exactly if it asked
    for one, a configuration that its backend can open becomes a stream. *)
Class ConfigLaws (Config Stream : Type) `{ProcessStreamConfig Config Stream} := {
  openable : Config → Prop;
  into_stream_total c name : openable c →
    ∃ x, into_stream c (if bool_decide (child_stdio c = Piped) then Some () else None) name = Done x;
}.

(** The options are valid ([assert_valid]); where they select the fast path, its
    channel must also be able to hold the buffer, which the crate does not check
    ([oversized_buffer_orphans_child]). *)
#[export, refine] Instance broadcast_config_laws {B M D R}
    `{TokioBroadcastLaws B StreamEvent, Mpsc M IndexedEvent, Delivery D, Replay R} :
    ConfigLaws (PipedStreamConfig BroadcastBackend (Builder.StreamConfigReadyBuilder D R)) (BroadcastOutputStream B M D R) := {|
  openable c :=
    assert_valid (Builder.build (stage c)) = Done () ∧
    (takes_fast_path (Builder.build (stage c)) →
     max_buffered_chunks (Builder.build (stage c)) ≤ BROADCAST_MAX_CAPACITY);
|}.
Proof. intros c name [Hv Hb]. cbn. by apply from_stream_total. Defined.

#[export, refine] Instance single_config_laws {M D R} `{Mpsc M StreamEvent, Delivery D, Replay R} :
    ConfigLaws (PipedStreamConfig SingleSubscriberBackend (Builder.StreamConfigReadyBuilder D R)) (SingleSubscriberOutputStream M D R) := {|
  openable c := assert_valid (Builder.build (stage c)) = Done ();
|}.
Proof. intros c name Hv. cbn. unfold single_from_stream. rewrite Hv. cbn. eauto. Defined.

#[export, refine] Instance discarded_config_laws : ConfigLaws DiscardedStreamConfig DiscardedOutputStream := {|
  openable _ := True;
|}.
Proof. intros c name _. cbn. eauto. Defined.

Section spawned.
Context {W C1 X1 C2 X2 : Type} `{Spawner W}.
Context `{Hc1 : ProcessStreamConfig C1 X1, !ConfigLaws C1 X1, Hc2 : ProcessStreamConfig C2 X2, !ConfigLaws C2 X2}.

(** The pipes of a spawned child make a handle. *)
Lemma handle_of_child_armed name cmd (c1 : C1) (c2 : C2) (w w' : W) child :
  openable c1 → openable c2 →
  os_spawn (with_stdio cmd (child_stdio c1) (child_stdio c2)) w = (Ok child, w') →
  ∃ h, handle_of_child name c1 c2 child = Done h ∧ h_name h = name ∧ std_in h = StdinOpen ∧ is_drop_armed h = true.
Proof.
  intros Hv1 Hv2 (Hin & Hout & Herr)%spawn_pipes. unfold handle_of_child, take_stdin, take_stdout, take_stderr.
  cbn [ch_stdin ch_stdout ch_stderr]. cbn in Hin. rewrite Hin, Hout, Herr. unfold piped. cbn [cmd_stdout cmd_stderr with_stdio].
  destruct (into_stream_total c1 STDOUT_STREAM_NAME Hv1) as [x1 Hx1].
  destruct (into_stream_total c2 STDERR_STREAM_NAME Hv2) as [x2 Hx2].
  rewrite !(bool_decide_ext _ _ (inj_iff Some _ Piped)), Hx1. cbn [mbind outcome_bind]. rewrite Hx2. cbn.
  eexists. split; [reflexivity|done].
Qed.

(** C38: spawning never panics (Unix), provided both stream configurations can be
    opened: their options pass the crate's validation and, for a broadcast
    stream on the fast path (lossy, no replay), the buffer is not larger than
    the largest its channel can have, which the validation does not check.  The
    child is the leader of its own process group, is not killed by the runtime
    on drop, and has a piped stdin and the slots its streams ask for; it runs
    the command as given.  If the system refuses, the error carries the process
    name; otherwise the handle has that name, an open stdin, and is armed. *)
Theorem spawn_armed debug_command (p : ProcessBuilder Named C1 C2) (w : W) :
  openable (stdout_config p) → openable (stderr_config p) →
  ∃ cmd, get_program cmd = get_program (pb_cmd p) ∧ get_args cmd = get_args (pb_cmd p) ∧
    get_envs cmd = get_envs (pb_cmd p) ∧ get_current_dir cmd = get_current_dir (pb_cmd p) ∧
    cmd_process_group cmd = Some 0 ∧ cmd_kill_on_drop cmd = false ∧ cmd_stdin cmd = Some Piped ∧
    cmd_stdout cmd = Some (child_stdio (stdout_config p)) ∧
    cmd_stderr cmd = Some (child_stdio (stderr_config p)) ∧
    let name := String.string_of_list_byte (generate_name debug_command (np_name (name_state p)) (pb_cmd p)) in
    match os_spawn cmd w with
    | (Err e, w') => ProcessStages.spawn debug_command p w = Done (Err (SpawnFailed name e), w')
    | (Ok _, w') => ∃ h : ProcessHandle X1 X2, ProcessStages.spawn debug_command p w = Done (Ok h, w') ∧
        h_name h = name ∧ std_in h = StdinOpen ∧ is_drop_armed h = true
    end.
Proof.
  intros Hv1 Hv2.
  exists (with_stdio (prepare_command (pb_cmd p)) (child_stdio (stdout_config p)) (child_stdio (stderr_config p))).
  do 9 (split; [reflexivity|]). intros name. unfold ProcessStages.spawn, spawn_with_stream_configs.
  destruct (os_spawn _ w) as [[child|e] w'] eqn:Hs; [|reflexivity].
  destruct (handle_of_child_armed name _ _ _ _ _ _ Hv1 Hv2 Hs) as (h & Hh & ? & ? & ?). exists h.
  cbn [mbind outcome_bind expect from_spawned_child]. fold name. by rewrite Hh.
Qed.

End spawned.

(** ** Example *)

Module SpawnDemo.

#[global, refine] Instance unit_spawner : Spawner unit := {|
  os_spawn cmd w :=
    let pipe s := if piped s then Some () else None in
    (Ok (mkChild (pipe (cmd_stdin cmd)) (pipe (cmd_stdout cmd)) (pipe (cmd_stderr cmd))), w);
|}.
Proof. intros cmd w child w' [= <- <-]. done. Defined.

(** Stdout broadcast with replay, stderr discarded. *)
Definition stdout_stage : StreamConfig ReliableWithBackpressure ReplayEnabled :=
  mkStreamConfig DEFAULT_READ_CHUNK_SIZE 4 Reliable (mkReplayEnabled All).

Definition process : ProcessBuilder Named (PipedStreamConfig BroadcastBackend
    (Builder.StreamConfigReadyBuilder ReliableWithBackpressure ReplayEnabled)) DiscardedStreamConfig :=
  mkProcessBuilder (command_new (bytes_of "ls")) (mkNamed ProcessName_default)
    (mkPiped (Builder.mkReadyStage stdout_stage))
    mkDiscardedConfig.

(** The chain of builder calls gives this builder. *)
Example process_built :
  (let cfg b :=
     s ← StreamBuilder.replay_all (StreamBuilder.reliable_with_backpressure (StreamBuilder.broadcast b));
     s ← StreamBuilder.set_read_chunk_size s DEFAULT_READ_CHUNK_SIZE;
     StreamBuilder.set_max_buffered_chunks s 4 in
   p ← ProcessStages.stdout_first (ProcessStages.name (ProcessStages.new (command_new (bytes_of "ls")))
         ProcessName_default) cfg;
   ProcessStages.stderr p (λ b, mret (StreamBuilder.discard b))) = Done process.
Proof. reflexivity. Qed.

Definition debug (_ : Command) : str := [].

End SpawnDemo.

Lemma spawn_armed_witness :
  ∃ (h : ProcessHandle (BroadcastOutputStream (ref_broadcast StreamEvent) (ref_mpsc IndexedEvent)
           ReliableWithBackpressure ReplayEnabled) DiscardedOutputStream),
    ProcessStages.spawn SpawnDemo.debug SpawnDemo.process () = Done (Ok h, ()) ∧
    h_name h = "ls"%string ∧ std_in h = StdinOpen ∧ is_drop_armed h = true.
Proof.
  destruct (spawn_armed (X1 := BroadcastOutputStream (ref_broadcast StreamEvent) (ref_mpsc IndexedEvent)
      ReliableWithBackpressure ReplayEnabled) (Hc1 := broadcast_config)
    SpawnDemo.debug SpawnDemo.process () ltac:(refine (conj eq_refl _); vm_compute; discriminate) ltac:(exact I))
    as (cmd & _ & _ & _ & _ & _ & _ & _ & _ & _ & Hs).
  destruct (os_spawn cmd ()) as [[child|e] w'] eqn:Heq; [|discriminate Heq].
  destruct w'. exact Hs.
Defined.

(** A buffer above the limit of tokio's channel passes the checks of the builder,
    and opening the fast path with it panics only after the child was started:
    the child then runs without a handle. *)
Lemma oversized_buffer_orphans_child {W B M C2 X2} `{Spawner W, TokioBroadcastLaws B StreamEvent, Mpsc M IndexedEvent}
    `{ProcessStreamConfig C2 X2} name cmd n m (c2 : C2) (w w' : W) child :
  bytes n ≠ 0 → BROADCAST_MAX_CAPACITY < m →
  let config := mkStreamConfig n m Lossy NoReplayMarker in
  let c1 := mkPiped (Backend := BroadcastBackend) (Builder.mkReadyStage config) in
  assert_valid config = Done () ∧
  (os_spawn (with_stdio (prepare_command cmd) Piped (child_stdio c2)) w = (Ok child, w') →
     spawn_with_stream_configs (X1 := BroadcastOutputStream B M LossyWithoutBackpressure NoReplay)
       name cmd c1 c2 w = Panic).
Proof.
  intros Hn Hm config c1. assert (assert_valid config = Done ()) as Hv.
  { apply assert_valid_sizes. cbn. split_and!; [done|lia|done]. }
  split; [done|]. intros Hs. pose proof (spawn_pipes _ _ _ _ Hs) as (_ & Hout & _). cbn in Hout.
  unfold spawn_with_stream_configs. cbn [child_stdio broadcast_config]. rewrite Hs. cbn [mbind outcome_bind expect from_spawned_child].
  unfold handle_of_child, take_stdin, take_stdout. cbn [ch_stdin ch_stdout ch_stderr]. rewrite Hout. cbn. unfold from_stream. cbn [stage Builder.build Builder.ready_config]. fold config. rewrite Hv. cbn.
  unfold new_fast_backend. pose proof (bc_channel_spec (B := B) (E := StreamEvent) m) as Hc.
  rewrite (proj2 (N.leb_gt _ _) Hm), andb_false_r in Hc. by rewrite Hc.
Qed.
