(* ===== verification/Windows.v ===== *)
(** * Windows

    Models the Windows half of [src/process_handle/group/mod.rs] and
    [src/process_handle/group/job_object.rs]: the job object that owns a kernel
    handle, [from_spawned_child], [send_ctrl_break], [send_kill] and
    [into_leader]; and that of [termination/mod.rs] and [signal.rs]:
    [terminate] and [send_ctrl_break_signal], which run the common code of
    [Process] on the Windows platform; and that of [spawn.rs].

    The Win32 calls are the class [Win32] over Tokio's [Child]; its laws say
    which handles a call opens or closes and what it asks the system to do to
    the processes.  What the calls report is left open, so the theorems hold
    whichever of them fails; every request is kept with its answer, so that a
    refused kill is not taken for a kill. *)

From S2P Require Import Prelude Time Stream Errors Shutdown Process Termination Cleanup TerminateOnDrop Naming Spawn.

Abbreviation HANDLE := N (only parsing).

(** What the system can be asked to do to the child's processes. *)
Inductive effect : Type :=
| Attach (job : HANDLE) (pid : N)
| KillTree (job : HANDLE) (exit_code : N)
| KillLeader
| CtrlBreak (pid : N).

#[export] Instance effect_eq_dec : EqDecision effect.
Proof. solve_decision. Defined.

Class Win32 (W : Type) := {
  win_child : Child W;
  (** [Child::start_kill]. *)
  win_start_kill : W → result unit io_error * W;
  (** A null handle is [None], a zero result [false]. *)
  CreateJobObjectW : W → option HANDLE * W;
  OpenProcess : N → W → option HANDLE * W;
  AssignProcessToJobObject : HANDLE → HANDLE → W → bool * W;
  TerminateJobObject : HANDLE → N → W → bool * W;
  CloseHandle : HANDLE → W → W;
  GenerateConsoleCtrlEvent : N → W → bool * W;
  last_os_error : W → io_error;
  open_handles : W → gset HANDLE;
  (** The process behind a process handle. *)
  process_of : W → HANDLE → option N;
  (** The requests so far, each with whether the system carried it out. *)
  effects : W → list (effect * bool);
}.
#[export] Existing Instance win_child | 10.

(** The handles and the effects on processes. *)
Definition win_view {W} `{Win32 W} (w : W) : gset HANDLE * list (effect * bool) * option N :=
  (open_handles w, effects w, os_id w).

Definition opened {W} `{Win32 W} (w : W) (r : option HANDLE * W) : Prop :=
  match r.1 with
  | Some h => (h ∉ open_handles w) ∧ win_view r.2 = (({[h]} ∪ open_handles w), effects w, os_id w)
  | None => win_view r.2 = win_view w
  end.

Class Win32Laws (W : Type) `{Win32 W} : Prop := {
  create_job_spec w : opened w (CreateJobObjectW w);
  open_process_spec p w :
    opened w (OpenProcess p w) ∧ ∀ h, (OpenProcess p w).1 = Some h → process_of (OpenProcess p w).2 h = Some p;
  assign_spec j h w :
    win_view (AssignProcessToJobObject j h w).2 =
      (open_handles w,
       effects w ++ match process_of w h with
                    | Some p => [(Attach j p, (AssignProcessToJobObject j h w).1)]
                    | None => []
                    end, os_id w);
  (** No kill-on-close: closing a job's handle leaves its processes alone. *)
  close_spec h w : win_view (CloseHandle h w) = (open_handles w ∖ {[h]}, effects w, os_id w);
  terminate_job_spec j c w :
    win_view (TerminateJobObject j c w).2 =
      (open_handles w, effects w ++ [(KillTree j c, (TerminateJobObject j c w).1)], os_id w);
  start_kill_spec w :
    win_view (win_start_kill w).2 =
      (open_handles w, effects w ++ [(KillLeader, is_ok (win_start_kill w).1)], os_id w);
  ctrl_break_spec p w :
    win_view (GenerateConsoleCtrlEvent p w).2 =
      (open_handles w, effects w ++ [(CtrlBreak p, (GenerateConsoleCtrlEvent p w).1)], os_id w);
  (** Waiting asks for nothing. *)
  try_wait_effects w : effects (os_try_wait w).2 = effects w;
  wait_effects d w : effects (os_wait d w).2 = effects w;
}.

(** ** The job object *)

Record JobObject : Type := mkJob { job_handle : HANDLE }.

Definition no_pid_error : io_error :=
  mkIoError Other "child has no PID; it was already polled to completion".

Section windows.
Context {W : Type} `{Win32 W}.
Implicit Types w : W.

Definition new_with_child w : result JobObject io_error * W :=
  match os_id w with
  | None => (Err no_pid_error, w)
  | Some pid =>
      match CreateJobObjectW w with
      | (None, w) => (Err (last_os_error w), w)
      | (Some job, w) =>
          match OpenProcess pid w with
          | (None, w) => (Err (last_os_error w), CloseHandle job w)
          | (Some proc_handle, w) =>
              let '(assigned, w) := AssignProcessToJobObject job proc_handle w in
              let w := CloseHandle proc_handle w in
              if assigned : bool then (Ok (mkJob job), w)
              else (Err (last_os_error w), CloseHandle job w)
          end
      end
  end.

Definition job_terminate (j : JobObject) (exit_code : N) w : result unit io_error * W :=
  match TerminateJobObject (job_handle j) exit_code w with
  | (true, w) => (Ok (), w)
  | (false, w) => (Err (last_os_error w), w)
  end.

Definition job_drop (j : JobObject) w : W := CloseHandle (job_handle j) w.

(** ** The group *)

Record ProcessGroup : Type := mkGroup { group_job : option JobObject }.

(** A child that cannot be attached to a job is killed before the error is
    returned. *)
Definition from_spawned_child w : result ProcessGroup io_error * W :=
  match os_id w with
  | None => (Ok (mkGroup None), w)
  | Some _ =>
      match new_with_child w with
      | (Ok job, w) => (Ok (mkGroup (Some job)), w)
      | (Err source, w) => (Err source, (win_start_kill w).2)
      end
  end.

Definition send_ctrl_break (g : ProcessGroup) w : result unit io_error * W :=
  match os_id w with
  | None => (Ok (), w)
  | Some pid =>
      match GenerateConsoleCtrlEvent pid w with
      | (true, w) => (Ok (), w)
      | (false, w) => (Err (last_os_error w), w)
      end
  end.

Definition send_kill (g : ProcessGroup) w : result unit io_error * W :=
  match os_id w with
  | None => (Ok (), w)
  | Some _ =>
      match group_job g with
      | Some job => job_terminate job 1 w
      | None => win_start_kill w
      end
  end.

(** The group's fields but the leader are dropped. *)
Definition into_leader (g : ProcessGroup) w : W :=
  match group_job g with Some job => job_drop job w | None => w end.

End windows.

(** ** Ownership *)

Section ownership.
Context {W : Type} `{Win32Laws W}.
Implicit Types w : W.

(** Opening a handle and closing it again. *)
Lemma close_opened h (hs : gset HANDLE) : h ∉ hs → ({[h]} ∪ hs) ∖ {[h]} = hs.
Proof. intros Hh. rewrite difference_union_distr_l_L, difference_diag_L, (left_id_L ∅ (∪)). apply difference_disjoint_L. set_solver. Qed.

(** What was asked for on the way to a job: the attaching of the child, which
    succeeded if there is a job; before that point nothing. *)
Definition attach_tried (p : N) (r : result JobObject io_error) (tried : list (effect * bool)) : Prop :=
  match r with
  | Ok j => tried = [(Attach (job_handle j) p, true)]
  | Err _ => tried = [] ∨ ∃ job, tried = [(Attach job p, false)]
  end.

(** The job object is the only handle left open, and only on success. *)
Lemma new_with_child_view p w r w' :
  os_id w = Some p → new_with_child w = (r, w') →
  ∃ tried, attach_tried p r tried ∧
    win_view w' = (match r with Ok j => ({[job_handle j]} ∪ open_handles w) | Err _ => open_handles w end,
                   effects w ++ tried, os_id w) ∧
    match r with Ok j => job_handle j ∉ open_handles w | Err _ => True end.
Proof.
  intros Hid. unfold new_with_child. rewrite Hid.
  pose proof (create_job_spec w) as Hc. unfold opened in Hc.
  destruct (CreateJobObjectW w) as [[job|] w1]; cbn in Hc.
  2: { intros [= <- <-]. exists []. rewrite Hc, app_nil_r, <- Hid. split; [by left|done]. }
  destruct Hc as [Hfresh Hc]. unfold win_view in Hc. injection Hc as Hh1 He1 Hi1.
  destruct (open_process_spec p w1) as [Ho Hproc]. unfold opened in Ho.
  destruct (OpenProcess p w1) as [[h|] w2]; cbn in Ho, Hproc.
  2: { unfold win_view in Ho. injection Ho as Hh2 He2 Hi2. intros [= <- <-]. exists []. split; [by left|].
       rewrite close_spec, Hh2, He2, Hi2, Hh1, He1, Hi1, close_opened, Hid, app_nil_r by done. done. }
  destruct Ho as [Hp Ho]. unfold win_view in Ho. injection Ho as Hh2 He2 Hi2.
  pose proof (assign_spec job h w2) as Ha. rewrite (Hproc h eq_refl) in Ha.
  destruct (AssignProcessToJobObject job h w2) as [assigned w3]. cbn in Ha.
  unfold win_view in Ha. injection Ha as Hh3 He3 Hi3.
  pose proof (close_spec h w3) as Hcl. unfold win_view in Hcl. injection Hcl as Hh4 He4 Hi4.
  rewrite Hh3, Hh2, close_opened in Hh4 by done.
  destruct assigned; intros [= <- <-]; eexists.
  - split; [reflexivity|]. split; [|done]. unfold win_view. cbn. congruence.
  - split; [right; by exists job|]. split; [|done].
    rewrite close_spec, Hh4, Hh1, close_opened by done. congruence.
Qed.

Lemma start_kill_view w :
  open_handles (win_start_kill w).2 = open_handles w ∧
  effects (win_start_kill w).2 = effects w ++ [(KillLeader, is_ok (win_start_kill w).1)].
Proof. pose proof (start_kill_spec w) as Hk. unfold win_view in Hk. injection Hk as Hk1 Hk2 _. done. Qed.

(** Killing a group terminates its job, with exit code 1. *)
Lemma send_kill_job g j u :
  group_job g = Some j → is_Some (os_id u) →
  effects (send_kill g u).2 = effects u ++ [(KillTree (job_handle j) 1, is_ok (send_kill g u).1)] ∧
  os_id (send_kill g u).2 = os_id u.
Proof.
  intros Hj [p Hp]. unfold send_kill, job_terminate. rewrite Hp, Hj.
  pose proof (terminate_job_spec (job_handle j) 1 u) as Ht. unfold win_view in Ht.
  destruct (TerminateJobObject (job_handle j) 1 u) as [[] u']; cbn in *; injection Ht as _ -> ->; by rewrite Hp.
Qed.

(** C26: a spawned child is put into a job object that the group owns, or its
    death is asked for, and no kernel handle is lost, whichever system call
    fails (Windows).  On success a live child was attached to a new job, whose
    handle is the only one left open; killing the group asks for the
    termination of that job with exit code 1, and handing the child back to the
    caller closes the handle and asks for nothing.  On an error the child is in
    no job, every handle opened on the way is closed again, and [start_kill]
    was called on the child as the last thing (best effort: the system may
    refuse it, and then the child may be left running). *)
Theorem windows_group_ownership (w : W) r w' :
  from_spawned_child w = (r, w') →
  match r with
  | Err _ =>
      open_handles w' = open_handles w ∧
      ∃ p tried killed, os_id w = Some p ∧ (tried = [] ∨ ∃ job, tried = [(Attach job p, false)]) ∧
        effects w' = effects w ++ tried ++ [(KillLeader, killed)]
  | Ok g =>
      (∀ u, open_handles u = open_handles w' →
         open_handles (into_leader g u) = open_handles w ∧ effects (into_leader g u) = effects u) ∧
      match os_id w with
      | None => group_job g = None ∧ w' = w
      | Some p => ∃ j, group_job g = Some j ∧ (job_handle j ∉ open_handles w) ∧
          open_handles w' = {[job_handle j]} ∪ open_handles w ∧
          effects w' = effects w ++ [(Attach (job_handle j) p, true)] ∧
          ∀ u, is_Some (os_id u) →
            effects (send_kill g u).2 = effects u ++ [(KillTree (job_handle j) 1, is_ok (send_kill g u).1)]
      end
  end.
Proof.
  unfold from_spawned_child. destruct (os_id w) as [p|] eqn:Hid; [|by intros [= <- <-]].
  destruct (new_with_child w) as [[j|e] w1] eqn:Hn;
    destruct (new_with_child_view p w _ _ Hid Hn) as (tried & Ht & Hv & Hj); cbn in Ht;
    unfold win_view in Hv; injection Hv as Hh He _; intros [= <- <-].
  - subst tried. split.
    + intros u Hu. unfold into_leader, job_drop. cbn. pose proof (close_spec (job_handle j) u) as Hc.
      unfold win_view in Hc. injection Hc as Hc1 Hc2 _. rewrite Hc1, Hc2, Hu, Hh, close_opened by done. done.
    + exists j. split_and!; [done..|]. intros u Hu. by apply send_kill_job.
  - destruct (start_kill_view w1) as [Hk1 Hk2]. split; [congruence|].
    eexists p, tried, _. split_and!; [done..|]. by rewrite Hk2, He, app_assoc.
Qed.

(** The console event goes to the child's group, once, and only while the child
    has not been reaped. *)
Lemma send_ctrl_break_effect g w r w' :
  send_ctrl_break g w = (r, w') → open_handles w' = open_handles w ∧
  effects w' = effects w ++
    match os_id w with Some p => [(CtrlBreak p, is_ok r)] | None => [] end.
Proof.
  unfold send_ctrl_break. destruct (os_id w) as [p|].
  2: { intros [= <- <-]. by rewrite app_nil_r. }
  pose proof (ctrl_break_spec p w) as Hc. unfold win_view in Hc.
  destruct (GenerateConsoleCtrlEvent p w) as [[] u]; cbn in Hc; injection Hc as Hc1 Hc2 _; by intros [= <- <-].
Qed.

End ownership.

(** ** Termination *)

(** The group's [send_ctrl_break], as the handle's operations reach it. *)
Class Console (W : Type) := { console_break : W → result unit io_error * W }.

(** Sending the event does not reap the child. *)
Class ConsoleLaws (W : Type) `{Child W, Console W} : Prop := {
  console_id w : os_id (console_break w).2 = os_id w;
}.

(** A handle on Windows works on the group and the system behind it. *)
Section group_world.
Context {W : Type} `{Win32 W}.

Definition within (g : ProcessGroup) {A} (r : A * W) : A * (ProcessGroup * W) := (r.1, (g, r.2)).

#[export] Instance group_child : Child (ProcessGroup * W) := {|
  os_id '(_, w) := os_id w;
  os_try_wait '(g, w) := within g (os_try_wait w);
  os_wait d '(g, w) := within g (os_wait d w);
  os_wait_unbounded '(g, w) := within g (os_wait_unbounded w);
|}.

#[export] Instance windows_platform : Platform (ProcessGroup * W) := {|
  KILL_LABEL := "TerminateProcess";
  platform_kill '(g, w) := within g (send_kill g w);
|}.

#[export] Instance windows_console : Console (ProcessGroup * W) := {|
  console_break '(g, w) := within g (send_ctrl_break g w);
|}.

End group_world.

#[export] Instance group_child_laws {W} `{Win32 W} `{!ChildLaws W} : ChildLaws (ProcessGroup * W).
Proof.
  split.
  - intros [g w] r [g' w']. cbn. unfold within. destruct (os_try_wait w) as [r0 w0] eqn:Hw.
    intros [= <- <- <-]. by apply try_wait_id.
  - intros d [g w] r [g' w']. cbn. unfold within. destruct (os_wait d w) as [r0 w0] eqn:Hw.
    intros [= <- <- <-]. by apply (wait_id d).
Qed.

#[export] Instance group_console_laws {W} `{Win32Laws W} : ConsoleLaws (ProcessGroup * W).
Proof.
  split. intros [g w]. cbn. unfold send_ctrl_break. destruct (os_id w) as [p|] eqn:Hp; [|done].
  pose proof (ctrl_break_spec p w) as Hc. unfold win_view in Hc.
  destruct (GenerateConsoleCtrlEvent p w) as [[] u]; cbn in *; injection Hc as _ _ ->; done.
Qed.

Section terminate.
Context {W Stdout Stderr : Type} `{Child W} `{Platform W} `{Console W}.

Abbreviation act := (act (W := W) (Stdout := Stdout) (Stderr := Stderr)).

Definition ctrl_break : act (result unit io_error) := on_os console_break.

(** A single graceful step. *)
Definition windows_terminate_with_hooks (sequence : WindowsGracefulShutdown)
    (reap : act (result (option ExitStatus) io_error)) (send : act (result unit io_error))
    : act (result ExitStatus TerminationError) :=
  run_termination_loop [mkStep "CTRL_BREAK_EVENT" (windows_timeout sequence)] reap (λ _ _, send).

Definition windows_terminate (s : OnWindows.GracefulShutdown) : act (result ExitStatus TerminationError) :=
  windows_terminate_with_hooks (OnWindows.windows s) try_reap_exit_status ctrl_break.

Definition send_ctrl_break_signal : act (result unit TerminationError) :=
  send_signal_with_reaper "CTRL_BREAK_EVENT" ctrl_break try_reap_exit_status.

End terminate.

#[export] Instance windows_graceful {W} `{Child W, Platform W, Console W}
    : Graceful W OnWindows.GracefulShutdown := {| graceful_terminate _ _ := windows_terminate |}.

(** *** The calls a termination makes

    The target of an event or of a kill is the child's id at that time: once
    the child was reaped there is none, and the call does nothing. *)

Inductive wcall : Type :=
| WTryWait (r : result (option ExitStatus) io_error)
| WWait (d : Duration) (r : option (result ExitStatus io_error))
| WWaitUnbounded (r : result ExitStatus io_error)
| WCtrlBreak (target : option N) (r : result unit io_error)
| WKill (target : option N) (r : result unit io_error).

Record traced (W : Type) : Type := mkTraced { base : W; trace : list wcall }.
Arguments mkTraced {W}.
Arguments base {W}.
Arguments trace {W}.

Definition traced_call {W A} (f : A → wcall) (w : traced W) (r : A * W) : A * traced W :=
  (r.1, mkTraced r.2 (trace w ++ [f r.1])).

#[export] Instance traced_child {W} `{Child W} : Child (traced W) := {|
  os_id w := os_id (base w);
  os_try_wait w := traced_call WTryWait w (os_try_wait (base w));
  os_wait d w := traced_call (WWait d) w (os_wait d (base w));
  os_wait_unbounded w := traced_call WWaitUnbounded w (os_wait_unbounded (base w));
|}.

#[export] Instance traced_platform {W} `{Child W, Platform W} : Platform (traced W) := {|
  KILL_LABEL := KILL_LABEL (W := W);
  platform_kill w := traced_call (WKill (os_id (base w))) w (platform_kill (base w));
|}.

#[export] Instance traced_console {W} `{Child W, Console W} : Console (traced W) := {|
  console_break w := traced_call (WCtrlBreak (os_id (base w))) w (console_break (base w));
|}.

#[export] Instance traced_child_laws {W} `{ChildLaws W} : ChildLaws (traced W).
Proof.
  split.
  - intros [w tr] r w'. cbn. unfold traced_call. destruct (os_try_wait w) as [r0 w0] eqn:Hw.
    intros [= <- <-]. by apply try_wait_id.
  - intros d [w tr] r w'. cbn. unfold traced_call. destruct (os_wait d w) as [r0 w0] eqn:Hw.
    intros [= <- <-]. by apply (wait_id d).
Qed.

(** The two-phase protocol of the documentation: one [CTRL_BREAK_EVENT], its
    wait, and only then the forceful kill and its wait. *)
Inductive win_terminates (p : option N) (timeout : Duration) : list wcall → option ExitStatus → Prop :=
| wt_gone st : win_terminates p timeout [WTryWait (Ok (Some st))] (Some st)
| wt_graceful pre sent st :
    not_reaped pre →
    win_terminates p timeout
      [WTryWait pre; WCtrlBreak p sent; WWait (wait_after sent timeout) (Some (Ok st))] (Some st)
| wt_killed pre sent r killed a :
    not_reaped pre → not_exited r →
    win_terminates p timeout
      [WTryWait pre; WCtrlBreak p sent; WWait (wait_after sent timeout) r;
       WKill p killed; WWait (wait_after killed FORCE_KILL_WAIT_TIMEOUT) a] (exit_of a).

Section protocol.
Context {W Stdout Stderr : Type} `{ChildLaws W, Platform W, !Console W, !ConsoleLaws W}.
Implicit Types (h : ProcessHandle Stdout Stderr) (w : traced W).

Lemma win_escalate_run timeout send d h w sent w1 label :
  send (h, w) = Done (sent, (h, w1)) → os_id w1 = os_id w → trace w1 = trace w ++ [WCtrlBreak (os_id w) sent] →
  ∃ r h' w' a, escalate [mkStep label timeout] (λ _ _, send) d (h, w) = Done (r, (h', w')) ∧
    (∀ pre, not_reaped pre → ∃ cs, trace w' = trace w ++ cs ∧ win_terminates (os_id w) timeout (WTryWait pre :: cs) (ok_value r)) ∧
    (exit_of a = None → drop_mode h' = drop_mode h) ∧ ok_value r = exit_of a ∧
    (∀ e, r = Err e → ∃ es, e = TerminationFailed (h_name h) (recorded_errors d ++ es) ∧ (2 ≤ length es ≤ 4)%nat).
Proof.
  intros Hsend Hid1 Ht1. destruct (os_wait (wait_after sent timeout) w1) as [r w2] eqn:Hw.
  assert (trace w2 = trace w ++ [WCtrlBreak (os_id w) sent; WWait (wait_after sent timeout) r]) as Ht2.
  { cbn in Hw. unfold traced_call in Hw. injection Hw as <- <-. cbn. by rewrite Ht1, <- app_assoc. }
  destruct (attempt_run label timeout d send h w _ _ _ _ Hsend Hw) as (d' & es & Hrun & Hes & Hle & Hne).
  unfold escalate. cbn [graceful_phases signal_label step_timeout]. unfold mbind, st_bind. rewrite Hrun.
  destruct (exit_of r) as [st|] eqn:Hex.
  { exists (Ok st), (after_wait h r), w2, r. split; [reflexivity|]. split_and!; try done; [|by rewrite Hex..].
    intros pre Hpre. eexists. split; [exact Ht2|]. destruct r as [[st'|]|]; try done. injection Hex as ->. by constructor. }
  destruct (platform_kill w2) as [killed w3] eqn:Hk.
  destruct (os_wait (wait_after killed FORCE_KILL_WAIT_TIMEOUT) w3) as [a w4] eqn:Hw4.
  destruct (forceful_run d' (after_wait h r) w2 _ _ _ _ Hk Hw4) as (res & Hkill & Hres & Herr).
  cbn [mret st_ret]. rewrite Hkill. exists res, (after_wait (after_wait h r) a), w4, a. split; [reflexivity|].
  apply exit_of_none in Hex. pose proof (wait_id _ _ _ _ Hw Hex) as Hid2. split_and!; [|..|done|].
  - intros pre Hpre. eexists. split; [|rewrite Hres; by econstructor].
    cbn in Hk, Hw4. unfold traced_call in Hk, Hw4. injection Hk as <- <-. injection Hw4 as <- <-. cbn.
    change (os_id (base w2)) with (os_id w2). by rewrite Ht2, Hid2, Hid1, <- !app_assoc.
  - intros Ha%exit_of_none. by rewrite !after_wait_guard.
  - intros e He. destruct (Herr e He) as (es' & -> & Hl). rewrite after_wait_name, Hes. exists (es ++ es').
    split; [by rewrite app_assoc|]. rewrite length_app. specialize (Hne eq_refl).
    destruct es; [done|]. simpl in *. lia.
Qed.

(** What a termination comes to. *)
Definition win_effect (s : OnWindows.GracefulShutdown) h w (r : result ExitStatus TerminationError)
    (h' : ProcessHandle Stdout Stderr) (w' : traced W) : Prop :=
  (∃ cs, trace w' = trace w ++ cs ∧
     win_terminates (os_id w) (windows_timeout (OnWindows.windows s)) cs (ok_value r)) ∧
  drop_mode h' = (if is_ok r then Disarmed else drop_mode h) ∧
  ∀ e, r = Err e → ∃ es, e = TerminationFailed (h_name h) es ∧ (2 ≤ length es ≤ 5)%nat.

(** The loop behind the preflight check. *)
Lemma win_escalated s d h w pre w1 :
  os_try_wait w = (pre, w1) → not_reaped pre → (length (recorded_errors d) ≤ 1)%nat →
  ∃ r h' w', match escalate [mkStep "CTRL_BREAK_EVENT" (windows_timeout (OnWindows.windows s))]
          (λ _ _, ctrl_break) d (h, w1) with
      | Done (r, s0) => disarm_after_successful_termination r s0
      | Panic => Panic
      end = Done (r, (h', w')) ∧ win_effect s h w r h' w'.
Proof.
  intros Hpre Hnr Hd. assert (trace w1 = trace w ++ [WTryWait pre]) as Ht1.
  { cbn in Hpre. unfold traced_call in Hpre. by injection Hpre as <- <-. }
  destruct (console_break w1) as [sent w2] eqn:Hb.
  assert (ctrl_break (h, w1) = Done (sent, (h, w2))) as Hsend by (unfold ctrl_break, on_os; by rewrite Hb).
  assert (os_id w2 = os_id w1 ∧ trace w2 = trace w1 ++ [WCtrlBreak (os_id w1) sent]) as [Hid2 Ht2].
  { cbn in Hb. unfold traced_call in Hb. injection Hb as <- <-. split; [exact (console_id (base w1))|done]. }
  destruct (win_escalate_run (windows_timeout (OnWindows.windows s)) ctrl_break d h w1 sent w2 "CTRL_BREAK_EVENT" Hsend Hid2 Ht2)
    as (r & h' & w' & a & -> & Hcs & Hm & Hr & Herr).
  destruct (Hcs pre Hnr) as (cs & Hc & Hterm). rewrite (try_wait_id _ _ _ Hpre Hnr) in Hterm.
  rewrite disarm_run. eexists r, _, _. split; [reflexivity|]. split_and!.
  - eexists. split; [|exact Hterm]. by rewrite Hc, Ht1, <- app_assoc.
  - destruct r; [done|]. apply Hm. by rewrite <- Hr.
  - intros e He. destruct (Herr e He) as (es & -> & Hl). eexists. split; [reflexivity|]. rewrite length_app. lia.
Qed.

Lemma windows_terminate_run s h w :
  ∃ r h' w', windows_terminate s (h, w) = Done (r, (h', w')) ∧ win_effect s h w r h' w'.
Proof.
  unfold windows_terminate, windows_terminate_with_hooks, run_termination_loop, try_reap_exit_status, on_os, mbind, st_bind.
  rewrite bool_decide_eq_false_2 by done. cbn [negb assert_that lift]. destruct (os_try_wait w) as [pre w1] eqn:Hpre.
  destruct pre as [[st|]|err]; [|by eapply win_escalated; [done|done|simpl; lia]..].
  unfold mret, st_ret. rewrite disarm_run. eexists _, _, _. split; [reflexivity|]. split_and!; [|done|done].
  eexists. split; [|constructor]. cbn in Hpre. unfold traced_call in Hpre. by injection Hpre as <- <-.
Qed.

(** C25: termination on Windows follows its two-phase protocol for every
    behaviour of the system.  An exited child is noticed first and nothing is
    sent; otherwise one [CTRL_BREAK_EVENT] to its group and never a second one, a wait of
    the configured timeout (or the short grace if the event could not be sent),
    and, only if the child is still there, one forceful kill and its bounded
    wait.  The result is the observed exit status if there is one; the drop
    guard is disarmed exactly then, and otherwise the error names the process
    and carries an entry for every phase that failed. *)
Theorem windows_terminate_protocol s h w :
  ∃ r h' w' cs, windows_terminate s (h, w) = Done (r, (h', w')) ∧ trace w' = trace w ++ cs ∧
    win_terminates (os_id w) (windows_timeout (OnWindows.windows s)) cs (ok_value r) ∧
    drop_mode h' = (if is_ok r then Disarmed else drop_mode h) ∧
    ∀ e, r = Err e → ∃ es, e = TerminationFailed (h_name h) es ∧ (2 ≤ length es ≤ 5)%nat.
Proof.
  destruct (windows_terminate_run s h w) as (r & h' & w' & Hrun & (cs & Hc & Ht) & Hg & He).
  by exists r, h', w', cs.
Qed.

End protocol.

(** *** Cleanup *)

(** The calls show that the child exited, that it was killed while it was there
    to be killed, or that the system refused to. *)
Definition win_exit_seen (c : wcall) : Prop :=
  match c with
  | WTryWait (Ok (Some _)) | WWait _ (Some (Ok _)) | WWaitUnbounded (Ok _) => True
  | _ => False
  end.
Definition win_killed (p : N) (c : wcall) : Prop :=
  match c with WKill (Some q) (Ok _) => q = p | _ => False end.
Definition win_kill_refused (p : N) (c : wcall) : Prop :=
  match c with WKill (Some q) (Err _) => q = p | _ => False end.
Definition win_settled : N → list wcall → Prop := ends_child win_exit_seen win_killed win_kill_refused.

Lemma win_kill_answered p r : win_killed p (WKill (Some p) r) ∨ win_kill_refused p (WKill (Some p) r).
Proof. destruct r; [by left|by right]. Qed.

Lemma win_terminates_settled p timeout cs o : win_terminates (Some p) timeout cs o → win_settled p cs.
Proof.
  destruct 1 as [| |pre sent r killed a].
  - left. by apply Exists_cons_hd.
  - left. do 2 apply Exists_cons_tl. by apply Exists_cons_hd.
  - right. destruct (win_kill_answered p killed); [left|right]; do 3 apply Exists_cons_tl; by apply Exists_cons_hd.
Qed.

#[export] Instance windows_cleanup {W} `{Child W} : Cleanup (traced W) OnWindows.GracefulShutdown := {|
  unreaped w := is_Some (os_id w);
  settled := ended_since trace win_exit_seen win_killed win_kill_refused;
  usable s := True;
|}.

#[export] Instance windows_cleanup_laws {W} `{ChildLaws W, Platform W, !Console W, !ConsoleLaws W}
  : CleanupLaws (traced W) OnWindows.GracefulShutdown.
Proof.
  split.
  - intros w r w' [p Hp] Ht. assert (trace w' = trace w ++ [WTryWait r]) as Hc by (by injection Ht as <- <-).
    destruct r as [[st|]|e]; [eapply ended_by; eauto; by left|..];
      eapply ended_before; eauto; by eapply try_wait_id.
  - intros d w r w' [p Hp] Ht. assert (trace w' = trace w ++ [WWait d r]) as Hc by (by injection Ht as <- <-).
    destruct r as [[st|e]|]; [eapply ended_by; eauto; by left|..];
      eapply ended_before; eauto; by eapply wait_id.
  - intros w [p Hp]. eapply ended_by; [done|reflexivity|right].
    change (os_id (base w)) with (os_id w). rewrite Hp. apply win_kill_answered.
  - intros w w' Hc. by eapply ended_after; [exact Hc|].
  - intros w w' Hc. by eapply ended_after; [exact Hc|].
  - intros Stdout Stderr h w s [p Hp] _.
    destruct (windows_terminate_run s h w) as (r & h' & w' & Hrun & (cs & Hc & Ht) & Hg & _).
    exists r, h', w'. split_and!; [done| |done]. exists p, cs. rewrite Hp in Ht. split_and!; [done..|].
    by eapply win_terminates_settled.
Qed.

(** *** What the operations of a handle preserve

    A property of the system that its calls preserve is preserved by every
    operation built from them, whatever it does to the handle. *)

Section keeps.
Context {W Stdout Stderr : Type} `{Child W, Platform W, Console W} (I : W → Prop).
Abbreviation act := (act (W := W) (Stdout := Stdout) (Stderr := Stderr)).

Definition keeps {A} (m : act A) : Prop :=
  ∀ h w a h' w', I w → m (h, w) = Done (a, (h', w')) → I w'.

Lemma keeps_ret {A} (a : A) : keeps (mret a).
Proof. by intros h w a' h' w' Hw [= <- <- <-]. Qed.

Lemma keeps_bind {A C} (m : act A) (f : A → act C) : keeps m → (∀ a, keeps (f a)) → keeps (m ≫= f).
Proof.
  intros Hm Hf h w c h' w' Hw. unfold mbind, st_bind. destruct (m (h, w)) as [[a [h1 w1]]|] eqn:E; [|done].
  apply Hf. by eapply Hm.
Qed.

Lemma keeps_lift {A} (o : outcome A) : keeps (lift o).
Proof. intros h w a h' w' Hw. unfold lift. destruct o; [|done]. by intros [= <- <- <-]. Qed.

Lemma keeps_on_handle f : keeps (on_handle f).
Proof. intros h w a h' w' Hw. by intros [= <- <- <-]. Qed.

Lemma keeps_get_handle : keeps get_handle.
Proof. intros h w a h' w' Hw. by intros [= <- <- <-]. Qed.

Lemma keeps_must_not : keeps must_not_be_terminated.
Proof.
  intros h w a h' w' Hw. unfold must_not_be_terminated. case_match; [done|]. by intros [= <- <- <-].
Qed.

Lemma keeps_on_os {A} (f : W → A * W) : (∀ w, I w → I (f w).2) → keeps (on_os f).
Proof.
  intros Hf h w a h' w' Hw. unfold on_os. pose proof (Hf w Hw) as Hf'.
  destruct (f w) as [a' w1]. by intros [= <- <- <-].
Qed.

Hypothesis keep_try_wait : ∀ w, I w → I (os_try_wait w).2.
Hypothesis keep_wait : ∀ d w, I w → I (os_wait d w).2.
Hypothesis keep_kill : ∀ w, I w → I (platform_kill w).2.
Hypothesis keep_break : ∀ w, I w → I (console_break w).2.

Ltac keep :=
  repeat first
    [ solve [auto] | apply keeps_ret | apply keeps_lift | apply keeps_on_handle | apply keeps_get_handle | apply keeps_must_not
    | apply keeps_bind; [|intros ?] | apply keeps_on_os; solve [auto] | case_match ].

Lemma keeps_exit_wait d : keeps (wait_for_exit_after_signal d).
Proof. unfold wait_for_exit_after_signal, wait_for_completion_inner, wait_within. keep. Qed.

Lemma keeps_failed {A} d : keeps (termination_failed (A := A) d).
Proof. unfold termination_failed. keep. Qed.

Lemma keeps_graceful_phase name timeout d send : keeps send → keeps (attempt_graceful_phase name timeout d send).
Proof. intros Hs. unfold attempt_graceful_phase. pose proof keeps_exit_wait. keep. Qed.

Lemma keeps_forceful d : keeps (attempt_forceful_kill d).
Proof. unfold attempt_forceful_kill, send_kill_signal. pose proof keeps_exit_wait. pose proof @keeps_failed. keep. Qed.

Lemma keeps_phases steps index send d :
  (∀ i st, keeps (send i st)) → keeps (graceful_phases steps index send d).
Proof.
  intros Hs. revert index d. induction steps as [|st steps IH]; intros index d; cbn [graceful_phases]; [keep|].
  pose proof keeps_graceful_phase. keep.
Qed.

Lemma keeps_windows_terminate s : keeps (windows_terminate s).
Proof.
  assert (∀ d, keeps (escalate [mkStep "CTRL_BREAK_EVENT" (windows_timeout (OnWindows.windows s))]
    (λ _ _, ctrl_break) d)) as He.
  { intros d. unfold escalate. pose proof keeps_forceful. apply keeps_bind; [|intros ?; keep].
    apply keeps_phases. intros _ _. unfold ctrl_break. keep. }
  unfold windows_terminate, windows_terminate_with_hooks, run_termination_loop, try_reap_exit_status,
    disarm_after_successful_termination. keep.
Qed.

Lemma keeps_start_kill : keeps start_kill.
Proof. unfold start_kill, close_stdin, send_kill_signal, try_reap_exit_status. pose proof @keeps_failed. keep. Qed.

(** The drop of the wrapper, with that of the handle in it. *)
Lemma keeps_drop c (t : TerminateOnDrop OnWindows.GracefulShutdown Stdout Stderr) w b w' :
  I w → drop_terminate_on_drop c t w = Done (b, w') → I w'.
Proof.
  intros Hw. unfold drop_terminate_on_drop.
  assert (keeps (drop_body (fallback t) (shutdown t) c)) as Hb.
  { unfold drop_body, nothing_to_terminate, is_running, try_reap_exit_status, terminate_gracefully, terminate_forcefully.
    pose proof (keeps_windows_terminate : ∀ s, keeps (graceful_terminate s)). pose proof keeps_start_kill. keep. }
  destruct (drop_body _ _ _ _) as [[bp [h1 w1]]|] eqn:E; [|done]. cbn [mbind outcome_bind].
  pose proof (Hb _ _ _ _ _ Hw E) as Hw1. unfold handle_drop. intros [= <- <-]. destruct (drop_mode h1); auto.
Qed.

End keeps.

(** *** From the calls to the system's requests *)

Section requests.
Context {W : Type} `{Win32Laws W} (j : JobObject).
Implicit Types w : traced (ProcessGroup * W).

(** What a call of a handle asks the system for, if the group owns the job [j]:
    nothing once the child was reaped. *)
Definition request (c : wcall) : list (effect * bool) :=
  match c with
  | WCtrlBreak (Some p) r => [(CtrlBreak p, is_ok r)]
  | WKill (Some _) r => [(KillTree (job_handle j) 1, is_ok r)]
  | _ => []
  end.

(** Since [w0] the system was asked for exactly what the calls stand for. *)
Definition asked (w0 w : traced (ProcessGroup * W)) : Prop :=
  (base w).1 = mkGroup (Some j) ∧
  ∃ cs, trace w = trace w0 ++ cs ∧ effects (base w).2 = effects (base w0).2 ++ (cs ≫= request).

Lemma asked_call w0 w c g' u :
  asked w0 w → g' = (base w).1 → effects u = effects (base w).2 ++ request c →
  asked w0 (mkTraced (g', u) (trace w ++ [c])).
Proof.
  intros (Hg & cs & Ht & He) -> Hu. split; [done|]. exists (cs ++ [c]). cbn.
  rewrite Ht, Hu, He, bind_app, <- !app_assoc. cbn. by rewrite app_nil_r.
Qed.

Lemma asked_kill w0 w : asked w0 w → asked w0 (platform_kill w).2.
Proof.
  destruct w as [[g u] tr]. intros Hw. pose proof Hw as (Hg & _). cbn in Hg. subst g. cbn.
  apply (asked_call w0 _ _ _ _ Hw); [done|]. cbn. destruct (os_id u) as [p|] eqn:Hp.
  - by rewrite (proj1 (send_kill_job (mkGroup (Some j)) j u eq_refl ltac:(by rewrite Hp))).
  - unfold send_kill. rewrite Hp. cbn. by rewrite app_nil_r.
Qed.

Lemma asked_break w0 w : asked w0 w → asked w0 (console_break w).2.
Proof.
  destruct w as [[g u] tr]. intros Hw. cbn. apply (asked_call w0 _ _ _ _ Hw); [done|]. cbn.
  destruct (send_ctrl_break g u) as [r u'] eqn:Hs. apply send_ctrl_break_effect in Hs as [_ He]. cbn.
  rewrite He. by destruct (os_id u).
Qed.

Lemma asked_drop {Stdout Stderr} c (t : TerminateOnDrop OnWindows.GracefulShutdown Stdout Stderr) w b w' :
  (base w).1 = mkGroup (Some j) → drop_terminate_on_drop c t w = Done (b, w') → asked w w'.
Proof.
  intros Hg. apply (keeps_drop (asked w)); auto using asked_kill, asked_break.
  - intros [[g u] tr] Hw. cbn. apply (asked_call w _ _ _ _ Hw); [done|]. cbn. by rewrite try_wait_effects, app_nil_r.
  - intros d [[g u] tr] Hw. cbn. apply (asked_call w _ _ _ _ Hw); [done|]. cbn. by rewrite wait_effects, app_nil_r.
  - split; [done|]. exists []. by rewrite !app_nil_r.
Qed.

(** A kill among the calls is a request to terminate the job. *)
Lemma kill_requested p cs :
  win_settled p cs →
  Exists win_exit_seen cs ∨
  (KillTree (job_handle j) 1, true) ∈ (cs ≫= request) ∨ (KillTree (job_handle j) 1, false) ∈ (cs ≫= request).
Proof.
  intros [?|[Hk|Hk]]; [by left|right; left|right; right]; apply Exists_exists in Hk as (c & Hin & Hc);
    apply list_elem_of_bind; exists c; (split; [|done]); destruct c as [| | | |[q|] [u|e]]; try done;
    by apply list_elem_of_singleton.
Qed.

End requests.


(** ** Spawning *)

Definition CREATE_NEW_PROCESS_GROUP : N := 512.

Definition windows_prepare_command (c : Command) : Command :=
  mkCommand (get_program c) (get_args c) (get_envs c) (get_current_dir c) (cmd_process_group c)
    CREATE_NEW_PROCESS_GROUP (cmd_stdin c) (cmd_stdout c) (cmd_stderr c) (cmd_kill_on_drop c).

Section spawn.
Context {W C1 X1 C2 X2 : Type} `{Win32 W} `{Spawner W}.
Context `{Hc1 : ProcessStreamConfig C1 X1, !ConfigLaws C1 X1, Hc2 : ProcessStreamConfig C2 X2, !ConfigLaws C2 X2}.

Definition windows_spawn_with_stream_configs (name : String.string) (cmd : Command) (stdout_config : C1)
    (stderr_config : C2) (w : W) : outcome (result (ProcessHandle X1 X2 * ProcessGroup) SpawnError * W) :=
  let cmd := with_stdio (windows_prepare_command cmd) (child_stdio stdout_config) (child_stdio stderr_config) in
  match os_spawn cmd w with
  | (Err source, w) => mret (Err (SpawnFailed name source), w)
  | (Ok child, w) =>
      match from_spawned_child w with
      | (Err source, w) => mret (Err (JobAttachmentFailed name source), w)
      | (Ok group, w) =>
          h ← handle_of_child name stdout_config stderr_config child;
          mret (Ok (h, group), w)
      end
  end.

(** Spawning ends in one of three ways: the system refuses, the child could not
    be put into a job (and its death was asked for), or
    the handle is armed and owns the group. *)
Lemma windows_spawn_armed name cmd (c1 : C1) (c2 : C2) (w : W) :
  openable c1 → openable c2 →
  let cmd' := with_stdio (windows_prepare_command cmd) (child_stdio c1) (child_stdio c2) in
  cmd_creation_flags cmd' = CREATE_NEW_PROCESS_GROUP ∧ cmd_kill_on_drop cmd' = false ∧
  let run := windows_spawn_with_stream_configs name cmd c1 c2 w in
  match os_spawn cmd' w with
  | (Err e, w') => run = Done (Err (SpawnFailed name e), w')
  | (Ok _, w1) =>
      match from_spawned_child w1 with
      | (Err e, w') => run = Done (Err (JobAttachmentFailed name e), w')
      | (Ok g, w') => ∃ h, run = Done (Ok (h, g), w') ∧
          h_name h = name ∧ std_in h = StdinOpen ∧ is_drop_armed h = true
      end
  end.
Proof.
  intros Hv1 Hv2 cmd'. do 2 (split; [reflexivity|]). intros run. unfold run, windows_spawn_with_stream_configs.
  fold cmd'. destruct (os_spawn cmd' w) as [[child|e] w1] eqn:Hs; [|reflexivity].
  destruct (from_spawned_child w1) as [[g|e] w']; [|reflexivity].
  destruct (handle_of_child_armed name _ _ _ _ _ _ Hv1 Hv2 Hs) as (h & Hh & ? & ? & ?). exists h.
  cbn [mbind outcome_bind]. by rewrite Hh.
Qed.

End spawn.

(** ** A scripted system

    Calls succeed or fail as the script says.  A failure sets the thread's last
    error; closing a handle, as a success may, sets it too. *)

Module WinDemo.

Record world : Type := mkWorld {
  script : list bool; child : option N; table : gset HANDLE; procs : gmap HANDLE N;
  done : list (effect * bool); error : io_error }.

Definition success : io_error := mkIoError Other "The operation completed successfully.".
Definition denied : io_error := mkIoError PermissionDenied "Access is denied.".

(** The next result of the script, and the world it leaves. *)
Definition answer (w : world) : bool * world :=
  match script w with
  | [] => (true, w)
  | b :: bs => (b, mkWorld bs (child w) (table w) (procs w) (done w) (if b then error w else denied))
  end.

Definition with_done (w : world) (l : list (effect * bool)) : world :=
  mkWorld (script w) (child w) (table w) (procs w) (done w ++ l) (error w).

(** A new handle, on the process if there is one. *)
Definition open_one (p : option N) (w : world) : option HANDLE * world :=
  let '(ok, w) := answer w in
  if ok : bool then
    let h := fresh (table w) in
    (Some h, mkWorld (script w) (child w) ({[h]} ∪ table w) (partial_alter (λ _, p) h (procs w)) (done w) (error w))
  else (None, w).

Definition act (e : option effect) (w : world) : bool * world :=
  let '(ok, w) := answer w in (ok, with_done w (option_list ((λ x, (x, ok)) <$> e))).

Definition world_child : Child world := {|
  os_id := child;
  os_try_wait w := (Ok None, w);
  os_wait _ w := (None, w);
  os_wait_unbounded w := (Ok (mkExitStatus None), w);
|}.

#[global] Instance win_world : Win32 world := {|
  win_child := world_child;
  win_start_kill w := let '(ok, w) := act (Some KillLeader) w in (if ok : bool then Ok () else Err (error w), w);
  CreateJobObjectW := open_one None;
  OpenProcess p := open_one (Some p);
  AssignProcessToJobObject j h w := act (Attach j <$> procs w !! h) w;
  TerminateJobObject j c := act (Some (KillTree j c));
  CloseHandle h w := mkWorld (script w) (child w) (table w ∖ {[h]}) (procs w) (done w) success;
  GenerateConsoleCtrlEvent p := act (Some (CtrlBreak p));
  last_os_error := error;
  open_handles := table;
  process_of w h := procs w !! h;
  effects := done;
|}.

Lemma answer_view w : win_view (answer w).2 = win_view w.
Proof. unfold answer. by destruct (script w). Qed.

Lemma act_view e w :
  win_view (act e w).2 = (table w, done w ++ option_list ((λ x, (x, (act e w).1)) <$> e), child w).
Proof.
  unfold act. pose proof (answer_view w) as Ha. destruct (answer w) as [ok u]. cbn in *.
  unfold win_view in *. cbn in *. by injection Ha as -> -> ->.
Qed.

Lemma open_one_opened p w : opened w (open_one p w).
Proof.
  unfold open_one. pose proof (answer_view w) as Ha. destruct (answer w) as [[] u]; cbn in *; [|done].
  unfold opened, win_view in *. cbn in *. injection Ha as -> -> ->. split; [apply is_fresh|done].
Qed.

#[global] Instance win_world_laws : Win32Laws world.
Proof.
  split; intros; try done; try apply open_one_opened; try apply act_view.
  - split; [apply open_one_opened|]. intros h. cbn. unfold open_one. destruct (answer w) as [[] u]; [|done].
    cbn. intros [= <-]. apply lookup_partial_alter_eq.
  - cbn [AssignProcessToJobObject win_world]. rewrite act_view. cbn. by destruct (procs w !! h).
  - cbn. pose proof (act_view (Some KillLeader) w) as Ha. destruct (act (Some KillLeader) w) as [ok u].
    cbn in *. by destruct ok.
Qed.

#[global] Instance win_world_child_laws : ChildLaws world.
Proof. split; intros; by simplify_eq/=. Qed.

(** A handle whose child never exits, with its job. *)
Definition stuck : traced (ProcessGroup * world) :=
  mkTraced (mkGroup (Some (mkJob 3)), mkWorld [] (Some 7) {[3]} ∅ [] success) [].

Definition graceful : OnWindows.GracefulShutdown := OnWindows.mkGraceful (mkWindows 5).

(** Creating the job succeeds, opening the child fails, the kill succeeds. *)
Definition refused : world := mkWorld [true; false; true] (Some 7) {[3]} ∅ [] success.

(** The assignment is what fails. *)
Definition unassigned : world := mkWorld [true; true; false; true] (Some 7) {[3]} ∅ [] success.

End WinDemo.

Lemma windows_group_ownership_witness :
  ∃ e w', from_spawned_child WinDemo.refused = (Err e, w') ∧ open_handles w' = {[3]} ∧
    effects w' = [(KillLeader, true)].
Proof.
  destruct (from_spawned_child WinDemo.refused) as [[g|e] w'] eqn:Hf.
  - exfalso. vm_compute in Hf. discriminate Hf.
  - pose proof (windows_group_ownership WinDemo.refused _ w' Hf) as [Hh _].
    exists e, w'. split; [reflexivity|]. split; [exact Hh|]. vm_compute in Hf. injection Hf as _ <-. reflexivity.
Defined.

Lemma windows_terminate_protocol_witness :
  ∃ r h' w' cs, windows_terminate WinDemo.graceful (ProcessDemo.handle, WinDemo.stuck) = Done (r, (h', w')) ∧
    trace w' = cs ∧ win_terminates (Some 7) 5 cs (ok_value r).
Proof.
  destruct (windows_terminate_protocol WinDemo.graceful ProcessDemo.handle WinDemo.stuck)
    as (r & h' & w' & cs & Hrun & Hc & Ht & _).
  exists r, h', w', cs. split; [exact Hrun|]. split; [exact Hc|exact Ht].
Defined.


(** The reason for a failed job assignment can be lost.  The code closes the
    process handle before it reads the thread's last error, so it reports what
    that call left behind, here that the operation succeeded, instead of the
    assignment's own error. *)
Lemma job_assign_error_lost :
  ∃ w w' : WinDemo.world,
    new_with_child w = (Err WinDemo.success, w') ∧
    ∀ j p u, (AssignProcessToJobObject j p u).1 = false →
      last_os_error (AssignProcessToJobObject j p u).2 = WinDemo.denied.
Proof.
  exists WinDemo.unassigned. eexists. split; [vm_compute; reflexivity|].
  intros j p u. cbn. unfold WinDemo.act, WinDemo.answer. by destruct (WinDemo.script u) as [|[] bs].
Qed.

(** A child that never exits is asked once and then killed with its job. *)
Example windows_stuck_child_killed :
  ∃ r h w, windows_terminate WinDemo.graceful (ProcessDemo.handle, WinDemo.stuck) = Done (r, (h, w)) ∧
    is_ok r = false ∧ effects (base w).2 = [(CtrlBreak 7, true); (KillTree 3 1, true)] ∧
    trace w = [WTryWait (Ok None); WCtrlBreak (Some 7) (Ok ()); WWait 5 None; WKill (Some 7) (Ok ());
               WWait FORCE_KILL_WAIT_TIMEOUT None].
Proof. eexists _, _, _. vm_compute. split_and!; reflexivity. Qed.
